(* ===== verification/_CoqProject ===== *)
-Q . S2P
Prelude.v
RustStr.v
Pep440.v
Names.v
Denylist.v
Documents.v
Render.v
Hash.v
Decide.v
Storage.v
Origin.v
Status.v
Lease.v
Markers.v
Replicate.v
Artifact.v
Execute.v
Footprint.v
Preserve.v
Attest.v
Progress.v
Scan.v
Converge.v
Claims.v
Spread.v
BucketHealth.v
Fanout.v
Reconcile.v
Jobs.v
Index.v
Rebuild.v
Pages.v
Publish.v
Edits.v
Uploads.v
Net.v
Ssrf.v
Range.v
Auth.v
Throttle.v
Chain.v
Append.v
Verify.v
Osv.v
Advisories.v
Simple.v
Requires.v
Mirror.v
Deps.v
Select.v
Sync.v
Counters.v
Rollup.v
Freeze.v
