(* ===== verification/Prelude.v ===== *)
(** * pypiron: a verification development

    pypiron is a PyPI server in Rust whose only shared state is one or more
    object-store buckets. Nodes keep no database: they coordinate through
    conditional writes on small JSON objects next to the artifacts, a leader
    lease elects the index worker, dirty markers tell it what to rebuild, and in
    a multi-bucket deployment every pair of buckets is reconciled by a pure merge
    decision and a set of idempotent repairs. Around that core sit the request
    gates: credentials, roles and install tokens, the failed-login throttle, byte
    ranges, and the guard on outbound fetches. The leader also keeps a chain of
    signed-off listings, the advisories that block malware and the download
    counters, and a sync command mirrors projects from an upstream index.

    The development translates that core (files under src/src/) into executable
    definitions and proves what each part promises to the others.

    ** Files, in dependency order

    Foundations:
    - [Prelude]: byte strings with literals, [result] and its [let?], machine
      integers written out at their width, the [Ord] class (Rust's [Ord] as a
      three-way comparison with its laws, and instances for numbers, bytes,
      pairs and strings), case-analysis tactics.
    - [RustStr]: what the program uses of [str]: prefixes, splits, Unicode trim,
      UTF-8 validity, number parsing and printing, the byte order of keys.
    - [Pep440]: the interface of the version crate (parse, compare, print).
    - [Names] (names.rs): PEP 503 names and the gate in front of storage keys,
      wildcard and private patterns, wheel and sdist filenames. [Denylist]
      (denylist.rs): the exclude list and its canonical stamp.
    - [Documents] (sidecar.rs, the data of origin.rs, status.rs, decide.rs): the
      stored records and keys; [Codec] (serde) and [Digest] (SHA-256) are the
      interfaces their clients are proved against, [countable_codec] an instance
      to evaluate with. [Hash] (hash.rs): hexadecimal forms and HMAC over
      [Digest]. [Render] (render.rs): the index pages and a reader of them.
    - [Decide] (replicate/decide.rs): record classification, the decision for a
      pair of records, the merges of sidecars and statuses.
    - [Storage] (the trait of storage.rs): the contract of a bucket as a map of
      objects with ETags. A program is a tree of storage operations ([prog]);
      [run] executes it alone, [exec] relates it to every outcome including
      errors, lost replies and half-done deletes, [step] interleaves any number
      of programs operation by operation. The file also holds the program logics
      the clients use: [guar] (every operation a program issues satisfies a
      guarantee), [follows] (a key changes only along a given relation), [keeps]
      (what a program knows stays true under interference) and [holds].

    Protocols over that contract:
    - [Origin] (origin.rs), [Status] (status.rs), [Lease] (lease.rs), [Markers]
      (markers.rs and the dirty-work rules of worker.rs).
    - [Replicate] (record reads, fences, quarantine and adoption of replicate.rs,
      tombstone.rs), [Artifact] (verified writes of storage.rs, staging),
      [Execute] (the executor of a verdict: copies, supersedes, settlements).
      [Footprint], [Preserve], [Attest] and [Progress] prove what the executor
      may write, never loses, always attests and finally reaches.
    - [Scan] (the paged cursor and the removal gate), [Converge] (the merge of a
      record and of a package, the walk of two buckets), with [Claims] and
      [Spread] on what that does to the origin claims.
    - [BucketHealth] (bucket_health.rs): the per-node failover state machine.
      [Fanout] (fan-out, repair notes, sweep, sentinels) and [Reconcile] (the
      job over the whole fleet) stand on it.
    - [Jobs] ([join_all] of jobs with keys of their own), [Index] (the package
      rebuild of worker.rs, the memo of sidecar_cache.rs), [Rebuild] and [Pages]
      (what a rebuild leaves).
    - [Publish] (upload, delete and sidecar edits of publish.rs), with [Edits]
      and [Uploads] on what their answers mean.

    History, advisories, mirroring and counters:
    - [Chain] (transparency.rs: links, keys, catch-up, the append and the audit's
      checkpoint), [Append] (what an append does to every bucket of the fleet)
      and [Verify] (verify-chain: integrity, replay and the report).
    - [Osv] (osv.rs: feed members, clauses, version scopes, fixes, lookups) and
      [Advisories] (advisories.rs: a node's snapshot and overlays, the quarantined
      set it shares through one object).
    - [Simple] (simple.rs: an upstream listing, its status and the capped read),
      [Requires] and [Deps] (deps.rs: requirement text, the memo of releases, the
      worklist of the closure), [Mirror] (the file filters of sync.rs), [Select]
      (the selection from a listing, the cooldown watermark, the conditional
      fetch) and [Sync] (the sync of one project against both servers).
    - [Counters] (counters.rs: the buffer, the gate and the flush of a node),
      [Rollup] (its keys, the rollup pass and the queries, over the adapter of
      app.rs) and [Freeze] (what a pass keeps, what a query counts).

    Gates:
    - [Net] (std::net), [Ssrf] (ssrf.rs): addresses, the outbound guard and the
      redirect loop. [Range] (range.rs): byte ranges.
    - [Auth] (token.rs, auth.rs, the role checks of app.rs) and [Throttle]
      (the login throttle of auth.rs with the requests in flight).

    ** What the theorems show

    - Merge decision: it does not depend on which bucket is read first; a deleted
      or frozen filename is never resurrected and its fence always spreads; different bytes under one name are
      resolved only by a clear time gap or frozen; [Noop] is agreement; repeated
      pairwise merges of a sidecar converge.
    - Coordination, for every interleaving of any number of nodes with faults: a
      private name stays private; claims move only along the lattice; a status
      changes only to the next epoch or to an event that wins the merge, so older
      events never return; the lease changes hands only as documented; a body
      goes only behind its tombstone; a sidecar is never replaced by a worse one.
    - Replication over streamed copies loses no bytes (they stand under their key,
      in quarantine, or behind a tombstone), whatever interleaves; for settling
      a demotion, which ends in an unconditional delete, this is proved of a run
      nothing else writes into. A supersede that stops anywhere is completed by
      the next rebuild; a copied sidecar names the bytes it stands over, and an
      undisturbed copy, streamed or by the provider's verb, leaves two buckets
      that agree; a verified write reports success only for the offered bytes.
    - Fleet: for every other bucket an acknowledged write is owed by a durable
      note, or this fan-out's own operations are a whole merge with it that
      converged, and a note stands until its debt is paid; a pass that returns
      clean has spread every private claim; a sentinel falls only after two
      passes in which every diff was whole and clean; the removal gate reports
      exactly what would be lost. ([Storage] logs a program's operations, so
      that these say what a run itself did.)
    - Index: the work a listing yields is exactly the packages with a committed
      or expired intent and no live one; a rebuilt index is the rendering of the
      records the bucket then holds, less a mirror's malware unless the rebuild
      could not read the claim; a page's links read back; the memo is
      bounded and trusted only under its token.
    - Publishing: a created upload is stored under its sidecar and shown by every
      true page unless excluded or blocked, and a refusal means what it says; no
      reader sees a deleted body without its fence; a sidecar edit is exactly one
      epoch or revision ahead of what it replaces.
    - Transparency: a written link never changes, an append takes a number no
      bucket has spent and writes nothing onto a rival branch, a verified chain
      seals its history, and a clean verdict means the chain tells what the
      buckets hold.
    - Advisories: exactly the versions a feed names as malware are blocked and an
      unreadable clause blocks more, never less; a fix is exempt from the cooldown
      only when it is one and has settled; the shared quarantine never steps back,
      and an acknowledged freeze is in it.
    - Mirroring: reading a requirement panics exactly when its marker ends in a
      test of [extra] against an open quote whose last character is not ASCII;
      the dependency closure terminates, is the least one and does not depend on
      the order of the work; a replayed ETag hides no file that has come of age,
      but for one that reached the cutoff between the two readings the selection
      makes of the clock; an upstream status is relayed only on a readable
      verdict; a cursor that advances means both servers agree, and never passes
      over a freeze the destination cannot take.
    - Counters: every recorded download is in exactly one place through failed and
      cancelled flushes, under the cap; a rollup pass, interrupted anywhere,
      changes no bucket's count of a retained day; a query counts each once.
    - Bucket health: selections stay in range and on usable buckets, moves need
      their cause, the read pin is earned only through its gate, and the leave
      rule is exactly the failure streak.
    - Gates: the guess budget, lockouts and blindness of the throttle; tokens are
      honoured exactly when genuine and live; the admin gate on every branch;
      every fetch hop is checked and forbidden networks are exactly the listed
      ones; ranges are slices; names, patterns and filenames mean what their
      grammars say.

    ** Choices

    Integers are [Z] with saturation and wrap-around written where the code has
    them; times are milliseconds or seconds as in the code. Retry loops keep their
    attempt constants, so they are structural. Unbounded loops take a fuel: the
    paged scans and the pairwise walk, whose theorems ask for more than the
    bucket has objects; the chunks of a staged body, whose fuel is the body's
    length; the wildcard matcher, whose fuel is a measure its proof shows
    sufficient. ETags are the parameter [Etags]: one token stands for one
    content. Object stores are assumed to offer atomic single-object operations
    and nothing else: any operation may fail before or after taking effect. The
    worklist of the dependency closure takes [walk_fuel], a bound computed from
    the memo that its termination theorem shows sufficient.

    What a node cannot decide is a parameter of the program it drives: the clock,
    nonces, the order in which concurrent jobs progress ([schedules]), how long a
    merge is waited for, which buckets are eligible when asked. The theorems hold
    for all of them. Where the code reads the clock twice the two readings are
    two arguments. The HTTP peers of a sync are records of the answers they give,
    with a log of the requests they were sent. Download counts are natural
    numbers: one is added per request, so 64 bits are not reached. The intent
    that a Rust value's drop commits is written as that commit on every way out.

    ** Not modelled

    The storage backends (disk, S3, GCS, Azure), HTTP routing and streaming,
    multipart parsing, human pages, metrics and logs, the pull-through proxy,
    attestation signatures, configuration and the command line: I/O around the
    modelled core, or clients of crates the sources only call. Of the worker,
    the global index and the loop that schedules rebuilds, audits and
    rollups are not modelled; of the sync, configuration merging, the downloads
    and multipart uploads themselves and the progress display are not; of the
    advisories, the feed downloads, the probe loop and the audit report are not. *)
From Stdlib Require Export ZArith Lia Ascii.
From stdpp Require Export base list gmap strings sorting.

#[global] Set Default Goal Selector "!".
#[global] Open Scope Z_scope.

(** ** Rust values *)

(** A Rust [String]/[&str]/[Vec<u8>]: its bytes (a [&str] is its UTF-8 bytes). *)
Abbreviation str := (list ascii).

Declare Scope str_scope.
Delimit Scope str_scope with str.
(** [&"text"] is the byte string of a Rust literal. *)
Notation "'&' s" := (String.list_ascii_of_string s%string)
  (at level 1, s at level 0, only parsing) : str_scope.
#[global] Open Scope str_scope.

(** Rust's [Result<A, E>]. *)
Inductive result (E A : Type) : Type :=
  | Ok (a : A)
  | Err (e : E).
Arguments Ok {E A} a.
Arguments Err {E A} e.

#[global] Instance result_eq_dec `{EqDecision E, EqDecision A} : EqDecision (result E A).
Proof. solve_decision. Defined.

Definition is_ok {E A} (r : result E A) : bool :=
  match r with Ok _ => true | Err _ => false end.

(** The [?] operator. *)
Definition rbind {E A B} (r : result E A) (k : A -> result E B) : result E B :=
  match r with Ok a => k a | Err e => Err e end.

Declare Scope rust_scope.
Delimit Scope rust_scope with rust.
Notation "'let?' x ':=' r 'in' k" := (rbind r (fun x => k))
  (at level 10, x pattern, k at level 200) : rust_scope.
Notation "'let!' x ':=' o 'in' k" := (mbind (M := option) (fun x => k) o)
  (at level 10, x pattern, k at level 200) : rust_scope.
#[global] Open Scope rust_scope.

(** ** Machine integers: values of [Z] with the width's operations written out *)

Definition u32_max : Z := 2 ^ 32 - 1.
Definition u64_max : Z := 2 ^ 64 - 1.
Definition i64_max : Z := 2 ^ 63 - 1.
Definition i64_min : Z := - 2 ^ 63.

Definition u32 (x : Z) : Prop := 0 <= x <= u32_max.
Definition u64 (x : Z) : Prop := 0 <= x <= u64_max.
Definition i64 (x : Z) : Prop := i64_min <= x <= i64_max.

(** [u32::saturating_add], [u64::saturating_add], [i64::saturating_add]. *)
Definition u32_saturating_add (a b : Z) : Z := Z.min (a + b) u32_max.
Definition u64_saturating_add (a b : Z) : Z := Z.min (a + b) u64_max.
Definition i64_saturating_add (a b : Z) : Z := Z.max i64_min (Z.min (a + b) i64_max).
(** Plain [+] and [*] of a release build: wrap-around. *)
Definition u64_wrapping_add (a b : Z) : Z := (a + b) mod 2 ^ 64.
Definition i64_wrap (x : Z) : Z := (x + 2 ^ 63) mod 2 ^ 64 - 2 ^ 63.
Definition i64_wrapping_add (a b : Z) : Z := i64_wrap (a + b).
Definition i64_wrapping_mul (a b : Z) : Z := i64_wrap (a * b).
(** [u64::saturating_sub], [u64::abs_diff], [u64::div_ceil]. *)
Definition u64_saturating_sub (a b : Z) : Z := Z.max (a - b) 0.
Definition u64_abs_diff (a b : Z) : Z := Z.abs (a - b).
Definition u64_div_ceil (a b : Z) : Z := (a + b - 1) / b.

(** ** Comparison as data: what Rust's [Ord] promises *)

(** [Ord] for a type whose [Eq] is structural: a total order as a
    three-way comparison. *)
Class Ord (A : Type) := {
  cmp : A -> A -> comparison;
  cmp_eq_iff : forall a b, cmp a b = Eq <-> a = b;
  cmp_opp : forall a b, cmp b a = CompOpp (cmp a b);
  cmp_lt_trans : forall a b c, cmp a b = Lt -> cmp b c = Lt -> cmp a c = Lt
}.

Section ord_facts.
Context `{Ord A}.
Implicit Types a b c : A.

Lemma cmp_refl a : cmp a a = Eq.
Proof. by apply cmp_eq_iff. Qed.

Lemma cmp_gt_lt a b : cmp a b = Gt <-> cmp b a = Lt.
Proof. rewrite (cmp_opp a b). by destruct (cmp a b). Qed.

Lemma cmp_gt_trans a b c : cmp a b = Gt -> cmp b c = Gt -> cmp a c = Gt.
Proof. rewrite !cmp_gt_lt. eauto using cmp_lt_trans. Qed.

(** Rust's derived [<=] on an [Ord] type. *)
Definition leb a b : bool := match cmp a b with Gt => false | _ => true end.

Lemma leb_antisym a b : leb a b = true -> leb b a = true -> a = b.
Proof.
  unfold leb. rewrite (cmp_opp a b). destruct (cmp a b) eqn:E; simpl; try done.
  by apply cmp_eq_iff in E.
Qed.

Lemma leb_false_swap a b : leb a b = false -> leb b a = true.
Proof. unfold leb. rewrite (cmp_opp a b). by destruct (cmp a b). Qed.

Lemma leb_trans a b c : leb a b = true -> leb b c = true -> leb a c = true.
Proof.
  unfold leb. intros Hab Hbc.
  destruct (cmp a b) eqn:E1; [apply cmp_eq_iff in E1; by subst | | done].
  destruct (cmp b c) eqn:E2; [apply cmp_eq_iff in E2; subst; by rewrite E1 | | done].
  by rewrite (cmp_lt_trans _ _ _ E1 E2).
Qed.
End ord_facts.

#[export] Instance Z_ord : Ord Z.
Proof.
  refine {| cmp := Z.compare |}.
  - apply Z.compare_eq_iff.
  - intros a b. apply Z.compare_antisym.
  - intros a b c. rewrite !Z.compare_lt_iff. lia.
Defined.

#[export] Instance bool_ord : Ord bool.
Proof.
  refine {| cmp a b := match a, b with
                       | true, false => Gt | false, true => Lt | _, _ => Eq end |}.
  - by intros [] [].
  - by intros [] [].
  - by intros [] [] [].
Defined.

#[export] Instance ascii_ord : Ord ascii.
Proof.
  refine {| cmp a b := N.compare (N_of_ascii a) (N_of_ascii b) |}.
  - intros a b. rewrite N.compare_eq_iff. split; [| by intros ->].
    intros E. by rewrite <- (ascii_N_embedding a), <- (ascii_N_embedding b), E.
  - intros a b. apply N.compare_antisym.
  - intros a b c. rewrite !N.compare_lt_iff. lia.
Defined.

(** Lexicographic order of Rust tuples. *)
#[export] Instance prod_ord `{Ord A, Ord B} : Ord (A * B).
Proof.
  refine {| cmp p q := match cmp p.1 q.1 with Eq => cmp p.2 q.2 | c => c end |}.
  - intros [a x] [b y]; simpl. destruct (cmp a b) eqn:E.
    + apply cmp_eq_iff in E as ->. rewrite cmp_eq_iff. naive_solver.
    + split; [done | intros [= -> ->]]. by rewrite cmp_refl in E.
    + split; [done | intros [= -> ->]]. by rewrite cmp_refl in E.
  - intros [a x] [b y]; simpl. rewrite (cmp_opp a b).
    destruct (cmp a b); simpl; [apply cmp_opp | done..].
  - intros [a x] [b y] [c z]; simpl. destruct (cmp a b) eqn:E1; [| | done].
    + apply cmp_eq_iff in E1 as ->. destruct (cmp b c); [apply cmp_lt_trans | done..].
    + intros _. destruct (cmp b c) eqn:E2; [| | done].
      * apply cmp_eq_iff in E2 as ->. by rewrite E1.
      * by rewrite (cmp_lt_trans _ _ _ E1 E2).
Defined.

(** Lexicographic order of Rust slices and strings. *)
Section list_ord.
Context `{Ord A}.
Fixpoint list_cmp (l k : list A) : comparison :=
  match l, k with
  | [], [] => Eq
  | [], _ => Lt
  | _, [] => Gt
  | a :: l, b :: k => match cmp a b with Eq => list_cmp l k | c => c end
  end.

Lemma list_cmp_eq l k : list_cmp l k = Eq <-> l = k.
Proof.
  revert k; induction l as [|a l IH]; intros [|b k]; simpl; try done.
  destruct (cmp a b) eqn:E.
  - apply cmp_eq_iff in E as ->. rewrite IH. naive_solver.
  - split; [done | intros [= -> ->]]. by rewrite cmp_refl in E.
  - split; [done | intros [= -> ->]]. by rewrite cmp_refl in E.
Qed.

Lemma list_cmp_opp l k : list_cmp k l = CompOpp (list_cmp l k).
Proof.
  revert k; induction l as [|a l IH]; intros [|b k]; simpl; try done.
  rewrite (cmp_opp a b). destruct (cmp a b); simpl; auto.
Qed.

Lemma list_cmp_trans l k m : list_cmp l k = Lt -> list_cmp k m = Lt -> list_cmp l m = Lt.
Proof.
  revert k m; induction l as [|a l IH]; intros [|b k] [|c m]; simpl; try done.
  destruct (cmp a b) eqn:E1; [| | done].
  - apply cmp_eq_iff in E1 as ->. destruct (cmp b c); eauto.
  - intros _. destruct (cmp b c) eqn:E2; [| | done].
    + apply cmp_eq_iff in E2 as ->. by rewrite E1.
    + by rewrite (cmp_lt_trans _ _ _ E1 E2).
Qed.
End list_ord.

#[export] Instance list_Ord `{Ord A} : Ord (list A) :=
  {| cmp := list_cmp; cmp_eq_iff := list_cmp_eq;
     cmp_opp := list_cmp_opp; cmp_lt_trans := list_cmp_trans |}.

(** ** Tactics and hints of the development *)

Create HintDb pypiron.

(** Case analysis on the outermost [match]/[if] of the goal or of a hypothesis. *)
Ltac case_goal :=
  match goal with
  | |- context [match ?x with _ => _ end] => destruct x eqn:?
  end.
Ltac case_hyp H :=
  match type of H with
  | context [match ?x with _ => _ end] => destruct x eqn:?
  end.
(** Turn boolean facts into propositions. *)
Ltac bool_to_prop :=
  repeat match goal with
  | H : _ && _ = true |- _ => apply andb_true_iff in H as [? ?]
  | H : _ || _ = false |- _ => apply orb_false_iff in H as [? ?]
  | H : negb _ = true |- _ => apply negb_true_iff in H
  | H : negb _ = false |- _ => apply negb_false_iff in H
  | H : bool_decide _ = true |- _ => apply bool_decide_eq_true in H
  | H : bool_decide _ = false |- _ => apply bool_decide_eq_false in H
  | H : (_ <? _)%Z = true |- _ => apply Z.ltb_lt in H
  | H : (_ <? _)%Z = false |- _ => apply Z.ltb_ge in H
  | H : (_ <=? _)%Z = true |- _ => apply Z.leb_le in H
  | H : (_ <=? _)%Z = false |- _ => apply Z.leb_gt in H
  | H : (_ =? _)%Z = true |- _ => apply Z.eqb_eq in H
  | H : (_ =? _)%Z = false |- _ => apply Z.eqb_neq in H
  end.
(** A fact about one byte, settled by its 256 values. *)
Ltac by_bytes c := destruct c as [[][][][][][][][]]; vm_compute; try done.

(** [Iterator::all] as a property of every element. *)
Lemma forallb_Forall {A} (f : A -> bool) (l : list A) : forallb f l = true <-> Forall f l.
Proof. by rewrite <- forallb_True, Is_true_true. Qed.

Lemma existsb_Exists {A} (f : A -> bool) (l : list A) :
  existsb f l = true <-> exists x, x ∈ l /\ f x = true.
Proof. rewrite existsb_exists. by setoid_rewrite list_elem_of_In. Qed.

(** Counting what satisfies a stronger predicate. *)
Lemma length_filter_mono {A} (P Q : A -> Prop) `{!forall x, Decision (P x), !forall x, Decision (Q x)} (l : list A) :
  (forall x, x ∈ l -> Q x -> P x) -> (length (filter Q l) <= length (filter P l))%nat.
Proof.
  induction l as [|x l IH]; intros Hsub; [done|]. rewrite !filter_cons.
  assert (length (filter Q l) <= length (filter P l))%nat by (apply IH; set_solver).
  destruct (decide (Q x)) as [Hq|]; destruct (decide (P x)); cbn; [lia| |lia|lia]. exfalso. set_solver.
Qed.

Lemma length_filter_strict {A} (P Q : A -> Prop) `{!forall x, Decision (P x), !forall x, Decision (Q x)} (l : list A) x :
  (forall x, x ∈ l -> Q x -> P x) -> x ∈ l -> P x -> ~ Q x -> (length (filter Q l) < length (filter P l))%nat.
Proof.
  intros Hsub Hx Hp Hq. induction l as [|y l IH]; [set_solver|]. rewrite !filter_cons.
  assert (length (filter Q l) <= length (filter P l))%nat by (apply length_filter_mono; set_solver).
  apply elem_of_cons in Hx as [<-|Hx].
  - rewrite decide_False, decide_True by done. cbn. lia.
  - assert (length (filter Q l) < length (filter P l))%nat by (apply IH; set_solver).
    destruct (decide (Q y)); destruct (decide (P y)); cbn; [lia| |lia|lia]. exfalso. set_solver.
Qed.
