(* ===== verification/RustStr.v ===== *)
(** * The part of Rust's string library the program uses

    [&str] methods as functions on byte strings. A [&str] is valid UTF-8, so
    the methods that take an ASCII [char] act on single bytes: an ASCII byte
    never occurs inside a multi-byte UTF-8 sequence. [trim] is Rust's Unicode
    [char::is_whitespace] trim, with the multi-byte sequences written out. *)
From S2P Require Import Prelude.

(** ** Byte classes *)
Definition byte_in (lo hi : N) (c : ascii) : bool :=
  ((lo <=? N_of_ascii c) && (N_of_ascii c <=? hi))%N.
Definition is_ascii_lowercase : ascii -> bool := byte_in 97 122.
Definition is_ascii_uppercase : ascii -> bool := byte_in 65 90.
Definition is_ascii_digit : ascii -> bool := byte_in 48 57.
Definition is_ascii_alphanumeric (c : ascii) : bool :=
  is_ascii_lowercase c || is_ascii_uppercase c || is_ascii_digit c.
Definition is_ascii_hexdigit (c : ascii) : bool :=
  is_ascii_digit c || byte_in 97 102 c || byte_in 65 70 c.
Definition is_ascii_control (c : ascii) : bool := byte_in 0 31 c || byte_in 127 127 c.
Definition is_ascii (c : ascii) : bool := byte_in 0 127 c.

Definition to_ascii_lowercase_byte (c : ascii) : ascii :=
  if is_ascii_uppercase c then ascii_of_N (N_of_ascii c + 32) else c.
(** [str::to_ascii_lowercase]. *)
Definition to_ascii_lowercase (s : str) : str := to_ascii_lowercase_byte <$> s.
(** [str::eq_ignore_ascii_case]. *)
Definition eq_ignore_ascii_case (s t : str) : bool :=
  bool_decide (to_ascii_lowercase s = to_ascii_lowercase t).

(** ** Order *)

(** The order of a sort or of a [BTreeSet] of strings. *)
Definition str_le (x y : str) : Prop := leb x y = true.
#[global] Instance str_le_dec x y : Decision (str_le x y).
Proof. unfold str_le. apply _. Defined.
#[global] Instance str_le_antisym : AntiSymm (=) str_le.
Proof. intros x y. apply leb_antisym. Qed.
#[global] Instance str_le_trans : Transitive str_le.
Proof. intros x y z. apply leb_trans. Qed.
#[global] Instance str_le_total : Total str_le.
Proof. intros x y. unfold str_le. destruct (leb x y) eqn:Hl; [by left|right; by apply leb_false_swap]. Qed.

Lemma sorted_filter (Q : str -> Prop) `{!forall x, Decision (Q x)} (l : list str) :
  StronglySorted str_le l -> StronglySorted str_le (filter Q l).
Proof.
  induction 1 as [|x l _ IH Hall]; [constructor|]. rewrite filter_cons. case_decide; [|exact IH].
  constructor; [exact IH|]. rewrite Forall_forall in *. intros y [_ Hy]%list_elem_of_filter. by apply Hall.
Qed.

(** Sorted lists without repeats are the same when their elements are. *)
Lemma sorted_unique (l k : list str) :
  StronglySorted str_le l -> StronglySorted str_le k -> NoDup l -> NoDup k -> (forall x, x ∈ l <-> x ∈ k) -> l = k.
Proof.
  intros Hl Hk Hdl Hdk Hin. apply (StronglySorted_unique str_le); [done|done|]. by apply NoDup_Permutation.
Qed.

(** The walk of a [BTreeSet<String>], and of a [BTreeMap] with string keys. *)
Definition in_order (X : gset str) : list str := merge_sort str_le (elements X).
Definition by_key {V} (m : gmap str V) : list (str * V) := merge_sort (fun x y => str_le x.1 y.1) (map_to_list m).

Lemma elem_of_in_order (X : gset str) x : x ∈ in_order X <-> x ∈ X.
Proof. unfold in_order. by rewrite merge_sort_Permutation, elem_of_elements. Qed.

Lemma by_key_perm {V} (m : gmap str V) : by_key m ≡ₚ map_to_list m.
Proof. apply merge_sort_Permutation. Qed.

Lemma elem_of_by_key {V} (m : gmap str V) k x : (k, x) ∈ by_key m <-> m !! k = Some x.
Proof. by rewrite by_key_perm, elem_of_map_to_list. Qed.

(** ** Prefixes, suffixes, searching *)
Fixpoint strip_prefix (p s : str) : option str :=
  match p, s with
  | [], _ => Some s
  | c :: p, d :: s => if decide (c = d) then strip_prefix p s else None
  | _ :: _, [] => None
  end.
Definition strip_suffix (p s : str) : option str :=
  reverse <$> strip_prefix (reverse p) (reverse s).
Definition starts_with (p s : str) : bool := bool_decide (is_Some (strip_prefix p s)).
Definition ends_with (p s : str) : bool := bool_decide (is_Some (strip_suffix p s)).

(** [str::contains(char)]. *)
Definition contains_byte (c : ascii) (s : str) : bool := existsb (fun d => bool_decide (c = d)) s.

(** [str::split_once(char)]: around the first occurrence. *)
Fixpoint split_once (c : ascii) (s : str) : option (str * str) :=
  match s with
  | [] => None
  | d :: s => if decide (c = d) then Some ([], s)
              else (fun '(l, r) => (d :: l, r)) <$> split_once c s
  end.

(** [str::split(char)]: always at least one piece. *)
Fixpoint split (c : ascii) (s : str) : list str :=
  match s with
  | [] => [[]]
  | d :: s => if decide (c = d) then [] :: split c s
              else match split c s with
                   | p :: ps => (d :: p) :: ps
                   | [] => [[d]]
                   end
  end.

(** ** Trimming *)
Fixpoint trim_start_if (f : ascii -> bool) (s : str) : str :=
  match s with
  | [] => []
  | c :: s' => if f c then trim_start_if f s' else s
  end.
Definition trim_end_if (f : ascii -> bool) (s : str) : str :=
  reverse (trim_start_if f (reverse s)).
(** [str::trim_matches(char)]. *)
Definition trim_matches (c : ascii) (s : str) : str :=
  trim_end_if (fun d => bool_decide (c = d)) (trim_start_if (fun d => bool_decide (c = d)) s).

(** The encodings of [char::is_whitespace]: one, two and three bytes. *)
Definition ws1 (c : ascii) : bool := byte_in 9 13 c || byte_in 32 32 c.
Definition ws2 (c d : ascii) : bool :=
  byte_in 194 194 c && (byte_in 133 133 d || byte_in 160 160 d).
Definition ws3 (c d e : ascii) : bool :=
  (byte_in 225 225 c && byte_in 154 154 d && byte_in 128 128 e)
  || (byte_in 226 226 c && byte_in 128 128 d
      && (byte_in 128 138 e || byte_in 168 169 e || byte_in 175 175 e))
  || (byte_in 226 226 c && byte_in 129 129 d && byte_in 159 159 e)
  || (byte_in 227 227 c && byte_in 128 128 d && byte_in 128 128 e).

(** [str::trim_start]; [trim_start_rev] is the same scan from the end. *)
Fixpoint trim_start (s : str) : str :=
  match s with
  | [] => []
  | c :: s1 =>
    if ws1 c then trim_start s1 else
    match s1 with
    | [] => s
    | d :: s2 =>
      if ws2 c d then trim_start s2 else
      match s2 with
      | [] => s
      | e :: s3 => if ws3 c d e then trim_start s3 else s
      end
    end
  end.
Fixpoint trim_start_rev (s : str) : str :=
  match s with
  | [] => []
  | c :: s1 =>
    if ws1 c then trim_start_rev s1 else
    match s1 with
    | [] => s
    | d :: s2 =>
      if ws2 d c then trim_start_rev s2 else
      match s2 with
      | [] => s
      | e :: s3 => if ws3 e d c then trim_start_rev s3 else s
      end
    end
  end.
Definition trim_end (s : str) : str := reverse (trim_start_rev (reverse s)).
Definition trim (s : str) : str := trim_end (trim_start s).

(** [str::from_utf8] succeeds: well-formed UTF-8 (no overlong forms, no
    surrogates, nothing above U+10FFFF). *)
Definition continuation : ascii -> bool := byte_in 128 191.
Fixpoint is_utf8 (s : str) : bool :=
  match s with
  | [] => true
  | a :: s1 =>
    if is_ascii a then is_utf8 s1 else
    match s1 with
    | [] => false
    | b :: s2 =>
      if byte_in 194 223 a then continuation b && is_utf8 s2 else
      match s2 with
      | [] => false
      | c :: s3 =>
        if (byte_in 224 224 a && byte_in 160 191 b)
           || ((byte_in 225 236 a || byte_in 238 239 a) && continuation b)
           || (byte_in 237 237 a && byte_in 128 159 b)
        then continuation c && is_utf8 s3 else
        match s3 with
        | [] => false
        | d :: s4 =>
          ((byte_in 240 240 a && byte_in 144 191 b)
           || (byte_in 241 243 a && continuation b)
           || (byte_in 244 244 a && byte_in 128 143 b))
          && continuation c && continuation d && is_utf8 s4
        end
      end
    end
  end.

(** ** Numbers *)
Definition digit_val (c : ascii) : Z := Z.of_N (N_of_ascii c) - 48.
Definition digits_val (s : str) : Z := foldl (fun n c => 10 * n + digit_val c) 0 s.
(** [str::parse::<u64>()]: an optional [+], then at least one digit, and no
    overflow. *)
Definition parse_u64 (s : str) : option Z :=
  let ds := match s with
            | c :: r => if decide (c = "+"%char) then r else s
            | [] => []
            end in
  if bool_decide (ds ≠ []) && forallb is_ascii_digit ds && (digits_val ds <=? u64_max)
  then Some (digits_val ds) else None.

(** Decimal digits of a non-negative number, as [format!("{n}")] prints it. *)
Definition digit_char (d : Z) : ascii := ascii_of_N (Z.to_N (48 + d)).
Fixpoint decimal_aux (fuel : nat) (n : Z) (acc : str) : str :=
  match fuel with
  | O => acc
  | S f => let acc := digit_char (n mod 10) :: acc in
           if n <? 10 then acc else decimal_aux f (n / 10) acc
  end.
(** A [u64] has at most twenty decimal digits. *)
Definition decimal (n : Z) : str := decimal_aux 20 n [].
(** [format!("{n:0width$}")]. *)
Definition decimal_padded (width : nat) (n : Z) : str :=
  replicate (width - length (decimal n)) "0"%char ++ decimal n.

(** ** Lemmas *)

Lemma strip_prefix_Some p s t : strip_prefix p s = Some t <-> s = p ++ t.
Proof.
  revert s; induction p as [|c p IH]; intros s; simpl; [naive_solver|].
  destruct s as [|d s]; [naive_solver|].
  destruct (decide (c = d)) as [->|Hne]; [rewrite IH|]; naive_solver.
Qed.

Lemma strip_prefix_app p t : strip_prefix p (p ++ t) = Some t.
Proof. by apply strip_prefix_Some. Qed.

Lemma strip_suffix_Some p s t : strip_suffix p s = Some t <-> s = t ++ p.
Proof.
  unfold strip_suffix. rewrite fmap_Some. split.
  - intros (u & Hu & ->). apply strip_prefix_Some in Hu.
    apply (f_equal reverse) in Hu. by rewrite reverse_involutive, reverse_app,
      !reverse_involutive in Hu.
  - intros ->. exists (reverse t). by rewrite reverse_app, strip_prefix_app, reverse_involutive.
Qed.

Lemma strip_suffix_app p t : strip_suffix p (t ++ p) = Some t.
Proof. by apply strip_suffix_Some. Qed.

Lemma starts_with_true p s : starts_with p s = true <-> exists t, s = p ++ t.
Proof.
  unfold starts_with. rewrite bool_decide_eq_true. unfold is_Some.
  by setoid_rewrite strip_prefix_Some.
Qed.

Lemma ends_with_true p s : ends_with p s = true <-> exists t, s = t ++ p.
Proof.
  unfold ends_with. rewrite bool_decide_eq_true. unfold is_Some.
  by setoid_rewrite strip_suffix_Some.
Qed.

Lemma ends_with_app p s : ends_with p (s ++ p) = true.
Proof. apply ends_with_true. eauto. Qed.

Lemma contains_byte_true c s : contains_byte c s = true <-> c ∈ s.
Proof.
  unfold contains_byte. rewrite existsb_exists. setoid_rewrite bool_decide_eq_true.
  rewrite list_elem_of_In. naive_solver.
Qed.

Lemma split_once_Some c s l r : split_once c s = Some (l, r) <-> s = l ++ c :: r /\ c ∉ l.
Proof.
  revert l r; induction s as [|d s IH]; intros l r; simpl.
  - split; [done | intros [H _]; by destruct l].
  - destruct (decide (c = d)) as [<-|Hne].
    + split; [intros [= <- <-]; split; [done | set_solver]|].
      intros [H Hn]. destruct l as [|x l]; simplify_eq/=; [done|set_solver].
    + rewrite fmap_Some. split.
      * intros ([l' r'] & Hs & [= -> ->]). apply IH in Hs as [-> Hn]. set_solver.
      * intros [H Hn]. destruct l as [|x l]; simplify_eq/=.
        exists (l, r). split; [apply IH; set_solver | done].
Qed.

Lemma split_once_None c s : split_once c s = None <-> c ∉ s.
Proof.
  induction s as [|d s IH]; simpl; [set_solver|].
  destruct (decide (c = d)) as [<-|Hne]; [set_solver|].
  rewrite fmap_None, IH. set_solver.
Qed.

Lemma split_once_app c l r : c ∉ l -> split_once c (l ++ c :: r) = Some (l, r).
Proof. intros. by apply split_once_Some. Qed.

Lemma trim_start_if_suffix f s : trim_start_if f s `suffix_of` s.
Proof.
  induction s as [|c s IH]; simpl; [done|]. case_match; [|done].
  by apply suffix_cons_r.
Qed.

Lemma trim_start_if_hd f s c t : trim_start_if f s = c :: t -> f c = false.
Proof. induction s as [|d s IH]; simpl; [done|]. case_match; naive_solver. Qed.

Lemma trim_start_if_id f s :
  match s with c :: _ => f c = false | [] => True end -> trim_start_if f s = s.
Proof. destruct s as [|c s]; simpl; [done|]. by intros ->. Qed.

Lemma elem_of_suffix (A : Type) (s t : list A) (x : A) : s `suffix_of` t -> x ∈ s -> x ∈ t.
Proof. intros [k ->]. set_solver. Qed.

Lemma elem_of_trim_start_if f s x : x ∈ trim_start_if f s -> x ∈ s.
Proof. apply elem_of_suffix, trim_start_if_suffix. Qed.

Lemma elem_of_trim_end_if f s x : x ∈ trim_end_if f s -> x ∈ s.
Proof.
  unfold trim_end_if. rewrite elem_of_reverse. intros H%elem_of_trim_start_if.
  by rewrite elem_of_reverse in H.
Qed.

Lemma elem_of_trim_matches c s x : x ∈ trim_matches c s -> x ∈ s.
Proof. intros H%elem_of_trim_end_if. by eapply elem_of_trim_start_if. Qed.

(** Trimming a byte only removes copies of it at the two ends, and leaves
    neither end starting with one. *)
Lemma trim_start_if_split c s :
  exists n, s = replicate n c ++ trim_start_if (fun d => bool_decide (c = d)) s.
Proof.
  induction s as [|d s [n IH]]; simpl; [by exists 0%nat|].
  case_bool_decide as Hc; [|by exists 0%nat]. subst d. exists (S n). simpl. by f_equal.
Qed.

Lemma trim_matches_split c s :
  exists n m, s = replicate n c ++ trim_matches c s ++ replicate m c.
Proof.
  destruct (trim_start_if_split c s) as [n Hn]. exists n. unfold trim_matches, trim_end_if.
  set (t := trim_start_if _ s) in *. destruct (trim_start_if_split c (reverse t)) as [m Hm].
  exists m. apply (f_equal reverse) in Hm. rewrite reverse_involutive, reverse_app,
    reverse_replicate in Hm. rewrite Hn at 1. by rewrite Hm at 1.
Qed.

Lemma trim_matches_head c s t : trim_matches c s ≠ c :: t.
Proof.
  unfold trim_matches, trim_end_if. set (u := trim_start_if _ s). intros H.
  destruct (trim_start_if_split c (reverse u)) as [m Hm]. apply (f_equal reverse) in Hm.
  rewrite reverse_involutive, reverse_app, H in Hm. simpl in Hm.
  apply trim_start_if_hd in Hm. by rewrite bool_decide_eq_true_2 in Hm.
Qed.

Lemma trim_matches_last c s t : trim_matches c s ≠ t ++ [c].
Proof.
  unfold trim_matches, trim_end_if. intros H. apply (f_equal reverse) in H.
  rewrite reverse_involutive, reverse_app in H. simpl in H.
  apply trim_start_if_hd in H. by rewrite bool_decide_eq_true_2 in H.
Qed.

Lemma trim_matches_id c s :
  (forall t, s ≠ c :: t) -> (forall t, s ≠ t ++ [c]) -> trim_matches c s = s.
Proof.
  intros Hh Hl. destruct (trim_matches_split c s) as (n & m & Hs).
  destruct n as [|n]; simpl in Hs; [|by apply Hh in Hs].
  destruct m as [|m]; [by rewrite app_nil_r in Hs|].
  rewrite replicate_S_end, app_assoc in Hs. by apply Hl in Hs.
Qed.

Lemma trim_matches_idem c s : trim_matches c (trim_matches c s) = trim_matches c s.
Proof. apply trim_matches_id; intros t; [apply trim_matches_head | apply trim_matches_last]. Qed.

Lemma list_len_ind {A} (P : list A -> Prop) :
  (forall l, (forall k, (length k < length l)%nat -> P k) -> P l) -> forall l, P l.
Proof. intros H l. induction (Nat.lt_wf_0_projected length l) as [l _ IH]. eauto. Qed.

(** One whitespace character at a time, by induction on the length. *)
Ltac trim_suffix_ind s :=
  induction s as [s IH] using list_len_ind;
  destruct s as [|c s]; [done|]; cbn -[ws1 ws2 ws3];
  case_match; [apply suffix_cons_r, IH; simpl; lia|];
  destruct s as [|d s]; [done|];
  case_match; [do 2 apply suffix_cons_r; apply IH; simpl; lia|];
  destruct s as [|e s]; [done|];
  case_match; [do 3 apply suffix_cons_r; apply IH; simpl; lia | done].

Lemma trim_start_suffix s : trim_start s `suffix_of` s.
Proof. trim_suffix_ind s. Qed.

Lemma trim_start_rev_suffix s : trim_start_rev s `suffix_of` s.
Proof. trim_suffix_ind s. Qed.

Lemma elem_of_trim s x : x ∈ trim s -> x ∈ s.
Proof.
  unfold trim, trim_end. rewrite elem_of_reverse. intros H.
  eapply elem_of_suffix in H; [|apply trim_start_rev_suffix].
  rewrite elem_of_reverse in H. eapply elem_of_suffix; [apply trim_start_suffix | done].
Qed.

(** Plain text: ASCII and no whitespace. [trim] leaves it alone. *)
Definition plain (c : ascii) : bool := is_ascii c && negb (ws1 c).

Lemma plain_no_ws c d e :
  plain c = true -> ws1 c = false /\ ws2 c d = false /\ ws3 c d e = false.
Proof.
  intros Hc. assert (byte_in 194 194 c = false /\ byte_in 225 225 c = false
    /\ byte_in 226 226 c = false /\ byte_in 227 227 c = false /\ ws1 c = false) as H.
  { revert Hc. by_bytes c. }
  destruct H as (H1 & H2 & H3 & H4 & H5). unfold ws2, ws3. by rewrite H1, H2, H3, H4, H5.
Qed.

Lemma plain_no_ws_rev c d e :
  plain c = true -> ws1 c = false /\ ws2 d c = false /\ ws3 e d c = false.
Proof.
  intros Hc. assert (byte_in 133 133 c = false /\ byte_in 160 160 c = false
    /\ byte_in 128 128 c = false /\ byte_in 128 138 c = false /\ byte_in 168 169 c = false
    /\ byte_in 175 175 c = false /\ byte_in 159 159 c = false /\ ws1 c = false) as H.
  { revert Hc. by_bytes c. }
  destruct H as (H1 & H2 & H3 & H4 & H5 & H6 & H7 & H8). unfold ws2, ws3.
  by rewrite H1, H2, H3, H4, H5, H6, H7, H8, !andb_false_r.
Qed.

Lemma trim_start_plain c s : plain c = true -> trim_start (c :: s) = c :: s.
Proof.
  intros Hc. simpl. destruct (plain_no_ws c c c Hc) as (-> & _ & _).
  destruct s as [|d s]; [done|]. destruct (plain_no_ws c d d Hc) as (_ & -> & _).
  destruct s as [|e s]; [done|]. by destruct (plain_no_ws c d e Hc) as (_ & _ & ->).
Qed.

Lemma trim_start_rev_plain c s : plain c = true -> trim_start_rev (c :: s) = c :: s.
Proof.
  intros Hc. simpl. destruct (plain_no_ws_rev c c c Hc) as (-> & _ & _).
  destruct s as [|d s]; [done|]. destruct (plain_no_ws_rev c d d Hc) as (_ & -> & _).
  destruct s as [|e s]; [done|]. by destruct (plain_no_ws_rev c d e Hc) as (_ & _ & ->).
Qed.

Lemma trim_plain s : Forall plain s -> trim s = s.
Proof.
  intros Hs. destruct s as [|c s]; [done|]. unfold trim, trim_end.
  rewrite trim_start_plain by (inversion Hs; by apply Is_true_true).
  destruct (reverse (c :: s)) as [|d t] eqn:E.
  { by rewrite <- (reverse_involutive (c :: s)), E. }
  rewrite trim_start_rev_plain; [by rewrite <- E, reverse_involutive|].
  apply Is_true_true. assert (d ∈ c :: s) as Hd.
  { rewrite <- elem_of_reverse, E. set_solver. }
  by rewrite Forall_forall in Hs; apply Hs.
Qed.

(** A text between two visible bytes is its own trimming. *)
Lemma trim_between a b s : plain a = true -> plain b = true -> trim (a :: s ++ [b]) = a :: s ++ [b].
Proof.
  intros Ha Hb. unfold trim, trim_end. rewrite trim_start_plain by done.
  assert (reverse (a :: s ++ [b]) = b :: reverse (a :: s)) as Hr
    by (change (a :: s ++ [b]) with ((a :: s) ++ [b]); by rewrite reverse_app).
  rewrite Hr, trim_start_rev_plain, <- Hr by done. apply reverse_involutive.
Qed.

Lemma is_utf8_ascii s : Forall is_ascii s -> is_utf8 s = true.
Proof.
  induction 1 as [|c s Hc _ IH]; [done|]. simpl. apply Is_true_true in Hc. by rewrite Hc.
Qed.

(** Joining pieces that lack the separator, and splitting them again. *)
Fixpoint join (c : ascii) (ps : list str) : str :=
  match ps with
  | [] => []
  | [p] => p
  | p :: ps => p ++ c :: join c ps
  end.

Lemma split_no_sep c p : c ∉ p -> split c p = [p].
Proof.
  induction p as [|d p IH]; intros Hn; [done|]. simpl.
  rewrite decide_False by set_solver. rewrite IH by set_solver. done.
Qed.

Lemma split_app_sep c p s : c ∉ p -> split c (p ++ c :: s) = p :: split c s.
Proof.
  induction p as [|d p IH]; intros Hn; simpl; [by rewrite decide_True|].
  rewrite decide_False by set_solver. rewrite IH by set_solver. done.
Qed.

Lemma split_join c ps : ps ≠ [] -> Forall (fun p => c ∉ p) ps -> split c (join c ps) = ps.
Proof.
  intros Hne Hps. induction Hps as [|p ps Hp Hps IH]; [done|].
  destruct ps as [|q ps]; [by apply split_no_sep|].
  change (join c (p :: q :: ps)) with (p ++ c :: join c (q :: ps)).
  rewrite split_app_sep by done. by rewrite IH.
Qed.

#[export] Hint Resolve elem_of_trim elem_of_trim_matches : pypiron.

(** ** Characters of a byte string *)

(** [str::chars], each character as its bytes: a first byte and the
    continuation bytes after it. *)
Fixpoint chars (s : str) : list str :=
  match s with
  | [] => []
  | c :: s =>
    match chars s with
    | ch :: rest => if negb (is_ascii c) && existsb continuation (take 1 ch) then (c :: ch) :: rest else [c] :: ch :: rest
    | [] => [[c]]
    end
  end.

(** [str::find(|c| ..)]: the byte offset of the first such character. *)
Fixpoint find_in (p : str -> bool) (cs : list str) : option nat :=
  match cs with
  | [] => None
  | ch :: cs => if p ch then Some 0%nat else Nat.add (length ch) <$> find_in p cs
  end.
Definition find_char (p : str -> bool) (s : str) : option nat := find_in p (chars s).

Lemma chars_concat s : concat (chars s) = s.
Proof.
  induction s as [|c s IH]; [done|]. cbn [chars]. destruct (chars s) as [|ch rest] eqn:E; cbn in IH.
  - by rewrite <- IH.
  - case_match; cbn; by rewrite <- IH.
Qed.

(** An ASCII byte is a character of its own. *)
Lemma chars_ascii c s : is_ascii c = true -> exists rest, chars (c :: s) = [c] :: rest.
Proof. intros Hc. cbn [chars]. rewrite Hc. cbn [negb andb]. destruct (chars s); eauto. Qed.

Lemma find_in_byte c cs i : find_in (fun ch => bool_decide (ch = [c])) cs = Some i -> concat cs !! i = Some c.
Proof.
  revert i. induction cs as [|ch cs IH]; intros i; [done|]. cbn [find_in concat]. case_bool_decide as Hc.
  - intros [= <-]. by subst ch.
  - intros (j & Hj & ->)%fmap_Some. rewrite lookup_app_r by lia. replace (length ch + j - length ch)%nat with j by lia.
    by apply IH.
Qed.

Lemma find_char_byte c s i : find_char (fun ch => bool_decide (ch = [c])) s = Some i -> s !! i = Some c.
Proof. intros H%find_in_byte. by rewrite chars_concat in H. Qed.

Lemma chars_byte c s : is_ascii c = true -> c ∈ s -> [c] ∈ chars s.
Proof.
  intros Hc. assert (continuation c = false) as Hn by (revert Hc; by_bytes c).
  induction s as [|d s IH]; [by intros ?%not_elem_of_nil|]. intros Hin. apply elem_of_cons in Hin as [<-|Hin].
  - destruct (chars_ascii c s Hc) as [rest ->]. by left.
  - cbn [chars]. specialize (IH Hin). destruct (chars s) as [|ch rest]; [by apply not_elem_of_nil in IH|].
    case_match eqn:Hj; [|by right]. apply elem_of_cons in IH as [<-|IH]; [|by right].
    apply andb_true_iff in Hj as [_ Hj]. cbn [take existsb] in Hj. by rewrite Hn in Hj.
Qed.

Lemma find_char_none c s : is_ascii c = true -> find_char (fun ch => bool_decide (ch = [c])) s = None -> c ∉ s.
Proof.
  intros Hc Hf Hin%chars_byte; [|done]. unfold find_char in Hf. induction (chars s) as [|ch cs IH]; [by apply not_elem_of_nil in Hin|].
  cbn [find_in] in Hf. case_bool_decide as Hch; [done|]. apply fmap_None in Hf.
  apply elem_of_cons in Hin as [Hin|Hin]; [done|by apply IH].
Qed.

(** What UTF-8 gives about two adjacent bytes: after an ASCII byte a new
    character begins. *)
Definition splits_at_ascii (s : str) : Prop :=
  forall i c d, s !! i = Some c -> s !! S i = Some d -> is_ascii c = true -> continuation d = false.

Lemma splits_at_ascii_app l s r : splits_at_ascii (l ++ s ++ r) -> splits_at_ascii s.
Proof.
  intros H i c d Hc Hd. apply (H (length l + i)%nat).
  - rewrite lookup_app_r by lia. replace (_ + i - _)%nat with i by lia. by apply lookup_app_l_Some.
  - rewrite lookup_app_r by lia. replace (_ - _)%nat with (S i) by lia. by apply lookup_app_l_Some.
Qed.

Lemma splits_at_ascii_suffix s t : s `suffix_of` t -> splits_at_ascii t -> splits_at_ascii s.
Proof. intros [k ->] H. apply (splits_at_ascii_app k s []). by rewrite app_nil_r. Qed.

Lemma splits_at_ascii_take n s : splits_at_ascii s -> splits_at_ascii (take n s).
Proof. intros H. apply (splits_at_ascii_app [] _ (drop n s)). cbn. by rewrite take_drop. Qed.

Lemma splits_at_ascii_cons c s :
  splits_at_ascii s -> (is_ascii c = true -> forall d t, s = d :: t -> continuation d = false) ->
  splits_at_ascii (c :: s).
Proof.
  intros Hs Hc [|i] x y; cbn.
  - intros [= ->] Hy Hx. destruct s as [|d t]; [done|]. injection Hy as ->. by eapply Hc.
  - apply Hs.
Qed.

Lemma utf8_first s d t : is_utf8 s = true -> s = d :: t -> continuation d = false.
Proof.
  intros H ->. destruct (continuation d) eqn:Hd; [|done]. exfalso. revert H.
  assert (is_ascii d = false /\ byte_in 194 223 d = false /\ byte_in 224 224 d = false /\ byte_in 225 236 d = false
    /\ byte_in 238 239 d = false /\ byte_in 237 237 d = false /\ byte_in 240 240 d = false
    /\ byte_in 241 243 d = false /\ byte_in 244 244 d = false) as (H1 & H2 & H3 & H4 & H5 & H6 & H7 & H8 & H9).
  { revert Hd. by_bytes d. }
  cbn [is_utf8]. rewrite H1, H2, H3, H4, H5, H6, H7, H8, H9. cbn.
  destruct t as [|? [|? [|? ?]]]; done.
Qed.

Lemma utf8_splits s : is_utf8 s = true -> splits_at_ascii s.
Proof.
  induction s as [s IH] using list_len_ind. intros Hs. destruct s as [|a s1]; [by intros [|?] ? ?|].
  cbn [is_utf8] in Hs.
  assert (forall c s, is_ascii c = false -> splits_at_ascii s -> splits_at_ascii (c :: s)) as Hmore
    by (intros c s Hc Hok; apply splits_at_ascii_cons; [done|by rewrite Hc]).
  assert (forall c, continuation c = true -> is_ascii c = false) as Hcont by (intros c; by_bytes c).
  destruct (is_ascii a) eqn:Ha.
  { apply splits_at_ascii_cons; [apply IH; [simpl; lia|done]|]. intros _ d t. by apply utf8_first. }
  destruct s1 as [|b s2]; [done|]. destruct (byte_in 194 223 a).
  { apply andb_true_iff in Hs as [Hb Hs]. apply Hmore; [done|]. apply Hmore; [by apply Hcont|].
    apply IH; [simpl; lia|done]. }
  assert (is_ascii b = false) as Hb.
  { destruct (is_ascii b) eqn:Hb; [|done]. exfalso. revert Hs.
    assert (byte_in 160 191 b = false /\ continuation b = false /\ byte_in 128 159 b = false
      /\ byte_in 144 191 b = false /\ byte_in 128 143 b = false) as (-> & -> & -> & -> & ->).
    { revert Hb. by_bytes b. }
    rewrite !andb_false_r. cbn. by destruct s2 as [|? [|? ?]]. }
  destruct s2 as [|c s3]; [done|]. case_match.
  { apply andb_true_iff in Hs as [Hc Hs]. do 2 (apply Hmore; [done|]). apply Hmore; [by apply Hcont|].
    apply IH; [simpl; lia|done]. }
  destruct s3 as [|d s4]; [done|]. apply andb_true_iff in Hs as [[[_ Hc]%andb_true_iff Hd]%andb_true_iff Hs].
  do 2 (apply Hmore; [done|]). do 2 (apply Hmore; [by apply Hcont|]). apply IH; [simpl; lia|done].
Qed.

(** A Rust panic. *)
Inductive panic := Panicked.

#[global] Instance panic_eq_dec : EqDecision panic.
Proof. solve_decision. Defined.

(** [&s[i..j]]: both ends in order and on a character boundary. *)
Definition is_char_boundary (s : str) (i : nat) : bool :=
  (i =? 0)%nat || match s !! i with Some c => negb (continuation c) | None => (i =? length s)%nat end.
Definition slice (s : str) (i j : nat) : result panic str :=
  if (i <=? j)%nat && is_char_boundary s i && is_char_boundary s j
  then Ok (take (j - i) (drop i s)) else Err Panicked.
