(* ===== verification/Pep440.v ===== *)
(** * The pep440_rs crate, as an interface

    [pep440_rs] is a dependency of the program, not part of it: its version
    grammar and ordering are parameters of every definition that uses them.
    The laws say only what the crate documents: [Version] is [Ord] (so its [Eq]
    is an equivalence compatible with a total order; [Version] stands for the
    versions up to that [Eq]) and a specifier set prints to a string that parses
    back to it. *)
From S2P Require Import Prelude RustStr.

Class Pep440 := {
  Version : Type;
  version_ord :: Ord Version;
  (** [str::parse::<Version>().ok()] *)
  parse_version : str -> option Version;
  (** [Version::any_prerelease] *)
  any_prerelease : Version -> bool;
  VersionSpecifiers : Type;
  (** [VersionSpecifiers::from_str(..).ok()] *)
  parse_specifiers : str -> option VersionSpecifiers;
  (** [VersionSpecifiers::contains] *)
  specifiers_contain : VersionSpecifiers -> Version -> bool;
  (** [VersionSpecifiers::to_string] *)
  show_specifiers : VersionSpecifiers -> str;
  specifiers_roundtrip : forall s, parse_specifiers (show_specifiers s) = Some s
}.

(** A concrete instance, for evaluating the definitions: versions are plain
    decimal numbers and a specifier set is the singleton [==n]. *)
Definition toy_parse_spec (s : str) : option str := strip_prefix (&"==") s.

#[refine]
Definition toy_pep440 : Pep440 := {|
  Version := Z;
  parse_version := parse_u64;
  any_prerelease _ := false;
  VersionSpecifiers := str;
  parse_specifiers := toy_parse_spec;
  specifiers_contain s v := bool_decide (parse_u64 s = Some v);
  show_specifiers s := &"==" ++ s
|}.
Proof. intros s. apply strip_prefix_app. Defined.
