(* ===== verification/Names.v ===== *)
(** * Package names and filenames (src/names.rs)

    PEP 503 normalization, the name gate in front of storage paths, the private
    name patterns (the dependency-confusion control) with their wildcard
    matcher, and what a filename says about package, version and wheel tags. *)
From S2P Require Import Prelude RustStr Pep440.

Module Names.

(** ** PEP 503 normalization *)

Definition is_sep (ch : ascii) : bool :=
  bool_decide (ch = "-"%char) || bool_decide (ch = "_"%char) || bool_decide (ch = "."%char).

(** The loop of [normalize_pkg_name] over the lowercased name. *)
Fixpoint normalize_loop (last_dash : bool) (s : str) : str :=
  match s with
  | [] => []
  | ch :: s =>
    if is_sep ch then
      if last_dash then normalize_loop true s else "-"%char :: normalize_loop true s
    else ch :: normalize_loop false s
  end.

Definition normalize_pkg_name (name : str) : str :=
  trim_matches "-"%char (normalize_loop false (to_ascii_lowercase name)).

(** ** The gate *)

Definition MAX_PKG_NAME_BYTES : nat := 256.
Definition MAX_ARTIFACT_FILENAME_BYTES : nat := 256.

Definition name_byte (c : ascii) : bool :=
  is_ascii_lowercase c || is_ascii_digit c || bool_decide (c = "-"%char).

Definition is_normalized (name : str) : bool :=
  bool_decide (name ≠ [])
  && (length name <=? MAX_PKG_NAME_BYTES)%nat
  && negb (starts_with (&"-") name)
  && negb (ends_with (&"-") name)
  && forallb name_byte name.

Definition checked_pkg_name (raw : str) : option str :=
  let name := normalize_pkg_name raw in
  if is_normalized name then Some name else None.

(** ** Wildcard matching *)

(** The four mutable variables of [wildcard_match]. *)
Record wild_state := WildState {
  value_i : nat;
  pattern_i : nat;
  star_i : option nat;
  star_value_i : nat
}.

(** One iteration of the loop: the next state, or the early [return false]. *)
Definition wild_step (value pattern : str) (st : wild_state) : option wild_state :=
  if bool_decide (is_Some (pattern !! pattern_i st)
                  /\ pattern !! pattern_i st = value !! value_i st) then
    Some (WildState (S (value_i st)) (S (pattern_i st)) (star_i st) (star_value_i st))
  else if bool_decide (pattern !! pattern_i st = Some "*"%char) then
    Some (WildState (value_i st) (S (pattern_i st)) (Some (pattern_i st)) (value_i st))
  else match star_i st with
  | Some star =>
    Some (WildState (S (star_value_i st)) (S star) (star_i st) (S (star_value_i st)))
  | None => None
  end.

(** The loop; [None] would be running out of fuel. *)
Fixpoint wild_loop (fuel : nat) (value pattern : str) (st : wild_state) : option bool :=
  match fuel with
  | O => None
  | S fuel =>
    if (value_i st <? length value)%nat then
      match wild_step value pattern st with
      | Some st' => wild_loop fuel value pattern st'
      | None => Some false
      end
    else Some (forallb (fun c => bool_decide (c = "*"%char)) (drop (pattern_i st) pattern))
  end.

(** Every iteration either advances in the pattern or moves the last star's
    anchor right, which bounds the iterations. *)
Definition wild_fuel (value pattern : str) : nat :=
  (S (length value) * S (length pattern) + length pattern + 1)%nat.

Definition wildcard_match (value pattern : str) : bool :=
  default false (wild_loop (wild_fuel value pattern) value pattern (WildState 0 0 None 0)).

(** ** Private patterns *)

Inductive pattern_error :=
  | EmptyPattern | InvalidCharacter | ReservesEverything | InvalidPattern | InvalidPackageName.

Record PrivatePattern := MkPattern { pattern_str : str }.

#[global] Instance PrivatePattern_eq_dec : EqDecision PrivatePattern.
Proof. solve_decision. Defined.

(** The loop of [PrivatePattern::parse]. *)
Fixpoint pattern_loop (last_dash last_star : bool) (s : str) : result pattern_error str :=
  match s with
  | [] => Ok []
  | ch :: s =>
    if bool_decide (ch = "*"%char) then
      let? rest := pattern_loop false true s in
      Ok (if last_star then rest else "*"%char :: rest)
    else if is_sep ch then
      let? rest := pattern_loop true false s in
      Ok (if last_dash then rest else "-"%char :: rest)
    else if negb (is_ascii_alphanumeric ch) then Err InvalidCharacter
    else
      let? rest := pattern_loop false false s in
      Ok (to_ascii_lowercase_byte ch :: rest)
  end.

Definition parse_pattern (raw : str) : result pattern_error PrivatePattern :=
  let raw := trim raw in
  if bool_decide (raw = []) then Err EmptyPattern else
  let? normalized := pattern_loop false false raw in
  let normalized := trim_matches "-"%char normalized in
  if bool_decide (normalized = &"*") then Err ReservesEverything
  else if bool_decide (normalized = []) || (256 <? length normalized)%nat then Err InvalidPattern
  else if negb (contains_byte "*"%char normalized)
          && negb (bool_decide (checked_pkg_name normalized = Some normalized))
  then Err InvalidPackageName
  else Ok (MkPattern normalized).

Definition pattern_matches (p : PrivatePattern) (package : str) : bool :=
  wildcard_match package (pattern_str p).

(** ** The reserved private names *)

Record PrivateNames := MkNames { name_patterns : list PrivatePattern }.

Definition names_push (names : PrivateNames) (p : PrivatePattern) : PrivateNames :=
  if decide (p ∈ name_patterns names) then names
  else MkNames (name_patterns names ++ [p]).

Definition private_names_new (prefix : option str) (patterns : list PrivatePattern)
  : result pattern_error PrivateNames :=
  let names := MkNames [] in
  let? names :=
    match prefix with
    | None => Ok names
    | Some raw =>
      match checked_pkg_name raw with
      | None => Err InvalidPackageName
      | Some prefix =>
        let? p1 := parse_pattern prefix in
        let? p2 := parse_pattern (prefix ++ &"-*") in
        Ok (names_push (names_push names p1) p2)
      end
    end in
  Ok (foldl names_push names patterns).

Definition names_is_empty (names : PrivateNames) : bool :=
  bool_decide (name_patterns names = []).

Definition names_match (names : PrivateNames) (pkg : str) : bool :=
  existsb (fun p => pattern_matches p pkg) (name_patterns names).

(** [Display for PrivateNames]: the patterns joined with [", "]. *)
Fixpoint names_show (ps : list PrivatePattern) : str :=
  match ps with
  | [] => []
  | [p] => pattern_str p
  | p :: ps => pattern_str p ++ &", " ++ names_show ps
  end.

(** ** Versions *)

(** [fold_version]: the loop tests the last pushed character ([ends_with]). *)
Fixpoint fold_loop (ends_sep : bool) (s : str) : str :=
  match s with
  | [] => []
  | ch :: s =>
    if is_ascii_alphanumeric ch then to_ascii_lowercase_byte ch :: fold_loop false s
    else if ends_sep then fold_loop true s else "_"%char :: fold_loop true s
  end.

Definition fold_version (version : str) : str := trim_matches "_"%char (fold_loop false version).

Section with_pep440.
Context {P : Pep440}.

Definition version_cmp_desc (x y : str) : comparison :=
  match parse_version x, parse_version y with
  | Some vx, Some vy => cmp vy vx
  | Some _, None => Lt
  | None, Some _ => Gt
  | None, None => cmp y x
  end.

(** ** Filenames *)

Definition SDIST_EXTS : list str :=
  [&".tar.gz"; &".tar.bz2"; &".tar.xz"; &".zip"; &".tgz"].

Definition strip_sdist_ext (filename : str) : option str :=
  let lower := to_ascii_lowercase filename in
  (fun ext => take (length filename - length ext) filename) <$>
    List.find (fun ext => ends_with ext lower) SDIST_EXTS.

(** At the first ['-'] whose rest parses as a version. *)
Fixpoint split_sdist_stem (stem : str) : option (str * str) :=
  match stem with
  | [] => None
  | c :: rest =>
    let skip := (fun '(name, v) => (c :: name, v)) <$> split_sdist_stem rest in
    if bool_decide (c = "-"%char) then
      match parse_version rest with Some _ => Some ([], rest) | None => skip end
    else skip
  end.

Definition infer_package_from_filename (filename : str) : str :=
  let stem := default filename (last (split "/"%char filename)) in
  let dist :=
    match strip_sdist_ext stem with
    | Some sdist_stem => default sdist_stem (fst <$> split_sdist_stem sdist_stem)
    | None => match split_once "-"%char stem with
              | Some (d, _) => d
              | None => stem
              end
    end in
  normalize_pkg_name dist.

Definition infer_version_from_filename (filename : str) : option str :=
  match strip_suffix (&".whl") filename with
  | Some stem => split "-"%char stem !! 1%nat
  | None => let! stem := strip_sdist_ext filename in snd <$> split_sdist_stem stem
  end.

End with_pep440.

Record WheelTags := MkTags { python : list str; abi : list str; platform : list str }.

Definition parse_wheel_tags (filename : str) : option WheelTags :=
  let! stem := strip_suffix (&".whl") filename in
  let parts := split "-"%char stem in
  if (length parts <? 5)%nat then None else
  let n := length parts in
  match parts !! (n - 3)%nat, parts !! (n - 2)%nat, parts !! (n - 1)%nat with
  | Some py, Some ab, Some pl =>
    Some (MkTags (split "."%char py) (split "."%char ab) (split "."%char pl))
  | _, _, _ => None
  end.

(** ** Normalization is a canonical form *)

(** Substrings of a text; the canonical form excludes two adjacent dashes. *)
Definition no_double (c : ascii) (s : str) : Prop := forall l r, s ≠ l ++ c :: c :: r.

Lemma no_double_sub c l s r : no_double c (l ++ s ++ r) -> no_double c s.
Proof.
  intros H x y ->. apply (H (l ++ x) (y ++ r)). by rewrite <- !app_assoc.
Qed.

Lemma no_double_cons_inv c d s : no_double c (d :: s) -> no_double c s.
Proof. intros H x y ->. by apply (H (d :: x) y). Qed.

Lemma no_double_nil c : no_double c [].
Proof. by intros [] ?. Qed.

Lemma no_double_cons c d s :
  no_double c s -> (d = c -> forall t, s ≠ c :: t) -> no_double c (d :: s).
Proof.
  intros Hs Hd [|x l] r H; simplify_eq/=; [by eapply Hd | by eapply Hs].
Qed.

Lemma no_double_snoc c s d :
  no_double c s -> (d = c -> forall t, s ≠ t ++ [c]) -> no_double c (s ++ [d]).
Proof.
  intros Hs Hd l r H. destruct r as [|x r _] using rev_ind.
  - assert (s ++ [d] = (l ++ [c]) ++ [c]) as [-> ->]%app_inj_tail by by rewrite <- app_assoc.
    by eapply Hd.
  - assert (s ++ [d] = (l ++ c :: c :: r) ++ [x]) as [-> _]%app_inj_tail.
    { by rewrite <- app_assoc. }
    by eapply Hs.
Qed.

Lemma no_double_absent c s : c ∉ s -> no_double c s.
Proof. intros Hn l r ->. set_solver. Qed.

Lemma is_sep_dash : is_sep "-"%char = true.
Proof. done. Qed.

Lemma lower_byte_idem c : to_ascii_lowercase_byte (to_ascii_lowercase_byte c) = to_ascii_lowercase_byte c.
Proof. by_bytes c. Qed.

Lemma lower_idem s : to_ascii_lowercase (to_ascii_lowercase s) = to_ascii_lowercase s.
Proof.
  unfold to_ascii_lowercase. rewrite <- list_fmap_compose. apply list_fmap_ext.
  intros. apply lower_byte_idem.
Qed.

(** A byte of a canonical name: lowercase, and a separator only as a dash. *)
Definition canon_byte (c : ascii) : bool :=
  bool_decide (to_ascii_lowercase_byte c = c) && (negb (is_sep c) || bool_decide (c = "-"%char)).

(** The canonical form of PEP 503. *)
Definition canonical (s : str) : Prop :=
  Forall canon_byte s /\ no_double "-"%char s
  /\ (forall t, s ≠ "-"%char :: t) /\ (forall t, s ≠ t ++ ["-"%char]).

Lemma normalize_loop_bytes ld s :
  Forall (fun c => to_ascii_lowercase_byte c = c) s -> Forall canon_byte (normalize_loop ld s).
Proof.
  intros Hs; revert ld; induction Hs as [|c s Hc Hs IH]; intros ld; simpl; [by constructor|].
  destruct (is_sep c) eqn:E; [destruct ld; [done | by constructor]|].
  constructor; [|done]. unfold canon_byte. rewrite E, bool_decide_eq_true_2; done.
Qed.

Lemma normalize_loop_no_double ld s :
  no_double "-"%char (normalize_loop ld s)
  /\ (ld = true -> forall t, normalize_loop ld s ≠ "-"%char :: t).
Proof.
  revert ld; induction s as [|c s IH]; intros ld; simpl.
  { split; [apply no_double_nil | done]. }
  destruct (is_sep c) eqn:E.
  - destruct ld; [apply IH|]. destruct (IH true) as [H1 H2].
    split; [|done]. apply no_double_cons; [done | intros _; by apply H2].
  - destruct (IH false) as [H1 _]. split.
    + apply no_double_cons; [done|]. intros ->. by rewrite is_sep_dash in E.
    + intros _ t [= -> _]. by rewrite is_sep_dash in E.
Qed.

Lemma normalize_loop_id ld s :
  Forall canon_byte s -> no_double "-"%char s ->
  (ld = true -> forall t, s ≠ "-"%char :: t) -> normalize_loop ld s = s.
Proof.
  intros Hs; revert ld; induction Hs as [|c s Hc Hs IH]; intros ld Hnd Hld; simpl; [done|].
  unfold canon_byte in Hc. apply Is_true_true in Hc. bool_to_prop.
  destruct (is_sep c) eqn:E; simpl in *.
  - bool_to_prop. subst c. destruct ld; [by exfalso; eapply Hld|].
    f_equal. apply IH; [by eapply no_double_cons_inv|].
    intros _ t ->. by apply (Hnd [] t).
  - f_equal. apply IH; [by eapply no_double_cons_inv | done].
Qed.

Lemma canon_lower s : Forall canon_byte s -> to_ascii_lowercase s = s.
Proof.
  unfold to_ascii_lowercase. induction 1 as [|c s Hc Hs IH]; [done|]. simpl. f_equal; [|done].
  unfold canon_byte in Hc. apply Is_true_true in Hc. by bool_to_prop.
Qed.

Lemma normalize_canonical s : canonical (normalize_pkg_name s).
Proof.
  unfold normalize_pkg_name, canonical.
  set (u := normalize_loop false (to_ascii_lowercase s)).
  destruct (trim_matches_split "-"%char u) as (n & m & Hu).
  split; [|split; [|split; intros t; [apply trim_matches_head | apply trim_matches_last]]].
  - assert (Forall canon_byte u) as H.
    { apply normalize_loop_bytes, Forall_fmap, Forall_true. intros. apply lower_byte_idem. }
    rewrite Hu in H. by apply Forall_app in H as [_ [? _]%Forall_app].
  - destruct (normalize_loop_no_double false (to_ascii_lowercase s)) as [H _].
    fold u in H. rewrite Hu in H. by eapply no_double_sub.
Qed.

Lemma normalize_of_canonical s : canonical s -> normalize_pkg_name s = s.
Proof.
  intros (Hb & Hd & Hh & Hl). unfold normalize_pkg_name.
  rewrite canon_lower, normalize_loop_id by done. by apply trim_matches_id.
Qed.

(** A run of separators normalizes like a single dash. *)
Lemma normalize_loop_seps ld x seps y :
  seps ≠ [] -> Forall (fun c => is_sep c = true) seps ->
  normalize_loop ld (x ++ seps ++ y) = normalize_loop ld (x ++ "-"%char :: y).
Proof.
  intros Hne Hs. revert ld; induction x as [|c x IH]; intros ld; simpl.
  - destruct Hs as [|c seps Hc Hs]; [done|]. simpl. rewrite Hc.
    assert (normalize_loop true (seps ++ y) = normalize_loop true y) as ->; [|done].
    clear -Hs. induction Hs as [|c seps Hc Hs IH]; simpl; [done|]. by rewrite Hc.
  - destruct (is_sep c), ld; by rewrite ?IH.
Qed.

Lemma is_sep_lower c : is_sep c = true -> is_sep (to_ascii_lowercase_byte c) = true.
Proof. by_bytes c. Qed.

(** ** What a pattern means, and the matcher implements it *)

(** The declarative reading: [*] matches any substring, every other byte
    itself, the whole value is consumed. *)
Fixpoint glob (p v : str) : Prop :=
  match p with
  | [] => v = []
  | c :: p =>
    if decide (c = "*"%char) then (exists k, (k <= length v)%nat /\ glob p (drop k v))
    else match v with d :: v => c = d /\ glob p v | [] => False end
  end.

Lemma glob_star p v : glob ("*"%char :: p) v <-> exists x w, v = x ++ w /\ glob p w.
Proof.
  simpl. split.
  - intros (k & Hk & Hg). exists (take k v), (drop k v). by rewrite take_drop.
  - intros (x & w & -> & Hg). exists (length x). rewrite length_app, drop_app_length.
    split; [lia | done].
Qed.

Lemma glob_star_app p x v : glob ("*"%char :: p) v -> glob ("*"%char :: p) (x ++ v).
Proof.
  rewrite !glob_star. intros (y & w & -> & Hg). exists (x ++ y), w. by rewrite app_assoc.
Qed.

Lemma glob_star_cons p c v :
  glob ("*"%char :: p) (c :: v) <-> glob p (c :: v) \/ glob ("*"%char :: p) v.
Proof.
  split.
  - rewrite glob_star. intros ([|d x] & w & Hw & Hg); simplify_eq/=; [by left | right].
    apply (glob_star p). eauto.
  - intros [Hg|Hg]; [apply glob_star; by exists [], (c :: v) | by apply (glob_star_app p [c])].
Qed.

Lemma glob_nil_r p : glob p [] <-> forallb (fun c => bool_decide (c = "*"%char)) p = true.
Proof.
  induction p as [|c p IH]; simpl; [done|].
  destruct (decide (c = "*"%char)) as [->|Hne].
  - rewrite bool_decide_eq_true_2, <- IH by done. simpl. split.
    + intros (k & _ & Hg). by rewrite drop_nil in Hg.
    + intros Hg. exists 0%nat. split; [lia | done].
  - by rewrite bool_decide_eq_false_2.
Qed.

Lemma glob_literal seg p v :
  "*"%char ∉ seg -> (glob (seg ++ p) v <-> exists w, v = seg ++ w /\ glob p w).
Proof.
  revert v; induction seg as [|c seg IH]; intros v Hn; simpl.
  { naive_solver. }
  rewrite decide_False by set_solver. destruct v as [|d v]; [naive_solver|].
  rewrite IH by set_solver. naive_solver.
Qed.

Lemma glob_lit c p d v : c ≠ "*"%char -> (glob (c :: p) (d :: v) <-> c = d /\ glob p v).
Proof. intros. simpl. by rewrite decide_False. Qed.

#[global] Arguments glob : simpl never.

(** The loop invariant: before any star the two suffixes stand for the whole
    question; after one, the last star and the anchor of its current guess do,
    and the segment since the star has been matched literally. *)
Definition wild_inv (V P : str) (st : wild_state) : Prop :=
  (value_i st <= length V)%nat /\ (pattern_i st <= length P)%nat /\
  match star_i st with
  | None => star_value_i st = 0%nat
            /\ (glob P V <-> glob (drop (pattern_i st) P) (drop (value_i st) V))
  | Some s =>
    (star_value_i st <= value_i st)%nat /\ (s < pattern_i st)%nat /\
    exists seg, ("*"%char ∉ seg)
      /\ drop (S s) P = seg ++ drop (pattern_i st) P
      /\ drop (star_value_i st) V = seg ++ drop (value_i st) V
      /\ (glob P V <-> glob ("*"%char :: drop (S s) P) (drop (star_value_i st) V))
  end.

Definition wild_measure (V P : str) (st : wild_state) : nat :=
  ((S (length V) - star_value_i st) * S (length P) + (length P - pattern_i st))%nat.

Lemma drop_lookup {A} (l : list A) i x : l !! i = Some x -> drop i l = x :: drop (S i) l.
Proof. intros H. by erewrite drop_S. Qed.

Section wild_proof.
Context (V P : str) (Hstar : "*"%char ∉ V).

Lemma wild_literal_inv vi pi si sv c :
  P !! pi = Some c -> V !! vi = Some c ->
  wild_inv V P (WildState vi pi si sv) -> wild_inv V P (WildState (S vi) (S pi) si sv).
Proof.
  intros HP HV (Hv & Hp & Hinv). unfold wild_inv; simpl in *.
  apply lookup_lt_Some in HP as Hpl. apply lookup_lt_Some in HV as Hvl.
  assert (c ≠ "*"%char) as Hc.
  { intros ->. apply Hstar. apply list_elem_of_lookup. eauto. }
  split; [lia|]. split; [lia|]. destruct si as [s|].
  - destruct Hinv as (H1 & H2 & seg & Hn & Hd & Hw & Hg).
    split; [lia|]. split; [lia|]. exists (seg ++ [c]).
    rewrite (drop_lookup _ _ _ HP) in Hd. rewrite (drop_lookup _ _ _ HV) in Hw.
    rewrite <- !app_assoc. split; [set_solver | done].
  - destruct Hinv as [-> Hg]. split; [done|]. rewrite Hg.
    rewrite (drop_lookup _ _ _ HP), (drop_lookup _ _ _ HV), glob_lit by done.
    tauto.
Qed.

Lemma wild_star_inv vi pi si sv :
  P !! pi = Some "*"%char ->
  wild_inv V P (WildState vi pi si sv) -> wild_inv V P (WildState vi (S pi) (Some pi) vi).
Proof.
  intros HP (Hv & Hp & Hinv). unfold wild_inv; simpl in *.
  apply lookup_lt_Some in HP as Hpl.
  split; [done|]. split; [lia|]. split; [lia|]. split; [lia|].
  exists []. split; [set_solver|]. split; [done|]. split; [done|].
  destruct si as [s|].
  - destruct Hinv as (_ & _ & seg & Hn & Hd & Hw & ->). rewrite Hd, Hw.
    rewrite (drop_lookup _ _ _ HP), glob_star. split.
    + intros (x & w & Hx & Hg). apply glob_literal in Hg as (u & -> & Hg); [|done].
      rewrite app_assoc in Hx. assert (exists y, drop vi V = y ++ u) as [y ->].
      { apply (f_equal (drop (length seg))) in Hx. rewrite drop_app_length in Hx.
        rewrite Hx. destruct (decide (length seg <= length (x ++ seg))%nat).
        - rewrite drop_app_le by done. eauto.
        - rewrite length_app in *. lia. }
      by apply glob_star_app.
    + intros Hg. exists [], (seg ++ drop vi V). split; [done|]. apply glob_literal; eauto.
  - destruct Hinv as [_ ->]. by rewrite (drop_lookup _ _ _ HP).
Qed.

(** A mismatch under a star rules out the anchor's current position. *)
Lemma wild_retry_inv vi pi s sv :
  (vi < length V)%nat -> P !! pi ≠ Some "*"%char ->
  (forall c, P !! pi = Some c -> V !! vi ≠ Some c) ->
  wild_inv V P (WildState vi pi (Some s) sv) ->
  wild_inv V P (WildState (S sv) (S s) (Some s) (S sv)).
Proof.
  intros Hlt Hns Hne (Hv & Hp & H1 & H2 & seg & Hn & Hd & Hw & Hg).
  unfold wild_inv; simpl in *.
  split; [lia|]. split; [lia|]. split; [lia|]. split; [lia|].
  exists []. split; [set_solver|]. split; [done|]. split; [done|].
  rewrite Hg. assert (is_Some (V !! sv)) as [d Hd'] by (apply lookup_lt_is_Some; lia).
  rewrite (drop_lookup _ _ _ Hd'), glob_star_cons. split; [|tauto].
  intros [Hbad|?]; [exfalso | done]. rewrite <- (drop_lookup _ _ _ Hd'), Hd, Hw in Hbad.
  apply glob_literal in Hbad as (w & Hweq & Hbad); [|done].
  apply app_inv_head in Hweq as <-.
  apply lookup_lt_is_Some in Hlt as [e He]. rewrite (drop_lookup _ _ _ He) in Hbad.
  destruct (P !! pi) as [c|] eqn:HP.
  - rewrite (drop_lookup _ _ _ HP), glob_lit in Hbad by congruence. destruct Hbad as [-> _]. by eapply Hne.
  - rewrite drop_ge in Hbad by by apply lookup_ge_None. done.
Qed.

(** A mismatch with no star to fall back on refutes the whole match. *)
Lemma wild_fail vi pi sv :
  (vi < length V)%nat -> P !! pi ≠ Some "*"%char ->
  (forall c, P !! pi = Some c -> V !! vi ≠ Some c) ->
  wild_inv V P (WildState vi pi None sv) -> ~ glob P V.
Proof.
  intros Hlt Hns Hne (_ & _ & _ & ->); simpl in *.
  apply lookup_lt_is_Some in Hlt as [e He]. rewrite (drop_lookup _ _ _ He).
  destruct (P !! pi) as [c|] eqn:HP.
  - rewrite (drop_lookup _ _ _ HP), glob_lit by congruence.
    intros [-> _]. by eapply Hne.
  - by rewrite drop_ge by by apply lookup_ge_None.
Qed.

Lemma wild_exit st :
  (length V <= value_i st)%nat -> wild_inv V P st ->
  glob P V <-> forallb (fun c => bool_decide (c = "*"%char)) (drop (pattern_i st) P) = true.
Proof.
  destruct st as [vi pi si sv]; simpl. intros Hge (_ & _ & Hinv); simpl in *.
  rewrite <- glob_nil_r. rewrite (drop_ge V vi Hge) in Hinv.
  destruct si as [s|]; [|by destruct Hinv].
  destruct Hinv as (_ & _ & seg & Hn & Hd & Hw & ->). rewrite Hd, Hw, app_nil_r, glob_star.
  split.
  - intros (x & w & Hx & Hg). apply glob_literal in Hg as (u & -> & Hg); [|done].
    apply (f_equal length) in Hx. rewrite !length_app in Hx.
    destruct u; [done | simpl in Hx; lia].
  - intros Hg. exists [], seg. split; [done|]. apply glob_literal; [done|].
    exists []. by rewrite app_nil_r.
Qed.

Lemma wild_step_spec st :
  (value_i st < length V)%nat -> wild_inv V P st ->
  match wild_step V P st with
  | Some st' => wild_inv V P st' /\ (wild_measure V P st' < wild_measure V P st)%nat
  | None => ~ glob P V
  end.
Proof.
  destruct st as [vi pi si sv]; simpl. intros Hlt Hinv.
  pose proof Hinv as (Hv & Hp & Hstar').
  unfold wild_step; simpl. case_bool_decide as Hlit.
  { destruct Hlit as [[c Hc] Heq]. rewrite Hc in Heq. symmetry in Heq.
    split; [by eapply wild_literal_inv|].
    apply lookup_lt_Some in Hc. unfold wild_measure; simpl. lia. }
  assert (forall c, P !! pi = Some c -> V !! vi ≠ Some c) as Hne.
  { intros c Hc Hvc. apply Hlit. rewrite Hc, Hvc. eauto. }
  case_bool_decide as Hst.
  { split; [by eapply wild_star_inv|]. apply lookup_lt_Some in Hst.
    unfold wild_measure; simpl in *. destruct si; simpl in *; nia. }
  destruct si as [s|]; [|by eapply wild_fail].
  split; [by eapply wild_retry_inv|]. unfold wild_measure; simpl in *. nia.
Qed.

Lemma wild_loop_spec fuel st :
  wild_inv V P st -> (wild_measure V P st < fuel)%nat ->
  exists r, wild_loop fuel V P st = Some r /\ (r = true <-> glob P V).
Proof.
  revert st; induction fuel as [|fuel IH]; intros st Hinv Hm; [lia|]; simpl.
  destruct (Nat.ltb_spec (value_i st) (length V)) as [Hlt|Hge].
  - pose proof (wild_step_spec st Hlt Hinv) as Hs.
    destruct (wild_step V P st) as [st'|]; [|by exists false].
    destruct Hs as [Hinv' Hm']. apply IH; [done | lia].
  - eexists; split; [done|]. symmetry. by apply wild_exit.
Qed.

End wild_proof.

Lemma wild_init V P : wild_inv V P (WildState 0 0 None 0).
Proof. unfold wild_inv; simpl. rewrite !drop_0. repeat split; try lia; tauto. Qed.

Lemma wildcard_match_glob V P :
  "*"%char ∉ V -> (wildcard_match V P = true <-> glob P V).
Proof.
  intros Hs. unfold wildcard_match, wild_fuel.
  destruct (wild_loop_spec V P Hs (S (length V) * S (length P) + length P + 1)
              (WildState 0 0 None 0)) as (r & -> & Hr).
  - apply wild_init.
  - unfold wild_measure; simpl. lia.
  - done.
Qed.

(** ** Patterns in canonical form *)

Definition pattern_byte (c : ascii) : bool := name_byte c || bool_decide (c = "*"%char).

Definition canonical_pattern (s : str) : Prop :=
  Forall pattern_byte s /\ no_double "-"%char s /\ no_double "*"%char s
  /\ (forall t, s ≠ "-"%char :: t) /\ (forall t, s ≠ t ++ ["-"%char]).

Lemma pattern_byte_plain c : pattern_byte c -> plain c.
Proof. by_bytes c. Qed.

(** One byte of a pattern, the way the parser classifies it. *)
Lemma pattern_byte_cases c :
  pattern_byte c ->
  c = "*"%char \/ (c = "-"%char /\ is_sep c = true)
  \/ (c ≠ "*"%char /\ c ≠ "-"%char /\ is_sep c = false
      /\ is_ascii_alphanumeric c = true /\ to_ascii_lowercase_byte c = c).
Proof.
  intros Hc. destruct (decide (c = "*"%char)); [by left|]. right.
  destruct (decide (c = "-"%char)) as [->|]; [by left|]. right.
  split; [done|]. split; [done|]. revert Hc n n0. by_bytes c.
Qed.

Lemma alnum_not_special c :
  is_ascii_alphanumeric c = true ->
  pattern_byte (to_ascii_lowercase_byte c) /\ to_ascii_lowercase_byte c ≠ "-"%char
  /\ to_ascii_lowercase_byte c ≠ "*"%char.
Proof. by_bytes c. Qed.

Lemma pattern_loop_id ld ls s :
  Forall pattern_byte s -> no_double "-"%char s -> no_double "*"%char s ->
  (ld = true -> forall t, s ≠ "-"%char :: t) -> (ls = true -> forall t, s ≠ "*"%char :: t) ->
  pattern_loop ld ls s = Ok s.
Proof.
  intros Hs; revert ld ls; induction Hs as [|c s Hc Hs IH];
    intros ld ls Hd Hst Hld Hls; simpl; [done|].
  pose proof (no_double_cons_inv _ _ _ Hd) as Hd'.
  pose proof (no_double_cons_inv _ _ _ Hst) as Hst'.
  destruct (pattern_byte_cases c Hc) as [->|[[-> Hsep]|(Hn1 & Hn2 & Hsep & Hal & Hlow)]].
  - rewrite bool_decide_eq_true_2 by done.
    rewrite IH by (try done; intros _ t ->; by apply (Hst [] t)). simpl.
    destruct ls; [by exfalso; eapply Hls | done].
  - rewrite bool_decide_eq_false_2, Hsep by done.
    rewrite IH by (try done; intros _ t ->; by apply (Hd [] t)). simpl.
    destruct ld; [by exfalso; eapply Hld | done].
  - rewrite bool_decide_eq_false_2, Hsep, Hal by done. simpl.
    rewrite IH by done. simpl. by rewrite Hlow.
Qed.

Lemma pattern_loop_canonical ld ls s t :
  ld && ls = false -> pattern_loop ld ls s = Ok t ->
  Forall pattern_byte t /\ no_double "-"%char t /\ no_double "*"%char t
  /\ (ld = true -> forall u, t ≠ "-"%char :: u) /\ (ls = true -> forall u, t ≠ "*"%char :: u).
Proof.
  revert ld ls t; induction s as [|c s IH]; intros ld ls t Hf; simpl.
  { intros [= <-]. repeat split; try done; apply no_double_nil. }
  case_bool_decide as Hc; [|destruct (is_sep c) eqn:Hsep].
  - destruct (pattern_loop false true s) as [r|] eqn:E; simpl; [|done]. intros [= <-].
    apply IH in E as (H1 & H2 & H3 & _ & H5); [|done].
    destruct ls; [by destruct ld|].
    split; [by constructor|]. split; [by apply no_double_cons|].
    split; [apply no_double_cons; auto | done].
  - destruct (pattern_loop true false s) as [r|] eqn:E; simpl; [|done]. intros [= <-].
    apply IH in E as (H1 & H2 & H3 & H4 & _); [|done].
    destruct ld; [by destruct ls|].
    split; [by constructor|]. split; [apply no_double_cons; auto|].
    split; [by apply no_double_cons | done].
  - destruct (is_ascii_alphanumeric c) eqn:Hal; simpl; [|done].
    destruct (pattern_loop false false s) as [r|] eqn:E; simpl; [|done]. intros [= <-].
    apply IH in E as (H1 & H2 & H3 & _ & _); [|done].
    destruct (alnum_not_special c Hal) as (Hp & Hn1 & Hn2).
    split; [by constructor|]. split; [by apply no_double_cons|].
    split; [by apply no_double_cons|]. split; congruence.
Qed.

(** A canonical pattern is what the parser makes of itself. *)
Lemma parse_pattern_canonical s :
  canonical_pattern s -> s ≠ [] -> s ≠ &"*" -> (length s <= 256)%nat ->
  ("*"%char ∈ s \/ checked_pkg_name s = Some s) -> parse_pattern s = Ok (MkPattern s).
Proof.
  intros (Hb & Hd & Hst & Hh & Hl) Hne Hns Hlen Hname. unfold parse_pattern.
  rewrite trim_plain by (eapply Forall_impl; [done | apply pattern_byte_plain]).
  rewrite bool_decide_eq_false_2 by done.
  rewrite pattern_loop_id by done. simpl.
  rewrite trim_matches_id by done.
  rewrite !bool_decide_eq_false_2 by done.
  destruct (Nat.ltb_spec 256 (length s)); [lia|]. simpl.
  destruct Hname as [Hin%contains_byte_true | Hck].
  - by rewrite Hin.
  - rewrite Hck, bool_decide_eq_true_2 by done. by rewrite andb_false_r.
Qed.

Lemma is_normalized_spec name :
  is_normalized name = true <->
  name ≠ [] /\ (length name <= 256)%nat /\ (forall t, name ≠ "-"%char :: t)
  /\ (forall t, name ≠ t ++ ["-"%char]) /\ Forall name_byte name.
Proof.
  unfold is_normalized, MAX_PKG_NAME_BYTES.
  rewrite !andb_true_iff, !negb_true_iff, bool_decide_eq_true, Nat.leb_le, forallb_Forall,
    <- !not_true_iff_false, starts_with_true, ends_with_true.
  naive_solver.
Qed.

Lemma checked_pkg_name_Some raw name :
  checked_pkg_name raw = Some name ->
  name = normalize_pkg_name raw /\ canonical name /\ is_normalized name = true.
Proof.
  unfold checked_pkg_name. case_match; [|done]. intros [= <-].
  split; [done|]. split; [apply normalize_canonical | done].
Qed.

Lemma checked_pkg_name_fixed raw name :
  checked_pkg_name raw = Some name -> checked_pkg_name name = Some name.
Proof.
  intros (-> & Hc & Hn)%checked_pkg_name_Some. unfold checked_pkg_name.
  by rewrite normalize_of_canonical, Hn.
Qed.

Lemma name_byte_pattern c : name_byte c -> pattern_byte c.
Proof. by_bytes c. Qed.

Lemma name_byte_no_star s : Forall name_byte s -> "*"%char ∉ s.
Proof. rewrite Forall_forall. intros H Hin. by apply H in Hin. Qed.

(** The two patterns of [--private-prefix]. *)
Lemma prefix_patterns raw prefix :
  checked_pkg_name raw = Some prefix -> (length prefix <= 254)%nat ->
  parse_pattern prefix = Ok (MkPattern prefix)
  /\ parse_pattern (prefix ++ &"-*") = Ok (MkPattern (prefix ++ &"-*")).
Proof.
  intros Hck Hlen. pose proof (checked_pkg_name_fixed _ _ Hck) as Hfix.
  apply checked_pkg_name_Some in Hck as (_ & (_ & Hd & Hh & Hl) & Hn).
  apply is_normalized_spec in Hn as (Hne & _ & _ & _ & Hb).
  pose proof (name_byte_no_star _ Hb) as Hns.
  assert (Forall pattern_byte prefix) as Hpb.
  { eapply Forall_impl; [done | apply name_byte_pattern]. }
  assert (prefix ++ &"-*" = (prefix ++ ["-"%char]) ++ ["*"%char]) as Happ by by rewrite <- app_assoc.
  split; apply parse_pattern_canonical.
  - repeat split; [done | done | by apply no_double_absent | done | done].
  - done.
  - intros ->. apply Hns. set_solver.
  - lia.
  - by right.
  - split; [apply Forall_app; split; [done | by repeat constructor]|].
    rewrite Happ. split; [|split; [|split]].
    + apply no_double_snoc; [|done]. apply no_double_snoc; [done | intros _; apply Hl].
    + apply no_double_snoc; [apply no_double_absent; set_solver|].
      by intros _ t [_ ?]%app_inj_tail.
    + intros t H. destruct prefix as [|c q]; [done|]. simplify_eq/=. by eapply Hh.
    + by intros t [_ ?]%app_inj_tail.
  - by destruct prefix.
  - destruct prefix; [done|]. intros H. apply (f_equal length) in H.
    rewrite length_app in H. simpl in H. lia.
  - rewrite length_app. simpl. lia.
  - left. rewrite Happ. set_solver.
Qed.

Lemma names_push_match names p pkg :
  names_match (names_push names p) pkg = true
  <-> names_match names pkg = true \/ pattern_matches p pkg = true.
Proof.
  unfold names_push, names_match. case_decide as Hin; simpl.
  - rewrite !existsb_Exists. split; [tauto | intros [?|?]; [done | eauto]].
  - rewrite existsb_app, orb_true_iff. simpl. by rewrite orb_false_r.
Qed.

Lemma names_push_all_match ps names pkg :
  names_match (foldl names_push names ps) pkg = true
  <-> names_match names pkg = true \/ exists p, p ∈ ps /\ pattern_matches p pkg = true.
Proof.
  revert names; induction ps as [|p ps IH]; intros names; simpl.
  - split; [tauto | intros [?|(p & Hp & _)]; [done | by apply not_elem_of_nil in Hp]].
  - rewrite IH, names_push_match. set_solver.
Qed.

Lemma glob_prefix prefix v : "*"%char ∉ prefix -> (glob prefix v <-> v = prefix).
Proof.
  intros Hn. rewrite <- (app_nil_r prefix) at 1. rewrite glob_literal by done.
  split; [intros (w & -> & ->) | intros ->; exists []]; by rewrite app_nil_r.
Qed.

Lemma glob_prefix_star prefix v :
  "*"%char ∉ prefix -> (glob (prefix ++ &"-*") v <-> exists t, v = prefix ++ "-"%char :: t).
Proof.
  intros Hn. change (&"-*") with (["-"%char] ++ ["*"%char]). rewrite app_assoc, glob_literal
    by set_solver.
  split.
  - intros (w & -> & _). exists w. by rewrite <- app_assoc.
  - intros (t & ->). exists t. rewrite <- app_assoc. split; [done|].
    apply glob_star. by exists t, []; rewrite app_nil_r.
Qed.

(** ** Properties *)

(** PEP 503 normalization computes a canonical form. Its result is
    lowercase, has no underscore, dot or doubled dash and no dash at either
    end; a name already in that form is left alone (so normalizing twice is
    normalizing once); and the case of the letters and the length and spelling
    of a separator run never matter. *)
Theorem normalize_canonical_form :
  (forall s, canonical (normalize_pkg_name s))
  /\ (forall s, canonical s -> normalize_pkg_name s = s)
  /\ (forall s, normalize_pkg_name (to_ascii_lowercase s) = normalize_pkg_name s)
  /\ (forall x seps y, seps ≠ [] -> Forall (fun c => is_sep c = true) seps ->
       normalize_pkg_name (x ++ seps ++ y) = normalize_pkg_name (x ++ "-"%char :: y)).
Proof.
  split; [apply normalize_canonical|]. split; [apply normalize_of_canonical|]. split.
  - intros s. unfold normalize_pkg_name. by rewrite lower_idem.
  - intros x seps y Hne Hs. unfold normalize_pkg_name, to_ascii_lowercase.
    rewrite !fmap_app, fmap_cons. f_equal. apply normalize_loop_seps; [by destruct seps|].
    apply Forall_fmap. eapply Forall_impl; [done | apply is_sep_lower].
Qed.

(** The gate in front of storage paths. A name [checked_pkg_name] lets
    through is nonempty, at most 256 bytes, only lowercase letters, digits and
    dashes (so no slash, dot or backslash reaches a path segment), in canonical
    form, and passes the gate again unchanged. *)
Theorem checked_pkg_name_safe raw name :
  checked_pkg_name raw = Some name ->
  is_normalized name = true /\ canonical name /\ checked_pkg_name name = Some name
  /\ ("/"%char ∉ name) /\ ("."%char ∉ name) /\ ("\"%char ∉ name).
Proof.
  intros Hck. pose proof (checked_pkg_name_fixed _ _ Hck) as Hfix.
  apply checked_pkg_name_Some in Hck as (_ & Hc & Hn). do 3 (split; [done|]).
  apply is_normalized_spec in Hn as (_ & _ & _ & _ & Hb). rewrite Forall_forall in Hb.
  repeat split; intros Hin; by apply Hb in Hin.
Qed.

Lemma checked_pkg_name_safe_witness :
  checked_pkg_name (&"My_.Pkg") = Some (&"my-pkg") /\ is_normalized (&"my-pkg") = true.
Proof.
  assert (checked_pkg_name (&"My_.Pkg") = Some (&"my-pkg")) as H by reflexivity.
  split; [exact H | apply (checked_pkg_name_safe _ _ H)].
Defined.

(** The greedy wildcard matcher decides the declarative reading of a
    pattern. On a value without a literal star (a package name) its loop ends
    within the fuel with an answer, and that answer is [true] exactly when some
    choice of a substring for every star makes the pattern equal to the whole
    value. *)
Theorem wildcard_match_correct value pattern :
  "*"%char ∉ value ->
  is_Some (wild_loop (wild_fuel value pattern) value pattern (WildState 0 0 None 0))
  /\ (wildcard_match value pattern = true <-> glob pattern value).
Proof.
  intros Hs. split; [|by apply wildcard_match_glob].
  destruct (wild_loop_spec value pattern Hs (wild_fuel value pattern) (WildState 0 0 None 0))
    as (r & -> & _); [apply wild_init | unfold wild_fuel, wild_measure; simpl; lia | eauto].
Qed.

Lemma wildcard_match_correct_witness :
  wildcard_match (&"acme-auth") (&"acme-*") = true /\ glob (&"acme-*") (&"acme-auth").
Proof.
  assert ("*"%char ∉ &"acme-auth") as Hs by (apply (bool_decide_eq_true_1 _); reflexivity).
  assert (wildcard_match (&"acme-auth") (&"acme-*") = true) as H by (vm_compute; reflexivity).
  split; [exact H | by apply (wildcard_match_correct _ _ Hs)].
Defined.

(** What [--private-prefix] reserves. With a prefix that passes the name
    gate (and leaves room for the [-*] of its second pattern under the 256-byte
    cap) construction succeeds, and a normalized package name is reserved
    exactly when it is the prefix itself, extends it after a dash, or matches
    one of the explicit patterns: [acme] never reserves [acmetools] or
    [other-acme]. *)
Theorem private_prefix_reserves raw prefix patterns :
  checked_pkg_name raw = Some prefix -> (length prefix <= 254)%nat ->
  exists names, private_names_new (Some raw) patterns = Ok names
  /\ forall pkg, is_normalized pkg = true ->
     (names_match names pkg = true <->
      pkg = prefix \/ (exists t, pkg = prefix ++ "-"%char :: t)
      \/ exists p, p ∈ patterns /\ glob (pattern_str p) pkg).
Proof.
  intros Hck Hlen. destruct (prefix_patterns _ _ Hck Hlen) as [Hp1 Hp2].
  unfold private_names_new. rewrite Hck, Hp1. cbn [rbind]. rewrite Hp2. cbn [rbind].
  eexists; split; [done|]. intros pkg (_ & _ & _ & _ & Hb)%is_normalized_spec.
  apply checked_pkg_name_Some in Hck as (_ & _ & (_ & _ & _ & _ & Hpb)%is_normalized_spec).
  apply name_byte_no_star in Hb, Hpb.
  rewrite names_push_all_match, !names_push_match. unfold pattern_matches at 1 2. simpl.
  rewrite !wildcard_match_glob, glob_prefix, glob_prefix_star by done.
  unfold pattern_matches. setoid_rewrite wildcard_match_glob; [|done].
  assert (names_match (MkNames []) pkg = true <-> False) as -> by done. tauto.
Qed.

Lemma private_prefix_reserves_witness :
  exists names, private_names_new (Some (&"Acme")) [] = Ok names
  /\ names_match names (&"acme-auth") = true.
Proof.
  assert (checked_pkg_name (&"Acme") = Some (&"acme")) as Hck by reflexivity.
  assert (length (&"acme") <= 254)%nat as Hl by (simpl; lia).
  destruct (private_prefix_reserves (&"Acme") (&"acme") [] Hck Hl) as (names & Hn & Hm).
  exists names. split; [exact Hn|]. apply Hm; [reflexivity|].
  right; left. by exists (&"auth").
Defined.

(** Parsing a private pattern is idempotent: what it accepts is stored in a
    canonical form that parses back to itself, is never the match-all [*], and
    without a star is an admissible package name. *)
Theorem parse_pattern_roundtrip raw p :
  parse_pattern raw = Ok p ->
  parse_pattern (pattern_str p) = Ok p /\ pattern_str p ≠ &"*"
  /\ ("*"%char ∉ pattern_str p -> checked_pkg_name (pattern_str p) = Some (pattern_str p)).
Proof.
  unfold parse_pattern at 1. case_bool_decide; [done|].
  destruct (pattern_loop false false (trim raw)) as [u|] eqn:E; simpl; [|done].
  apply pattern_loop_canonical in E as (Hb & Hd & Hs & _ & _); [|done].
  destruct (trim_matches_split "-"%char u) as (n & m & Hu). set (t := trim_matches "-"%char u) in *.
  case_bool_decide as Hnstar; [done|].
  destruct (bool_decide (t = []) || (256 <? length t)%nat) eqn:Hlen; [done|].
  destruct (negb (contains_byte "*"%char t) && negb (bool_decide (checked_pkg_name t = Some t)))
    eqn:Hnm; [done|].
  intros [= <-]. simpl. bool_to_prop. apply Nat.ltb_ge in H1.
  rewrite andb_false_iff, !negb_false_iff, contains_byte_true, bool_decide_eq_true in Hnm.
  split; [|split; [done | tauto]].
  apply parse_pattern_canonical; [|done | done | done | done].
  rewrite Hu in Hb, Hd, Hs. apply Forall_app in Hb as [_ [Hb _]%Forall_app].
  split; [done|]. split; [by eapply no_double_sub|]. split; [by eapply no_double_sub|].
  split; intros x; [apply trim_matches_head | apply trim_matches_last].
Qed.

Lemma parse_pattern_roundtrip_witness :
  parse_pattern (&" Acme_*-x ") = Ok (MkPattern (&"acme-*-x"))
  /\ parse_pattern (&"acme-*-x") = Ok (MkPattern (&"acme-*-x")).
Proof.
  assert (parse_pattern (&" Acme_*-x ") = Ok (MkPattern (&"acme-*-x"))) as H
    by (vm_compute; reflexivity).
  split; [exact H | apply (parse_pattern_roundtrip _ _ H)].
Defined.

(** The PEP 427 wheel filename grammar is read back. For a filename built
    from a distribution, a version, an optional build tag and the three tag
    fields (none containing a dash, the tags joined with dots), the version
    extracted is the version field and the parsed compatibility tags are exactly
    the alternatives it was built from. *)
Theorem wheel_filename_roundtrip {P : Pep440} dist version build py ab pl :
  Forall (fun f => "-"%char ∉ f) (dist :: version :: build) ->
  (length build <= 1)%nat ->
  py ≠ [] -> ab ≠ [] -> pl ≠ [] ->
  Forall (fun tag => ("-"%char ∉ tag) /\ ("."%char ∉ tag)) (py ++ ab ++ pl) ->
  let filename :=
    join "-"%char (dist :: version :: build
                   ++ [join "."%char py; join "."%char ab; join "."%char pl]) ++ &".whl" in
  infer_version_from_filename filename = Some version
  /\ parse_wheel_tags filename = Some (MkTags py ab pl).
Proof.
  intros Hf Hbuild Hpy Hab Hpl Ht filename.
  assert (forall ts, Forall (fun tag => ("-"%char ∉ tag) /\ ("."%char ∉ tag)) ts ->
            "-"%char ∉ join "."%char ts) as Hjoin.
  { intros ts. induction 1 as [|t ts [Ht1 _] Hts IH]; [set_solver|].
    destruct ts as [|u ts]; [done|].
    change (join "."%char (t :: u :: ts)) with (t ++ "."%char :: join "."%char (u :: ts)).
    set_solver. }
  rewrite !Forall_app in Ht. destruct Ht as (Ht1 & Ht2 & Ht3).
  unfold infer_version_from_filename, parse_wheel_tags, filename. rewrite !strip_suffix_app.
  cbn [mbind option_bind]. rewrite !split_join; [|done|].
  2: { inversion Hf as [|? ? ? Hf']; inversion Hf'; subst. repeat constructor; try done.
       apply Forall_app. split; [done|]. repeat constructor; auto. }
  split; [done|].
  assert (forall ts, Forall (fun tag => ("-"%char ∉ tag) /\ ("."%char ∉ tag)) ts -> ts ≠ [] ->
            split "."%char (join "."%char ts) = ts) as Hsplit.
  { intros ts Hts Hne. apply split_join; [done|]. eapply Forall_impl; [done | naive_solver]. }
  destruct build as [|bt [|? ?]]; simpl in *; [| | lia]; by rewrite !Hsplit.
Qed.

Lemma wheel_filename_roundtrip_witness :
  parse_wheel_tags (&"foo-1-cp3.py3-none-any.whl")
  = Some (MkTags [&"cp3"; &"py3"] [&"none"] [&"any"]).
Proof.
  apply (wheel_filename_roundtrip (P := toy_pep440) (&"foo") (&"1") []
           [&"cp3"; &"py3"] [&"none"] [&"any"]);
    try discriminate; try (simpl; lia); repeat constructor;
    apply (bool_decide_eq_true_1 _); vm_compute; reflexivity.
Defined.

End Names.
