(* ===== verification/Denylist.v ===== *)
(** * The exclude list (src/denylist.rs)

    What an excluded name hides from the indexes: a bare entry hides the whole
    project, a pinned one the releases it matches. The list is stamped into the
    bucket in a canonical form and read back by the offline commands. *)
From S2P Require Import Prelude RustStr Pep440 Names.
Import Names.

Module Denylist.

Section denylist.
Context `{Pep440}.

(** One resolved exclude of the configuration: a name and, if pinned, its
    specifiers. *)
Record PackageSpec := MkSpec { spec_name : str; spec_specifiers : option VersionSpecifiers }.

Definition version_allowed (constraints : list (option VersionSpecifiers)) (filename : str) : bool :=
  if existsb (fun c => match c with None => true | Some _ => false end) constraints then true else
  match infer_version_from_filename filename ≫= parse_version with
  | None => false
  | Some version =>
    existsb (fun c => match c with Some s => specifiers_contain s version | None => false end) constraints
  end.

Record Denylist := MkDenylist { deny : gmap str (list (option VersionSpecifiers)) }.

Definition add_spec (m : gmap str (list (option VersionSpecifiers))) (spec : PackageSpec)
    : gmap str (list (option VersionSpecifiers)) :=
  <[spec_name spec := default [] (m !! spec_name spec) ++ [spec_specifiers spec]]> m.

Definition from_specs (specs : list PackageSpec) : Denylist := MkDenylist (foldl add_spec ∅ specs).

(** One stored token: [*] is a bare exclude, anything else a specifier set. *)
Definition read_token (spec : str) : option (option VersionSpecifiers) :=
  if decide (spec = &"*") then Some None else Some <$> parse_specifiers spec.

(** [None] where a specifier does not parse. *)
Definition from_canonical (canonical : gmap str (list str)) : option Denylist :=
  MkDenylist <$> map_fold (fun name specs acc =>
    let! deny := acc in
    let! constraints := mapM read_token specs in
    Some (<[name := constraints]> deny)) (Some ∅) canonical.

Definition is_empty (d : Denylist) : bool := bool_decide (deny d = ∅).

Definition name_fully_denied (d : Denylist) (pkg : str) : bool :=
  match deny d !! pkg with
  | Some constraints => existsb (fun c => match c with None => true | Some _ => false end) constraints
  | None => false
  end.

Definition file_denied (d : Denylist) (pkg filename : str) : bool :=
  match deny d !! pkg with
  | Some constraints => version_allowed constraints filename
  | None => false
  end.

Definition show_token (c : option VersionSpecifiers) : str :=
  match c with Some s => show_specifiers s | None => &"*" end.

(** [Vec::dedup]: drops an element equal to the one kept before it. *)
Fixpoint dedup (l : list str) : list str :=
  match l with
  | x :: (y :: _) as l' => if decide (x = y) then dedup l' else x :: dedup l'
  | _ => l
  end.

Definition canonical (d : Denylist) : gmap str (list str) :=
  (fun constraints => dedup (merge_sort str_le (show_token <$> constraints))) <$> deny d.

(** ** The stamp reads back to the same exclusions *)

Lemma elem_of_dedup l x : x ∈ dedup l <-> x ∈ l.
Proof.
  induction l as [|a [|b l] IH]; [done|done|].
  change (dedup (a :: b :: l)) with (if decide (a = b) then dedup (b :: l) else a :: dedup (b :: l)).
  case_decide as Hab.
  - subst b. rewrite IH. set_solver.
  - rewrite !(elem_of_cons _ x a), IH. done.
Qed.

Lemma canonical_tokens (constraints : list (option VersionSpecifiers)) x :
  x ∈ dedup (merge_sort str_le (show_token <$> constraints)) <-> x ∈ show_token <$> constraints.
Proof. by rewrite elem_of_dedup, merge_sort_Permutation. Qed.

Hypothesis star_is_no_specifier : parse_specifiers (&"*") = None.

Lemma read_show_token c : read_token (show_token c) = Some c.
Proof.
  destruct c as [s|]; unfold read_token, show_token; [|by rewrite decide_True].
  rewrite decide_False; [by rewrite specifiers_roundtrip|].
  intros Hs. pose proof (specifiers_roundtrip s) as Hr. by rewrite Hs, star_is_no_specifier in Hr.
Qed.

#[local] Instance show_token_inj : Inj eq eq show_token.
Proof. intros c c' Hs. apply (f_equal read_token) in Hs. rewrite !read_show_token in Hs. congruence. Qed.

Lemma shown_tokens (l : list str) :
  Forall (fun x => exists c, x = show_token c) l -> exists cs, l = show_token <$> cs.
Proof. induction 1 as [|x l (c & ->) _ (cs & ->)]; [by exists []|by exists (c :: cs)]. Qed.

Lemma mapM_read_show cs : mapM read_token (show_token <$> cs) = Some cs.
Proof.
  induction cs as [|c cs IH]; [done|]. cbn [fmap list_fmap mapM]. rewrite read_show_token.
  cbn [mbind option_bind]. by rewrite IH.
Qed.

Lemma read_tokens (l : list str) (constraints : list (option VersionSpecifiers)) :
  (forall x, x ∈ l <-> x ∈ show_token <$> constraints) ->
  exists cs, mapM read_token l = Some cs /\ forall c, c ∈ cs <-> c ∈ constraints.
Proof.
  intros Hl. destruct (shown_tokens l) as (cs & ->).
  { apply Forall_forall. intros x (c & -> & _)%Hl%list_elem_of_fmap. by exists c. }
  exists cs. split; [apply mapM_read_show|]. intros c. specialize (Hl (show_token c)).
  by rewrite !list_elem_of_fmap_inj in Hl by apply _.
Qed.

(** What a reading of a stamp holds for one name. *)
Lemma from_canonical_lookup (m : gmap str (list str)) :
  (forall pkg l, m !! pkg = Some l -> is_Some (mapM read_token l)) ->
  exists d, from_canonical m = Some d /\ forall pkg, deny d !! pkg = (m !! pkg) ≫= mapM read_token.
Proof.
  unfold from_canonical. set (f := fun name specs acc => _). intros Hm.
  enough (exists r : gmap str (list (option VersionSpecifiers)),
      map_fold f (Some ∅) m = Some r /\ forall pkg, r !! pkg = (m !! pkg) ≫= mapM read_token) as (r & -> & Hr).
  { by exists (MkDenylist r). }
  revert Hm.
  refine (map_fold_weak_ind (fun acc m => (forall pkg l, m !! pkg = Some l -> is_Some (mapM read_token l)) ->
    exists r : gmap str (list (option VersionSpecifiers)),
      acc = Some r /\ forall pkg, r !! pkg = (m !! pkg) ≫= mapM read_token) f (Some ∅) _ _ m).
  - intros _. exists ∅. split; [done|]. intros pkg. by rewrite !lookup_empty.
  - clear m. intros name l m acc Hfresh IH Hm. destruct IH as (r & -> & Hr).
    { intros pkg l' Hl'. apply (Hm pkg). rewrite lookup_insert_ne; [done|]. intros <-. congruence. }
    destruct (Hm name l) as [cs Hcs]; [by rewrite lookup_insert, decide_True|].
    exists (<[name := cs]> r). split; [unfold f; cbn [mbind option_bind]; by rewrite Hcs|].
    intros pkg. destruct (decide (name = pkg)) as [<-|Hne].
    + by rewrite !lookup_insert, !decide_True.
    + by rewrite !lookup_insert_ne.
Qed.

Lemma existsb_same {A} (f : A -> bool) (l l' : list A) :
  (forall x, x ∈ l <-> x ∈ l') -> existsb f l = existsb f l'.
Proof.
  intros Hl. apply eq_true_iff_eq. rewrite !existsb_Exists. by setoid_rewrite Hl.
Qed.

(** The exclude list stamped into a bucket reads back, and hides exactly the
    files and the names it hid when it was stamped. *)
Theorem stamp_reads_back (d : Denylist) :
  exists d', from_canonical (canonical d) = Some d' /\
    (forall pkg filename, file_denied d' pkg filename = file_denied d pkg filename) /\
    (forall pkg, name_fully_denied d' pkg = name_fully_denied d pkg).
Proof.
  destruct (from_canonical_lookup (canonical d)) as (d' & Hd' & Hl).
  { intros pkg l. unfold canonical. rewrite lookup_fmap, fmap_Some. intros (cs & _ & ->).
    destruct (read_tokens _ cs (canonical_tokens cs)) as (cs' & -> & _). done. }
  exists d'. split; [done|].
  assert (forall pkg, match deny d !! pkg with
          | Some cs => exists cs', deny d' !! pkg = Some cs' /\ forall c, c ∈ cs' <-> c ∈ cs
          | None => deny d' !! pkg = None end) as Hsame.
  { intros pkg. rewrite Hl. unfold canonical. rewrite lookup_fmap. destruct (deny d !! pkg) as [cs|]; [|done].
    destruct (read_tokens _ cs (canonical_tokens cs)) as (cs' & Hr & Hcs). by exists cs'. }
  split; intros pkg; [intros filename; unfold file_denied, version_allowed|unfold name_fully_denied];
    specialize (Hsame pkg); destruct (deny d !! pkg) as [cs|].
  - destruct Hsame as (cs' & -> & Hcs). rewrite (existsb_same _ cs' cs Hcs). case_match; [done|].
    case_match; [by apply existsb_same|done].
  - by rewrite Hsame.
  - destruct Hsame as (cs' & -> & Hcs). by apply existsb_same.
  - by rewrite Hsame.
Qed.

End denylist.

Lemma stamp_reads_back_witness :
  @from_canonical toy_pep440 (@canonical toy_pep440
    (@from_specs toy_pep440 [@MkSpec toy_pep440 (&"six") None; @MkSpec toy_pep440 (&"foo") (Some (&"2"))])) ≠ None.
Proof.
  destruct (@stamp_reads_back toy_pep440 eq_refl
    (@from_specs toy_pep440 [@MkSpec toy_pep440 (&"six") None; @MkSpec toy_pep440 (&"foo") (Some (&"2"))]))
    as (d' & -> & _). discriminate.
Defined.

End Denylist.
