(* ===== verification/Documents.v ===== *)
(** * The documents a bucket stores

    The data of src/sidecar.rs (sidecars, companion keys), src/origin.rs (the
    package claim's states) and src/status.rs (the PEP 792 status event): what
    replication reads and merges. Serialization is serde_json's, a parameter. *)
From S2P Require Import Prelude RustStr.

(** src/app.rs: the two top-level prefixes of truth and of rebuild markers. *)
Definition PACKAGES_PREFIX : str := &"packages/".
Definition DIRTY_PREFIX : str := &"_dirty/".

Module Sidecar.

Definition SIDECAR_SUFFIX : str := &".meta.json".
Definition METADATA_SUFFIX : str := &".metadata".
Definition PROVENANCE_SUFFIX : str := &".provenance".
Definition TOMBSTONE_SUFFIX : str := &".tombstone".
Definition FROZEN_SUFFIX : str := &".frozen".
Definition MIRROR_QUARANTINED_SUFFIX : str := &".mirror-quarantined".
Definition SUPERSEDING_SUFFIX : str := &".superseding".

(** PEP 592 yank state. *)
Inductive Yanked := Flag (b : bool) | Reason (r : str).

#[global] Instance Yanked_eq_dec : EqDecision Yanked.
Proof. solve_decision. Defined.

Definition yanked_default : Yanked := Flag false.

(** [Yanked::normalized]. *)
Definition yanked_normalized (y : Yanked) : Yanked :=
  match y with
  | Reason r =>
    let t := trim r in
    if bool_decide (t = []) then Flag true
    else if (length t =? length r)%nat then Reason r
    else Reason t
  | Flag b => Flag b
  end.

Record StoreChecksum := MkChecksum { algo : str; checksum_value : str }.

#[global] Instance StoreChecksum_eq_dec : EqDecision StoreChecksum.
Proof. solve_decision. Defined.

Definition store_checksum_md5 (value_hex : str) : StoreChecksum := MkChecksum (&"md5") value_hex.

(** [struct Sidecar]; [u64] fields are [Z]. *)
Record Sidecar := MkSidecar {
  sha256 : str;
  size : Z;
  version : str;
  upload_time : str;
  upload_epoch_ms : option Z;
  requires_python : option str;
  yanked : Yanked;
  sc_origin : option str;
  yank_epoch : Z;
  upload_time_revision : Z;
  snapshot : bool;
  store_checksum : option StoreChecksum
}.

#[global] Instance Sidecar_eq_dec : EqDecision Sidecar.
Proof. solve_decision. Defined.

Definition companion_key (artifact_key suffix : str) : str := artifact_key ++ suffix.
Definition sidecar_key (k : str) : str := companion_key k SIDECAR_SUFFIX.
Definition metadata_key (k : str) : str := companion_key k METADATA_SUFFIX.
Definition provenance_key (k : str) : str := companion_key k PROVENANCE_SUFFIX.
Definition tombstone_key (k : str) : str := companion_key k TOMBSTONE_SUFFIX.
Definition frozen_key (k : str) : str := companion_key k FROZEN_SUFFIX.
Definition mirror_quarantined_key (k : str) : str := companion_key k MIRROR_QUARANTINED_SUFFIX.
Definition superseding_key (k : str) : str := companion_key k SUPERSEDING_SUFFIX.

(** The suffixes [is_artifact] rules out, in its order. *)
Definition companion_suffixes : list str :=
  [SIDECAR_SUFFIX; METADATA_SUFFIX; PROVENANCE_SUFFIX; TOMBSTONE_SUFFIX; FROZEN_SUFFIX;
   MIRROR_QUARANTINED_SUFFIX; SUPERSEDING_SUFFIX].

Definition is_artifact (filename : str) : bool :=
  bool_decide (filename ≠ []) && negb (starts_with (&".") filename)
  && forallb (fun suffix => negb (ends_with suffix filename)) companion_suffixes.

(** No suffix is a suffix of another, so one key has one reading. *)
Lemma suffixes_independent s t :
  s ∈ companion_suffixes -> t ∈ companion_suffixes -> s `suffix_of` t -> s = t.
Proof.
  intros Hs Ht Hst.
  assert (forallb (fun s => forallb (fun t => negb (bool_decide (s `suffix_of` t))
            || bool_decide (s = t)) companion_suffixes) companion_suffixes = true) as H
    by (vm_compute; reflexivity).
  rewrite forallb_Forall, Forall_forall in H. apply H in Hs.
  apply Is_true_true in Hs. rewrite forallb_Forall, Forall_forall in Hs.
  apply Hs, Is_true_true in Ht. apply orb_true_iff in Ht as [Ht|Ht]; by bool_to_prop.
Qed.

Lemma is_artifact_no_suffix filename suffix k :
  is_artifact filename = true -> suffix ∈ companion_suffixes -> filename ≠ k ++ suffix.
Proof.
  unfold is_artifact. intros H Hs ->. bool_to_prop. rewrite forallb_Forall, Forall_forall in H0.
  apply H0 in Hs. by rewrite ends_with_app in Hs.
Qed.

End Sidecar.

(** ** The package claim (src/origin.rs) *)
Module OriginState.

Definition PRIVATE : str := &"private".
Definition MIRROR : str := &"mirror".
Definition UNCLAIMED : str := &"unclaimed".

Inductive OriginState := Unclaimed | Mirror | Private.

#[global] Instance OriginState_eq_dec : EqDecision OriginState.
Proof. solve_decision. Defined.

Definition as_str (s : OriginState) : str :=
  match s with Unclaimed => UNCLAIMED | Mirror => MIRROR | Private => PRIVATE end.

(** [OriginState::parse], [None] for the [bail!]. *)
Definition parse (value : str) : option OriginState :=
  if decide (value = UNCLAIMED) then Some Unclaimed
  else if decide (value = MIRROR) then Some Mirror
  else if decide (value = PRIVATE) then Some Private
  else None.

(** [OriginState::claim_target]: a claim is never for [unclaimed]. *)
Definition claim_target (value : str) : option OriginState :=
  match parse value with
  | Some Mirror => Some Mirror
  | Some Private => Some Private
  | _ => None
  end.

Lemma parse_as_str s : parse (as_str s) = Some s.
Proof. by destruct s. Qed.

Lemma parse_Some v s : parse v = Some s <-> v = as_str s.
Proof.
  split; [|intros ->; apply parse_as_str].
  unfold parse. repeat case_decide; intros [= <-]; done.
Qed.

End OriginState.

(** ** PEP 792 project status (src/status.rs, src/replicate/decide.rs) *)
Module StatusDoc.

(** A live record's origin ([replicate::decide::Origin]). *)
Inductive Origin := Private | Mirror.

#[global] Instance Origin_eq_dec : EqDecision Origin.
Proof. solve_decision. Defined.

Inductive ProjectStatus := Active | Archived | Quarantined | Deprecated.

#[global] Instance ProjectStatus_eq_dec : EqDecision ProjectStatus.
Proof. solve_decision. Defined.

Definition status_str (s : ProjectStatus) : str :=
  match s with
  | Active => &"active"
  | Archived => &"archived"
  | Quarantined => &"quarantined"
  | Deprecated => &"deprecated"
  end.

Definition is_active (s : ProjectStatus) : bool := bool_decide (s = Active).
Definition blocks_downloads (s : ProjectStatus) : bool := bool_decide (s = Quarantined).

(** How much the status withholds. *)
Definition restriction (s : ProjectStatus) : Z :=
  match s with Active => 0 | Deprecated => 1 | Archived => 2 | Quarantined => 3 end.

Record ProjectStatusDoc := MkDoc { status : ProjectStatus; reason : option str }.

#[global] Instance ProjectStatusDoc_eq_dec : EqDecision ProjectStatusDoc.
Proof. solve_decision. Defined.

Definition status_doc_default : ProjectStatusDoc := MkDoc Active None.

(** The stored envelope ([StoredProjectStatus]). *)
Record StoredProjectStatus := MkStored {
  stored_doc : ProjectStatusDoc;
  stored_epoch : Z;
  stored_origin : option Origin
}.

#[global] Instance StoredProjectStatus_eq_dec : EqDecision StoredProjectStatus.
Proof. solve_decision. Defined.

(** A status observation with its conditional-write token. *)
Record VersionedProjectStatus := MkVersioned {
  doc : ProjectStatusDoc;
  epoch : Z;
  origin : option Origin;
  status_etag : str
}.

End StatusDoc.

(** ** serde_json, sha2: parameters *)

(** The encoder of one stored type; [decode] is [serde_json::from_slice(..).ok()].
    serde's derived implementations round-trip. *)
Class Codec (A : Type) := {
  encode : A -> str;
  decode : str -> option A;
  decode_encode : forall a, decode (encode a) = Some a
}.

Lemma encode_inj `{Codec A} (x y : A) : encode x = encode y -> x = y.
Proof. intros E. apply (f_equal decode) in E. rewrite !decode_encode in E. by simplify_eq. Qed.

(** [Sha256::digest]. *)
Class Digest := { sha256_digest : str -> str }.

(** A concrete codec for any countable type, for evaluating the definitions:
    the number of the value, in decimal-free unary bits of [positive]. *)
Fixpoint pos_bytes (p : positive) : str :=
  match p with
  | xH => []
  | xO p => "0"%char :: pos_bytes p
  | xI p => "1"%char :: pos_bytes p
  end.
Fixpoint bytes_pos (s : str) : positive :=
  match s with
  | [] => xH
  | c :: s => if decide (c = "1"%char) then xI (bytes_pos s) else xO (bytes_pos s)
  end.

Lemma bytes_pos_bytes p : bytes_pos (pos_bytes p) = p.
Proof. induction p as [p IH|p IH|]; simpl; by rewrite ?IH. Qed.

Definition countable_codec `{Countable A} : Codec A.
Proof.
  refine {| encode a := pos_bytes (countable.encode a);
            decode s := countable.decode (bytes_pos s) |}.
  intros a. rewrite bytes_pos_bytes. apply countable.decode_encode.
Defined.

(** Codecs and a digest to evaluate with. *)
#[global] Instance Yanked_countable : Countable Sidecar.Yanked.
Proof.
  apply (inj_countable' (fun y => match y with Sidecar.Flag b => inl b | Sidecar.Reason r => inr r end)
           (fun x => match x with inl b => Sidecar.Flag b | inr r => Sidecar.Reason r end)).
  by intros [].
Defined.

#[global] Instance StoreChecksum_countable : Countable Sidecar.StoreChecksum.
Proof.
  apply (inj_countable' (fun c => (Sidecar.algo c, Sidecar.checksum_value c))
           (fun '(a, v) => Sidecar.MkChecksum a v)).
  by intros [].
Defined.

#[global] Instance Sidecar_countable : Countable Sidecar.Sidecar.
Proof.
  apply (inj_countable'
    (fun '(Sidecar.MkSidecar a b c d e f g h i j k l) => (a, b, c, d, e, f, g, h, i, j, k, l))
    (fun '(a, b, c, d, e, f, g, h, i, j, k, l) => Sidecar.MkSidecar a b c d e f g h i j k l)).
  by intros [].
Defined.

#[global] Instance ProjectStatus_countable : Countable StatusDoc.ProjectStatus.
Proof.
  apply (inj_countable' StatusDoc.restriction
    (fun n => if n =? 0 then StatusDoc.Active else if n =? 1 then StatusDoc.Deprecated
              else if n =? 2 then StatusDoc.Archived else StatusDoc.Quarantined)).
  by intros [].
Defined.

#[global] Instance StoredProjectStatus_countable : Countable StatusDoc.StoredProjectStatus.
Proof.
  apply (inj_countable'
    (fun '(StatusDoc.MkStored (StatusDoc.MkDoc s r) e o) =>
       (s, r, e, match o with Some StatusDoc.Private => Some true
                 | Some StatusDoc.Mirror => Some false | None => None end))
    (fun '(s, r, e, o) => StatusDoc.MkStored (StatusDoc.MkDoc s r) e
       (match o with Some true => Some StatusDoc.Private
        | Some false => Some StatusDoc.Mirror | None => None end))).
  by intros [[] ? [[]|]].
Defined.

Definition toy_digest : Digest := {| sha256_digest s := s |}.
Definition toy_sidecar_codec : Codec Sidecar.Sidecar := countable_codec.
Definition toy_status_codec : Codec StatusDoc.StoredProjectStatus := countable_codec.
