(* ===== verification/Render.v ===== *)
(** * The simple index pages (src/render.rs)

    What an installer reads: the file list of a project as HTML links and as
    JSON, and the list of projects. The escapers come from the [html_escape]
    crate and the JSON of a project from serde; both are parameters with the
    behaviour the crates document. *)
From S2P Require Import Prelude RustStr Pep440 Names Documents.
Import Names Sidecar StatusDoc.

Module Render.

Definition API_VERSION : str := &"1.4".

(** The double quote, which no literal here can hold. *)
Definition dq : ascii := Ascii.Ascii false true false false false true false false.
(** [r#"name="value""#]: an attribute of a tag, with the blank before it. *)
Definition attribute (name value : str) : str := &" " ++ name ++ &"=" ++ [dq] ++ value ++ [dq].

(** [struct FileMetadata]. *)
Record FileMetadata := MkFile {
  fm_filename : str;
  fm_sha256 : str;
  fm_size : Z;
  fm_upload_time : option str;
  fm_version : option str;
  fm_yanked : Yanked;
  fm_requires_python : option str;
  fm_core_metadata : bool;
  fm_core_metadata_sha256 : option str;
  fm_provenance : bool
}.

#[global] Instance FileMetadata_eq_dec : EqDecision FileMetadata.
Proof. solve_decision. Defined.

Definition from_sidecar (filename : str) (sc : Sidecar) (core_metadata_sha256 : option str)
    (provenance : bool) : FileMetadata :=
  MkFile filename (sha256 sc) (size sc)
    (if decide (trim (upload_time sc) = []) then None else Some (upload_time sc))
    (if decide (version sc = []) then None else Some (version sc))
    (yanked sc) (requires_python sc)
    (bool_decide (is_Some core_metadata_sha256)) core_metadata_sha256 provenance.

(** The escapers of the [html_escape] crate: text is free of tags, a
    double-quoted attribute value of its quote, and both decode back. *)
Class HtmlEscape := {
  encode_text : str -> str;
  encode_double_quoted_attribute : str -> str;
  decode_html_entities : str -> str;
  encode_text_no_tag : forall s, "<"%char ∉ encode_text s;
  encode_attribute_no_quote : forall s, dq ∉ encode_double_quoted_attribute s;
  decode_text : forall s, decode_html_entities (encode_text s) = s;
  decode_attribute : forall s, decode_html_entities (encode_double_quoted_attribute s) = s
}.

Section html.
Context {H : HtmlEscape}.

Definition html_head_open : str :=
  &"<html><head><meta" ++ attribute (&"name") (&"pypi:repository-version")
  ++ attribute (&"content") API_VERSION ++ &">".

(** [<meta name=.. content=..>] *)
Definition meta_tag (name content : str) : str :=
  &"<meta" ++ attribute (&"name") name ++ attribute (&"content") content ++ &">".

Definition status_metas (status : ProjectStatusDoc) : str :=
  if is_active (StatusDoc.status status) then [] else
  meta_tag (&"pypi:project-status") (status_str (StatusDoc.status status))
  ++ match reason status with
     | Some r => meta_tag (&"pypi:project-status-reason") (encode_double_quoted_attribute r)
     | None => []
     end.

(** The attributes of a file's link after its [href]. *)
Definition file_attributes (pkg_attr : str) (f : FileMetadata) : str :=
  match fm_requires_python f with
  | Some rp => attribute (&"data-requires-python") (encode_double_quoted_attribute rp)
  | None => []
  end
  ++ (if fm_core_metadata f then
        let value := match fm_core_metadata_sha256 f with
                     | Some sha => encode_double_quoted_attribute (&"sha256=" ++ sha)
                     | None => &"true"
                     end in
        attribute (&"data-core-metadata") value ++ attribute (&"data-dist-info-metadata") value
      else [])
  ++ (if fm_provenance f then
        attribute (&"data-provenance")
          (&"/files/" ++ pkg_attr ++ &"/" ++ encode_double_quoted_attribute (fm_filename f) ++ &".provenance")
      else [])
  ++ match fm_yanked f with
     | Flag false => []
     | Flag true => attribute (&"data-yanked") []
     | Reason r => attribute (&"data-yanked") (encode_double_quoted_attribute r)
     end.

Definition file_link (pkg_attr : str) (f : FileMetadata) : str :=
  &"<a" ++ attribute (&"href")
    (&"/files/" ++ pkg_attr ++ &"/" ++ encode_double_quoted_attribute (fm_filename f)
     ++ &"#sha256=" ++ encode_double_quoted_attribute (fm_sha256 f))
  ++ file_attributes pkg_attr f ++ &">" ++ encode_text (fm_filename f) ++ &"</a><br/>".

Definition pep503_project_html (package : str) (files : list FileMetadata) (status : ProjectStatusDoc) : str :=
  html_head_open ++ status_metas status
  ++ &"<title>Links for " ++ encode_text package ++ &"</title></head><body>"
  ++ concat (file_link (encode_double_quoted_attribute package) <$> files)
  ++ &"</body></html>".

Definition project_link (p : str) : str :=
  &"<a" ++ attribute (&"href") (&"/simple/" ++ encode_double_quoted_attribute p ++ &"/") ++ &">"
  ++ encode_text p ++ &"</a><br/>".

Definition pep503_global_html (packages : list str) : str :=
  html_head_open ++ &"<title>Simple index</title></head><body>"
  ++ concat (project_link <$> packages) ++ &"</body></html>".

End html.

(** ** JSON *)

(** [serde_json::Value] of [core-metadata]: the bare [true] or its digest. *)
Inductive CoreMetadataValue := MetadataTrue | MetadataSha (sha : str).

Record Pep691File := MkPepFile {
  pf_filename : str;
  pf_url : str;
  (** [hashes], a map with the one key [sha256] *)
  pf_hashes : gmap str str;
  pf_size : Z;
  pf_upload_time : option str;
  pf_yanked : Yanked;
  pf_requires_python : option str;
  pf_core_metadata : option CoreMetadataValue;
  pf_provenance : option str
}.

Record Pep691PkgIndex := MkPkgIndex {
  pi_api_version : str;
  pi_name : str;
  pi_project_status : option ProjectStatusDoc;
  pi_versions : list str;
  pi_files : list Pep691File
}.

Definition pep691_file (package : str) (f : FileMetadata) : Pep691File :=
  MkPepFile (fm_filename f) (&"/files/" ++ package ++ &"/" ++ fm_filename f)
    {[ &"sha256" := fm_sha256 f ]} (fm_size f) (fm_upload_time f) (fm_yanked f) (fm_requires_python f)
    (if fm_core_metadata f
     then Some (match fm_core_metadata_sha256 f with Some sha => MetadataSha sha | None => MetadataTrue end)
     else None)
    (if fm_provenance f
     then Some (&"/files/" ++ package ++ &"/" ++ fm_filename f ++ &".provenance") else None).

(** The elements of a [BTreeSet<String>], in its order. *)
Definition sorted_set (l : list str) : list str := merge_sort str_le (remove_dups l).

(** The version of a file: the one it was uploaded with, else its filename's. *)
Definition file_version {P : Pep440} (f : FileMetadata) : option str :=
  match fm_version f with Some v => Some v | None => infer_version_from_filename (fm_filename f) end.

Definition pep691_project_doc {P : Pep440} (package : str) (files : list FileMetadata) (status : ProjectStatusDoc)
    : Pep691PkgIndex :=
  MkPkgIndex API_VERSION package
    (if is_active (StatusDoc.status status) then None else Some status)
    (sorted_set (omap file_version files))
    (pep691_file package <$> files).

(** [serde_json::to_string] of a struct of strings, numbers and maps with string
    keys does not fail, so the fallback page is not reached. *)
Definition pep691_project_json {P : Pep440} {J : Codec Pep691PkgIndex} (package : str) (files : list FileMetadata)
    (status : ProjectStatusDoc) : str :=
  encode (pep691_project_doc package files status).

(** serde's escaping of the inside of a JSON string, byte by byte. *)
Class JsonString := {
  json_escape : str -> str;
  json_escape_app : forall s t, json_escape (s ++ t) = json_escape s ++ json_escape t;
  json_escape_plain : forall s, forallb (fun c => is_ascii_alphanumeric c || bool_decide (c = "/"%char)) s = true ->
    json_escape s = s
}.

Section global.
Context {J : JsonString}.

(** [serde_json::to_writer(&mut quoted, p)] *)
Definition json_quote (s : str) : str := [dq] ++ json_escape s ++ [dq].

(** [quoted[1..quoted.len() - 1]] *)
Definition inside (quoted : str) : str := take (length quoted - 2) (drop 1 quoted).

Definition global_entry (i : nat) (p : str) : str :=
  (if (0 <? i)%nat then &"," else [])
  ++ &"{" ++ [dq] ++ &"name" ++ [dq] ++ &":" ++ json_quote p
  ++ &"," ++ [dq] ++ &"url" ++ [dq] ++ &":" ++ [dq] ++ &"/simple/" ++ inside (json_quote p)
  ++ &"/" ++ [dq] ++ &"}".

Definition json_meta : str :=
  &"{" ++ [dq] ++ &"meta" ++ [dq] ++ &":{" ++ [dq] ++ &"api-version" ++ [dq] ++ &":"
  ++ [dq] ++ API_VERSION ++ [dq] ++ &"}".

Definition pep691_global_json (packages : list str) : str :=
  json_meta ++ &"," ++ [dq] ++ &"projects" ++ [dq] ++ &":["
  ++ concat (imap global_entry packages) ++ &"]}".

End global.

(** ** Reading a page *)

(** A reader of the tags of an HTML page: for each tag its name, its quoted
    attributes and the text up to the next tag, undecoded. *)
Record tag := MkTag { tag_name : str; tag_attrs : list (str * str); tag_text : str }.

Inductive reader :=
  | InText (open : option (str * list (str * str))) (acc : str)
  | InName (acc : str)
  | InAttr (name : str) (attrs : list (str * str)) (acc : str)
  | AfterEq (name : str) (attrs : list (str * str)) (attr : str)
  | InValue (name : str) (attrs : list (str * str)) (attr acc : str)
  | AfterValue (name : str) (attrs : list (str * str)).

Definition close (open : option (str * list (str * str))) (text : str) : list tag :=
  match open with Some (name, attrs) => [MkTag name attrs text] | None => [] end.

(** The state after one more byte, and the tag it closes. *)
Definition read_byte (st : reader) (c : ascii) : list tag * reader :=
  match st with
  | InText open acc => if decide (c = "<"%char) then (close open acc, InName []) else ([], InText open (acc ++ [c]))
  | InName acc =>
    if decide (c = " "%char) then ([], InAttr acc [] [])
    else if decide (c = ">"%char) then ([], InText (Some (acc, [])) [])
    else ([], InName (acc ++ [c]))
  | InAttr name attrs acc =>
    if decide (c = "="%char) then ([], AfterEq name attrs acc)
    else if decide (c = ">"%char) then ([], InText (Some (name, attrs)) [])
    else ([], InAttr name attrs (acc ++ [c]))
  | AfterEq name attrs attr => ([], if decide (c = dq) then InValue name attrs attr [] else InAttr name attrs [])
  | InValue name attrs attr acc =>
    ([], if decide (c = dq) then AfterValue name (attrs ++ [(attr, acc)]) else InValue name attrs attr (acc ++ [c]))
  | AfterValue name attrs =>
    ([], if decide (c = " "%char) then InAttr name attrs []
         else if decide (c = ">"%char) then InText (Some (name, attrs)) []
         else AfterValue name attrs)
  end.

Fixpoint read_page (st : reader) (page : str) : list tag :=
  match page with
  | [] => match st with InText open acc => close open acc | _ => [] end
  | c :: page => let '(closed, st) := read_byte st c in closed ++ read_page st page
  end.

(** The links of a page: its [a] tags. *)
Definition read_links (page : str) : list tag :=
  filter (fun t => tag_name t = &"a") (read_page (InText None []) page).

Lemma read_text open acc text rest :
  "<"%char ∉ text -> read_page (InText open acc) (text ++ rest) = read_page (InText open (acc ++ text)) rest.
Proof.
  revert acc. induction text as [|c text IH]; intros acc Hc; [by rewrite app_nil_r|].
  rewrite not_elem_of_cons in Hc. destruct Hc as [Hc Ht]. cbn [app read_page read_byte].
  rewrite decide_False by done. cbn [app]. rewrite IH by done. by rewrite <- app_assoc.
Qed.

Lemma read_value name attrs attr acc value rest :
  dq ∉ value ->
  read_page (InValue name attrs attr acc) (value ++ dq :: rest) =
  read_page (AfterValue name (attrs ++ [(attr, acc ++ value)])) rest.
Proof.
  revert acc. induction value as [|c value IH]; intros acc Hc; cbn [app read_page read_byte].
  { rewrite decide_True by done. by rewrite app_nil_r. }
  rewrite not_elem_of_cons in Hc. destruct Hc as [Hc Ht]. rewrite decide_False by done. cbn [app].
  rewrite IH by done. by rewrite <- app_assoc.
Qed.

Lemma read_attr_name name attrs acc attr rest :
  "="%char ∉ attr -> ">"%char ∉ attr ->
  read_page (InAttr name attrs acc) (attr ++ "="%char :: rest) = read_page (AfterEq name attrs (acc ++ attr)) rest.
Proof.
  revert acc. induction attr as [|c attr IH]; intros acc He Hg; cbn [app read_page read_byte].
  { rewrite decide_True by done. by rewrite app_nil_r. }
  rewrite not_elem_of_cons in He, Hg. destruct He as [He He'], Hg as [Hg Hg']. rewrite !decide_False by done. cbn [app].
  rewrite IH by done. by rewrite <- app_assoc.
Qed.

(** An attribute that is read back as it was written. *)
Definition plain_attribute (a : str * str) : Prop := ("="%char ∉ a.1) /\ (">"%char ∉ a.1) /\ (dq ∉ a.2).

Lemma read_attributes name attrs l rest :
  Forall plain_attribute l ->
  read_page (AfterValue name attrs) (concat (uncurry attribute <$> l) ++ rest) =
  read_page (AfterValue name (attrs ++ l)) rest.
Proof.
  intros Hl. revert attrs. induction Hl as [|[a v] l (He & Hg & Hq) _ IH]; intros attrs; cbn [fmap list_fmap concat].
  { by rewrite app_nil_r. }
  unfold attribute at 1. cbn [uncurry fst snd] in *. rewrite <- !app_assoc. cbn [String.list_ascii_of_string app].
  cbn [read_page read_byte]. rewrite decide_True by done. cbn [app].
  rewrite read_attr_name by done. cbn [app read_page read_byte]. rewrite decide_True by done. cbn [app].
  rewrite read_value by done. rewrite IH. by rewrite <- app_assoc.
Qed.

(** A whole tag, up to the text that follows it. *)
Lemma read_tag open acc name l rest :
  forallb (fun c => negb (bool_decide (c ∈ [" "; ">"]%char))) name = true -> Forall plain_attribute l ->
  read_page (InText open acc) (&"<" ++ name ++ concat (uncurry attribute <$> l) ++ &">" ++ rest) =
  close open acc ++ read_page (InText (Some (name, l)) []) rest.
Proof.
  intros Hn Hl. cbn [String.list_ascii_of_string app read_page read_byte]. rewrite decide_True by done. f_equal.
  assert (forall acc X, read_page (InName acc) (name ++ X) = read_page (InName (acc ++ name)) X) as Hname.
  { rewrite forallb_Forall in Hn. induction Hn as [|c name Hc _ IH]; intros acc' X; [by rewrite app_nil_r|].
    cbn [app read_page read_byte]. rewrite !decide_False by (by intros ->). cbn [app]. rewrite IH. by rewrite <- app_assoc. }
  rewrite Hname. cbn [app].
  destruct l as [|a l]; [by cbn [fmap list_fmap concat app read_page read_byte]|].
  transitivity (read_page (AfterValue name []) (concat (uncurry attribute <$> (a :: l)) ++ ">"%char :: rest)).
  - cbn [fmap list_fmap concat]. unfold uncurry, attribute at 1 3. destruct a. rewrite <- !app_assoc.
    cbn [String.list_ascii_of_string app read_page read_byte]. by rewrite decide_True.
  - rewrite read_attributes by done. cbn [app read_page read_byte]. by rewrite decide_False, decide_True.
Qed.

Section links.
Context {H : HtmlEscape}.

(** The attributes of a file's link, as pairs. *)
Definition link_attributes (package : str) (f : FileMetadata) : list (str * str) :=
  let pkg_attr := encode_double_quoted_attribute package in
  let fname_attr := encode_double_quoted_attribute (fm_filename f) in
  [(&"href", &"/files/" ++ pkg_attr ++ &"/" ++ fname_attr ++ &"#sha256="
             ++ encode_double_quoted_attribute (fm_sha256 f))]
  ++ match fm_requires_python f with
     | Some rp => [(&"data-requires-python", encode_double_quoted_attribute rp)]
     | None => []
     end
  ++ (if fm_core_metadata f then
        let value := match fm_core_metadata_sha256 f with
                     | Some sha => encode_double_quoted_attribute (&"sha256=" ++ sha)
                     | None => &"true"
                     end in
        [(&"data-core-metadata", value); (&"data-dist-info-metadata", value)]
      else [])
  ++ (if fm_provenance f
      then [(&"data-provenance", &"/files/" ++ pkg_attr ++ &"/" ++ fname_attr ++ &".provenance")] else [])
  ++ match fm_yanked f with
     | Flag false => []
     | Flag true => [(&"data-yanked", [])]
     | Reason r => [(&"data-yanked", encode_double_quoted_attribute r)]
     end.

Definition link_of (package : str) (f : FileMetadata) : tag :=
  MkTag (&"a") (link_attributes package f) (encode_text (fm_filename f)).

Lemma file_link_shape package f :
  file_link (encode_double_quoted_attribute package) f =
  &"<a" ++ concat (uncurry attribute <$> link_attributes package f) ++ &">"
  ++ encode_text (fm_filename f) ++ &"</a><br/>".
Proof.
  unfold file_link, link_attributes, file_attributes.
  destruct (fm_requires_python f), (fm_core_metadata f), (fm_provenance f), (fm_yanked f) as [[]|];
    cbn [app fmap list_fmap concat uncurry]; by rewrite ?app_nil_r, <- ?app_assoc.
Qed.

Lemma no_quote_app (s t : str) : dq ∉ s -> dq ∉ t -> dq ∉ s ++ t.
Proof. set_solver. Qed.

Lemma link_attributes_plain package f : Forall plain_attribute (link_attributes package f).
Proof.
  pose proof encode_attribute_no_quote as Hq.
  assert (forall name v, forallb (fun c => negb (bool_decide (c ∈ ["="; ">"]%char))) name = true ->
    dq ∉ v -> plain_attribute (name, v)) as Hplain.
  { intros name v Hn Hv. rewrite forallb_Forall, Forall_forall in Hn.
    split_and!; [by intros Hc%Hn|by intros Hc%Hn|done]. }
  unfold link_attributes.
  destruct (fm_requires_python f), (fm_core_metadata f), (fm_core_metadata_sha256 f), (fm_provenance f), (fm_yanked f) as [[]|];
    cbn [app]; repeat (apply Forall_cons; split; [|]); try apply Forall_nil_2;
    (apply Hplain; [reflexivity|]); repeat first [apply no_quote_app | apply Hq | by apply (bool_decide_unpack _)].
Qed.

Definition not_link (open : option (str * list (str * str))) : Prop :=
  match open with Some (name, _) => name ≠ &"a" | None => True end.

Lemma filter_closed open acc (ts : list tag) :
  not_link open -> filter (fun t => tag_name t = &"a") (close open acc ++ ts) = filter (fun t => tag_name t = &"a") ts.
Proof.
  destruct open as [[name attrs]|]; [|done]. cbn [not_link close app]. intros Hn. by rewrite filter_cons_False.
Qed.

(** The links read from a state on. *)
Definition links_from (st : reader) (page : str) : list tag :=
  filter (fun t => tag_name t = &"a") (read_page st page).

(** A piece of a page with no link in it. *)
Definition passes (piece : str) : Prop :=
  forall open acc rest, not_link open -> exists open' acc', not_link open' /\
    links_from (InText open acc) (piece ++ rest) = links_from (InText open' acc') rest.

Lemma passes_app p q : passes p -> passes q -> passes (p ++ q).
Proof.
  intros Hp Hq open acc rest Ho. rewrite <- app_assoc.
  destruct (Hp open acc (q ++ rest) Ho) as (open1 & acc1 & Ho1 & ->). by apply Hq.
Qed.

Lemma passes_nil : passes [].
Proof. intros open acc rest Ho. by exists open, acc. Qed.

Lemma passes_text text : "<"%char ∉ text -> passes text.
Proof. intros Ht open acc rest Ho. exists open, (acc ++ text). unfold links_from. by rewrite read_text. Qed.

Lemma passes_tag name l :
  forallb (fun c => negb (bool_decide (c ∈ [" "; ">"]%char))) name = true -> name ≠ &"a" -> Forall plain_attribute l ->
  passes (&"<" ++ name ++ concat (uncurry attribute <$> l) ++ &">").
Proof.
  intros Hn Ha Hl open acc rest Ho. exists (Some (name, l)), []. split; [done|]. unfold links_from.
  rewrite <- !app_assoc, read_tag by done. by apply filter_closed.
Qed.

Lemma passes_meta name content : dq ∉ name -> dq ∉ content -> passes (meta_tag name content).
Proof.
  intros Hn Hc. replace (meta_tag name content)
    with (&"<" ++ &"meta" ++ concat (uncurry attribute <$> [(&"name", name); (&"content", content)]) ++ &">")
    by (unfold meta_tag; cbn [fmap list_fmap concat uncurry]; by rewrite app_nil_r, <- !app_assoc).
  apply passes_tag; [reflexivity|discriminate|].
  repeat apply Forall_cons_2; [..|done]; (split_and!; [by apply (bool_decide_unpack _)|by apply (bool_decide_unpack _)|done]).
Qed.

(** Literal tags without attributes. *)
Definition bare_tag (name : str) : str := &"<" ++ name ++ &">".

Lemma passes_bare name :
  forallb (fun c => negb (bool_decide (c ∈ [" "; ">"]%char))) name = true -> name ≠ &"a" -> passes (bare_tag name).
Proof. intros Hn Ha. apply (passes_tag name []); [done|done|constructor]. Qed.

Lemma passes_status status : passes (status_metas status).
Proof.
  unfold status_metas. case_match; [apply passes_nil|].
  apply passes_app; [apply passes_meta; [by apply (bool_decide_unpack _)|by destruct (StatusDoc.status status); apply (bool_decide_unpack _)]|].
  destruct (reason status) as [r|]; [|apply passes_nil].
  apply passes_meta; [by apply (bool_decide_unpack _)|apply encode_attribute_no_quote].
Qed.

Lemma passes_head : passes html_head_open.
Proof.
  apply (passes_app (bare_tag (&"html") ++ bare_tag (&"head"))
           (meta_tag (&"pypi:repository-version") API_VERSION)).
  - apply passes_app; apply passes_bare; (reflexivity || discriminate).
  - apply passes_meta; by apply (bool_decide_unpack _).
Qed.

(** A link, read from any state between tags. *)
Lemma read_link open acc name_attrs text rest :
  not_link open -> Forall plain_attribute name_attrs -> "<"%char ∉ text ->
  links_from (InText open acc)
    ((&"<a" ++ concat (uncurry attribute <$> name_attrs) ++ &">" ++ text ++ &"</a><br/>") ++ rest) =
  MkTag (&"a") name_attrs text :: links_from (InText (Some (&"br/", [])) []) rest.
Proof.
  intros Ho Hl Ht. unfold links_from. rewrite <- !app_assoc.
  change (&"<a" ++ ?x) with (&"<" ++ &"a" ++ x). rewrite read_tag by done. rewrite filter_closed by done.
  rewrite read_text by done. cbn [app].
  change (&"</a><br/>" ++ rest) with
    (&"<" ++ &"/a" ++ concat (uncurry attribute <$> []) ++ &">" ++ bare_tag (&"br/") ++ rest).
  rewrite read_tag by (done || constructor). cbn [close app]. by rewrite filter_cons_True.
Qed.

Lemma read_file_links package files open acc rest :
  not_link open -> passes rest ->
  links_from (InText open acc) (concat (file_link (encode_double_quoted_attribute package) <$> files) ++ rest) =
  link_of package <$> files.
Proof.
  intros Ho Hr. revert open acc Ho. induction files as [|f files IH]; intros open acc Ho; cbn [fmap list_fmap concat].
  { destruct (Hr open acc [] Ho) as (open' & acc' & Ho' & Heq). rewrite app_nil_r in Heq. cbn [app]. rewrite Heq.
    unfold links_from. cbn [read_page]. rewrite <- (app_nil_r (close _ _)). by rewrite filter_closed. }
  rewrite <- app_assoc, file_link_shape, read_link;
    [by rewrite IH|done|apply link_attributes_plain|apply encode_text_no_tag].
Qed.

(** C40: the HTML page of a project reads back to exactly one link per file, in
    order, with the attributes written for that file and its name as decoded
    text, whatever bytes the name, the digests, the yank reason and the status
    reason hold: nothing an uploader controls opens a tag or leaves its
    attribute. *)
Theorem project_page_links package files status :
  read_links (pep503_project_html package files status) = link_of package <$> files /\
  decode_html_entities <$> (tag_text <$> read_links (pep503_project_html package files status)) = fm_filename <$> files.
Proof.
  assert (read_links (pep503_project_html package files status) = link_of package <$> files) as Hl.
  - assert (passes (html_head_open ++ status_metas status ++ &"<title>Links for " ++ encode_text package
              ++ &"</title></head><body>")) as Hhead.
    { apply passes_app; [apply passes_head|]. apply passes_app; [apply passes_status|].
      apply (passes_app (bare_tag (&"title") ++ &"Links for ")).
      { apply passes_app; [apply passes_bare; (reflexivity || discriminate)|apply passes_text; by apply (bool_decide_unpack _)]. }
      apply passes_app; [apply passes_text, encode_text_no_tag|].
      apply (passes_app (bare_tag (&"/title")) (bare_tag (&"/head") ++ bare_tag (&"body")));
        [|apply passes_app]; apply passes_bare; (reflexivity || discriminate). }
    destruct (Hhead None [] (concat (file_link (encode_double_quoted_attribute package) <$> files) ++ &"</body></html>") I)
      as (open & acc & Ho & Heq).
    unfold pep503_project_html. rewrite <- !app_assoc in Heq. unfold read_links. unfold links_from in Heq. rewrite Heq.
    apply read_file_links; [done|].
    apply (passes_app (bare_tag (&"/body")) (bare_tag (&"/html"))); apply passes_bare; (reflexivity || discriminate).
  - rewrite Hl. split; [done|]. rewrite <- !list_fmap_compose.
    apply list_fmap_ext. intros i f _. apply decode_text.
Qed.

End links.

(** ** The list of projects as JSON *)

Section serde.
Context {J : JsonString}.

(** What serde prints for [{name, url}], and for the list of them. *)
Definition serde_project (p : str) : str :=
  &"{" ++ [dq] ++ &"name" ++ [dq] ++ &":" ++ json_quote p
  ++ &"," ++ [dq] ++ &"url" ++ [dq] ++ &":" ++ json_quote (&"/simple/" ++ p ++ &"/") ++ &"}".

Definition serde_global (packages : list str) : str :=
  json_meta ++ &"," ++ [dq] ++ &"projects" ++ [dq] ++ &":["
  ++ join ","%char (serde_project <$> packages) ++ &"]}".

Lemma inside_quote s : inside (json_quote s) = json_escape s.
Proof.
  unfold inside, json_quote. cbn [app drop length]. apply take_app_length'. rewrite length_app. cbn [length]. lia.
Qed.

Lemma join_cons c p ps : join c (p :: ps) = p ++ concat (cons c <$> ps).
Proof.
  revert p. induction ps as [|q ps IH]; intros p; [symmetry; apply app_nil_r|].
  change (join c (p :: q :: ps)) with (p ++ c :: join c (q :: ps)). by rewrite IH.
Qed.

Lemma global_entry_serde i p :
  global_entry i p = (if (0 <? i)%nat then &"," else []) ++ serde_project p.
Proof.
  unfold global_entry, serde_project. rewrite inside_quote.
  change (json_quote (&"/simple/" ++ p ++ &"/")) with ([dq] ++ json_escape (&"/simple/" ++ p ++ &"/") ++ [dq]).
  rewrite !json_escape_app.
  rewrite (json_escape_plain (&"/simple/")), (json_escape_plain (&"/")) by reflexivity. by rewrite <- !app_assoc.
Qed.

Lemma later_entries k packages :
  concat (imap (fun i => global_entry (S (k + i))) packages) = concat (cons ","%char <$> (serde_project <$> packages)).
Proof.
  revert k. induction packages as [|p packages IH]; intros k; [done|]. rewrite imap_cons. cbn [concat fmap list_fmap].
  rewrite global_entry_serde. cbn [Nat.ltb Nat.leb]. f_equal. apply (IH (S k)).
Qed.

(** The hand-written buffer holds what serde would print. *)
Lemma global_json_is_serde packages : pep691_global_json packages = serde_global packages.
Proof.
  unfold pep691_global_json, serde_global. do 6 f_equal. destruct packages as [|p packages]; [done|].
  rewrite imap_cons. cbn [concat fmap list_fmap]. rewrite join_cons, global_entry_serde. cbn [Nat.ltb Nat.leb app].
  do 2 f_equal. apply (later_entries 0).
Qed.

End serde.

End Render.
