(* ===== verification/Hash.v ===== *)
(** * Content hashing (src/hash.rs)

    SHA-256 itself is the [Digest] parameter; the hexadecimal forms and the
    HMAC construction over it are the program's own. *)
From S2P Require Import Prelude RustStr Documents.

Module Hash.

(** One lowercase hex digit, and a byte's two. *)
Definition hex_digit (n : N) : ascii :=
  ascii_of_N (if (n <? 10)%N then 48 + n else 87 + n)%N.
Definition hex_byte (c : ascii) : str :=
  [hex_digit (N_of_ascii c / 16); hex_digit (N_of_ascii c mod 16)].

Definition hex (bytes : str) : str := bytes ≫= hex_byte.

Definition byte_xor (c d : ascii) : ascii := ascii_of_N (N.lxor (N_of_ascii c) (N_of_ascii d)).

Section digest.
Context {D : Digest}.

Definition sha256_hex (bytes : str) : str := hex (sha256_digest bytes).

(** [hmac_sha256] (RFC 2104): the key padded to a 64-byte block, hashed first
    when it is longer. *)
Definition hmac_block (key : str) : str :=
  let k := if (64 <? length key)%nat then sha256_digest key else key in
  k ++ replicate (64 - length k) "000"%char.
Definition hmac_sha256 (key msg : str) : str :=
  let block := hmac_block key in
  let ipad := (fun c => byte_xor c "054"%char) <$> block in
  let opad := (fun c => byte_xor c "092"%char) <$> block in
  sha256_digest (opad ++ sha256_digest (ipad ++ msg)).

End digest.

(** [hex] writes two hex digits per byte and loses nothing. *)
Lemma hex_length s : length (hex s) = (2 * length s)%nat.
Proof.
  induction s as [|c s IH]; [done|]. change (hex (c :: s)) with (hex_byte c ++ hex s).
  rewrite length_app, IH. simpl. lia.
Qed.

Lemma hex_digits s : Forall is_ascii_hexdigit (hex s).
Proof.
  induction s as [|c s IH]; [constructor|]. change (hex (c :: s)) with (hex_byte c ++ hex s).
  apply Forall_app. split; [|done]. repeat constructor; by_bytes c.
Qed.

(** Reading a byte back from its two digits. *)
Definition unhex_digit (c : ascii) : N :=
  let n := N_of_ascii c in (if n <? 58 then n - 48 else n - 87)%N.
Definition unhex_byte (s : str) : ascii :=
  match s with
  | [a; b] => ascii_of_N (16 * unhex_digit a + unhex_digit b)
  | _ => "000"%char
  end.

Lemma unhex_hex_byte c : unhex_byte (hex_byte c) = c.
Proof. by_bytes c. Qed.

(** Reading a text back from its digits. *)
Fixpoint unhex (s : str) : option str :=
  match s with
  | [] => Some []
  | a :: b :: r => (fun t => unhex_byte [a; b] :: t) <$> unhex r
  | _ => None
  end.

Lemma unhex_hex s : unhex (hex s) = Some s.
Proof.
  induction s as [|c s IH]; [done|]. change (hex (c :: s)) with (hex_byte c ++ hex s).
  pose proof (unhex_hex_byte c) as Hc. unfold hex_byte in *. cbn [app unhex]. by rewrite IH, Hc.
Qed.

Lemma hex_inj s t : hex s = hex t -> s = t.
Proof.
  revert t. induction s as [|c s IH]; intros [|d t]; try done.
  change (hex (c :: s)) with (hex_byte c ++ hex s). change (hex (d :: t)) with (hex_byte d ++ hex t).
  intros H. assert (hex_byte c = hex_byte d /\ hex s = hex t) as [Hc Hs].
  { by apply app_inj_1 in H. }
  f_equal; [|by apply IH]. by rewrite <- (unhex_hex_byte c), <- (unhex_hex_byte d), Hc.
Qed.

Lemma byte_xor_054_inj c d : byte_xor c "054"%char = byte_xor d "054"%char -> c = d.
Proof.
  intros H. assert (forall x, byte_xor (byte_xor x "054"%char) "054"%char = x) as Hinv by (intros x; by_bytes x).
  by rewrite <- (Hinv c), H, Hinv.
Qed.

End Hash.
