(* ===== verification/Decide.v ===== *)
(** * The merge algebra of replication (src/replicate/decide.rs)

    Pure decisions over bucket state: what one bucket's objects mean
    ([classify_record]), what two buckets owe each other ([decide]), and the
    ranked merges of the replicated documents (sidecars, claims, statuses). *)
From S2P Require Import Prelude RustStr Documents.
Import Sidecar.
Import StatusDoc.

Module Decide.

Definition CONFLICT_SKEW_MS : Z := 2000.

(** ** Origins *)

(** [TryFrom<OriginState> for Origin]. *)
Definition origin_of_state (s : OriginState.OriginState) : option Origin :=
  match s with
  | OriginState.Private => Some Private
  | OriginState.Mirror => Some Mirror
  | OriginState.Unclaimed => None
  end.

(** [Origin::parse]. *)
Definition origin_parse (s : str) : option Origin :=
  let! state := OriginState.parse s in origin_of_state state.

(** [Origin::as_str]. *)
Definition origin_str (o : Origin) : str :=
  match o with Private => OriginState.PRIVATE | Mirror => OriginState.MIRROR end.

(** [Origin::rank]. *)
Definition origin_rank (o : Origin) : Z := match o with Mirror => 1 | Private => 2 end.

Definition claim_join (a b : option Origin) : option Origin :=
  if from_option origin_rank 0 a <? from_option origin_rank 0 b then b else a.

(** ** Records and their meaning *)

Record Record_ := MkRecord {
  sidecar : option Sidecar;
  has_artifact : bool;
  has_metadata : bool;
  has_provenance : bool;
  tombstoned : bool;
  frozen : bool;
  mirror_quarantined : bool;
  superseding : bool;
  pkg_origin : option Origin
}.

Inductive RecordState :=
  | Frozen (settled : bool)
  | Tombstoned (settled : bool)
  | QuarantinedMirror (settled : bool)
  | Live (sha : str) (o : Origin) (superseding : bool)
  | Bare
  | Untyped
  | Absent (debris : bool).

#[global] Instance RecordState_eq_dec : EqDecision RecordState.
Proof. solve_decision. Defined.

(** The sidecar's own origin string. *)
Definition sidecar_origin (sc : option Sidecar) : option str := let! s := sc in sc_origin s.

(** [Record::from_listing]: [has suffix] asks for one object of the filename. *)
Definition from_listing (has : str -> bool) (sc : option Sidecar) (claim : option Origin)
  : Record_ :=
  let has_artifact := has [] in
  let needs_fallback := has_artifact && bool_decide (sidecar_origin sc = None) in
  {| sidecar := sc;
     has_artifact := has_artifact;
     has_metadata := has METADATA_SUFFIX;
     has_provenance := has PROVENANCE_SUFFIX;
     tombstoned := has TOMBSTONE_SUFFIX;
     frozen := has FROZEN_SUFFIX;
     mirror_quarantined := has MIRROR_QUARANTINED_SUFFIX;
     superseding := has SUPERSEDING_SUFFIX;
     pkg_origin := if needs_fallback then claim else None |}.

(** [Record::origin]. *)
Definition record_origin (r : Record_) : option Origin :=
  match (let! raw := sidecar_origin (sidecar r) in origin_parse raw) with
  | Some o => Some o
  | None => pkg_origin r
  end.

Definition leftovers (r : Record_) : bool :=
  has_artifact r || bool_decide (is_Some (sidecar r)) || has_metadata r || has_provenance r.

Definition classify_record (r : Record_) : RecordState :=
  if frozen r then
    Frozen (tombstoned r && negb (leftovers r) && negb (mirror_quarantined r))
  else if tombstoned r then
    Tombstoned (negb (leftovers r) && negb (mirror_quarantined r))
  else if mirror_quarantined r
          && negb (bool_decide (sidecar_origin (sidecar r) = Some OriginState.PRIVATE)) then
    QuarantinedMirror (negb (leftovers r))
  else if negb (has_artifact r) then Absent (leftovers r)
  else match sidecar r, record_origin r with
  | None, _ => Bare
  | Some _, None => Untyped
  | Some sc, Some o => Live (sha256 sc) o (superseding r)
  end.

Definition is_late_mirror (r : Record_) (claim : option Origin) : bool :=
  bool_decide (claim = Some Private)
  && match classify_record r with Live _ Mirror _ => true | _ => false end.

Definition fenced_by_markers (tombstoned frozen : bool) : bool :=
  match classify_record (MkRecord None false false false tombstoned frozen false false None) with
  | Frozen _ | Tombstoned _ => true
  | _ => false
  end.

Definition listed (r : Record_) (claim : option Origin) : bool :=
  match classify_record r with Live _ _ _ | Untyped => true | _ => false end
  && negb (is_late_mirror r claim).

(** ** Verdicts *)

Inductive Side := A | B.

#[global] Instance Side_eq_dec : EqDecision Side.
Proof. solve_decision. Defined.

Inductive Verdict :=
  | Noop
  | Defer
  | Copy (s : Side)
  | AdoptSidecar (s : Side)
  | Supersede (s : Side)
  | QuarantineLoser (s : Side)
  | Freeze
  | Tombstone
  | PropagateFreeze (s : Side)
  | FinishFreeze
  | SettleMirrorQuarantine.

#[global] Instance Verdict_eq_dec : EqDecision Verdict.
Proof. solve_decision. Defined.

Inductive MergeChoice := MA | MB | MEqual.

#[global] Instance MergeChoice_eq_dec : EqDecision MergeChoice.
Proof. solve_decision. Defined.

Definition is_yanked (sc : Sidecar) : bool :=
  negb (bool_decide (yanked_normalized (yanked sc) = Flag false)).

(** The time-ordered winner of a private byte conflict. *)
Definition conflict_winner (a b : Record_) : option Side :=
  let! sa := sidecar a in
  let! ta := upload_epoch_ms sa in
  let! sb := sidecar b in
  let! tb := upload_epoch_ms sb in
  if u64_abs_diff ta tb <=? CONFLICT_SKEW_MS then None
  else Some (if ta <? tb then A else B).

Section merge.
Context {D : Digest} {JS : Codec Sidecar} {JP : Codec StoredProjectStatus}.

(** The one tiebreak: greater key, then smaller digest of the bytes. *)
Definition ranked_merge {K} `{Ord K} (ka : K) (a : str) (kb : K) (b : str) : MergeChoice :=
  match cmp ka kb with
  | Gt => MA
  | Lt => MB
  | Eq =>
    if decide (a = b) then MEqual
    else if leb (sha256_digest a) (sha256_digest b) then MA else MB
  end.

(** The sidecar ranking: origin, yank epoch, yanked, upload-time revision. *)
Definition sidecar_merge_key (sc : Sidecar) (o : option Origin) : Z * Z * bool * Z :=
  (origin_rank (default Mirror o), yank_epoch sc, is_yanked sc, upload_time_revision sc).

Definition sidecar_merge (a : Sidecar) (oa : option Origin) (b : Sidecar) (ob : option Origin)
  : MergeChoice :=
  ranked_merge (sidecar_merge_key a oa) (encode a) (sidecar_merge_key b ob) (encode b).

(** [VersionedProjectStatus::encode]. *)
Definition status_encode (s : VersionedProjectStatus) : str :=
  encode (MkStored (doc s) (epoch s) (origin s)).

Definition status_is_default (s : VersionedProjectStatus) : bool :=
  (epoch s =? 0) && bool_decide (doc s = status_doc_default).

Definition status_merge_key (s : VersionedProjectStatus) : bool * Z * Z * bool :=
  (negb (bool_decide (origin s = Some Mirror)), epoch s, restriction (status (doc s)),
   bool_decide (origin s = Some Private)).

Definition status_merge (a b : option VersionedProjectStatus) : MergeChoice :=
  match a, b with
  | None, None => MEqual
  | Some s, None => if status_is_default s then MEqual else MA
  | None, Some s => if status_is_default s then MEqual else MB
  | Some a, Some b =>
    ranked_merge (status_merge_key a) (status_encode a) (status_merge_key b) (status_encode b)
  end.

Definition same_bytes (a b : Record_) (oa ob : Origin) : Verdict :=
  match sidecar a, sidecar b with
  | Some sca, Some scb =>
    match sidecar_merge sca (Some oa) scb (Some ob) with
    | MA => AdoptSidecar A
    | MB => AdoptSidecar B
    | MEqual => Noop
    end
  | _, _ => Noop
  end.

Definition decide_records (a b : Record_) : Verdict :=
  match classify_record a, classify_record b with
  | Frozen true, Frozen true => Noop
  | Frozen _, Frozen _ => FinishFreeze
  | Frozen true, _ => PropagateFreeze A
  | _, Frozen true => PropagateFreeze B
  | Frozen _, _ | _, Frozen _ => FinishFreeze
  | Tombstoned true, Tombstoned true => Noop
  | Tombstoned _, _ | _, Tombstoned _ => Tombstone
  | (Bare | Untyped), _ | _, (Bare | Untyped) => Defer
  | Absent _, Absent _ => Noop
  | Live _ _ _, Absent _ => Copy A
  | Absent _, Live _ _ _ => Copy B
  | Live _ Private _, QuarantinedMirror _ => Supersede A
  | QuarantinedMirror _, Live _ Private _ => Supersede B
  | QuarantinedMirror true, QuarantinedMirror true => Noop
  | QuarantinedMirror _, _ | _, QuarantinedMirror _ => SettleMirrorQuarantine
  | Live sa oa _, Live sb ob _ =>
    if decide (sa = sb) then same_bytes a b oa ob
    else match oa, ob with
    | Private, Private => from_option QuarantineLoser Freeze (conflict_winner a b)
    | Private, Mirror => Supersede A
    | Mirror, Private => Supersede B
    | Mirror, Mirror => Freeze
    end
  end.

End merge.

(** The loser's view of a merge: a strict win of the other side. *)
Lemma ranked_merge_flip {D : Digest} `{Ord K} (ka kb : K) a b :
  ranked_merge ka a kb b = MB -> ranked_merge kb b ka a = MA.
Proof.
  unfold ranked_merge. rewrite (cmp_opp ka kb). destruct (cmp ka kb); simpl; [|done|done].
  case_decide as Hd; [done|]. case_match eqn:Hl; [done|]. intros _.
  rewrite decide_False by done. by rewrite leb_false_swap.
Qed.

(** ** The ranked merge is a total order *)

Section ranked.
Context {D : Digest} {K Doc : Type} `{Ord K} (key : Doc -> K) (bytes : Doc -> str).
Implicit Types x y z : Doc.

Definition merge_docs x y : MergeChoice := ranked_merge (key x) (bytes x) (key y) (bytes y).

(** What the merge can tell apart. *)
Definition same_doc x y : Prop := key x = key y /\ bytes x = bytes y.

(** The digest does not collide on the stored bytes of [l]. *)
Definition no_collision (l : list Doc) : Prop :=
  forall x y, x ∈ l -> y ∈ l ->
  sha256_digest (bytes x) = sha256_digest (bytes y) -> bytes x = bytes y.

(** [x] survives a merge with [y]. *)
Definition beats x y : Prop := merge_docs x y ≠ MB.

#[global] Instance beats_dec x y : Decision (beats x y).
Proof. unfold beats. apply _. Defined.

Lemma merge_docs_equal x y : merge_docs x y = MEqual <-> same_doc x y.
Proof.
  unfold merge_docs, ranked_merge, same_doc.
  pose proof (cmp_eq_iff (key x) (key y)) as Hk.
  destruct (cmp (key x) (key y)); [case_decide; [|case_match]|..]; naive_solver.
Qed.

Lemma beats_cases x y :
  beats x y <-> cmp (key x) (key y) = Gt
  \/ (key x = key y /\ leb (sha256_digest (bytes x)) (sha256_digest (bytes y)) = true).
Proof.
  unfold beats, merge_docs, ranked_merge.
  pose proof (cmp_eq_iff (key x) (key y)) as Hk.
  destruct (cmp (key x) (key y)); [|naive_solver..].
  case_decide as Hb; [|case_match; naive_solver].
  rewrite Hb. unfold leb. rewrite cmp_refl. naive_solver.
Qed.

Lemma beats_refl x : beats x x.
Proof. apply beats_cases. right. split; [done|]. unfold leb. by rewrite cmp_refl. Qed.

Lemma beats_total x y : beats x y \/ beats y x.
Proof.
  rewrite !beats_cases. rewrite (cmp_gt_lt (key y)).
  destruct (cmp (key x) (key y)) eqn:E; [|by auto..].
  apply cmp_eq_iff in E. destruct (leb (sha256_digest (bytes x)) _) eqn:L; [by auto|].
  right. right. split; [done | by apply leb_false_swap].
Qed.

Lemma beats_trans x y z : beats x y -> beats y z -> beats x z.
Proof.
  rewrite !beats_cases. intros [Hg|[-> Hl]] [Hg'|[<- Hl']].
  - left. by eapply cmp_gt_trans.
  - by left.
  - by left.
  - right. split; [done | by eapply leb_trans].
Qed.

Lemma beats_antisym l x y :
  no_collision l -> x ∈ l -> y ∈ l -> beats x y -> beats y x -> same_doc x y.
Proof.
  intros Hc Hx Hy. rewrite !beats_cases. rewrite (cmp_gt_lt (key y)).
  intros [Hg|[Hk Hl]] [Hg'|[Hk' Hl']]; try congruence.
  - rewrite Hk', cmp_refl in Hg. done.
  - rewrite Hk, cmp_refl in Hg'. done.
  - split; [done|]. apply Hc; [done | done|]. by apply leb_antisym.
Qed.

(** Without a collision the order of the arguments does not matter. *)
Lemma merge_docs_swap l x y :
  no_collision l -> x ∈ l -> y ∈ l ->
  merge_docs y x = match merge_docs x y with MA => MB | MB => MA | MEqual => MEqual end.
Proof.
  intros Hc Hx Hy.
  assert (merge_docs x y = MEqual -> merge_docs y x = MEqual) as Heq.
  { rewrite !merge_docs_equal. unfold same_doc. naive_solver. }
  assert (merge_docs y x = MEqual -> merge_docs x y = MEqual) as Heq'.
  { rewrite !merge_docs_equal. unfold same_doc. naive_solver. }
  pose proof (beats_total x y) as Ht. pose proof (beats_antisym l x y Hc Hx Hy) as Ha.
  rewrite <- merge_docs_equal in Ha. unfold beats in *.
  destruct (merge_docs x y) eqn:E1, (merge_docs y x) eqn:E2; naive_solver.
Qed.

(** *** Buckets converge *)

(** One reconciliation of two buckets: the loser adopts the winner's document. *)
Definition sync_pair (st : list Doc) (p : nat * nat) : list Doc :=
  match st !! p.1, st !! p.2 with
  | Some x, Some y =>
    match merge_docs x y with
    | MA => <[p.2 := x]> st
    | MB => <[p.1 := y]> st
    | MEqual => st
    end
  | _, _ => st
  end.

Definition sync_all (st : list Doc) (schedule : list (nat * nat)) : list Doc :=
  foldl sync_pair st schedule.

(** No pair of buckets has anything left to do. *)
Definition quiescent (st : list Doc) : Prop :=
  forall x y, x ∈ st -> y ∈ st -> merge_docs x y = MEqual.

Definition is_winner (w : Doc) (st : list Doc) : Prop := w ∈ st /\ forall x, x ∈ st -> beats w x.

Lemma winner_exists st : st ≠ [] -> exists w, is_winner w st.
Proof.
  induction st as [|x st IH]; [done|]. intros _. destruct st as [|y st].
  { exists x. split; [set_solver|]. intros z ->%list_elem_of_singleton. apply beats_refl. }
  destruct IH as (w & Hw & Hb); [done|].
  destruct (decide (beats x w)) as [Hxw|Hxw].
  - exists x. split; [set_solver|]. intros z [->|Hz]%elem_of_cons; [apply beats_refl|].
    eapply beats_trans; eauto.
  - exists w. split; [set_solver|]. intros z [->|Hz]%elem_of_cons; [|auto].
    destruct (beats_total x w); [done | done].
Qed.

(** A sync moves documents around but invents none. *)
Lemma sync_pair_elem st p x : x ∈ sync_pair st p -> x ∈ st.
Proof.
  unfold sync_pair. destruct (st !! p.1) as [a|] eqn:Ea; [|done].
  destruct (st !! p.2) as [c|] eqn:Ec; [|done].
  apply list_elem_of_lookup_2 in Ea as Ha. apply list_elem_of_lookup_2 in Ec as Hc.
  case_match; [intros [i Hi]%list_elem_of_lookup| intros [i Hi]%list_elem_of_lookup | done];
    rewrite list_lookup_insert_Some in Hi; destruct Hi as [(_ & <- & _)|[_ Hi]];
    try done; by eapply list_elem_of_lookup_2.
Qed.

Lemma sync_pair_keeps_best st p x :
  x ∈ st -> exists y, y ∈ sync_pair st p /\ beats y x.
Proof.
  intros Hx. unfold sync_pair.
  destruct (st !! p.1) as [a|] eqn:Ea; [|eauto using beats_refl].
  destruct (st !! p.2) as [c|] eqn:Ec; [|eauto using beats_refl].
  apply list_elem_of_lookup in Hx as [i Hi].
  apply lookup_lt_Some in Ea as La. apply lookup_lt_Some in Ec as Lc.
  destruct (merge_docs a c) eqn:E.
  - destruct (decide (i = p.2)) as [->|Hne].
    + exists a. split; [apply list_elem_of_insert; lia|]. rewrite Ec in Hi. simplify_eq.
      unfold beats. by rewrite E.
    + exists x. split; [|apply beats_refl]. apply list_elem_of_lookup. exists i.
      by rewrite list_lookup_insert_ne.
  - destruct (decide (i = p.1)) as [->|Hne].
    + exists c. split; [apply list_elem_of_insert; lia|]. rewrite Ea in Hi. simplify_eq.
      destruct (beats_total c x) as [?|Hb]; [done|]. unfold beats in Hb. congruence.
    + exists x. split; [|apply beats_refl]. apply list_elem_of_lookup. exists i.
      by rewrite list_lookup_insert_ne.
  - exists x. split; [|apply beats_refl]. apply list_elem_of_lookup. eauto.
Qed.

Lemma sync_all_elem st schedule x : x ∈ sync_all st schedule -> x ∈ st.
Proof.
  revert st; induction schedule as [|p ps IH]; intros st; simpl; [done|].
  intros Hx. by eapply sync_pair_elem, IH.
Qed.

Lemma sync_all_keeps_best st schedule x :
  x ∈ st -> exists y, y ∈ sync_all st schedule /\ beats y x.
Proof.
  revert st x; induction schedule as [|p ps IH]; intros st x Hx; simpl; [eauto using beats_refl|].
  destruct (sync_pair_keeps_best st p x Hx) as (y & Hy & Hyx).
  destruct (IH _ y Hy) as (z & Hz & Hzy). exists z. split; [done | by eapply beats_trans].
Qed.

Lemma quiescent_all_winner st schedule w :
  no_collision st -> is_winner w st -> quiescent (sync_all st schedule) ->
  forall x, x ∈ sync_all st schedule -> same_doc x w.
Proof.
  intros Hc [Hw Hbest] Hq x Hx.
  destruct (sync_all_keeps_best st schedule w Hw) as (y & Hy & Hyw).
  pose proof (sync_all_elem _ _ _ Hy) as Hy'.
  destruct (beats_antisym st y w) as [Hk Hb]; auto.
  pose proof (Hq x y Hx Hy) as [Hk' Hb']%merge_docs_equal.
  split; congruence.
Qed.

(** *** A hub pass reaches quiescence *)

(** Reconcile bucket 0 with every bucket in turn. *)
Definition hub_pass (n : nat) : list (nat * nat) := (fun i => (0%nat, i)) <$> seq 0 n.

Lemma hub_pass_S n : hub_pass (S n) = hub_pass n ++ [(0, n)]%nat.
Proof. unfold hub_pass. by rewrite seq_S, fmap_app. Qed.

Lemma sync_all_app st ps qs : sync_all st (ps ++ qs) = sync_all (sync_all st ps) qs.
Proof. apply foldl_app. Qed.

Lemma length_sync_pair st p : length (sync_pair st p) = length st.
Proof. unfold sync_pair. repeat case_match; by rewrite ?length_insert. Qed.

Lemma length_sync_all st ps : length (sync_all st ps) = length st.
Proof.
  revert st; induction ps as [|p ps IH]; intros st; simpl; [done|].
  by rewrite IH, length_sync_pair.
Qed.

(** The hub holds [h], which beats the first [n] buckets. *)
Definition hub_best (n : nat) (st : list Doc) : Prop :=
  exists h, st !! 0%nat = Some h /\ forall j x, (j < n)%nat -> st !! j = Some x -> beats h x.

Lemma hub_gather n st :
  st ≠ [] -> (n <= length st)%nat -> hub_best n (sync_all st (hub_pass n)).
Proof.
  intros Hne. induction n as [|n IH]; intros Hn.
  { destruct st as [|h st]; [done|]. exists h. split; [done | lia]. }
  rewrite hub_pass_S, sync_all_app. simpl. destruct IH as (h & Hh & Hb); [lia|].
  set (u := sync_all st (hub_pass n)) in *.
  assert (n < length u)%nat as Hl by (unfold u; rewrite length_sync_all; lia).
  apply lookup_lt_is_Some in Hl as [x Hx]. unfold sync_pair; simpl. rewrite Hh, Hx.
  apply lookup_lt_Some in Hx as Hxl. apply lookup_lt_Some in Hh as Hhl.
  destruct (merge_docs h x) eqn:E.
  - exists h. destruct (decide (n = 0%nat)) as [->|Hn0].
    + rewrite list_lookup_insert_eq by done. split; [done|]. intros j y Hj.
      assert (j = 0%nat) as -> by lia. rewrite list_lookup_insert_eq by done.
      intros [= <-]. apply beats_refl.
    + rewrite list_lookup_insert_ne by lia. split; [done|]. intros j y Hj Hy.
      destruct (decide (j = n)) as [->|Hjn].
      * rewrite list_lookup_insert_eq in Hy by done. simplify_eq. apply beats_refl.
      * rewrite list_lookup_insert_ne in Hy by done. apply (Hb j); [lia | done].
  - assert (beats x h) as Hxh.
    { destruct (beats_total x h) as [?|Hbad]; [done|]. unfold beats in Hbad. congruence. }
    exists x. rewrite list_lookup_insert_eq by done. split; [done|]. intros j y Hj Hy.
    destruct (decide (j = 0%nat)) as [->|Hj0].
    + rewrite list_lookup_insert_eq in Hy by done. simplify_eq. apply beats_refl.
    + rewrite list_lookup_insert_ne in Hy by done.
      destruct (decide (j = n)) as [->|Hjn]; [rewrite Hx in Hy; simplify_eq; apply beats_refl|].
      eapply beats_trans; [done|]. apply (Hb j); [lia | done].
  - exists h. split; [done|]. intros j y Hj Hy.
    destruct (decide (j = n)) as [->|Hjn]; [|apply (Hb j); [lia | done]].
    rewrite Hx in Hy. simplify_eq. unfold beats. by rewrite E.
Qed.

Lemma hub_scatter n st h :
  st !! 0%nat = Some h -> (forall x, x ∈ st -> beats h x) -> (n <= length st)%nat ->
  let u := sync_all st (hub_pass n) in
  u !! 0%nat = Some h /\ (forall x, x ∈ u -> beats h x)
  /\ forall j x, (j < n)%nat -> u !! j = Some x -> same_doc x h.
Proof.
  intros Hh Hb. induction n as [|n IH]; intros Hn; cbv zeta in *.
  { split; [done|]. split; [done | lia]. }
  rewrite hub_pass_S, sync_all_app. simpl. destruct IH as (Hh' & Hb' & Hs); [lia|].
  set (u := sync_all st (hub_pass n)) in *.
  assert (n < length u)%nat as Hl by (unfold u; rewrite length_sync_all; lia).
  split; [|split; [intros x Hx; by apply Hb', (sync_pair_elem _ (0, n)%nat)|]];
    apply lookup_lt_is_Some in Hl as [y Hy]; unfold sync_pair; simpl; rewrite Hh', Hy;
    apply lookup_lt_Some in Hy as Hyl; pose proof (Hb' y) as Hby;
    apply list_elem_of_lookup_2 in Hy as Hyu; specialize (Hby Hyu); unfold beats in Hby;
    destruct (merge_docs h y) eqn:E; try done.
  - destruct (decide (n = 0%nat)) as [->|]; [by rewrite list_lookup_insert_eq by lia|].
    by rewrite list_lookup_insert_ne by lia.
  - intros j x Hj Hx. destruct (decide (j = n)) as [->|Hjn].
    + rewrite list_lookup_insert_eq in Hx by done. by simplify_eq.
    + rewrite list_lookup_insert_ne in Hx by done. apply (Hs j); [lia | done].
  - intros j x Hj Hx. destruct (decide (j = n)) as [->|Hjn].
    + rewrite Hy in Hx. simplify_eq. apply merge_docs_equal in E as [? ?]. by split.
    + apply (Hs j); [lia | done].
Qed.

Lemma hub_quiescent st :
  quiescent (sync_all st (hub_pass (length st) ++ hub_pass (length st))).
Proof.
  destruct (decide (st = [])) as [->|Hne]; [by intros x y ?%not_elem_of_nil|].
  rewrite sync_all_app. destruct (hub_gather (length st) st Hne) as (h & Hh & Hb); [lia|].
  set (u := sync_all st (hub_pass (length st))) in *.
  assert (length u = length st) as Hlen by apply length_sync_all.
  destruct (hub_scatter (length st) u h) as (_ & _ & Hs); [done| |lia|].
  { intros x [j Hj]%list_elem_of_lookup. apply (Hb j); [|done].
    apply lookup_lt_Some in Hj. lia. }
  assert (forall x, x ∈ sync_all u (hub_pass (length st)) -> same_doc x h) as Hall.
  { intros x [j Hj]%list_elem_of_lookup. apply (Hs j); [|done].
    apply lookup_lt_Some in Hj. rewrite length_sync_all in Hj. lia. }
  intros x y Hx Hy. apply merge_docs_equal.
  destruct (Hall x Hx), (Hall y Hy). split; congruence.
Qed.

End ranked.

(** ** Properties of the record decision *)

Section decide_props.
Context {D : Digest} {JS : Codec Sidecar} {JP : Codec StoredProjectStatus}.

Definition flip_side (s : Side) : Side := match s with A => B | B => A end.

(** The same physical outcome with the buckets named the other way round. *)
Definition flip_verdict (v : Verdict) : Verdict :=
  match v with
  | Copy s => Copy (flip_side s)
  | AdoptSidecar s => AdoptSidecar (flip_side s)
  | Supersede s => Supersede (flip_side s)
  | QuarantineLoser s => QuarantineLoser (flip_side s)
  | PropagateFreeze s => PropagateFreeze (flip_side s)
  | v => v
  end.

(** The digests of two records' stored sidecars do not collide. *)
Definition sidecars_no_collision (a b : Record_) : Prop :=
  forall sca scb, sidecar a = Some sca -> sidecar b = Some scb ->
  sha256_digest (encode sca) = sha256_digest (encode scb) -> encode sca = encode scb.

(** A sidecar with the origin it is ranked under, as a mergeable document. *)
Definition sidecar_doc_key (d : Sidecar * option Origin) : Z * Z * bool * Z :=
  sidecar_merge_key d.1 d.2.
Definition sidecar_doc_bytes (d : Sidecar * option Origin) : str := encode d.1.

Lemma same_bytes_flip a b oa ob :
  sidecars_no_collision a b -> same_bytes b a ob oa = flip_verdict (same_bytes a b oa ob).
Proof.
  intros Hc. unfold same_bytes.
  destruct (sidecar a) as [sca|] eqn:Ea, (sidecar b) as [scb|] eqn:Eb; try done.
  unfold sidecar_merge.
  pose proof (merge_docs_swap sidecar_doc_key sidecar_doc_bytes
    [(sca, Some oa); (scb, Some ob)] (sca, Some oa) (scb, Some ob)) as Hs.
  unfold merge_docs, sidecar_doc_key, sidecar_doc_bytes in Hs. simpl in Hs.
  rewrite Hs; [by case_match | | set_solver | set_solver].
  intros x y Hx Hy. rewrite !elem_of_cons in Hx, Hy.
  destruct Hx as [->|[->|?%not_elem_of_nil]], Hy as [->|[->|?%not_elem_of_nil]]; try done; simpl.
  - by apply Hc.
  - intros E. symmetry. by apply Hc.
Qed.

Lemma conflict_winner_flip a b : conflict_winner b a = flip_side <$> conflict_winner a b.
Proof.
  unfold conflict_winner, u64_abs_diff.
  destruct (sidecar a) as [sa|], (sidecar b) as [sb|]; simpl; try done.
  - destruct (upload_epoch_ms sa) as [ta|], (upload_epoch_ms sb) as [tb|]; simpl; try done.
    replace (Z.abs (tb - ta)) with (Z.abs (ta - tb)) by lia.
    destruct (Z.leb_spec (Z.abs (ta - tb)) CONFLICT_SKEW_MS) as [|Hlt]; [done|].
    unfold CONFLICT_SKEW_MS in Hlt. simpl.
    destruct (Z.ltb_spec ta tb), (Z.ltb_spec tb ta); try done; lia.
  - by destruct (upload_epoch_ms sa).
  - by destruct (upload_epoch_ms sb).
Qed.

(** C1: the decision is symmetric. Reading the two buckets the other way round
    gives the same physical outcome with the sides swapped, so a bidirectional
    diff never applies two different outcomes, as long as the two stored
    sidecars' digests do not collide. *)
Theorem decide_symmetric a b :
  sidecars_no_collision a b -> decide_records b a = flip_verdict (decide_records a b).
Proof.
  intros Hc. unfold decide_records.
  destruct (classify_record a) as [[]|[]|[]|sa oa ?| | |?],
           (classify_record b) as [[]|[]|[]|sb ob ?| | |?];
    try reflexivity; try (by destruct oa); try (by destruct ob).
  destruct (decide (sa = sb)) as [<-|Hne].
  - rewrite decide_True by done. destruct oa, ob; by apply same_bytes_flip.
  - rewrite decide_False by done. destruct oa, ob; try done.
    rewrite conflict_winner_flip. by destruct (conflict_winner a b) as [[]|].
Qed.

(** What two buckets agree on when nothing is owed to either. *)
Definition agreement (a b : Record_) : Prop :=
  match classify_record a, classify_record b with
  | Frozen true, Frozen true => True
  | Tombstoned true, Tombstoned true => True
  | QuarantinedMirror true, QuarantinedMirror true => True
  | Absent _, Absent _ => True
  | Live sa oa _, Live sb ob _ => sa = sb /\ oa = ob /\ sidecar a = sidecar b
  | _, _ => False
  end.

Lemma origin_rank_inj o1 o2 : origin_rank o1 = origin_rank o2 -> o1 = o2.
Proof. by destruct o1, o2. Qed.

Lemma same_bytes_noop a b oa ob sca scb :
  sidecar a = Some sca -> sidecar b = Some scb ->
  (same_bytes a b oa ob = Noop <-> sca = scb /\ oa = ob).
Proof.
  intros Ea Eb. unfold same_bytes. rewrite Ea, Eb.
  pose proof (merge_docs_equal sidecar_doc_key sidecar_doc_bytes (sca, Some oa) (scb, Some ob)) as Hm.
  unfold merge_docs, same_doc, sidecar_doc_key, sidecar_doc_bytes, sidecar_merge_key in Hm.
  simpl in Hm. unfold sidecar_merge, sidecar_merge_key. simpl.
  split.
  - case_match; try done. intros _. destruct Hm as [[Hk Hb] _]; [done|].
    apply encode_inj in Hb as ->. split; [done|]. apply origin_rank_inj. congruence.
  - intros [<- <-]. destruct Hm as [_ ->]; done.
Qed.

Lemma classify_live r sha o s :
  classify_record r = Live sha o s ->
  exists sc, sidecar r = Some sc /\ sha256 sc = sha /\ record_origin r = Some o
  /\ has_artifact r = true.
Proof.
  unfold classify_record. repeat case_match; intros; simplify_eq; bool_to_prop; eauto 10.
Qed.

(** [Noop] is a durability claim, and it is exact: the decision is [Noop]
    precisely when the two buckets agree: both frozen and settled, both
    tombstoned with nothing left, both fenced mirror demotions, both absent,
    or both live with the same bytes, the same origin and the same sidecar. *)
Theorem noop_is_agreement a b : decide_records a b = Noop <-> agreement a b.
Proof.
  unfold decide_records, agreement.
  destruct (classify_record a) as [[]|[]|[]|sa oa ?| | |?] eqn:Ea,
           (classify_record b) as [[]|[]|[]|sb ob ?| | |?] eqn:Eb;
    try (by destruct oa); try (by destruct ob); try done.
  apply classify_live in Ea as (sca & Ha & Hsa & _ & _).
  apply classify_live in Eb as (scb & Hb & Hsb & _ & _).
  destruct (decide (sa = sb)) as [<-|Hne].
  - pose proof (same_bytes_noop a b oa ob sca scb Ha Hb) as Hn. rewrite Ha, Hb.
    destruct oa, ob; rewrite Hn; naive_solver.
  - split; [|naive_solver]. destruct oa, ob; try done. by destruct (conflict_winner a b).
Qed.

(** A verdict that writes a body or a sidecar onto a bucket. *)
Definition publishes (v : Verdict) : bool :=
  match v with Copy _ | AdoptSidecar _ | Supersede _ | QuarantineLoser _ => true | _ => false end.

Definition fenced_state (st : RecordState) : bool :=
  match st with Frozen _ | Tombstoned _ => true | _ => false end.

(** Deleted, with nothing left of the record. *)
Definition settled_side (r : Record_) : bool := tombstoned r && negb (leftovers r) && negb (mirror_quarantined r).

Lemma classify_fenced r : frozen r || tombstoned r = true ->
  classify_record r = if frozen r then Frozen (settled_side r) else Tombstoned (settled_side r).
Proof.
  unfold classify_record, settled_side. destruct (frozen r); [done|]. cbn [orb]. intros ->. by rewrite andb_true_l.
Qed.

Lemma classify_unfenced r : frozen r || tombstoned r = false -> fenced_state (classify_record r) = false.
Proof.
  unfold classify_record. intros [-> ->]%orb_false_iff. by repeat (case_match; try done).
Qed.

(** C2: a deleted or frozen filename is never resurrected, and the fence always
    spreads. Where either bucket has a tombstone or a freeze marker, whatever else
    stands there: no verdict copies or adopts anything or puts the pair off; it is
    [Noop] exactly when both sides are deleted with nothing left and the freeze is
    on both or on neither; otherwise, with a freeze on either side, that freeze is
    propagated from a settled side onto one without it, or finished where a frozen
    side is not settled or both have it (never degraded to a delete); and with no
    freeze the verdict is [Tombstone]. *)
Theorem fences_dominate a b :
  frozen a || tombstoned a || (frozen b || tombstoned b) = true ->
  publishes (decide_records a b) = false /\ decide_records a b ≠ Defer
  /\ (decide_records a b = Noop <-> settled_side a = true /\ settled_side b = true /\ frozen a = frozen b)
  /\ (decide_records a b = PropagateFreeze A <-> frozen a = true /\ settled_side a = true /\ frozen b = false)
  /\ (decide_records a b = PropagateFreeze B <-> frozen b = true /\ settled_side b = true /\ frozen a = false)
  /\ (decide_records a b = FinishFreeze <->
      frozen a = true /\ settled_side a = false \/ frozen b = true /\ settled_side b = false)
  /\ (decide_records a b = Tombstone <->
      frozen a = false /\ frozen b = false /\ (settled_side a = false \/ settled_side b = false)).
Proof.
  intros Hf. unfold decide_records.
  assert (forall r, frozen r || tombstoned r = false -> frozen r = false /\ settled_side r = false
            /\ fenced_state (classify_record r) = false) as Hno.
  { intros r Hr. pose proof (classify_unfenced r Hr). apply orb_false_iff in Hr as [-> Ht]. unfold settled_side. by rewrite Ht. }
  destruct (frozen a || tombstoned a) eqn:Ha; destruct (frozen b || tombstoned b) eqn:Hb; try done.
  - rewrite (classify_fenced a Ha), (classify_fenced b Hb).
    destruct (frozen a), (frozen b), (settled_side a), (settled_side b); cbn; naive_solver.
  - rewrite (classify_fenced a Ha). destruct (Hno b Hb) as (-> & -> & Hc).
    destruct (classify_record b) as [[]|[]|[]|sb ob ?| | |?]; try done;
      destruct (frozen a), (settled_side a); try destruct ob; cbn; naive_solver.
  - rewrite (classify_fenced b Hb). destruct (Hno a Ha) as (-> & -> & Hc).
    destruct (classify_record a) as [[]|[]|[]|sa oa ?| | |?]; try done;
      destruct (frozen b), (settled_side b); try destruct oa; cbn; naive_solver.
Qed.

(** The byte conflict of one filename: two live records, different bytes. *)
Definition byte_conflict (a b : Record_) (oa ob : Origin) : Prop :=
  exists sa sb pa pb, classify_record a = Live sa oa pa /\ classify_record b = Live sb ob pb
  /\ sa ≠ sb.

(** No byte conflict is resolved by guessing. Different bytes under one
    filename are resolved in favour of a side only when it is private against
    mirror, or when both are private and the winner's server-stamped receive
    time is older by more than the two-second skew; two mirrors, a missing
    timestamp or two close ones freeze the name. *)
Theorem byte_conflict_resolution a b oa ob :
  byte_conflict a b oa ob ->
  match decide_records a b with
  | Supersede A => oa = Private /\ ob = Mirror
  | Supersede B => oa = Mirror /\ ob = Private
  | QuarantineLoser s =>
    oa = Private /\ ob = Private /\ exists sca scb ta tb,
      sidecar a = Some sca /\ sidecar b = Some scb
      /\ upload_epoch_ms sca = Some ta /\ upload_epoch_ms scb = Some tb
      /\ match s with A => ta + CONFLICT_SKEW_MS < tb | B => tb + CONFLICT_SKEW_MS < ta end
  | Freeze => oa = ob
  | _ => False
  end.
Proof.
  intros (sa & sb & pa & pb & Ha & Hb & Hne). unfold decide_records. rewrite Ha, Hb.
  rewrite decide_False by done. destruct oa, ob; try done.
  destruct (conflict_winner a b) as [s|] eqn:E; [|done]. simpl. split; [done|]. split; [done|].
  unfold conflict_winner in E. destruct (sidecar a) as [sca|]; [|done].
  simpl in E. destruct (upload_epoch_ms sca) as [ta|] eqn:Eta; [|done].
  destruct (sidecar b) as [scb|]; [|done]. simpl in E.
  destruct (upload_epoch_ms scb) as [tb|] eqn:Etb; [|done]. simpl in E.
  exists sca, scb, ta, tb. do 4 (split; [done|]).
  unfold u64_abs_diff in E. destruct (Z.leb_spec (Z.abs (ta - tb)) CONFLICT_SKEW_MS); [done|].
  simplify_eq. unfold CONFLICT_SKEW_MS in *. destruct (Z.ltb_spec ta tb); lia.
Qed.

(** Sidecar replication converges whatever the order of the pairs. Among
    any set of bucket sidecars whose digests do not collide there is one winner
    (it loses no merge); any sequence of pairwise reconciliations that leaves
    nothing to do leaves every bucket with the winner's sidecar at the winner's
    rank; and reconciling one bucket with all the others, twice, always gets
    there. *)
Theorem sidecar_merge_converges (st : list (Sidecar * option Origin)) :
  st ≠ [] -> no_collision sidecar_doc_bytes st ->
  exists w, w ∈ st
  /\ (forall x, x ∈ st -> sidecar_merge w.1 w.2 x.1 x.2 ≠ MB)
  /\ (forall schedule,
        let final := sync_all sidecar_doc_key sidecar_doc_bytes st schedule in
        quiescent sidecar_doc_key sidecar_doc_bytes final ->
        forall x, x ∈ final -> x.1 = w.1 /\ sidecar_merge_key x.1 x.2 = sidecar_merge_key w.1 w.2)
  /\ (let n := length st in
      quiescent sidecar_doc_key sidecar_doc_bytes
        (sync_all sidecar_doc_key sidecar_doc_bytes st (hub_pass n ++ hub_pass n))).
Proof.
  intros Hne Hc.
  destruct (winner_exists sidecar_doc_key sidecar_doc_bytes st Hne) as (w & Hw & Hb).
  exists w. split; [done|]. split; [intros x Hx; apply (Hb x Hx)|]. split.
  - intros schedule final Hq x Hx.
    destruct (quiescent_all_winner _ _ st schedule w Hc (conj Hw Hb) Hq x Hx) as [Hk He].
    split; [by apply encode_inj | done].
  - apply hub_quiescent.
Qed.

End decide_props.

(** ** The properties at concrete records *)

Definition example_sidecar (sha : str) (o : str) (epoch : Z) (received : Z) : Sidecar :=
  MkSidecar sha 3 (&"1.0") (&"2026-01-01T00:00:00Z") (Some received) None (Flag false) (Some o)
    epoch 0 false None.

Definition example_live (sha : str) (o : str) (epoch : Z) (received : Z) : Record_ :=
  MkRecord (Some (example_sidecar sha o epoch received)) true false false false false false false
    None.

Definition example_deleted : Record_ := MkRecord None false false false true false false false None.

Lemma decide_symmetric_witness :
  @decide_records toy_digest toy_sidecar_codec
    (example_live (&"aa") (&"private") 1 5) (example_live (&"aa") (&"private") 0 5)
  = AdoptSidecar A
  /\ @decide_records toy_digest toy_sidecar_codec
    (example_live (&"aa") (&"private") 0 5) (example_live (&"aa") (&"private") 1 5)
  = AdoptSidecar B.
Proof.
  assert (@decide_records toy_digest toy_sidecar_codec
    (example_live (&"aa") (&"private") 1 5) (example_live (&"aa") (&"private") 0 5)
    = AdoptSidecar A) as H by (vm_compute; reflexivity).
  split; [exact H|].
  rewrite (decide_symmetric (D := toy_digest) (JS := toy_sidecar_codec)
    (example_live (&"aa") (&"private") 1 5) (example_live (&"aa") (&"private") 0 5)).
  - rewrite H. reflexivity.
  - intros sca scb _ _ E. exact E.
Defined.

Lemma fences_dominate_witness :
  @decide_records toy_digest toy_sidecar_codec example_deleted (example_live (&"aa") (&"private") 0 5) = Tombstone.
Proof.
  apply (fences_dominate (D := toy_digest) (JS := toy_sidecar_codec) example_deleted
    (example_live (&"aa") (&"private") 0 5)).
  - vm_compute. reflexivity.
  - split; [reflexivity|]. split; [reflexivity|]. right. reflexivity.
Defined.

Lemma byte_conflict_resolution_witness :
  @decide_records toy_digest toy_sidecar_codec
    (example_live (&"aa") (&"private") 0 1000) (example_live (&"bb") (&"private") 0 9000)
  = QuarantineLoser A /\ 1000 + CONFLICT_SKEW_MS < 9000.
Proof.
  assert (@decide_records toy_digest toy_sidecar_codec
    (example_live (&"aa") (&"private") 0 1000) (example_live (&"bb") (&"private") 0 9000)
    = QuarantineLoser A) as H by (vm_compute; reflexivity).
  split; [exact H|].
  pose proof (byte_conflict_resolution (D := toy_digest) (JS := toy_sidecar_codec)
    (example_live (&"aa") (&"private") 0 1000) (example_live (&"bb") (&"private") 0 9000)
    Private Private) as R.
  rewrite H in R. destruct R as (_ & _ & sca & scb & ta & tb & Ea & Eb & Hta & Htb & Hlt).
  - exists (&"aa"), (&"bb"), false, false. repeat split; vm_compute; (reflexivity || discriminate).
  - simpl in Ea, Eb. injection Ea as <-. injection Eb as <-. simpl in Hta, Htb.
    injection Hta as <-. injection Htb as <-. exact Hlt.
Defined.

Lemma sidecar_merge_converges_witness :
  let lo := (example_sidecar (&"aa") (&"private") 0 5, Some Private) in
  let hi := (example_sidecar (&"aa") (&"private") 1 5, Some Private) in
  exists w, w ∈ [lo; hi] /\ @sidecar_merge toy_digest toy_sidecar_codec w.1 w.2 lo.1 lo.2 ≠ MB.
Proof.
  intros lo hi.
  destruct (sidecar_merge_converges (D := toy_digest) (JS := toy_sidecar_codec) [lo; hi])
    as (w & Hw & Hb & _).
  - discriminate.
  - intros x y _ _ E. exact E.
  - exists w. split; [exact Hw | apply Hb; constructor].
Defined.

End Decide.
