(* ===== verification/Storage.v ===== *)
(** * Object storage and the programs that run on it (src/storage.rs)

    A bucket is a map from keys to objects with an etag. The operations of the
    [Storage] trait are single atomic steps; a handler is a program of such
    steps ([prog]), so other nodes may act between any two of them. Programs are
    run in two ways: [run] executes one alone with every operation succeeding,
    and [steps] interleaves any number of them, each operation succeeding or
    failing (before its effect, after it, or, for a delete, half-way). *)
From Stdlib Require Import FunctionalExtensionality.
From stdpp Require Import functions.
From S2P Require Import Prelude RustStr.

Module Storage.

(** Errors: the typed [NotFound], any other storage failure, a parse failure of
    a stored body, a typed lost race ([Contended]), and the [bail!]s of the
    program itself. *)
Inductive error :=
  | NotFound
  | StorageFailure
  | Corrupt
  | Contended (what : str)
  | Bail (what : str).

#[global] Instance error_eq_dec : EqDecision error.
Proof. solve_decision. Defined.

Definition is_not_found (e : error) : bool := bool_decide (e = NotFound).

Abbreviation res := (result error).

Record object := MkObject {
  obj_bytes : str;
  obj_etag : str;
  (** the listing's modification time, if it has a readable one *)
  obj_modified : option Z
}.

Record store := MkStore {
  objects : gmap str object;
  (** writes accepted so far: the version axis of generation-numbered stores *)
  writes : nat
}.

(** Conditional-write tokens. S3 and disk derive them from the content, GCS
    from the object generation; either way one token stands for one content. *)
Class Etags := {
  mk_etag : nat -> str -> str;
  etag_content : forall n b n' b', mk_etag n b = mk_etag n' b' -> b = b';
  (** the version a listing shows for an object's token, if the backend has one:
      two listings agree on it only over one content *)
  listed_etag : str -> option str;
  listed_content : forall n b n' b' v,
    listed_etag (mk_etag n b) = Some v -> listed_etag (mk_etag n' b') = Some v -> b = b'
}.

(** A directory entry and an object of a flat listing. *)
Record FileEntry := MkEntry {
  entry_key : str;
  entry_size : Z;
  last_modified : option Z;
  (** the listing's version token, where the backend lists one *)
  entry_etag : option str
}.
Record ObjectMeta := MkMeta {
  meta_key : str;
  meta_size : Z;
  (** the listing's version token, empty where the backend lists none *)
  meta_etag : str
}.

(** The operations of [trait Storage] the protocol uses, with their result
    types, and the reads outside storage (claim and marker nonces, wall clock, the topology
    fence, local spool files). *)
Inductive op : Type -> Type :=
  | GetBytes (key : str) : op (res str)
  | HeadExists (key : str) : op (res bool)
  | PutBytes (key bytes : str) : op (res unit)
  | PutIfAbsent (key bytes : str) : op (res bool)
  | GetWithEtag (key : str) : op (res (option (str * str)))
  | PutIfNoneMatch (key bytes : str) : op (res (option str))
  | PutIfMatch (key etag bytes : str) : op (res (option str))
  | DeleteKeys (keys : list str) : op (res unit)
  | ListDirEntries (prefix : str) : op (res (list FileEntry))
  | ListAll (prefix : str) : op (res (list ObjectMeta))
  | ListPage (prefix : str) (after : option str) (limit : nat) : op (res (list ObjectMeta))
  | HeadEtag (key : str) : op (res (option str))
  | StoredSize (key : str) : op (res (option Z))
  | FreshNonce : op str
  | MarkerNonce : op str
  | Now : op Z
  (** [state.mutations_fenced()]: the node's topology fence *)
  | MutationsFenced : op bool
  (** writing or reading back a local spool file that holds [content] *)
  | LocalFile (content : str) : op (res str).

(** What the environment supplies: the clock, the next nonce, and the
    modification time a write is stamped with, and the topology fence. *)
Record env := MkEnv {
  env_now : Z;
  env_nonce : str;
  env_marker : str;
  env_stamp : option Z;
  env_fenced : bool
}.

Section semantics.
Context {E : Etags}.

Definition write (v : env) (s : store) (key bytes : str) : store * str :=
  let etag := mk_etag (S (writes s)) bytes in
  (MkStore (<[key := MkObject bytes etag (env_stamp v)]> (objects s)) (S (writes s)), etag).

Definition delete_all (keys : list str) (s : store) : store :=
  MkStore (foldr delete (objects s) keys) (writes s).

(** Immediate entries of a directory prefix. *)
Definition in_dir (prefix key : str) : bool :=
  match strip_prefix prefix key with
  | Some rest => negb (contains_byte "/"%char rest)
  | None => false
  end.

(** Listings come back sorted by key. *)
Definition key_le (x y : str * object) : Prop := leb x.1 y.1 = true.
#[global] Instance key_le_dec x y : Decision (key_le x y).
Proof. unfold key_le. apply _. Defined.

Definition list_where (f : str -> bool) (s : store) : list (str * object) :=
  merge_sort key_le (filter (fun p => f p.1 = true) (map_to_list (objects s))).

Definition entry_of (p : str * object) : FileEntry :=
  MkEntry p.1 (Z.of_nat (length (obj_bytes p.2))) (obj_modified p.2) (listed_etag (obj_etag p.2)).
Definition meta_of (p : str * object) : ObjectMeta :=
  MkMeta p.1 (Z.of_nat (length (obj_bytes p.2))) (default [] (listed_etag (obj_etag p.2))).

Definition list_all (prefix : str) (s : store) : list ObjectMeta :=
  meta_of <$> list_where (starts_with prefix) s.

(** [obj.key.as_str() > a] *)
Definition is_after (after : option str) (key : str) : bool :=
  match after with Some a => negb (leb key a) | None => true end.

(** [Storage::list_page]: the next [limit] objects after a key. *)
Definition list_page (prefix : str) (after : option str) (limit : nat) (s : store) : list ObjectMeta :=
  take limit (filter (fun o => is_after after (meta_key o) = true) (list_all prefix s)).

(** One operation, succeeding. *)
Definition op_run (v : env) (s : store) {R} (o : op R) : store * R :=
  match o in op R return store * R with
  | GetBytes key => (s, match objects s !! key with
                        | Some obj => Ok (obj_bytes obj)
                        | None => Err NotFound
                        end)
  | HeadExists key => (s, Ok (bool_decide (is_Some (objects s !! key))))
  | PutBytes key bytes => ((write v s key bytes).1, Ok tt)
  | PutIfAbsent key bytes =>
    match objects s !! key with
    | Some _ => (s, Ok false)
    | None => ((write v s key bytes).1, Ok true)
    end
  | GetWithEtag key =>
    (s, Ok ((fun obj => (obj_bytes obj, obj_etag obj)) <$> objects s !! key))
  | PutIfNoneMatch key bytes =>
    match objects s !! key with
    | Some _ => (s, Ok None)
    | None => ((write v s key bytes).1, Ok (Some (write v s key bytes).2))
    end
  | PutIfMatch key etag bytes =>
    match objects s !! key with
    | Some obj => if decide (obj_etag obj = etag)
                  then ((write v s key bytes).1, Ok (Some (write v s key bytes).2))
                  else (s, Ok None)
    | None => (s, Ok None)
    end
  | DeleteKeys keys => (delete_all keys s, Ok tt)
  | ListDirEntries prefix =>
    (s, Ok (entry_of <$> list_where (in_dir prefix) s))
  | ListAll prefix => (s, Ok (list_all prefix s))
  | ListPage prefix after limit => (s, Ok (list_page prefix after limit s))
  | HeadEtag key => (s, Ok (obj_etag <$> objects s !! key))
  | StoredSize key => (s, Ok ((fun obj => Z.of_nat (length (obj_bytes obj))) <$> objects s !! key))
  | FreshNonce => (s, env_nonce v)
  | MarkerNonce => (s, env_marker v)
  | Now => (s, env_now v)
  | MutationsFenced => (s, env_fenced v)
  | LocalFile content => (s, Ok content)
  end.

(** The failing answer of a fallible operation. *)
Definition op_fail {R} (o : op R) : option R :=
  match o in op R return option R with
  | FreshNonce => None
  | MarkerNonce => None
  | Now => None
  | MutationsFenced => None
  | LocalFile _ => Some (Err StorageFailure)
  | GetBytes _ => Some (Err StorageFailure)
  | HeadExists _ => Some (Err StorageFailure)
  | PutBytes _ _ => Some (Err StorageFailure)
  | PutIfAbsent _ _ => Some (Err StorageFailure)
  | GetWithEtag _ => Some (Err StorageFailure)
  | PutIfNoneMatch _ _ => Some (Err StorageFailure)
  | PutIfMatch _ _ _ => Some (Err StorageFailure)
  | DeleteKeys _ => Some (Err StorageFailure)
  | ListDirEntries _ => Some (Err StorageFailure)
  | ListAll _ => Some (Err StorageFailure)
  | ListPage _ _ _ => Some (Err StorageFailure)
  | HeadEtag _ => Some (Err StorageFailure)
  | StoredSize _ => Some (Err StorageFailure)
  end.

(** A failed delete may have removed the first keys already. *)
Definition partial_effects {R} (o : op R) (s : store) : list store :=
  match o with
  | DeleteKeys keys => (fun n => delete_all (take n keys) s) <$> seq 0 (length keys)
  | _ => []
  end.

(** A nonce is 128 bits of lowercase hex (the shape every generator has). *)
Definition is_nonce (n : str) : Prop := length n = 32%nat /\ Forall is_ascii_hexdigit n.

(** A marker nonce: numbers and entropy in hex, separated by dashes. *)
Definition marker_byte (c : ascii) : bool := is_ascii_hexdigit c || bool_decide (c = "-"%char).
Definition is_marker_nonce (n : str) : Prop := Forall marker_byte n.
Definition good_env (v : env) : Prop := is_nonce (env_nonce v) /\ is_marker_nonce (env_marker v).

(** One operation in a fallible environment. *)
Inductive op_step {R} (o : op R) (s : store) : R -> store -> Prop :=
  | op_succeeds v : good_env v -> op_step o s (op_run v s o).2 (op_run v s o).1
  | op_fails r : op_fail o = Some r -> op_step o s r s
  | op_fails_after_effect v r : op_fail o = Some r -> op_step o s r (op_run v s o).1
  | op_fails_midway r s' :
      op_fail o = Some r -> s' ∈ partial_effects o s -> op_step o s r s'.

(** ** Programs *)

Inductive prog (A : Type) : Type :=
  | Ret (a : A)
  | Do (R : Type) (bucket : nat) (o : op R) (k : R -> prog A).

End semantics.

Arguments Ret {A} a.
Arguments Do {A R} bucket o k.

Fixpoint pbind {A B} (p : prog A) (f : A -> prog B) : prog B :=
  match p with
  | Ret a => f a
  | Do b o k => Do b o (fun r => pbind (k r) f)
  end.

Lemma pbind_ret A B (a : A) (f : A -> prog B) : pbind (Ret a) f = f a.
Proof. done. Qed.

(** One storage operation as a program. *)
Definition call {R} (bucket : nat) (o : op R) : prog R := Do bucket o Ret.

(** Sequencing of fallible programs: the [?] of async code. *)
Definition pbind_ok {A B} (p : prog (res A)) (f : A -> prog (res B)) : prog (res B) :=
  pbind p (fun r => match r with Ok a => f a | Err e => Ret (Err e) end).

Notation "'let*' x ':=' p 'in' k" := (pbind p (fun x => k))
  (at level 10, x pattern, k at level 200) : rust_scope.
Notation "'let*?' x ':=' p 'in' k" := (pbind_ok p (fun x => k))
  (at level 10, x pattern, k at level 200) : rust_scope.

(** [for x in l { body }] with early exit on error. *)
Fixpoint pfor {A S} (l : list A) (st : S) (body : S -> A -> prog (res S)) : prog (res S) :=
  match l with
  | [] => Ret (Ok st)
  | x :: l => pbind_ok (body st x) (fun st => pfor l st body)
  end.

Abbreviation world := (nat -> store).
Abbreviation after_key after := (fun o => is_after after (meta_key o) = true).

Section running.
Context {E : Etags}.

(** A program alone, every operation succeeding. *)
Fixpoint run {A} (v : env) (w : world) (p : prog A) : world * A :=
  match p with
  | Ret a => (w, a)
  | Do b o k => let '(s, r) := op_run v (w b) o in run v (<[b := s]> w) (k r)
  end.

(** A program alone in a fallible environment: any answer and effect an
    operation may have. *)
Fixpoint exec {A} (p : prog A) (w : world) (a : A) (w' : world) : Prop :=
  match p with
  | Ret x => a = x /\ w' = w
  | Do b o k => exists r s, op_step o (w b) r s /\ exec (k r) (<[b := s]> w) a w'
  end.

(** [I] holds at every moment of every fallible execution, a crash at any point
    included, and [Q] of the answer and the world it ends in. *)
Fixpoint holds {A} (I : world -> Prop) (Q : A -> world -> Prop) (p : prog A) (w : world) : Prop :=
  I w /\ match p with
         | Ret a => Q a w
         | Do b o k => forall r s, op_step o (w b) r s -> holds I Q (k r) (<[b := s]> w)
         end.

(** Interleaved execution of any number of programs. *)
Inductive step : world * list (prog unit) -> world * list (prog unit) -> Prop :=
  | step_thread w ts i R b (o : op R) k r s :
      ts !! i = Some (Do b o k) -> op_step o (w b) r s ->
      step (w, ts) (<[b := s]> w, <[i := k r]> ts).

(** A client program, its answer dropped. *)
Definition thread {A} (p : prog A) : prog unit := pbind p (fun _ => Ret tt).

(** ** Rely/guarantee reasoning *)

(** Every object's token was issued for its content. *)
Definition wf_store (s : store) : Prop :=
  forall key obj, objects s !! key = Some obj -> exists n, obj_etag obj = mk_etag n (obj_bytes obj).
Definition wf_world (w : world) : Prop := forall b, wf_store (w b).

(** A token that stands for a content. *)
Definition attests (etag bytes : str) : Prop := exists n, etag = mk_etag n bytes.

(** What an answer tells its caller, in any well-formed store. *)
Definition sound_answer {R} (o : op R) : R -> Prop :=
  match o in op R return R -> Prop with
  | GetWithEtag _ => fun r => forall bytes etag, r = Ok (Some (bytes, etag)) -> attests etag bytes
  | PutIfNoneMatch _ bytes => fun r => forall etag, r = Ok (Some etag) -> attests etag bytes
  | PutIfMatch _ _ bytes => fun r => forall etag, r = Ok (Some etag) -> attests etag bytes
  | FreshNonce => is_nonce
  | MarkerNonce => is_marker_nonce
  | LocalFile content => fun r => forall c, r = Ok c -> c = content
  | ListDirEntries prefix => fun r =>
      forall entries, r = Ok entries -> Forall (fun e => in_dir prefix (entry_key e) = true) entries
  | ListPage prefix _ _ => fun r =>
      forall page, r = Ok page -> Forall (fun o => starts_with prefix (meta_key o) = true) page
  | _ => fun _ => True
  end.

(** Programs all of whose operations are allowed by [G] and whose result
    satisfies [Q], as long as the answers are sound. *)
Fixpoint guar (G : nat -> forall R, op R -> Prop) {A} (Q : A -> Prop) (p : prog A) : Prop :=
  match p with
  | Ret a => Q a
  | Do b o k => G b _ o /\ forall r, sound_answer o r -> guar G Q (k r)
  end.

Definition guar_threads (G : nat -> forall R, op R -> Prop) (ts : list (prog unit)) : Prop :=
  Forall (guar G (fun _ => True)) ts.

Lemma guar_mono G A (Q Q' : A -> Prop) p :
  (forall a, Q a -> Q' a) -> guar G Q p -> guar G Q' p.
Proof.
  intros HQ. induction p as [a|R b o k IH]; simpl; [apply HQ|].
  intros [HG Hk]. split; [done|]. intros r Hr. by apply IH, Hk.
Qed.

Lemma guar_weaken (G G' : nat -> forall R, op R -> Prop) A (Q : A -> Prop) p :
  (forall b R (o : op R), G b R o -> G' b R o) -> guar G Q p -> guar G' Q p.
Proof.
  intros HG. induction p as [a|R b o k IH]; simpl; [done|].
  intros [Ho Hk]. split; [by apply HG|]. intros r Hr. by apply IH, Hk.
Qed.

Lemma guar_bind G A B (Q : A -> Prop) (Q' : B -> Prop) p f :
  guar G Q p -> (forall a, Q a -> guar G Q' (f a)) -> guar G Q' (pbind p f).
Proof.
  induction p as [a|R b o k IH]; simpl; [by auto|].
  intros [HG Hk] Hf. split; [done|]. intros r Hr. by apply IH; [apply Hk|].
Qed.

(** Under [?]: the error path ends the program. *)
Lemma guar_bind_ok G A B (Q : res A -> Prop) (Q' : res B -> Prop) p f :
  guar G Q p -> (forall a, Q (Ok a) -> guar G Q' (f a)) ->
  (forall e, Q (Err e) -> Q' (Err e)) -> guar G Q' (pbind_ok p f).
Proof.
  intros Hp Hf He. unfold pbind_ok. eapply guar_bind; [done|]. intros [a|e] HQ; simpl; auto.
Qed.

Lemma guar_call G R b (o : op R) (Q : R -> Prop) :
  G b R o -> (forall r, sound_answer o r -> Q r) -> guar G Q (call b o).
Proof. intros HG HQ. by split. Qed.

Lemma guar_call_ok (G : nat -> forall R, op R -> Prop) A B b (o : op (res A)) (Q : res B -> Prop) k :
  G b _ o -> (forall a, sound_answer o (Ok a) -> guar G Q (k a)) -> (forall e, Q (Err e)) ->
  guar G Q (pbind_ok (call b o) k).
Proof. intros HG Hk He. split; [done|]. intros [a|e] Hr; [by apply Hk | apply He]. Qed.

Lemma guar_call_bind (G : nat -> forall R, op R -> Prop) R B b (o : op R) (Q : B -> Prop) k :
  G b _ o -> (forall r, sound_answer o r -> guar G Q (k r)) -> guar G Q (pbind (call b o) k).
Proof. by split. Qed.

Lemma guar_thread G A (Q : A -> Prop) p : guar G Q p -> guar G (fun _ => True) (thread p).
Proof. intros Hp. eapply guar_bind; [done | done]. Qed.

(** *** The store stays well-formed and its answers are sound *)

Lemma wf_write v s key bytes : wf_store s -> wf_store (write v s key bytes).1.
Proof.
  intros Hs k obj. simpl. rewrite lookup_insert_Some. intros [[<- <-]|[_ Hk]]; simpl; eauto.
Qed.

Lemma lookup_delete_all keys s k :
  objects (delete_all keys s) !! k = if decide (k ∈ keys) then None else objects s !! k.
Proof.
  unfold delete_all; cbn [objects].
  induction keys as [|x keys IH]; [by rewrite decide_False by apply not_elem_of_nil|].
  cbn [foldr]. destruct (decide (k = x)) as [->|Hx].
  - by rewrite lookup_delete_eq, decide_True by apply list_elem_of_here.
  - rewrite lookup_delete_ne, IH by done. apply decide_ext.
    rewrite elem_of_cons. naive_solver.
Qed.

Lemma wf_delete_all keys s : wf_store s -> wf_store (delete_all keys s).
Proof.
  intros Hs k obj. rewrite lookup_delete_all. case_decide; [done | apply Hs].
Qed.

Lemma wf_op_run v s R (o : op R) : wf_store s -> wf_store (op_run v s o).1.
Proof.
  intros Hs. pose proof (wf_write v s) as Hw. destruct o; simpl; try done.
  - by apply Hw.
  - case_match; [done | by apply Hw].
  - case_match; [done | by apply Hw].
  - case_match; [|done]. case_decide; [by apply Hw | done].
  - by apply wf_delete_all.
Qed.

Lemma wf_op_step R (o : op R) s r s' : wf_store s -> op_step o s r s' -> wf_store s'.
Proof.
  intros Hs Hstep. destruct Hstep as [v _|r _|v r _|r s' _ Hp]; [by apply wf_op_run|done|by apply wf_op_run|].
  destruct o; simpl in Hp; try by apply not_elem_of_nil in Hp.
  apply list_elem_of_fmap in Hp as (n & -> & _). by apply wf_delete_all.
Qed.

Lemma op_step_sound R (o : op R) s r s' : wf_store s -> op_step o s r s' -> sound_answer o r.
Proof.
  intros Hs Hstep.
  assert (forall r, op_fail o = Some r -> sound_answer o r) as Hfail.
  { intros x Hx. destruct o; simpl in *; naive_solver. }
  destruct Hstep as [v Hn|r Hr|v r Hr|r s' Hr _]; auto.
  destruct o; simpl; try done.
  - intros bytes etag. destruct (objects s !! key) as [obj|] eqn:Hobj; simpl; [|done].
    intros [= <- <-]. by eapply Hs.
  - intros etag. case_match; simpl; [done|]. intros [= <-]. unfold attests. eauto.
  - intros e. case_match; simpl; [|done]. case_decide; simpl; [|done].
    intros [= <-]. unfold attests. eauto.
  - intros entries [= <-]. apply Forall_fmap, Forall_forall. intros p Hp. unfold list_where in Hp.
    rewrite merge_sort_Permutation in Hp. by apply list_elem_of_filter in Hp as [? _].
  - intros page [= <-]. unfold list_page, list_all, list_where. apply Forall_take, Forall_forall.
    intros o [_ Ho]%list_elem_of_filter. apply list_elem_of_fmap in Ho as (p & -> & Hp).
    rewrite merge_sort_Permutation in Hp. by apply list_elem_of_filter in Hp as [? _].
  - apply Hn.
  - apply Hn.
  - by intros c [= <-].
Qed.

(** *** What the guarantees of the threads say about every execution *)

Definition respects (G : nat -> forall R, op R -> Prop) (T : nat -> relation store) : Prop :=
  forall b R (o : op R) s r s', G b R o -> wf_store s -> op_step o s r s' -> T b s s'.

Lemma step_guar G T c c' :
  respects G T -> step c c' -> wf_world c.1 -> guar_threads G c.2 ->
  wf_world c'.1 /\ guar_threads G c'.2 /\ forall b, T b (c.1 b) (c'.1 b) \/ c.1 b = c'.1 b.
Proof.
  intros HT Hstep Hw Ht. destruct Hstep as [w ts i R b o k r s Hi Hs]. simpl in *.
  unfold guar_threads in *. rewrite Forall_lookup in Ht.
  pose proof (Ht i _ Hi) as [HG Hk]. pose proof (op_step_sound _ _ _ _ _ (Hw b) Hs) as Hr.
  split; [|split].
  - intros c. destruct (decide (b = c)) as [<-|Hne].
    + rewrite fn_lookup_insert. by eapply wf_op_step.
    + rewrite fn_lookup_insert_ne by done. apply Hw.
  - apply Forall_insert; [by rewrite Forall_lookup | by apply Hk].
  - intros c. destruct (decide (b = c)) as [<-|Hne].
    + rewrite fn_lookup_insert. left. by eapply HT.
    + rewrite fn_lookup_insert_ne by done. by right.
Qed.

(** Along any execution, each bucket moves only by the transitions the
    guarantees allow. *)
Lemma steps_guar G T c c' :
  respects G T -> rtc step c c' -> wf_world c.1 -> guar_threads G c.2 ->
  wf_world c'.1 /\ guar_threads G c'.2 /\ forall b, rtc (T b) (c.1 b) (c'.1 b).
Proof.
  intros HT Hr. induction Hr as [c|c1 c2 c3 Hstep Hr IH]; intros Hw Ht.
  { done. }
  destruct (step_guar _ _ _ _ HT Hstep Hw Ht) as (Hw2 & Ht2 & H12).
  destruct (IH Hw2 Ht2) as (Hw3 & Ht3 & H23). do 2 (split; [done|]).
  intros b. destruct (H12 b) as [H|H]; [|rewrite H; apply H23].
  eapply rtc_l; [done | apply H23].
Qed.

(** Programs of reads: they leave the world as it is. *)
Definition is_read {R} (o : op R) : bool :=
  match o with
  | PutBytes _ _ => false
  | PutIfAbsent _ _ => false
  | PutIfNoneMatch _ _ => false
  | PutIfMatch _ _ _ => false
  | DeleteKeys _ => false
  | _ => true
  end.
Definition reads (b : nat) (R : Type) (o : op R) : Prop := is_read o = true.

Lemma is_read_run v s R (o : op R) : is_read o = true -> (op_run v s o).1 = s.
Proof. by destruct o. Qed.

Lemma op_step_read R (o : op R) s r s' : is_read o = true -> op_step o s r s' -> s' = s.
Proof.
  intros Hr Hstep. destruct Hstep as [v _|r _|v r _|r s' _ Hp]; try done; try by apply is_read_run.
  destruct o; simpl in *; try done; by apply elem_of_nil in Hp.
Qed.

(** *** What one operation does to one key *)

Definition contents (s : store) (key : str) : option str := obj_bytes <$> objects s !! key.

(** The changes of [key]'s content an operation may make. *)
Definition effect_on {R} (o : op R) (key : str) (old new : option str) : Prop :=
  new = old \/
  match o with
  | PutBytes k bytes => k = key /\ new = Some bytes
  | PutIfAbsent k bytes => k = key /\ old = None /\ new = Some bytes
  | PutIfNoneMatch k bytes => k = key /\ old = None /\ new = Some bytes
  | PutIfMatch k etag bytes =>
    k = key /\ (exists was, old = Some was /\ attests etag was) /\ new = Some bytes
  | DeleteKeys keys => key ∈ keys /\ new = None
  | _ => False
  end.

Lemma contents_write v s k bytes key :
  contents (write v s k bytes).1 key = if decide (k = key) then Some bytes else contents s key.
Proof.
  unfold contents; simpl. case_decide as H.
  - subst. by rewrite lookup_insert_eq.
  - by rewrite lookup_insert_ne.
Qed.

Lemma contents_delete_all keys s key :
  contents (delete_all keys s) key = if decide (key ∈ keys) then None else contents s key.
Proof. unfold contents. rewrite lookup_delete_all. by case_decide. Qed.

Lemma op_run_effect v s R (o : op R) key :
  wf_store s -> effect_on o key (contents s key) (contents (op_run v s o).1 key).
Proof.
  intros Hs. unfold effect_on.
  destruct o as [| |k bytes|k bytes| |k bytes|k etag bytes|keys| | | | | | | | | |];
    cbn [op_run fst]; try (by left).
  - rewrite contents_write. case_decide; [by right | by left].
  - destruct (objects s !! k) eqn:Hk; [by left|]. cbn [fst]. rewrite contents_write.
    case_decide; [subst; right | by left]. unfold contents. by rewrite Hk.
  - destruct (objects s !! k) eqn:Hk; [by left|].
    cbn [fst]. rewrite contents_write. case_decide; [subst; right | by left].
    unfold contents. by rewrite Hk.
  - destruct (objects s !! k) as [obj|] eqn:Hk; [|by left].
    case_decide as He; [|by left].
    cbn [fst]. rewrite contents_write. case_decide; [subst; right | by left].
    split; [done|]. split; [|done]. exists (obj_bytes obj). unfold contents. rewrite Hk.
    split; [done|]. by eapply Hs.
  - cbn [fst]. rewrite contents_delete_all. case_decide; [by right | by left].
Qed.

Lemma op_step_effect R (o : op R) s r s' key :
  wf_store s -> op_step o s r s' -> effect_on o key (contents s key) (contents s' key).
Proof.
  intros Hs Hstep. destruct Hstep as [v _|r _|v r _|r s' _ Hp]; try by apply op_run_effect.
  { by left. }
  destruct o; simpl in Hp; try by apply not_elem_of_nil in Hp.
  apply list_elem_of_fmap in Hp as (n & -> & _). unfold effect_on.
  rewrite contents_delete_all. case_decide as Hk; [right | by left].
  split; [|done]. by eapply elem_of_take in Hk as (? & ? & _); eapply list_elem_of_lookup_2.
Qed.

(** A conditional write that goes through replaces exactly the content its
    token was issued for. *)
Lemma attests_inj etag b b' : attests etag b -> attests etag b' -> b = b'.
Proof. intros [n ->] [n' H]. by eapply etag_content. Qed.

(** Presence of a key, and the only way to lose it. *)
Definition present (s : store) (key : str) : Prop := is_Some (contents s key).

Definition deletes {R} (o : op R) (key : str) : Prop :=
  match o with DeleteKeys keys => key ∈ keys | _ => False end.

Lemma op_step_present R (o : op R) s r s' key :
  wf_store s -> op_step o s r s' -> present s key -> ~ deletes o key -> present s' key.
Proof.
  intros Hs Hstep Hp Hd. unfold present in *.
  destruct (op_step_effect _ _ _ _ _ key Hs Hstep) as [->|He]; [done|].
  destruct o; simpl in *; naive_solver.
Qed.

(** What two answers tell about presence. *)
Lemma put_if_absent_present key bytes r c s s' :
  op_step (PutIfAbsent key bytes) s r s' -> r = Ok c -> present s' key.
Proof.
  intros Hstep Hr. destruct Hstep as [v Hv|r Hf|v r Hf|r s1 Hf];
    cbn [op_run op_fail fst snd] in *; simplify_eq; try done.
  unfold present. destruct (objects s !! key) as [obj|] eqn:Hobj; cbn [fst].
  - unfold contents. by rewrite Hobj.
  - by rewrite contents_write, decide_True.
Qed.

Lemma head_exists_present key r s s' :
  op_step (HeadExists key) s r s' -> r = Ok true -> present s key.
Proof.
  intros Hstep Hr. destruct Hstep as [v Hv|r Hf|v r Hf|r s1 Hf]; simpl in *; simplify_eq; try done.
  apply bool_decide_eq_true in Hr as [obj Hobj]. unfold present, contents. by rewrite Hobj.
Qed.

Lemma head_exists_answer key r s s' c :
  op_step (HeadExists key) s r s' -> r = Ok c -> (c = true <-> present s key).
Proof.
  intros Hstep Hr. destruct Hstep as [v Hv|r Hf|v r Hf|r s1 Hf]; simpl in *; simplify_eq; try done.
  rewrite bool_decide_eq_true. unfold present, contents. by rewrite fmap_is_Some.
Qed.

Lemma list_dir_answer prefix r s s' entries :
  op_step (ListDirEntries prefix) s r s' -> r = Ok entries ->
  entries = entry_of <$> list_where (in_dir prefix) s.
Proof.
  intros Hstep Hr. by destruct Hstep as [v Hv|r Hf|v r Hf|r s1 Hf]; simpl in *; simplify_eq.
Qed.

Lemma list_all_answer prefix r s s' entries :
  op_step (ListAll prefix) s r s' -> r = Ok entries -> entries = list_all prefix s.
Proof.
  intros Hstep Hr. destruct Hstep as [v Hv|r Hf|v r Hf|r s1 Hf]; simpl in *; by simplify_eq.
Qed.

Lemma list_page_answer prefix after limit r s s' page :
  op_step (ListPage prefix after limit) s r s' -> r = Ok page -> page = list_page prefix after limit s.
Proof.
  intros Hstep Hr. by destruct Hstep as [v Hv|r Hf|v r Hf|r s1 Hf]; simpl in *; simplify_eq.
Qed.

Lemma elem_of_list_where f s p :
  p ∈ list_where f s <-> f p.1 = true /\ objects s !! p.1 = Some p.2.
Proof.
  unfold list_where. rewrite merge_sort_Permutation, list_elem_of_filter. destruct p as [k o].
  by rewrite elem_of_map_to_list.
Qed.

(** What a read answers. *)
Lemma get_bytes_answer key r s s' bytes :
  op_step (GetBytes key) s r s' -> r = Ok bytes -> contents s key = Some bytes.
Proof.
  intros Hstep Hr. destruct Hstep as [v Hv|r Hf|v r Hf|r s1 Hf]; simpl in *; simplify_eq; try done.
  unfold contents. destruct (objects s !! key); simpl in *; by simplify_eq.
Qed.

Lemma get_bytes_not_found key r s s' :
  op_step (GetBytes key) s r s' -> r = Err NotFound -> contents s key = None.
Proof.
  intros Hstep Hr. destruct Hstep as [v Hv|r Hf|v r Hf|r s1 Hf]; simpl in *; simplify_eq; try done.
  unfold contents. by destruct (objects s !! key).
Qed.

Lemma put_if_absent_created key bytes r s s' :
  op_step (PutIfAbsent key bytes) s r s' -> r = Ok true -> contents s' key = Some bytes.
Proof.
  intros Hstep Hr. destruct Hstep as [v Hv|r Hf|v r Hf|r s1 Hf];
    cbn [op_run op_fail fst snd] in *; simplify_eq; try done.
  destruct (objects s !! key) as [obj|] eqn:Hobj; cbn [fst snd] in *; [done|].
  by rewrite contents_write, decide_True.
Qed.

Lemma put_if_absent_was_absent key bytes r s s' :
  op_step (PutIfAbsent key bytes) s r s' -> r = Ok true -> contents s key = None.
Proof.
  intros Hstep Hr. destruct Hstep as [v Hv|r Hf|v r Hf|r s1 Hf];
    cbn [op_run op_fail fst snd] in *; simplify_eq; try done.
  unfold contents. by destruct (objects s !! key).
Qed.

Lemma put_if_absent_taken key bytes r s s' :
  op_step (PutIfAbsent key bytes) s r s' -> r = Ok false -> s' = s /\ present s key.
Proof.
  intros Hstep Hr. destruct Hstep as [v Hv|r Hf|v r Hf|r s1 Hf];
    cbn [op_run op_fail fst snd] in *; simplify_eq; try done.
  unfold present, contents. destruct (objects s !! key); [done|]. by simplify_eq/=.
Qed.

Lemma put_bytes_answer key bytes r s s' :
  op_step (PutBytes key bytes) s r s' -> r = Ok tt -> contents s' key = Some bytes.
Proof.
  intros Hstep Hr. destruct Hstep as [v Hv|r Hf|v r Hf|r s1 Hf];
    cbn [op_run op_fail fst snd] in *; simplify_eq; try done.
  by rewrite contents_write, decide_True.
Qed.

Lemma put_if_none_match_answer key bytes r s s' e :
  op_step (PutIfNoneMatch key bytes) s r s' -> r = Ok (Some e) -> contents s' key = Some bytes.
Proof.
  intros Hstep Hr. destruct Hstep as [v Hv|r Hf|v r Hf|r s1 Hf];
    cbn [op_run op_fail fst snd] in *; simplify_eq; try done.
  destruct (objects s !! key); [done|]. cbn [fst]. by rewrite contents_write, decide_True.
Qed.

(** A conditional write that went through replaced what its token stood for. *)
Lemma put_if_match_answer key etag bytes r s s' new :
  wf_store s -> op_step (PutIfMatch key etag bytes) s r s' -> r = Ok (Some new) ->
  contents s' key = Some bytes /\ exists was, contents s key = Some was /\ attests etag was.
Proof.
  intros Hw Hstep Hr. destruct Hstep as [v Hv|r Hf|v r Hf|r s1 Hf];
    cbn [op_run op_fail fst snd] in *; simplify_eq; try done.
  unfold contents at 2. destruct (objects s !! key) as [obj|] eqn:Hobj; [|done].
  case_decide; [|done]. subst. cbn [fst snd] in *. rewrite contents_write, decide_True by done.
  split; [done|]. exists (obj_bytes obj). split; [done|]. by eapply Hw.
Qed.

Lemma get_with_etag_answer key r s s' o :
  op_step (GetWithEtag key) s r s' -> r = Ok o -> fst <$> o = contents s key.
Proof.
  intros Hstep Hr. destruct Hstep as [v Hv|r Hf|v r Hf|r s1 Hf]; simpl in *; simplify_eq; try done.
  unfold contents. by destruct (objects s !! key).
Qed.

Lemma stored_size_answer key r s s' o :
  op_step (StoredSize key) s r s' -> r = Ok o ->
  o = (fun bytes => Z.of_nat (length bytes)) <$> contents s key.
Proof.
  intros Hstep Hr. destruct Hstep as [v Hv|r Hf|v r Hf|r s1 Hf]; simpl in *; simplify_eq; try done.
  unfold contents. by destruct (objects s !! key).
Qed.

Lemma local_file_answer content r s s' c :
  op_step (LocalFile content) s r s' -> r = Ok c -> c = content.
Proof.
  intros Hstep Hr. destruct Hstep as [v Hv|r Hf|v r Hf|r s1 Hf]; simpl in *; by simplify_eq.
Qed.

Lemma delete_keys_done keys r s s' u key :
  op_step (DeleteKeys keys) s r s' -> r = Ok u -> key ∈ keys -> ~ present s' key.
Proof.
  intros Hstep Hr. destruct Hstep as [v Hv|r Hf|v r Hf|r s1 Hf];
    cbn [op_run op_fail fst snd] in *; simplify_eq; try done.
  intros Hin. unfold present. rewrite contents_delete_all, decide_True by done. by intros [].
Qed.

(** An operation leaves every key it does not name as it is. *)
Definition names_key {R} (o : op R) (key : str) : Prop :=
  match o with
  | PutBytes k _ => k = key
  | PutIfAbsent k _ => k = key
  | PutIfNoneMatch k _ => k = key
  | PutIfMatch k _ _ => k = key
  | DeleteKeys keys => key ∈ keys
  | _ => False
  end.

Lemma op_step_frame R (o : op R) s r s' key :
  wf_store s -> op_step o s r s' -> ~ names_key o key -> contents s' key = contents s key.
Proof.
  intros Hs Hstep Hn. destruct (op_step_effect _ _ _ _ _ key Hs Hstep) as [->|He]; [done|].
  destruct o; simpl in *; naive_solver.
Qed.

(** *** Protocols on a family of keys

    A component owns a key per package (or one key): [mv] relates the contents
    before and after the changes its writers may make. *)
Section key_protocol.
Context {I : Type} (key : I -> str).

Definition follows (mv : option str -> option str -> Prop) (b : nat) R (o : op R) : Prop :=
  forall i,
  match o with
  | PutBytes k bytes => k = key i -> forall old, mv old (Some bytes)
  | PutIfAbsent k bytes => k = key i -> mv None (Some bytes)
  | PutIfNoneMatch k bytes => k = key i -> mv None (Some bytes)
  | PutIfMatch k etag bytes =>
    k = key i -> exists was, attests etag was /\ mv (Some was) (Some bytes)
  | DeleteKeys keys => key i ∈ keys -> forall old, mv old None
  | _ => True
  end.

(** Operations that leave the family alone. *)
Definition spares : forall (b : nat) R, op R -> Prop := follows (fun _ _ => False).

Definition keys_move (mv : option str -> option str -> Prop) (b : nat) (s s' : store) : Prop :=
  forall i, contents s' (key i) = contents s (key i) \/ mv (contents s (key i)) (contents s' (key i)).

Lemma follows_respects mv : respects (follows mv) (keys_move mv).
Proof.
  intros b R o s r s' HG Hs Hstep i. specialize (HG i).
  destruct (op_step_effect _ _ _ _ _ (key i) Hs Hstep) as [He|He]; [by left|right].
  destruct o; simpl in HG, He; try done.
  - destruct He as [-> ->]. by apply HG.
  - destruct He as (-> & -> & ->). by apply HG.
  - destruct He as (-> & -> & ->). by apply HG.
  - destruct He as (-> & (was & -> & Hwas) & ->). destruct HG as (was' & Hatt & Hm); [done|].
    by rewrite (attests_inj _ _ _ Hwas Hatt).
  - destruct He as [Hin ->]. by apply HG.
Qed.

Lemma follows_mono (mv mv' : option str -> option str -> Prop) b R (o : op R) :
  (forall x y, mv x y -> mv' x y) -> follows mv b R o -> follows mv' b R o.
Proof. intros Hm Hf i. specialize (Hf i). destruct o; naive_solver. Qed.

Lemma spares_follows mv b R (o : op R) : spares b R o -> follows mv b R o.
Proof. by apply follows_mono. Qed.

(** Whatever is interleaved, the family moves only as its writers allow. *)
Lemma steps_follow mv (w w' : world) ts ts' :
  wf_world w -> Forall (guar (follows mv) (fun _ => True)) ts -> rtc step (w, ts) (w', ts') ->
  wf_world w' /\ forall b i, rtc mv (contents (w b) (key i)) (contents (w' b) (key i)).
Proof.
  intros Hw Hts Hsteps.
  destruct (steps_guar _ _ _ _ (follows_respects mv) Hsteps Hw Hts) as (Hw' & _ & HT).
  split; [done|]. intros b i. specialize (HT b). simpl in HT.
  induction HT as [s|s s1 s' Hs _ IH]; [done|].
  destruct (Hs i) as [He|Hm]; [by rewrite <- He | by eapply rtc_l].
Qed.

End key_protocol.

(** *** Running a program alone *)

Lemma fn_insert_id (w : world) b : <[b := w b]> w = w.
Proof.
  apply functional_extensionality. intros c. destruct (decide (b = c)) as [<-|].
  - by rewrite fn_lookup_insert.
  - by rewrite fn_lookup_insert_ne.
Qed.

Lemma fn_insert_insert (w : world) b s s' : <[b := s]> (<[b := s']> w) = <[b := s]> w.
Proof.
  apply functional_extensionality. intros c. destruct (decide (b = c)) as [<-|].
  - by rewrite !fn_lookup_insert.
  - by rewrite !fn_lookup_insert_ne.
Qed.

Lemma run_bind A B v w (p : prog A) (f : A -> prog B) :
  run v w (pbind p f) = run v (run v w p).1 (f (run v w p).2).
Proof.
  revert w. induction p as [a|R b o k IH]; intros w; [done|]. cbn [pbind run].
  destruct (op_run v (w b) o) as [s r]. apply IH.
Qed.

Lemma run_bind_ok A B v w (p : prog (res A)) (f : A -> prog (res B)) :
  run v w (pbind_ok p f) =
  match (run v w p).2 with
  | Ok a => run v (run v w p).1 (f a)
  | Err e => ((run v w p).1, Err e)
  end.
Proof. unfold pbind_ok. rewrite run_bind. by destruct (run v w p) as [w' []]. Qed.

Lemma run_call R v w b (o : op R) :
  run v w (call b o) = (<[b := (op_run v (w b) o).1]> w, (op_run v (w b) o).2).
Proof. unfold call. cbn [run]. by destruct (op_run v (w b) o). Qed.

Lemma exec_bind A B (p : prog A) (f : A -> prog B) w a w' :
  exec (pbind p f) w a w' <-> exists x w1, exec p w x w1 /\ exec (f x) w1 a w'.
Proof.
  revert w. induction p as [x|R b o k IH]; intros w; simpl.
  - split; [eauto | by intros (? & ? & [-> ->] & ?)].
  - setoid_rewrite IH. naive_solver.
Qed.

Lemma holds_bind A B I Q (p : prog A) (f : A -> prog B) w :
  holds I (fun a w => holds I Q (f a) w) p w -> holds I Q (pbind p f) w.
Proof.
  revert w. induction p as [a|R b o k IH]; intros w; simpl; [by intros []|].
  intros [HI Hk]. split; [done|]. intros r s Hs. by apply IH, Hk.
Qed.

Lemma holds_bind_ok A B I (Q : res B -> world -> Prop) (p : prog (res A)) f w :
  holds I (fun r w => match r with Ok a => holds I Q (f a) w | Err e => Q (Err e) w /\ I w end) p w ->
  holds I Q (pbind_ok p f) w.
Proof.
  intros Hp. apply holds_bind. revert w Hp. induction p as [a|R b o k IH]; intros w; simpl.
  - intros [HI Ha]. split; [done|]. destruct a; [done|]. by destruct Ha.
  - intros [HI Hk]. split; [done|]. intros r s Hs. by apply IH, Hk.
Qed.

Lemma holds_mono A (I : world -> Prop) (Q Q' : A -> world -> Prop) p w :
  (forall a w, I w -> Q a w -> Q' a w) -> holds I Q p w -> holds I Q' p w.
Proof.
  intros HQ. revert w. induction p as [a|R b o k IH]; intros w; simpl; intros [HI Hk].
  - split; [done|]. by apply HQ.
  - split; [done|]. intros r s Hs. by apply IH, Hk.
Qed.

Lemma holds_ret A (I : world -> Prop) (Q : A -> world -> Prop) a w : I w -> Q a w -> holds I Q (Ret a) w.
Proof. by split. Qed.

Lemma wf_insert (w : world) b R (o : op R) r s :
  wf_world w -> op_step o (w b) r s -> wf_world (<[b := s]> w).
Proof.
  intros Hw Hs c. destruct (decide (b = c)) as [<-|Hne].
  - rewrite fn_lookup_insert. by eapply wf_op_step.
  - rewrite fn_lookup_insert_ne by done. apply Hw.
Qed.

Lemma holds_call A R I (Q : A -> world -> Prop) b (o : op R) k w :
  wf_world w -> I w ->
  (forall r s, op_step o (w b) r s -> wf_world (<[b := s]> w) -> holds I Q (k r) (<[b := s]> w)) ->
  holds I Q (pbind (call b o) k) w.
Proof. intros Hw HI Ho. split; [done|]. intros r s Hs. by apply Ho; [|eapply wf_insert]. Qed.

Lemma holds_call_ok A B I (Q : res B -> world -> Prop) b (o : op (res A)) k w :
  wf_world w -> I w ->
  (forall a s, op_step o (w b) (Ok a) s -> wf_world (<[b := s]> w) -> holds I Q (k a) (<[b := s]> w)) ->
  (forall e s, op_step o (w b) (Err e) s -> I (<[b := s]> w) /\ Q (Err e) (<[b := s]> w)) ->
  holds I Q (pbind_ok (call b o) k) w.
Proof.
  intros Hw HI Ho He. apply holds_call; [done|done|]. intros [a|e] s Hs Hw'; [by apply Ho|].
  destruct (He e s Hs). by apply holds_ret.
Qed.

Lemma holds_exec A (I : world -> Prop) (Q : A -> world -> Prop) p w a w' :
  holds I Q p w -> exec p w a w' -> Q a w'.
Proof.
  revert w. induction p as [x|R b o k IH]; intros w; simpl; intros [HI Hk].
  - by intros [-> ->].
  - intros (r & s & Hs & He). eapply IH; [by apply Hk | done].
Qed.

(** A read under [?] changes nothing. *)
Lemma holds_read_ok A B I (Q : res B -> world -> Prop) b (o : op (res A)) k w :
  is_read o = true -> I w ->
  (forall a, op_step o (w b) (Ok a) (w b) -> holds I Q (k a) w) -> (forall e, Q (Err e) w) ->
  holds I Q (pbind_ok (call b o) k) w.
Proof.
  intros Hr HI Hk He. split; [done|]. intros r s Hs. pose proof (op_step_read _ _ _ _ _ Hr Hs) as ->.
  rewrite fn_insert_id. destruct r as [a|e]; [by apply Hk | by apply holds_ret].
Qed.

Lemma exec_run A v w (p : prog A) : good_env v -> exec p w (run v w p).2 (run v w p).1.
Proof.
  intros Hv. revert w. induction p as [a|R b o k IH]; intros w; [done|].
  exists (op_run v (w b) o).2, (op_run v (w b) o).1. split; [by apply (op_succeeds _ _ v)|].
  cbn [run]. destruct (op_run v (w b) o) as [s r]. apply IH.
Qed.

Lemma exec_run_ok A v w (p : prog A) r :
  good_env v -> (run v w p).2 = r -> exec p w r (run v w p).1.
Proof. intros Hv <-. by apply exec_run. Qed.

Lemma wf_run A v w (p : prog A) : wf_world w -> wf_world (run v w p).1.
Proof.
  revert w. induction p as [a|R b o k IH]; intros w Hw; [done|]. cbn [run].
  pose proof (wf_op_run v (w b) R o (Hw b)) as Ho. destruct (op_run v (w b) o) as [s r].
  apply IH. intros c. destruct (decide (b = c)) as [<-|Hne].
  - by rewrite fn_lookup_insert.
  - rewrite fn_lookup_insert_ne by done. apply Hw.
Qed.

(** Running a thread alone is one of the interleaved executions. *)
Lemma steps_run v w (p : prog unit) :
  good_env v -> rtc step (w, [p]) ((run v w p).1, [Ret (run v w p).2]).
Proof.
  intros Hn. revert w. induction p as [a|R b o k IH]; intros w; [done|].
  eapply rtc_l; [eapply (step_thread w [Do b o k] 0); [done | by apply (op_succeeds _ _ v)]|].
  cbn [run insert list_insert]. destruct (op_run v (w b) o) as [s r]. apply IH.
Qed.

(** *** Listings are sorted, so pages tile them *)

Definition key_lt (x y : ObjectMeta) : Prop := cmp (meta_key x) (meta_key y) = Lt.

Lemma leb_strict (x y : str) : leb x y = true -> x ≠ y -> cmp x y = Lt.
Proof.
  unfold leb. intros Hle Hne. destruct (cmp x y) eqn:Hc; [|done|done].
  by apply cmp_eq_iff in Hc.
Qed.

Lemma StronglySorted_strict (l : list (str * object)) :
  StronglySorted key_le l -> NoDup (fst <$> l) -> StronglySorted key_lt (meta_of <$> l).
Proof.
  induction 1 as [|x l _ IH Hx]; cbn [fmap list_fmap]; [constructor|].
  rewrite NoDup_cons. intros [Hin Hnd]. constructor; [by apply IH|].
  rewrite Forall_fmap, Forall_forall in *. intros y Hy. apply leb_strict; [by apply Hx|].
  intros Heq. apply Hin. apply list_elem_of_fmap. by exists y.
Qed.

Lemma NoDup_fst_filter {A B} (K : A * B -> Prop) `{!forall x, Decision (K x)} (l : list (A * B)) :
  NoDup l.*1 -> NoDup (filter K l).*1.
Proof.
  induction l as [|x l IH]; intros Hl; [constructor|]. cbn [fmap list_fmap] in Hl. apply NoDup_cons in Hl as [Hx Hl].
  rewrite filter_cons. case_decide; [|by apply IH]. cbn [fmap list_fmap]. constructor; [|by apply IH].
  intros (y & Heq & Hy)%list_elem_of_fmap. apply list_elem_of_filter in Hy as [_ Hy]. apply Hx. rewrite Heq.
  by apply list_elem_of_fmap_2.
Qed.

(** A listing has each key once, in order. *)
Lemma listing_NoDup f s : NoDup (list_where f s).*1.
Proof.
  unfold list_where. rewrite (merge_sort_Permutation key_le). apply NoDup_fst_filter, NoDup_fst_map_to_list.
Qed.

Lemma listing_sorted f s : StronglySorted key_le (list_where f s).
Proof.
  apply StronglySorted_merge_sort.
  - intros x y z. unfold key_le. apply leb_trans.
  - intros x y. unfold key_le. destruct (leb x.1 y.1) eqn:Hl; [by left | right]. by apply leb_false_swap.
Qed.

Lemma list_all_sorted prefix s : StronglySorted key_lt (list_all prefix s).
Proof. apply StronglySorted_strict; [apply listing_sorted|apply listing_NoDup]. Qed.

Lemma StronglySorted_filter_after after l :
  StronglySorted key_lt l -> StronglySorted key_lt (filter (after_key after) l).
Proof.
  induction 1 as [|x l _ IH Hx]; cbn [filter list_filter]; [constructor|].
  case_decide; [|done]. constructor; [done|]. rewrite Forall_forall in *.
  intros y [_ Hy]%list_elem_of_filter. by apply Hx.
Qed.

Lemma is_after_spec (x y : str) : is_after (Some x) y = true <-> cmp x y = Lt.
Proof.
  unfold is_after, leb. rewrite (cmp_opp x y). by destruct (cmp x y).
Qed.

Lemma filter_all {A} (P : A -> Prop) `{!forall x, Decision (P x)} (l : list A) :
  (forall x, x ∈ l -> P x) -> filter P l = l.
Proof.
  induction l as [|x l IH]; [done|]. intros HP. rewrite filter_cons_True by (apply HP; left).
  f_equal. apply IH. intros y Hy. apply HP. by right.
Qed.

Lemma filter_none {A} (P : A -> Prop) `{!forall x, Decision (P x)} (l : list A) :
  (forall x, x ∈ l -> ~ P x) -> filter P l = [].
Proof.
  induction l as [|x l IH]; [done|]. intros HP. rewrite filter_cons_False by (apply HP; left).
  apply IH. intros y Hy. apply HP. by right.
Qed.

(** Asking for what follows the last entry of a page yields the rest. *)
Lemma page_rest after limit l x :
  StronglySorted key_lt l -> last (take limit (filter (after_key after) l)) = Some x ->
  filter (after_key (Some (meta_key x))) l = drop limit (filter (after_key after) l).
Proof.
  intros Hl Hx. set (F := filter (after_key after) l) in *.
  assert (StronglySorted key_lt F) as HF by by apply StronglySorted_filter_after.
  apply last_Some in Hx as [t Ht]. set (d := drop limit F).
  assert (F = (t ++ [x]) ++ d) as HFd by (by rewrite <- Ht; unfold d; rewrite take_drop).
  rewrite HFd in HF.
  assert (forall y, y ∈ t -> key_lt y x) as Hbefore.
  { intros y Hy. rewrite <- app_assoc in HF.
    eapply StronglySorted_app_1_elem_of; [done|done|]. set_solver. }
  assert (forall y, y ∈ d -> key_lt x y) as Hafter.
  { intros y Hy. eapply StronglySorted_app_1_elem_of; [done| |done]. set_solver. }
  assert (x ∈ F) as [Hxa _]%list_elem_of_filter by (rewrite HFd; set_solver).
  transitivity (filter (after_key (Some (meta_key x))) F).
  - unfold F. rewrite list_filter_filter. apply list_filter_iff. intros y. split; [|tauto].
    intros Hy. split; [done|]. destruct after as [a|]; [|done].
    apply is_after_spec in Hxa, Hy. apply is_after_spec. by eapply cmp_lt_trans.
  - rewrite HFd, filter_app, filter_app, (filter_none _ t), (filter_none _ [x]), (filter_all _ d);
      [done| | |].
    + intros y Hy. by apply is_after_spec, Hafter.
    + intros y ->%list_elem_of_singleton. by rewrite is_after_spec, cmp_refl.
    + intros y Hy Ha. apply is_after_spec in Ha. specialize (Hbefore _ Hy).
      unfold key_lt in Hbefore. by rewrite (cmp_opp (meta_key y)), Hbefore in Ha.
Qed.

Lemma reads_follows {I} (key : I -> str) mv b R (o : op R) : reads b R o -> follows key mv b R o.
Proof. intros Hr i. by destruct o. Qed.

Lemma guar_reads {I} (key : I -> str) mv A (p : prog A) :
  guar reads (fun _ => True) p -> guar (follows key mv) (fun _ => True) p.
Proof. apply guar_weaken. intros b R o. apply reads_follows. Qed.

Lemma run_read_only A (Q : A -> Prop) v w p :
  wf_world w -> good_env v -> guar reads Q p -> (run v w p).1 = w /\ Q (run v w p).2.
Proof.
  intros Hw Hn. induction p as [a|R b o k IH]; simpl; [done|]. intros [Hr Hk].
  assert ((op_run v (w b) o).1 = w b) as Hs by by apply is_read_run.
  pose proof (op_step_sound _ _ _ _ _ (Hw b) (op_succeeds o (w b) v Hn)) as Ha.
  destruct (op_run v (w b) o) as [s r]. simpl in *. subst. rewrite fn_insert_id. auto.
Qed.

(** *** Frames

    A part of a program that never names some keys of a bucket leaves their
    contents as they are, at every moment and whatever fails. *)
Definition avoids (b : nat) (P : str -> Prop) (c : nat) (R : Type) (o : op R) : Prop :=
  c = b -> forall k, P k -> ~ names_key o k.

Definition same_on (b : nat) (P : str -> Prop) (w w' : world) : Prop :=
  forall k, P k -> contents (w' b) k = contents (w b) k.

Lemma same_on_refl b P w : same_on b P w w.
Proof. by intros k _. Qed.

Lemma same_on_trans b P w w' w'' : same_on b P w w' -> same_on b P w' w'' -> same_on b P w w''.
Proof. intros H1 H2 k Hk. by rewrite H2, H1. Qed.

Lemma same_on_sub b (P P' : str -> Prop) w w' : (forall k, P' k -> P k) -> same_on b P w w' -> same_on b P' w w'.
Proof. intros HP H k Hk. by apply H, HP. Qed.

Lemma holds_and A (I I' : world -> Prop) (Q Q' : A -> world -> Prop) p w :
  holds I Q p w -> holds I' Q' p w -> holds (fun w => I w /\ I' w) (fun a w => Q a w /\ Q' a w) p w.
Proof.
  revert w. induction p as [a|R b o k IH]; intros w; intros [H1 K1] [H2 K2]; (split; [done|]); [done|].
  intros r s Hs. apply IH; [by apply K1 | by apply K2].
Qed.

Lemma holds_conseq A (I I' : world -> Prop) (Q Q' : A -> world -> Prop) p w :
  (forall w, I w -> I' w) -> (forall a w, I w -> Q a w -> Q' a w) -> holds I Q p w -> holds I' Q' p w.
Proof.
  intros HI HQ. revert w. induction p as [a|R b o k IH]; intros w; simpl; intros [Hw Hk].
  - split; [by apply HI | by apply HQ].
  - split; [by apply HI|]. intros r s Hs. by apply IH, Hk.
Qed.

Lemma same_on_step (w : world) b P c R (o : op R) r s :
  wf_world w -> avoids b P c R o -> op_step o (w c) r s -> same_on b P w (<[c := s]> w).
Proof.
  intros Hw Ha Hs k Hk. destruct (decide (c = b)) as [->|Hne].
  - rewrite fn_lookup_insert. eapply op_step_frame; [apply Hw|done|]. by apply Ha.
  - by rewrite fn_lookup_insert_ne.
Qed.

Lemma guar_frame b P A (Q : A -> Prop) p w :
  wf_world w -> guar (avoids b P) Q p ->
  holds (fun w' => wf_world w' /\ same_on b P w w')
        (fun a w' => Q a) p w.
Proof.
  intros Hw Hp.
  assert (forall w', wf_world w' -> same_on b P w w' ->
    holds (fun w' => wf_world w' /\ same_on b P w w') (fun a w' => Q a) p w') as Hall;
    [|apply Hall; [done|apply same_on_refl]].
  revert Hp. induction p as [a|R c o k IH]; intros Hp w' Hw' Hs; simpl; [done|].
  destruct Hp as [Ho Hk]. split; [done|]. intros r s Hstep. apply IH.
  - apply Hk. eapply op_step_sound; [apply Hw'|done].
  - by eapply wf_insert.
  - eapply same_on_trans; [done|]. by eapply same_on_step.
Qed.

(** A framed part of a program, then the rest. *)
Lemma holds_frame A B I Q b P (Qp : A -> Prop) (p : prog A) (f : A -> prog B) w :
  wf_world w -> guar (avoids b P) Qp p ->
  (forall w', wf_world w' -> same_on b P w w' -> I w') ->
  (forall a w', wf_world w' -> same_on b P w w' -> Qp a -> holds I Q (f a) w') ->
  holds I Q (pbind p f) w.
Proof.
  intros Hw Hp HI Hf. apply holds_bind. eapply holds_conseq; [| |exact (guar_frame _ _ _ _ _ _ Hw Hp)].
  - intros w' [? ?]. by apply HI.
  - intros a w' [? ?] ?. by apply Hf.
Qed.

Lemma holds_frame_ok A B I (Q : res B -> world -> Prop) b P (Qp : A -> Prop) (p : prog (res A)) f w :
  wf_world w -> guar (avoids b P) (fun r => match r with Ok a => Qp a | Err _ => True end) p ->
  (forall w', wf_world w' -> same_on b P w w' -> I w') ->
  (forall e w', wf_world w' -> same_on b P w w' -> Q (Err e) w') ->
  (forall a w', wf_world w' -> same_on b P w w' -> Qp a -> holds I Q (f a) w') ->
  holds I Q (pbind_ok p f) w.
Proof.
  intros Hw Hp HI He Hf. unfold pbind_ok. eapply holds_frame; [done|exact Hp|done|].
  intros [a|e] w' Hw' Hs Ha; [by apply Hf|]. apply holds_ret; [by apply HI|by apply He].
Qed.

(** The last part of a program, framed. *)
Lemma holds_framed A I Q b P (Qp : A -> Prop) (p : prog A) w :
  wf_world w -> guar (avoids b P) Qp p ->
  (forall w', wf_world w' -> same_on b P w w' -> I w') ->
  (forall a w', wf_world w' -> same_on b P w w' -> Qp a -> Q a w') -> holds I Q p w.
Proof.
  intros Hw Hp HI HQ. eapply holds_conseq; [| |exact (guar_frame _ _ _ _ _ _ Hw Hp)].
  - intros w' [? ?]. by apply HI.
  - intros a w' [? ?] ?. by apply HQ.
Qed.

Lemma reads_avoids b P c R (o : op R) : reads c R o -> avoids b P c R o.
Proof. unfold reads. intros Hr _ k _ Hn. by destruct o. Qed.

Lemma guar_reads_avoid b P A (Q : A -> Prop) (p : prog A) : guar reads Q p -> guar (avoids b P) Q p.
Proof. apply guar_weaken. intros c R o. apply reads_avoids. Qed.

(** Another bucket's operations. *)
Lemma other_avoids b P c R (o : op R) : c ≠ b -> avoids b P c R o.
Proof. by intros Hne ->. Qed.

End running.

(** ** Reasoning with knowledge

    Some steps are allowed only because of what the program has seen: a body may
    go only when its tombstone is known to stand. [Rel] is the change every
    thread promises; knowledge is a predicate of the world that [Rel] keeps. *)
Section knowledge.
Context {E : Etags} (Rel : relation world) `{!PreOrder Rel}.

Definition stable (K : world -> Prop) : Prop := forall w w', K w -> Rel w w' -> K w'.

Fixpoint keeps {A} (K : world -> Prop) (Q : A -> (world -> Prop) -> Prop) (p : prog A) : Prop :=
  match p with
  | Ret a => Q a K
  | Do b o k => forall w r s, wf_world w -> K w -> op_step o (w b) r s ->
      Rel w (<[b := s]> w)
      /\ exists K', stable K' /\ K' (<[b := s]> w) /\ keeps K' Q (k r)
  end.

Definition keeping (w : world) (p : prog unit) : Prop :=
  exists K, stable K /\ K w /\ keeps K (fun _ _ => True) p.

Lemma keeps_bind A B K Q (p : prog A) (f : A -> prog B) :
  keeps K (fun a K' => stable K' -> keeps K' Q (f a)) p -> stable K -> keeps K Q (pbind p f).
Proof.
  revert K. induction p as [a|R b o k IH]; intros K; simpl; [auto|].
  intros Hp HK w r s Hw HKw Hstep. destruct (Hp w r s Hw HKw Hstep) as (HR & K' & Hst & HK' & Hk).
  split; [done|]. exists K'. split; [done|]. split; [done|]. by apply IH.
Qed.

Lemma keeps_mono A K (Q Q' : A -> (world -> Prop) -> Prop) p :
  (forall a K', stable K' -> Q a K' -> Q' a K') -> stable K -> keeps K Q p -> keeps K Q' p.
Proof.
  intros HQ. revert K. induction p as [a|R b o k IH]; intros K HK; simpl; [auto|].
  intros Hp w r s Hw HKw Hstep. destruct (Hp w r s Hw HKw Hstep) as (HR & K' & Hst & HK' & Hk).
  split; [done|]. exists K'. eauto.
Qed.

(** Knowing more at the start does no harm. *)
Lemma keeps_strengthen A (K K' : world -> Prop) p :
  (forall w, K' w -> K w) -> keeps K (fun (_ : A) _ => True) p -> keeps K' (fun _ _ => True) p.
Proof. intros Hw. destruct p as [a|R b o k]; [done|]. intros Hp w r s Hwf HKw Hs. apply Hp; auto. Qed.

(** A program whose every step keeps the promise, whatever it knows. *)
Lemma keeps_guar A (G : nat -> forall R, op R -> Prop) K (p : prog A) :
  (forall b R (o : op R) w r s, G b R o -> wf_world w -> op_step o (w b) r s -> Rel w (<[b := s]> w)) ->
  stable K -> guar G (fun _ => True) p -> keeps K (fun _ K' => K' = K) p.
Proof.
  intros HG HK. induction p as [a|R b o k IH]; simpl; [done|]. intros [Ho Hk] w r s Hw HKw Hstep.
  assert (Rel w (<[b := s]> w)) as HR by by eapply HG.
  split; [done|]. exists K. split; [done|]. split; [by eapply HK|].
  apply IH, Hk. by eapply op_step_sound.
Qed.

(** One operation: what it teaches is a stable fact of the world after it. *)
Lemma keeps_call A R b (o : op R) K (learn : R -> world -> Prop) (Q : A -> (world -> Prop) -> Prop) k :
  stable K -> (forall r, stable (learn r)) ->
  (forall w r s, wf_world w -> K w -> op_step o (w b) r s ->
     Rel w (<[b := s]> w) /\ learn r (<[b := s]> w)) ->
  (forall r, keeps (fun w => K w /\ learn r w) Q (k r)) -> keeps K Q (pbind (call b o) k).
Proof.
  intros HK Hl Hop Hk w r s Hw HKw Hstep. destruct (Hop w r s Hw HKw Hstep) as [HR Hlearn].
  split; [done|]. exists (fun w => K w /\ learn r w). split; [|split; [|apply Hk]].
  - intros w1 w2 [H1 H2] H12. split; [by eapply HK | by eapply Hl].
  - split; [by eapply HK | done].
Qed.

(** A read under [?]: nothing changes, nothing is learned. *)
Lemma keeps_read_ok A B b (o : op (res A)) K (Q : res B -> (world -> Prop) -> Prop) k :
  is_read o = true -> stable K -> (forall a, keeps K Q (k a)) -> (forall e, Q (Err e) K) ->
  keeps K Q (pbind_ok (call b o) k).
Proof.
  intros Hr HK Hk He w r s Hw HKw Hstep. apply op_step_read in Hstep as ->; [|done].
  rewrite fn_insert_id. split; [reflexivity|]. exists K. split; [done|]. split; [done|].
  destruct r; [apply Hk | apply He].
Qed.

(** An operation under [?] that keeps the promise and teaches [learn] when it
    succeeds. *)
Lemma keeps_call_ok A B b (o : op (res A)) K (learn : A -> world -> Prop)
    (Q : res B -> (world -> Prop) -> Prop) k :
  stable K -> (forall a, stable (learn a)) ->
  (forall w r s, wf_world w -> K w -> op_step o (w b) r s ->
     Rel w (<[b := s]> w) /\ forall a, r = Ok a -> learn a (<[b := s]> w)) ->
  (forall a, keeps (fun w => K w /\ learn a w) Q (k a)) -> (forall e, Q (Err e) K) ->
  keeps K Q (pbind_ok (call b o) k).
Proof.
  intros HK Hl Hop Hk He w r s Hw HKw Hstep. destruct (Hop w r s Hw HKw Hstep) as [HR Hlearn].
  split; [done|]. destruct r as [a|e].
  - exists (fun w => K w /\ learn a w). split; [|split; [|apply Hk]].
    + intros w1 w2 [H1 H2] H12. split; [by eapply HK | by eapply Hl].
    + split; [by eapply HK | by apply Hlearn].
  - exists K. split; [done|]. split; [by eapply HK | apply He].
Qed.

(** One program among others: between any two of its operations, and around
    them, the world moves as [Rel] allows. *)
Fixpoint exec_rely {A} (p : prog A) (w : world) (a : A) (w' : world) : Prop :=
  exists w0, Rel w w0 /\ wf_world w0 /\
  match p with
  | Ret x => a = x /\ w' = w0
  | Do b o k => exists r s, op_step o (w0 b) r s /\ exec_rely (k r) (<[b := s]> w0) a w'
  end.

Lemma keeps_exec A (K : world -> Prop) (Q : A -> (world -> Prop) -> Prop) p w a w' :
  stable K -> K w -> keeps K Q p -> exec_rely p w a w' -> exists K', K' w' /\ Q a K'.
Proof.
  revert K w. induction p as [x|R b o k IH]; intros K w HK HKw Hp (w0 & Hw0 & Hwf & He); simpl in *.
  - destruct He as [-> ->]. exists K. split; [by eapply HK|done].
  - destruct He as (r & s & Hs & He). destruct (Hp w0 r s Hwf) as (_ & K' & HK' & HKw' & Hk); [by eapply HK|done|].
    by eapply IH.
Qed.

Lemma keeps_rel A (K : world -> Prop) (Q : A -> (world -> Prop) -> Prop) p w a w' :
  stable K -> K w -> keeps K Q p -> exec_rely p w a w' -> Rel w w'.
Proof.
  revert K w. induction p as [x|R b o k IH]; intros K w HK HKw Hp (w0 & Hw0 & Hwf & He); simpl in *.
  - by destruct He as [_ ->].
  - destruct He as (r & s & Hs & He). destruct (Hp w0 r s Hwf) as (HR & K' & HK' & HKw' & Hk); [by eapply HK|done|].
    transitivity w0; [done|]. transitivity (<[b := s]> w0); [done|]. by eapply IH.
Qed.

(** Alone and undisturbed is one way to run among others. *)
Lemma exec_rely_run A v w (p : prog A) :
  wf_world w -> good_env v -> exec_rely p w (run v w p).2 (run v w p).1.
Proof.
  intros Hw Hv. revert w Hw. induction p as [x|R b o k IH]; intros w Hw; cbn [exec_rely run].
  - by exists w.
  - exists w. split; [reflexivity|]. split; [done|].
    pose proof (op_succeeds o (w b) v Hv) as Hs. destruct (op_run v (w b) o) as [s r].
    exists r, s. split; [done|]. apply IH. intros c. destruct (decide (b = c)) as [<-|Hne].
    + rewrite fn_lookup_insert. by eapply wf_op_step.
    + by rewrite fn_lookup_insert_ne.
Qed.

Lemma steps_keep c c' :
  rtc step c c' -> wf_world c.1 -> Forall (keeping c.1) c.2 -> Rel c.1 c'.1.
Proof.
  induction 1 as [c|c c1 c' Hstep _ IH]; intros Hw Ht; [reflexivity|].
  assert (Rel c.1 c1.1 /\ wf_world c1.1 /\ Forall (keeping c1.1) c1.2) as (HR & Hw1 & Ht1).
  { destruct Hstep as [w ts i R b o k r s Hi Hs]. simpl in *. rewrite Forall_lookup in Ht.
    destruct (Ht i _ Hi) as (K & HK & HKw & Hp).
    destruct (Hp w r s Hw HKw Hs) as (HR & K' & HK' & HKw' & Hp'). split; [done|]. split.
    - intros c. destruct (decide (b = c)) as [<-|Hne].
      + rewrite fn_lookup_insert. by eapply wf_op_step.
      + rewrite fn_lookup_insert_ne by done. apply Hw.
    - apply Forall_insert; [|by exists K']. apply Forall_lookup. intros j t Hj.
      destruct (Ht j t Hj) as (Kj & HKj & HKjw & Hpj). exists Kj. eauto. }
  transitivity c1.1; [done|]. by apply IH.
Qed.

End knowledge.

(** ** Executions that answer *)

Section executions.
Context {E : Etags}.

Lemma wf_step (w : world) b R (o : op R) r s : wf_world w -> op_step o (w b) r s -> wf_world (<[b := s]> w).
Proof.
  intros Hw Hs c. destruct (decide (b = c)) as [<-|Hne].
  - rewrite fn_lookup_insert. by eapply wf_op_step.
  - by rewrite fn_lookup_insert_ne.
Qed.

Lemma wf_exec A (p : prog A) w a w' : wf_world w -> exec p w a w' -> wf_world w'.
Proof.
  revert w. induction p as [x|R b o k IH]; intros w Hw; [by intros [_ ->]|]. intros (r & s & Hs & He).
  eapply IH; [|done]. by eapply wf_step.
Qed.

Lemma exec_ok A B (p : prog (res A)) (k : A -> prog (res B)) w y w' :
  exec (pbind_ok p k) w (Ok y) w' -> exists x w1, exec p w (Ok x) w1 /\ exec (k x) w1 (Ok y) w'.
Proof.
  intros He. apply exec_bind in He as ([x|e] & w1 & Hp & He); [by exists x, w1|]. by destruct He.
Qed.

Lemma exec_answer {Er A} (x y : A) w w' : exec (Ret (Ok x : result Er A)) w (Ok y) w' -> y = x /\ w' = w.
Proof. intros [Heq ->]. split; [congruence|done]. Qed.

Lemma exec_call R (o : op R) b w r w' : exec (call b o) w r w' -> exists s, op_step o (w b) r s /\ w' = <[b := s]> w.
Proof. intros (r' & s & Hs & [-> ->]). by exists s. Qed.

Lemma exec_read_call R (o : op R) b w r w' :
  is_read o = true -> exec (call b o) w r w' -> w' = w /\ op_step o (w b) r (w b).
Proof.
  intros Ho (s & Hs & ->)%exec_call. pose proof (op_step_read _ _ _ _ _ Ho Hs) as ->. by rewrite fn_insert_id.
Qed.

Lemma exec_frame b K A (Q : A -> Prop) (p : prog A) w a w' :
  wf_world w -> guar (avoids b K) Q p -> exec p w a w' -> wf_world w' /\ same_on b K w w'.
Proof.
  intros Hw Hp He.
  eapply (holds_exec _ (fun _ => True) (fun _ w' => wf_world w' /\ same_on b K w w')); [|exact He].
  by eapply holds_framed.
Qed.

Lemma exec_reading A (p : prog A) w a w' : wf_world w -> guar reads (fun _ => True) p -> exec p w a w' -> w' = w.
Proof.
  intros Hw. revert w Hw. induction p as [x|R c o k IH]; intros w Hw Hp He; [by destruct He|].
  destruct He as (r & s & Hs & He), Hp as [Ho Hk]. pose proof (op_step_read _ _ _ _ _ Ho Hs) as ->.
  rewrite fn_insert_id in He. eapply IH; [done| |exact He]. apply Hk. eapply op_step_sound; [apply Hw|done].
Qed.

(** What every operation of a program keeps to, its execution keeps to. *)
Lemma exec_respects G T A (Q : A -> Prop) (p : prog A) w a w' :
  respects G T -> wf_world w -> guar G Q p -> exec p w a w' -> wf_world w' /\ Q a /\ forall b, rtc (T b) (w b) (w' b).
Proof.
  intros HT. revert w. induction p as [x|R c o k IH]; intros w Hw Hp He.
  - destruct He as [-> ->]. by split_and!.
  - destruct He as (r & s & Hs & He), Hp as [Ho Hk].
    assert (wf_world (<[c := s]> w)) as Hw1 by (by eapply wf_step).
    destruct (IH r _ Hw1) as (Hw' & HQ & Hrtc); [|exact He|].
    { apply Hk. eapply op_step_sound; [apply Hw|done]. }
    split_and!; [done..|]. intros b. specialize (Hrtc b).
    destruct (decide (c = b)) as [<-|Hne]; [|by rewrite fn_lookup_insert_ne in Hrtc].
    rewrite fn_lookup_insert in Hrtc. eapply rtc_l; [|exact Hrtc]. eapply HT; [done|apply Hw|done].
Qed.

End executions.

(** ** The operations a run issued *)

(** One storage operation with the answer it got. *)
Record event := MkEvent { ev_type : Type; ev_bucket : nat; ev_op : op ev_type; ev_answer : ev_type }.

(** The operations and answers of a whole run of [p] that answers [a]. *)
Fixpoint replays {A} (p : prog A) (log : list event) (a : A) : Prop :=
  match p with
  | Ret x => log = [] /\ a = x
  | Do b o k => exists r l, log = MkEvent _ b o r :: l /\ replays (k r) l a
  end.

Section logs.
Context {E : Etags} (Rel : relation world) `{!PreOrder Rel}.

(** A run among others ([exec_rely]), with what it issued, in order. *)
Fixpoint exec_log {A} (p : prog A) (w : world) (log : list event) (a : A) (w' : world) : Prop :=
  exists w0, Rel w w0 /\ wf_world w0 /\
  match p with
  | Ret x => a = x /\ w' = w0 /\ log = []
  | Do b o k => exists r s l, log = MkEvent _ b o r :: l /\ op_step o (w0 b) r s /\ exec_log (k r) (<[b := s]> w0) l a w'
  end.

Lemma log_rely A (p : prog A) w log a w' : exec_log p w log a w' -> exec_rely Rel p w a w'.
Proof.
  revert w log. induction p as [x|R b o k IH]; intros w log (w0 & HR & Hw0 & He); exists w0; (split; [done|]); (split; [done|]).
  - by destruct He as (-> & -> & _).
  - destruct He as (r & s & l & _ & Hs & He). exists r, s. split; [done|]. by eapply IH.
Qed.

Lemma log_replays A (p : prog A) w log a w' : exec_log p w log a w' -> replays p log a.
Proof.
  revert w log. induction p as [x|R b o k IH]; intros w log (w0 & _ & _ & He).
  - by destruct He as (-> & _ & ->).
  - destruct He as (r & s & l & -> & _ & He). exists r, l. split; [done|]. by eapply IH.
Qed.

(** Every run among others issued something. *)
Lemma rely_log A (p : prog A) w a w' : exec_rely Rel p w a w' -> exists log, exec_log p w log a w'.
Proof.
  revert w. induction p as [x|R b o k IH]; intros w (w0 & HR & Hw0 & He).
  - exists [], w0. destruct He as [-> ->]. done.
  - destruct He as (r & s & Hs & He). apply IH in He as [l Hl]. exists (MkEvent _ b o r :: l), w0.
    split; [done|]. split; [done|]. by exists r, s, l.
Qed.

Lemma log_bind A B (p : prog A) (f : A -> prog B) w log a w' : exec_log (pbind p f) w log a w' ->
  exists x w1 l1 l2, log = l1 ++ l2 /\ exec_log p w l1 x w1 /\ exec_log (f x) w1 l2 a w'.
Proof.
  revert w log. induction p as [x|R b o k IH]; intros w log He.
  - rewrite pbind_ret in He.
    assert (exists w0, Rel w w0 /\ wf_world w0 /\ exec_log (f x) w0 log a w') as (w0 & HR & Hw0 & Hf).
    { destruct (f x); destruct He as (w0 & Hr & Hw0 & He); exists w0; do 2 (split; [done|]); by exists w0. }
    exists x, w0, [], log. split; [done|]. split; [by exists w0|done].
  - destruct He as (w0 & Hr & Hw0 & r & s & l & -> & Hs & He). apply IH in He as (x & w1 & l1 & l2 & -> & Hp & Hf).
    exists x, w1, (MkEvent _ b o r :: l1), l2. split; [done|]. split; [|done]. exists w0. do 2 (split; [done|]).
    by exists r, s, l1.
Qed.
Lemma log_ok A B (p : prog (res A)) (k : A -> prog (res B)) w log y w' : exec_log (pbind_ok p k) w log (Ok y) w' ->
  exists x w1 l1 l2, log = l1 ++ l2 /\ exec_log p w l1 (Ok x) w1 /\ exec_log (k x) w1 l2 (Ok y) w'.
Proof.
  intros He. apply log_bind in He as ([x|e] & w1 & l1 & l2 & -> & Hp & He); [by exists x, w1, l1, l2|].
  by destruct He as (w0 & _ & _ & Hx & _).
Qed.
End logs.

Lemma replays_bind A B (p : prog A) (f : A -> prog B) log b : replays (pbind p f) log b ->
  exists x l1 l2, log = l1 ++ l2 /\ replays p l1 x /\ replays (f x) l2 b.
Proof.
  revert log. induction p as [x|R c o k IH]; intros log He; [by exists x, [], log|].
  destruct He as (r & l & -> & He). apply IH in He as (x & l1 & l2 & -> & Hp & Hf).
  exists x, (MkEvent R c o r :: l1), l2. split; [done|]. split; [|done]. by exists r, l1.
Qed.

(** A run alone, with what it issued. *)
Lemma log_exec {E : Etags} A (p : prog A) w log a w' : exec_log eq p w log a w' -> exec p w a w'.
Proof.
  revert w log. induction p as [x|R b o k IH]; intros w log (w0 & <- & _ & He).
  - by destruct He as (-> & -> & _).
  - destruct He as (r & s & l & _ & Hs & He). exists r, s. split; [done|]. by eapply IH.
Qed.

Lemma exec_logged {E : Etags} A (p : prog A) w a w' : wf_world w -> exec p w a w' -> exists log, exec_log eq p w log a w'.
Proof.
  revert w. induction p as [x|R b o k IH]; intros w Hw He.
  - destruct He as [-> ->]. exists [], w. done.
  - destruct He as (r & s & Hs & He). apply IH in He as [l Hl]; [|by eapply wf_step]. exists (MkEvent _ b o r :: l), w.
    split; [done|]. split; [done|]. by exists r, s, l.
Qed.

#[global] Arguments guar : simpl never.
#[global] Arguments exec : simpl never.
#[global] Arguments exec_rely : simpl never.
#[global] Arguments exec_log : simpl never.
#[global] Arguments keeps : simpl never.
#[global] Arguments holds : simpl never.
#[global] Arguments pbind : simpl never.
#[global] Arguments pbind_ok : simpl never.
#[global] Arguments call : simpl never.

(** Content-derived tokens (the disk backend's), an empty world and an
    environment, to evaluate programs with. *)
Definition content_etags : Etags.
Proof.
  refine {| mk_etag _ bytes := bytes; listed_etag := Some |}; [by intros n b n' b'|by intros n b n' b' v [= ->] [= ->]].
Defined.

Definition empty_world : world := fun _ => MkStore ∅ 0.
Definition example_env : env := MkEnv 1000 (replicate 32 "a"%char) (&"17-4-0-ff") None false.

Lemma empty_world_wf `{Etags} : wf_world empty_world.
Proof. intros b key obj. unfold empty_world. cbn [objects]. by rewrite lookup_empty. Qed.

Lemma example_env_good : good_env example_env.
Proof. split; [split; [done|]; by apply Forall_replicate | by repeat constructor]. Qed.

End Storage.
