(* ===== verification/Origin.v ===== *)
(** * Origin exclusivity (src/origin.rs)

    The package claim [packages/<pkg>/.origin]: its body, the reads, and the
    compare-and-swap programs that claim, demote and release it, run against the
    storage of [Storage]. The claim's states form the lattice of the module's
    documentation; the theorems follow it through every interleaving of the
    programs with each other and with everything that leaves claims alone. *)
From stdpp Require Import functions.
From S2P Require Import Prelude RustStr Documents Storage.
Import Storage.

Module Origin.
Import OriginState.

Record OriginObservation := MkObservation { state : OriginState; etag : str }.

#[global] Instance OriginObservation_eq_dec : EqDecision OriginObservation.
Proof. solve_decision. Defined.

(** [ClaimRequest]: the wanted origin and, optionally, an observation of the
    [unclaimed] sentinel. *)
Record ClaimRequest := MkRequest { request_origin : str; unclaimed_hint : option OriginObservation }.

(** The stored body; the nonce makes every write a distinct version. *)
Record ClaimBody := MkClaimBody { body_origin : str; nonce : str }.

(** The outcome of a claim attempt. *)
Record Claim := MkClaim { owner : str; claim_etag : option str }.

(** serde_json for the body: a JSON object is text between braces. *)
Class ClaimCodec := {
  #[global] claim_codec :: Codec ClaimBody;
  encode_braces : forall body, exists inner, encode body = "{"%char :: inner ++ ["}"%char];
  encode_utf8 : forall body,
    is_utf8 (body_origin body) = true -> is_utf8 (nonce body) = true ->
    is_utf8 (encode body) = true
}.

Definition CLAIM_ATTEMPTS : nat := 8.
Definition REPL_NOTE_SCAN_PAGE : nat := Z.to_nat 1000.

Definition origin_key (pkg : str) : str := PACKAGES_PREFIX ++ pkg ++ &"/.origin".

(** Whether a [_repl/<dest>/<pkg>/<file>!<nonce>] note names [pkg]. *)
Definition repl_note_is_for (key pkg : str) : bool :=
  match strip_prefix (&"_repl/") key with
  | None => false
  | Some rest =>
    match split_once "/"%char rest with
    | None => false
    | Some (_, rest) =>
      match strip_prefix pkg rest with
      | Some suffix => starts_with (&"/") suffix
      | None => false
      end
    end
  end.

Section programs.
Context `{ClaimCodec}.
(** The bucket the program runs on, and a bound on the pages a scan reads. *)
Variables (b : nat) (pages : nat).

Definition valid_nonce (n : str) : bool := (length n =? 32)%nat && forallb is_ascii_hexdigit n.

Definition parse_state (value : str) : res OriginState :=
  match parse value with Some s => Ok s | None => Err Corrupt end.

(** [decode_claim]: nonce-bearing JSON or the older plain text; anything else
    is an error. *)
Definition decode_claim (bytes : str) : res OriginState :=
  if is_utf8 bytes then
    let text := trim bytes in
    if starts_with (&"{") text then
      match decode text with
      | None => Err Corrupt
      | Some body =>
        if negb (valid_nonce (nonce body)) then Err Corrupt else parse_state (body_origin body)
      end
    else parse_state text
  else Err Corrupt.

Definition encode_claim (st : OriginState) : prog str :=
  let* n := call b FreshNonce in
  Ret (encode (MkClaimBody (as_str st) n)).

Definition read_origin_claim (pkg : str) : prog (res (option OriginState)) :=
  let* r := call b (GetBytes (origin_key pkg)) in
  Ret (match r with
       | Ok bytes => let? st := decode_claim bytes in Ok (Some st)
       | Err e => if is_not_found e then Ok None else Err e
       end).

Definition read_origin (pkg : str) : prog (res (option str)) :=
  let*? claim := read_origin_claim pkg in
  Ret (Ok (match claim with
           | Some Unclaimed => None
           | None => None
           | Some st => Some (as_str st)
           end)).

Definition read_origin_observation (pkg : str) : prog (res (option OriginObservation)) :=
  let*? r := call b (GetWithEtag (origin_key pkg)) in
  Ret (match r with
       | Some (bytes, e) => let? st := decode_claim bytes in Ok (Some (MkObservation st e))
       | None => Ok None
       end).

(** One conditional rewrite of the claim to a fresh body of state [st]. *)
Definition cas_claim (pkg e : str) (st : OriginState) : prog (res (option str)) :=
  let* body := encode_claim st in
  call b (PutIfMatch (origin_key pkg) e body).

(** The retry loop of [claim_origin], [attempts] iterations left. *)
Fixpoint claim_loop (attempts : nat) (pkg : str) (target : OriginState) : prog (res Claim) :=
  match attempts with
  | O => Ret (Err (Bail (&"could not settle the origin claim")))
  | S attempts =>
    let* body := encode_claim target in
    let*? created := call b (PutIfNoneMatch (origin_key pkg) body) in
    match created with
    | Some e => Ret (Ok (MkClaim (as_str target) (Some e)))
    | None =>
      let*? observed := read_origin_observation pkg in
      match observed with
      | None => Ret (Err (Bail (&"origin claim vanished mid-claim")))
      | Some observed =>
        if decide (state observed = Unclaimed) then
          let*? swapped := cas_claim pkg (etag observed) target in
          match swapped with
          | Some e => Ret (Ok (MkClaim (as_str target) (Some e)))
          | None => claim_loop attempts pkg target
          end
        else Ret (Ok (MkClaim (as_str (state observed)) None))
      end
    end
  end.

Definition claim_origin (pkg : str) (request : ClaimRequest) : prog (res Claim) :=
  match claim_target (request_origin request) with
  | None => Ret (Err (Bail (&"invalid claim target")))
  | Some target =>
    match unclaimed_hint request with
    | None => claim_loop CLAIM_ATTEMPTS pkg target
    | Some observed =>
      if decide (state observed = Unclaimed) then
        let*? swapped := cas_claim pkg (etag observed) target in
        match swapped with
        | Some e => Ret (Ok (MkClaim (as_str target) (Some e)))
        | None => claim_loop CLAIM_ATTEMPTS pkg target
        end
      else Ret (Err (Bail (&"claim hint must be an unclaimed observation")))
    end
  end.

(** A rewrite reported as the new observation. *)
Definition rewrite_claim (pkg e : str) (st : OriginState) : prog (res (option OriginObservation)) :=
  let*? r := cas_claim pkg e st in
  Ret (Ok ((fun e' => MkObservation st e') <$> r)).

Definition demote_observed_mirror (pkg : str) (observed : OriginObservation)
    : prog (res (option OriginObservation)) :=
  if decide (state observed = Mirror) then rewrite_claim pkg (etag observed) Private
  else Ret (Ok None).

Definition package_has_truth (pkg : str) : prog (res bool) :=
  let*? entries := call b (ListDirEntries (PACKAGES_PREFIX ++ pkg ++ &"/")) in
  Ret (Ok (existsb (fun e => negb (bool_decide (entry_key e = origin_key pkg))) entries)).

Definition release_observed_empty_mirror (pkg : str) (observed : OriginObservation)
    : prog (res (option OriginObservation)) :=
  if decide (state observed = Mirror) then
    let*? has_truth := package_has_truth pkg in
    if has_truth : bool then Ret (Ok None)
    else rewrite_claim pkg (etag observed) Unclaimed
  else Ret (Ok None).

(** Pending rebuild markers of the package. *)
Definition has_pending_write (pkg : str) : prog (res bool) :=
  let dirty_prefix := DIRTY_PREFIX ++ pkg in
  let*? entries := call b (ListAll dirty_prefix) in
  Ret (Ok (existsb (fun e => bool_decide (meta_key e = dirty_prefix)
                             || starts_with (dirty_prefix ++ &"!") (meta_key e)) entries)).

(** The paged scan of the [_repl/] notes. The source's loop is unbounded; this
    one reads at most [n] pages and fails beyond them. *)
Fixpoint scan_notes (n : nat) (after : option str) (pkg : str) : prog (res bool) :=
  match n with
  | O => Ret (Err (Bail (&"scan bound reached")))
  | S n =>
    let*? page := call b (ListPage (&"_repl/") after REPL_NOTE_SCAN_PAGE) in
    match last page with
    | None => Ret (Ok false)
    | Some l =>
      if existsb (fun e => repl_note_is_for (meta_key e) pkg) page then Ret (Ok true)
      else scan_notes n (Some (meta_key l)) pkg
    end
  end.

Definition has_pending_replication_notes (pkg : str) : prog (res bool) := scan_notes pages None pkg.

Definition releasable_for_repurpose (pkg : str) : prog (res (option OriginObservation)) :=
  let*? observed := read_origin_observation pkg in
  let*? has_truth := package_has_truth pkg in
  let*? pending := has_pending_write pkg in
  let*? busy := (if has_truth || pending then Ret (Ok true)
                 else has_pending_replication_notes pkg) in
  if busy : bool then Ret (Err (Bail (&"package still has truth or pending work")))
  else Ret (Ok observed).

(** The post-release check: anything that appeared meanwhile. *)
Definition appeared_since (pkg : str) : prog (res bool) :=
  let*? truth := package_has_truth pkg in
  if truth : bool then Ret (Ok true) else
  let*? pending := has_pending_write pkg in
  if pending : bool then Ret (Ok true) else has_pending_replication_notes pkg.

Definition release_observed_for_repurpose (pkg : str) (observed : OriginObservation)
    : prog (res (option OriginObservation)) :=
  if decide (state observed = Unclaimed) then Ret (Ok None) else
  let*? current := releasable_for_repurpose pkg in
  match current with
  | None => Ret (Ok None)
  | Some current =>
    if decide (current = observed) then
      let*? released := cas_claim pkg (etag current) Unclaimed in
      match released with
      | None => Ret (Ok None)
      | Some e =>
        let unclaimed := MkObservation Unclaimed e in
        let request := MkRequest (as_str (state current)) (Some unclaimed) in
        let* appeared := appeared_since pkg in
        match appeared with
        | Err error => let*? _ := claim_origin pkg request in Ret (Err error)
        | Ok true =>
          let*? _ := claim_origin pkg request in
          Ret (Err (Bail (&"package changed while its origin was released")))
        | Ok false => Ret (Ok (Some unclaimed))
        end
      end
    else Ret (Ok None)
  end.

Definition restore_released_for_repurpose (pkg : str) (original : OriginState)
    (unclaimed : OriginObservation) : prog (res unit) :=
  let failed := Ret (Err (Bail (&"could not restore package origin"))) in
  let*? restored := claim_origin pkg (MkRequest (as_str original) (Some unclaimed)) in
  if bool_decide (owner restored = as_str original)
     || (bool_decide (original = Mirror) && bool_decide (owner restored = PRIVATE))
  then Ret (Ok tt)
  else if bool_decide (original = Private) && bool_decide (owner restored = MIRROR) then
    let*? mirror := read_origin_observation pkg in
    match mirror with
    | Some m =>
      if decide (state m = Mirror) then
        let*? demoted := demote_observed_mirror pkg m in
        match demoted with
        | Some _ => Ret (Ok tt)
        | None => failed
        end
      else Ret (Err (Bail (&"mirror rollback claim changed")))
    | None => Ret (Err (Bail (&"mirror rollback claim changed")))
    end
  else failed.

End programs.

(** ** The claim's life cycle *)

Section lattice.
Context `{ClaimCodec, Etags}.

Lemma decode_encode_claim st n :
  is_nonce n -> decode_claim (encode (MkClaimBody (as_str st) n)) = Ok st.
Proof.
  intros [Hlen Hhex]. set (body := MkClaimBody (as_str st) n). unfold decode_claim.
  assert (Forall is_ascii n) as Hascii.
  { eapply Forall_impl; [exact Hhex|]. intros c. by_bytes c. }
  rewrite encode_utf8; [|by destruct st | by apply is_utf8_ascii].
  destruct (encode_braces body) as [inner Hinner].
  assert (trim (encode body) = encode body) as -> by (rewrite Hinner; by apply trim_between).
  assert (starts_with (&"{") (encode body) = true) as ->.
  { rewrite Hinner. apply starts_with_true. by eexists. }
  rewrite decode_encode. unfold valid_nonce, body; simpl. rewrite Hlen. simpl.
  apply forallb_Forall in Hhex as ->. unfold parse_state. by rewrite parse_as_str.
Qed.

(** The claim of a package in one bucket: absent, or what its body says. *)
Definition claim_of (s : store) (pkg : str) : option (res OriginState) :=
  decode_claim <$> contents s (origin_key pkg).

(** The rewrites of an existing claim: without and with operator repurposing. *)
Inductive auto_edge : OriginState -> OriginState -> Prop :=
  | edge_claim st : st ≠ Unclaimed -> auto_edge Unclaimed st
  | edge_demote : auto_edge Mirror Private
  | edge_release : auto_edge Mirror Unclaimed.
Inductive operator_edge : OriginState -> OriginState -> Prop :=
  | edge_auto st st' : auto_edge st st' -> operator_edge st st'
  | edge_repurpose : operator_edge Private Unclaimed.

(** One move of a claim; an absent claim is only ever created as [mirror] or
    [private], and nothing makes one absent. *)
Inductive claim_move (edge : OriginState -> OriginState -> Prop)
    : option (res OriginState) -> option (res OriginState) -> Prop :=
  | move_create st : st ≠ Unclaimed -> claim_move edge None (Some (Ok st))
  | move_rewrite st st' : edge st st' -> claim_move edge (Some (Ok st)) (Some (Ok st')).

(** The discipline on the claim keys. *)
Definition claim_mv (edge : OriginState -> OriginState -> Prop) (old new : option str) : Prop :=
  claim_move edge (decode_claim <$> old) (decode_claim <$> new).
Definition disciplined (edge : OriginState -> OriginState -> Prop) (b : nat) R (o : op R) : Prop :=
  follows origin_key (claim_mv edge) b R o.

Lemma edge_mono b R (o : op R) : disciplined auto_edge b R o -> disciplined operator_edge b R o.
Proof.
  apply follows_mono. intros x y Hm. unfold claim_mv in *.
  destruct Hm; [by constructor | by constructor; apply edge_auto].
Qed.

(** *** The programs keep the discipline *)

Definition genuine (obs : OriginObservation) : Prop :=
  exists was, attests (etag obs) was /\ decode_claim was = Ok (state obs).

Lemma guar_read_observation edge b pkg :
  guar (disciplined edge)
    (fun r => forall obs, r = Ok (Some obs) -> genuine obs) (read_origin_observation b pkg).
Proof.
  apply guar_call_ok; [done|intros [[bytes e]|] Hr|done]; [|done].
  intros obs. cbn [rbind]. destruct (decode_claim bytes) as [st|] eqn:Hd; simpl; [|done]. intros [= <-].
  exists bytes. by split; [apply Hr|].
Qed.

(** A fresh body of state [st]. *)
Lemma guar_encode edge b st A (Q : A -> Prop) k :
  (forall body, decode_claim body = Ok st -> guar (disciplined edge) Q (k body)) ->
  guar (disciplined edge) Q (pbind (encode_claim b st) k).
Proof. intros Hk. split; [done|]. intros n Hn. apply Hk. by apply decode_encode_claim. Qed.

(** The new token of a rewrite attests the new state. *)
Lemma guar_cas (edge : OriginState -> OriginState -> Prop) b pkg obs st :
  genuine obs -> edge (state obs) st ->
  guar (disciplined edge) (fun r => forall e, r = Ok (Some e) -> genuine (MkObservation st e))
    (cas_claim b pkg (etag obs) st).
Proof.
  intros (was & Hwas & Hd) Hedge. apply guar_encode. intros body Hbody. split.
  - intros pkg' _. exists was. split; [done|]. unfold claim_mv. simpl. rewrite Hd, Hbody. by constructor.
  - intros r Hr e ->. exists body. by split; [apply Hr|].
Qed.

(** What a successful claim vouches for. *)
Definition claim_sound (target : OriginState) (r : res Claim) : Prop :=
  forall c, r = Ok c ->
  match claim_etag c with
  | Some e => owner c = as_str target /\ genuine (MkObservation target e)
  | None => owner c = MIRROR \/ owner c = PRIVATE
  end.

Lemma guar_claim_loop (edge : OriginState -> OriginState -> Prop) b n pkg target :
  target ≠ Unclaimed -> (forall st, auto_edge st target -> edge st target) ->
  guar (disciplined edge) (claim_sound target) (claim_loop b n pkg target).
Proof.
  intros Ht Hedge. induction n as [|n IH]; [done|]. cbn [claim_loop].
  apply guar_encode. intros body Hbody. apply guar_call_ok; [|intros [e|] Hr|done].
  { intros pkg' _. unfold claim_mv. simpl. rewrite Hbody. by constructor. }
  { intros c [= <-]. split; [done|]. exists body. by split; [apply Hr|]. }
  eapply guar_bind_ok; [apply guar_read_observation| |done].
  intros [obs|] Hobs; [|done]. specialize (Hobs obs eq_refl).
  case_decide as Hst.
  - eapply guar_bind_ok; [apply (guar_cas edge)| |done]; [done| |].
    { rewrite Hst. apply Hedge. by constructor. }
    intros [e|] He; [|exact IH]. intros c [= <-]. split; [done|]. by apply He.
  - intros c [= <-]. simpl. destruct (state obs); [done | by left | by right].
Qed.

Lemma claim_target_spec v target : claim_target v = Some target -> target ≠ Unclaimed /\ v = as_str target.
Proof.
  unfold claim_target. destruct (parse v) as [[]|] eqn:Hp; intros [= <-];
    (split; [done|]); by apply parse_Some.
Qed.

Lemma guar_claim_origin (edge : OriginState -> OriginState -> Prop) b pkg request target :
  claim_target (request_origin request) = Some target ->
  (forall st, auto_edge st target -> edge st target) ->
  (forall obs, unclaimed_hint request = Some obs -> genuine obs) ->
  guar (disciplined edge) (claim_sound target) (claim_origin b pkg request).
Proof.
  intros Htarget Hedge Hhint. unfold claim_origin. rewrite Htarget.
  apply claim_target_spec in Htarget as [Ht _].
  destruct (unclaimed_hint request) as [obs|]; [|by apply guar_claim_loop].
  case_decide as Hst; [|done].
  eapply guar_bind_ok; [apply (guar_cas edge)| |done]; [by apply Hhint| |].
  { rewrite Hst. apply Hedge. by constructor. }
  intros [e|] He; [|by apply guar_claim_loop]. intros c [= <-]. split; [done|]. by apply He.
Qed.

Lemma guar_rewrite (edge : OriginState -> OriginState -> Prop) b pkg obs st :
  genuine obs -> edge (state obs) st ->
  guar (disciplined edge) (fun r => forall obs', r = Ok (Some obs') -> genuine obs' /\ state obs' = st)
    (rewrite_claim b pkg (etag obs) st).
Proof.
  intros Hobs Hedge. eapply guar_bind_ok; [by apply (guar_cas edge)| |done].
  intros [e|] He; simpl; intros obs' Heq; simplify_eq. by split; [apply He|].
Qed.

Lemma reads_has_truth b pkg : guar reads (fun _ => True) (package_has_truth b pkg).
Proof. by apply guar_call_ok. Qed.

Lemma reads_pending_write b pkg : guar reads (fun _ => True) (has_pending_write b pkg).
Proof. by apply guar_call_ok. Qed.

Lemma reads_scan b n after pkg : guar reads (fun _ => True) (scan_notes b n after pkg).
Proof.
  revert after. induction n as [|n IH]; intros after; [done|].
  apply guar_call_ok; [done|intros page _|done]. destruct (last page); [|done]. by case_match.
Qed.

Lemma guar_demote (edge : OriginState -> OriginState -> Prop) b pkg obs :
  genuine obs -> edge Mirror Private ->
  guar (disciplined edge) (fun _ => True) (demote_observed_mirror b pkg obs).
Proof.
  intros Hobs Hedge. unfold demote_observed_mirror. case_decide as Hst; [|done].
  eapply guar_mono, (guar_rewrite edge); [done|done|]. by rewrite Hst.
Qed.

Lemma guar_release (edge : OriginState -> OriginState -> Prop) b pkg obs :
  genuine obs -> edge Mirror Unclaimed ->
  guar (disciplined edge) (fun _ => True) (release_observed_empty_mirror b pkg obs).
Proof.
  intros Hobs Hedge. unfold release_observed_empty_mirror. case_decide as Hst; [|done].
  eapply guar_bind_ok; [apply guar_reads, reads_has_truth| |done].
  intros [] _; [done|]. eapply guar_mono, (guar_rewrite edge); [done|done|]. by rewrite Hst.
Qed.

Lemma guar_releasable edge b pages pkg :
  guar (disciplined edge)
    (fun r => forall obs, r = Ok (Some obs) -> genuine obs) (releasable_for_repurpose b pages pkg).
Proof.
  eapply guar_bind_ok; [apply guar_read_observation| |done]. intros observed Hobs.
  eapply guar_bind_ok; [apply guar_reads, reads_has_truth| |done]. intros truth _.
  eapply guar_bind_ok; [apply guar_reads, reads_pending_write| |done]. intros pending _.
  eapply (guar_bind_ok _ _ _ (fun _ => True)); [case_match; [done|apply guar_reads, reads_scan]| |done].
  intros [] _; [done|]. intros obs [= ->]. by apply Hobs.
Qed.

Lemma guar_appeared edge b pages pkg :
  guar (disciplined edge) (fun _ => True) (appeared_since b pages pkg).
Proof.
  eapply guar_bind_ok; [apply guar_reads, reads_has_truth| |done]. intros [] _; [done|].
  eapply guar_bind_ok; [apply guar_reads, reads_pending_write| |done]. intros [] _; [done|].
  apply guar_reads, reads_scan.
Qed.

(** A claim for a state written in canonical form, under the operator's edges. *)
Lemma guar_restore_claim b pkg st obs :
  genuine obs -> st ≠ Unclaimed ->
  guar (disciplined operator_edge) (fun _ => True)
    (claim_origin b pkg (MkRequest (as_str st) (Some obs))).
Proof.
  intros Hobs Hst. eapply guar_mono, (guar_claim_origin _ _ _ _ st); [done| | |].
  - simpl. unfold claim_target. rewrite parse_as_str. by destruct st.
  - intros st' Hedge. by apply edge_auto.
  - by intros ? [= <-].
Qed.

Lemma guar_repurpose b pages pkg obs :
  genuine obs ->
  guar (disciplined operator_edge) (fun r => forall obs', r = Ok (Some obs') -> genuine obs')
    (release_observed_for_repurpose b pages pkg obs).
Proof.
  intros Hobs. unfold release_observed_for_repurpose. case_decide as Hst; [done|].
  eapply guar_bind_ok; [apply guar_releasable| |done]. intros [current|] _; [|done].
  case_decide as Heq; [subst current|done].
  eapply guar_bind_ok; [apply (guar_cas operator_edge _ _ _ Unclaimed Hobs)| |done].
  { destruct (state obs); [done | apply edge_auto, edge_release | apply edge_repurpose]. }
  intros [e|] He; [|done]. specialize (He e eq_refl).
  eapply guar_bind; [apply guar_appeared|]. intros [[]|err] _.
  - by eapply guar_bind_ok; [apply guar_restore_claim|..].
  - by intros obs' [= <-].
  - by eapply guar_bind_ok; [apply guar_restore_claim|..].
Qed.

Lemma guar_restore b pkg original obs :
  genuine obs -> original ≠ Unclaimed ->
  guar (disciplined operator_edge) (fun _ => True) (restore_released_for_repurpose b pkg original obs).
Proof.
  intros Hobs Horig. eapply guar_bind_ok; [by apply guar_restore_claim| |done]. intros c _.
  case_match; [done|]. case_match; [|done].
  eapply guar_bind_ok; [apply guar_read_observation| |done]. intros [m|] Hm; [|done].
  specialize (Hm m eq_refl). destruct (decide (state m = Mirror)); [|done].
  eapply guar_bind_ok; [by apply guar_demote; [|apply edge_auto, edge_demote]| |done].
  by intros [] _.
Qed.

(** *** Every execution follows the lattice *)

(** Read the claim, then act on the observation. *)
Definition observed_then {A} (b : nat) (pkg : str) (act : OriginObservation -> prog (res A))
    : prog (res (option A)) :=
  let*? obs := read_origin_observation b pkg in
  match obs with
  | Some obs => let*? a := act obs in Ret (Ok (Some a))
  | None => Ret (Ok None)
  end.

(** What a node runs without an operator: claims (fresh or from an observed
    sentinel), demotions, orphan releases, and anything that writes no claim. *)
Inductive node_client : prog unit -> Prop :=
  | client_claim b pkg origin :
      node_client (thread (claim_origin b pkg (MkRequest origin None)))
  | client_claim_observed b pkg origin :
      node_client (thread (observed_then b pkg (fun obs =>
        claim_origin b pkg (MkRequest origin (Some obs)))))
  | client_demote b pkg : node_client (thread (observed_then b pkg (demote_observed_mirror b pkg)))
  | client_release b pkg :
      node_client (thread (observed_then b pkg (release_observed_empty_mirror b pkg)))
  | client_other p : guar (spares origin_key) (fun _ => True) p -> node_client p.

(** The operator's repurposing of one package on one bucket: release, and the
    restore when a later bucket fails. *)
Definition repurpose (b pages : nat) (pkg : str) (later_bucket_failed : bool) : prog (res unit) :=
  let*? observed := releasable_for_repurpose b pages pkg in
  match observed with
  | None => Ret (Ok tt)
  | Some observed =>
    let*? released := release_observed_for_repurpose b pages pkg observed in
    match released with
    | Some unclaimed =>
      if later_bucket_failed
      then restore_released_for_repurpose b pkg (state observed) unclaimed
      else Ret (Ok tt)
    | None => Ret (Ok tt)
    end
  end.

Inductive operator_client : prog unit -> Prop :=
  | client_node p : node_client p -> operator_client p
  | client_repurpose b pages pkg later_bucket_failed :
      operator_client (thread (repurpose b pages pkg later_bucket_failed)).

Lemma guar_observed_then edge A b pkg (act : OriginObservation -> prog (res A)) :
  (forall obs, genuine obs -> guar (disciplined edge) (fun _ => True) (act obs)) ->
  guar (disciplined edge) (fun _ => True) (observed_then b pkg act).
Proof.
  intros Hact. eapply guar_bind_ok; [apply guar_read_observation| |done].
  intros [obs|] Hobs; [|done]. eapply guar_bind_ok; [by apply Hact, Hobs | done | done].
Qed.

Lemma guar_claim_any b pkg origin hint :
  (forall obs, hint = Some obs -> genuine obs) ->
  guar (disciplined auto_edge) (fun _ => True) (claim_origin b pkg (MkRequest origin hint)).
Proof.
  intros Hhint. destruct (claim_target origin) as [target|] eqn:Ht.
  - by eapply guar_mono, (guar_claim_origin _ _ _ _ target).
  - unfold claim_origin. simpl. by rewrite Ht.
Qed.

Lemma guar_node_client p : node_client p -> guar (disciplined auto_edge) (fun _ => True) p.
Proof.
  destruct 1 as [b pkg origin|b pkg origin|b pkg|b pkg|p Hp]; try eapply guar_thread.
  - by apply guar_claim_any.
  - apply guar_observed_then. intros obs Hobs. apply guar_claim_any. by intros ? [= <-].
  - apply guar_observed_then. intros obs Hobs. by apply guar_demote; [|constructor].
  - apply guar_observed_then. intros obs Hobs. by apply guar_release; [|constructor].
  - eapply guar_weaken; [|done]. intros. by apply spares_follows.
Qed.

Lemma guar_operator_client p :
  operator_client p -> guar (disciplined operator_edge) (fun _ => True) p.
Proof.
  destruct 1 as [p Hp|b pages pkg failed].
  { eapply guar_weaken; [|by apply guar_node_client]. intros. by apply edge_mono. }
  eapply (guar_thread _ _ (fun _ => True)), guar_bind_ok; [apply guar_releasable| |done].
  intros [obs|] Hobs; [|done]. specialize (Hobs obs eq_refl).
  destruct (decide (state obs = Unclaimed)) as [Hu|Hu].
  { unfold release_observed_for_repurpose. rewrite decide_True by done. exact I. }
  eapply guar_bind_ok; [by apply guar_repurpose| |done]. intros [u|] Hr; [|done].
  destruct failed; [|done]. apply guar_restore; [by apply Hr | done].
Qed.

(** An execution of the given programs from a well-formed world. *)
Lemma steps_claims edge (w w' : world) ts ts' :
  wf_world w -> Forall (guar (disciplined edge) (fun _ => True)) ts ->
  rtc step (w, ts) (w', ts') ->
  forall b pkg, rtc (claim_move edge) (claim_of (w b) pkg) (claim_of (w' b) pkg).
Proof.
  intros Hw Hts Hsteps b pkg.
  destruct (steps_follow origin_key (claim_mv edge) _ _ _ _ Hw Hts Hsteps) as [_ HT].
  unfold claim_of. eapply (rtc_congruence (fmap decode_claim)), HT. done.
Qed.

Lemma auto_private_terminal c c' :
  rtc (claim_move auto_edge) c c' -> c = Some (Ok Private) -> c' = Some (Ok Private).
Proof.
  induction 1 as [c|c c1 c' Hm _ IH]; [done|]. intros ->. apply IH.
  inversion Hm as [|st st' He]; subst. inversion He.
Qed.

Lemma move_never_absent edge c c' : rtc (claim_move edge) c c' -> is_Some c -> is_Some c'.
Proof. induction 1 as [c|c c1 c' Hm _ IH]; [done|]. intros _. apply IH. by destruct Hm. Qed.

End lattice.

(** ** What a claim attempt returns, and what a page scan finds *)

Section sequential.
Context `{ClaimCodec, Etags}.

Lemma run_encode v w b st A (k : str -> prog A) :
  run v w (pbind (encode_claim b st) k)
  = run v w (k (encode (MkClaimBody (as_str st) (env_nonce v)))).
Proof.
  unfold encode_claim. rewrite !run_bind, run_call. cbn [op_run fst snd run].
  by rewrite fn_insert_id.
Qed.

Lemma run_read_observation v w b pkg :
  run v w (read_origin_observation b pkg) =
  (w, match objects (w b) !! origin_key pkg with
      | Some obj => let? st := decode_claim (obj_bytes obj) in Ok (Some (MkObservation st (obj_etag obj)))
      | None => Ok None
      end).
Proof.
  unfold read_origin_observation. rewrite run_bind_ok, run_call. cbn [op_run fst snd].
  rewrite fn_insert_id. by destruct (objects (w b) !! origin_key pkg).
Qed.

Lemma claim_of_lookup s pkg obj :
  objects s !! origin_key pkg = Some obj -> claim_of s pkg = Some (decode_claim (obj_bytes obj)).
Proof. unfold claim_of, contents. by intros ->. Qed.

Lemma claim_of_write v s pkg bytes :
  claim_of (write v s (origin_key pkg) bytes).1 pkg = Some (decode_claim bytes).
Proof. unfold claim_of. by rewrite contents_write, decide_True. Qed.

(** The expected outcome of an undisturbed claim, by the state it finds. *)
Definition claim_outcome (target : OriginState) (found : option (res OriginState))
    : res (str * bool) * option (res OriginState) :=
  match found with
  | None => (Ok (as_str target, true), Some (Ok target))
  | Some (Ok Unclaimed) => (Ok (as_str target, true), Some (Ok target))
  | Some (Ok st) => (Ok (as_str st, false), found)
  | Some (Err e) => (Err e, found)
  end.

Definition outcome_of (r : res Claim) : res (str * bool) :=
  let? c := r in Ok (owner c, bool_decide (is_Some (claim_etag c))).

Lemma run_claim_loop v w b n pkg target :
  is_nonce (env_nonce v) ->
  let '(w', r) := run v w (claim_loop b (S n) pkg target) in
  (outcome_of r, claim_of (w' b) pkg) = claim_outcome target (claim_of (w b) pkg).
Proof.
  intros Hn. cbn [claim_loop]. rewrite run_encode, run_bind_ok, run_call. cbn [op_run].
  pose proof (decode_encode_claim target (env_nonce v) Hn) as Hbody.
  destruct (objects (w b) !! origin_key pkg) as [obj|] eqn:Hobj.
  2:{ cbn [fst snd run]. rewrite fn_lookup_insert, claim_of_write, Hbody.
      unfold claim_of, contents. by rewrite Hobj. }
  rewrite (claim_of_lookup _ _ _ Hobj). cbn [fst snd].
  rewrite fn_insert_id, run_bind_ok, run_read_observation, Hobj. cbn [fst snd].
  destruct (decode_claim (obj_bytes obj)) as [st|err] eqn:Hd; cbn [rbind run];
    [|by rewrite (claim_of_lookup _ _ _ Hobj), Hd].
  cbn [state etag]. destruct (decide (st = Unclaimed)) as [->|Hst].
  - unfold cas_claim. rewrite run_bind_ok, run_encode, run_call. cbn [op_run].
    rewrite Hobj, decide_True by done. cbn [fst snd run].
    by rewrite fn_lookup_insert, claim_of_write, Hbody.
  - cbn [run]. rewrite (claim_of_lookup _ _ _ Hobj), Hd. by destruct st.
Qed.

(** *** The page scan *)

Definition note_for (pkg : str) (o : ObjectMeta) : bool := repl_note_is_for (meta_key o) pkg.

Lemma run_scan v w b pkg n after :
  let rest := filter (after_key after) (list_all (&"_repl/") (w b)) in
  (length rest < n)%nat ->
  run v w (scan_notes b n after pkg) = (w, Ok (existsb (note_for pkg) rest)).
Proof.
  revert after. induction n as [|n IH]; intros after rest Hn; [lia|]. cbn [scan_notes].
  rewrite run_bind_ok, run_call. cbn [op_run fst snd]. rewrite fn_insert_id.
  unfold list_page. fold rest. set (page := take REPL_NOTE_SCAN_PAGE rest).
  destruct (last page) as [x|] eqn:Hlast.
  - assert (rest = page ++ drop REPL_NOTE_SCAN_PAGE rest) as Hrest
      by (unfold page; by rewrite take_drop).
    change (fun e => repl_note_is_for (meta_key e) pkg) with (note_for pkg).
    rewrite Hrest, existsb_app. destruct (existsb (note_for pkg) page); [done|]. simpl.
    rewrite IH.
    + by rewrite (page_rest after REPL_NOTE_SCAN_PAGE _ x); [|apply list_all_sorted|].
    + rewrite (page_rest after REPL_NOTE_SCAN_PAGE _ x); [|apply list_all_sorted|done].
      fold rest. assert (page ≠ []) as Hne by (by intros Hp; rewrite Hp in Hlast).
      rewrite Hrest, length_app in Hn. destruct page; [done|]. simpl in Hn. lia.
  - apply last_None in Hlast. unfold page in Hlast. cbn [run]. do 2 f_equal.
    destruct rest; [done|]. by vm_compute in Hlast.
Qed.

End sequential.

(** A codec to evaluate with: the body in braces. *)
#[global] Instance ClaimBody_eq_dec : EqDecision ClaimBody.
Proof. solve_decision. Defined.

#[global] Instance ClaimBody_countable : Countable ClaimBody.
Proof.
  apply (inj_countable' (fun c => (body_origin c, nonce c)) (fun '(o, n) => MkClaimBody o n)).
  by intros [].
Defined.

Definition toy_claim_codec : ClaimCodec.
Proof.
  unshelve refine {| claim_codec := {|
    encode := fun body => "{"%char :: encode (Codec := countable_codec) body ++ ["}"%char];
    decode := fun s => let! s := strip_prefix (&"{") s in
                       let! s := strip_suffix (&"}") s in
                       decode (Codec := countable_codec) s |} |}.
  - intros body. change (?c :: ?s) with ([c] ++ s). rewrite (strip_prefix_app (&"{")).
    simpl. rewrite (strip_suffix_app (&"}")). simpl.
    rewrite bytes_pos_bytes. apply countable.decode_encode.
  - intros body. by eexists.
  - intros body _ _. apply is_utf8_ascii. constructor; [done|]. apply Forall_app.
    split; [|by repeat constructor]. simpl. generalize (countable.encode body). intros p.
    induction p as [p IH|p IH|]; simpl; by repeat constructor.
Defined.

(** ** Properties *)

Section properties.
Context `{ClaimCodec, Etags}.

(** Along every interleaving of claims, demotions, orphan releases and
    unrelated work, with any storage faults, each package's claim in each bucket
    moves only along the documented lattice: absent to private or mirror,
    unclaimed to private or mirror, mirror to private or unclaimed. *)
Theorem origin_lattice (w w' : world) (ts ts' : list (prog unit)) :
  wf_world w -> Forall node_client ts -> rtc step (w, ts) (w', ts') ->
  forall b pkg, rtc (claim_move auto_edge) (claim_of (w b) pkg) (claim_of (w' b) pkg).
Proof.
  intros Hw Hts. apply steps_claims; [done|].
  eapply Forall_impl; [done|]. intros p. apply guar_node_client.
Qed.

(** C7: a claim that is private stays private, whatever the nodes do: no
    sequence of claims, demotions, releases, faults and unrelated writes reopens
    a private name to a mirror. *)
Theorem private_terminal (w w' : world) (ts ts' : list (prog unit)) b pkg :
  wf_world w -> Forall node_client ts -> rtc step (w, ts) (w', ts') ->
  claim_of (w b) pkg = Some (Ok Private) -> claim_of (w' b) pkg = Some (Ok Private).
Proof.
  intros Hw Hts Hsteps. eapply auto_private_terminal, steps_claims; [done| |done].
  eapply Forall_impl; [done|]. intros p. apply guar_node_client.
Qed.

(** A claim object, once created, exists forever, even under operator
    repurposing with its releases and rollbacks: the name never falls back to
    the absent state. *)
Theorem claim_never_absent (w w' : world) (ts ts' : list (prog unit)) b pkg :
  wf_world w -> Forall operator_client ts -> rtc step (w, ts) (w', ts') ->
  is_Some (claim_of (w b) pkg) -> is_Some (claim_of (w' b) pkg).
Proof.
  intros Hw Hts Hsteps. eapply move_never_absent, steps_claims; [done| |done].
  eapply Forall_impl; [done|]. intros p. apply guar_operator_client.
Qed.

(** An undisturbed claim attempt: on an absent or unclaimed name it takes
    the name and reports its own token; on a held name it reports the holder and
    writes nothing; on an unreadable claim it fails and writes nothing. *)
Theorem claim_origin_outcome v w b pkg origin target :
  is_nonce (env_nonce v) -> claim_target origin = Some target ->
  let '(w', r) := run v w (claim_origin b pkg (MkRequest origin None)) in
  (outcome_of r, claim_of (w' b) pkg) = claim_outcome target (claim_of (w b) pkg).
Proof.
  intros Hn Ht. unfold claim_origin. cbn [request_origin unclaimed_hint]. rewrite Ht.
  by apply run_claim_loop.
Qed.

(** The paged scan of replication notes answers whether some note names
    the package, whatever the number of notes, as long as its page budget
    exceeds their number. *)
Theorem notes_scan_complete v w b pages pkg :
  (length (list_all (&"_repl/") (w b)) < pages)%nat ->
  run v w (has_pending_replication_notes b pages pkg)
  = (w, Ok (existsb (note_for pkg) (list_all (&"_repl/") (w b)))).
Proof.
  intros Hn. assert (filter (after_key None) (list_all (&"_repl/") (w b))
                     = list_all (&"_repl/") (w b)) as Hall by (by apply filter_all).
  unfold has_pending_replication_notes. rewrite run_scan; by rewrite Hall.
Qed.

End properties.

(** *** Witnesses *)

#[local] Existing Instances toy_claim_codec content_etags.

Definition claim_thread (origin : str) : prog unit :=
  thread (claim_origin 0 (&"requests") (MkRequest origin None)).
Definition claimed_world (origin : str) : world := (run example_env empty_world (claim_thread origin)).1.

Lemma claimed_world_wf origin : wf_world (claimed_world origin).
Proof.
  eapply (steps_follow origin_key (claim_mv auto_edge) empty_world _ [claim_thread origin]).
  - apply empty_world_wf.
  - constructor; [apply guar_node_client, client_claim | constructor].
  - apply steps_run, example_env_good.
Qed.

Lemma origin_lattice_witness :
  rtc (claim_move auto_edge) None (claim_of (claimed_world MIRROR 0%nat) (&"requests")).
Proof.
  apply (origin_lattice empty_world (claimed_world MIRROR) [claim_thread MIRROR]
           [Ret (run example_env empty_world (claim_thread MIRROR)).2]).
  - apply empty_world_wf.
  - repeat constructor.
  - apply steps_run, example_env_good.
Defined.

Lemma private_terminal_witness :
  claim_of ((run example_env (claimed_world PRIVATE) (claim_thread MIRROR)).1 0%nat) (&"requests")
  = Some (Ok Private).
Proof.
  eapply (private_terminal (claimed_world PRIVATE) _ [claim_thread MIRROR]).
  - apply claimed_world_wf.
  - repeat constructor.
  - apply steps_run, example_env_good.
  - vm_compute. reflexivity.
Defined.

Lemma claim_never_absent_witness :
  is_Some (claim_of ((run example_env (claimed_world PRIVATE)
    (thread (repurpose 0 5 (&"requests") false))).1 0%nat) (&"requests")).
Proof.
  eapply (claim_never_absent (claimed_world PRIVATE) _ [thread (repurpose 0 5 (&"requests") false)]).
  - apply claimed_world_wf.
  - constructor; [apply client_repurpose | constructor].
  - apply steps_run, example_env_good.
  - vm_compute. by eexists.
Defined.

Lemma claim_origin_outcome_witness :
  (let '(w', r) := run example_env (claimed_world PRIVATE)
                     (claim_origin 0 (&"requests") (MkRequest MIRROR None)) in
   (outcome_of r, claim_of (w' 0%nat) (&"requests"))
   = claim_outcome Mirror (claim_of (claimed_world PRIVATE 0%nat) (&"requests")))
  /\ claim_outcome Mirror (claim_of (claimed_world PRIVATE 0%nat) (&"requests"))
     = (Ok (PRIVATE, false), Some (Ok Private)).
Proof.
  split; [|vm_compute; reflexivity].
  exact (claim_origin_outcome example_env (claimed_world PRIVATE) 0 (&"requests") MIRROR Mirror
           (proj1 example_env_good) eq_refl).
Defined.

Definition noted_world : world :=
  (run example_env empty_world (call 0 (PutBytes (&"_repl/1/requests/a.whl!n") []))).1.

Lemma notes_scan_complete_witness :
  run example_env noted_world (has_pending_replication_notes 0 3 (&"requests"))
  = (noted_world, Ok (existsb (note_for (&"requests")) (list_all (&"_repl/") (noted_world 0%nat))))
  /\ existsb (note_for (&"requests")) (list_all (&"_repl/") (noted_world 0%nat)) = true.
Proof.
  split; [|vm_compute; reflexivity].
  apply (notes_scan_complete example_env noted_world 0 3 (&"requests")).
  vm_compute. lia.
Defined.

End Origin.
