(* ===== verification/Status.v ===== *)
(** * PEP 792 project status in storage (src/status.rs)

    The status marker [packages/<pkg>/.project-status.json]: its reads, the
    compare-and-swap loop that advances its epoch, and the reconciliation of two
    buckets, as programs on [Storage]. *)
From stdpp Require Import functions.
From S2P Require Import Prelude RustStr Documents Decide Storage.
Import Storage.

Module Status.
Import StatusDoc Decide.

Definition STATUS_CAS_ATTEMPTS : nat := 8.

Definition status_key (pkg : str) : str := PACKAGES_PREFIX ++ pkg ++ &"/.project-status.json".

(** The side a reconciliation changed. *)
Inductive StatusConvergence := InSync | UpdatedLeft | UpdatedRight.

#[global] Instance StatusConvergence_eq_dec : EqDecision StatusConvergence.
Proof. solve_decision. Defined.

Section programs.
Context {D : Digest} `{Codec StoredProjectStatus}.

Definition decode_status (bytes : str) : res StoredProjectStatus :=
  match decode bytes with Some e => Ok e | None => Err Corrupt end.

Definition read_status (b : nat) (pkg : str) : prog (res ProjectStatusDoc) :=
  let* r := call b (GetBytes (status_key pkg)) in
  Ret (match r with
       | Ok bytes => let? e := decode_status bytes in Ok (stored_doc e)
       | Err error => if is_not_found error then Ok status_doc_default else Err error
       end).

(** The plain document and the epoch-zero envelope without an origin are the
    same bytes: the envelope's own fields are skipped at those values. *)
Definition write_status (b : nat) (pkg : str) (d : ProjectStatusDoc) : prog (res unit) :=
  call b (PutBytes (status_key pkg) (encode (MkStored d 0 None))).

Definition clear_status (b : nat) (pkg : str) : prog (res unit) :=
  call b (DeleteKeys [status_key pkg]).

Definition read_status_versioned (b : nat) (pkg : str) : prog (res (option VersionedProjectStatus)) :=
  let*? r := call b (GetWithEtag (status_key pkg)) in
  Ret (match r with
       | Some (bytes, etag) =>
         let? e := decode_status bytes in
         Ok (Some (MkVersioned (stored_doc e) (stored_epoch e) (stored_origin e) etag))
       | None => Ok None
       end).

Definition encode_status (d : ProjectStatusDoc) (e : Z) (o : option Origin) : str :=
  encode (MkStored d e o).

Definition put_status_if_version (b : nat) (pkg : str) (expected_etag : option str)
    (d : ProjectStatusDoc) (e : Z) (o : option Origin) : prog (res bool) :=
  let bytes := encode_status d e o in
  match expected_etag with
  | Some etag =>
    let*? r := call b (PutIfMatch (status_key pkg) etag bytes) in
    Ret (Ok (bool_decide (is_Some r)))
  | None =>
    let*? r := call b (PutIfNoneMatch (status_key pkg) bytes) in
    Ret (Ok (bool_decide (is_Some r)))
  end.

(** The CAS loop of [advance_status_if]. *)
Fixpoint advance_loop (attempts : nat) (b : nat) (pkg : str) (d : ProjectStatusDoc)
    (o : option Origin) (keep : option VersionedProjectStatus -> bool) : prog (res (option Z)) :=
  match attempts with
  | O => Ret (Err (Bail (&"could not update project status")))
  | S attempts =>
    let*? current := read_status_versioned b pkg in
    if negb (keep current) then Ret (Ok None) else
    let next := match current with Some s => u64_saturating_add (epoch s) 1 | None => 1 end in
    let*? put := put_status_if_version b pkg (status_etag <$> current) d next o in
    if put : bool then Ret (Ok (Some next)) else advance_loop attempts b pkg d o keep
  end.

Definition advance_status_if (b : nat) (pkg : str) (d : ProjectStatusDoc) (o : option Origin)
    (keep : option VersionedProjectStatus -> bool) : prog (res (option Z)) :=
  advance_loop STATUS_CAS_ATTEMPTS b pkg d o keep.

Definition advance_status (b : nat) (pkg : str) (d : ProjectStatusDoc) (o : option Origin)
    : prog (res Z) :=
  let*? r := advance_status_if b pkg d o (fun _ => true) in
  Ret (match r with
       | Some e => Ok e
       | None => Err (Bail (&"unconditional status write was declined"))
       end).

(** The loop of [reconcile_status_pair]. *)
Fixpoint reconcile_loop (attempts : nat) (left right : nat) (pkg : str)
    : prog (res StatusConvergence) :=
  match attempts with
  | O => Ret (Err (Bail (&"could not reconcile project status")))
  | S attempts =>
    let*? l := read_status_versioned left pkg in
    let*? r := read_status_versioned right pkg in
    match status_merge l r with
    | MEqual => Ret (Ok InSync)
    | MA =>
      match l with
      | None => Ret (Err (Bail (&"status merge selected an absent left winner")))
      | Some winner =>
        let*? put := put_status_if_version right pkg (status_etag <$> r)
                       (doc winner) (epoch winner) (origin winner) in
        if put : bool then Ret (Ok UpdatedRight) else reconcile_loop attempts left right pkg
      end
    | MB =>
      match r with
      | None => Ret (Err (Bail (&"status merge selected an absent right winner")))
      | Some winner =>
        let*? put := put_status_if_version left pkg (status_etag <$> l)
                       (doc winner) (epoch winner) (origin winner) in
        if put : bool then Ret (Ok UpdatedLeft) else reconcile_loop attempts left right pkg
      end
    end
  end.

Definition reconcile_status_pair (left right : nat) (pkg : str) : prog (res StatusConvergence) :=
  reconcile_loop STATUS_CAS_ATTEMPTS left right pkg.

End programs.

(** ** The life of a status event *)

Section moves.
Context {D : Digest} `{Codec StoredProjectStatus} {E : Etags}.

(** The stored event of a package: absent, unreadable or an event. *)
Definition event_of (s : store) (pkg : str) : option (option StoredProjectStatus) :=
  decode <$> contents s (status_key pkg).

(** An event as the merge sees it; the token plays no part in the merge. *)
Definition versioned (e : StoredProjectStatus) : VersionedProjectStatus :=
  MkVersioned (stored_doc e) (stored_epoch e) (stored_origin e) [].

Definition event_merge (a b : option StoredProjectStatus) : MergeChoice :=
  status_merge (versioned <$> a) (versioned <$> b).

(** One move: an advance to the next epoch under one of the given origins, or
    the adoption of an event that wins the merge against the one replaced. An
    unreadable marker never moves. *)
Inductive status_move (origins : option Origin -> Prop)
    : option (option StoredProjectStatus) -> option (option StoredProjectStatus) -> Prop :=
  | move_first e :
      stored_epoch e = 1 -> origins (stored_origin e) -> status_move origins None (Some (Some e))
  | move_advance old e :
      stored_epoch e = u64_saturating_add (stored_epoch old) 1 -> origins (stored_origin e) ->
      status_move origins (Some (Some old)) (Some (Some e))
  | move_adopt_first e :
      event_merge (Some e) None = MA -> status_move origins None (Some (Some e))
  | move_adopt old e :
      event_merge (Some e) (Some old) = MA ->
      status_move origins (Some (Some old)) (Some (Some e)).

Definition status_mv (origins : option Origin -> Prop) (old new : option str) : Prop :=
  status_move origins (decode <$> old) (decode <$> new).
Definition disciplined (origins : option Origin -> Prop) (b : nat) R (o : op R) : Prop :=
  follows status_key (status_mv origins) b R o.

(** *** The programs keep the discipline *)

(** An observation read from a bucket: its event was stored under its token. *)
Definition genuine (s : VersionedProjectStatus) : Prop :=
  exists was, attests (status_etag s) was
    /\ decode was = Some (MkStored (doc s) (epoch s) (origin s)).

Definition genuine_opt (s : option VersionedProjectStatus) : Prop := forall v, s = Some v -> genuine v.

Lemma guar_read origins b pkg :
  guar (disciplined origins) (fun r => forall s, r = Ok s -> genuine_opt s)
    (read_status_versioned b pkg).
Proof.
  apply guar_call_ok; [done|intros [[bytes etag]|] Hr|done].
  - unfold decode_status. destruct (decode bytes) as [e|] eqn:Hd; [|done].
    intros s [= <-] v [= <-]. exists bytes. split; [by apply Hr|]. rewrite Hd. by destruct e.
  - by intros s [= <-].
Qed.

(** The stored view of an observation. *)
Definition stored_of (s : VersionedProjectStatus) : StoredProjectStatus :=
  MkStored (doc s) (epoch s) (origin s).

Lemma guar_put origins b pkg current d e o :
  genuine_opt current ->
  status_move origins (Some ∘ stored_of <$> current) (Some (Some (MkStored d e o))) ->
  guar (disciplined origins) (fun _ => True)
    (put_status_if_version b pkg (status_etag <$> current) d e o).
Proof.
  intros Hgen Hmove. unfold put_status_if_version, encode_status.
  destruct current as [cur|]; simpl in *; (apply guar_call_ok; [|done|done]); intros pkg' _.
  - destruct (Hgen cur eq_refl) as (was & Hwas & Hd). exists was. split; [done|].
    unfold status_mv. simpl. by rewrite Hd, decode_encode.
  - unfold status_mv. simpl. by rewrite decode_encode.
Qed.

Lemma guar_advance_loop (origins : option Origin -> Prop) n b pkg d o keep :
  origins o -> guar (disciplined origins) (fun _ => True) (advance_loop n b pkg d o keep).
Proof.
  intros Ho. induction n as [|n IH]; [done|]. cbn [advance_loop].
  eapply guar_bind_ok; [apply guar_read| |done]. intros current Hcur.
  case_match; [done|]. eapply guar_bind_ok; [apply guar_put| |done].
  - by apply Hcur.
  - destruct current; simpl; by constructor.
  - by intros [] _.
Qed.

(** The merge ignores the tokens. *)
Lemma status_merge_versioned a b :
  status_merge a b = event_merge (stored_of <$> a) (stored_of <$> b).
Proof. by destruct a, b. Qed.

Lemma flip_event_merge a b : event_merge a b = MB -> event_merge b a = MA.
Proof.
  unfold event_merge, status_merge. destruct a as [a|], b as [b|]; simpl; try done.
  - apply ranked_merge_flip.
  - by case_match.
  - by case_match.
Qed.

Lemma guar_reconcile_loop origins n left right pkg :
  guar (disciplined origins) (fun _ => True) (reconcile_loop n left right pkg).
Proof.
  induction n as [|n IH]; [done|]. cbn [reconcile_loop].
  eapply guar_bind_ok; [apply guar_read| |done]. intros l Hl.
  eapply guar_bind_ok; [apply guar_read| |done]. intros r Hr.
  destruct (status_merge l r) eqn:Hm; [| |done]; rewrite status_merge_versioned in Hm.
  - destruct l as [l|]; [|done]. eapply guar_bind_ok; [apply guar_put| |done].
    + by apply Hr.
    + destruct r; simpl in *; by constructor.
    + by intros [] _.
  - apply flip_event_merge in Hm. destruct r as [r|]; [|done].
    eapply guar_bind_ok; [apply guar_put| |done].
    + by apply Hl.
    + destruct l; simpl in *; by constructor.
    + by intros [] _.
Qed.

(** What the nodes run on statuses in multi-bucket mode, with the origins
    their local events carry, and anything that writes no status. *)
Inductive status_client (origins : option Origin -> Prop) : prog unit -> Prop :=
  | client_advance b pkg d o keep :
      origins o -> status_client origins (thread (advance_status_if b pkg d o keep))
  | client_advance_always b pkg d o :
      origins o -> status_client origins (thread (advance_status b pkg d o))
  | client_reconcile left right pkg :
      status_client origins (thread (reconcile_status_pair left right pkg))
  | client_other p : guar (spares status_key) (fun _ => True) p -> status_client origins p.

Lemma guar_status_client origins p :
  status_client origins p -> guar (disciplined origins) (fun _ => True) p.
Proof.
  destruct 1 as [b pkg d o keep Ho|b pkg d o Ho|l r pkg|p Hp].
  - eapply guar_thread. by apply guar_advance_loop.
  - eapply guar_thread, guar_bind_ok; [by apply guar_advance_loop| |by intros; instantiate (1 := fun _ => True)].
    by intros [] _.
  - eapply guar_thread. apply guar_reconcile_loop.
  - eapply guar_weaken; [|done]. intros. by apply spares_follows.
Qed.

Lemma steps_events origins (w w' : world) ts ts' :
  wf_world w -> Forall (status_client origins) ts -> rtc step (w, ts) (w', ts') ->
  forall b pkg, rtc (status_move origins) (event_of (w b) pkg) (event_of (w' b) pkg).
Proof.
  intros Hw Hts Hsteps b pkg.
  assert (Forall (guar (disciplined origins) (fun _ => True)) ts) as Hg.
  { eapply Forall_impl; [done|]. intros p. apply guar_status_client. }
  destruct (steps_follow status_key (status_mv origins) _ _ _ _ Hw Hg Hsteps) as [_ HT].
  unfold event_of. eapply (rtc_congruence (fmap decode)), HT. done.
Qed.

End moves.

(** ** Undisturbed runs *)

Section sequential.
Context {D : Digest} `{Codec StoredProjectStatus} {E : Etags}.

Lemma run_read v w b pkg :
  run v w (read_status_versioned b pkg) =
  (w, match objects (w b) !! status_key pkg with
      | Some obj =>
        let? e := decode_status (obj_bytes obj) in
        Ok (Some (MkVersioned (stored_doc e) (stored_epoch e) (stored_origin e) (obj_etag obj)))
      | None => Ok None
      end).
Proof.
  unfold read_status_versioned. rewrite run_bind_ok, run_call. cbn [op_run fst snd].
  rewrite fn_insert_id. by destruct (objects (w b) !! status_key pkg).
Qed.

(** What a read observes: the event with the token it is stored under. *)
Definition observation (s : store) (pkg : str) : res (option VersionedProjectStatus) :=
  match objects s !! status_key pkg with
  | Some obj =>
    match decode (obj_bytes obj) with
    | Some e => Ok (Some (MkVersioned (stored_doc e) (stored_epoch e) (stored_origin e) (obj_etag obj)))
    | None => Err Corrupt
    end
  | None => Ok None
  end.

Lemma run_status_observation v w b pkg :
  run v w (read_status_versioned b pkg) = (w, observation (w b) pkg).
Proof.
  rewrite run_read. unfold observation, decode_status.
  destruct (objects (w b) !! status_key pkg); [|done]. by destruct (decode _).
Qed.

Lemma event_of_observation s pkg cur :
  observation s pkg = Ok cur -> event_of s pkg = Some ∘ stored_of <$> cur.
Proof.
  unfold observation, event_of, contents. destruct (objects s !! status_key pkg) as [obj|]; simpl.
  - destruct (decode (obj_bytes obj)) as [e|]; [|done]. intros [= <-]. by destruct e.
  - by intros [= <-].
Qed.

Lemma run_put v w b pkg cur d e o :
  observation (w b) pkg = Ok cur ->
  let '(w', r) := run v w (put_status_if_version b pkg (status_etag <$> cur) d e o) in
  r = Ok true /\ event_of (w' b) pkg = Some (Some (MkStored d e o))
  /\ forall c, c ≠ b -> w' c = w c.
Proof.
  unfold observation, put_status_if_version, encode_status. intros Hcur.
  destruct (objects (w b) !! status_key pkg) as [obj|] eqn:Hobj.
  - destruct (decode (obj_bytes obj)) as [x|]; simplify_eq. cbn [fmap option_fmap option_map status_etag].
    rewrite run_bind_ok, run_call. cbn [op_run]. rewrite Hobj, decide_True by done.
    cbn [fst snd run]. split; [done|]. split.
    + unfold event_of. rewrite fn_lookup_insert, contents_write, decide_True by done.
      cbn. by rewrite decode_encode.
    + intros c Hc. by rewrite fn_lookup_insert_ne.
  - simplify_eq. cbn [fmap option_fmap option_map]. rewrite run_bind_ok, run_call. cbn [op_run].
    rewrite Hobj. cbn [fst snd run]. split; [done|]. split.
    + unfold event_of. rewrite fn_lookup_insert, contents_write, decide_True by done.
      cbn. by rewrite decode_encode.
    + intros c Hc. by rewrite fn_lookup_insert_ne.
Qed.

Lemma observation_of_event s pkg e :
  event_of s pkg = Some (Some e) ->
  exists tag, observation s pkg = Ok (Some (MkVersioned (stored_doc e) (stored_epoch e) (stored_origin e) tag)).
Proof.
  unfold event_of, contents, observation. destruct (objects s !! status_key pkg) as [obj|]; simpl; [|done].
  intros [= ->]. eauto.
Qed.

Lemma status_merge_same s t : stored_of s = stored_of t -> status_merge (Some s) (Some t) = MEqual.
Proof.
  destruct s, t. intros [= -> -> ->].
  unfold status_merge, ranked_merge, status_merge_key, status_encode. cbn [doc epoch origin].
  by rewrite cmp_refl, decide_True.
Qed.

(** The epoch a change is recorded under. *)
Definition next_epoch (cur : option VersionedProjectStatus) : Z :=
  match cur with Some s => u64_saturating_add (epoch s) 1 | None => 1 end.

(** What an event ranks by, first: authored outside the mirror world, then the
    logical epoch (a [u64]). *)
Definition event_rank (e : StoredProjectStatus) : bool * Z :=
  (negb (bool_decide (stored_origin e = Some Mirror)), Z.min (stored_epoch e) u64_max).

Definition not_mirror (o : option Origin) : Prop := o ≠ Some Mirror.

Lemma event_merge_rank e old :
  event_merge (Some e) (Some old) = MA -> leb (event_rank old) (event_rank e) = true.
Proof.
  unfold event_merge, status_merge, ranked_merge, status_merge_key, event_rank, leb. simpl.
  destruct (bool_decide (stored_origin e = Some Mirror)), (bool_decide (stored_origin old = Some Mirror));
    simpl; try done.
  all: destruct (Z.compare_spec (stored_epoch e) (stored_epoch old)); try done; intros _;
    destruct (Z.compare_spec (Z.min (stored_epoch old) u64_max) (Z.min (stored_epoch e) u64_max)); lia || done.
Qed.

Lemma advance_rank e old :
  stored_epoch e = u64_saturating_add (stored_epoch old) 1 -> not_mirror (stored_origin e) ->
  leb (event_rank old) (event_rank e) = true.
Proof.
  intros He Ho. unfold event_rank, leb. rewrite (bool_decide_false _ Ho), He. simpl.
  destruct (bool_decide (stored_origin old = Some Mirror)); simpl; [done|].
  unfold u64_saturating_add.
  destruct (Z.compare_spec (Z.min (stored_epoch old) u64_max)
              (Z.min (Z.min (stored_epoch old + 1) u64_max) u64_max)); lia || done.
Qed.

Lemma rtc_rank c c' e :
  rtc (status_move not_mirror) c c' -> c = Some (Some e) ->
  exists e', c' = Some (Some e') /\ leb (event_rank e) (event_rank e') = true.
Proof.
  intros Hr. revert e. induction Hr as [c|c c1 c' Hm _ IH]; intros e ->.
  { exists e. split; [done|]. unfold leb. by rewrite cmp_refl. }
  inversion Hm as [|old e1 He Ho| |old e1 He]; subst.
  all: destruct (IH e1 eq_refl) as (e' & -> & Hle); exists e'; split; [done|].
  - eapply leb_trans; [by apply advance_rank | done].
  - eapply leb_trans; [by apply event_merge_rank | done].
Qed.

End sequential.

(** ** Properties *)

Section properties.
Context {D : Digest} `{Codec StoredProjectStatus} {E : Etags}.

(** A status marker changes only by the next epoch of the very event that
    was read, or by adopting an event that wins the merge against the one it
    replaces; an unreadable marker is never overwritten. This holds along every
    interleaving of local changes and reconciliations, with any faults. *)
Theorem status_event_moves origins (w w' : world) ts ts' :
  wf_world w -> Forall (status_client origins) ts -> rtc step (w, ts) (w', ts') ->
  forall b pkg, rtc (status_move origins) (event_of (w b) pkg) (event_of (w' b) pkg).
Proof. apply steps_events. Qed.

(** C22: an older event never comes back. While local changes are authored
    outside the mirror world, the rank of a stored event (authored outside the
    mirror world, then its epoch) never decreases in any bucket, so a lifted
    quarantine cannot be reinstated by an older copy of it, nor a quarantine
    dropped by an older active event. *)
Theorem status_epoch_monotone (w w' : world) ts ts' b pkg e :
  wf_world w -> Forall (status_client not_mirror) ts -> rtc step (w, ts) (w', ts') ->
  event_of (w b) pkg = Some (Some e) ->
  exists e', event_of (w' b) pkg = Some (Some e') /\ leb (event_rank e) (event_rank e') = true.
Proof.
  intros Hw Hts Hsteps He. eapply rtc_rank; [|exact He]. by eapply steps_events.
Qed.

(** Reading a status fails closed. Whatever the storage answers, a status
    is reported only when it is the stored one, or when there is no marker and
    it is the active default; an unreadable marker is never read as active. *)
Theorem read_status_fails_closed b pkg w w' d :
  exec (read_status b pkg) w (Ok d) w' ->
  match event_of (w b) pkg with
  | Some (Some e) => d = stored_doc e
  | Some None => False
  | None => d = status_doc_default
  end.
Proof.
  intros (r & s & Hstep & Ha & _).
  destruct Hstep as [v _|r Hr|v r Hr|r s' Hr _]; simpl in *; simplify_eq; try done.
  unfold event_of, contents. destruct (objects (w b) !! status_key pkg) as [obj|]; simpl in *.
  - unfold decode_status in Ha. destruct (decode (obj_bytes obj)); simpl in *; by simplify_eq.
  - by simplify_eq.
Qed.

(** An undisturbed status change is recorded: the marker then holds
    exactly the given document and origin under the epoch after the one that was
    there, which is the epoch reported. *)
Theorem advance_status_outcome v w b pkg d o keep cur :
  observation (w b) pkg = Ok cur -> keep cur = true ->
  let '(w', r) := run v w (advance_status_if b pkg d o keep) in
  r = Ok (Some (next_epoch cur))
  /\ event_of (w' b) pkg = Some (Some (MkStored d (next_epoch cur) o)).
Proof.
  intros Hcur Hkeep. unfold advance_status_if. cbn [STATUS_CAS_ATTEMPTS advance_loop].
  rewrite run_bind_ok, run_status_observation, Hcur. cbn [fst snd]. rewrite Hkeep. cbn [negb].
  change (match cur with Some s => u64_saturating_add (epoch s) 1 | None => 1 end)
    with (next_epoch cur).
  pose proof (run_put v w b pkg cur d (next_epoch cur) o Hcur) as Hput.
  rewrite run_bind_ok. destruct (run v w (put_status_if_version _ _ _ _ _ _)) as [w1 r1].
  destruct Hput as (-> & He & _). by cbn.
Qed.

(** Reconciling two buckets makes them agree. Undisturbed, with both
    markers readable, it succeeds, afterwards the merge finds nothing left to
    do, and what both sides hold is one of the two events they started with. *)
Theorem reconcile_status_agrees v w left right pkg l r :
  left ≠ right -> observation (w left) pkg = Ok l -> observation (w right) pkg = Ok r ->
  let '(w', out) := run v w (reconcile_status_pair left right pkg) in
  is_ok out = true
  /\ exists l' r', observation (w' left) pkg = Ok l' /\ observation (w' right) pkg = Ok r'
     /\ status_merge l' r' = MEqual
     /\ (stored_of <$> l' ∈ [stored_of <$> l; stored_of <$> r])
     /\ (stored_of <$> r' ∈ [stored_of <$> l; stored_of <$> r]).
Proof.
  intros Hne Hl Hr. unfold reconcile_status_pair. cbn [STATUS_CAS_ATTEMPTS reconcile_loop].
  rewrite run_bind_ok, run_status_observation, Hl. cbn [fst snd].
  rewrite run_bind_ok, run_status_observation, Hr. cbn [fst snd].
  destruct (status_merge l r) eqn:Hm.
  - destruct l as [l|]; [|by destruct r as [r|]; simpl in Hm; [case_match|]].
    rewrite run_bind_ok.
    pose proof (run_put v w right pkg r (doc l) (epoch l) (origin l) Hr) as Hput.
    destruct (run v w (put_status_if_version _ _ _ _ _ _)) as [w1 r1].
    destruct Hput as (-> & He & Hother). cbn [fst snd run]. split; [done|].
    apply observation_of_event in He as [tag He]. do 2 eexists. rewrite (Hother left) by done.
    split; [exact Hl|]. split; [exact He|]. split; [by apply status_merge_same|].
    split; apply list_elem_of_here.
  - destruct r as [r|]; [|by destruct l as [l|]; simpl in Hm; [case_match|]].
    rewrite run_bind_ok.
    pose proof (run_put v w left pkg l (doc r) (epoch r) (origin r) Hl) as Hput.
    destruct (run v w (put_status_if_version _ _ _ _ _ _)) as [w1 r1].
    destruct Hput as (-> & He & Hother). cbn [fst snd run]. split; [done|].
    apply observation_of_event in He as [tag He]. do 2 eexists. rewrite (Hother right) by congruence.
    split; [exact He|]. split; [exact Hr|]. split; [by apply status_merge_same|].
    split; apply list_elem_of_further, list_elem_of_here.
  - cbn [run]. split; [done|]. exists l, r. do 3 (split; [done|]).
    split; [apply list_elem_of_here | apply list_elem_of_further, list_elem_of_here].
Qed.

End properties.

(** *** Witnesses *)

#[local] Existing Instances toy_digest toy_status_codec content_etags.

Definition quarantine : ProjectStatusDoc := MkDoc Quarantined (Some (&"malware")).
Definition status_thread (d : ProjectStatusDoc) : prog unit :=
  thread (advance_status 0 (&"evil") d (Some Private)).
Definition quarantined_world : world := (run example_env empty_world (status_thread quarantine)).1.

Lemma quarantined_world_wf : wf_world quarantined_world.
Proof.
  eapply (steps_follow status_key (status_mv not_mirror) empty_world _ [status_thread quarantine]).
  - apply empty_world_wf.
  - constructor; [apply guar_status_client; by apply client_advance_always | constructor].
  - apply steps_run, example_env_good.
Qed.

Lemma status_event_moves_witness :
  rtc (status_move not_mirror) None (event_of (quarantined_world 0%nat) (&"evil")).
Proof.
  eapply (status_event_moves not_mirror empty_world quarantined_world [status_thread quarantine]).
  - apply empty_world_wf.
  - constructor; [by apply client_advance_always | constructor].
  - apply steps_run, example_env_good.
Defined.

Lemma status_epoch_monotone_witness :
  exists e', event_of ((run example_env quarantined_world (status_thread status_doc_default)).1 0%nat)
               (&"evil") = Some (Some e')
  /\ leb (event_rank (MkStored quarantine 1 (Some Private))) (event_rank e') = true.
Proof.
  eapply (status_epoch_monotone quarantined_world _ [status_thread status_doc_default]).
  - apply quarantined_world_wf.
  - constructor; [by apply client_advance_always | constructor].
  - apply steps_run, example_env_good.
  - vm_compute. reflexivity.
Defined.

Lemma read_status_fails_closed_witness :
  match event_of (empty_world 0%nat) (&"evil") with
  | Some (Some e) => status_doc_default = stored_doc e
  | Some None => False
  | None => status_doc_default = status_doc_default
  end.
Proof.
  apply (read_status_fails_closed 0 (&"evil") empty_world (<[0%nat := empty_world 0%nat]> empty_world)).
  eexists _, _. split; [apply (op_succeeds _ _ example_env), example_env_good|]. by split.
Defined.

Lemma advance_status_outcome_witness :
  let '(w', r) := run example_env empty_world
                    (advance_status_if 0 (&"evil") quarantine (Some Private) (fun _ => true)) in
  r = Ok (Some 1) /\ event_of (w' 0%nat) (&"evil") = Some (Some (MkStored quarantine 1 (Some Private))).
Proof.
  exact (advance_status_outcome example_env empty_world 0 (&"evil") quarantine (Some Private)
           (fun _ => true) None eq_refl eq_refl).
Defined.

Lemma reconcile_status_agrees_witness :
  let '(w', out) := run example_env quarantined_world (reconcile_status_pair 0 1 (&"evil")) in
  is_ok out = true
  /\ exists l' r', observation (w' 0%nat) (&"evil") = Ok l' /\ observation (w' 1%nat) (&"evil") = Ok r'
     /\ status_merge l' r' = MEqual
     /\ (stored_of <$> l' ∈ [Some (MkStored quarantine 1 (Some Private)); None])
     /\ (stored_of <$> r' ∈ [Some (MkStored quarantine 1 (Some Private)); None]).
Proof.
  refine (reconcile_status_agrees example_env quarantined_world 0 1 (&"evil")
           (Some (MkVersioned quarantine 1 (Some Private) _)) None _ _ _).
  - done.
  - vm_compute. reflexivity.
  - vm_compute. reflexivity.
Defined.

End Status.
