(* ===== verification/Lease.v ===== *)
(** * The leader lease (src/lease.rs)

    One object, acquired, renewed, stolen and released by compare-and-swap. The
    lease is a cost optimization, so what is shown is what it does promise: it
    is taken over only from a holder whose expiry has passed or lies impossibly
    far in the future by the taker's own clock, a release never clobbers a
    successor, and the term counts the takeovers. *)
From stdpp Require Import functions.
From S2P Require Import Prelude RustStr Documents Storage.
Import Storage.

Module Lease.

Definition LEASE_KEY : str := &"_leader/lease.json".

Record Lease := MkLease { holder : str; term : Z; expires_at : Z }.

#[global] Instance Lease_eq_dec : EqDecision Lease.
Proof. solve_decision. Defined.

(** The state of a [LeaseManager] the operations read; [bucket] is its storage. *)
Record LeaseManager := MkManager { bucket : nat; self_holder : str; ttl_secs : Z }.

(** [LeaseManager::new]: the lifetime is at least a second. *)
Definition manager_new (b : nat) (pid nanos : str) (ttl : Z) : LeaseManager :=
  MkManager b (pid ++ &"-" ++ nanos) (Z.max ttl 1).

Section programs.
Context `{Codec Lease}.

Definition lease_json (m : LeaseManager) (t now : Z) : str :=
  encode (MkLease (self_holder m) t (i64_wrapping_add now (ttl_secs m))).

(** The lease a body stands for; a corrupt one is an expired one of nobody. *)
Definition lease_of_bytes (bytes : str) : Lease :=
  match decode bytes with Some l => l | None => MkLease [] 0 0 end.

(** Expired, or impossibly far in the future. *)
Definition stealable (m : LeaseManager) (now : Z) (l : Lease) : bool :=
  (expires_at l <? now) || (i64_wrapping_add now (i64_wrapping_mul 3 (ttl_secs m)) <? expires_at l).

Definition try_hold (m : LeaseManager) : prog (res bool) :=
  let b := bucket m in
  let* now := call b Now in
  let*? read := call b (GetWithEtag LEASE_KEY) in
  match read with
  | None =>
    let*? won := call b (PutIfNoneMatch LEASE_KEY (lease_json m 1 now)) in
    Ret (Ok (bool_decide (is_Some won)))
  | Some (bytes, etag) =>
    let current := lease_of_bytes bytes in
    if decide (holder current = self_holder m) then
      let*? renewed := call b (PutIfMatch LEASE_KEY etag (lease_json m (term current) now)) in
      Ret (Ok (bool_decide (is_Some renewed)))
    else if stealable m now current then
      let*? stolen := call b (PutIfMatch LEASE_KEY etag
                               (lease_json m (u64_wrapping_add (term current) 1) now)) in
      Ret (Ok (bool_decide (is_Some stolen)))
    else Ret (Ok false)
  end.

(** [is_leader]: any failure reports a follower. *)
Definition is_leader (m : LeaseManager) : prog bool :=
  let* r := try_hold m in
  Ret (match r with Ok held => held | Err _ => false end).

(** [release]: overwrite our own lease with an expired one, best effort. *)
Definition release (m : LeaseManager) : prog unit :=
  let b := bucket m in
  let* read := call b (GetWithEtag LEASE_KEY) in
  match read with
  | Ok (Some (bytes, etag)) =>
    match decode bytes with
    | Some lease =>
      if decide (holder lease = self_holder m) then
        let* _ := call b (PutIfMatch LEASE_KEY etag (encode (MkLease [] (term lease) 0))) in
        Ret tt
      else Ret tt
    | None => Ret tt
    end
  | _ => Ret tt
  end.

End programs.

(** ** Every change of the lease *)

Section moves.
Context `{Codec Lease} {E : Etags}.

(** One change, by the manager [m]. *)
Inductive lease_move (ms : list LeaseManager) : option str -> option str -> Prop :=
  | move_acquire m now :
      m ∈ ms -> lease_move ms None (Some (lease_json m 1 now))
  | move_renew m now was :
      m ∈ ms -> holder (lease_of_bytes was) = self_holder m ->
      lease_move ms (Some was) (Some (lease_json m (term (lease_of_bytes was)) now))
  | move_steal m now was :
      m ∈ ms -> holder (lease_of_bytes was) ≠ self_holder m ->
      stealable m now (lease_of_bytes was) = true ->
      lease_move ms (Some was)
        (Some (lease_json m (u64_wrapping_add (term (lease_of_bytes was)) 1) now))
  | move_release m was lease :
      m ∈ ms -> decode was = Some lease -> holder lease = self_holder m ->
      lease_move ms (Some was) (Some (encode (MkLease [] (term lease) 0))).

Definition lease_key (_ : unit) : str := LEASE_KEY.

Lemma guar_try_hold ms m :
  m ∈ ms -> guar (follows lease_key (lease_move ms)) (fun _ => True) (try_hold m).
Proof.
  intros Hm. apply guar_call_bind; [done|]. intros now _.
  apply guar_call_ok; [done|intros [[bytes etag]|] Hr|done].
  - cbv zeta. destruct (decide (holder (lease_of_bytes bytes) = self_holder m)) as [Hh|Hh].
    + apply guar_call_ok; [|done|done]. intros _ _. exists bytes. split; [by apply Hr|].
      by constructor.
    + destruct (stealable m now (lease_of_bytes bytes)) eqn:Hst; [|done].
      apply guar_call_ok; [|done|done]. intros _ _. exists bytes. split; [by apply Hr|].
      by constructor.
  - apply guar_call_ok; [|done|done]. intros _ _. by constructor.
Qed.

Lemma guar_is_leader ms m :
  m ∈ ms -> guar (follows lease_key (lease_move ms)) (fun _ => True) (is_leader m).
Proof. intros Hm. by eapply guar_bind; [apply guar_try_hold|]. Qed.

Lemma guar_lease_release ms m :
  m ∈ ms -> guar (follows lease_key (lease_move ms)) (fun _ => True) (release m).
Proof.
  intros Hm. apply guar_call_bind; [done|]. intros [[[bytes etag]|]|e] Hr; try done.
  destruct (decode bytes) as [lease|] eqn:Hd; [|done]. case_decide as Hh; [|done].
  apply guar_call_bind; [|done]. intros _ _. exists bytes. split; [by apply Hr|].
  by eapply move_release.
Qed.

(** What runs against the lease. *)
Inductive lease_client (ms : list LeaseManager) : prog unit -> Prop :=
  | client_tick m : m ∈ ms -> lease_client ms (thread (is_leader m))
  | client_release m : m ∈ ms -> lease_client ms (release m)
  | client_other p : guar (spares lease_key) (fun _ => True) p -> lease_client ms p.

Lemma guar_lease_client ms p :
  lease_client ms p -> guar (follows lease_key (lease_move ms)) (fun _ => True) p.
Proof.
  destruct 1 as [m Hm|m Hm|p Hp].
  - eapply guar_thread. by apply guar_is_leader.
  - by apply guar_lease_release.
  - eapply guar_weaken; [|done]. intros. by apply spares_follows.
Qed.

(** The lease in a bucket, as the next reader sees it. *)
Definition current_lease (s : store) : option Lease := lease_of_bytes <$> contents s LEASE_KEY.

Lemma lease_of_encode l : lease_of_bytes (encode l) = l.
Proof. unfold lease_of_bytes. by rewrite decode_encode. Qed.

End moves.

(** ** What a tick does *)

(** The outcome of an undisturbed tick at time [now]: whether it leads, and
    the lease it leaves behind. *)
Definition tick_outcome (m : LeaseManager) (now : Z) (found : option Lease) : bool * option Lease :=
  let mine t := Some (MkLease (self_holder m) t (i64_wrapping_add now (ttl_secs m))) in
  match found with
  | None => (true, mine 1)
  | Some l =>
    if decide (holder l = self_holder m) then (true, mine (term l))
    else if stealable m now l then (true, mine (u64_wrapping_add (term l) 1))
    else (false, found)
  end.

Section properties.
Context `{Codec Lease} {E : Etags}.

Lemma current_lease_write v s l : current_lease (write v s LEASE_KEY (encode l)).1 = Some l.
Proof. unfold current_lease. rewrite contents_write, decide_True by done. simpl. by rewrite lease_of_encode. Qed.

(** C28: the lease object changes hands only as documented, along every
    interleaving of ticks and releases of any managers with any faults: created
    at term 1; renewed by its holder at the same term; taken over at the next
    term when, by the taker's clock, it has expired or expires impossibly late;
    or released by its own holder, keeping the term. *)
Theorem lease_moves ms (w w' : world) ts ts' :
  wf_world w -> Forall (lease_client ms) ts -> rtc step (w, ts) (w', ts') ->
  forall b, rtc (lease_move ms) (contents (w b) LEASE_KEY) (contents (w' b) LEASE_KEY).
Proof.
  intros Hw Hts Hsteps b.
  assert (Forall (guar (follows lease_key (lease_move ms)) (fun _ => True)) ts) as Hg.
  { eapply Forall_impl; [done|]. intros p. apply guar_lease_client. }
  by destruct (steps_follow lease_key (lease_move ms) _ _ _ _ Hw Hg Hsteps) as [_ HT]; apply (HT b tt).
Qed.

(** An undisturbed tick: a free lease is acquired, an own one renewed, an
    expired or bogus one taken over at the next term, and a valid lease of
    another holder is left untouched with the node a follower. *)
Theorem tick_outcome_correct v w m :
  let '(w', led) := run v w (is_leader m) in
  (led, current_lease (w' (bucket m))) = tick_outcome m (env_now v) (current_lease (w (bucket m))).
Proof.
  unfold is_leader, try_hold, tick_outcome, lease_json. rewrite !run_bind, run_call. cbn [op_run fst snd].
  rewrite fn_insert_id, run_bind_ok, run_call. cbn [op_run fst snd]. rewrite fn_insert_id.
  destruct (objects (w (bucket m)) !! LEASE_KEY) as [obj|] eqn:Hobj; cbn [fmap option_fmap option_map].
  - assert (current_lease (w (bucket m)) = Some (lease_of_bytes (obj_bytes obj))) as Hcur
      by (unfold current_lease, contents; by rewrite Hobj).
    rewrite Hcur. set (l := lease_of_bytes (obj_bytes obj)) in *.
    destruct (decide (holder l = self_holder m)); [|destruct (stealable m (env_now v) l)].
    + rewrite run_bind_ok, run_call. cbn [op_run]. rewrite Hobj, decide_True by done.
      cbn [fst snd run]. by rewrite fn_lookup_insert, current_lease_write.
    + rewrite run_bind_ok, run_call. cbn [op_run]. rewrite Hobj, decide_True by done.
      cbn [fst snd run]. by rewrite fn_lookup_insert, current_lease_write.
    + cbn [fst snd run]. by rewrite Hcur.
  - assert (current_lease (w (bucket m)) = None) as -> by (unfold current_lease, contents; by rewrite Hobj).
    rewrite run_bind_ok, run_call. cbn [op_run]. rewrite Hobj. cbn [fst snd run].
    by rewrite fn_lookup_insert, current_lease_write.
Qed.

End properties.

(** *** Witnesses *)

#[global] Instance Lease_countable : Countable Lease.
Proof.
  apply (inj_countable' (fun l => (holder l, term l, expires_at l)) (fun '(h, t, e) => MkLease h t e)).
  by intros [].
Defined.
Definition toy_lease_codec : Codec Lease := countable_codec.

#[local] Existing Instances toy_lease_codec content_etags.

Definition example_manager (name : str) : LeaseManager := MkManager 0 name 10.

Lemma lease_moves_witness :
  rtc (lease_move [example_manager (&"n1")]) None
    (contents ((run example_env empty_world (thread (is_leader (example_manager (&"n1"))))).1 0%nat) LEASE_KEY).
Proof.
  eapply (lease_moves [example_manager (&"n1")] empty_world _ [thread (is_leader (example_manager (&"n1")))]).
  - apply empty_world_wf.
  - constructor; [apply client_tick, list_elem_of_here | constructor].
  - apply steps_run, example_env_good.
Defined.

End Lease.
