(* ===== verification/Markers.v ===== *)
(** * Intent and commit markers (src/markers.rs, the marker rules of src/worker.rs)

    A writer declares an intent marker before it touches truth and a commit
    marker after; the worker rebuilds a package from the markers it observed and
    deletes exactly those. *)
From stdpp Require Import functions.
From S2P Require Import Prelude RustStr Documents Storage.
Import Storage.

Module Markers.

Definition INTENT_SUFFIX : str := &".intent".
Definition COMMIT_SUFFIX : str := &".commit".

Definition marker_key (pkg nonce suffix : str) : str := DIRTY_PREFIX ++ pkg ++ &"!" ++ nonce ++ suffix.

(** ** Writing markers *)

Section writing.
Variable b : nat.

Definition put_marker (pkg nonce suffix : str) : prog (res unit) :=
  call b (PutBytes (marker_key pkg nonce suffix) []).

Definition mark_intent_with_nonce (pkg nonce : str) : prog (res unit) :=
  put_marker pkg nonce INTENT_SUFFIX.

Definition mark_intent (pkg : str) : prog (res str) :=
  let* nonce := call b MarkerNonce in
  let*? _ := mark_intent_with_nonce pkg nonce in
  Ret (Ok nonce).

Definition mark_commit (pkg nonce : str) : prog (res unit) := put_marker pkg nonce COMMIT_SUFFIX.

Definition clear_intent (pkg nonce : str) : prog (res unit) :=
  call b (DeleteKeys [marker_key pkg nonce INTENT_SUFFIX]).

Definition mark_dirty (pkg : str) : prog (res unit) :=
  let* nonce := call b MarkerNonce in
  mark_commit pkg nonce.

(** [commit_marker] and [Intent::commit]: pair the intent that landed, or
    leave a bare commit. The wake-up of the local worker is not storage. *)
Definition commit_marker (pkg : str) (intent_nonce : option str) : prog (res unit) :=
  match intent_nonce with
  | Some nonce => mark_commit pkg nonce
  | None => mark_dirty pkg
  end.

(** [Intent::open_best_effort]. *)
Definition open_best_effort (pkg : str) : prog (option str) :=
  let* r := mark_intent pkg in
  Ret (match r with Ok nonce => Some nonce | Err _ => None end).

End writing.

(** ** Reading markers *)

Record Marker := MkMarker {
  key : str;
  nonce : option str;
  is_commit : bool;
  written_at : option Z
}.

#[global] Instance Marker_eq_dec : EqDecision Marker.
Proof. solve_decision. Defined.

Definition parse_marker (entry : FileEntry) : option (str * Marker) :=
  let! rest := strip_prefix DIRTY_PREFIX (entry_key entry) in
  let written_at := last_modified entry in
  match split_once "!"%char rest with
  | None => Some (rest, MkMarker (entry_key entry) None true written_at)
  | Some (pkg, event) =>
    let '(n, c) :=
      match strip_suffix COMMIT_SUFFIX event with
      | Some n => (n, true)
      | None =>
        match strip_suffix INTENT_SUFFIX event with
        | Some n => (n, false)
        | None => (event, true)
        end
      end in
    Some (pkg, MkMarker (entry_key entry) (Some n) c written_at)
  end.

Record DirtyWork := MkWork { package : str; keys : list str; stale_intents : Z }.

(** [per_pkg]: the markers of each package, in listing order. *)
Definition group_markers (entries : list FileEntry) : gmap str (list Marker) :=
  foldl (fun m e =>
    match parse_marker e with
    | Some (pkg, marker) => <[pkg := default [] (m !! pkg) ++ [marker]]> m
    | None => m
    end) ∅ entries.

(** The nonces of the package's commits. *)
Definition commit_nonces (ms : list Marker) : list str :=
  omap (fun m => if is_commit m then nonce m else None) ms.

Definition paired (ms : list Marker) (m : Marker) : bool :=
  match nonce m with Some n => bool_decide (n ∈ commit_nonces ms) | None => false end.

Definition stale (now grace : Z) (m : Marker) : bool :=
  match written_at m with Some t => grace <=? now - t | None => false end.

(** The scan of the intents: the stale ones counted, [None] at the first fresh
    unpaired one. *)
Fixpoint scan_intents (now grace : Z) (ms intents : list Marker) (count : Z) : option Z :=
  match intents with
  | [] => Some count
  | m :: intents =>
    if paired ms m then scan_intents now grace ms intents count
    else if stale now grace m then scan_intents now grace ms intents (count + 1)
    else None
  end.

Definition intents_of (ms : list Marker) : list Marker := filter (fun m => is_commit m = false) ms.

Definition package_work (now grace : Z) (p : str * list Marker) : option DirtyWork :=
  let! count := scan_intents now grace p.2 (intents_of p.2) 0 in
  Some (MkWork p.1 (key <$> p.2) count).

Definition work_le (x y : DirtyWork) : Prop := leb (package x) (package y) = true.
#[global] Instance work_le_dec x y : Decision (work_le x y).
Proof. unfold work_le. apply _. Defined.

Definition consumable_dirty_work (entries : list FileEntry) (now intent_grace : Z) : list DirtyWork :=
  merge_sort work_le
    (omap (package_work now intent_grace) (map_to_list (group_markers entries))).

(** ** Live intents (src/worker.rs) *)

Section live.
Variables (b : nat) (intent_grace : Z).

Definition intent_is_ignored (n : str) (ignored : option str) : bool :=
  bool_decide (ignored = Some n).

(** The scan of [stale_unpaired_intents_ignoring]; [None] is a live writer. *)
Fixpoint stale_scan (prefix : str) (commits : list str) (now : Z) (ignored : option str)
    (entries : list FileEntry) : option (list str) :=
  match entries with
  | [] => Some []
  | e :: entries =>
    let rest := stale_scan prefix commits now ignored entries in
    match (let! event := strip_prefix prefix (entry_key e) in strip_suffix INTENT_SUFFIX event) with
    | None => rest
    | Some n =>
      if intent_is_ignored n ignored then rest
      else if bool_decide (n ∈ commits) then rest
      else match last_modified e with
           | None => None
           | Some written =>
             if now - written <? intent_grace then None
             else let! keys := rest in Some (entry_key e :: keys)
           end
    end
  end.

Definition commits_in (prefix : str) (entries : list FileEntry) : list str :=
  omap (fun e => let! event := strip_prefix prefix (entry_key e) in
                 strip_suffix COMMIT_SUFFIX event) entries.

Definition stale_unpaired_intents_ignoring (pkg : str) (ignored : option str)
    : prog (res (option (list str))) :=
  let prefix := DIRTY_PREFIX ++ pkg ++ &"!" in
  let*? entries := call b (ListDirEntries DIRTY_PREFIX) in
  let* now := call b Now in
  Ret (Ok (stale_scan prefix (commits_in prefix entries) now ignored entries)).

Definition stale_unpaired_intents (pkg : str) : prog (res (option (list str))) :=
  stale_unpaired_intents_ignoring pkg None.

Definition has_live_intent (pkg : str) : prog (res bool) :=
  let*? r := stale_unpaired_intents pkg in
  Ret (Ok (bool_decide (r = None))).

End live.

(** ** Lemmas *)

(** The markers of one package in a listing. *)
Definition markers_of (entries : list FileEntry) (pkg : str) : list Marker :=
  omap (fun e => match parse_marker e with
                 | Some (p, m) => if decide (p = pkg) then Some m else None
                 | None => None
                 end) entries.

Lemma group_markers_snoc entries e :
  group_markers (entries ++ [e]) =
  match parse_marker e with
  | Some (pkg, marker) =>
    <[pkg := default [] (group_markers entries !! pkg) ++ [marker]]> (group_markers entries)
  | None => group_markers entries
  end.
Proof. unfold group_markers. by rewrite foldl_app. Qed.

Lemma group_markers_lookup entries pkg :
  group_markers entries !! pkg =
  match markers_of entries pkg with [] => None | ms => Some ms end.
Proof.
  induction entries as [|e entries IH] using rev_ind; [apply lookup_empty|].
  rewrite group_markers_snoc. unfold markers_of in *. rewrite omap_app. simpl.
  destruct (parse_marker e) as [[p m]|]; [|by rewrite app_nil_r].
  destruct (decide (p = pkg)) as [->|Hne].
  - rewrite lookup_insert_eq, IH. by destruct (omap _ entries).
  - by rewrite lookup_insert_ne, app_nil_r.
Qed.

(** A fresh unpaired intent among a package's markers. *)
Definition fresh_unpaired (now grace : Z) (ms : list Marker) (m : Marker) : Prop :=
  m ∈ ms /\ is_commit m = false /\ paired ms m = false /\ stale now grace m = false.

Lemma scan_intents_spec now grace ms intents count :
  is_Some (scan_intents now grace ms intents count) <->
  forall m, m ∈ intents -> paired ms m = false -> stale now grace m = true.
Proof.
  revert count. induction intents as [|m intents IH]; intros count; simpl.
  { split; [|by eexists]. intros _ m Hm. by apply elem_of_nil in Hm. }
  destruct (paired ms m) eqn:Hp; [|destruct (stale now grace m) eqn:Hs].
  - rewrite IH. split; intros Hall x; [intros [->|Hx]%elem_of_cons; [congruence|by apply Hall]|].
    intros Hx. apply Hall. by right.
  - rewrite IH. split; intros Hall x; [intros [->|Hx]%elem_of_cons; [done|by apply Hall]|].
    intros Hx. apply Hall. by right.
  - split; [by intros []|]. intros Hall. specialize (Hall m (list_elem_of_here _ _) Hp). congruence.
Qed.

Lemma package_work_Some now grace p x :
  package_work now grace p = Some x ->
  package x = p.1 /\ keys x = key <$> p.2 /\ forall m, ~ fresh_unpaired now grace p.2 m.
Proof.
  unfold package_work. destruct (scan_intents _ _ _ _ _) as [count|] eqn:Hs; simpl; [|done].
  intros [= <-]. split; [done|]. split; [done|]. intros m (Hin & Hc & Hp & Hst).
  assert (is_Some (scan_intents now grace p.2 (intents_of p.2) 0)) as Hsome by (by rewrite Hs).
  rewrite scan_intents_spec in Hsome. specialize (Hsome m).
  rewrite Hsome in Hst; [done| |done]. by apply list_elem_of_filter.
Qed.

Lemma package_work_total now grace pkg ms :
  (forall m, ~ fresh_unpaired now grace ms m) ->
  exists x, package_work now grace (pkg, ms) = Some x /\ package x = pkg.
Proof.
  intros Hf. unfold package_work. simpl.
  assert (is_Some (scan_intents now grace ms (intents_of ms) 0)) as [count ->].
  { apply scan_intents_spec. intros m [Hc Hin]%list_elem_of_filter Hp.
    destruct (stale now grace m) eqn:Hst; [done|]. by destruct (Hf m). }
  by eexists.
Qed.

Lemma elem_of_work entries now grace x :
  x ∈ consumable_dirty_work entries now grace <->
  exists pkg ms, group_markers entries !! pkg = Some ms /\ package_work now grace (pkg, ms) = Some x.
Proof.
  unfold consumable_dirty_work. rewrite merge_sort_Permutation, list_elem_of_omap. split.
  - intros ([pkg ms] & Hin & Hx). exists pkg, ms. by apply elem_of_map_to_list in Hin.
  - intros (pkg & ms & Hin & Hx). exists (pkg, ms). by rewrite elem_of_map_to_list.
Qed.

(** The items are in strictly increasing package order. *)
Lemma work_sorted entries now grace :
  StronglySorted (fun x y => cmp (package x) (package y) = Lt)
    (consumable_dirty_work entries now grace).
Proof.
  assert (NoDup (package <$> consumable_dirty_work entries now grace)) as Hnd.
  { unfold consumable_dirty_work. rewrite merge_sort_Permutation.
    generalize (NoDup_fst_map_to_list (group_markers entries)).
    induction (map_to_list (group_markers entries)) as [|p l IH]; [constructor|].
    cbn [fmap list_fmap omap list_omap]. rewrite NoDup_cons. intros [Hp Hl].
    destruct (package_work now grace p) as [x|] eqn:Hx; [|by apply IH].
    cbn [fmap list_fmap]. apply NoDup_cons. split; [|by apply IH].
    apply package_work_Some in Hx as (-> & _). intros (y & Hy & Hin)%list_elem_of_fmap.
    apply list_elem_of_omap in Hin as (q & Hq & Hyq). apply package_work_Some in Hyq as (Heq & _).
    apply Hp. apply list_elem_of_fmap. exists q. by rewrite Hy, Heq. }
  assert (StronglySorted work_le (consumable_dirty_work entries now grace)) as Hs.
  { apply StronglySorted_merge_sort.
    - intros x y z. unfold work_le. apply leb_trans.
    - intros x y. unfold work_le. destruct (leb (package x) (package y)) eqn:Hl; [by left|right].
      by apply leb_false_swap. }
  revert Hnd. induction Hs as [|x l _ IH Hx]; cbn [fmap list_fmap]; [constructor|].
  rewrite NoDup_cons. intros [Hin Hnd]. constructor; [by apply IH|].
  rewrite Forall_forall in *. intros y Hy. apply leb_strict; [by apply Hx|].
  intros Heq. apply Hin, list_elem_of_fmap. by exists y.
Qed.

(** An intent is only ever read from an intent key. *)
Lemma parse_intent pkg e m :
  parse_marker e = Some (pkg, m) -> is_commit m = false ->
  exists n, entry_key e = marker_key pkg n INTENT_SUFFIX /\ nonce m = Some n
    /\ written_at m = last_modified e.
Proof.
  unfold parse_marker.
  destruct (strip_prefix DIRTY_PREFIX (entry_key e)) as [rest|] eqn:Hr; simpl; [|done].
  apply strip_prefix_Some in Hr as ->.
  destruct (split_once "!"%char rest) as [[p event]|] eqn:Hs; [|by intros [= <- <-]].
  apply split_once_Some in Hs as [-> _].
  destruct (strip_suffix COMMIT_SUFFIX event) as [n|]; [by intros [= <- <-]|].
  destruct (strip_suffix INTENT_SUFFIX event) as [n|] eqn:Hn; [|by intros [= <- <-]].
  apply strip_suffix_Some in Hn as ->. intros [= <- <-] _. by exists n.
Qed.

Lemma parse_marker_event pkg event sz t e :
  "!"%char ∉ pkg ->
  parse_marker (MkEntry (DIRTY_PREFIX ++ pkg ++ &"!" ++ event) sz t e) =
  Some (pkg, let '(n, c) := match strip_suffix COMMIT_SUFFIX event with
                            | Some n => (n, true)
                            | None => match strip_suffix INTENT_SUFFIX event with
                                      | Some n => (n, false)
                                      | None => (event, true)
                                      end
                            end in
             MkMarker (DIRTY_PREFIX ++ pkg ++ &"!" ++ event) (Some n) c t).
Proof.
  intros Hpkg. unfold parse_marker. cbn [entry_key last_modified]. rewrite strip_prefix_app.
  cbn [mbind option_bind]. change (&"!" ++ event) with ("!"%char :: event).
  rewrite split_once_app by done.
  destruct (strip_suffix COMMIT_SUFFIX event); [done|]. by destruct (strip_suffix INTENT_SUFFIX event).
Qed.

Lemma strip_suffix_other x s t : length s = length t -> s ≠ t -> strip_suffix s (x ++ t) = None.
Proof.
  intros Hlen Hne. destruct (strip_suffix s (x ++ t)) as [y|] eqn:Hs; [|done].
  apply strip_suffix_Some in Hs. apply app_inj_2 in Hs as [_ Hs]; [|done]. congruence.
Qed.

(** The scan fails exactly on a fresh unpaired intent. *)
Lemma stale_scan_None grace prefix commits now entries :
  stale_scan grace prefix commits now None entries = None <->
  exists e event n, e ∈ entries /\ strip_prefix prefix (entry_key e) = Some event
    /\ strip_suffix INTENT_SUFFIX event = Some n /\ (n ∉ commits)
    /\ match last_modified e with Some t => now - t < grace | None => True end.
Proof.
  induction entries as [|e entries IH]; simpl.
  { split; [done|]. intros (e & ? & ? & Hin & _). by apply elem_of_nil in Hin. }
  assert (forall P : Prop, (P <-> stale_scan grace prefix commits now None entries = None) ->
          ~ (exists event n, strip_prefix prefix (entry_key e) = Some event
             /\ strip_suffix INTENT_SUFFIX event = Some n /\ (n ∉ commits)
             /\ match last_modified e with Some t => now - t < grace | None => True end) ->
          P <-> exists e' event n, e' ∈ e :: entries /\ strip_prefix prefix (entry_key e') = Some event
             /\ strip_suffix INTENT_SUFFIX event = Some n /\ (n ∉ commits)
             /\ match last_modified e' with Some t => now - t < grace | None => True end) as Hskip.
  { intros P -> Hno. rewrite IH. split.
    - intros (e' & ev & n & Hin & Hrest). exists e', ev, n. split; [by right|done].
    - intros (e' & ev & n & [->|Hin]%elem_of_cons & Hrest); [destruct Hno; eauto|].
      by exists e', ev, n. }
  destruct (strip_prefix prefix (entry_key e)) as [event|] eqn:Hp; simpl;
    [|apply Hskip; [done|by intros (? & ? & ? & _)]].
  destruct (strip_suffix INTENT_SUFFIX event) as [n|] eqn:Hs; simpl;
    [|apply Hskip; [done|by intros (? & ? & [= <-] & ? & _); congruence]].
  destruct (bool_decide_reflect (n ∈ commits)) as [Hc|Hc].
  { apply Hskip; [done|]. intros (? & ? & [= <-] & Hn & Hnc & _). congruence. }
  destruct (last_modified e) as [t|] eqn:Hlm.
  2:{ split; [intros _|done]. exists e, event, n. rewrite Hlm. split; [by left|done]. }
  destruct (Z.ltb_spec (now - t) grace).
  - split; [intros _|done]. exists e, event, n. rewrite Hlm. split; [by left|done].
  - apply Hskip; [by destruct (stale_scan grace prefix commits now None entries)|].
    intros (? & ? & _ & _ & _ & Hlt). lia.
Qed.

Lemma elem_of_markers entries pkg m :
  m ∈ markers_of entries pkg <-> exists e, e ∈ entries /\ parse_marker e = Some (pkg, m).
Proof.
  unfold markers_of. rewrite list_elem_of_omap. split.
  - intros (e & He & Hm). exists e. split; [done|].
    destruct (parse_marker e) as [[p m']|]; [|done]. case_decide; by simplify_eq.
  - intros (e & He & Hm). exists e. split; [done|]. by rewrite Hm, decide_True.
Qed.

(** Every commit of the package in the listing was written by [mark_commit]. *)
Definition commits_well_formed (entries : list FileEntry) (pkg : str) : Prop :=
  forall e m n, e ∈ entries -> parse_marker e = Some (pkg, m) -> is_commit m = true ->
  nonce m = Some n -> entry_key e = marker_key pkg n COMMIT_SUFFIX.

Lemma marker_key_prefix pkg n suffix :
  strip_prefix (DIRTY_PREFIX ++ pkg ++ &"!") (marker_key pkg n suffix) = Some (n ++ suffix).
Proof. apply strip_prefix_Some. unfold marker_key. by rewrite <- !app_assoc. Qed.

Lemma commit_nonces_listing entries pkg n :
  "!"%char ∉ pkg -> commits_well_formed entries pkg ->
  n ∈ commit_nonces (markers_of entries pkg) <-> n ∈ commits_in (DIRTY_PREFIX ++ pkg ++ &"!") entries.
Proof.
  intros Hpkg Hwf. unfold commit_nonces, commits_in. rewrite !list_elem_of_omap. split.
  - intros (m & (e & He & Hm)%elem_of_markers & Hn). exists e. split; [done|].
    destruct (is_commit m) eqn:Hc; [|done]. rewrite (Hwf _ _ _ He Hm Hc Hn), marker_key_prefix.
    apply strip_suffix_app.
  - intros (e & He & Hn). destruct (strip_prefix _ (entry_key e)) as [event|] eqn:Hp; [|done].
    simpl in Hn. apply strip_suffix_Some in Hn as ->. apply strip_prefix_Some in Hp.
    destruct e as [k sz t]. simpl in Hp. rewrite <- !app_assoc in Hp. subst k.
    eexists. split; [apply elem_of_markers; eexists; split; [done|]|].
    + by apply (parse_marker_event pkg (n ++ COMMIT_SUFFIX)).
    + by rewrite strip_suffix_app.
Qed.

Lemma fresh_unpaired_scan entries pkg now grace :
  "!"%char ∉ pkg -> commits_well_formed entries pkg ->
  let prefix := DIRTY_PREFIX ++ pkg ++ &"!" in
  stale_scan grace prefix (commits_in prefix entries) now None entries = None <->
  exists m, fresh_unpaired now grace (markers_of entries pkg) m.
Proof.
  intros Hpkg Hwf prefix. rewrite stale_scan_None. split.
  - intros (e & event & n & He & Hp & Hn & Hnc & Ht). apply strip_suffix_Some in Hn as ->.
    apply strip_prefix_Some in Hp. destruct e as [k sz t]. cbn [entry_key last_modified] in *.
    unfold prefix in Hp. rewrite <- !app_assoc in Hp. subst k.
    exists (MkMarker (marker_key pkg n INTENT_SUFFIX) (Some n) false t).
    split; [apply elem_of_markers; eexists; split; [done|]|].
    { rewrite parse_marker_event by done. by rewrite strip_suffix_other, strip_suffix_app by done. }
    split; [done|]. split.
    + unfold paired. simpl. apply bool_decide_eq_false_2. by rewrite commit_nonces_listing.
    + unfold stale. simpl. destruct t; [|done]. apply Z.leb_gt. lia.
  - intros (m & (e & He & Hm)%elem_of_markers & Hc & Hp & Hst).
    destruct (parse_intent _ _ _ Hm Hc) as (n & Hk & Hn & Hw).
    exists e, (n ++ INTENT_SUFFIX), n. rewrite Hk. unfold prefix. rewrite marker_key_prefix.
    split; [done|]. split; [done|]. split; [apply strip_suffix_app|]. split.
    + unfold paired in Hp. rewrite Hn in Hp. bool_to_prop. by rewrite <- commit_nonces_listing.
    + unfold stale in Hst. rewrite Hw in Hst. destruct (last_modified e); [|done]. bool_to_prop. lia.
Qed.

Lemma run_stale_unpaired `{Etags} v w b grace pkg ignored :
  run v w (stale_unpaired_intents_ignoring b grace pkg ignored) =
  (w, let prefix := DIRTY_PREFIX ++ pkg ++ &"!" in
      let entries := entry_of <$> list_where (in_dir DIRTY_PREFIX) (w b) in
      Ok (stale_scan grace prefix (commits_in prefix entries) (env_now v) ignored entries)).
Proof.
  unfold stale_unpaired_intents_ignoring. rewrite run_bind_ok, run_call. cbn [op_run fst snd].
  rewrite fn_insert_id, run_bind, run_call. cbn [op_run fst snd run]. by rewrite fn_insert_id.
Qed.

(** ** Properties *)

(** Markers read back as written: for a package name without [!], the key
    an intent or a commit is stored under parses to that package, that nonce and
    that kind, with the storage's own timestamp. *)
Theorem marker_roundtrip pkg n size t etag :
  "!"%char ∉ pkg ->
  parse_marker (MkEntry (marker_key pkg n COMMIT_SUFFIX) size t etag)
    = Some (pkg, MkMarker (marker_key pkg n COMMIT_SUFFIX) (Some n) true t)
  /\ parse_marker (MkEntry (marker_key pkg n INTENT_SUFFIX) size t etag)
    = Some (pkg, MkMarker (marker_key pkg n INTENT_SUFFIX) (Some n) false t).
Proof.
  intros Hpkg. unfold marker_key. rewrite !parse_marker_event by done. split.
  - by rewrite strip_suffix_app.
  - by rewrite strip_suffix_other, strip_suffix_app by done.
Qed.

(** The work a listing of markers yields. It is ordered by package, one
    item per package; a package has an item exactly when it has a marker and no
    fresh unpaired intent; and the item's keys are exactly the package's marker
    keys in the listing, so consuming it deletes what was observed and nothing
    else. *)
Theorem dirty_work_exact entries now grace :
  StronglySorted (fun x y => cmp (package x) (package y) = Lt)
    (consumable_dirty_work entries now grace)
  /\ (forall x, x ∈ consumable_dirty_work entries now grace ->
       keys x = key <$> markers_of entries (package x))
  /\ (forall pkg, (exists x, x ∈ consumable_dirty_work entries now grace /\ package x = pkg) <->
       markers_of entries pkg ≠ [] /\ forall m, ~ fresh_unpaired now grace (markers_of entries pkg) m).
Proof.
  assert (forall x, x ∈ consumable_dirty_work entries now grace ->
    markers_of entries (package x) ≠ [] /\ keys x = key <$> markers_of entries (package x)
    /\ forall m, ~ fresh_unpaired now grace (markers_of entries (package x)) m) as Hwork.
  { intros x (pkg & ms & Hms & Hx)%elem_of_work. apply package_work_Some in Hx as (-> & -> & Hf).
    rewrite group_markers_lookup in Hms. cbn [fst snd] in *.
    by destruct (markers_of entries pkg); simplify_eq. }
  split; [apply work_sorted|]. split; [intros x Hx; by apply Hwork|]. intros pkg. split.
  - intros (x & Hx & <-). by apply Hwork in Hx as (? & _ & ?).
  - intros [Hne Hf]. destruct (package_work_total now grace pkg _ Hf) as (x & Hx & Hpkg).
    exists x. split; [|done]. apply elem_of_work. exists pkg, (markers_of entries pkg).
    rewrite group_markers_lookup. by destruct (markers_of entries pkg).
Qed.

(** The audit's question and the drain's rule are the same one. With the
    commits of a package well formed, the package has a live intent, by one fresh
    listing, exactly when the drain defers it for a fresh unpaired intent. *)
Theorem live_intent_is_deferral `{Etags} v w b grace pkg :
  let entries := entry_of <$> list_where (in_dir DIRTY_PREFIX) (w b) in
  "!"%char ∉ pkg -> commits_well_formed entries pkg ->
  (run v w (has_live_intent b grace pkg)).2 = Ok true <->
  exists m, fresh_unpaired (env_now v) grace (markers_of entries pkg) m.
Proof.
  intros entries Hpkg Hwf. rewrite <- fresh_unpaired_scan by done.
  unfold has_live_intent, stale_unpaired_intents. rewrite run_bind_ok, run_stale_unpaired.
  cbn [fst snd run]. fold entries. split.
  - intros [= Hd]. by apply bool_decide_eq_true in Hd.
  - intros Hn. by rewrite Hn.
Qed.

(** *** Witnesses *)

Lemma marker_roundtrip_witness :
  parse_marker (MkEntry (&"_dirty/requests!1-2-3-ff.intent") 0 (Some 5) None)
  = Some (&"requests", MkMarker (&"_dirty/requests!1-2-3-ff.intent") (Some (&"1-2-3-ff")) false (Some 5)).
Proof.
  apply (proj2 (marker_roundtrip (&"requests") (&"1-2-3-ff") 0 (Some 5) None
           ltac:(by apply (bool_decide_unpack _)))).
Defined.

Definition intent_world : world :=
  (run (MkEnv 100 [] (&"1-f") (Some 90) false) empty_world (mark_intent 0 (&"requests")) (E := content_etags)).1.

Lemma live_intent_is_deferral_witness :
  (run (E := content_etags) (MkEnv 100 [] (&"1-f") None false) intent_world
    (has_live_intent 0 60 (&"requests"))).2 = Ok true.
Proof.
  apply (@live_intent_is_deferral content_etags (MkEnv 100 [] (&"1-f") None false) intent_world 0 60 (&"requests")).
  - by apply (bool_decide_unpack _).
  - intros e m n He. vm_compute in He. apply list_elem_of_singleton in He as ->.
    vm_compute. by intros [= <-].
  - vm_compute. eexists. by split; [apply list_elem_of_here|].
Defined.

End Markers.
