(* ===== verification/Replicate.v ===== *)
(** * Reading and removing records across buckets (src/replicate.rs, src/tombstone.rs)

    The record of one filename as the executor reads it, and the destructive
    arms of the executor: tombstoning, freezing with its quarantine copy, the
    completion of interrupted deletes, the clearing of spent demotion fences, and
    the compare-and-swap adoption of a sidecar. *)
From stdpp Require Import functions.
From S2P Require Import Prelude RustStr Documents Hash Decide Storage Origin Markers.
Import Storage.

Module Replicate.
Import Sidecar Decide Origin Hash.

Definition QUARANTINE_PREFIX : str := &"_quarantine/".
Definition ORIGIN_ATTEMPTS : nat := 8.

Definition artifact_key (pkg filename : str) : str := PACKAGES_PREFIX ++ pkg ++ &"/" ++ filename.

(** The body of a tombstone, a freeze marker and a demotion fence: the
    filename, and nothing that could differ between buckets. *)
Record FilenameBody := MkFilenameBody { body_filename : str }.

Inductive Convergence := Converged | Deferred.

Section programs.
Context {D : Digest} `{ClaimCodec} {JS : Codec Sidecar} {JF : Codec FilenameBody}.

(** ** Reading a record *)

Definition read_pkg_origin (b : nat) (pkg : str) : prog (res (option StatusDoc.Origin)) :=
  let*? observed := read_origin_observation b pkg in
  Ret (Ok (match observed with Some o => origin_of_state (state o) | None => None end)).

Definition parse_sidecar (bytes : str) : res Sidecar :=
  match decode bytes with Some sc => Ok sc | None => Err Corrupt end.

Definition sidecar_origin_ok (sc : Sidecar) : bool :=
  match sc_origin sc with Some raw => bool_decide (is_Some (origin_parse raw)) | None => true end.

Definition record_from_names (b : nat) (pkg filename : str) (names : list str)
    (claim : option StatusDoc.Origin) : prog (res Record_) :=
  let*? sc := (if bool_decide (filename ++ SIDECAR_SUFFIX ∈ names) then
                 let*? bytes := call b (GetBytes (sidecar_key (artifact_key pkg filename))) in
                 Ret (let? sc := parse_sidecar bytes in
                      if sidecar_origin_ok sc then Ok (Some sc)
                      else Err (Bail (&"sidecar holds an unexpected origin")))
               else Ret (Ok None)) in
  Ret (Ok (from_listing (fun suffix => bool_decide (filename ++ suffix ∈ names)) sc claim)).

Definition names_under (prefix : str) (entries : list FileEntry) : list str :=
  omap (fun e => strip_prefix prefix (entry_key e)) entries.

Definition read_record (b : nat) (pkg filename : str) : prog (res Record_) :=
  let prefix := PACKAGES_PREFIX ++ pkg ++ &"/" in
  let*? entries := call b (ListDirEntries prefix) in
  let*? claim := read_pkg_origin b pkg in
  record_from_names b pkg filename (names_under prefix entries) claim.

(** ** Tombstones *)

(** [tombstone::write]. *)
Definition tombstone_write (b : nat) (akey filename : str) : prog (res unit) :=
  let*? _ := call b (PutIfAbsent (tombstone_key akey) (encode (MkFilenameBody filename))) in
  Ret (Ok tt).

Definition record_object_keys (akey : str) : list str :=
  [akey; sidecar_key akey; metadata_key akey; provenance_key akey].

(** One filename of [complete_interrupted_deletes]. *)
Definition complete_one (b : nat) (pkg : str) (completed : nat) (filename : str) : prog (res nat) :=
  let akey := artifact_key pkg filename in
  let*? tomb := call b (HeadExists (tombstone_key akey)) in
  if negb tomb then Ret (Ok completed) else
  let*? froz := call b (HeadExists (frozen_key akey)) in
  if froz : bool then Ret (Ok completed) else
  let*? _ := call b (DeleteKeys (record_object_keys akey)) in
  Ret (Ok (S completed)).

Definition complete_interrupted_deletes (b : nat) (pkg : str) (filenames : list str) : prog (res nat) :=
  pfor filenames 0%nat (complete_one b pkg).

Definition drop_record_objects (b : nat) (pkg filename : str) : prog (res unit) :=
  let akey := artifact_key pkg filename in
  call b (DeleteKeys (record_object_keys akey ++ [mirror_quarantined_key akey; superseding_key akey])).

Definition tombstone_side (b : nat) (pkg filename : str) : prog (res bool) :=
  let akey := artifact_key pkg filename in
  let*? already := call b (HeadExists (tombstone_key akey)) in
  let*? had_body := call b (HeadExists akey) in
  if already && negb had_body then
    let*? sidecar_left := call b (HeadExists (sidecar_key akey)) in
    let*? metadata_left := call b (HeadExists (metadata_key akey)) in
    let*? provenance_left := call b (HeadExists (provenance_key akey)) in
    let*? demotion_fence_left := call b (HeadExists (mirror_quarantined_key akey)) in
    if negb sidecar_left && negb metadata_left && negb provenance_left && negb demotion_fence_left
    then Ret (Ok false)
    else
      let*? _ := call b (DeleteKeys [sidecar_key akey; metadata_key akey; provenance_key akey;
                                     mirror_quarantined_key akey]) in
      Ret (Ok true)
  else
    let*? _ := tombstone_write b akey filename in
    let*? _ := drop_record_objects b pkg filename in
    Ret (Ok true).

(** ** Quarantine and freeze *)

Definition quarantine_key (pkg filename sha : str) : str :=
  QUARANTINE_PREFIX ++ pkg ++ &"/" ++ filename ++ &"@" ++ take (length sha `min` 12) sha.

Definition quarantine_bytes (b : nat) (pkg filename bytes : str) : prog (res str) :=
  let sha := sha256_hex bytes in
  let qkey := quarantine_key pkg filename sha in
  let*? created := call b (PutIfAbsent qkey bytes) in
  if created : bool then Ret (Ok sha) else
  let*? existing := call b (GetBytes qkey) in
  if decide (existing = bytes) then Ret (Ok sha)
  else Ret (Err (Bail (&"quarantine key collision"))).

Definition quarantine (b : nat) (pkg filename : str) : prog (res (option str)) :=
  let* body := call b (GetBytes (artifact_key pkg filename)) in
  match body with
  | Ok bytes => let*? sha := quarantine_bytes b pkg filename bytes in Ret (Ok (Some sha))
  | Err e => if is_not_found e then Ret (Ok None) else Ret (Err e)
  end.

Definition write_frozen_marker (b : nat) (pkg filename : str) : prog (res bool) :=
  call b (PutIfAbsent (frozen_key (artifact_key pkg filename)) (encode (MkFilenameBody filename))).

Definition freeze_side (b : nat) (pkg filename : str) : prog (res bool) :=
  let akey := artifact_key pkg filename in
  let*? marker_created := write_frozen_marker b pkg filename in
  let*? _ := quarantine b pkg filename in
  let*? _ := tombstone_write b akey filename in
  let*? _ := drop_record_objects b pkg filename in
  Ret (Ok marker_created).

(** ** Demotion fences *)

Definition demotion_resolved_by_private_truth (b : nat) (pkg filename : str) : prog (res bool) :=
  let akey := artifact_key pkg filename in
  let* read := call b (GetBytes (sidecar_key akey)) in
  match read with
  | Err e => if is_not_found e then Ret (Ok false) else Ret (Err e)
  | Ok bytes =>
    match parse_sidecar bytes with
    | Err e => Ret (Err e)
    | Ok sc =>
      if decide (sc_origin sc = Some OriginState.PRIVATE) then call b (HeadExists akey)
      else Ret (Ok false)
    end
  end.

Definition clear_spent_demotion_fence (b : nat) (pkg filename : str) (record : Record_)
    : prog (res unit) :=
  if negb (mirror_quarantined record)
     || negb (match classify_record record with Live _ StatusDoc.Private _ => true | _ => false end)
  then Ret (Ok tt)
  else
    let*? resolved := demotion_resolved_by_private_truth b pkg filename in
    if resolved : bool
    then call b (DeleteKeys [mirror_quarantined_key (artifact_key pkg filename)])
    else Ret (Ok tt).

(** ** Claims driven by replication *)

Fixpoint ensure_private_loop (attempts : nat) (b : nat) (pkg : str) : prog (res unit) :=
  match attempts with
  | O => Ret (Err (Bail (&"could not make the package private on the destination")))
  | S attempts =>
    let*? observed := read_origin_observation b pkg in
    match observed with
    | None =>
      let*? claim := claim_origin b pkg (MkRequest OriginState.PRIVATE None) in
      if decide (owner claim = OriginState.PRIVATE) then Ret (Ok tt)
      else ensure_private_loop attempts b pkg
    | Some obs =>
      match state obs with
      | OriginState.Private => Ret (Ok tt)
      | OriginState.Mirror =>
        let*? demoted := demote_observed_mirror b pkg obs in
        match demoted with
        | Some _ => Ret (Ok tt)
        | None => ensure_private_loop attempts b pkg
        end
      | OriginState.Unclaimed =>
        let*? claim := claim_origin b pkg (MkRequest OriginState.PRIVATE (Some obs)) in
        if decide (owner claim = OriginState.PRIVATE) then Ret (Ok tt)
        else ensure_private_loop attempts b pkg
      end
    end
  end.
Definition ensure_private_origin (b : nat) (pkg : str) : prog (res unit) :=
  ensure_private_loop ORIGIN_ATTEMPTS b pkg.

Fixpoint ensure_mirror_loop (attempts : nat) (b : nat) (pkg : str) : prog (res StatusDoc.Origin) :=
  match attempts with
  | O => Ret (Err (Bail (&"could not make the package mirror on the destination")))
  | S attempts =>
    let*? observed := read_origin_observation b pkg in
    let claim_with hint :=
      let*? claim := claim_origin b pkg (MkRequest OriginState.MIRROR hint) in
      if decide (owner claim = OriginState.MIRROR) then Ret (Ok StatusDoc.Mirror)
      else if decide (owner claim = OriginState.PRIVATE) then Ret (Ok StatusDoc.Private)
      else ensure_mirror_loop attempts b pkg in
    match observed with
    | None => claim_with None
    | Some obs =>
      match state obs with
      | OriginState.Mirror => Ret (Ok StatusDoc.Mirror)
      | OriginState.Private => Ret (Ok StatusDoc.Private)
      | OriginState.Unclaimed => claim_with (Some obs)
      end
    end
  end.
Definition ensure_mirror_origin (b : nat) (pkg : str) : prog (res StatusDoc.Origin) :=
  ensure_mirror_loop ORIGIN_ATTEMPTS b pkg.

(** ** Adopting a sidecar *)

Definition typed_origin (sc : Sidecar) (fallback : option StatusDoc.Origin) : res StatusDoc.Origin :=
  match sc_origin sc with
  | Some raw => match origin_parse raw with
                | Some o => Ok o
                | None => Err (Bail (&"sidecar holds an unexpected origin"))
                end
  | None => match fallback with
            | Some o => Ok o
            | None => Err (Bail (&"sidecar has no typed origin"))
            end
  end.

Fixpoint adopt_loop (attempts : nat) (a b : nat) (pkg filename : str) : prog (res (bool * bool)) :=
  match attempts with
  | O => Ret (Err (Bail (&"sidecar changed repeatedly while reconciling")))
  | S attempts =>
    let key := sidecar_key (artifact_key pkg filename) in
    let*? left_read := call a (GetWithEtag key) in
    let*? right_read := call b (GetWithEtag key) in
    let*? left_claim := read_pkg_origin a pkg in
    let*? right_claim := read_pkg_origin b pkg in
    match left_read, right_read with
    | Some (left_bytes, left_etag), Some (right_bytes, right_etag) =>
      let*? l := Ret (parse_sidecar left_bytes) in
      let*? r := Ret (parse_sidecar right_bytes) in
      if decide (sha256 l = sha256 r) then
        let*? lo := Ret (typed_origin l left_claim) in
        let*? ro := Ret (typed_origin r right_claim) in
        match sidecar_merge l (Some lo) r (Some ro) with
        | MEqual => Ret (Ok (false, false))
        | MA =>
          let*? put := call b (PutIfMatch key right_etag left_bytes) in
          match put with
          | Some _ => Ret (Ok (false, true))
          | None => adopt_loop attempts a b pkg filename
          end
        | MB =>
          let*? put := call a (PutIfMatch key left_etag right_bytes) in
          match put with
          | Some _ => Ret (Ok (true, false))
          | None => adopt_loop attempts a b pkg filename
          end
        end
      else Ret (Err (Bail (&"artifact conflict appeared while reconciling")))
    | _, _ => Ret (Err (Bail (&"sidecar changed while reconciling")))
    end
  end.
Definition adopt_sidecar_cas (a b : nat) (pkg filename : str) : prog (res (bool * bool)) :=
  adopt_loop ORIGIN_ATTEMPTS a b pkg filename.

End programs.

(** ** Keys of a record *)

Lemma artifact_key_inj pkg pkg' f f' :
  "/"%char ∉ pkg -> "/"%char ∉ pkg' ->
  artifact_key pkg f = artifact_key pkg' f' -> pkg = pkg' /\ f = f'.
Proof.
  intros Hp Hp' Heq. unfold artifact_key in Heq. apply app_inv_head in Heq.
  assert (split_once "/"%char (pkg ++ &"/" ++ f) = Some (pkg, f)) as H1 by by apply split_once_app.
  assert (split_once "/"%char (pkg' ++ &"/" ++ f') = Some (pkg', f')) as H2 by by apply split_once_app.
  rewrite Heq in H1. by simplify_eq.
Qed.

Lemma companion_key_artifact pkg f suffix :
  companion_key (artifact_key pkg f) suffix = artifact_key pkg (f ++ suffix).
Proof. unfold companion_key, artifact_key. by rewrite <- !app_assoc. Qed.

(** The objects of different artifacts, and the different objects of one, are
    under different keys. *)
Lemma suffix_inj f f' s s' :
  is_artifact f = true -> is_artifact f' = true ->
  s ∈ [] :: companion_suffixes -> s' ∈ [] :: companion_suffixes -> f ++ s = f' ++ s' ->
  f = f' /\ s = s'.
Proof.
  intros Hf Hf' Hs Hs' Heq.
  apply elem_of_cons in Hs as [->|Hs], Hs' as [->|Hs']; rewrite ?app_nil_r in Heq.
  - done.
  - by destruct (is_artifact_no_suffix f s' f').
  - by destruct (is_artifact_no_suffix f' s f).
  - destruct (app_eq_inv _ _ _ _ Heq) as [(k & -> & ->)|(k & -> & ->)].
    + assert (s = k ++ s) as Hk by (apply suffixes_independent; [done|done|by exists k]).
      apply (f_equal length) in Hk. rewrite length_app in Hk.
      destruct k; [by rewrite app_nil_r | simpl in Hk; lia].
    + assert (s' = k ++ s') as Hk by (apply suffixes_independent; [done|done|by exists k]).
      apply (f_equal length) in Hk. rewrite length_app in Hk.
      destruct k; [by rewrite app_nil_r | simpl in Hk; lia].
Qed.

Definition valid_names (pkg f : str) : Prop := ("/"%char ∉ pkg) /\ is_artifact f = true.

Lemma key_inj pkg f s pkg' f' s' :
  valid_names pkg f -> valid_names pkg' f' ->
  s ∈ [] :: companion_suffixes -> s' ∈ [] :: companion_suffixes ->
  companion_key (artifact_key pkg f) s = companion_key (artifact_key pkg' f') s' ->
  pkg = pkg' /\ f = f' /\ s = s'.
Proof.
  intros [Hp Hf] [Hp' Hf'] Hs Hs' Heq. rewrite !companion_key_artifact in Heq.
  apply artifact_key_inj in Heq as [-> Heq]; [|done..].
  by apply suffix_inj in Heq as [-> ->].
Qed.

(** ** Bodies go only behind a tombstone *)

Definition tombstone_at (pkg f : str) (s : store) : Prop := present s (tombstone_key (artifact_key pkg f)).
Definition frozen_at (pkg f : str) (s : store) : Prop := present s (frozen_key (artifact_key pkg f)).
Definition body_at (pkg f : str) (s : store) : Prop := present s (artifact_key pkg f).

(** What every participant promises: tombstones and freeze markers are
    permanent, and a body that goes has its tombstone standing. *)
Definition fence_rel (w w' : world) : Prop :=
  forall b pkg f, valid_names pkg f ->
  (tombstone_at pkg f (w b) -> tombstone_at pkg f (w' b))
  /\ (frozen_at pkg f (w b) -> frozen_at pkg f (w' b))
  /\ (body_at pkg f (w b) -> body_at pkg f (w' b) \/ tombstone_at pkg f (w' b)).

#[global] Instance fence_rel_preorder : PreOrder fence_rel.
Proof.
  split.
  - intros w b pkg f _. auto.
  - intros w1 w2 w3 H12 H23 b pkg f Hv. specialize (H12 b pkg f Hv). specialize (H23 b pkg f Hv).
    naive_solver.
Qed.

Section fences.
Context {D : Digest} `{ClaimCodec} {JS : Codec Sidecar} {JF : Codec FilenameBody} {E : Etags}.

(** One operation keeps the promise if it deletes no fence, and a body only
    where the tombstone stands. *)
Lemma fence_step (w : world) b R (o : op R) r s :
  wf_world w -> op_step o (w b) r s ->
  (forall pkg f, valid_names pkg f ->
    ~ deletes o (tombstone_key (artifact_key pkg f)) /\ ~ deletes o (frozen_key (artifact_key pkg f))
    /\ (deletes o (artifact_key pkg f) -> tombstone_at pkg f (w b))) ->
  fence_rel w (<[b := s]> w).
Proof.
  intros Hw Hstep Ho c pkg f Hv. destruct (decide (b = c)) as [<-|Hne];
    [rewrite fn_lookup_insert | rewrite fn_lookup_insert_ne by done; auto].
  destruct (Ho pkg f Hv) as (Ht & Hf & Hb).
  assert (forall k, present (w b) k -> ~ deletes o k -> present s k) as Hkeep
    by (intros k; by eapply op_step_present).
  split; [|split]; [intros Hp; by apply Hkeep..|]. intros Hp.
  destruct o; try (left; by apply Hkeep).
  destruct (decide (artifact_key pkg f ∈ keys)) as [Hin|Hin];
    [right; apply Hkeep; [by apply Hb|done] | left; by apply Hkeep].
Qed.

Lemma fence_stable pkg f b : valid_names pkg f -> stable fence_rel (fun w => tombstone_at pkg f (w b)).
Proof. intros Hv w w' Ht HR. by apply HR. Qed.

(** Operations that delete nothing keep the promise. *)
Lemma fence_step_write (w : world) b R (o : op R) r s :
  wf_world w -> op_step o (w b) r s -> (forall k, ~ deletes o k) -> fence_rel w (<[b := s]> w).
Proof.
  intros Hw Hstep Hd. eapply fence_step; [done..|]. intros pkg f _. split; [apply Hd|].
  split; [apply Hd|]. intros Hx. by apply Hd in Hx.
Qed.

(** A record-object delete with the tombstone known to stand. *)
Lemma not_in_by_suffix pkg f pkg' f' s (suffixes : list str) :
  valid_names pkg f -> valid_names pkg' f' -> s ∈ [] :: companion_suffixes ->
  Forall (fun t => t ∈ [] :: companion_suffixes) suffixes ->
  companion_key (artifact_key pkg' f') s ∈ companion_key (artifact_key pkg f) <$> suffixes ->
  pkg = pkg' /\ f = f' /\ s ∈ suffixes.
Proof.
  intros Hv Hv' Hs Hall (t & Heq & Ht)%list_elem_of_fmap. rewrite Forall_forall in Hall.
  apply key_inj in Heq as (-> & -> & ->); auto.
Qed.

Definition record_suffixes : list str := [[]; SIDECAR_SUFFIX; METADATA_SUFFIX; PROVENANCE_SUFFIX].

Lemma record_object_keys_suffixes akey :
  record_object_keys akey = companion_key akey <$> record_suffixes.
Proof.
  unfold record_object_keys, record_suffixes. cbn [fmap list_fmap]. f_equal.
  unfold companion_key. by rewrite app_nil_r.
Qed.

(** The deletes of this file name only objects of one valid artifact, never its
    tombstone or freeze marker; a delete that names the body needs the tombstone. *)
Lemma fence_delete (w : world) b pkg f suffixes r s :
  wf_world w -> valid_names pkg f ->
  Forall (fun t => t ∈ [] :: companion_suffixes) suffixes ->
  TOMBSTONE_SUFFIX ∉ suffixes -> FROZEN_SUFFIX ∉ suffixes ->
  ([] ∈ suffixes -> tombstone_at pkg f (w b)) ->
  op_step (DeleteKeys (companion_key (artifact_key pkg f) <$> suffixes)) (w b) r s ->
  fence_rel w (<[b := s]> w).
Proof.
  intros Hw Hv Hall Ht Hf Hbody Hstep. eapply fence_step; [done..|]. intros pkg' f' Hv'.
  split; [|split]; simpl.
  - intros Hin. apply (not_in_by_suffix pkg f pkg' f') in Hin as (_ & _ & Hin); try done. set_solver.
  - intros Hin. apply (not_in_by_suffix pkg f pkg' f') in Hin as (_ & _ & Hin); try done. set_solver.
  - intros Hin. rewrite <- (app_nil_r (artifact_key pkg' f')) in Hin.
    apply (not_in_by_suffix pkg f pkg' f' []) in Hin as (-> & -> & Hin); try done; [by apply Hbody|].
    set_solver.
Qed.

(** The suffix lists the deletes use. *)
Ltac suffix_side :=
  match goal with
  | |- Forall _ _ => apply (bool_decide_unpack _); vm_compute; exact I
  | |- _ ∉ _ => apply (bool_decide_unpack _); vm_compute; exact I
  end.

Ltac suffix_in := apply (bool_decide_unpack _); vm_compute; exact I.

Abbreviation kept K p := (keeps fence_rel K (fun _ _ => True) p).

Lemma kept_tombstone_write A b pkg f K (k : unit -> prog (res A)) :
  valid_names pkg f -> stable fence_rel K ->
  kept (fun w => K w /\ tombstone_at pkg f (w b)) (k tt) ->
  kept K (pbind_ok (tombstone_write b (artifact_key pkg f) f) k).
Proof.
  intros Hv HK Hk w r s Hw HKw Hstep.
  assert (fence_rel w (<[b := s]> w)) as HR by (eapply fence_step_write; [done|done|]; by intros ? []).
  split; [done|]. destruct r as [c|e].
  - exists (fun w => K w /\ tombstone_at pkg f (w b)). split; [|split; [|exact Hk]].
    + intros w1 w2 [H1 H2] H12. split; [by eapply HK | by eapply (fence_stable pkg f b)].
    + split; [by eapply HK|]. rewrite fn_lookup_insert.
      by eapply put_if_absent_present.
  - exists K. split; [done|]. split; [by eapply HK | exact I].
Qed.

Lemma kept_delete A b pkg f suffixes K (k : unit -> prog (res A)) :
  valid_names pkg f -> stable fence_rel K ->
  Forall (fun t => t ∈ [] :: companion_suffixes) suffixes ->
  TOMBSTONE_SUFFIX ∉ suffixes -> FROZEN_SUFFIX ∉ suffixes ->
  ([] ∈ suffixes -> forall w, K w -> tombstone_at pkg f (w b)) -> kept K (k tt) ->
  kept K (pbind_ok (call b (DeleteKeys (companion_key (artifact_key pkg f) <$> suffixes))) k).
Proof.
  intros Hv HK Hall Ht Hf Hbody Hk w r s Hw HKw Hstep.
  assert (fence_rel w (<[b := s]> w)) as HR by (eapply fence_delete; eauto).
  split; [done|]. exists K. split; [done|]. split; [by eapply HK|]. by destruct r as [[]|].
Qed.

Lemma kept_drop A b pkg f K (k : unit -> prog (res A)) :
  valid_names pkg f -> stable fence_rel K -> (forall w, K w -> tombstone_at pkg f (w b)) ->
  kept K (k tt) -> kept K (pbind_ok (drop_record_objects b pkg f) k).
Proof.
  intros Hv HK Ht Hk. unfold drop_record_objects. cbv zeta. rewrite record_object_keys_suffixes.
  change [mirror_quarantined_key (artifact_key pkg f); superseding_key (artifact_key pkg f)]
    with (companion_key (artifact_key pkg f) <$> [MIRROR_QUARANTINED_SUFFIX; SUPERSEDING_SUFFIX]).
  rewrite <- fmap_app. apply kept_delete; [done|done|suffix_side|suffix_side|suffix_side|by intros _|done].
Qed.

(** Programs that delete nothing keep what is known. *)
Definition no_deletes (b : nat) (R : Type) (o : op R) : Prop := forall k, ~ deletes o k.

Lemma kept_no_deletes A B K (p : prog A) (k : A -> prog B) :
  stable fence_rel K -> guar no_deletes (fun _ => True) p -> (forall a, kept K (k a)) ->
  kept K (pbind p k).
Proof.
  intros HK Hp Hk. apply keeps_bind; [|done].
  eapply keeps_mono; [|done|eapply keeps_guar; [|done|exact Hp]].
  - intros a K' _ -> _. apply Hk.
  - intros b R o w r s Hd Hw Hstep. by eapply fence_step_write.
Qed.

Lemma kept_no_deletes_ok A B K (p : prog (res A)) (k : A -> prog (res B)) :
  stable fence_rel K -> guar no_deletes (fun _ => True) p -> (forall a, kept K (k a)) ->
  kept K (pbind_ok p k).
Proof. intros HK Hp Hk. apply kept_no_deletes; [done|done|]. by intros []. Qed.

Lemma guar_quarantine b pkg f : guar no_deletes (fun _ => True) (quarantine b pkg f).
Proof.
  apply guar_call_bind; [by intros ? []|]. intros [bytes|e] _; [|by case_match].
  eapply (guar_bind_ok _ _ _ (fun _ => True)); [|done|done].
  apply guar_call_ok; [by intros ? []|intros [] _; [done|]|done].
  apply guar_call_ok; [by intros ? []|intros existing _|done]. by case_decide.
Qed.

Lemma kept_read A B b (o : op (res A)) K (k : A -> prog (res B)) :
  is_read o = true -> stable fence_rel K -> (forall a, kept K (k a)) -> kept K (pbind_ok (call b o) k).
Proof. intros Hr HK Hk. by apply (keeps_read_ok fence_rel). Qed.

Lemma true_stable : stable fence_rel (fun _ => True).
Proof. by intros ????. Qed.

Lemma kept_tombstone_side b pkg f : valid_names pkg f -> kept (fun _ => True) (tombstone_side b pkg f).
Proof.
  intros Hv. pose proof true_stable as HT. unfold tombstone_side. cbv zeta.
  apply kept_read; [done|done|]. intros already.
  apply kept_read; [done|done|]. intros had_body. case_match.
  - do 4 (apply kept_read; [done|done|]; intros ?). case_match; [done|].
    change [_; _; _; _] with (companion_key (artifact_key pkg f) <$>
      [SIDECAR_SUFFIX; METADATA_SUFFIX; PROVENANCE_SUFFIX; MIRROR_QUARANTINED_SUFFIX]).
    apply kept_delete; [done|done|suffix_side|suffix_side|suffix_side| |done].
    intros Hin. apply (bool_decide_pack _) in Hin. by vm_compute in Hin.
  - apply kept_tombstone_write; [done|done|]. apply kept_drop; [done| |by intros w []|done].
    intros w1 w2 [_ H1] H12. split; [done|]. by eapply (fence_stable pkg f b).
Qed.

Lemma kept_freeze_side b pkg f : valid_names pkg f -> kept (fun _ => True) (freeze_side b pkg f).
Proof.
  intros Hv. pose proof true_stable as HT. unfold freeze_side. cbv zeta.
  apply kept_no_deletes_ok; [done|by split; [intros ? []|]|]. intros created.
  apply kept_no_deletes_ok; [done|apply guar_quarantine|]. intros _.
  apply kept_tombstone_write; [done|done|]. apply kept_drop; [done| |by intros w []|done].
  intros w1 w2 [_ H1] H12. split; [done|]. by eapply (fence_stable pkg f b).
Qed.

(** Composition when the rest needs no knowledge. *)
Lemma kept_seq A B K (p : prog (res A)) (f : A -> prog (res B)) :
  stable fence_rel K -> kept K p -> (forall a K', stable fence_rel K' -> kept K' (f a)) ->
  kept K (pbind_ok p f).
Proof.
  intros HK Hp Hf. apply keeps_bind; [|done]. eapply keeps_mono; [|done|exact Hp].
  intros [a|e] K' _ _ HK'; [by apply Hf | done].
Qed.

(** The audit's completion: the tombstone is re-confirmed before the delete. *)
Lemma kept_complete_one b pkg f K n :
  valid_names pkg f -> stable fence_rel K -> kept K (complete_one b pkg n f).
Proof.
  intros Hv HK. unfold complete_one. cbv zeta. intros w r s Hw HKw Hstep.
  pose proof (op_step_read _ _ _ _ _ (eq_refl : is_read (HeadExists _) = true) Hstep) as ->.
  rewrite fn_insert_id. split; [reflexivity|]. destruct r as [[]|e]; [|by exists K|by exists K].
  pose proof (head_exists_present _ _ _ _ Hstep eq_refl) as Ht.
  exists (fun w => K w /\ tombstone_at pkg f (w b)).
  assert (stable fence_rel (fun w => K w /\ tombstone_at pkg f (w b))) as HK'.
  { intros w1 w2 [H1 H2] H12. split; [by eapply HK | by eapply (fence_stable pkg f b)]. }
  split; [done|]. split; [done|]. cbn [negb]. apply kept_read; [done|done|]. intros []; [done|].
  rewrite record_object_keys_suffixes.
  apply kept_delete; [done|done|suffix_side|suffix_side|suffix_side|by intros _ ? []|done].
Qed.

Lemma kept_complete b pkg fs :
  Forall (valid_names pkg) fs -> kept (fun _ => True) (complete_interrupted_deletes b pkg fs).
Proof.
  intros Hfs. unfold complete_interrupted_deletes. generalize 0%nat.
  assert (forall K n, stable fence_rel K -> kept K (pfor fs n (complete_one b pkg))) as Hall;
    [|intros n; by apply Hall, true_stable].
  induction Hfs as [|f fs Hf _ IH]; intros K n HK; [done|]. cbn [pfor].
  apply kept_seq; [done|by apply kept_complete_one|]. intros a K' HK'. by apply IH.
Qed.

(** Who acts on the bodies of a fleet's buckets: the executor's tombstoning and
    freezing, the audit's completion of deletes, and any program that deletes
    nothing (uploads, copies, claims, status changes). *)
Inductive remover : prog unit -> Prop :=
  | remover_tombstone b pkg f : valid_names pkg f -> remover (thread (tombstone_side b pkg f))
  | remover_freeze b pkg f : valid_names pkg f -> remover (thread (freeze_side b pkg f))
  | remover_complete b pkg fs :
      Forall (valid_names pkg) fs -> remover (thread (complete_interrupted_deletes b pkg fs))
  | remover_writer p : guar no_deletes (fun _ => True) p -> remover p.

Lemma keeping_thread A (p : prog A) w : kept (fun _ => True) p -> keeping fence_rel w (thread p).
Proof.
  intros Hp. exists (fun _ => True). split; [apply true_stable|]. split; [done|].
  apply keeps_bind; [|apply true_stable]. eapply keeps_mono; [|apply true_stable|exact Hp]. done.
Qed.

Lemma keeping_remover w p : remover p -> keeping fence_rel w p.
Proof.
  destruct 1 as [b pkg f Hv|b pkg f Hv|b pkg fs Hv|p Hp].
  - by apply keeping_thread, kept_tombstone_side.
  - by apply keeping_thread, kept_freeze_side.
  - by apply keeping_thread, kept_complete.
  - exists (fun _ => True). split; [apply true_stable|]. split; [done|].
    eapply keeps_mono; [|apply true_stable|eapply keeps_guar; [|apply true_stable|exact Hp]]; [done|].
    intros b R o w1 r s Hd Hw Hstep. by eapply fence_step_write.
Qed.

(** ** A freeze never loses the bytes *)

Section freezing.
Variables (b : nat) (pkg f bytes : str).
Hypothesis names : valid_names pkg f.

Definition qkey : str := quarantine_key pkg f (sha256_hex bytes).

Lemma qkey_foreign pkg' f' s : companion_key (artifact_key pkg' f') s ≠ qkey.
Proof. done. Qed.

(** The bytes stand under their own key or under the quarantine key. *)
Definition preserved (w : world) : Prop :=
  contents (w b) (artifact_key pkg f) = Some bytes \/ contents (w b) qkey = Some bytes.

Definition freeze_done (r : res bool) (w : world) : Prop :=
  match r with
  | Ok _ => tombstone_at pkg f (w b) /\ frozen_at pkg f (w b) /\ ~ body_at pkg f (w b)
            /\ contents (w b) qkey = Some bytes
  | Err _ => True
  end.

Lemma other_suffix s t : s ∈ [] :: companion_suffixes -> t ∈ [] :: companion_suffixes -> s ≠ t ->
  companion_key (artifact_key pkg f) s ≠ companion_key (artifact_key pkg f) t.
Proof. intros Hs Ht Hne Heq. apply key_inj in Heq as (_ & _ & ?); done. Qed.

(** The removal at the end: behind both fences, with the copy in place. *)
Lemma holds_freeze_drop c w :
  wf_world w -> contents (w b) qkey = Some bytes -> frozen_at pkg f (w b) -> tombstone_at pkg f (w b) ->
  holds preserved freeze_done (let*? _ := drop_record_objects b pkg f in Ret (Ok c)) w.
Proof.
  intros Hw' Hq' Hf' Ht'.
  set (keys := record_object_keys (artifact_key pkg f)
     ++ [mirror_quarantined_key (artifact_key pkg f); superseding_key (artifact_key pkg f)]).
  assert (forall k s', ~ (k ∈ keys) -> forall x, op_step (DeleteKeys keys) (w b) x s' ->
            contents s' k = contents (w b) k) as Hframe.
  { intros k s' Hk x Hx. by apply (op_step_frame _ _ _ _ _ _ (Hw' b) Hx). }
  assert ((qkey ∉ keys) /\ (tombstone_key (artifact_key pkg f) ∉ keys)
          /\ (frozen_key (artifact_key pkg f) ∉ keys)) as (Hqk & Htk & Hfk).
  { unfold keys. rewrite record_object_keys_suffixes.
    change [_; _] with (companion_key (artifact_key pkg f) <$> [MIRROR_QUARANTINED_SUFFIX; SUPERSEDING_SUFFIX]).
    rewrite <- fmap_app. split; [|split].
    - by intros (x & Hx & _)%list_elem_of_fmap.
    - intros Hin. apply (not_in_by_suffix pkg f) in Hin as (_ & _ & Hin); [|done|done|suffix_in|suffix_side].
      apply (bool_decide_pack _) in Hin. by vm_compute in Hin.
    - intros Hin. apply (not_in_by_suffix pkg f) in Hin as (_ & _ & Hin); [|done|done|suffix_in|suffix_side].
      apply (bool_decide_pack _) in Hin. by vm_compute in Hin. }
  apply holds_call_ok; [done|by right| |].
  - intros [] s' Hs' Hw''. apply holds_ret.
    + right. rewrite fn_lookup_insert. by rewrite (Hframe _ _ Hqk _ Hs').
    + unfold freeze_done, tombstone_at, frozen_at, present. rewrite fn_lookup_insert.
      rewrite (Hframe _ _ Hqk _ Hs'), (Hframe _ _ Htk _ Hs'), (Hframe _ _ Hfk _ Hs').
      split; [done|]. split; [done|]. split; [|done].
      by eapply (delete_keys_done keys _ _ _ tt); [exact Hs'|done|apply list_elem_of_here].
  - intros e s' Hs'. split; [|done]. right. rewrite fn_lookup_insert. by rewrite (Hframe _ _ Hqk _ Hs').
Qed.

(** After the copy: tombstone, then the removal. *)
Lemma holds_freeze_tail c w :
  wf_world w -> contents (w b) qkey = Some bytes -> frozen_at pkg f (w b) ->
  holds preserved freeze_done
    (let*? _ := tombstone_write b (artifact_key pkg f) f in
     let*? _ := drop_record_objects b pkg f in Ret (Ok c)) w.
Proof.
  intros Hw Hq Hf. apply holds_bind_ok. unfold tombstone_write.
  assert (forall s x, op_step (PutIfAbsent (tombstone_key (artifact_key pkg f)) (encode (MkFilenameBody f)))
            (w b) x s -> contents s qkey = Some bytes /\ frozen_at pkg f s) as Hkeep.
  { intros s x Hs. split.
    - rewrite (op_step_frame _ _ _ _ _ qkey (Hw b) Hs) by apply qkey_foreign. done.
    - unfold frozen_at, present.
      rewrite (op_step_frame _ _ _ _ _ (frozen_key (artifact_key pkg f)) (Hw b) Hs); [done|].
      by apply other_suffix; [suffix_in|suffix_in|]. }
  apply holds_call_ok; [done|by right| |].
  2:{ intros e s Hs. destruct (Hkeep _ _ Hs) as [Hq' _].
      assert (preserved (<[b := s]> w)) as Hp by (right; by rewrite fn_lookup_insert).
      by split; [|split]. }
  intros a s Hs Hw'. destruct (Hkeep _ _ Hs) as [Hq' Hf'].
  pose proof (put_if_absent_present _ _ _ a _ _ Hs eq_refl) as Ht'.
  apply holds_ret; [right; by rewrite fn_lookup_insert|].
  apply holds_freeze_drop; [done|by rewrite fn_lookup_insert..].
Qed.

Lemma holds_quarantine w :
  wf_world w -> contents (w b) (artifact_key pkg f) = Some bytes -> frozen_at pkg f (w b) ->
  holds preserved
    (fun r w' => match r with
                 | Ok _ => wf_world w' /\ contents (w' b) qkey = Some bytes /\ frozen_at pkg f (w' b)
                 | Err _ => True
                 end) (quarantine b pkg f) w.
Proof.
  intros Hw Hb Hf. unfold quarantine. apply holds_call; [done|by left|]. intros r s Hs Hw1.
  pose proof (op_step_read _ _ _ _ _ (eq_refl : is_read (GetBytes _) = true) Hs) as ->.
  rewrite fn_insert_id in *. destruct r as [body|e].
  2:{ destruct (is_not_found e) eqn:He; [|by apply holds_ret; [left|]].
      apply bool_decide_eq_true in He as ->. pose proof (get_bytes_not_found _ _ _ _ Hs eq_refl). congruence. }
  assert (body = bytes) as -> by (pose proof (get_bytes_answer _ _ _ _ _ Hs eq_refl); congruence).
  apply holds_bind_ok. unfold quarantine_bytes. cbv zeta. fold qkey.
  assert (forall s x, op_step (PutIfAbsent qkey bytes) (w b) x s ->
            contents s (artifact_key pkg f) = Some bytes /\ frozen_at pkg f s) as Hkeep.
  { intros s1 x Hs1. unfold frozen_at, present.
    rewrite (op_step_frame _ _ _ _ _ (artifact_key pkg f) (Hw b) Hs1) by done.
    by rewrite (op_step_frame _ _ _ _ _ (frozen_key (artifact_key pkg f)) (Hw b) Hs1) by done. }
  apply holds_call_ok; [done|by left| |].
  2:{ intros e s1 Hs1. destruct (Hkeep _ _ Hs1) as [Hb1 _].
      assert (preserved (<[b := s1]> w)) as Hp by (left; by rewrite fn_lookup_insert). by split. }
  intros created s1 Hs1 Hw2. destruct (Hkeep _ _ Hs1) as [Hb1 Hf1].
  set (w1 := <[b := s1]> w) in *. assert (w1 b = s1) as H1 by (unfold w1; by rewrite fn_lookup_insert).
  rewrite <- H1 in Hb1, Hf1.
  destruct created.
  { pose proof (put_if_absent_created _ _ _ _ _ Hs1 eq_refl) as Hq. rewrite <- H1 in Hq.
    apply holds_ret; [by right|]. apply holds_ret; [by right|done]. }
  apply holds_call_ok; [done|by left| |].
  - intros existing s2 Hs2 Hw3.
    pose proof (op_step_read _ _ _ _ _ (eq_refl : is_read (GetBytes _) = true) Hs2) as ->.
    rewrite fn_insert_id in *. pose proof (get_bytes_answer _ _ _ _ _ Hs2 eq_refl) as Hq.
    case_decide as He; [subst existing|by apply holds_ret; [left|split; [|left]]].
    apply holds_ret; [by right|]. apply holds_ret; [by right|done].
  - intros e s2 Hs2.
    pose proof (op_step_read _ _ _ _ _ (eq_refl : is_read (GetBytes _) = true) Hs2) as ->.
    rewrite fn_insert_id. by repeat split; left.
Qed.

Lemma holds_freeze w :
  wf_world w -> contents (w b) (artifact_key pkg f) = Some bytes ->
  holds preserved freeze_done (freeze_side b pkg f) w.
Proof.
  intros Hw Hb. unfold freeze_side, write_frozen_marker. cbv zeta.
  assert (forall s x, op_step (PutIfAbsent (frozen_key (artifact_key pkg f)) (encode (MkFilenameBody f)))
            (w b) x s -> contents s (artifact_key pkg f) = Some bytes) as Hkeep.
  { intros s x Hs. rewrite (op_step_frame _ _ _ _ _ (artifact_key pkg f) (Hw b) Hs); [done|].
    simpl. rewrite <- (app_nil_r (artifact_key pkg f)) at 2. by apply other_suffix; [suffix_in|suffix_in|]. }
  apply holds_call_ok; [done|by left| |].
  2:{ intros e s Hs. split; [|done]. left. rewrite fn_lookup_insert. by eapply Hkeep. }
  intros created s Hs Hw1. apply holds_bind_ok.
  eapply holds_mono; [|apply holds_quarantine; [done|rewrite fn_lookup_insert; by eapply Hkeep|]].
  - intros [x|e] w' HI; [|done]. intros (Hw' & Hq & Hf). by apply holds_freeze_tail.
  - rewrite fn_lookup_insert. by eapply put_if_absent_present.
Qed.

End freezing.

(** ** A successful tombstoning settles its side *)

(** The objects a settled deletion has none of. *)
Definition swept_suffixes : list str :=
  [[]; SIDECAR_SUFFIX; METADATA_SUFFIX; PROVENANCE_SUFFIX; MIRROR_QUARANTINED_SUFFIX].

Definition settled (pkg f : str) (s : store) : Prop :=
  tombstone_at pkg f s
  /\ forall suffix, suffix ∈ swept_suffixes -> ~ present s (companion_key (artifact_key pkg f) suffix).

Definition settled_side (b : nat) (pkg f : str) (w : world) (r : res bool) (w' : world) : Prop :=
  match r with
  | Ok _ => settled pkg f (w' b) /\ (frozen_at pkg f (w' b) <-> frozen_at pkg f (w b))
            /\ (forall c, c ≠ b -> w' c = w c) /\ wf_world w'
  | Err _ => True
  end.

Lemma keys_frame (w : world) b pkg f suffixes t r s :
  wf_world w -> valid_names pkg f -> Forall (fun t => t ∈ [] :: companion_suffixes) suffixes ->
  t ∈ [] :: companion_suffixes -> t ∉ suffixes ->
  op_step (DeleteKeys (companion_key (artifact_key pkg f) <$> suffixes)) (w b) r s ->
  contents s (companion_key (artifact_key pkg f) t) = contents (w b) (companion_key (artifact_key pkg f) t).
Proof.
  intros Hw Hv Hall Ht Hnt Hs. apply (op_step_frame _ _ _ _ _ _ (Hw b) Hs). simpl.
  intros Hin. by apply (not_in_by_suffix pkg f) in Hin as (_ & _ & Hin).
Qed.

Lemma drop_keys_suffixes pkg f :
  record_object_keys (artifact_key pkg f)
    ++ [mirror_quarantined_key (artifact_key pkg f); superseding_key (artifact_key pkg f)]
  = companion_key (artifact_key pkg f) <$> swept_suffixes ++ [SUPERSEDING_SUFFIX].
Proof. rewrite record_object_keys_suffixes. done. Qed.

(** Deleting the swept suffixes of a filename whose tombstone stands settles it. *)
Lemma settles (w w0 : world) b pkg f suffixes u s :
  wf_world w -> valid_names pkg f -> Forall (fun t => t ∈ [] :: companion_suffixes) suffixes ->
  TOMBSTONE_SUFFIX ∉ suffixes -> FROZEN_SUFFIX ∉ suffixes ->
  tombstone_at pkg f (w b) ->
  (forall t, t ∈ swept_suffixes -> t ∈ suffixes \/ ~ present s (companion_key (artifact_key pkg f) t)) ->
  op_step (DeleteKeys (companion_key (artifact_key pkg f) <$> suffixes)) (w b) (Ok u) s ->
  (frozen_at pkg f (w b) <-> frozen_at pkg f (w0 b)) -> (forall c, c ≠ b -> w c = w0 c) ->
  settled_side b pkg f w0 (Ok true) (<[b := s]> w).
Proof.
  intros Hw Hv Hall Ht Hf Htomb Hswept Hs Hfz Hoth. unfold settled_side, settled.
  rewrite !fn_lookup_insert.
  split; [split|split; [|split]].
  - unfold tombstone_at, tombstone_key, present. by rewrite (keys_frame w b pkg f suffixes TOMBSTONE_SUFFIX (Ok u) s)
      by (done || suffix_in).
  - intros t Hin. destruct (Hswept t Hin) as [Hd|Hd]; [|done].
    eapply (delete_keys_done _ _ _ _ u); [exact Hs|done|]. apply list_elem_of_fmap. by exists t.
  - rewrite <- Hfz. unfold frozen_at, frozen_key, present.
    by rewrite (keys_frame w b pkg f suffixes FROZEN_SUFFIX (Ok u) s) by (done || suffix_in).
  - intros c Hc. rewrite fn_lookup_insert_ne by done. by apply Hoth.
  - by eapply wf_insert.
Qed.

(** The branch that writes the tombstone and sweeps. *)
Lemma holds_fresh_tombstone b pkg f w :
  wf_world w -> valid_names pkg f ->
  holds (fun _ => True) (settled_side b pkg f w)
    (let*? _ := tombstone_write b (artifact_key pkg f) f in
     let*? _ := drop_record_objects b pkg f in Ret (Ok true)) w.
Proof.
  intros Hw Hv.
  apply holds_bind_ok. unfold tombstone_write.
  apply holds_call_ok; [done|done| |done]. intros c s Hs Hw1. apply holds_ret; [done|].
  apply holds_bind_ok. unfold drop_record_objects. cbv zeta. rewrite drop_keys_suffixes.
  split; [done|]. intros r s2 Hs2. apply holds_ret; [done|]. destruct r as [u|e]; [|by split].
  apply holds_ret; [done|].
  eapply (settles _ w b pkg f (swept_suffixes ++ [SUPERSEDING_SUFFIX]) u);
    [exact Hw1|done|suffix_side|suffix_side|suffix_side| | |exact Hs2| |].
  + rewrite fn_lookup_insert. by eapply put_if_absent_present.
  + intros t Ht. left. by apply elem_of_app; left.
  + rewrite fn_lookup_insert. unfold frozen_at, present.
    rewrite (op_step_frame _ _ _ _ _ (frozen_key (artifact_key pkg f)) (Hw b) Hs); [done|]. simpl.
    intros Heq. apply key_inj in Heq as (_ & _ & Heq); [done|done|done|suffix_in|suffix_in].
  + intros d Hd. by rewrite fn_lookup_insert_ne.
Qed.

Lemma holds_tombstone_side b pkg f w :
  wf_world w -> valid_names pkg f ->
  holds (fun _ => True) (settled_side b pkg f w) (tombstone_side b pkg f) w.
Proof.
  intros Hw Hv. unfold tombstone_side. cbv zeta. set (akey := artifact_key pkg f).
  apply holds_read_ok; [done|done| |done]. intros already Hal.
  apply holds_read_ok; [done|done| |done]. intros had_body Hhb.
  pose proof (head_exists_answer _ _ _ _ _ Hal eq_refl) as Hal'.
  pose proof (head_exists_answer _ _ _ _ _ Hhb eq_refl) as Hhb'.
  assert (companion_key akey [] = akey) as Hnil by apply app_nil_r.
  destruct (already && negb had_body) eqn:Hbr.
  - apply andb_true_iff in Hbr as [-> Hnb%negb_true_iff]. subst had_body.
    assert (tombstone_at pkg f (w b)) as Ht by by apply Hal'.
    assert (~ present (w b) (companion_key akey [])) as Hb by (rewrite Hnil, <- Hhb'; done).
    apply holds_read_ok; [done|done| |done]. intros c1 H1.
    apply holds_read_ok; [done|done| |done]. intros c2 H2.
    apply holds_read_ok; [done|done| |done]. intros c3 H3.
    apply holds_read_ok; [done|done| |done]. intros c4 H4.
    destruct (negb c1 && negb c2 && negb c3 && negb c4) eqn:Hno.
    + apply holds_ret; [done|]. unfold settled_side, settled.
      split; [split; [done|]|done]. bool_to_prop. subst.
      pose proof (head_exists_answer _ _ _ _ _ H1 eq_refl). pose proof (head_exists_answer _ _ _ _ _ H2 eq_refl).
      pose proof (head_exists_answer _ _ _ _ _ H3 eq_refl). pose proof (head_exists_answer _ _ _ _ _ H4 eq_refl).
      unfold swept_suffixes. intros t Hin. repeat (apply elem_of_cons in Hin as [->|Hin]; [naive_solver|]).
      by apply elem_of_nil in Hin.
    + change [_; _; _; _] with (companion_key akey <$>
        [SIDECAR_SUFFIX; METADATA_SUFFIX; PROVENANCE_SUFFIX; MIRROR_QUARANTINED_SUFFIX]).
      apply holds_call_ok; [done|done| |done]. intros u s Hs Hw'. apply holds_ret; [done|].
      eapply (settles w w b pkg f
        [SIDECAR_SUFFIX; METADATA_SUFFIX; PROVENANCE_SUFFIX; MIRROR_QUARANTINED_SUFFIX] u);
        [exact Hw|done|suffix_side|suffix_side|suffix_side|done| |exact Hs|done|done].
      unfold swept_suffixes. intros t Hin. apply elem_of_cons in Hin as [->|Hin]; [right|by left].
      unfold present. rewrite (keys_frame w b pkg f
        [SIDECAR_SUFFIX; METADATA_SUFFIX; PROVENANCE_SUFFIX; MIRROR_QUARANTINED_SUFFIX] [] (Ok u) s);
        [exact Hb|done|done|suffix_side|suffix_in|suffix_side|exact Hs].
  - by apply holds_fresh_tombstone.
Qed.

(** ** What reading a record yields *)

Lemma names_listing prefix n s :
  "/"%char ∉ n ->
  n ∈ names_under prefix (entry_of <$> list_where (in_dir prefix) s) <-> present s (prefix ++ n).
Proof.
  intros Hn. unfold names_under. rewrite list_elem_of_omap. split.
  - intros (e & (p & -> & Hp)%list_elem_of_fmap & Hs). apply elem_of_list_where in Hp as [_ Ho].
    simpl in Hs. apply strip_prefix_Some in Hs. unfold present, contents. by rewrite <- Hs, Ho.
  - unfold present, contents. rewrite fmap_is_Some. intros [o Ho].
    exists (entry_of (prefix ++ n, o)). simpl. rewrite strip_prefix_app. split; [|done].
    apply list_elem_of_fmap. eexists. split; [done|]. apply elem_of_list_where. split; [|done].
    simpl. unfold in_dir. rewrite strip_prefix_app. apply negb_true_iff.
    destruct (contains_byte "/"%char n) eqn:Hc; [|done]. by apply contains_byte_true in Hc.
Qed.

Definition has_object (s : store) (pkg f suffix : str) : bool :=
  bool_decide (is_Some (contents s (companion_key (artifact_key pkg f) suffix))).

(** A record read, by any fallible execution, is the bucket's presence bits
    with the stored sidecar, if there is one. *)
Definition reads_as (s : store) (pkg f : str) (r : Record_) : Prop :=
  exists sc claim,
    r = from_listing (has_object s pkg f) sc claim
    /\ (~ present s (companion_key (artifact_key pkg f) SIDECAR_SUFFIX) -> sc = None).

Lemma from_listing_ext has has' sc claim :
  (forall suffix, suffix ∈ [] :: companion_suffixes -> has suffix = has' suffix) ->
  from_listing has sc claim = from_listing has' sc claim.
Proof. intros Hh. unfold from_listing. rewrite !Hh; [done|suffix_in..]. Qed.

Lemma holds_read_record b pkg f w :
  "/"%char ∉ f ->
  holds (fun _ => True)
    (fun r w' => match r with Ok rec => reads_as (w b) pkg f rec /\ w' = w | Err _ => True end)
    (read_record b pkg f) w.
Proof.
  intros Hf. unfold read_record. cbv zeta. set (prefix := PACKAGES_PREFIX ++ pkg ++ &"/").
  apply holds_read_ok; [done|done| |done]. intros entries Hl.
  apply (list_dir_answer _ _ _ _ entries) in Hl as ->; [|done].
  set (names := names_under prefix _).
  assert (forall suffix, suffix ∈ [] :: companion_suffixes ->
            f ++ suffix ∈ names <-> present (w b) (companion_key (artifact_key pkg f) suffix)) as Hnames.
  { intros suffix Hs. unfold names. rewrite names_listing.
    - unfold prefix, companion_key, artifact_key. by rewrite <- !app_assoc.
    - rewrite elem_of_app. intros [?|Hin]; [done|]. revert Hs Hin. clear.
      intros Hs Hin. assert (Forall (fun s => "/"%char ∉ s) ([] :: companion_suffixes)) as Hall
        by (apply (bool_decide_unpack _); vm_compute; exact I).
      rewrite Forall_forall in Hall. by apply (Hall suffix). }
  apply holds_bind_ok. unfold read_pkg_origin, read_origin_observation.
  apply holds_bind_ok. apply holds_read_ok; [done|done| |done]. intros ob _.
  apply holds_ret; [done|].
  destruct (match ob with Some (bytes, e) => _ | None => Ok None end) as [observed|e]; [|done].
  apply holds_ret; [done|]. set (claim := match observed with Some o => _ | None => None end).
  unfold record_from_names. apply holds_bind_ok.
  assert (forall sc, (~ present (w b) (companion_key (artifact_key pkg f) SIDECAR_SUFFIX) -> sc = None) ->
    reads_as (w b) pkg f
      (from_listing (fun suffix => bool_decide (f ++ suffix ∈ names)) sc claim)) as Hread.
  { intros sc Hsc. exists sc, claim. split; [|done]. apply from_listing_ext. intros suffix Hs.
    unfold has_object. apply bool_decide_ext. by apply Hnames. }
  case_bool_decide as Hin.
  - apply holds_read_ok; [done|done| |done]. intros bytes _. apply holds_ret; [done|].
    destruct (parse_sidecar bytes) as [sc|]; cbn [rbind]; [|done].
    destruct (sidecar_origin_ok sc); [|done]. apply holds_ret; [done|]. split; [|done].
    apply Hread. intros Hno. exfalso. apply Hno. apply Hnames; [suffix_in|done].
  - apply holds_ret; [done|]. apply holds_ret; [done|]. split; [|done]. by apply Hread.
Qed.

Lemma settled_classified pkg f s r :
  settled pkg f s -> ~ frozen_at pkg f s -> reads_as s pkg f r -> classify_record r = Tombstoned true.
Proof.
  intros [Ht Hswept] Hf (sc & claim & -> & Hsc). rewrite Hsc by (apply Hswept; suffix_in).
  assert (forall t, t ∈ swept_suffixes -> has_object s pkg f t = false) as Hno
    by (intros t Hin; by apply bool_decide_eq_false_2, Hswept).
  unfold classify_record, from_listing, leftovers; simpl.
  rewrite (bool_decide_eq_false_2 _ Hf : has_object s pkg f FROZEN_SUFFIX = false).
  rewrite (bool_decide_eq_true_2 _ Ht : has_object s pkg f TOMBSTONE_SUFFIX = true).
  rewrite !Hno by suffix_in. done.
Qed.

(** ** Adoption of sidecars and claims *)

Definition record_key (id : str * str) : str := sidecar_key (artifact_key id.1 id.2).

(** The origin a sidecar is ranked under: the one it states, and only where it
    states none that of a package claim. *)
Definition ranked_under (sc : Sidecar) (o : StatusDoc.Origin) : Prop :=
  match sc_origin sc with Some raw => origin_parse raw = Some o | None => True end.

(** A sidecar is replaced only by one of the same bytes that wins the merge. *)
Definition sidecar_move (old new : option str) : Prop :=
  exists was now sc_was sc_now o_was o_now,
    old = Some was /\ new = Some now /\ decode was = Some sc_was /\ decode now = Some sc_now
    /\ sha256 sc_was = sha256 sc_now /\ ranked_under sc_was o_was /\ ranked_under sc_now o_now
    /\ sidecar_merge sc_now (Some o_now) sc_was (Some o_was) = MA.

Lemma typed_ranked sc claim o : typed_origin sc claim = Ok o -> ranked_under sc o.
Proof. unfold typed_origin, ranked_under. destruct (sc_origin sc); [|done]. case_match; naive_solver. Qed.

Lemma parse_sidecar_Ok bytes sc : parse_sidecar bytes = Ok sc -> decode bytes = Some sc.
Proof. unfold parse_sidecar. by destruct (decode bytes); intros; simplify_eq. Qed.

Lemma guar_ret_bind G A B (Q : res B -> Prop) (r : res A) (k : A -> prog (res B)) :
  (forall a, r = Ok a -> guar G Q (k a)) -> (forall e, Q (Err e)) -> guar G Q (pbind_ok (Ret r) k).
Proof. intros Hk He. destruct r as [a|e]; [by apply Hk | apply He]. Qed.

Lemma guar_pkg_origin b pkg : guar reads (fun _ => True) (read_pkg_origin b pkg).
Proof.
  eapply (guar_bind_ok _ _ _ (fun _ => True)); [|done|done]. apply guar_call_ok; [done| |done]. done.
Qed.

Lemma guar_adopt n a b pkg f :
  guar (follows record_key sidecar_move) (fun _ => True) (adopt_loop n a b pkg f).
Proof.
  induction n as [|n IH]; [done|]. cbn [adopt_loop]. cbv zeta.
  apply guar_call_ok; [done|intros lr Hl|done]. apply guar_call_ok; [done|intros rr Hr|done].
  eapply guar_bind_ok; [apply guar_reads, guar_pkg_origin|intros lc _|done].
  eapply guar_bind_ok; [apply guar_reads, guar_pkg_origin|intros rc _|done].
  destruct lr as [[lb le]|]; [|done]. destruct rr as [[rb re]|]; [|done].
  apply guar_ret_bind; [intros l Hlp|done]. apply guar_ret_bind; [intros r Hrp|done].
  apply parse_sidecar_Ok in Hlp, Hrp. destruct (decide (sha256 l = sha256 r)) as [Hsha|]; [|done].
  apply guar_ret_bind; [intros lo Hlo%typed_ranked|done]. apply guar_ret_bind; [intros ro Hro%typed_ranked|done].
  destruct (sidecar_merge l (Some lo) r (Some ro)) eqn:Hm; [| |done].
  - apply guar_call_ok; [|by intros [] _|done]. intros id _. exists rb. split; [by apply Hr|].
    by exists rb, lb, r, l, ro, lo.
  - apply guar_call_ok; [|by intros [] _|done]. intros id _. exists lb. split; [by apply Hl|].
    exists lb, rb, l, r, lo, ro. do 7 (split; [done|]). by apply ranked_merge_flip.
Qed.

Lemma guar_ensure_private n b pkg :
  guar (Origin.disciplined auto_edge) (fun _ => True) (ensure_private_loop n b pkg).
Proof.
  induction n as [|n IH]; [done|]. cbn [ensure_private_loop].
  eapply guar_bind_ok; [apply guar_read_observation| |done]. intros [obs|] Hobs.
  - specialize (Hobs obs eq_refl). destruct (state obs).
    + eapply guar_bind_ok; [apply guar_claim_any; by intros ? [= <-]| |done].
      intros c _. by case_decide.
    + eapply guar_bind_ok; [by apply guar_demote; [|constructor]| |done]. by intros [] _.
    + done.
  - eapply guar_bind_ok; [by apply guar_claim_any| |done]. intros c _. by case_decide.
Qed.

Lemma guar_ensure_mirror n b pkg :
  guar (Origin.disciplined auto_edge) (fun _ => True) (ensure_mirror_loop n b pkg).
Proof.
  induction n as [|n IH]; [done|]. cbn [ensure_mirror_loop]. cbv zeta.
  eapply guar_bind_ok; [apply guar_read_observation| |done].
  assert (forall hint, (forall obs, hint = Some obs -> genuine obs) ->
    guar (Origin.disciplined auto_edge) (fun _ => True)
      (let*? claim := claim_origin b pkg (MkRequest OriginState.MIRROR hint) in
       if decide (owner claim = OriginState.MIRROR) then Ret (Ok StatusDoc.Mirror)
       else if decide (owner claim = OriginState.PRIVATE) then Ret (Ok StatusDoc.Private)
       else ensure_mirror_loop n b pkg)) as Hclaim.
  { intros hint Hh. eapply guar_bind_ok; [by apply guar_claim_any| |done]. intros c _.
    case_decide; [done|]. by case_decide. }
  intros [obs|] Hobs; [|by apply Hclaim]. specialize (Hobs obs eq_refl).
  destruct (state obs); [apply Hclaim; by intros ? [= <-]|done|done].
Qed.

End fences.

(** ** Properties *)

Section properties.
Context {D : Digest} `{ClaimCodec} {JS : Codec Sidecar} {JF : Codec FilenameBody} {E : Etags}.

(** C21: a body goes only behind its tombstone. Along every interleaving of the
    executor's tombstoning and freezing, the audit's completion of deletes and
    any writers that delete nothing, with any faults and on any number of
    buckets: a body that was there is still there or its tombstone stands, and
    tombstones and freeze markers, once there, stay. *)
Theorem removal_is_fenced (w w' : world) ts ts' b pkg f :
  wf_world w -> Forall remover ts -> rtc step (w, ts) (w', ts') -> valid_names pkg f ->
  (body_at pkg f (w b) -> body_at pkg f (w' b) \/ tombstone_at pkg f (w' b))
  /\ (tombstone_at pkg f (w b) -> tombstone_at pkg f (w' b))
  /\ (frozen_at pkg f (w b) -> frozen_at pkg f (w' b)).
Proof.
  intros Hw Hts Hsteps Hv.
  assert (fence_rel w w') as HR.
  { apply (steps_keep fence_rel (w, ts) (w', ts') Hsteps Hw).
    eapply Forall_impl; [exact Hts|]. intros p. apply keeping_remover. }
  destruct (HR b pkg f Hv) as (? & ? & ?). done.
Qed.

(** A freeze never loses the bytes. At every moment of a freeze, whatever
    fails and wherever it crashes, the body it found is still under its own key
    or a verified copy stands in quarantine; and when the freeze reports success
    both fences stand, the body is gone and the copy is there. *)
Theorem freeze_preserves_bytes b pkg f bytes w :
  wf_world w -> valid_names pkg f -> contents (w b) (artifact_key pkg f) = Some bytes ->
  holds (preserved b pkg f bytes) (freeze_done b pkg f bytes) (freeze_side b pkg f) w.
Proof. intros Hw Hv Hb. by apply holds_freeze. Qed.

(** Propagating a delete converges. Once tombstoning has succeeded on both
    buckets (through any faults along the way), reading the two records again
    and deciding on them finds nothing left to do. *)
Theorem tombstone_converges w w1 w2 wa wb a b pkg f x y ra rb :
  wf_world w -> valid_names pkg f -> "/"%char ∉ f -> a ≠ b ->
  ~ frozen_at pkg f (w a) -> ~ frozen_at pkg f (w b) ->
  exec (tombstone_side a pkg f) w (Ok x) w1 -> exec (tombstone_side b pkg f) w1 (Ok y) w2 ->
  exec (read_record a pkg f) w2 (Ok ra) wa -> exec (read_record b pkg f) w2 (Ok rb) wb ->
  decide_records ra rb = Noop.
Proof.
  intros Hw Hv Hf Hne Hfa Hfb H1 H2 H3 H4.
  destruct (holds_exec _ _ _ _ _ _ _ (holds_tombstone_side a pkg f w Hw Hv) H1) as (Hsa & Hza & Ho1 & Hw1).
  destruct (holds_exec _ _ _ _ _ _ _ (holds_tombstone_side b pkg f w1 Hw1 Hv) H2) as (Hsb & Hzb & Ho2 & _).
  destruct (holds_exec _ _ _ _ _ _ _ (holds_read_record a pkg f w2 Hf) H3) as [Hra _].
  destruct (holds_exec _ _ _ _ _ _ _ (holds_read_record b pkg f w2 Hf) H4) as [Hrb _].
  rewrite (Ho2 a Hne) in Hra. rewrite (Ho1 b) in Hzb by congruence.
  unfold decide_records. rewrite (settled_classified pkg f (w1 a) ra), (settled_classified pkg f (w2 b) rb);
    try done; [by rewrite Hzb|by rewrite Hza].
Qed.

(** A sidecar is never overwritten by a worse one. Along every interleaving
    of sidecar adoptions between any buckets with programs that write no sidecar,
    a stored sidecar changes only to one of the same artifact bytes that wins
    the merge against exactly the sidecar it replaces. *)
Theorem adoption_never_regresses (w w' : world) ts ts' :
  wf_world w ->
  Forall (fun p => (exists n a b pkg f, p = thread (adopt_loop n a b pkg f))
                   \/ guar (spares record_key) (fun _ => True) p) ts ->
  rtc step (w, ts) (w', ts') ->
  forall b pkg f, rtc sidecar_move (contents (w b) (sidecar_key (artifact_key pkg f)))
                    (contents (w' b) (sidecar_key (artifact_key pkg f))).
Proof.
  intros Hw Hts Hsteps b pkg f.
  assert (Forall (guar (follows record_key sidecar_move) (fun _ => True)) ts) as Hg.
  { eapply Forall_impl; [exact Hts|]. intros p [(n & a & c & pkg' & f' & ->)|Hp].
    - eapply guar_thread. apply guar_adopt.
    - eapply guar_weaken; [|exact Hp]. intros. by apply spares_follows. }
  destruct (steps_follow record_key sidecar_move _ _ _ _ Hw Hg Hsteps) as [_ HT]. apply (HT b (pkg, f)).
Qed.

End properties.

(** *** Witnesses *)

#[global] Instance FilenameBody_eq_dec : EqDecision FilenameBody.
Proof. solve_decision. Defined.
#[global] Instance FilenameBody_countable : Countable FilenameBody.
Proof. apply (inj_countable' body_filename MkFilenameBody). by intros []. Defined.
Definition toy_filename_codec : Codec FilenameBody := countable_codec.

#[local] Existing Instances toy_digest toy_claim_codec toy_sidecar_codec toy_filename_codec content_etags.

Definition example_file : str := &"a-1.tar.gz".
Definition example_akey : str := artifact_key (&"a") example_file.
(** One artifact with its sidecar on bucket 0, and another sidecar on bucket 1. *)
Definition stocked_world : world :=
  (run example_env empty_world
    (let*? _ := call 0 (PutBytes example_akey (&"bytes")) in
     let*? _ := call 0 (PutBytes (sidecar_key example_akey)
                        (encode (example_sidecar (&"s") OriginState.PRIVATE 1 5))) in
     call 1 (PutBytes (sidecar_key example_akey)
             (encode (example_sidecar (&"s") OriginState.PRIVATE 2 5))))).1.

Lemma stocked_world_wf : wf_world stocked_world.
Proof. apply wf_run, empty_world_wf. Qed.

Lemma example_names : valid_names (&"a") example_file.
Proof. split; [apply (bool_decide_unpack _); vm_compute; exact I | reflexivity]. Qed.

Lemma removal_is_fenced_witness :
  let w' := (run example_env stocked_world (thread (tombstone_side 0 (&"a") example_file))).1 in
  body_at (&"a") example_file (stocked_world 0%nat) /\ ~ body_at (&"a") example_file (w' 0%nat)
  /\ tombstone_at (&"a") example_file (w' 0%nat).
Proof.
  intros w'.
  assert (body_at (&"a") example_file (stocked_world 0%nat)) as Hb by (vm_compute; by eexists).
  assert (~ body_at (&"a") example_file (w' 0%nat)) as Hn by (vm_compute; by intros []).
  split; [done|]. split; [done|].
  destruct (removal_is_fenced stocked_world w' [thread (tombstone_side 0 (&"a") example_file)]
    [Ret (run example_env stocked_world (thread (tombstone_side 0 (&"a") example_file))).2]
    0 (&"a") example_file) as (H & _ & _).
  - apply stocked_world_wf.
  - constructor; [apply remover_tombstone, example_names | constructor].
  - apply steps_run, example_env_good.
  - apply example_names.
  - by destruct (H Hb).
Defined.

Lemma freeze_preserves_bytes_witness :
  holds (preserved 0 (&"a") example_file (&"bytes")) (freeze_done 0 (&"a") example_file (&"bytes"))
    (freeze_side 0 (&"a") example_file) stocked_world.
Proof.
  apply (freeze_preserves_bytes 0 (&"a") example_file (&"bytes") stocked_world).
  - apply stocked_world_wf.
  - apply example_names.
  - vm_compute. reflexivity.
Defined.

Lemma tombstone_converges_witness : decide_records example_deleted example_deleted = Noop.
Proof.
  set (w1 := (run example_env stocked_world (tombstone_side 0 (&"a") example_file)).1).
  set (w2 := (run example_env w1 (tombstone_side 1 (&"a") example_file)).1).
  eapply (tombstone_converges stocked_world w1 w2 _ _ 0 1 (&"a") example_file true true).
  - apply stocked_world_wf.
  - apply example_names.
  - apply (bool_decide_unpack _). vm_compute. exact I.
  - done.
  - vm_compute. by intros [].
  - vm_compute. by intros [].
  - apply exec_run_ok; [apply example_env_good | vm_compute; reflexivity].
  - apply exec_run_ok; [apply example_env_good | vm_compute; reflexivity].
  - apply (exec_run_ok _ example_env); [apply example_env_good | vm_compute; reflexivity].
  - apply (exec_run_ok _ example_env); [apply example_env_good | vm_compute; reflexivity].
Defined.

Lemma adoption_never_regresses_witness :
  rtc sidecar_move (contents (stocked_world 0%nat) (sidecar_key example_akey))
    (contents ((run example_env stocked_world (thread (adopt_loop 8 0 1 (&"a") example_file))).1 0%nat)
       (sidecar_key example_akey)).
Proof.
  apply (adoption_never_regresses stocked_world _ [thread (adopt_loop 8 0 1 (&"a") example_file)]
    [Ret (run example_env stocked_world (thread (adopt_loop 8 0 1 (&"a") example_file))).2]).
  - apply stocked_world_wf.
  - constructor; [left; by repeat eexists | constructor].
  - apply steps_run, example_env_good.
Defined.

End Replicate.
