(* ===== verification/Artifact.v ===== *)
(** * Verified artifact writes and staging (src/storage.rs, src/replicate.rs)

    The write primitives every artifact goes through (the conditional create
    with its size check, the repair of wrong bytes, the checksum comparison of
    server-side copies), and the bounded, hashed staging of a source body.

    A write is bounded by [artifact_write_timeout]; running out of it is one of
    the failures any storage operation may answer with, its effect included. *)
From stdpp Require Import functions.
From S2P Require Import Prelude RustStr Documents Hash Storage.
Import Storage.

Module Artifact.
Import Sidecar Hash.

(** ** Sizes and budgets *)

Definition MIB : Z := 1024 * 1024.
Definition MULTIPART_THRESHOLD : Z := 64 * MIB.
Definition STAGE_TO_DISK_ABOVE : Z := MULTIPART_THRESHOLD.

(** In seconds. *)
Definition ARTIFACT_WRITE_TIMEOUT_BASE : Z := 60.
Definition ARTIFACT_WRITE_TIMEOUT_PER_MIB : Z := 1.
Definition artifact_write_timeout (payload_size : Z) : Z :=
  ARTIFACT_WRITE_TIMEOUT_BASE + ARTIFACT_WRITE_TIMEOUT_PER_MIB * Z.min (payload_size / MIB) (2 ^ 32 - 1).

(** ** Checksums of server-side copies *)

Inductive ChecksumCheck := Match_ | Inconclusive | Mismatch.

#[global] Instance ChecksumCheck_eq_dec : EqDecision ChecksumCheck.
Proof. solve_decision. Defined.

Definition check_copy_checksum (expected actual : option StoreChecksum) : ChecksumCheck :=
  match expected, actual with
  | Some e, Some a =>
    if decide (algo e = algo a) then
      if eq_ignore_ascii_case (checksum_value e) (checksum_value a) then Match_ else Mismatch
    else Inconclusive
  | _, _ => Inconclusive
  end.

Inductive CopyOutcome :=
  | Copied (checksum : option StoreChecksum)
  | NotCopyable.

(** ** Verified writes *)

(** A body held in memory, or as a local spool file with this content. *)
Inductive ArtifactBody :=
  | Bytes (bytes : str)
  | Spool (content : str).

Definition body_content (body : ArtifactBody) : str :=
  match body with Bytes bytes => bytes | Spool content => content end.

Inductive SizeCheck :=
  | SizeOk
  | SizeWrong (e : error)
  | SizeUnknown (e : error).

Inductive Existing := Reject | Repair (sha : str).

(** A transfer arrives in chunks of the transport's choosing. *)
Class Chunking := {
  chunks : str -> list str;
  chunks_concat : forall bytes, concat (chunks bytes) = bytes
}.

Section programs.
Context {D : Digest} {T : Chunking}.

Definition check_stored_size (b : nat) (key : str) (expected_size : Z) : prog SizeCheck :=
  let* r := call b (StoredSize key) in
  Ret (match r with
       | Ok (Some stored) =>
         if stored =? expected_size then SizeOk
         else SizeWrong (Bail (&"write landed corrupt"))
       | Ok None => SizeUnknown (Bail (&"artifact vanished immediately after a create success"))
       | Err e => SizeUnknown e
       end).

Definition verify_stored_size (b : nat) (key : str) (expected_size : Z) : prog (res unit) :=
  let* c := check_stored_size b key expected_size in
  Ret (match c with SizeOk => Ok tt | SizeWrong e => Err e | SizeUnknown e => Err e end).

Definition body_read_all (b : nat) (body : ArtifactBody) : prog (res str) :=
  match body with
  | Bytes bytes => Ret (Ok bytes)
  | Spool content => call b (LocalFile content)
  end.

(** [Sha256::new], [update] and [finalize], with the length: the hasher is the
    bytes it has taken. *)
Definition hash_chunks (cs : list str) : str * Z :=
  let '(taken, n) := foldl (fun st c => (st.1 ++ c, st.2 + Z.of_nat (length c))) ([], 0) cs in
  (sha256_hex taken, n).

Definition stream_sha256 (b : nat) (key : str) : prog (res (str * Z)) :=
  let*? body := call b (GetBytes key) in
  Ret (Ok (hash_chunks (chunks body))).

Definition store_artifact_verified (b : nat) (key : str) (body : ArtifactBody) (expected_size : Z)
    (existing : Existing) : prog (res bool) :=
  let*? created := call b (PutIfAbsent key (body_content body)) in
  if created : bool then
    let* c := check_stored_size b key expected_size in
    match c with
    | SizeOk => Ret (Ok true)
    | SizeWrong e =>
      match existing with
      | Reject => let* _ := call b (DeleteKeys [key]) in Ret (Err e)
      | Repair _ => Ret (Err e)
      end
    | SizeUnknown e => Ret (Err e)
    end
  else
    match existing with
    | Reject => Ret (Ok false)
    | Repair expected_sha =>
      let*? current := stream_sha256 b key in
      if decide (current.1 = expected_sha) then Ret (Ok false) else
      let*? correct := body_read_all b body in
      let*? _ := call b (PutBytes key correct) in
      let*? after := stream_sha256 b key in
      if decide (after.1 = expected_sha) then Ret (Ok true)
      else Ret (Err (Bail (&"still wrong after repair")))
    end.

Definition create_artifact_verified (b : nat) (key : str) (body : ArtifactBody) (expected_size : Z)
    : prog (res bool) :=
  let*? created := call b (PutIfAbsent key (body_content body)) in
  if created : bool then
    let*? _ := verify_stored_size b key expected_size in Ret (Ok true)
  else Ret (Ok false).

(** [put_if_absent_or_verify] of src/replicate.rs: the bytes are their own
    identity. *)
Definition put_if_absent_or_verify (b : nat) (key bytes : str) : prog (res bool) :=
  store_artifact_verified b key (Bytes bytes) (Z.of_nat (length bytes)) (Repair (sha256_hex bytes)).

(** ** Staging a source body *)

Record HashingSink := MkSink { hasher : str; sink_read : Z; sink_limit : Z }.

Definition sink_new (limit : Z) : HashingSink := MkSink [] 0 limit.
Definition sink_unbounded : HashingSink := sink_new (2 ^ 64 - 1).
Definition accept (s : HashingSink) (chunk : str) : res HashingSink :=
  let read := sink_read s + Z.of_nat (length chunk) in
  if sink_limit s <? read then Err (Bail (&"source body is longer than its sidecar attests"))
  else Ok (MkSink (hasher s ++ chunk) read (sink_limit s)).
Definition finish (s : HashingSink) : str * Z := (sha256_hex (hasher s), sink_read s).

Fixpoint accept_all (s : HashingSink) (cs : list str) : res HashingSink :=
  match cs with
  | [] => Ok s
  | c :: cs => let? s := accept s c in accept_all s cs
  end.

(** Where a verified source body is held. *)
Inductive StagedArtifact :=
  | Resident (bytes : str)
  | File (content : str) (file_size : Z).

Definition staged_body (a : StagedArtifact) : ArtifactBody :=
  match a with Resident bytes => Bytes bytes | File content _ => Spool content end.
Definition staged_size (a : StagedArtifact) : Z :=
  match a with Resident bytes => Z.of_nat (length bytes) | File _ file_size => file_size end.
Definition staged_read_all (b : nat) (a : StagedArtifact) : prog (res str) :=
  match a with Resident bytes => Ret (Ok bytes) | File content _ => call b (LocalFile content) end.

Definition hash_file (b : nat) (content : str) : prog (res (str * Z)) :=
  let*? read := call b (LocalFile content) in
  Ret (let? s := accept_all sink_unbounded (chunks read) in Ok (finish s)).

(** The spool's loop: each chunk is written, then the running size checked. *)
Fixpoint spool_chunks (expected_size : Z) (written : str) (cs : list str) : res str :=
  match cs with
  | [] => Ok written
  | c :: cs =>
    let written := written ++ c in
    if expected_size <? Z.of_nat (length written)
    then Err (Bail (&"source artifact is longer than its sidecar attests"))
    else spool_chunks expected_size written cs
  end.

Definition stage_from_bucket (src : nat) (akey : str) (expected_size : Z)
    : prog (res (str * StagedArtifact)) :=
  let*? body := call src (GetBytes akey) in
  if expected_size <=? STAGE_TO_DISK_ABOVE then
    Ret (let? s := accept_all (sink_new STAGE_TO_DISK_ABOVE) (chunks body) in
         Ok ((finish s).1, Resident (concat (chunks body))))
  else
    let*? written := Ret (spool_chunks expected_size [] (chunks body)) in
    let*? content := call src (LocalFile written) in
    Ret (Ok (sha256_hex content, File content (Z.of_nat (length content)))).

Inductive ArtifactSource :=
  | FromBucket
  | FromSpool (content : str).

Definition stage (source : ArtifactSource) (src : nat) (akey : str) (expected_size : Z)
    : prog (res (str * StagedArtifact)) :=
  match source with
  | FromBucket => stage_from_bucket src akey expected_size
  | FromSpool content =>
    let*? h := hash_file src content in
    Ret (Ok (h.1, File content h.2))
  end.

End programs.

(** ** Chunking does not matter *)

Section chunking.
Context {D : Digest}.

Lemma hash_chunks_spec cs :
  hash_chunks cs = (sha256_hex (concat cs), Z.of_nat (length (concat cs))).
Proof.
  unfold hash_chunks.
  assert (forall st, foldl (fun st c => (st.1 ++ c, st.2 + Z.of_nat (length c))) st cs
            = (st.1 ++ concat cs, st.2 + Z.of_nat (length (concat cs)))) as ->; [|done].
  induction cs as [|c cs IH]; intros [t n]; cbn [foldl concat].
  - rewrite app_nil_r. f_equal. simpl. lia.
  - rewrite IH. cbn [fst snd]. rewrite <- app_assoc, length_app. f_equal. lia.
Qed.

Lemma accept_all_spec s cs :
  sink_read s <= sink_limit s ->
  accept_all s cs =
  let total := sink_read s + Z.of_nat (length (concat cs)) in
  if sink_limit s <? total then Err (Bail (&"source body is longer than its sidecar attests"))
  else Ok (MkSink (hasher s ++ concat cs) total (sink_limit s)).
Proof.
  revert s. induction cs as [|c cs IH]; intros [h r l]; cbn [accept_all concat sink_read sink_limit hasher].
  - intros Hr. cbn [length]. replace (r + Z.of_nat 0) with r by lia. rewrite app_nil_r.
    by rewrite (proj2 (Z.ltb_ge l r)) by lia.
  - intros Hr. unfold accept. cbn [sink_read sink_limit hasher]. rewrite length_app.
    destruct (l <? r + Z.of_nat (length c)) eqn:Hc; cbn [rbind].
    + apply Z.ltb_lt in Hc. by rewrite (proj2 (Z.ltb_lt l _)) by lia.
    + apply Z.ltb_ge in Hc. rewrite IH by done. cbn [sink_read sink_limit hasher].
      rewrite <- app_assoc. by replace (r + Z.of_nat (length c + length (concat cs)))
        with (r + Z.of_nat (length c) + Z.of_nat (length (concat cs))) by lia.
Qed.

Lemma spool_chunks_spec expected written cs :
  Z.of_nat (length written) <= expected ->
  spool_chunks expected written cs =
  if expected <? Z.of_nat (length (written ++ concat cs))
  then Err (Bail (&"source artifact is longer than its sidecar attests"))
  else Ok (written ++ concat cs).
Proof.
  revert written. induction cs as [|c cs IH]; intros written Hw; cbn [spool_chunks concat].
  - rewrite app_nil_r. by rewrite (proj2 (Z.ltb_ge expected _)) by lia.
  - destruct (expected <? Z.of_nat (length (written ++ c))) eqn:Hc.
    + apply Z.ltb_lt in Hc. rewrite app_assoc, length_app. by rewrite (proj2 (Z.ltb_lt expected _)) by lia.
    + apply Z.ltb_ge in Hc. rewrite IH by done. by rewrite <- app_assoc.
Qed.

End chunking.

(** ** Properties *)

Section properties.
Context {D : Digest} {T : Chunking} {E : Etags}.

(** The bytes a staged artifact stands for. *)
Definition staged_content (a : StagedArtifact) : str := body_content (staged_body a).

(** How much of a body staging takes before it gives up. *)
Definition staging_cap (expected_size : Z) : Z :=
  if expected_size <=? STAGE_TO_DISK_ABOVE then STAGE_TO_DISK_ABOVE else expected_size.

(** C25: staging is bounded and exact. However the transport chunks a body,
    staging it yields the hash of the whole body and exactly its bytes with
    their length, held in memory only up to the staging threshold, unless the
    body outgrows the cap (the threshold, or the attested size past it), which
    is refused; and it changes nothing in any bucket. *)
Theorem staging_exact v w src akey expected_size body :
  contents (w src) akey = Some body ->
  run v w (stage_from_bucket src akey expected_size) =
  (w, if staging_cap expected_size <? Z.of_nat (length body)
      then Err (Bail (if expected_size <=? STAGE_TO_DISK_ABOVE
                      then &"source body is longer than its sidecar attests"
                      else &"source artifact is longer than its sidecar attests"))
      else Ok (sha256_hex body,
               if expected_size <=? STAGE_TO_DISK_ABOVE then Resident body
               else File body (Z.of_nat (length body)))).
Proof.
  intros Hb. unfold stage_from_bucket, staging_cap. rewrite run_bind_ok, run_call. cbn [op_run fst snd].
  rewrite fn_insert_id. unfold contents in Hb. destruct (objects (w src) !! akey); simplify_eq/=.
  destruct (expected_size <=? STAGE_TO_DISK_ABOVE) eqn:Hs.
  - cbn [run]. rewrite accept_all_spec by done. cbn [sink_new sink_read sink_limit hasher]. cbv zeta.
    rewrite !chunks_concat. destruct (STAGE_TO_DISK_ABOVE <? _) eqn:Hc; [done|]. done.
  - rewrite run_bind_ok. cbn [run fst snd]. rewrite spool_chunks_spec.
    2:{ apply Z.leb_gt in Hs. unfold STAGE_TO_DISK_ABOVE, MULTIPART_THRESHOLD, MIB in Hs. simpl. lia. }
    rewrite app_nil_l, chunks_concat. destruct (expected_size <? _); [done|].
    cbn [fst snd]. rewrite run_bind_ok, run_call. cbn [op_run fst snd run]. by rewrite fn_insert_id.
Qed.

Lemma holds_stream_sha256 I (Q : res (str * Z) -> world -> Prop) b key w :
  I w -> (forall e, Q (Err e) w) ->
  (forall body, contents (w b) key = Some body -> Q (Ok (sha256_hex body, Z.of_nat (length body))) w) ->
  holds I Q (stream_sha256 b key) w.
Proof.
  intros HI He Hok. apply holds_read_ok; [done|done| |done]. intros body Hb. apply holds_ret; [done|].
  rewrite hash_chunks_spec, chunks_concat. by eapply Hok, get_bytes_answer.
Qed.

Lemma holds_size_check I (Q : SizeCheck -> world -> Prop) b key n w :
  I w -> (forall c, (c = SizeOk -> exists body, contents (w b) key = Some body
                                    /\ Z.of_nat (length body) = n) -> Q c w) ->
  holds I Q (check_stored_size b key n) w.
Proof.
  intros HI HQ. split; [done|]. intros r s Hs.
  pose proof (op_step_read _ _ _ _ _ (eq_refl : is_read (StoredSize _) = true) Hs) as ->.
  rewrite fn_insert_id. apply holds_ret; [done|]. apply HQ. intros Hc.
  destruct r as [[stored|]|e]; [|done|done]. destruct (stored =? n) eqn:Hn; [|done].
  apply Z.eqb_eq in Hn as ->. pose proof (stored_size_answer _ _ _ _ _ Hs eq_refl) as Ha.
  destruct (contents (w b) key) as [body|]; simplify_eq/=. by exists body.
Qed.

(** What a caller of [store_artifact_verified] may rely on. *)
Definition stored_ok (b : nat) (key content : str) (existing : Existing) (old : option str)
    (r : res bool) (w : world) : Prop :=
  match r, existing with
  | Ok true, Reject => old = None /\ contents (w b) key = Some content
  | Ok false, Reject => is_Some old /\ contents (w b) key = old
  | Ok true, Repair sha => contents (w b) key = Some content
  | Ok false, Repair sha =>
    contents (w b) key = old /\ exists bytes, old = Some bytes /\ sha256_hex bytes = sha
  | Err _, _ => True
  end.

(** The key holds what it held or the new content; an immutable one that was
    taken is never touched. *)
Definition store_moment (b : nat) (key content : str) (existing : Existing) (old : option str)
    (w : world) : Prop :=
  match existing with
  | Reject => contents (w b) key = old
              \/ old = None /\ (contents (w b) key = Some content \/ contents (w b) key = None)
  | Repair _ => contents (w b) key = old \/ contents (w b) key = Some content
  end.

(** The branch of a taken key that is to be repaired. *)
Lemma holds_repair b key body old sha w :
  wf_world w -> contents (w b) key = old -> is_Some old ->
  holds (store_moment b key (body_content body) (Repair sha) old)
    (stored_ok b key (body_content body) (Repair sha) old)
    (let*? current := stream_sha256 b key in
     if decide (current.1 = sha) then Ret (Ok false) else
     let*? correct := body_read_all b body in
     let*? _ := call b (PutBytes key correct) in
     let*? after := stream_sha256 b key in
     if decide (after.1 = sha) then Ret (Ok true) else Ret (Err (Bail (&"still wrong after repair")))) w.
Proof.
  intros Hw Hold Hsome. assert (store_moment b key (body_content body) (Repair sha) old w) as HI by by left.
  apply holds_bind_ok, holds_stream_sha256; [done|done|]. intros was Hwas.
  case_decide as Hsha; [apply holds_ret; [done|]; simpl in Hsha; split; [done|]; exists was; by rewrite <- Hold|].
  apply holds_bind_ok. eapply (holds_conseq _ (fun w' => w' = w)
    _ (fun r w' => w' = w /\ forall c, r = Ok c -> c = body_content body)); [by intros ? ->| |].
  2:{ destruct body as [bytes|content]; [by apply holds_ret; [|split; [|intros ? [=]]]|].
      split; [done|]. intros r s Hs.
      pose proof (op_step_read _ _ _ _ _ (eq_refl : is_read (LocalFile _) = true) Hs) as ->.
      rewrite fn_insert_id. apply holds_ret; [done|]. split; [done|]. intros c ->.
      by eapply local_file_answer. }
  intros [c|e] w' _ [-> Hc]; [|by split]. specialize (Hc c eq_refl) as ->.
  apply holds_call_ok; [done|done| |].
  2:{ intros e s Hs. split; [|done]. unfold store_moment. rewrite fn_lookup_insert.
      destruct (op_step_effect _ _ _ _ _ key (Hw b) Hs) as [He|[_ He]]; rewrite He; [by left|by right]. }
  intros [] s Hs Hw1. pose proof (put_bytes_answer _ _ _ _ _ Hs eq_refl) as Hput.
  set (w1 := <[b := s]> w) in *.
  assert (contents (w1 b) key = Some (body_content body)) as H1 by (unfold w1; by rewrite fn_lookup_insert).
  apply holds_bind_ok, holds_stream_sha256; [by right|by split; [|right]|]. intros now Hnow.
  case_decide; apply holds_ret; try done; by right.
Qed.

(** The outcome of a verified write. Whatever fails, a body that already
    stands under an immutable key is never touched, and no other content than
    the old or the new is ever there; when the write reports success the new
    bytes stand, and when it reports a match the key is as it was, holding
    (under a repairing write) bytes of the expected hash. *)
Theorem store_verified_outcome b key body expected_size existing w :
  wf_world w ->
  holds (store_moment b key (body_content body) existing (contents (w b) key))
    (stored_ok b key (body_content body) existing (contents (w b) key))
    (store_artifact_verified b key body expected_size existing) w.
Proof.
  intros Hw. remember (contents (w b) key) as old eqn:Hold. symmetry in Hold.
  assert (store_moment b key (body_content body) existing old w) as HI by (destruct existing; by left).
  unfold store_artifact_verified. apply holds_call_ok; [done|done| |].
  2:{ intros e s Hs. split; [|by destruct existing]. unfold store_moment. rewrite fn_lookup_insert.
      destruct (op_step_effect _ _ _ _ _ key (Hw b) Hs) as [He|(_ & He & ->)].
      - rewrite He, Hold. destruct existing; by left.
      - rewrite Hold in He. subst. destruct existing; [right; split; [done|by left]|by right]. }
  intros [] s Hs Hw1; set (w1 := <[b := s]> w) in *;
    assert (w1 b = s) as H1 by (unfold w1; by rewrite fn_lookup_insert).
  - pose proof (put_if_absent_created _ _ _ _ _ Hs eq_refl) as Hput.
    pose proof (put_if_absent_was_absent _ _ _ _ _ Hs eq_refl) as Hwas. rewrite Hold in Hwas. clear HI Hold. subst old.
    rewrite <- H1 in Hput.
    assert (store_moment b key (body_content body) existing None w1) as HI1.
    { destruct existing; [right; split; [done|by left]|by right]. }
    apply holds_bind, holds_size_check; [done|]. intros c Hc. destruct c as [|e|e].
    + apply holds_ret; [done|]. by destruct existing.
    + destruct existing; [|by apply holds_ret]. split; [done|]. intros r s2 Hs2.
      apply holds_ret; [|done]. right. split; [done|]. rewrite fn_lookup_insert.
      destruct (op_step_effect _ _ _ _ _ key (Hw1 b) Hs2) as [He|[_ ->]]; [left; by rewrite He|by right].
    + by apply holds_ret; [|destruct existing].
  - destruct (put_if_absent_taken _ _ _ _ _ Hs eq_refl) as [-> Hsome].
    unfold w1 in *. rewrite fn_insert_id in *. unfold present in Hsome. rewrite Hold in Hsome.
    destruct existing as [|sha]; [by apply holds_ret|]. by apply holds_repair.
Qed.

End properties.

(** *** Witnesses *)

Definition toy_chunking : Chunking.
Proof. refine {| chunks bytes := [take 3 bytes; drop 3 bytes] |}.
  intros bytes. cbn [concat]. by rewrite app_nil_r, take_drop. Defined.

#[local] Existing Instances toy_digest toy_chunking content_etags.

Definition one_object : world :=
  (run example_env empty_world (call 0 (PutBytes (&"k") (&"bytes")))).1.

Lemma staging_exact_witness :
  (run example_env one_object (stage_from_bucket 0 (&"k") 5)).2
  = Ok (sha256_hex (&"bytes"), Resident (&"bytes")).
Proof.
  rewrite (staging_exact example_env one_object 0 (&"k") 5 (&"bytes")); [reflexivity|].
  vm_compute. reflexivity.
Defined.

Lemma store_verified_outcome_witness :
  holds (store_moment 0 (&"k") (&"other") Reject (Some (&"bytes")))
    (stored_ok 0 (&"k") (&"other") Reject (Some (&"bytes")))
    (store_artifact_verified 0 (&"k") (Bytes (&"other")) 5 Reject) one_object.
Proof.
  apply (store_verified_outcome 0 (&"k") (Bytes (&"other")) 5 Reject one_object).
  apply wf_run, empty_world_wf.
Defined.

End Artifact.
