(* ===== verification/Execute.v ===== *)
(** * Executing a merge verdict (src/replicate.rs)

    What [execute] does once [decide] has answered: copying a live record,
    superseding one record by another, settling a demotion, repairing
    companions, and finishing a supersede that was interrupted. Every program
    here runs under the intent/commit bracket of [execute].

    Server-side copies are the provider's: which pairs of buckets may use them,
    which sizes, and which checksum the provider reports are parameters. *)
From stdpp Require Import functions.
From S2P Require Import Prelude RustStr Documents Hash Decide Storage Origin Markers Replicate Artifact.
Import Storage.

Module Execute.
Import Sidecar Decide Origin Hash Markers Replicate Artifact.

(** The boot matrix ([copy_transport]) and the provider's copy verb. *)
Class CopyVerb := {
  copy_allowed : nat -> nat -> bool;
  copyable_size : Z -> bool;
  copy_checksum : str -> option StoreChecksum
}.

Record Companions := MkCompanions { c_metadata : option str; c_provenance : option str }.

Record VerifiedSource := MkVerified {
  v_artifact : StagedArtifact;
  v_metadata : option str;
  v_provenance : option str
}.

Inductive ArtifactLeg := Landed (changed : bool) | LegFrozen.

Section programs.
Context {D : Digest} {T : Chunking} `{ClaimCodec} {JS : Codec Sidecar} {JF : Codec FilenameBody}
  {V : CopyVerb}.

Definition require_replication_unfenced (b : nat) : prog (res unit) :=
  let* fenced := call b MutationsFenced in
  Ret (if fenced : bool then Err (Bail (&"replication writes are fenced")) else Ok tt).

(** [changed |= op.await?] *)
Definition or_changed (changed : bool) (p : prog (res bool)) : prog (res bool) :=
  let*? c := p in Ret (Ok (changed || c)).

(** ** Companions *)

Definition copy_missing_object (src dst : nat) (key : str) (source_has destination_has : bool)
    : prog (res bool) :=
  if negb source_has || destination_has then Ret (Ok false) else
  let*? bytes := call src (GetBytes key) in
  put_if_absent_or_verify dst key bytes.

Definition copy_missing_companions (src dst : nat) (pkg filename : str) (src_record dst_record : Record_)
    : prog (res bool) :=
  let akey := artifact_key pkg filename in
  let*? changed := copy_missing_object src dst (metadata_key akey)
                     (has_metadata src_record) (has_metadata dst_record) in
  or_changed changed (copy_missing_object src dst (provenance_key akey)
                     (has_provenance src_record) (has_provenance dst_record)).

Definition repair_same_sha_companions (a b : nat) (pkg filename : str) (ra rb : Record_)
    : prog (res (bool * bool)) :=
  match classify_record ra, classify_record rb with
  | Live sha_a origin_a _, Live sha_b origin_b _ =>
    if decide (sha_a = sha_b) then
      match origin_a, origin_b with
      | StatusDoc.Private, StatusDoc.Mirror =>
        let*? dirty_b := copy_missing_companions a b pkg filename ra rb in
        Ret (Ok (false, dirty_b))
      | StatusDoc.Mirror, StatusDoc.Private =>
        let*? dirty_a := copy_missing_companions b a pkg filename rb ra in
        Ret (Ok (dirty_a, false))
      | _, _ =>
        let*? dirty_b := copy_missing_companions a b pkg filename ra rb in
        let*? dirty_a := copy_missing_companions b a pkg filename rb ra in
        Ret (Ok (dirty_a, dirty_b))
      end
    else Ret (Ok (false, false))
  | _, _ => Ret (Ok (false, false))
  end.

Definition read_listed_companion (b : nat) (key : str) (listed : bool) : prog (res (option str)) :=
  if negb listed then Ret (Ok None) else
  let*? bytes := call b (GetBytes key) in Ret (Ok (Some bytes)).

Definition read_source_companions (src : nat) (akey : str) (record : Record_) : prog (res Companions) :=
  let*? metadata := read_listed_companion src (metadata_key akey) (has_metadata record) in
  let*? provenance := read_listed_companion src (provenance_key akey) (has_provenance record) in
  Ret (Ok (MkCompanions metadata provenance)).

(** ** The source, verified *)

Definition source_sidecar (record : Record_) : res Sidecar :=
  match sidecar record with
  | Some sc => Ok sc
  | None => Err (Bail (&"copy verdict with no source sidecar"))
  end.

(** The re-read before a stale sidecar is dropped. *)
Definition still_stale (src : nat) (sckey got : str) : prog bool :=
  let* r := call src (GetBytes sckey) in
  Ret (match r with
       | Ok bytes => match parse_sidecar bytes with
                     | Ok current => negb (bool_decide (sha256 current = got))
                     | Err _ => false
                     end
       | Err _ => false
       end).

Definition drop_stale_sidecar (src : nat) (pkg filename got : str) : prog (res unit) :=
  let sckey := sidecar_key (artifact_key pkg filename) in
  let* stale := still_stale src sckey got in
  if stale : bool then
    let*? _ := call src (DeleteKeys [sckey]) in
    mark_dirty src pkg
  else Ret (Ok tt).

Definition verify_source_artifact (src : nat) (pkg filename : str) (record : Record_)
    (source : ArtifactSource) : prog (res StagedArtifact) :=
  let*? sc := Ret (source_sidecar record) in
  let akey := artifact_key pkg filename in
  let*? staged := stage source src akey (size sc) in
  if decide (staged.1 = sha256 sc) then Ret (Ok staged.2) else
  match source with
  | FromSpool _ => Ret (Err (Bail (&"upload spool does not hash to its sidecar")))
  | FromBucket =>
    let*? _ := drop_stale_sidecar src pkg filename staged.1 in
    Ret (Err (Bail (&"source artifact sha mismatch")))
  end.

Definition verify_source_record (src : nat) (pkg filename : str) (record : Record_)
    (source : ArtifactSource) : prog (res VerifiedSource) :=
  let*? artifact := verify_source_artifact src pkg filename record source in
  let*? c := read_source_companions src (artifact_key pkg filename) record in
  Ret (Ok (MkVerified artifact (c_metadata c) (c_provenance c))).

(** ** Installing sidecars under compare-and-swap *)

(** [get_bytes] with an absent key as [None]. *)
Definition get_optional (b : nat) (key : str) : prog (res (option str)) :=
  let* r := call b (GetBytes key) in
  Ret (match r with
       | Ok bytes => Ok (Some bytes)
       | Err e => if is_not_found e then Ok None else Err e
       end).

Definition body_matches (body : option str) (sha : str) : bool :=
  match body with Some bytes => bool_decide (sha256_hex bytes = sha) | None => false end.

Definition parsed_origin (sc : Sidecar) : option StatusDoc.Origin :=
  let! raw := sc_origin sc in origin_parse raw.

Fixpoint install_loop (attempts : nat) (dst : nat) (key artifact : str) (sc : Sidecar)
    : prog (res bool) :=
  match attempts with
  | O => Ret (Err (Contended (&"conditional sidecar replacement retries exhausted")))
  | S attempts =>
    let*? read := call dst (GetWithEtag key) in
    match read with
    | None =>
      let*? created := call dst (PutIfAbsent key (encode sc)) in
      if created : bool then Ret (Ok true) else install_loop attempts dst key artifact sc
    | Some (current_bytes, etag) =>
      if decide (current_bytes = encode sc) then Ret (Ok false) else
      let*? current := Ret (parse_sidecar current_bytes) in
      if negb (sidecar_origin_ok current)
      then Ret (Err (Bail (&"sidecar holds an unexpected origin"))) else
      let*? body := get_optional dst artifact in
      let replace :=
        if decide (sha256 current = sha256 sc)
        then bool_decide (sidecar_merge sc (Some StatusDoc.Private) current (parsed_origin current) = MA)
        else bool_decide (body = None) || body_matches body (sha256 sc)
             || bool_decide (sc_origin current = Some OriginState.MIRROR) in
      if negb replace then
        if decide (sha256 current = sha256 sc) then Ret (Ok false)
        else Ret (Err (Bail (&"destination sidecar backed by different private bytes")))
      else
        let*? put := call dst (PutIfMatch key etag (encode sc)) in
        match put with
        | Some _ => Ret (Ok true)
        | None => install_loop attempts dst key artifact sc
        end
    end
  end.

Definition install_or_verify_sidecar (dst : nat) (key : str) (sc : Sidecar) : prog (res bool) :=
  if decide (sc_origin sc = Some OriginState.PRIVATE) then
    match strip_suffix SIDECAR_SUFFIX key with
    | Some artifact => install_loop ORIGIN_ATTEMPTS dst key artifact sc
    | None => Ret (Err (Bail (&"sidecar key has no sidecar suffix")))
    end
  else Ret (Err (Bail (&"replication source sidecar is not private truth"))).

Fixpoint install_mirror_loop (attempts : nat) (dst : nat) (key artifact : str) (sc : Sidecar)
    : prog (res bool) :=
  match attempts with
  | O => Ret (Err (Bail (&"conditional mirror sidecar replacement retries exhausted")))
  | S attempts =>
    let*? read := call dst (GetWithEtag key) in
    match read with
    | None =>
      let*? created := call dst (PutIfAbsent key (encode sc)) in
      if created : bool then Ret (Ok true) else install_mirror_loop attempts dst key artifact sc
    | Some (current_bytes, etag) =>
      if decide (current_bytes = encode sc) then Ret (Ok false) else
      let*? current := Ret (parse_sidecar current_bytes) in
      if negb (sidecar_origin_ok current)
      then Ret (Err (Bail (&"sidecar holds an unexpected origin"))) else
      if decide (sc_origin current = Some OriginState.PRIVATE) then Ret (Ok false) else
      let*? replace :=
        (if decide (sha256 current = sha256 sc)
         then Ret (Ok (bool_decide
                (sidecar_merge sc (Some StatusDoc.Mirror) current (parsed_origin current) = MA)))
         else
           let*? body := get_optional dst artifact in
           Ret (Ok (bool_decide (body = None) || body_matches body (sha256 sc)))) in
      if negb replace then
        if decide (sha256 current = sha256 sc) then Ret (Ok false)
        else Ret (Err (Bail (&"destination mirror sidecar backed by different bytes")))
      else
        let*? put := call dst (PutIfMatch key etag (encode sc)) in
        match put with
        | Some _ => Ret (Ok true)
        | None => install_mirror_loop attempts dst key artifact sc
        end
    end
  end.

Definition install_or_verify_mirror_sidecar (dst : nat) (key : str) (sc : Sidecar) : prog (res bool) :=
  if decide (sc_origin sc = Some OriginState.MIRROR) then
    match strip_suffix SIDECAR_SUFFIX key with
    | Some artifact => install_mirror_loop ORIGIN_ATTEMPTS dst key artifact sc
    | None => Ret (Err (Bail (&"sidecar key has no sidecar suffix")))
    end
  else Ret (Err (Bail (&"mirror replication source sidecar is not mirror truth"))).

(** A stored sidecar asked one question, an absent one answering no. *)
Definition sidecar_says (dst : nat) (key : str) (ask : Sidecar -> bool) : prog (res bool) :=
  let* r := call dst (GetBytes key) in
  match r with
  | Ok bytes => Ret (let? current := parse_sidecar bytes in Ok (ask current))
  | Err e => if is_not_found e then Ret (Ok false) else Ret (Err e)
  end.

Definition sidecar_still_names (dst : nat) (key sha : str) : prog (res bool) :=
  sidecar_says dst key (fun current => bool_decide (sha256 current = sha)).

Definition sidecar_holds_private (dst : nat) (key : str) : prog (res bool) :=
  sidecar_says dst key (fun current => bool_decide (sc_origin current = Some OriginState.PRIVATE)).

(** ** Copying a live record *)

Definition freeze_copy_race (src dst : nat) (pkg filename : str) : prog (res unit) :=
  let*? src_intent := mark_intent src pkg in
  let* result :=
    (let*? _ := freeze_side src pkg filename in
     let*? _ := freeze_side dst pkg filename in
     mark_dirty dst pkg) in
  let* _ := mark_commit src pkg src_intent in
  Ret result.

(** The in-place repair of crash debris: preserved first, then replaced
    conditionally. *)
Definition repair_debris (dst : nat) (pkg filename : str) (sc : Sidecar) (artifact : StagedArtifact)
    : prog (res bool) :=
  let akey := artifact_key pkg filename in
  let*? read := call dst (GetWithEtag akey) in
  match read with
  | None => Ret (Ok false)
  | Some (current, etag) =>
    if decide (sha256_hex current = sha256 sc) then Ret (Ok false) else
    let*? ours := sidecar_still_names dst (sidecar_key akey) (sha256 sc) in
    if negb ours then Ret (Ok false) else
    let*? _ := quarantine_bytes dst pkg filename current in
    let*? bytes := staged_read_all dst artifact in
    let*? put := call dst (PutIfMatch akey etag bytes) in
    match put with
    | Some _ =>
      let*? _ := verify_stored_size dst akey (staged_size artifact) in Ret (Ok true)
    | None => Ret (Ok false)
    end
  end.

Definition artifact_leg (src dst : nat) (pkg filename : str) (sc : Sidecar)
    (artifact : StagedArtifact) (sidecar_published : bool) : prog (res ArtifactLeg) :=
  let akey := artifact_key pkg filename in
  let*? changed := repair_debris dst pkg filename sc artifact in
  let*? created := create_artifact_verified dst akey (staged_body artifact) (staged_size artifact) in
  if created : bool then Ret (Ok (Landed true)) else
  let*? raced := call dst (GetBytes akey) in
  let raced_sha := sha256_hex raced in
  if decide (raced_sha = sha256 sc) then Ret (Ok (Landed changed)) else
  let*? named := (if negb sidecar_published
                  then sidecar_still_names dst (sidecar_key akey) raced_sha
                  else Ret (Ok false)) in
  if named : bool
  then Ret (Err (Bail (&"destination holds different private bytes named by its own sidecar")))
  else
    let*? _ := freeze_copy_race src dst pkg filename in
    Ret (Ok LegFrozen).

Definition put_companion (changed : bool) (dst : nat) (key : str) (bytes : option str)
    : prog (res bool) :=
  match bytes with
  | Some bytes => or_changed changed (put_if_absent_or_verify dst key bytes)
  | None => Ret (Ok changed)
  end.

Definition put_companions (changed : bool) (dst : nat) (akey : str) (c : Companions) : prog (res bool) :=
  let*? changed := put_companion changed dst (metadata_key akey) (c_metadata c) in
  put_companion changed dst (provenance_key akey) (c_provenance c).

Definition copy_truth (dst : nat) (akey : str) (sc : Sidecar) (companions : Companions)
    (changed is_mirror : bool) (landed : Z) : prog (res bool) :=
  let*? stored := call dst (StoredSize akey) in
  match stored with
  | Some sz =>
    if sz =? landed then
      let*? changed := or_changed changed
        (if is_mirror then install_or_verify_mirror_sidecar dst (sidecar_key akey) sc
         else install_or_verify_sidecar dst (sidecar_key akey) sc) in
      put_companions changed dst akey companions
    else Ret (Err (Bail (&"destination artifact is not the size this copy landed")))
  | None => Ret (Err (Bail (&"destination artifact was removed before its sidecar was published")))
  end.

(** The provider's copy verb: it reads the source object and writes the
    destination's, unconditionally. *)
Definition server_side_copy (src dst : nat) (akey : str) (size : Z) : prog (res CopyOutcome) :=
  if negb (copyable_size size) then Ret (Ok NotCopyable) else
  let*? bytes := call src (GetBytes akey) in
  let*? _ := call dst (PutBytes akey bytes) in
  Ret (Ok (Copied (copy_checksum bytes))).

Definition server_side_copy_artifact (src dst : nat) (akey : str) (sc : Sidecar) : prog (res bool) :=
  let*? outcome := server_side_copy src dst akey (size sc) in
  match outcome with
  | NotCopyable => Ret (Ok false)
  | Copied checksum =>
    let*? _ := verify_stored_size dst akey (size sc) in
    if decide (check_copy_checksum (store_checksum sc) checksum = Mismatch)
    then Ret (Err (Bail (&"server-side copy contradicts the source checksum")))
    else Ret (Ok true)
  end.

(** The destination's claim, ahead of the bytes. *)
Definition claim_destination (dst : nat) (pkg : str) (is_mirror : bool) : prog (res unit) :=
  if is_mirror then
    let*? o := ensure_mirror_origin dst pkg in
    match o with
    | StatusDoc.Private => Ret (Err (Bail (&"destination claims the package private")))
    | StatusDoc.Mirror => Ret (Ok tt)
    end
  else ensure_private_origin dst pkg.

Definition is_mirror_record (record : Record_) : bool :=
  bool_decide (record_origin record = Some StatusDoc.Mirror).

(** [copy_live] over the stream transport, once the body is staged. *)
Definition copy_streamed (src dst : nat) (pkg filename : str) (sc : Sidecar) (is_mirror : bool)
    (companions : Companions) (staged : StagedArtifact) : prog (res bool) :=
  let*? leg := artifact_leg src dst pkg filename sc staged false in
  match leg with
  | LegFrozen => Ret (Ok false)
  | Landed changed =>
    copy_truth dst (artifact_key pkg filename) sc companions changed is_mirror (staged_size staged)
  end.

(** [copy_live] over the server-side transport: the sidecar is the gate. *)
Definition copy_server_side (src dst : nat) (pkg filename : str) (record : Record_) (sc : Sidecar)
    (is_mirror : bool) (companions : Companions) (source : ArtifactSource) : prog (res bool) :=
  let akey := artifact_key pkg filename in
  let skey := sidecar_key akey in
  let*? changed :=
    (if is_mirror then
       let*? installed := install_or_verify_mirror_sidecar dst skey sc in
       let*? yielded := (if negb installed then sidecar_holds_private dst skey else Ret (Ok false)) in
       if yielded : bool then Ret (Err (Bail (&"destination holds private truth")))
       else Ret (Ok installed)
     else install_or_verify_sidecar dst skey sc) in
  let*? changed := put_companions changed dst akey companions in
  let* copied := server_side_copy_artifact src dst akey sc in
  match copied with
  | Ok true => Ret (Ok true)
  | _ =>
    let*? staged := verify_source_artifact src pkg filename record source in
    let*? leg := artifact_leg src dst pkg filename sc staged true in
    Ret (Ok (match leg with LegFrozen => false | Landed landed => changed || landed end))
  end.

Definition copy_live (src dst : nat) (pkg filename : str) (record : Record_) (source : ArtifactSource)
    : prog (res bool) :=
  let*? sc := Ret (source_sidecar record) in
  let*? companions := read_source_companions src (artifact_key pkg filename) record in
  let is_mirror := is_mirror_record record in
  let open_copy := (let*? _ := require_replication_unfenced dst in claim_destination dst pkg is_mirror) in
  if copy_allowed dst src then
    let*? _ := open_copy in
    copy_server_side src dst pkg filename record sc is_mirror companions source
  else
    let*? staged := verify_source_artifact src pkg filename record source in
    let*? _ := open_copy in
    copy_streamed src dst pkg filename sc is_mirror companions staged.

(** ** Superseding a record *)

Fixpoint replace_loop (attempts : nat) (b : nat) (key bytes : str) : prog (res bool) :=
  match attempts with
  | O => Ret (Err (Bail (&"conditional companion replacement retries exhausted")))
  | S attempts =>
    let*? read := call b (GetWithEtag key) in
    match read with
    | None =>
      let*? created := call b (PutIfAbsent key bytes) in
      if created : bool then Ret (Ok true) else replace_loop attempts b key bytes
    | Some (current, etag) =>
      if decide (current = bytes) then Ret (Ok false) else
      let*? put := call b (PutIfMatch key etag bytes) in
      match put with
      | Some _ => Ret (Ok true)
      | None => replace_loop attempts b key bytes
      end
    end
  end.

Definition replace_companion (b : nat) (key : str) (bytes : option str) (replace : bool)
    : prog (res bool) :=
  match bytes with
  | None =>
    let*? there := (if replace then call b (HeadExists key) else Ret (Ok false)) in
    if there : bool then let*? _ := call b (DeleteKeys [key]) in Ret (Ok true)
    else Ret (Ok false)
  | Some bytes =>
    if negb replace then put_if_absent_or_verify b key bytes
    else replace_loop ORIGIN_ATTEMPTS b key bytes
  end.

(** Whether the destination's companions describe other bytes. *)
Definition replaces_companions (dst : nat) (akey : str) (sc : Sidecar) : prog (res bool) :=
  let* r := call dst (GetBytes (sidecar_key akey)) in
  match r with
  | Ok bytes =>
    Ret (let? current := parse_sidecar bytes in
         match sc_origin current with
         | None => Ok true
         | Some raw =>
           if decide (raw = OriginState.PRIVATE) then Ok (negb (bool_decide (sha256 current = sha256 sc)))
           else if decide (raw = OriginState.MIRROR) then Ok true
           else Err (Bail (&"destination sidecar has invalid origin"))
         end)
  | Err e => if is_not_found e then Ret (Ok false) else Ret (Err e)
  end.

(** The body leg: what stands is preserved and replaced conditionally; an empty
    key is created. [true] when the intended bytes stand, [false] when the
    filename was frozen instead. *)
Definition supersede_create (src dst : nat) (pkg filename : str) (sc : Sidecar) (artifact : StagedArtifact)
    : prog (res bool) :=
  let akey := artifact_key pkg filename in
  let*? created := create_artifact_verified dst akey (staged_body artifact) (staged_size artifact) in
  if created : bool then Ret (Ok true) else
  let*? raced := call dst (GetBytes akey) in
  if decide (sha256_hex raced = sha256 sc) then Ret (Ok true) else
  let*? _ := freeze_copy_race src dst pkg filename in
  let*? _ := call dst (DeleteKeys [superseding_key akey]) in
  Ret (Ok false).

Definition supersede_body (src dst : nat) (pkg filename : str) (sc : Sidecar) (artifact : StagedArtifact)
    : prog (res bool) :=
  let akey := artifact_key pkg filename in
  let*? read := call dst (GetWithEtag akey) in
  match read with
  | Some (current, etag) =>
    if decide (sha256_hex current = sha256 sc) then Ret (Ok true) else
    let*? _ := quarantine_bytes dst pkg filename current in
    let*? bytes := staged_read_all dst artifact in
    let*? put := call dst (PutIfMatch akey etag bytes) in
    match put with
    | None => Ret (Err (Contended (&"destination artifact changed during supersede")))
    | Some _ =>
      let*? _ := verify_stored_size dst akey (staged_size artifact) in Ret (Ok true)
    end
  | None => supersede_create src dst pkg filename sc artifact
  end.

(** Markers that raced the publish keep their precedence; otherwise the spent
    fence goes. *)
Definition reassert_precedence (dst : nat) (pkg filename : str) (artifact : StagedArtifact)
    : prog (res unit) :=
  let akey := artifact_key pkg filename in
  let*? froz := call dst (HeadExists (frozen_key akey)) in
  if froz : bool then
    let*? bytes := staged_read_all dst artifact in
    let*? _ := quarantine_bytes dst pkg filename bytes in
    let*? _ := freeze_side dst pkg filename in Ret (Ok tt)
  else
    let*? tomb := call dst (HeadExists (tombstone_key akey)) in
    if tomb : bool then let*? _ := tombstone_side dst pkg filename in Ret (Ok tt)
    else call dst (DeleteKeys [mirror_quarantined_key akey]).

(** The publication proper: intent, body, sidecar, companions. *)
Definition supersede_publish (src dst : nat) (pkg filename : str) (sc : Sidecar) (verified : VerifiedSource)
    : prog (res unit) :=
  let akey := artifact_key pkg filename in
  let*? replace := replaces_companions dst akey sc in
  let*? _ := call dst (PutBytes (superseding_key akey) (encode sc)) in
  let*? landed := supersede_body src dst pkg filename sc (v_artifact verified) in
  if negb landed then Ret (Ok tt) else
  let*? _ := install_or_verify_sidecar dst (sidecar_key akey) sc in
  let*? _ := call dst (DeleteKeys [superseding_key akey]) in
  let*? _ := replace_companion dst (metadata_key akey) (v_metadata verified) replace in
  let*? _ := replace_companion dst (provenance_key akey) (v_provenance verified) replace in
  let*? _ := reassert_precedence dst pkg filename (v_artifact verified) in
  mark_dirty dst pkg.

Definition supersede_record (src dst : nat) (pkg filename : str) (record : Record_) (source : ArtifactSource)
    : prog (res unit) :=
  let*? _ := require_replication_unfenced dst in
  let*? sc := Ret (source_sidecar record) in
  if decide (sc_origin sc = Some OriginState.PRIVATE) then
    let*? verified := verify_source_record src pkg filename record source in
    let*? _ := ensure_private_origin dst pkg in
    let akey := artifact_key pkg filename in
    let*? froz := call dst (HeadExists (frozen_key akey)) in
    if froz : bool then
      let*? bytes := staged_read_all dst (v_artifact verified) in
      let*? _ := quarantine_bytes dst pkg filename bytes in
      let*? _ := freeze_side dst pkg filename in
      mark_dirty dst pkg
    else
      let*? tomb := call dst (HeadExists (tombstone_key akey)) in
      if tomb : bool then
        let*? changed := tombstone_side dst pkg filename in
        if changed : bool then mark_dirty dst pkg else Ret (Ok tt)
      else supersede_publish src dst pkg filename sc verified
  else Ret (Err (Bail (&"supersede source is not private truth"))).

(** ** Settling a demotion *)

Definition write_mirror_quarantine_marker (b : nat) (pkg filename : str) : prog (res bool) :=
  put_if_absent_or_verify b (mirror_quarantined_key (artifact_key pkg filename))
    (encode (MkFilenameBody filename)).

Definition settle_drop (b : nat) (akey : str) (body_is_ours changed : bool) : prog (res bool) :=
  let keys := if body_is_ours then record_object_keys akey
              else [sidecar_key akey; metadata_key akey; provenance_key akey] in
  let*? _ := call b (DeleteKeys keys) in
  Ret (Ok changed).

Definition settle_mirror_quarantine (b : nat) (pkg filename : str) : prog (res bool) :=
  let*? _ := ensure_private_origin b pkg in
  let*? resolved := demotion_resolved_by_private_truth b pkg filename in
  if resolved : bool then Ret (Ok false) else
  let*? marker_created := write_mirror_quarantine_marker b pkg filename in
  let*? preserved := quarantine b pkg filename in
  let akey := artifact_key pkg filename in
  let*? sidecar_left := call b (HeadExists (sidecar_key akey)) in
  let moved := marker_created || bool_decide (is_Some preserved) in
  let*? standing := get_optional b akey in
  match standing with
  | Some bytes =>
    if decide (preserved = Some (sha256_hex bytes)) then
      let*? superseding := call b (HeadExists (superseding_key akey)) in
      if superseding : bool then Ret (Ok moved)
      else settle_drop b akey true (moved || sidecar_left)
    else Ret (Ok moved)
  | None => settle_drop b akey false (moved || sidecar_left)
  end.

(** One listed filename of [quarantine_mirror_artifacts]. *)
Definition quarantine_mirror_one (b : nat) (pkg prefix : str) (quarantined : nat) (entry : FileEntry)
    : prog (res nat) :=
  match strip_prefix prefix (entry_key entry) with
  | None => Ret (Ok quarantined)
  | Some filename =>
    if negb (is_artifact filename) then Ret (Ok quarantined) else
    let*? bytes := get_optional b (sidecar_key (entry_key entry)) in
    match bytes with
    | None => Ret (Ok quarantined)
    | Some bytes =>
      let*? sc := Ret (parse_sidecar bytes) in
      match sc_origin sc with
      | None => Ret (Ok quarantined)
      | Some raw =>
        if decide (raw = OriginState.MIRROR) then
          let*? settled := settle_mirror_quarantine b pkg filename in
          Ret (Ok (if settled : bool then S quarantined else quarantined))
        else if decide (raw = OriginState.PRIVATE) then Ret (Ok quarantined)
        else Ret (Err (Bail (&"sidecar holds an unexpected origin")))
      end
    end
  end.

Definition quarantine_mirror_artifacts (b : nat) (pkg : str) : prog (res nat) :=
  let*? claim := read_origin_observation b pkg in
  match claim with
  | None => Ret (Ok 0%nat)
  | Some obs =>
    match state obs with
    | OriginState.Private =>
      let prefix := PACKAGES_PREFIX ++ pkg ++ &"/" in
      let*? entries := call b (ListDirEntries prefix) in
      pfor entries 0%nat (quarantine_mirror_one b pkg prefix)
    | _ => Ret (Ok 0%nat)
    end
  end.

(** ** Finishing an interrupted supersede *)

Record MarkedRecord := MkMarked { install : bool; retire : bool }.

Definition classify_marked_record (body_sha : option str) (intended_sha : str) (marker_age : option Z)
    (retire_after : Z) : MarkedRecord :=
  let install := bool_decide (body_sha = Some intended_sha) in
  let settled := match marker_age with Some age => retire_after <=? age | None => false end in
  MkMarked install (install || settled).

(** [tombstone::AGE_FLOOR], in seconds. *)
Definition AGE_FLOOR : Z := 300.

Definition marker_retire_gate (intent_grace size : Z) : Z :=
  Z.max (Z.max intent_grace AGE_FLOOR) (2 * artifact_write_timeout size).

(** A marker to retire, with the version it was listed at. *)
Record Answered := MkAnswered { a_marker : str; a_etag : str; a_modified : option Z }.

Definition finish_one (b : nat) (now intent_grace : Z) (st : nat * list Answered) (entry : FileEntry)
    : prog (res (nat * list Answered)) :=
  let marker := entry_key entry in
  match strip_suffix SUPERSEDING_SUFFIX marker with
  | None => Ret (Ok st)
  | Some akey =>
    let*? read := get_optional b marker in
    match read with
    | None => Ret (Ok st)
    | Some bytes =>
      let*? intended := Ret (parse_sidecar bytes) in
      let*? tombstoned := call b (HeadExists (tombstone_key akey)) in
      let*? frozen := call b (HeadExists (frozen_key akey)) in
      let*? body_sha := (if tombstoned || frozen then Ret (Ok None) else
                         let* r := stream_sha256 b akey in
                         Ret (match r with
                              | Ok h => Ok (Some h.1)
                              | Err e => if is_not_found e then Ok None else Err e
                              end)) in
      let age := (fun written => now - written) <$> last_modified entry in
      let verdict := classify_marked_record body_sha (sha256 intended) age
                       (marker_retire_gate intent_grace (size intended)) in
      let*? finished := (if install verdict then
                           let*? wrote := install_or_verify_sidecar b (sidecar_key akey) intended in
                           Ret (Ok (if wrote : bool then S st.1 else st.1))
                         else Ret (Ok st.1)) in
      Ret (Ok (finished, match retire verdict, entry_etag entry with
                         | true, Some etag => st.2 ++ [MkAnswered marker etag (last_modified entry)]
                         | _, _ => st.2
                         end))
    end
  end.

(** The listing has not changed since the answer was taken. *)
Definition unchanged (relisted : list FileEntry) (a : Answered) : bool :=
  bool_decide (Exists (fun e => entry_key e = a_marker a /\ entry_etag e = Some (a_etag a)
                                /\ last_modified e = a_modified a) relisted).

Definition finish_interrupted_supersedes (b : nat) (pkg : str) (markers : list FileEntry)
    (intent_grace : Z) : prog (res nat) :=
  let* now := call b Now in
  let*? st := pfor markers (0%nat, []) (finish_one b now intent_grace) in
  match st.2 with
  | [] => Ret (Ok st.1)
  | answered =>
    let*? relisted := call b (ListDirEntries (PACKAGES_PREFIX ++ pkg ++ &"/")) in
    match a_marker <$> List.filter (unchanged relisted) answered with
    | [] => Ret (Ok st.1)
    | keys => let*? _ := call b (DeleteKeys keys) in Ret (Ok st.1)
    end
  end.

(** ** The executor *)

(** Which sides a verdict's mutations need an intent on: the named side of a
    copy is the source, the named side of a propagated freeze has its marker. *)
Definition brackets (verdict : Verdict) : bool * bool :=
  match verdict with
  | Noop | Defer => (false, false)
  | Copy A | Supersede A | QuarantineLoser A | PropagateFreeze A => (false, true)
  | Copy B | Supersede B | QuarantineLoser B | PropagateFreeze B => (true, false)
  | AdoptSidecar _ | Freeze | FinishFreeze | Tombstone | SettleMirrorQuarantine => (true, true)
  end.

Definition mark_intent_if (bracket : bool) (b : nat) (pkg : str) : prog (res (option str)) :=
  if bracket then let*? nonce := mark_intent b pkg in Ret (Ok (Some nonce)) else Ret (Ok None).

(** Commits are best effort: a failed one leaves its intent to go stale. *)
Definition commit_if (intent : option str) (b : nat) (pkg : str) : prog unit :=
  match intent with
  | Some nonce => let* _ := mark_commit b pkg nonce in Ret tt
  | None => Ret tt
  end.

Definition mark_dirty_if (changed : bool) (b : nat) (pkg : str) : prog (res unit) :=
  if changed then mark_dirty b pkg else Ret (Ok tt).

Definition mark_both (changed : bool * bool) (a b : nat) (pkg : str) : prog (res unit) :=
  let*? _ := mark_dirty_if changed.1 a pkg in mark_dirty_if changed.2 b pkg.

Definition freeze_both (a b : nat) (pkg filename : str) : prog (res unit) :=
  let*? _ := freeze_side a pkg filename in
  let*? _ := freeze_side b pkg filename in
  mark_both (true, true) a b pkg.

Section execute.
Variables (a b : nat) (pkg filename : str) (ra rb : Record_) (source : ArtifactSource).

(** The source, the destination and the source's record. *)
Definition pick (side : Side) : nat * nat * Record_ :=
  match side with A => (a, b, ra) | B => (b, a, rb) end.

Definition execute_verdict (verdict : Verdict) : prog (res unit) :=
  match verdict with
  | Noop =>
    let*? dirty := repair_same_sha_companions a b pkg filename ra rb in
    mark_both dirty a b pkg
  | Defer => Ret (Ok tt)
  | Copy side =>
    let '(src, dst, record) := pick side in
    let*? changed := copy_live src dst pkg filename record source in
    mark_dirty_if changed dst pkg
  | AdoptSidecar _ =>
    let*? adopted := adopt_sidecar_cas a b pkg filename in
    let*? dirty := repair_same_sha_companions a b pkg filename ra rb in
    mark_both (adopted.1 || dirty.1, adopted.2 || dirty.2) a b pkg
  | Supersede side | QuarantineLoser side =>
    let '(src, dst, record) := pick side in
    supersede_record src dst pkg filename record source
  | Freeze | FinishFreeze => freeze_both a b pkg filename
  | PropagateFreeze frozen_side =>
    let target := match frozen_side with A => b | B => a end in
    let*? _ := freeze_side target pkg filename in
    mark_dirty target pkg
  | SettleMirrorQuarantine =>
    let*? changed := settle_mirror_quarantine a pkg filename in
    let*? _ := mark_dirty_if changed a pkg in
    let*? changed := settle_mirror_quarantine b pkg filename in
    mark_dirty_if changed b pkg
  | Tombstone =>
    let*? changed := tombstone_side a pkg filename in
    let*? _ := mark_dirty_if changed a pkg in
    let*? changed := tombstone_side b pkg filename in
    mark_dirty_if changed b pkg
  end.

Definition execute_body (verdict : Verdict) : prog (res Convergence) :=
  let*? _ := clear_spent_demotion_fence a pkg filename ra in
  let*? _ := clear_spent_demotion_fence b pkg filename rb in
  let*? _ := execute_verdict verdict in
  Ret (Ok (if decide (verdict = Defer) then Deferred else Converged)).

Definition execute (verdict : Verdict) : prog (res Convergence) :=
  let*? _ := require_replication_unfenced a in
  let '(bracket_a, bracket_b) := brackets verdict in
  let*? intent_a := mark_intent_if bracket_a a pkg in
  let* opened := mark_intent_if bracket_b b pkg in
  match opened with
  | Err e => let* _ := commit_if intent_a a pkg in Ret (Err e)
  | Ok intent_b =>
    let* result := execute_body verdict in
    let* _ := commit_if intent_a a pkg in
    let* _ := commit_if intent_b b pkg in
    Ret result
  end.

End execute.

End programs.

(** A fleet without server-side copies. *)
Definition no_copy_verb : CopyVerb :=
  {| copy_allowed _ _ := false; copyable_size _ := false; copy_checksum _ := None |}.

End Execute.
