(* ===== verification/Footprint.v ===== *)
(** * What the executor's programs write

    For every program of the executor, the keys it may write, for any set of
    keys that holds them. Frames (what stays as it was) and the preservation of
    bodies both come from these. *)
From stdpp Require Import functions.
From S2P Require Import Prelude RustStr Documents Hash Decide Storage Origin Markers Replicate Artifact Execute.
Import Storage.

Module Footprint.
Import Sidecar Decide Origin Hash Markers Replicate Artifact Execute.

Definition touches (F : nat -> str -> Prop) (b : nat) (R : Type) (o : op R) : Prop :=
  forall k, names_key o k -> F b k.

Create HintDb footprint.

(** One step along a program whose answers do not matter. *)
Ltac walk_side := first [done | by intros k <- | by intros k [] | by intros k ->%list_elem_of_singleton | idtac].
Ltac walk_step :=
  match goal with
  | |- guar _ _ (Ret _) => done
  | |- guar _ _ (pbind_ok (call _ _) _) => apply guar_call_ok; [walk_side | intros ? _ | done]
  | |- guar _ _ (pbind (call _ _) _) => apply guar_call_bind; [walk_side | intros ? _]
  | |- guar _ _ (call _ _) => apply guar_call; [walk_side | done]
  | |- guar _ _ (pbind_ok (Ret _) _) => apply guar_ret_bind; [intros ? _ | done]
  | |- guar _ _ (pbind_ok (pbind_ok _ _) _) => eapply (guar_bind_ok _ _ _ (fun _ => True)); [|intros ? _|done]
  | |- guar _ _ (pbind_ok (pbind _ _) _) => eapply (guar_bind_ok _ _ _ (fun _ => True)); [|intros ? _|done]
  | |- guar _ _ (pbind (pbind_ok _ _) _) => eapply (guar_bind _ _ _ (fun _ => True)); [|intros ? _]
  | |- guar _ _ (match ?x with _ => _ end) => destruct x
  | |- guar _ _ (pbind_ok (match ?x with _ => _ end) _) => destruct x
  | |- guar _ _ _ => solve [auto with footprint]
  | |- guar _ _ (pbind_ok _ _) => eapply (guar_bind_ok _ _ _ (fun _ => True)); [|intros ? _|done]
  | |- guar _ _ (pbind _ _) => eapply (guar_bind _ _ _ (fun _ => True)); [|intros ? _]
  end.
Ltac walk := cbv zeta; repeat walk_step.

Section footprints.
Context {D : Digest} {T : Chunking} `{ClaimCodec} {JS : Codec Sidecar} {JF : Codec FilenameBody}
  {V : CopyVerb} {E : Etags}.
Variable F : nat -> str -> Prop.

Abbreviation touching p := (guar (touches F) (fun _ => True) p).

Lemma touch_mark_dirty b pkg : (forall n s, F b (marker_key pkg n s)) -> touching (mark_dirty b pkg).
Proof. intros HF. unfold mark_dirty, mark_commit, put_marker. walk. Qed.

Lemma touch_mark_commit b pkg n : (forall n s, F b (marker_key pkg n s)) -> touching (mark_commit b pkg n).
Proof. intros HF. unfold mark_commit, put_marker. walk. Qed.

Lemma touch_mark_intent b pkg : (forall n s, F b (marker_key pkg n s)) -> touching (mark_intent b pkg).
Proof. intros HF. unfold mark_intent, mark_intent_with_nonce, put_marker. walk. Qed.

Lemma touch_read_observation b pkg : touching (read_origin_observation b pkg).
Proof. unfold read_origin_observation. walk. Qed.
#[local] Hint Resolve touch_read_observation : footprint.

Lemma touch_cas_claim b pkg e st : F b (origin_key pkg) -> touching (cas_claim b pkg e st).
Proof. intros HF. unfold cas_claim, encode_claim. walk. Qed.
#[local] Hint Resolve touch_cas_claim : footprint.

Lemma touch_claim_loop n b pkg t : F b (origin_key pkg) -> touching (claim_loop b n pkg t).
Proof. intros HF. induction n as [|n IH]; cbn [claim_loop]; unfold encode_claim; walk. Qed.
#[local] Hint Resolve touch_claim_loop : footprint.

Lemma touch_claim_origin b pkg r : F b (origin_key pkg) -> touching (claim_origin b pkg r).
Proof. intros HF. unfold claim_origin. walk. Qed.
#[local] Hint Resolve touch_claim_origin : footprint.

Lemma touch_demote b pkg o : F b (origin_key pkg) -> touching (demote_observed_mirror b pkg o).
Proof. intros HF. unfold demote_observed_mirror, rewrite_claim. walk. Qed.
#[local] Hint Resolve touch_demote : footprint.

Lemma touch_ensure_private b pkg : F b (origin_key pkg) -> touching (ensure_private_origin b pkg).
Proof.
  intros HF. unfold ensure_private_origin. induction ORIGIN_ATTEMPTS as [|n IH]; cbn [ensure_private_loop]; walk.
Qed.

Lemma touch_ensure_mirror b pkg : F b (origin_key pkg) -> touching (ensure_mirror_origin b pkg).
Proof.
  intros HF. unfold ensure_mirror_origin. induction ORIGIN_ATTEMPTS as [|n IH]; cbn [ensure_mirror_loop]; walk.
Qed.

Lemma touch_stream_sha256 b key : touching (stream_sha256 b key).
Proof. unfold stream_sha256. walk. Qed.
#[local] Hint Resolve touch_stream_sha256 : footprint.

Lemma touch_store_verified b key body n e : F b key -> touching (store_artifact_verified b key body n e).
Proof. intros HF. unfold store_artifact_verified, check_stored_size, body_read_all. walk. Qed.
#[local] Hint Resolve touch_store_verified : footprint.

Lemma touch_put_verify b key bytes : F b key -> touching (put_if_absent_or_verify b key bytes).
Proof. intros HF. unfold put_if_absent_or_verify. walk. Qed.
#[local] Hint Resolve touch_put_verify : footprint.

Lemma touch_quarantine_bytes b pkg f bytes :
  (forall sha, F b (quarantine_key pkg f sha)) -> touching (quarantine_bytes b pkg f bytes).
Proof. intros HF. unfold quarantine_bytes. walk. Qed.
#[local] Hint Resolve touch_quarantine_bytes : footprint.

Lemma touch_quarantine b pkg f :
  (forall sha, F b (quarantine_key pkg f sha)) -> touching (quarantine b pkg f).
Proof. intros HF. unfold quarantine. walk. Qed.
#[local] Hint Resolve touch_quarantine : footprint.

(** Every key of a record, its quarantine copies and its package's markers. *)
Definition owns_record (b : nat) (pkg f : str) : Prop :=
  (forall s, s ∈ [] :: companion_suffixes -> F b (companion_key (artifact_key pkg f) s))
  /\ (forall sha, F b (quarantine_key pkg f sha)) /\ forall n s, F b (marker_key pkg n s).

Lemma owns_drop_keys b pkg f k :
  owns_record b pkg f ->
  k ∈ record_object_keys (artifact_key pkg f)
      ++ [mirror_quarantined_key (artifact_key pkg f); superseding_key (artifact_key pkg f)] -> F b k.
Proof.
  intros (HF & _) Hk. rewrite drop_keys_suffixes in Hk. apply list_elem_of_fmap in Hk as (t & -> & Ht).
  apply HF. revert t Ht. apply Forall_forall. apply (bool_decide_unpack _). vm_compute. exact I.
Qed.

Lemma owns_key b pkg f s :
  owns_record b pkg f -> bool_decide (s ∈ companion_suffixes) = true ->
  F b (companion_key (artifact_key pkg f) s).
Proof. intros (HF & _) Hs. apply HF. right. by apply bool_decide_eq_true in Hs. Qed.

Lemma touch_tombstone_write b pkg f : owns_record b pkg f -> touching (tombstone_write b (artifact_key pkg f) f).
Proof. intros HF. unfold tombstone_write. walk. intros k <-. by apply owns_key. Qed.
#[local] Hint Resolve touch_tombstone_write : footprint.

Lemma touch_drop b pkg f : owns_record b pkg f -> touching (drop_record_objects b pkg f).
Proof. intros HF. unfold drop_record_objects. walk. intros k Hk. by eapply owns_drop_keys. Qed.
#[local] Hint Resolve touch_drop : footprint.

Lemma touch_freeze_side b pkg f : owns_record b pkg f -> touching (freeze_side b pkg f).
Proof.
  intros HF. pose proof HF as (_ & Hq & _). unfold freeze_side, write_frozen_marker. walk.
  intros k <-. by apply owns_key.
Qed.
#[local] Hint Resolve touch_freeze_side : footprint.

Lemma touch_tombstone_side b pkg f : owns_record b pkg f -> touching (tombstone_side b pkg f).
Proof.
  intros HF. unfold tombstone_side. walk. intros k Hk. repeat (apply elem_of_cons in Hk as [->|Hk]; [by apply owns_key|]).
  by apply elem_of_nil in Hk.
Qed.
#[local] Hint Resolve touch_tombstone_side : footprint.

Lemma touch_resolved b pkg f : touching (demotion_resolved_by_private_truth b pkg f).
Proof. unfold demotion_resolved_by_private_truth. walk. Qed.
#[local] Hint Resolve touch_resolved : footprint.

Lemma touch_clear_fence b pkg f r :
  F b (mirror_quarantined_key (artifact_key pkg f)) -> touching (clear_spent_demotion_fence b pkg f r).
Proof. intros HF. unfold clear_spent_demotion_fence. walk. Qed.

Lemma touch_freeze_race src dst pkg f :
  owns_record src pkg f -> owns_record dst pkg f -> touching (freeze_copy_race src dst pkg f).
Proof.
  intros HFs HFd. pose proof HFs as (_ & _ & Hs). pose proof HFd as (_ & _ & Hd).
  unfold freeze_copy_race, mark_dirty, mark_intent, mark_intent_with_nonce, mark_commit, put_marker. walk.
Qed.
#[local] Hint Resolve touch_freeze_race : footprint.

Lemma touch_optional b key : touching (get_optional b key).
Proof. unfold get_optional. walk. Qed.
#[local] Hint Resolve touch_optional : footprint.

Lemma touch_says b key ask : touching (sidecar_says b key ask).
Proof. unfold sidecar_says. walk. Qed.

Lemma touch_listed b key listed : touching (read_listed_companion b key listed).
Proof. unfold read_listed_companion. walk. Qed.
#[local] Hint Resolve touch_listed : footprint.

Lemma touch_companions src akey r : touching (read_source_companions src akey r).
Proof. unfold read_source_companions. walk. Qed.
#[local] Hint Resolve touch_companions : footprint.

Lemma touch_stage source src akey n : touching (stage source src akey n).
Proof. unfold stage, stage_from_bucket, hash_file. walk. Qed.
#[local] Hint Resolve touch_stage : footprint.

Lemma touch_staged_read b a : touching (staged_read_all b a).
Proof. unfold staged_read_all. walk. Qed.

(** The source changes only by losing a stale sidecar. *)
Lemma touch_verify_artifact src pkg f r source :
  F src (sidecar_key (artifact_key pkg f)) -> (forall n s, F src (marker_key pkg n s)) ->
  touching (verify_source_artifact src pkg f r source).
Proof.
  intros HF HM. unfold verify_source_artifact, drop_stale_sidecar, still_stale, mark_dirty, mark_commit,
    put_marker. walk.
Qed.
#[local] Hint Resolve touch_verify_artifact : footprint.

Lemma touch_verify_record src pkg f r source :
  F src (sidecar_key (artifact_key pkg f)) -> (forall n s, F src (marker_key pkg n s)) ->
  touching (verify_source_record src pkg f r source).
Proof. intros HF HM. unfold verify_source_record. walk. Qed.

Lemma touch_install n b key artifact sc : F b key -> touching (install_loop n b key artifact sc).
Proof. intros HF. induction n as [|n IH]; cbn [install_loop]; walk. Qed.

Lemma touch_install_sidecar b key sc : F b key -> touching (install_or_verify_sidecar b key sc).
Proof. intros HF. unfold install_or_verify_sidecar. walk. by apply touch_install. Qed.

Lemma touch_install_mirror b key sc : F b key -> touching (install_or_verify_mirror_sidecar b key sc).
Proof.
  intros HF. unfold install_or_verify_mirror_sidecar. walk.
  induction ORIGIN_ATTEMPTS as [|n IH]; cbn [install_mirror_loop]; walk.
Qed.

Lemma touch_replace_companion b key bytes replace : F b key -> touching (replace_companion b key bytes replace).
Proof.
  intros HF. unfold replace_companion. walk.
  induction ORIGIN_ATTEMPTS as [|n IH]; cbn [replace_loop]; walk.
Qed.

Lemma touch_put_companions changed b akey c :
  F b (metadata_key akey) -> F b (provenance_key akey) -> touching (put_companions changed b akey c).
Proof. intros HM HP. unfold put_companions, put_companion, or_changed. walk. Qed.

Lemma touch_copy_missing src dst pkg f r r' :
  F dst (metadata_key (artifact_key pkg f)) -> F dst (provenance_key (artifact_key pkg f)) ->
  touching (copy_missing_companions src dst pkg f r r').
Proof. intros HM HP. unfold copy_missing_companions, copy_missing_object, or_changed. walk. Qed.

End footprints.

End Footprint.
