(* ===== verification/Preserve.v ===== *)
(** * No replication step loses bytes

    The executor replaces and removes bodies that are live on some bucket. Along
    every interleaving of executors, audits and uploads, a body that stood under
    its key still stands there, or a copy of exactly its bytes stands in
    quarantine, or a tombstone records the delete. *)
From stdpp Require Import functions.
From S2P Require Import Prelude RustStr Documents Hash Decide Storage Origin Markers Replicate Artifact Execute Footprint.
Import Storage.

Module Preserve.
Import Sidecar Decide Origin Hash Markers Replicate Artifact Execute Footprint.

(** ** The promise *)

(** A key that is neither a quarantine copy, nor a body, nor a tombstone. *)
Definition ordinary (k : str) : Prop :=
  starts_with QUARANTINE_PREFIX k = false
  /\ forall pkg f, valid_names pkg f ->
     k ≠ artifact_key pkg f /\ k ≠ tombstone_key (artifact_key pkg f).

(** Writes that may destroy what stood under a key. *)
Definition overwrites {R} (o : op R) (k : str) : Prop :=
  match o with
  | PutBytes k' _ => k' = k
  | PutIfMatch k' _ _ => k' = k
  | DeleteKeys keys => k ∈ keys
  | _ => False
  end.

Definition plain (b : nat) (R : Type) (o : op R) : Prop := forall k, overwrites o k -> ordinary k.

Create HintDb preserve.

Ltac suffix_side := apply (bool_decide_unpack _); vm_compute; exact I.
Ltac suffix_in := suffix_side.

Section preserve.
Context {D : Digest} {T : Chunking} `{ClaimCodec} {JS : Codec Sidecar} {JF : Codec FilenameBody}
  {V : CopyVerb} {E : Etags}.

Definition quarantined (pkg f bytes : str) (s : store) : Prop :=
  contents s (quarantine_key pkg f (sha256_hex bytes)) = Some bytes.

Definition preserves (w w' : world) : Prop :=
  forall b,
  (forall k x, starts_with QUARANTINE_PREFIX k = true -> contents (w b) k = Some x -> contents (w' b) k = Some x)
  /\ forall pkg f, valid_names pkg f ->
     (tombstone_at pkg f (w b) -> tombstone_at pkg f (w' b))
     /\ forall bytes, contents (w b) (artifact_key pkg f) = Some bytes ->
        contents (w' b) (artifact_key pkg f) = Some bytes
        \/ quarantined pkg f bytes (w' b) \/ tombstone_at pkg f (w' b).

Lemma quarantine_prefix pkg f sha : starts_with QUARANTINE_PREFIX (quarantine_key pkg f sha) = true.
Proof. done. Qed.

#[global] Instance preserves_preorder : PreOrder preserves.
Proof.
  split.
  - intros w b. split; [done|]. intros pkg f _. split; [done|]. by left.
  - intros w1 w2 w3 H12 H23 b. destruct (H12 b) as [Q12 B12], (H23 b) as [Q23 B23].
    split; [eauto|]. intros pkg f Hv. destruct (B12 pkg f Hv) as [T12 C12], (B23 pkg f Hv) as [T23 C23].
    split; [eauto|]. intros bytes Hb. destruct (C12 _ Hb) as [Hb2|[Hq|Ht]]; [by apply C23| |].
    + right. left. by eapply Q23.
    + right. right. by apply T23.
Qed.

(** A conditional replacement of a body that is in quarantine. *)
Definition replaces_safely {R} (o : op R) (pkg f : str) (s : store) : Prop :=
  match o with
  | PutIfMatch _ etag _ => exists was, attests etag was /\ quarantined pkg f was s
  | _ => False
  end.

(** What one operation must respect. *)
Definition safe_op {R} (o : op R) (s : store) : Prop :=
  (forall k, overwrites o k -> starts_with QUARANTINE_PREFIX k = false)
  /\ forall pkg f, valid_names pkg f ->
     ~ overwrites o (tombstone_key (artifact_key pkg f))
     /\ (overwrites o (artifact_key pkg f) -> tombstone_at pkg f s \/ replaces_safely o pkg f s).

Lemma op_step_untouched R (o : op R) s r s' k x :
  wf_store s -> op_step o s r s' -> ~ overwrites o k -> contents s k = Some x -> contents s' k = Some x.
Proof.
  intros Hs Hstep Ho Hx. destruct (op_step_effect _ _ _ _ _ k Hs Hstep) as [->|He]; [done|].
  destruct o; simpl in *; naive_solver.
Qed.

Lemma preserve_step (w : world) b R (o : op R) r s :
  wf_world w -> op_step o (w b) r s -> safe_op o (w b) -> preserves w (<[b := s]> w).
Proof.
  intros Hw Hstep [Hq Hsafe] c. destruct (decide (b = c)) as [<-|Hne];
    [rewrite fn_lookup_insert | rewrite fn_lookup_insert_ne by done; split; [done|]; intros pkg f _;
                                split; [done|]; by left].
  assert (forall k x, ~ overwrites o k -> contents (w b) k = Some x -> contents s k = Some x) as Hkeep
    by (intros k x; by eapply op_step_untouched).
  split; [intros k x Hk; apply Hkeep; intros Ho; by rewrite (Hq k Ho) in Hk|].
  intros pkg f Hv. destruct (Hsafe pkg f Hv) as [Ht Hb].
  assert (tombstone_at pkg f (w b) -> tombstone_at pkg f s) as Htomb.
  { intros [x Hx]. exists x. by apply Hkeep. }
  split; [done|]. intros bytes Hbytes.
  destruct (op_step_effect _ _ _ _ _ (artifact_key pkg f) (Hw b) Hstep) as [->|He]; [by left|].
  destruct o as [| |k' ?|k' ?| |k' ?|k' etag new|keys| | | | | | | | | |]; simpl in He; try done.
  - destruct He as [-> _]. destruct Hb as [?|[]]; [done|]. right. right. by apply Htomb.
  - destruct He as (_ & He & _). by rewrite Hbytes in He.
  - destruct He as (_ & He & _). by rewrite Hbytes in He.
  - destruct He as (-> & (was & Hwas & Hatt) & _). rewrite Hbytes in Hwas. injection Hwas as <-.
    right. destruct Hb as [Htb|(was & Hatt' & Hwas)]; [done|by right; apply Htomb|left].
    rewrite (attests_inj _ _ _ Hatt Hatt'). unfold quarantined. apply Hkeep; [|done].
    intros Ho. by apply Hq in Ho.
  - destruct He as [Hin _]. destruct Hb as [?|[]]; [done|]. right. right. by apply Htomb.
Qed.

Lemma plain_safe b R (o : op R) s : plain b R o -> safe_op o s.
Proof.
  intros Hp. split; [intros k Hk; by apply Hp|]. intros pkg f Hv. split.
  - intros Ho. destruct (Hp _ Ho) as [_ Hk]. by destruct (Hk pkg f Hv).
  - intros Ho. destruct (Hp _ Ho) as [_ Hk]. by destruct (Hk pkg f Hv).
Qed.

Lemma touches_plain b R (o : op R) : touches (fun _ => ordinary) b R o -> plain b R o.
Proof. intros Ht k Hk. apply Ht. by destruct o. Qed.

Lemma guar_plain A (p : prog A) :
  guar (touches (fun _ => ordinary)) (fun _ => True) p -> guar plain (fun _ => True) p.
Proof. apply guar_weaken. intros b R o. apply touches_plain. Qed.

(** ** Ordinary keys *)

Lemma ordinary_companion pkg f s :
  valid_names pkg f -> s ∈ companion_suffixes -> s ≠ TOMBSTONE_SUFFIX ->
  ordinary (companion_key (artifact_key pkg f) s).
Proof.
  intros Hv Hs Hne. split; [done|]. intros pkg' f' Hv'. split.
  - rewrite <- (app_nil_r (artifact_key pkg' f')). intros Heq.
    apply (key_inj _ _ _ _ _ []) in Heq as (_ & _ & ->); [|done|done|by right|by left].
    by apply (bool_decide_pack _) in Hs.
  - intros Heq. apply key_inj in Heq as (_ & _ & ->); [done|done|done|by right|].
    apply (bool_decide_unpack _). by vm_compute.
Qed.

Lemma ordinary_marker pkg n s : ordinary (marker_key pkg n s).
Proof. split; [done|]. intros pkg' f' _. split; done. Qed.

Lemma ordinary_origin pkg : "/"%char ∉ pkg -> ordinary (origin_key pkg).
Proof.
  intros Hp. split; [done|]. intros pkg' f [Hp' Hf]. unfold origin_key.
  change (PACKAGES_PREFIX ++ pkg ++ &"/.origin") with (artifact_key pkg (&".origin")). split; intros Heq.
  - apply artifact_key_inj in Heq as [_ <-]; done.
  - unfold tombstone_key in Heq. rewrite companion_key_artifact in Heq.
    apply artifact_key_inj in Heq as [_ Heq]; [|done|done].
    apply (f_equal length) in Heq. rewrite length_app in Heq. simpl in Heq. lia.
Qed.

(** ** Programs that keep the promise *)

Abbreviation kept K p := (keeps preserves K (fun _ _ => True) p).
Abbreviation stable K := (Storage.stable preserves K).

Lemma always_stable : stable (fun _ => True).
Proof. by intros ????. Qed.

Lemma and_stable K K' : stable K -> stable K' -> stable (fun w => K w /\ K' w).
Proof. intros H1 H2 w w' [? ?] ?. split; eauto. Qed.

Lemma quarantined_stable b pkg f bytes : stable (fun w => quarantined pkg f bytes (w b)).
Proof. intros w w' Hq HR. destruct (HR b) as [HQ _]. by apply HQ. Qed.

Lemma tombstone_stable b pkg f : valid_names pkg f -> stable (fun w => tombstone_at pkg f (w b)).
Proof. intros Hv w w' Ht HR. destruct (HR b) as [_ HB]. by apply (HB pkg f Hv). Qed.

Lemma kept_plain A B K (p : prog A) (k : A -> prog B) :
  stable K -> guar plain (fun _ => True) p -> (forall a, kept K (k a)) -> kept K (pbind p k).
Proof.
  intros HK Hp Hk. apply keeps_bind; [|done].
  eapply keeps_mono; [|done|eapply (keeps_guar preserves _ plain); [|done|exact Hp]].
  - intros a K' _ -> _. apply Hk.
  - intros b R o w r s Hpl Hw Hs. eapply preserve_step; [done|done|]. by eapply (plain_safe b).
Qed.

Lemma kept_plain_ok A B K (p : prog (res A)) (k : A -> prog (res B)) :
  stable K -> guar plain (fun _ => True) p -> (forall a, kept K (k a)) -> kept K (pbind_ok p k).
Proof. intros HK Hp Hk. apply kept_plain; [done|done|]. by intros []. Qed.

Lemma kept_last A K (p : prog A) : stable K -> guar plain (fun _ => True) p -> kept K p.
Proof.
  intros HK Hp. eapply keeps_mono; [|done|eapply (keeps_guar preserves _ plain); [|done|exact Hp]]; [done|].
  intros b R o w r s Hpl Hw Hs. eapply preserve_step; [done|done|]. by eapply (plain_safe b).
Qed.

(** Composition when the rest needs no knowledge. *)
Lemma saved_seq A B K (p : prog A) (f : A -> prog B) :
  stable K -> kept K p -> (forall a K', stable K' -> kept K' (f a)) -> kept K (pbind p f).
Proof.
  intros HK Hp Hf. apply keeps_bind; [|done]. eapply keeps_mono; [|done|exact Hp]. auto.
Qed.

Lemma kept_seq_ok A B K (p : prog (res A)) (f : A -> prog (res B)) :
  stable K -> kept K p -> (forall a K', stable K' -> kept K' (f a)) -> kept K (pbind_ok p f).
Proof. intros HK Hp Hf. apply saved_seq; [done|done|]. intros [a|e] K' HK'; [by apply Hf|done]. Qed.

(** A read whose answer is a token for what was read. *)
Lemma kept_get_with_etag A b key K (k : option (str * str) -> prog (res A)) :
  stable K ->
  kept K (k None) -> (forall bytes etag, attests etag bytes -> kept K (k (Some (bytes, etag)))) ->
  kept K (pbind_ok (call b (GetWithEtag key)) k).
Proof.
  intros HK Hn Hs w r s Hw HKw Hstep. pose proof (op_step_sound _ _ _ _ _ (Hw b) Hstep) as Ha.
  pose proof (op_step_read _ _ _ _ _ (eq_refl : is_read (GetWithEtag _) = true) Hstep) as ->.
  rewrite fn_insert_id. split; [reflexivity|]. exists K. split; [done|]. split; [done|].
  destruct r as [[[bytes etag]|]|e]; [|done|done]. by apply Hs, Ha.
Qed.

(** Creating a copy overwrites nothing, and its success is known for good. *)
Lemma kept_quarantine_bytes A b pkg f bytes K (k : str -> prog (res A)) :
  stable K -> (forall sha, kept (fun w => K w /\ quarantined pkg f bytes (w b)) (k sha)) ->
  kept K (pbind_ok (quarantine_bytes b pkg f bytes) k).
Proof.
  intros HK Hk. pose proof (and_stable _ _ HK (quarantined_stable b pkg f bytes)) as HK2.
  intros w r s Hw HKw Hstep.
  assert (preserves w (<[b := s]> w)) as HR.
  { eapply preserve_step; [done|done|]. by eapply (plain_safe b). }
  split; [done|]. destruct r as [[]|e].
  - exists (fun w => K w /\ quarantined pkg f bytes (w b)). split; [done|]. split; [|apply Hk].
    split; [by eapply HK|]. rewrite fn_lookup_insert. by eapply put_if_absent_created.
  - exists K. split; [done|]. split; [by eapply HK|]. intros w1 r1 s1 Hw1 HKw1 Hs1.
    pose proof (op_step_read _ _ _ _ _ (eq_refl : is_read (GetBytes _) = true) Hs1) as ->.
    rewrite fn_insert_id. split; [reflexivity|]. destruct r1 as [existing|e]; [|by exists K].
    pose proof (get_bytes_answer _ _ _ _ _ Hs1 eq_refl) as Hq.
    unfold pbind_ok. rewrite !pbind_ret. destruct (decide (existing = bytes)) as [->|]; [|by exists K].
    exists (fun w => K w /\ quarantined pkg f bytes (w b)). split; [done|]. by split; [|apply Hk].
  - exists K. split; [done|]. by split; [by eapply HK|].
Qed.

(** Replacing a body whose bytes are in quarantine. *)
Lemma kept_replace A b pkg f etag was bytes K (k : option str -> prog (res A)) :
  valid_names pkg f -> stable K -> attests etag was ->
  (forall w, K w -> quarantined pkg f was (w b)) -> (forall o, kept K (k o)) ->
  kept K (pbind_ok (call b (PutIfMatch (artifact_key pkg f) etag bytes)) k).
Proof.
  intros Hv HK Hatt HQ Hk w r s Hw HKw Hstep.
  assert (preserves w (<[b := s]> w)) as HR.
  { eapply preserve_step; [done|done|]. split; [by intros k' <-|]. intros pkg' f' Hv'. split.
    - intros Heq. rewrite <- (app_nil_r (artifact_key pkg f)) in Heq.
      apply (key_inj _ _ []) in Heq as (_ & _ & Heq); [done|done|done|by left|].
      apply (bool_decide_unpack _). by vm_compute.
    - intros Heq. apply (artifact_key_inj _ _ _ _ (proj1 Hv) (proj1 Hv')) in Heq as [<- <-].
      right. exists was. split; [done|]. by apply HQ. }
  split; [done|]. exists K. split; [done|]. split; [by eapply HK|]. destruct r; [apply Hk | done].
Qed.

(** ** The executor's programs *)

Lemma plain_read b R (o : op R) : is_read o = true -> plain b R o.
Proof. intros Hr k Hk. by destruct o. Qed.

Section record.
Variables (pkg f : str).
Hypothesis names : valid_names pkg f.

Lemma names_pkg : "/"%char ∉ pkg.
Proof. apply names. Qed.

Ltac plainly lem := apply guar_plain; apply lem;
  first [intros ? ?; apply ordinary_marker
        | apply ordinary_origin, names_pkg
        | apply ordinary_companion; [exact names | apply (bool_decide_unpack _); by vm_compute | done]].

Lemma plain_dirty b : guar plain (fun _ => True) (mark_dirty b pkg).
Proof. plainly touch_mark_dirty. Qed.
Lemma plain_commit b n : guar plain (fun _ => True) (mark_commit b pkg n).
Proof. plainly touch_mark_commit. Qed.
Lemma plain_intent b : guar plain (fun _ => True) (mark_intent b pkg).
Proof. plainly touch_mark_intent. Qed.
Lemma plain_ensure_private b : guar plain (fun _ => True) (ensure_private_origin b pkg).
Proof. plainly touch_ensure_private. Qed.
Lemma plain_ensure_mirror b : guar plain (fun _ => True) (ensure_mirror_origin b pkg).
Proof. plainly touch_ensure_mirror. Qed.
Lemma plain_clear_fence b r : guar plain (fun _ => True) (clear_spent_demotion_fence b pkg f r).
Proof. plainly touch_clear_fence. Qed.
Lemma plain_verify_artifact src r source : guar plain (fun _ => True) (verify_source_artifact src pkg f r source).
Proof. plainly touch_verify_artifact. Qed.
Lemma plain_verify_record src r source : guar plain (fun _ => True) (verify_source_record src pkg f r source).
Proof. plainly touch_verify_record. Qed.
Lemma plain_install b sc :
  guar plain (fun _ => True) (install_or_verify_sidecar b (sidecar_key (artifact_key pkg f)) sc).
Proof. plainly touch_install_sidecar. Qed.
Lemma plain_install_mirror b sc :
  guar plain (fun _ => True) (install_or_verify_mirror_sidecar b (sidecar_key (artifact_key pkg f)) sc).
Proof. plainly touch_install_mirror. Qed.
Lemma plain_put_companions c b x :
  guar plain (fun _ => True) (put_companions c b (artifact_key pkg f) x).
Proof. plainly touch_put_companions. Qed.
Lemma plain_copy_missing a b r r' : guar plain (fun _ => True) (copy_missing_companions a b pkg f r r').
Proof. plainly touch_copy_missing. Qed.
Lemma plain_replace_metadata b x y :
  guar plain (fun _ => True) (replace_companion b (metadata_key (artifact_key pkg f)) x y).
Proof. plainly touch_replace_companion. Qed.
Lemma plain_replace_provenance b x y :
  guar plain (fun _ => True) (replace_companion b (provenance_key (artifact_key pkg f)) x y).
Proof. plainly touch_replace_companion. Qed.

#[local] Hint Resolve plain_dirty plain_commit plain_intent plain_ensure_private plain_ensure_mirror
  plain_clear_fence plain_verify_artifact plain_verify_record plain_install plain_install_mirror
  plain_put_companions plain_copy_missing plain_replace_metadata plain_replace_provenance : preserve.

(** One plain operation. *)
Lemma plain_call b R (o : op R) : plain b R o -> guar plain (fun _ => True) (call b o).
Proof. intros Ho. by apply guar_call. Qed.

Lemma plain_delete b suffixes :
  Forall (fun s => s ∈ companion_suffixes /\ s ≠ TOMBSTONE_SUFFIX) suffixes ->
  plain b _ (DeleteKeys (companion_key (artifact_key pkg f) <$> suffixes)).
Proof.
  intros Hall k (s & -> & Hs)%list_elem_of_fmap. rewrite Forall_forall in Hall.
  destruct (Hall s Hs). by apply ordinary_companion.
Qed.

(** The removals: behind the tombstone. *)
Lemma saved_tombstone_write A b K (k : unit -> prog (res A)) :
  stable K -> kept (fun w => K w /\ tombstone_at pkg f (w b)) (k tt) ->
  kept K (pbind_ok (tombstone_write b (artifact_key pkg f) f) k).
Proof.
  intros HK Hk w r s Hw HKw Hstep.
  assert (preserves w (<[b := s]> w)) as HR.
  { eapply preserve_step; [done|done|]. by eapply (plain_safe b). }
  split; [done|]. destruct r as [c|e].
  - exists (fun w => K w /\ tombstone_at pkg f (w b)).
    split; [apply and_stable; [done|by apply tombstone_stable]|]. split; [|exact Hk].
    split; [by eapply HK|]. rewrite fn_lookup_insert. by eapply put_if_absent_present.
  - exists K. split; [done|]. by split; [eapply HK|].
Qed.

Lemma saved_drop A b K (k : unit -> prog (res A)) :
  stable K -> (forall w, K w -> tombstone_at pkg f (w b)) -> kept K (k tt) ->
  kept K (pbind_ok (drop_record_objects b pkg f) k).
Proof.
  intros HK Ht Hk w r s Hw HKw Hstep.
  assert (preserves w (<[b := s]> w)) as HR.
  { eapply preserve_step; [done|done|]. rewrite drop_keys_suffixes. split.
    - by intros k' (t & -> & _)%list_elem_of_fmap.
    - intros pkg' f' Hv'. split.
      + intros Hin. apply (not_in_by_suffix pkg f) in Hin as (_ & _ & Hin); [|done|done|suffix_in|suffix_side].
        by apply (bool_decide_pack _) in Hin.
      + intros Hin. left. cbn [overwrites] in Hin. rewrite <- (app_nil_r (artifact_key pkg' f')) in Hin.
        apply (not_in_by_suffix pkg f pkg' f' []) in Hin as (<- & <- & _);
          [by apply Ht|done|done|by left|suffix_side]. }
  split; [done|]. exists K. split; [done|]. split; [by eapply HK|]. destruct r as [[]|]; [exact Hk|done].
Qed.

Lemma kept_remove A b K (c : A) :
  stable K -> kept K (let*? _ := tombstone_write b (artifact_key pkg f) f in
                      let*? _ := drop_record_objects b pkg f in Ret (Ok c)).
Proof.
  intros HK. apply saved_tombstone_write; [done|]. apply saved_drop; [|by intros w []|done].
  apply and_stable; [done|by apply tombstone_stable].
Qed.

Lemma kept_read_ok A B b (o : op (res A)) K (k : A -> prog (res B)) :
  is_read o = true -> stable K -> (forall a, kept K (k a)) -> kept K (pbind_ok (call b o) k).
Proof. intros Hr HK Hk. by apply (keeps_read_ok preserves). Qed.

Lemma saved_tombstone_side b K : stable K -> kept K (tombstone_side b pkg f).
Proof.
  intros HK. unfold tombstone_side. cbv zeta.
  apply kept_read_ok; [done|done|]. intros already. apply kept_read_ok; [done|done|]. intros had_body.
  case_match; [|by apply kept_remove].
  do 4 (apply kept_read_ok; [done|done|]; intros ?). case_match; [done|].
  change [_; _; _; _] with (companion_key (artifact_key pkg f) <$>
    [SIDECAR_SUFFIX; METADATA_SUFFIX; PROVENANCE_SUFFIX; MIRROR_QUARANTINED_SUFFIX]).
  apply kept_plain_ok; [done|apply plain_call, plain_delete; suffix_side|done].
Qed.

Lemma plain_quarantine b : guar plain (fun _ => True) (quarantine b pkg f).
Proof.
  unfold quarantine, quarantine_bytes. walk; by intros k [].
Qed.

Lemma saved_freeze_side b K : stable K -> kept K (freeze_side b pkg f).
Proof.
  intros HK. unfold freeze_side, write_frozen_marker. cbv zeta.
  apply kept_plain_ok; [done|by apply plain_call; intros k []|]. intros created.
  apply kept_plain_ok; [done|apply plain_quarantine|]. intros _. by apply kept_remove.
Qed.

Lemma kept_freeze_race src dst K : stable K -> kept K (freeze_copy_race src dst pkg f).
Proof.
  intros HK. unfold freeze_copy_race. apply kept_plain_ok; [done|auto with preserve|]. intros n.
  apply saved_seq; [done| |intros r K' HK'; apply kept_plain; [done|auto with preserve|done]].
  apply kept_seq_ok; [done|by apply saved_freeze_side|]. intros _ K1 HK1.
  apply kept_seq_ok; [done|by apply saved_freeze_side|]. intros _ K2 HK2.
  apply kept_last; [done|auto with preserve].
Qed.

(** A body read back, preserved, and only then replaced. *)
Lemma kept_swap A b etag was a K (k : option str -> prog (res A)) :
  stable K -> attests etag was -> (forall K' o, stable K' -> kept K' (k o)) ->
  kept K (let*? _ := quarantine_bytes b pkg f was in
          let*? bytes := staged_read_all b a in
          pbind_ok (call b (PutIfMatch (artifact_key pkg f) etag bytes)) k).
Proof.
  intros HK Hatt Hk. pose proof (and_stable _ _ HK (quarantined_stable b pkg f was)) as HK2.
  apply kept_quarantine_bytes; [done|]. intros _.
  apply kept_plain_ok; [done|apply guar_plain, touch_staged_read|]. intros bytes.
  eapply kept_replace; [done|done|done|by intros w []|]. intros o. by apply Hk.
Qed.

Lemma plain_size b key n : guar plain (fun _ => True) (verify_stored_size b key n).
Proof. unfold verify_stored_size, check_stored_size. walk; by intros k []. Qed.

Lemma plain_create b key body n : guar plain (fun _ => True) (create_artifact_verified b key body n).
Proof.
  unfold create_artifact_verified. walk. apply plain_size.
Qed.

Lemma plain_says b key ask : guar plain (fun _ => True) (sidecar_says b key ask).
Proof. apply guar_plain, touch_says. Qed.

Lemma kept_repair_debris dst sc a K : stable K -> kept K (repair_debris dst pkg f sc a).
Proof.
  intros HK. unfold repair_debris. cbv zeta. apply kept_get_with_etag; [done|done|].
  intros current etag Hatt. case_decide; [done|].
  apply kept_plain_ok; [done|apply plain_says|]. intros ours. case_match; [done|].
  apply kept_swap; [done|done|]. intros K' [new|] HK'; [|done].
  apply kept_plain_ok; [done|apply plain_size|done].
Qed.

Lemma kept_artifact_leg src dst sc a published K :
  stable K -> kept K (artifact_leg src dst pkg f sc a published).
Proof.
  intros HK. unfold artifact_leg. cbv zeta. apply kept_seq_ok; [done|by apply kept_repair_debris|].
  intros changed K1 HK1. apply kept_plain_ok; [done|apply plain_create|]. intros []; [done|].
  apply kept_read_ok; [done|done|]. intros raced. case_decide; [done|].
  apply kept_plain_ok; [done|destruct published; [done|apply plain_says]|]. intros []; [done|].
  apply kept_seq_ok; [done|by apply kept_freeze_race|]. done.
Qed.

Lemma plain_copy_truth dst sc c changed m n :
  guar plain (fun _ => True) (copy_truth dst (artifact_key pkg f) sc c changed m n).
Proof.
  unfold copy_truth, or_changed. walk; try (by intros k []); auto with preserve.
Qed.

Lemma kept_copy_streamed src dst sc m c a K : stable K -> kept K (copy_streamed src dst pkg f sc m c a).
Proof.
  intros HK. unfold copy_streamed. apply kept_seq_ok; [done|by apply kept_artifact_leg|].
  intros [changed|] K1 HK1; [|done]. apply kept_last; [done|apply plain_copy_truth].
Qed.

Lemma plain_unfenced b : guar plain (fun _ => True) (require_replication_unfenced b).
Proof. unfold require_replication_unfenced. walk; by intros k []. Qed.

Lemma plain_companions src r : guar plain (fun _ => True) (read_source_companions src (artifact_key pkg f) r).
Proof. apply guar_plain, touch_companions. Qed.

Lemma plain_claim_destination dst m : guar plain (fun _ => True) (claim_destination dst pkg m).
Proof.
  unfold claim_destination. destruct m; [|auto with preserve].
  eapply (guar_bind_ok _ _ _ (fun _ => True)); [auto with preserve|by intros []|done].
Qed.

(** The stream transport; the provider's copy verb overwrites blindly. *)
Lemma kept_copy_live src dst r source K :
  copy_allowed dst src = false -> stable K -> kept K (copy_live src dst pkg f r source).
Proof.
  intros Hc HK. unfold copy_live. cbv zeta. rewrite Hc. apply kept_plain_ok; [done|done|]. intros sc.
  apply kept_plain_ok; [done|apply plain_companions|]. intros c.
  apply kept_plain_ok; [done|auto with preserve|]. intros a.
  apply kept_plain_ok; [done| |intros _; by apply kept_copy_streamed].
  eapply (guar_bind_ok _ _ _ (fun _ => True)); [apply plain_unfenced|intros ? _; apply plain_claim_destination|done].
Qed.

(** ** Superseding *)

Lemma kept_supersede_body src dst sc a K : stable K -> kept K (supersede_body src dst pkg f sc a).
Proof.
  intros HK. unfold supersede_body. cbv zeta. apply kept_get_with_etag; [done| |].
  - unfold supersede_create. cbv zeta. apply kept_plain_ok; [done|apply plain_create|]. intros []; [done|].
    apply kept_read_ok; [done|done|]. intros raced. case_decide; [done|].
    apply kept_seq_ok; [done|by apply kept_freeze_race|]. intros _ K1 HK1.
    apply kept_plain_ok; [done| |done]. apply plain_call, (plain_delete dst [SUPERSEDING_SUFFIX]). suffix_side.
  - intros current etag Hatt. case_decide; [done|]. apply kept_swap; [done|done|].
    intros K' [new|] HK'; [|done]. apply kept_plain_ok; [done|apply plain_size|done].
Qed.

Lemma kept_freeze_incoming A dst a K (k : unit -> prog (res A)) :
  stable K -> (forall K', stable K' -> kept K' (k tt)) ->
  kept K (let*? bytes := staged_read_all dst a in
          let*? _ := quarantine_bytes dst pkg f bytes in
          let*? _ := freeze_side dst pkg f in k tt).
Proof.
  intros HK Hk. apply kept_plain_ok; [done|apply guar_plain, touch_staged_read|]. intros bytes.
  apply kept_quarantine_bytes; [done|]. intros _.
  apply kept_seq_ok; [by apply and_stable; [|apply quarantined_stable]| |by intros _].
  by apply saved_freeze_side, and_stable; [|apply quarantined_stable].
Qed.

Lemma kept_reassert dst a K : stable K -> kept K (reassert_precedence dst pkg f a).
Proof.
  intros HK. unfold reassert_precedence. cbv zeta. apply kept_read_ok; [done|done|]. intros [].
  { by apply (kept_freeze_incoming unit dst a K (fun _ => Ret (Ok tt))). }
  apply kept_read_ok; [done|done|]. intros [].
  { apply kept_seq_ok; [done|by apply saved_tombstone_side|done]. }
  apply kept_last; [done|]. apply plain_call, (plain_delete dst [MIRROR_QUARANTINED_SUFFIX]). suffix_side.
Qed.

Lemma kept_supersede_publish src dst sc v K : stable K -> kept K (supersede_publish src dst pkg f sc v).
Proof.
  intros HK. unfold supersede_publish. cbv zeta.
  apply kept_plain_ok; [done|unfold replaces_companions; walk; by intros k []|]. intros replace.
  apply kept_plain_ok; [done| |intros _].
  { apply plain_call. intros k <-. apply ordinary_companion; [done|suffix_in|done]. }
  apply kept_seq_ok; [done|by apply kept_supersede_body|]. intros [] K1 HK1; cbn [negb]; [|done].
  apply kept_plain_ok; [done|auto with preserve|]. intros _.
  apply kept_plain_ok; [done| |intros _].
  { apply plain_call, (plain_delete dst [SUPERSEDING_SUFFIX]). suffix_side. }
  apply kept_plain_ok; [done|auto with preserve|]. intros _.
  apply kept_plain_ok; [done|auto with preserve|]. intros _.
  apply kept_seq_ok; [done|by apply kept_reassert|]. intros _ K2 HK2.
  apply kept_last; [done|auto with preserve].
Qed.

Lemma kept_supersede src dst r source K : stable K -> kept K (supersede_record src dst pkg f r source).
Proof.
  intros HK. unfold supersede_record. cbv zeta.
  apply kept_plain_ok; [done|apply plain_unfenced|]. intros _. apply kept_plain_ok; [done|done|]. intros sc.
  case_decide; [|done]. apply kept_plain_ok; [done|auto with preserve|]. intros v.
  apply kept_plain_ok; [done|auto with preserve|]. intros _.
  apply kept_read_ok; [done|done|]. intros [].
  { apply (kept_freeze_incoming unit dst (v_artifact v) K (fun _ => mark_dirty dst pkg)); [done|].
    intros K' HK'. apply kept_last; [done|auto with preserve]. }
  apply kept_read_ok; [done|done|]. intros []; [|by apply kept_supersede_publish].
  apply kept_seq_ok; [done|by apply saved_tombstone_side|]. intros [] K1 HK1; [|done].
  apply kept_last; [done|auto with preserve].
Qed.

(** ** Executing a verdict *)

Lemma plain_mark_if c b : guar plain (fun _ => True) (mark_dirty_if c b pkg).
Proof. unfold mark_dirty_if. destruct c; [auto with preserve|done]. Qed.
#[local] Hint Resolve plain_mark_if : preserve.

Lemma plain_mark_both c a b : guar plain (fun _ => True) (mark_both c a b pkg).
Proof.
  unfold mark_both. eapply (guar_bind_ok _ _ _ (fun _ => True)); [|intros ? _|done]; auto with preserve.
Qed.
#[local] Hint Resolve plain_mark_both : preserve.

Lemma plain_repair a b ra rb : guar plain (fun _ => True) (repair_same_sha_companions a b pkg f ra rb).
Proof.
  unfold repair_same_sha_companions. repeat case_match; try done;
    repeat (eapply (guar_bind_ok _ _ _ (fun _ => True)); [auto with preserve|intros ? _|done]); done.
Qed.
#[local] Hint Resolve plain_repair : preserve.

Lemma plain_adopt n a b : guar plain (fun _ => True) (adopt_loop n a b pkg f).
Proof.
  assert (ordinary (sidecar_key (artifact_key pkg f))) as Ho
    by (apply ordinary_companion; [done|suffix_in|done]).
  apply guar_plain. induction n as [|n IH]; cbn [adopt_loop]; [done|].
  unfold read_pkg_origin, read_origin_observation. walk.
Qed.

Lemma kept_freeze_both a b K : stable K -> kept K (freeze_both a b pkg f).
Proof.
  intros HK. unfold freeze_both. apply kept_seq_ok; [done|by apply saved_freeze_side|]. intros _ K1 HK1.
  apply kept_seq_ok; [done|by apply saved_freeze_side|]. intros _ K2 HK2.
  apply kept_last; [done|auto with preserve].
Qed.

(** Streamed copies only, and no settling of a demotion (whose unconditional
    delete may race a publisher; see [settle_preserves]). *)
Definition streams (a b : nat) : Prop := copy_allowed a b = false /\ copy_allowed b a = false.

Lemma kept_verdict a b ra rb source verdict K :
  streams a b -> verdict ≠ SettleMirrorQuarantine -> stable K ->
  kept K (execute_verdict a b pkg f ra rb source verdict).
Proof.
  intros [Hab Hba] Hv HK.
  assert (forall side, let '(src, dst, _) := pick a b ra rb side in copy_allowed dst src = false) as Hpick
    by by intros [].
  destruct verdict as [| |side|side|side|side| | |side| |]; cbn [execute_verdict]; try done.
  - apply kept_last; [done|]. eapply (guar_bind_ok _ _ _ (fun _ => True)); [|intros ? _|done]; auto with preserve.
  - specialize (Hpick side). destruct (pick a b ra rb side) as [[src dst] r].
    apply kept_seq_ok; [done|by apply kept_copy_live|]. intros c K1 HK1. apply kept_last; [done|auto with preserve].
  - apply kept_plain_ok; [done|apply plain_adopt|]. intros adopted. apply kept_last; [done|].
    eapply (guar_bind_ok _ _ _ (fun _ => True)); [|intros ? _|done]; auto with preserve.
  - destruct (pick a b ra rb side) as [[src dst] r]. by apply kept_supersede.
  - destruct (pick a b ra rb side) as [[src dst] r]. by apply kept_supersede.
  - by apply kept_freeze_both.
  - apply kept_seq_ok; [done|by apply saved_tombstone_side|]. intros c K1 HK1.
    apply kept_plain_ok; [done|auto with preserve|]. intros _.
    apply kept_seq_ok; [done|by apply saved_tombstone_side|]. intros c' K2 HK2.
    apply kept_last; [done|auto with preserve].
  - apply kept_seq_ok; [done|by apply saved_freeze_side|]. intros _ K1 HK1. apply kept_last; [done|auto with preserve].
  - by apply kept_freeze_both.
Qed.

Lemma plain_intent_if c b : guar plain (fun _ => True) (mark_intent_if c b pkg).
Proof.
  unfold mark_intent_if. destruct c; [|done].
  eapply (guar_bind_ok _ _ _ (fun _ => True)); [auto with preserve|done|done].
Qed.

Lemma plain_commit_if i b : guar plain (fun _ => True) (commit_if i b pkg).
Proof.
  unfold commit_if. destruct i; [|done]. eapply (guar_bind _ _ _ (fun _ => True)); [auto with preserve|done].
Qed.

Lemma kept_execute a b ra rb source verdict :
  streams a b -> verdict ≠ SettleMirrorQuarantine ->
  kept (fun _ => True) (execute a b pkg f ra rb source verdict).
Proof.
  intros Hs Hv. pose proof always_stable as HK. unfold execute. apply kept_plain_ok; [done|apply plain_unfenced|].
  intros _. destruct (brackets verdict) as [ba bb].
  apply kept_plain_ok; [done|apply plain_intent_if|]. intros ia.
  apply kept_plain; [done|apply plain_intent_if|]. intros [ib|e].
  - apply saved_seq; [done| |intros r K1 HK1; apply kept_plain; [done|apply plain_commit_if|]; intros _;
      apply kept_plain; [done|apply plain_commit_if|done]].
    unfold execute_body. apply kept_plain_ok; [done|auto with preserve|]. intros _.
    apply kept_plain_ok; [done|auto with preserve|]. intros _.
    apply kept_seq_ok; [done|by apply kept_verdict|done].
  - apply kept_plain; [done|apply plain_commit_if|done].
Qed.

End record.

(** ** The audit *)

Lemma saved_complete_one b pkg f K n :
  valid_names pkg f -> stable K -> kept K (complete_one b pkg n f).
Proof.
  intros Hv HK. unfold complete_one. cbv zeta. intros w r s Hw HKw Hstep.
  pose proof (op_step_read _ _ _ _ _ (eq_refl : is_read (HeadExists _) = true) Hstep) as ->.
  rewrite fn_insert_id. split; [reflexivity|]. destruct r as [[]|e]; [|by exists K|by exists K].
  pose proof (head_exists_present _ _ _ _ Hstep eq_refl) as Ht.
  exists (fun w => K w /\ tombstone_at pkg f (w b)).
  assert (stable (fun w => K w /\ tombstone_at pkg f (w b))) as HK' by (apply and_stable; [done|by apply tombstone_stable]).
  split; [done|]. split; [done|]. cbn [negb]. apply kept_read_ok; [done|done|]. intros []; [done|].
  intros w1 r1 s1 Hw1 [HKw1 Ht1] Hs1.
  assert (preserves w1 (<[b := s1]> w1)) as HR.
  { eapply preserve_step; [done|done|]. rewrite record_object_keys_suffixes. split.
    - by intros k' (t & -> & _)%list_elem_of_fmap.
    - intros pkg' f' Hv'. split; intros Hin.
      + apply (not_in_by_suffix pkg f) in Hin as (_ & _ & Hin); [|done|done|suffix_in|suffix_side].
        by apply (bool_decide_pack _) in Hin.
      + left. cbn [overwrites] in Hin. rewrite <- (app_nil_r (artifact_key pkg' f')) in Hin.
        apply (not_in_by_suffix pkg f pkg' f' []) in Hin as (<- & <- & _); [done|done|done|by left|suffix_side]. }
  split; [done|]. eexists. split; [exact HK'|]. split; [by eapply HK'|]. by destruct r1.
Qed.

Lemma kept_pfor {X S} (l : list X) (body : S -> X -> prog (res S)) (P : X -> Prop) :
  Forall P l -> (forall x st K, P x -> stable K -> kept K (body st x)) ->
  forall st K, stable K -> kept K (pfor l st body).
Proof.
  intros Hl Hb. induction Hl as [|x l Hx _ IH]; intros st K HK; [done|]. cbn [pfor].
  apply kept_seq_ok; [done|by apply Hb|]. intros st' K' HK'. by apply IH.
Qed.

Lemma guar_pfor {X S} (G : nat -> forall R, op R -> Prop) (l : list X) (body : S -> X -> prog (res S))
    (P : X -> Prop) (J : S -> Prop) st :
  Forall P l -> J st ->
  (forall x st, P x -> J st -> guar G (fun r => match r with Ok st => J st | Err _ => True end) (body st x)) ->
  guar G (fun r => match r with Ok st => J st | Err _ => True end) (pfor l st body).
Proof.
  intros Hl Hst Hb. revert st Hst. induction Hl as [|x l Hx _ IH]; intros st Hst; [done|]. cbn [pfor].
  eapply guar_bind_ok; [by apply Hb|apply IH|done].
Qed.

(** The entries the audit passes: supersede intents of the package. *)
Definition intent_entry (pkg : str) (e : FileEntry) : Prop :=
  exists f, valid_names pkg f /\ entry_key e = superseding_key (artifact_key pkg f).

Definition answered_ok (st : nat * list Answered) : Prop := Forall (fun a => ordinary (a_marker a)) st.2.

Lemma plain_finish_one b now grace pkg e st :
  intent_entry pkg e -> answered_ok st ->
  guar plain (fun r => match r with Ok st => answered_ok st | Err _ => True end) (finish_one b now grace st e).
Proof.
  intros (f & Hv & He) Hst. unfold finish_one. cbv zeta. rewrite He. unfold superseding_key at 1, companion_key at 1.
  rewrite strip_suffix_app.
  assert (forall A (p : prog (res A)) (k : A -> prog (res (nat * list Answered))),
    guar plain (fun _ => True) p ->
    (forall a, guar plain (fun r => match r with Ok st => answered_ok st | Err _ => True end) (k a)) ->
    guar plain (fun r => match r with Ok st => answered_ok st | Err _ => True end) (pbind_ok p k)) as Hseq.
  { intros A p k Hp Hk. eapply guar_bind_ok; [exact Hp|intros a _; apply Hk|done]. }
  apply Hseq; [apply guar_plain, touch_optional|]. intros [bytes|]; [|done].
  apply Hseq; [done|]. intros intended. do 2 (apply Hseq; [by apply plain_call, plain_read|intros ?]).
  apply Hseq.
  { case_match; [done|]. eapply (guar_bind _ _ _ (fun _ => True)); [apply guar_plain, touch_stream_sha256|done]. }
  intros sha. apply Hseq.
  { case_match; [|done]. eapply (guar_bind_ok _ _ _ (fun _ => True)); [by apply plain_install|done|done]. }
  intros finished. repeat case_match; try done. apply Forall_app. split; [done|].
  apply Forall_singleton. cbn [a_marker]. apply ordinary_companion; [done|suffix_in|done].
Qed.

Lemma plain_finish b pkg entries grace :
  Forall (intent_entry pkg) entries ->
  guar plain (fun _ => True) (finish_interrupted_supersedes b pkg entries grace).
Proof.
  intros He. unfold finish_interrupted_supersedes. apply guar_call_bind; [by apply plain_read|]. intros now _.
  eapply guar_bind_ok; [eapply (guar_pfor plain _ _ (intent_entry pkg) answered_ok); [done|constructor|]| |done].
  { intros e st Hi Hst. by eapply plain_finish_one. }
  intros [n answered] Hans. cbn [snd fst]. destruct answered as [|a l] eqn:Hl; [done|]. rewrite <- Hl in *.
  apply guar_call_ok; [by apply plain_read|intros relisted _|done].
  destruct (a_marker <$> List.filter (unchanged relisted) answered) as [|k ks] eqn:Hk; [done|].
  rewrite <- Hk. apply guar_call_ok; [|done|done]. intros k' (x & -> & Hx)%list_elem_of_fmap.
  apply list_elem_of_In, filter_In in Hx as [Hx _]. unfold answered_ok in Hans. rewrite Forall_forall in Hans.
  by apply Hans, list_elem_of_In.
Qed.

(** ** Settling a demotion *)

(** The body's key and its copy's: what a settle must never both lose. *)
Definition held_keys (pkg f bytes k : str) : Prop :=
  k = artifact_key pkg f \/ k = quarantine_key pkg f (sha256_hex bytes).

Lemma held_companion pkg f bytes s :
  valid_names pkg f -> s ∈ companion_suffixes -> ~ held_keys pkg f bytes (companion_key (artifact_key pkg f) s).
Proof.
  intros Hv Hs [Heq|Heq]; [|done]. rewrite <- (app_nil_r (artifact_key pkg f)) in Heq at 2.
  apply (key_inj _ _ _ _ _ []) in Heq as (_ & _ & ->); [|done|done|by right|by left].
  by apply (bool_decide_pack _) in Hs.
Qed.

Lemma guar_avoids F b P A (Q : A -> Prop) (p : prog A) :
  (forall k, F b k -> ~ P k) -> guar (touches F) Q p -> guar (avoids b P) Q p.
Proof.
  intros HF. apply guar_weaken. intros c R o Ht -> k Hk Hn. by eapply HF, Hk; apply Ht.
Qed.

Section settle.
Variables (b : nat) (pkg f bytes : str).
Hypothesis names : valid_names pkg f.

Abbreviation held := (held_keys pkg f bytes).
Abbreviation safe := (preserved b pkg f bytes).

(** A settle that has not deleted yet: the body stands. *)
Lemma holds_quarantine_body w :
  wf_world w -> contents (w b) (artifact_key pkg f) = Some bytes ->
  holds safe (fun r w' => match r with
      | Ok o => o = Some (sha256_hex bytes) /\ wf_world w' /\ quarantined pkg f bytes (w' b)
                /\ contents (w' b) (artifact_key pkg f) = Some bytes
      | Err _ => True end) (quarantine b pkg f) w.
Proof.
  intros Hw Hb. unfold quarantine. apply holds_call; [done|by left|]. intros r s Hs Hw1.
  pose proof (op_step_read _ _ _ _ _ (eq_refl : is_read (GetBytes _) = true) Hs) as ->.
  rewrite fn_insert_id in *. destruct r as [body|e].
  2:{ destruct (is_not_found e) eqn:He; [|by apply holds_ret; [left|]].
      apply bool_decide_eq_true in He as ->. pose proof (get_bytes_not_found _ _ _ _ Hs eq_refl). congruence. }
  assert (body = bytes) as -> by (pose proof (get_bytes_answer _ _ _ _ _ Hs eq_refl); congruence).
  apply holds_bind_ok. unfold quarantine_bytes. cbv zeta.
  assert (forall s x, op_step (PutIfAbsent (quarantine_key pkg f (sha256_hex bytes)) bytes) (w b) x s ->
            contents s (artifact_key pkg f) = Some bytes) as Hkeep.
  { intros s x Hs1. by rewrite (op_step_frame _ _ _ _ _ (artifact_key pkg f) (Hw b) Hs1). }
  apply holds_call_ok; [done|by left| |].
  2:{ intros e s Hs1. assert (safe (<[b := s]> w)) as Hp by (left; rewrite fn_lookup_insert; by eapply Hkeep).
      by split. }
  intros created s Hs1 Hw2. pose proof (Hkeep _ _ Hs1) as Hb1.
  set (w1 := <[b := s]> w) in *. assert (w1 b = s) as H1 by (unfold w1; by rewrite fn_lookup_insert).
  rewrite <- H1 in Hb1. destruct created.
  { pose proof (put_if_absent_created _ _ _ _ _ Hs1 eq_refl) as Hq. rewrite <- H1 in Hq.
    apply holds_ret; [by left|]. apply holds_ret; [by left|done]. }
  apply holds_read_ok; [done|by left| |by intros e; split; [|left]]. intros existing Hs2.
  pose proof (get_bytes_answer _ _ _ _ _ Hs2 eq_refl) as Hq.
  case_decide as He; [subst existing|by apply holds_ret; [left|split; [|left]]].
  apply holds_ret; [by left|]. apply holds_ret; [by left|done].
Qed.

(** The removal at the end, with the copy in place. *)
Lemma holds_settle_drop ours changed w :
  wf_world w -> quarantined pkg f bytes (w b) ->
  holds safe (fun _ _ => True) (settle_drop b (artifact_key pkg f) ours changed) w.
Proof.
  intros Hw Hq. unfold settle_drop. cbv zeta. set (keys := if ours then _ else _).
  assert (forall r s, op_step (DeleteKeys keys) (w b) r s -> safe (<[b := s]> w)) as Hkeep.
  { intros r s Hs. right. rewrite fn_lookup_insert. rewrite (op_step_frame _ _ _ _ _ _ (Hw b) Hs); [done|].
    unfold keys. destruct ours; [rewrite record_object_keys_suffixes|].
    - by intros (t & Heq & _)%list_elem_of_fmap.
    - change [_; _; _] with (companion_key (artifact_key pkg f) <$> [SIDECAR_SUFFIX; METADATA_SUFFIX; PROVENANCE_SUFFIX]).
      by intros (t & Heq & _)%list_elem_of_fmap. }
  apply holds_call_ok; [done|by right| |].
  - intros u s Hs _. apply holds_ret; [by eapply Hkeep|done].
  - intros e s Hs. split; [by eapply Hkeep|done].
Qed.

Lemma held_safe w w' :
  contents (w b) (artifact_key pkg f) = Some bytes -> same_on b held w w' ->
  contents (w' b) (artifact_key pkg f) = Some bytes.
Proof. intros Hb Hs. rewrite (Hs (artifact_key pkg f)); [done|by left]. Qed.

(** A demotion never loses the body it suppresses. At every moment of
    settling a mirror record under a private claim, whatever fails and wherever
    it crashes, the body it found stands under its own key or in quarantine. *)
Theorem settle_preserves w :
  wf_world w -> contents (w b) (artifact_key pkg f) = Some bytes ->
  holds safe (fun _ _ => True) (settle_mirror_quarantine b pkg f) w.
Proof.
  intros Hw Hb. unfold settle_mirror_quarantine. cbv zeta.
  assert (forall w', wf_world w' -> same_on b held w w' -> safe w') as Hsafe
    by (intros w' _ Hs; left; by eapply held_safe).
  eapply (holds_frame_ok _ _ _ _ b held (fun _ => True)); [done| |done|done|].
  { eapply (guar_avoids (fun _ k => k = origin_key pkg)), guar_mono, touch_ensure_private; [|by intros []|done].
    intros k -> [Heq|Heq]; [|done]. destruct (ordinary_origin pkg (proj1 names)) as [_ Ho].
    by destruct (Ho pkg f names). }
  intros _ w1 Hw1 Hs1 _. pose proof (held_safe _ _ Hb Hs1) as Hb1. clear Hsafe.
  assert (forall w', wf_world w' -> same_on b held w1 w' -> safe w') as Hsafe
    by (intros w' _ Hs; left; by eapply held_safe).
  eapply (holds_frame_ok _ _ _ _ b held (fun _ => True)); [done| |done|done|].
  { eapply (guar_avoids (fun _ _ => False)), guar_mono, touch_resolved; [done|by intros []]. }
  intros [] w2 Hw2 Hs2 _; [apply holds_ret; [by apply Hsafe|done]|].
  pose proof (held_safe _ _ Hb1 Hs2) as Hb2. clear Hsafe.
  eapply (holds_frame_ok _ _ _ _ b held (fun _ => True)); [done| | |done|].
  { eapply (guar_avoids (fun _ k => k = mirror_quarantined_key (artifact_key pkg f))), guar_mono, touch_put_verify;
      [|by intros []|done]. intros k ->. apply held_companion; [done|suffix_in]. }
  { intros w' _ Hs; left; by eapply held_safe. }
  intros created w3 Hw3 Hs3 _. pose proof (held_safe _ _ Hb2 Hs3) as Hb3.
  apply holds_bind_ok. eapply holds_mono; [|by apply holds_quarantine_body].
  intros [o|e] w4 HI; [|done]. intros (-> & Hw4 & Hq & Hb4).
  apply holds_read_ok; [done|done| |done]. intros left _.
  unfold get_optional. apply holds_bind_ok, holds_call; [done|done|]. intros r s Hs Hw5.
  pose proof (op_step_read _ _ _ _ _ (eq_refl : is_read (GetBytes _) = true) Hs) as ->.
  rewrite fn_insert_id in *. apply holds_ret; [done|].
  destruct r as [standing|e]; [|destruct (is_not_found e); [by apply holds_settle_drop|done]].
  case_decide; [|by apply holds_ret]. apply holds_read_ok; [done|done| |done]. intros [] _; [by apply holds_ret|].
  by apply holds_settle_drop.
Qed.

End settle.

(** ** Who acts on the buckets *)

(** Executors of any verdict but [SettleMirrorQuarantine] over streamed copies, the audit's completion of
    deletes and of supersedes, and any program that overwrites only ordinary
    keys (uploads, claims, status changes, index rebuilds). *)
Inductive participant : prog unit -> Prop :=
  | executes a b pkg f ra rb source verdict :
      valid_names pkg f -> streams a b -> verdict ≠ SettleMirrorQuarantine ->
      participant (thread (execute a b pkg f ra rb source verdict))
  | completes b pkg fs :
      Forall (valid_names pkg) fs -> participant (thread (complete_interrupted_deletes b pkg fs))
  | finishes b pkg entries grace :
      Forall (intent_entry pkg) entries ->
      participant (thread (finish_interrupted_supersedes b pkg entries grace))
  | writes_plainly p : guar plain (fun _ => True) p -> participant p.

Lemma saving_thread A (p : prog A) w : kept (fun _ => True) p -> keeping preserves w (thread p).
Proof.
  intros Hp. exists (fun _ => True). split; [apply always_stable|]. split; [done|].
  apply keeps_bind; [|apply always_stable]. eapply keeps_mono; [|apply always_stable|exact Hp]. done.
Qed.

Lemma keeping_participant w p : participant p -> keeping preserves w p.
Proof.
  destruct 1 as [a b pkg f ra rb source verdict Hv Hs Hne|b pkg fs Hfs|b pkg es g Hes|p Hp].
  - by apply saving_thread, kept_execute.
  - apply saving_thread. eapply (kept_pfor fs _ (valid_names pkg)); [done| |apply always_stable].
    intros f st K Hf HK. by apply saved_complete_one.
  - apply saving_thread, kept_last; [apply always_stable|by apply plain_finish].
  - exists (fun _ => True). split; [apply always_stable|]. split; [done|].
    by apply kept_last; [apply always_stable|].
Qed.

(** C3: replication over streamed copies loses no bytes. Take a body that stands
    under its key. Along every interleaving of executors of any verdict but the
    settling of a demotion, between buckets that copy by streaming (copies,
    supersedes, quarantined losers, freezes, deletes), of the audit and of writers
    of ordinary keys, with any faults and crashes: its bytes still stand there, or
    a copy of exactly these bytes stands in that bucket's quarantine, or its
    tombstone stands. The settling of a demotion ends in an unconditional delete,
    so its guarantee is for a run that nothing else writes into: at every moment
    of it, whatever fails, the bytes stand under their key or in quarantine. (A
    provider's copy verb overwrites unconditionally and is outside both.) *)
Theorem no_bytes_lost (w : world) b pkg f bytes :
  wf_world w -> valid_names pkg f -> contents (w b) (artifact_key pkg f) = Some bytes ->
  (forall ts ts' w', Forall participant ts -> rtc step (w, ts) (w', ts') ->
     contents (w' b) (artifact_key pkg f) = Some bytes
     \/ quarantined pkg f bytes (w' b) \/ tombstone_at pkg f (w' b))
  /\ holds (preserved b pkg f bytes) (fun _ _ => True) (settle_mirror_quarantine b pkg f) w.
Proof.
  intros Hw Hv Hb. split; [|by apply settle_preserves]. intros ts ts' w' Hts Hsteps.
  assert (preserves w w') as HR.
  { apply (steps_keep preserves (w, ts) (w', ts') Hsteps Hw).
    eapply Forall_impl; [exact Hts|]. intros p. apply keeping_participant. }
  destruct (HR b) as [_ HB]. by apply (HB pkg f Hv).
Qed.

End preserve.

(** *** Witnesses *)

#[local] Existing Instances toy_digest toy_chunking toy_claim_codec toy_sidecar_codec toy_filename_codec
  content_etags no_copy_verb.

(** A private record on bucket 0 and a mirror record of other bytes on bucket 1. *)
Definition private_sidecar : Sidecar := example_sidecar (sha256_hex (&"new")) OriginState.PRIVATE 0 5.
Definition mirror_sidecar : Sidecar := example_sidecar (sha256_hex (&"old")) OriginState.MIRROR 0 5.
Definition conflict_world : world :=
  (run example_env empty_world
    (let*? _ := call 0 (PutBytes example_akey (&"new")) in
     let*? _ := call 0 (PutBytes (sidecar_key example_akey) (encode private_sidecar)) in
     let*? _ := call 1 (PutBytes example_akey (&"old")) in
     call 1 (PutBytes (sidecar_key example_akey) (encode mirror_sidecar)))).1.

Definition record_of (sc : Sidecar) : Record_ := MkRecord (Some sc) true false false false false false false None.

Lemma conflict_world_wf : wf_world conflict_world.
Proof. apply wf_run, empty_world_wf. Qed.

Definition supersede_thread : prog unit :=
  thread (execute 0 1 (&"a") example_file (record_of private_sidecar) (record_of mirror_sidecar) FromBucket (Supersede A)).

Lemma no_bytes_lost_witness :
  let w' := (run example_env conflict_world supersede_thread).1 in
  contents (w' 1%nat) (artifact_key (&"a") example_file) = Some (&"new") /\ quarantined (&"a") example_file (&"old") (w' 1%nat).
Proof.
  intros w'. assert (contents (w' 1%nat) (artifact_key (&"a") example_file) = Some (&"new")) as Hnew by (vm_compute; reflexivity).
  split; [done|].
  destruct (no_bytes_lost conflict_world 1 (&"a") example_file (&"old")) as [Hkept _].
  { apply conflict_world_wf. }
  { apply example_names. }
  { vm_compute. reflexivity. }
  destruct (Hkept [supersede_thread] [Ret (run example_env conflict_world supersede_thread).2] w') as [Hold|[Hq|Ht]].
  - constructor; [|constructor]. unfold supersede_thread.
    apply executes; [apply example_names|by split|discriminate].
  - apply steps_run, example_env_good.
  - exfalso. rewrite Hnew in Hold. discriminate Hold.
  - done.
  - exfalso. revert Ht. vm_compute. by intros [].
Defined.

Lemma settle_preserves_witness :
  holds (preserved 1 (&"a") example_file (&"old")) (fun _ _ => True)
    (settle_mirror_quarantine 1 (&"a") example_file) conflict_world.
Proof.
  apply (settle_preserves 1 (&"a") example_file (&"old")).
  - apply example_names.
  - apply conflict_world_wf.
  - vm_compute. reflexivity.
Defined.

End Preserve.
