(* ===== verification/Attest.v ===== *)
(** * A stored sidecar names the bytes it stands over

    Every reader trusts the sha256 of a record's sidecar. The executor writes
    bodies and sidecars in several steps; these theorems say that a streamed copy
    never leaves a sidecar over bytes it does not name, and that a supersede
    which stops at any point is completed by the next rebuild's pass over the
    intent markers. *)
From stdpp Require Import functions.
From S2P Require Import Prelude RustStr Documents Hash Decide Storage Origin Markers Replicate Artifact Execute Footprint Preserve.
Import Storage.

Module Attest.
Import Sidecar Decide Origin Hash Markers Replicate Artifact Execute Footprint Preserve.

Section attest.
Context {D : Digest} {T : Chunking} `{ClaimCodec} {JS : Codec Sidecar} {JF : Codec FilenameBody}
  {V : CopyVerb} {E : Etags}.

(** ** What a verified source holds *)

Definition staged_as (sha : str) (a : StagedArtifact) : Prop :=
  sha256_hex (staged_content a) = sha /\ staged_size a = Z.of_nat (length (staged_content a)).

Definition on_ok {A} (Q : A -> Prop) (r : res A) : Prop := match r with Ok a => Q a | Err _ => True end.

Lemma accept_all_Ok limit cs s :
  0 <= limit -> accept_all (sink_new limit) cs = Ok s ->
  finish s = (sha256_hex (concat cs), Z.of_nat (length (concat cs))).
Proof.
  intros Hl. rewrite accept_all_spec by done. cbv zeta. cbn [sink_new sink_read sink_limit hasher].
  destruct (limit <? _); [done|]. by intros [= <-].
Qed.

Lemma guar_stage G source src akey n :
  (forall b R (o : op R), is_read o = true -> G b R o) ->
  guar G (on_ok (fun p => staged_as p.1 p.2)) (stage source src akey n).
Proof.
  intros HG. unfold stage, stage_from_bucket, hash_file. destruct source as [|content].
  - apply guar_call_ok; [by apply HG|intros body _|done]. case_match.
    + destruct (accept_all _ (chunks body)) as [s|] eqn:Hs; [|done].
      apply accept_all_Ok in Hs; [|done]. cbn [rbind]. rewrite Hs, chunks_concat. done.
    + eapply (guar_bind_ok _ _ _ (fun _ => True)); [done|intros written _|done].
      apply guar_call_ok; [by apply HG|intros c _|done]. done.
  - eapply (guar_bind_ok _ _ _ (on_ok (fun h => h = (sha256_hex content, Z.of_nat (length content)))));
      [|intros h ->; done|done].
    apply guar_call_ok; [by apply HG|intros c Hc|done]. specialize (Hc c eq_refl) as ->.
    destruct (accept_all _ (chunks content)) as [s|] eqn:Hs; [|done].
    apply accept_all_Ok in Hs; [|done]. cbn [rbind]. rewrite Hs, chunks_concat. done.
Qed.

Lemma guar_staged_read G b a :
  (forall b R (o : op R), is_read o = true -> G b R o) ->
  guar G (on_ok (fun c => c = staged_content a)) (staged_read_all b a).
Proof.
  intros HG. unfold staged_read_all. destruct a as [bytes|content n]; [done|].
  apply guar_call; [by apply HG|]. intros [c|e] Hc; [|done]. by apply Hc.
Qed.

(** The source is only read, or loses a sidecar its body contradicts. *)
Definition source_footprint (src : nat) (pkg f : str) (b : nat) (k : str) : Prop :=
  b = src /\ (k = sidecar_key (artifact_key pkg f) \/ exists n s, k = marker_key pkg n s).

Lemma guar_verify_artifact src pkg f r source :
  guar (touches (source_footprint src pkg f))
    (on_ok (fun a => exists sc, source_sidecar r = Ok sc /\ staged_as (sha256 sc) a))
    (verify_source_artifact src pkg f r source).
Proof.
  unfold verify_source_artifact. cbv zeta. destruct (source_sidecar r) as [sc|]; [|done].
  apply guar_ret_bind; [|done]. intros sc' [= <-].
  eapply guar_bind_ok; [apply guar_stage; intros b R o Hr k Hk; by destruct o| |done].
  intros [got a] Ha. cbn [fst snd on_ok] in *. case_decide as Hsha; [subst; by exists sc|].
  destruct source; [|done].
  eapply (guar_bind_ok _ _ _ (fun _ => True)); [|done|done].
  unfold drop_stale_sidecar, still_stale, mark_dirty, mark_commit, put_marker. walk.
  - intros k ->%list_elem_of_singleton. split; [done|by left].
  - intros k <-. split; [done|]. right. by eexists _, _.
Qed.

Lemma guar_verify_record src pkg f r source :
  guar (touches (source_footprint src pkg f))
    (on_ok (fun v => exists sc, source_sidecar r = Ok sc /\ staged_as (sha256 sc) (v_artifact v)))
    (verify_source_record src pkg f r source).
Proof.
  unfold verify_source_record. eapply guar_bind_ok; [apply guar_verify_artifact|intros a Ha|done].
  eapply (guar_bind_ok _ _ _ (fun _ => True)); [apply touch_companions|intros c _; exact Ha|done].
Qed.

Lemma holds_get_optional A I (Q : res A -> world -> Prop) b key k w :
  I w -> (forall o, o = contents (w b) key -> holds I Q (k o) w) -> (forall e, Q (Err e) w) ->
  holds I Q (pbind_ok (get_optional b key) k) w.
Proof.
  intros HI Hk He. apply holds_bind_ok. split; [done|]. intros r s Hs.
  pose proof (op_step_read _ _ _ _ _ (eq_refl : is_read (GetBytes _) = true) Hs) as ->.
  rewrite fn_insert_id. apply holds_ret; [done|]. destruct r as [bytes|e].
  - apply Hk. symmetry. by eapply get_bytes_answer.
  - destruct (is_not_found e) eqn:Hnf; [|done]. apply bool_decide_eq_true in Hnf as ->.
    apply Hk. symmetry. by eapply get_bytes_not_found.
Qed.

(** ** The record on one bucket *)

Section record.
Variables (b : nat) (pkg f : str).
Hypothesis names_ok : valid_names pkg f.

Abbreviation akey := (artifact_key pkg f).
Definition body (w : world) : option str := contents (w b) akey.
Definition side (w : world) : option str := contents (w b) (sidecar_key akey).
Definition intent (w : world) : option str := contents (w b) (superseding_key akey).

(** The sidecar, if there is one, names the bytes it stands over. *)
Definition attested (w : world) : Prop :=
  forall bytes raw sc, body w = Some bytes -> side w = Some raw -> decode raw = Some sc ->
  sha256 sc = sha256_hex bytes.

(** A stored sidecar parses and has a known origin. *)
Definition readable (stored : option str) : Prop :=
  forall raw, stored = Some raw -> exists sc, decode raw = Some sc /\ sidecar_origin_ok sc = true.

Definition describes (stored : option str) (sha : str) : Prop :=
  exists raw sc, stored = Some raw /\ decode raw = Some sc /\ sha256 sc = sha /\ sidecar_origin_ok sc = true.

Lemma describes_encode sc :
  sc_origin sc = Some OriginState.PRIVATE -> describes (Some (encode sc)) (sha256 sc).
Proof.
  intros Ho. exists (encode sc), sc. rewrite decode_encode. do 3 (split; [done|]).
  unfold sidecar_origin_ok. by rewrite Ho.
Qed.

Lemma describes_attested w bytes sha :
  body w = Some bytes -> sha256_hex bytes = sha -> describes (side w) sha -> attested w.
Proof. intros Hb <- (raw & sc & Hs & Hd & Hsha & _) bytes' raw' sc' Hb' Hs' Hd'. congruence. Qed.

(** Everything but the sidecar as it was, the sidecar as it was or installed. *)
Definition installing (sc : Sidecar) (w w' : world) : Prop :=
  wf_world w' /\ same_on b (fun k => k ≠ sidecar_key akey) w w'
  /\ (side w' = side w \/ side w' = Some (encode sc)).

Lemma installing_step sc w w' R (o : op R) r s :
  installing sc w w' -> op_step o (w' b) r s ->
  match o with
  | PutIfAbsent k bytes => k = sidecar_key akey /\ bytes = encode sc
  | PutIfMatch k _ bytes => k = sidecar_key akey /\ bytes = encode sc
  | _ => is_read o = true
  end -> installing sc w (<[b := s]> w').
Proof.
  intros (Hw & Hs & Hd) Hstep Ho. split; [by eapply wf_insert|].
  assert (forall k, names_key o k -> k = sidecar_key akey) as Hnames
    by (intros k Hk; destruct o; simpl in *; try done; destruct Ho; by subst).
  split.
  - eapply same_on_trans; [exact Hs|]. eapply same_on_step; [done| |done]. intros _ k Hk Hn. by apply Hk, Hnames.
  - unfold side in *. rewrite fn_lookup_insert.
    destruct (op_step_effect _ _ _ _ _ (sidecar_key akey) (Hw b) Hstep) as [->|He]; [done|].
    right. destruct o; simpl in He; try done; naive_solver.
Qed.

Lemma holds_install_loop n sc w w' bytes :
  sc_origin sc = Some OriginState.PRIVATE -> installing sc w w' ->
  body w = Some bytes -> sha256_hex bytes = sha256 sc ->
  holds (installing sc w)
    (fun r w' => on_ok (fun _ => describes (side w') (sha256 sc)) r)
    (install_loop n b (sidecar_key akey) akey sc) w'.
Proof.
  intros Ho HI Hb Hsha. revert w' HI. induction n as [|n IH]; intros w' HI; cbn [install_loop];
    [by apply holds_ret|]. pose proof HI as (Hw' & Hs & Hside).
  assert (body w' = Some bytes) as Hb'.
  { unfold body in *. rewrite Hs; [done|]. intros Heq. rewrite <- (app_nil_r akey) in Heq at 1.
    apply (key_inj _ _ []) in Heq as (_ & _ & Heq); [done|done|done|by left|suffix_in]. }
  apply holds_read_ok; [done|done| |done]. intros [[raw etag]|] Hread.
  2:{ apply holds_call_ok; [done|done| |intros e s Hs1; by split; [eapply installing_step|]].
      intros created s Hs1 Hw1. assert (installing sc w (<[b := s]> w')) as HI1 by by eapply installing_step.
      destruct created; [|by apply IH]. apply holds_ret; [done|]. unfold side. rewrite fn_lookup_insert.
      rewrite (put_if_absent_created _ _ _ _ _ Hs1 eq_refl). by apply describes_encode. }
  apply get_with_etag_answer with (o := Some (raw, etag)) in Hread; [|done]. cbn [fmap option_fmap option_map fst] in Hread.
  case_decide as Hraw.
  { apply holds_ret; [done|]. unfold side. rewrite <- Hread, Hraw. by apply describes_encode. }
  destruct (parse_sidecar raw) as [current|] eqn:Hp; [|by apply holds_ret]. apply parse_sidecar_Ok in Hp.
  apply holds_bind_ok, holds_ret; [done|].
  destruct (sidecar_origin_ok current) eqn:Hoc; cbn [negb]; [|by apply holds_ret].
  apply holds_get_optional; [done| |done]. intros o ->. fold akey. fold (body w'). rewrite Hb'. cbv zeta.
  set (replace := if decide (sha256 current = sha256 sc) then _ else _).
  destruct replace eqn:Hrep; cbn [negb].
  2:{ case_decide as Hcs; [|unfold replace in Hrep; cbn [body_matches] in Hrep;
                         by rewrite (bool_decide_eq_true_2 _ Hsha), orb_true_r in Hrep].
      apply holds_ret; [done|]. exists raw, current. by unfold side. }
  apply holds_call_ok; [done|done| |intros e s Hs1; by split; [eapply installing_step|]].
  intros [new|] s Hs1 Hw1; [|apply IH; by eapply installing_step].
  apply holds_ret; [by eapply installing_step|]. unfold side. rewrite fn_lookup_insert.
  destruct (put_if_match_answer _ _ _ _ _ _ _ (Hw' b) Hs1 eq_refl) as [-> _]. by apply describes_encode.
Qed.

Lemma holds_install sc w bytes :
  wf_world w -> body w = Some bytes -> sha256_hex bytes = sha256 sc ->
  holds (installing sc w)
    (fun r w' => on_ok (fun _ => describes (side w') (sha256 sc)) r)
    (install_or_verify_sidecar b (sidecar_key akey) sc) w.
Proof.
  intros Hw Hb Hsha. assert (installing sc w w) as HI by (split; [done|]; split; [apply same_on_refl|by left]).
  unfold install_or_verify_sidecar. case_decide; [|by apply holds_ret].
  unfold sidecar_key at 1, companion_key at 1. rewrite strip_suffix_app. by eapply holds_install_loop.
Qed.

(** ** States a stopped supersede leaves *)

Definition unfenced (w : world) : Prop := ~ tombstone_at pkg f (w b) /\ ~ frozen_at pkg f (w b).

Definition intent_ok (stored : option str) : Prop :=
  forall raw, stored = Some raw -> exists sc, decode raw = Some sc /\ sc_origin sc = Some OriginState.PRIVATE.

(** The new bytes stand and the intent names them; the sidecar may not yet. *)
Definition torn (sc : Sidecar) (w : world) : Prop :=
  sc_origin sc = Some OriginState.PRIVATE /\ intent w = Some (encode sc) /\ unfenced w
  /\ exists bytes, body w = Some bytes /\ sha256_hex bytes = sha256 sc.

Definition legible (w : world) : Prop := wf_world w /\ readable (side w) /\ intent_ok (intent w).

Definition recoverable (w : world) : Prop := legible w /\ (attested w \/ exists sc, torn sc w).

(** The keys these states are about. *)
Definition truth_suffixes : list str := [[]; SIDECAR_SUFFIX; SUPERSEDING_SUFFIX; TOMBSTONE_SUFFIX; FROZEN_SUFFIX].
Definition truth_key (k : str) : Prop := exists s, s ∈ truth_suffixes /\ k = companion_key akey s.

Lemma truth_intro s : bool_decide (s ∈ truth_suffixes) = true -> truth_key (companion_key akey s).
Proof. intros Hs. exists s. split; [by apply bool_decide_eq_true in Hs|done]. Qed.

Lemma truth_body : truth_key akey.
Proof. rewrite <- (app_nil_r akey). by apply truth_intro. Qed.

Lemma truth_same w w' :
  same_on b truth_key w w' ->
  body w' = body w /\ side w' = side w /\ intent w' = intent w
  /\ (tombstone_at pkg f (w' b) <-> tombstone_at pkg f (w b)) /\ (frozen_at pkg f (w' b) <-> frozen_at pkg f (w b)).
Proof.
  intros Hs. unfold same_on in Hs. unfold body, side, intent, tombstone_at, frozen_at, present.
  assert (forall s, bool_decide (s ∈ truth_suffixes) = true ->
            contents (w' b) (companion_key akey s) = contents (w b) (companion_key akey s)) as Hc
    by (intros s Hin; by apply Hs, truth_intro).
  rewrite (Hs akey truth_body). unfold sidecar_key, superseding_key, tombstone_key, frozen_key.
  by rewrite (Hc SIDECAR_SUFFIX), (Hc SUPERSEDING_SUFFIX), (Hc TOMBSTONE_SUFFIX), (Hc FROZEN_SUFFIX).
Qed.

Lemma torn_frame sc w w' : torn sc w -> same_on b truth_key w w' -> torn sc w'.
Proof.
  intros (Ho & Hi & [Ht Hf] & Hbody) Hs. destruct (truth_same _ _ Hs) as (Hb & Hd & Hn & Hto & Hfr).
  unfold torn, unfenced. rewrite Hb, Hn, Hto, Hfr. done.
Qed.

Lemma legible_frame w w' : legible w -> wf_world w' -> same_on b truth_key w w' -> legible w'.
Proof.
  intros (_ & Hr & Hi) Hw' Hs. destruct (truth_same _ _ Hs) as (_ & Hd & Hn & _). unfold legible. by rewrite Hd, Hn.
Qed.

Lemma attested_frame w w' : attested w -> same_on b truth_key w w' -> attested w'.
Proof. intros Ha Hs. destruct (truth_same _ _ Hs) as (Hb & Hd & _). unfold attested. by rewrite Hb, Hd. Qed.

Lemma recoverable_frame w w' :
  recoverable w -> wf_world w' -> same_on b truth_key w w' -> recoverable w'.
Proof.
  intros [Hl Hst] Hw' Hs. split; [by eapply legible_frame|].
  destruct Hst as [Ha|[sc Ht]]; [left; by eapply attested_frame|right; exists sc; by eapply torn_frame].
Qed.

(** Keys that are not truth keys of this record. *)
Lemma companion_not_truth s :
  s ∈ companion_suffixes -> s ∉ truth_suffixes -> ~ truth_key (companion_key akey s).
Proof.
  intros Hs Hn (t & Ht & Heq). apply key_inj in Heq as (_ & _ & ->); [done|done|done|by right|].
  revert t Ht Heq Hn. clear. intros t Ht _ _.
  assert (Forall (fun t => t ∈ [] :: companion_suffixes) truth_suffixes) as Hall by suffix_side.
  rewrite Forall_forall in Hall. by apply Hall.
Qed.

Lemma origin_not_truth : ~ truth_key (origin_key pkg).
Proof.
  intros (s & Hs & Heq). unfold companion_key, origin_key in Heq.
  change (PACKAGES_PREFIX ++ pkg ++ &"/.origin") with (artifact_key pkg (&".origin")) in Heq.
  rewrite companion_key_artifact in Heq. apply artifact_key_inj in Heq as [_ Heq]; [|apply names_ok..].
  destruct names_ok as [_ Hf]. unfold is_artifact in Hf. destruct f as [|c f']; [done|].
  cbn [app] in Heq. injection Heq as <- _. done.
Qed.

Lemma marker_not_truth n s : ~ truth_key (marker_key pkg n s).
Proof. by intros (t & _ & Heq). Qed.

Lemma quarantine_not_truth sha : ~ truth_key (quarantine_key pkg f sha).
Proof. by intros (t & _ & Heq). Qed.

(** ** Removals keep a record attested *)

Definition calm (w : world) : Prop := legible w /\ attested w.

Definition puts_key {R} (o : op R) (key : str) : Prop :=
  match o with
  | PutBytes k _ => k = key
  | PutIfAbsent k _ => k = key
  | PutIfNoneMatch k _ => k = key
  | PutIfMatch k _ _ => k = key
  | _ => False
  end.

Definition shrinks (c : nat) (R : Type) (o : op R) : Prop :=
  c = b -> forall s, s ∈ [[]; SIDECAR_SUFFIX; SUPERSEDING_SUFFIX] -> ~ puts_key o (companion_key akey s).

Lemma calm_shrink w c R (o : op R) r s :
  calm w -> shrinks c R o -> op_step o (w c) r s -> calm (<[c := s]> w).
Proof.
  intros [(Hw & Hr & Hi) Ha] Hsh Hs.
  assert (forall t, t ∈ [[]; SIDECAR_SUFFIX; SUPERSEDING_SUFFIX] ->
    contents ((<[c := s]> w) b) (companion_key akey t) = contents (w b) (companion_key akey t)
    \/ contents ((<[c := s]> w) b) (companion_key akey t) = None) as Hless.
  { intros t Ht. destruct (decide (c = b)) as [->|Hne]; [|left; by rewrite fn_lookup_insert_ne].
    rewrite fn_lookup_insert. specialize (Hsh eq_refl t Ht).
    destruct (op_step_effect _ _ _ _ _ (companion_key akey t) (Hw b) Hs) as [->|He]; [by left|].
    destruct o; simpl in *; naive_solver. }
  assert (body (<[c := s]> w) = body w \/ body (<[c := s]> w) = None) as Hb.
  { unfold body. rewrite <- (app_nil_r akey). apply Hless. suffix_side. }
  assert (side (<[c := s]> w) = side w \/ side (<[c := s]> w) = None) as Hd by (apply Hless; suffix_side).
  assert (intent (<[c := s]> w) = intent w \/ intent (<[c := s]> w) = None) as Hn by (apply Hless; suffix_side).
  split; [split; [by eapply wf_insert|split]|].
  - intros raw Hraw. destruct Hd as [Hd|Hd]; rewrite Hd in Hraw; [by apply Hr|done].
  - intros raw Hraw. destruct Hn as [Hn|Hn]; rewrite Hn in Hraw; [by apply Hi|done].
  - intros bytes raw sc. destruct Hb as [->| ->]; [|done]. destruct Hd as [->| ->]; [apply Ha|done].
Qed.

Lemma guar_calm A (Q : A -> Prop) (p : prog A) w :
  calm w -> guar shrinks Q p -> holds calm (fun a _ => Q a) p w.
Proof.
  revert w. induction p as [a|R c o k IH]; intros w Hc Hp; [done|]. destruct Hp as [Ho Hk]. split; [done|].
  intros r s Hs. apply IH; [by eapply calm_shrink|]. apply Hk. eapply op_step_sound; [apply Hc|done].
Qed.

Lemma shrinks_other c R (o : op R) :
  (forall s, s ∈ [[]; SIDECAR_SUFFIX; SUPERSEDING_SUFFIX] -> ~ puts_key o (companion_key akey s)) -> shrinks c R o.
Proof. by intros Ho _. Qed.

Ltac shrink_op := apply shrinks_other; intros ? _ Hput; simpl in Hput; done.

Lemma shrinks_suffix c t bytes :
  t ∈ companion_suffixes -> t ∉ [[]; SIDECAR_SUFFIX; SUPERSEDING_SUFFIX] ->
  shrinks c _ (PutIfAbsent (companion_key akey t) bytes).
Proof.
  intros Ht Hn. apply shrinks_other. intros s Hs Heq. simpl in Heq.
  apply key_inj in Heq as (_ & _ & ->); [done|done|done|by right|].
  clear -Hs. assert (Forall (fun t => t ∈ [] :: companion_suffixes) [[]; SIDECAR_SUFFIX; SUPERSEDING_SUFFIX])
    as Hall by suffix_side. rewrite Forall_forall in Hall. by apply Hall.
Qed.

Lemma shrink_quarantine c bytes : guar shrinks (fun _ => True) (quarantine_bytes c pkg f bytes).
Proof.
  unfold quarantine_bytes. cbv zeta. apply guar_call_ok; [shrink_op| |done].
  intros [] _; [done|]. walk. shrink_op.
Qed.

Lemma shrink_freeze c : guar shrinks (fun _ => True) (freeze_side c pkg f).
Proof.
  unfold freeze_side, write_frozen_marker, quarantine, tombstone_write, drop_record_objects. cbv zeta.
  apply guar_call_ok; [apply shrinks_suffix; suffix_side|intros created _|done].
  eapply (guar_bind_ok _ _ _ (fun _ => True)); [|intros _ _|done].
  { apply guar_call_bind; [shrink_op|]. intros [bytes|e] _; [|by case_match].
    eapply (guar_bind_ok _ _ _ (fun _ => True)); [apply shrink_quarantine|done|done]. }
  eapply (guar_bind_ok _ _ _ (fun _ => True)); [|intros _ _|done].
  { apply guar_call_ok; [apply shrinks_suffix; suffix_side|done|done]. }
  apply guar_call_ok; [shrink_op|done|done].
Qed.

Lemma shrink_tombstone c : guar shrinks (fun _ => True) (tombstone_side c pkg f).
Proof.
  unfold tombstone_side, tombstone_write, drop_record_objects. cbv zeta.
  do 2 (apply guar_call_ok; [shrink_op|intros ? _|done]). case_match.
  - do 4 (apply guar_call_ok; [shrink_op|intros ? _|done]). case_match; [done|].
    apply guar_call_ok; [shrink_op|done|done].
  - eapply (guar_bind_ok _ _ _ (fun _ => True)); [|intros _ _|done].
    { apply guar_call_ok; [apply shrinks_suffix; suffix_side|done|done]. }
    apply guar_call_ok; [shrink_op|done|done].
Qed.

Lemma shrink_dirty c : guar shrinks (fun _ => True) (mark_dirty c pkg).
Proof.
  unfold mark_dirty, mark_commit, put_marker. walk; shrink_op.
Qed.

Lemma shrink_staged_read c a : guar shrinks (fun _ => True) (staged_read_all c a).
Proof. unfold staged_read_all. destruct a; [done|]. apply guar_call; [shrink_op|done]. Qed.

Lemma shrink_freeze_incoming c a :
  guar shrinks (fun _ => True)
    (let*? bytes := staged_read_all c a in
     let*? _ := quarantine_bytes c pkg f bytes in
     let*? _ := freeze_side c pkg f in mark_dirty c pkg).
Proof.
  eapply (guar_bind_ok _ _ _ (fun _ => True)); [apply shrink_staged_read|intros bytes _|done].
  eapply (guar_bind_ok _ _ _ (fun _ => True)); [apply shrink_quarantine|intros _ _|done].
  eapply (guar_bind_ok _ _ _ (fun _ => True)); [apply shrink_freeze|intros _ _|done]. apply shrink_dirty.
Qed.

(** ** The body leg of a supersede *)

Definition declared (sc : Sidecar) (w : world) : Prop :=
  legible w /\ sc_origin sc = Some OriginState.PRIVATE /\ intent w = Some (encode sc) /\ unfenced w.

Lemma declared_frame sc w w' : declared sc w -> wf_world w' -> same_on b truth_key w w' -> declared sc w'.
Proof.
  intros (Hl & Ho & Hi & [Ht Hf]) Hw' Hs. destruct (truth_same _ _ Hs) as (_ & _ & Hn & Hto & Hfr).
  unfold declared, unfenced. rewrite Hn, Hto, Hfr. split; [by eapply legible_frame|done].
Qed.

(** Writing the body under a declared intent: old bytes, or new ones the intent
    names. *)
Lemma body_write sc w R (o : op R) r s content :
  declared sc w -> attested w -> sha256_hex content = sha256 sc ->
  match o with
  | PutIfAbsent k c => k = akey /\ c = content
  | PutIfMatch k _ c => k = akey /\ c = content
  | _ => False
  end -> op_step o (w b) r s ->
  recoverable (<[b := s]> w) /\ declared sc (<[b := s]> w)
  /\ (body (<[b := s]> w) = Some content -> torn sc (<[b := s]> w)).
Proof.
  intros (Hl & Ho & Hi & Hu) Ha Hsha Hop Hs.
  assert (same_on b (fun k => k ≠ akey) w (<[b := s]> w)) as Hsame.
  { eapply same_on_step; [apply Hl| |done]. intros _ k Hk Hn. destruct o; simpl in *; try done; naive_solver. }
  assert (forall t, t ∈ companion_suffixes -> contents ((<[b := s]> w) b) (companion_key akey t)
            = contents (w b) (companion_key akey t)) as Hc.
  { intros t Ht. apply Hsame. intros Heq. rewrite <- (app_nil_r akey) in Heq at 2.
    apply (key_inj _ _ _ _ _ []) in Heq as (_ & _ & ->); [|done|done|by right|by left].
    by apply (bool_decide_pack _) in Ht. }
  assert (side (<[b := s]> w) = side w) as Hside by (apply Hc; suffix_side).
  assert (intent (<[b := s]> w) = intent w) as Hint by (apply Hc; suffix_side).
  assert (unfenced (<[b := s]> w)) as Hu'.
  { unfold unfenced, tombstone_at, frozen_at, present, tombstone_key, frozen_key. rewrite !Hc by suffix_side. apply Hu. }
  assert (legible (<[b := s]> w)) as Hl'.
  { destruct Hl as (Hw & Hr & Hio). split; [by eapply wf_insert|]. by rewrite Hside, Hint. }
  assert (body (<[b := s]> w) = Some content -> torn sc (<[b := s]> w)) as Htorn.
  { intros Hb. split; [done|]. split; [by rewrite Hint|]. split; [done|]. by exists content. }
  split; [|by split; [split; [|rewrite Hint]|]]. split; [done|].
  destruct (op_step_effect _ _ _ _ _ akey (proj1 Hl b) Hs) as [He|He].
  - left. unfold attested. rewrite Hside. unfold body. rewrite fn_lookup_insert, He. apply Ha.
  - right. exists sc. apply Htorn. unfold body. rewrite fn_lookup_insert. destruct o; simpl in He; try done; naive_solver.
Qed.

Lemma quarantine_frame c bytes : guar (avoids b truth_key) (fun _ => True) (quarantine_bytes c pkg f bytes).
Proof.
  eapply (guar_avoids (fun _ k => exists sha, k = quarantine_key pkg f sha)), touch_quarantine_bytes.
  - intros k [sha ->]. apply quarantine_not_truth.
  - intros sha. by exists sha.
Qed.

Lemma size_frame c key n : guar (avoids b truth_key) (fun _ => True) (verify_stored_size c key n).
Proof. unfold verify_stored_size, check_stored_size. walk. by apply reads_avoids. Qed.

(** The rest of a program that leaves the torn record as it is. *)
Lemma torn_then_size sc w n :
  torn sc w -> declared sc w ->
  holds recoverable (fun r w' => on_ok (fun c => c = true /\ declared sc w' /\ torn sc w') r)
    (let*? _ := verify_stored_size b akey n in Ret (Ok true)) w.
Proof.
  intros Ht Hd. assert (recoverable w) as Hrec by (split; [apply Hd|right; by exists sc]).
  eapply (holds_frame_ok _ _ _ _ b truth_key (fun _ => True)); [apply Hd|eapply guar_mono, size_frame; by intros []| |done|].
  - intros w' Hw' Hs. by eapply recoverable_frame.
  - intros _ w' Hw' Hs _. apply holds_ret; [by eapply recoverable_frame|].
    split; [done|]. split; [by eapply declared_frame|by eapply torn_frame].
Qed.

Lemma holds_supersede_body src sc a w :
  declared sc w -> attested w -> staged_as (sha256 sc) a ->
  holds recoverable (fun r w' => on_ok (fun c => c = true /\ declared sc w' /\ torn sc w') r)
    (supersede_body src b pkg f sc a) w.
Proof.
  intros Hd Ha [Hsha Hlen]. assert (recoverable w) as Hrec by (split; [apply Hd|by left]).
  unfold supersede_body. cbv zeta. apply holds_read_ok; [done|done| |done]. intros [[current etag]|] Hread;
    pose proof (get_with_etag_answer _ _ _ _ _ Hread eq_refl) as Hb; cbn [fmap option_fmap option_map fst] in Hb.
  - case_decide as Hcur.
    { apply holds_ret; [done|]. split; [done|]. split; [done|]. destruct Hd as (Hl & Ho & Hi & Hu).
      split; [done|]. split; [done|]. split; [done|]. by exists current. }
    eapply (holds_frame_ok _ _ _ _ b truth_key (fun _ => True)); [apply Hd|eapply guar_mono, quarantine_frame; by intros []| |done|].
    { intros w' Hw' Hs. by eapply recoverable_frame. }
    intros _ w1 Hw1 Hs1 _.
    eapply (holds_frame_ok _ _ _ _ b truth_key (fun c => c = staged_content a));
      [done|apply guar_staged_read; intros ????; by apply reads_avoids| |done|].
    { intros w' Hw' Hs. eapply recoverable_frame; [done|done|]. by eapply same_on_trans. }
    intros c w2 Hw2 Hs2 ->. pose proof (same_on_trans _ _ _ _ _ Hs1 Hs2) as Hs12.
    pose proof (declared_frame _ _ _ Hd Hw2 Hs12) as Hd2. pose proof (attested_frame _ _ Ha Hs12) as Ha2.
    apply holds_call_ok; [done|by eapply recoverable_frame| |].
    2:{ intros e s Hs. by destruct (body_write sc w2 _ (PutIfMatch akey etag (staged_content a)) _ _ (staged_content a) Hd2 Ha2 Hsha (conj eq_refl eq_refl) Hs). }
    intros [new|] s Hs Hw3;
      destruct (body_write sc w2 _ (PutIfMatch akey etag (staged_content a)) _ _ (staged_content a) Hd2 Ha2 Hsha (conj eq_refl eq_refl) Hs) as (Hr3 & Hd3 & Ht3).
    + apply torn_then_size; [|done]. apply Ht3. unfold body. rewrite fn_lookup_insert.
      by destruct (put_if_match_answer _ _ _ _ _ _ _ (Hw2 b) Hs eq_refl).
    + by apply holds_ret.
  - unfold supersede_create, create_artifact_verified. cbv zeta. apply holds_bind_ok.
    apply holds_call_ok; [apply Hd|done| |].
    2:{ intros e s Hs. destruct (body_write sc w _ (PutIfAbsent akey (staged_content a)) _ _ (staged_content a) Hd Ha Hsha (conj eq_refl eq_refl) Hs) as (Hr3 & _).
        by split; [|split]. }
    intros [] s Hs Hw1.
    + destruct (body_write sc w _ (PutIfAbsent akey (staged_content a)) _ _ (staged_content a) Hd Ha Hsha (conj eq_refl eq_refl) Hs) as (Hr3 & Hd3 & Ht3).
      eapply holds_mono; [|apply torn_then_size; [apply Ht3|done]].
      * intros [c|e] w' HI; [|done]. intros (-> & Hd' & Ht'). by apply holds_ret.
      * unfold body. rewrite fn_lookup_insert. by apply (put_if_absent_created _ _ _ _ _ Hs eq_refl).
    + destruct (put_if_absent_taken _ _ _ _ _ Hs eq_refl) as [_ Hp]. unfold present in Hp. rewrite <- Hb in Hp.
      by destruct Hp.
Qed.

(** ** Publishing *)

(** The bytes [sc] names stand, under a sidecar that names them. *)
Definition superseded (sc : Sidecar) (w : world) : Prop :=
  exists bytes, body w = Some bytes /\ sha256_hex bytes = sha256 sc /\ describes (side w) (sha256 sc).

Lemma superseded_frame sc w w' : superseded sc w -> same_on b truth_key w w' -> superseded sc w'.
Proof. intros Hl Hs. destruct (truth_same _ _ Hs) as (Hb & Hd & _). unfold superseded. by rewrite Hb, Hd. Qed.

Definition settled_truth (w : world) : Prop := calm w /\ unfenced w.

Lemma settled_recoverable w : settled_truth w -> recoverable w.
Proof. intros [[Hl Ha] _]. split; [done|by left]. Qed.

Lemma settled_frame w w' : settled_truth w -> wf_world w' -> same_on b truth_key w w' -> settled_truth w'.
Proof.
  intros [[Hl Ha] [Ht Hf]] Hw' Hs. destruct (truth_same _ _ Hs) as (_ & _ & _ & Hto & Hfr).
  split; [split; [by eapply legible_frame|by eapply attested_frame]|]. unfold unfenced. by rewrite Hto, Hfr.
Qed.

(** A part that names no truth key, in a settled state. *)
Lemma holds_settled_ok A B (p : prog (res A)) (k : A -> prog (res B)) (Q : res B -> world -> Prop) w :
  settled_truth w -> guar (avoids b truth_key) (fun _ => True) p -> (forall e w, Q (Err e) w) ->
  (forall a w', settled_truth w' -> same_on b truth_key w w' -> holds recoverable Q (k a) w') ->
  holds recoverable Q (pbind_ok p k) w.
Proof.
  intros Hst Hp He Hk. eapply (holds_frame_ok _ _ _ _ b truth_key (fun _ => True)); [apply Hst|eapply guar_mono, Hp; by intros []| |done|].
  - intros w' Hw' Hs. by eapply settled_recoverable, settled_frame.
  - intros a w' Hw' Hs _. apply Hk; [|done]. by eapply settled_frame.
Qed.

Lemma companion_frame c t bytes replace :
  t ∈ companion_suffixes -> t ∉ truth_suffixes ->
  guar (avoids b truth_key) (fun _ => True) (replace_companion c (companion_key akey t) bytes replace).
Proof.
  intros Ht Hn. eapply (guar_avoids (fun _ k => k = companion_key akey t)), touch_replace_companion; [|done].
  intros k ->. by apply companion_not_truth.
Qed.

Lemma dirty_frame c : guar (avoids b truth_key) (fun _ => True) (mark_dirty c pkg).
Proof.
  eapply (guar_avoids (fun _ k => exists n s, k = marker_key pkg n s)), touch_mark_dirty.
  - intros k (n & t & ->). apply marker_not_truth.
  - intros n t. by exists n, t.
Qed.

Lemma delete_frame c t :
  t ∈ companion_suffixes -> t ∉ truth_suffixes -> avoids b truth_key c _ (DeleteKeys [companion_key akey t]).
Proof. intros Ht Hn -> k Hk Hin%list_elem_of_singleton. subst k. by eapply companion_not_truth. Qed.

Lemma holds_reassert a w :
  settled_truth w ->
  holds recoverable (fun r w' => on_ok (fun _ => settled_truth w' /\ same_on b truth_key w w') r) (reassert_precedence b pkg f a) w.
Proof.
  intros Hst. pose proof (settled_recoverable _ Hst) as Hrec. pose proof Hst as [_ [Hnt Hnf]].
  unfold reassert_precedence. cbv zeta. apply holds_read_ok; [done|done| |done]. intros froz Hfr.
  pose proof (head_exists_answer _ _ _ _ _ Hfr eq_refl) as Ha. destruct froz; [by destruct Hnf; apply Ha|].
  apply holds_read_ok; [done|done| |done]. intros tomb Hto.
  pose proof (head_exists_answer _ _ _ _ _ Hto eq_refl) as Hb. destruct tomb; [by destruct Hnt; apply Hb|].
  eapply (holds_framed _ _ _ b truth_key (fun _ => True)); [apply Hst|apply guar_call; [|done]| |].
  - apply delete_frame; suffix_side.
  - intros w' Hw' Hs. by eapply settled_recoverable, settled_frame.
  - intros [u|e] w' Hw' Hs _; [|done]. split; [by eapply settled_frame|done].
Qed.

Lemma installing_torn sc w w' : declared sc w -> torn sc w -> installing sc w w' -> declared sc w' /\ torn sc w'.
Proof.
  intros (Hl & Ho & Hi & Hu) (_ & _ & _ & bytes & Hb & Hsha) (Hw' & Hs & Hside).
  assert (forall t, t ∈ [] :: companion_suffixes -> t ≠ SIDECAR_SUFFIX ->
    contents (w' b) (companion_key akey t) = contents (w b) (companion_key akey t)) as Hc.
  { intros t Ht Hne. apply Hs. intros Heq. apply key_inj in Heq as (_ & _ & ?); [done|done|done|done|suffix_in]. }
  assert (intent w' = intent w) as Hint by (apply Hc; [suffix_side|done]).
  assert (body w' = body w) as Hbody.
  { unfold body. rewrite <- (app_nil_r akey). apply Hc; [suffix_side|done]. }
  assert (unfenced w') as Hu'.
  { unfold unfenced, tombstone_at, frozen_at, present, tombstone_key, frozen_key.
    rewrite !Hc by (done || suffix_side). apply Hu. }
  destruct Hl as (Hw & Hr & Hio). split.
  - split; [split; [done|split; [|by rewrite Hint]]|by rewrite Hint].
    intros raw Hraw. destruct Hside as [Hsd|Hsd]; rewrite Hsd in Hraw; [by apply Hr|]. injection Hraw as <-.
    exists sc. rewrite decode_encode. split; [done|]. unfold sidecar_origin_ok. by rewrite Ho.
  - split; [done|]. rewrite Hint. split; [done|]. split; [done|]. exists bytes. by rewrite Hbody.
Qed.

Lemma settled_delete_intent w r s :
  settled_truth w -> op_step (DeleteKeys [superseding_key akey]) (w b) r s -> settled_truth (<[b := s]> w).
Proof.
  intros [Hc [Ht Hf]] Hs. split; [eapply (calm_shrink w b _ (DeleteKeys [superseding_key akey])); [done|shrink_op|done]|].
  assert (forall t, t ∈ companion_suffixes -> t ≠ SUPERSEDING_SUFFIX -> contents s (companion_key akey t)
            = contents (w b) (companion_key akey t)) as Hsame.
  { intros t Hin Hne. eapply op_step_frame; [apply Hc|done|]. intros Heq%list_elem_of_singleton.
    apply key_inj in Heq as (_ & _ & ?); [done|done|done|by right|suffix_in]. }
  unfold unfenced, tombstone_at, frozen_at, present, tombstone_key, frozen_key. rewrite fn_lookup_insert.
  by rewrite !Hsame by (done || suffix_side).
Qed.

Lemma superseded_delete_intent sc w r s : wf_world w ->
  superseded sc w -> op_step (DeleteKeys [superseding_key akey]) (w b) r s -> superseded sc (<[b := s]> w).
Proof.
  intros Hw Hl Hs.
  assert (forall t, t ∈ [] :: companion_suffixes -> t ≠ SUPERSEDING_SUFFIX -> contents s (companion_key akey t)
            = contents (w b) (companion_key akey t)) as Hsame.
  { intros t Hin Hne. eapply op_step_frame; [apply Hw|done|]. intros Heq%list_elem_of_singleton.
    apply key_inj in Heq as (_ & _ & ?); [done|done|done|done|suffix_in]. }
  assert (contents s akey = contents (w b) akey) as Hb by (rewrite <- (app_nil_r akey); apply Hsame; [suffix_side|done]).
  unfold superseded, body, side, sidecar_key in *. rewrite fn_lookup_insert, Hb. by rewrite (Hsame SIDECAR_SUFFIX) by (done || suffix_side).
Qed.

Lemma holds_publish_tail sc v replace w :
  declared sc w -> torn sc w ->
  holds recoverable (fun r w' => on_ok (fun _ => settled_truth w' /\ superseded sc w') r)
    (let*? _ := install_or_verify_sidecar b (sidecar_key akey) sc in
     let*? _ := call b (DeleteKeys [superseding_key akey]) in
     let*? _ := replace_companion b (metadata_key akey) (v_metadata v) replace in
     let*? _ := replace_companion b (provenance_key akey) (v_provenance v) replace in
     let*? _ := reassert_precedence b pkg f (v_artifact v) in
     mark_dirty b pkg) w.
Proof.
  intros Hd Ht. pose proof Ht as (_ & _ & _ & bytes & Hb & Hsha). apply holds_bind_ok.
  eapply holds_conseq; [| |by eapply holds_install; [apply Hd|exact Hb|exact Hsha]].
  { intros w' Hin. destruct (installing_torn _ _ _ Hd Ht Hin) as [Hd' Ht']. split; [apply Hd'|right; by exists sc]. }
  intros r w1 Hin Hq. destruct (installing_torn _ _ _ Hd Ht Hin) as [Hd1 Ht1].
  assert (recoverable w1) as Hr1 by (split; [apply Hd1|right; by exists sc]). destruct r as [c|e]; [|done].
  assert (settled_truth w1) as Hst1.
  { pose proof Hd1 as (Hl1 & _ & _ & Hu1). pose proof Ht1 as (_ & _ & _ & bytes1 & Hb1 & Hsha1).
    split; [split; [done|]|done]. by eapply describes_attested. }
  assert (superseded sc w1) as Hsup1.
  { pose proof Ht1 as (_ & _ & _ & bytes1 & Hb1 & Hsha1). by exists bytes1. }
  apply holds_call_ok; [apply Hd1|done| |].
  2:{ intros e s Hs. split; [|done]. by eapply settled_recoverable, settled_delete_intent. }
  intros u s Hs Hw2. pose proof (settled_delete_intent _ _ _ Hst1 Hs) as Hst2.
  pose proof (superseded_delete_intent _ _ _ _ (proj1 (proj1 (proj1 Hst1))) Hsup1 Hs) as Hsup2.
  apply holds_settled_ok; [done|apply companion_frame; suffix_side|done|]. intros _ w3 Hst3 Hs3.
  apply holds_settled_ok; [done|apply companion_frame; suffix_side|done|]. intros _ w4 Hst4 Hs4.
  apply holds_bind_ok. eapply holds_mono; [|by apply holds_reassert]. intros [x|e] w5 Hr5; [|done].
  intros [Hst5 Hs5]. eapply (holds_framed _ _ _ b truth_key (fun _ => True)); [apply Hst5|apply dirty_frame| |].
  - intros w' Hw' Hs'. by eapply settled_recoverable, settled_frame.
  - intros [x'|e] w' Hw' Hs' _; [|done]. split; [by eapply settled_frame|].
    eapply superseded_frame; [exact Hsup2|]. by repeat (eapply same_on_trans; [eassumption|]).
Qed.

(** Declaring the intent over an attested, unfenced record. *)
Lemma declare_intent sc w r s :
  settled_truth w -> sc_origin sc = Some OriginState.PRIVATE ->
  op_step (PutBytes (superseding_key akey) (encode sc)) (w b) r s ->
  settled_truth (<[b := s]> w) /\ (r = Ok tt -> declared sc (<[b := s]> w)).
Proof.
  intros [[(Hw & Hr & Hi) Ha] [Ht Hf]] Ho Hs.
  assert (forall t, t ∈ [] :: companion_suffixes -> t ≠ SUPERSEDING_SUFFIX ->
    contents ((<[b := s]> w) b) (companion_key akey t) = contents (w b) (companion_key akey t)) as Hc.
  { intros t Hin Hne. rewrite fn_lookup_insert. eapply op_step_frame; [apply Hw|done|]. simpl. intros Heq.
    apply key_inj in Heq as (_ & _ & ?); [done|done|done|suffix_in|done]. }
  assert (side (<[b := s]> w) = side w) as Hside by (apply Hc; [suffix_side|done]).
  assert (body (<[b := s]> w) = body w) as Hbody.
  { unfold body. rewrite <- (app_nil_r akey). apply Hc; [suffix_side|done]. }
  assert (unfenced (<[b := s]> w)) as Hu.
  { unfold unfenced, tombstone_at, frozen_at, present, tombstone_key, frozen_key. by rewrite !Hc by (done || suffix_side). }
  assert (intent_ok (intent (<[b := s]> w))) as Hio.
  { unfold intent. rewrite fn_lookup_insert.
    destruct (op_step_effect _ _ _ _ _ (superseding_key akey) (Hw b) Hs) as [->|[_ ->]]; [done|].
    intros raw [= <-]. exists sc. by rewrite decode_encode. }
  assert (legible (<[b := s]> w)) as Hl by (split; [by eapply wf_insert|by rewrite Hside]).
  split; [split; [split; [done|]|done]|].
  - unfold attested. by rewrite Hbody, Hside.
  - intros ->. split; [done|]. split; [done|]. split; [|done]. unfold intent. rewrite fn_lookup_insert.
    by eapply put_bytes_answer.
Qed.

Lemma holds_publish src sc v w :
  settled_truth w -> sc_origin sc = Some OriginState.PRIVATE -> staged_as (sha256 sc) (v_artifact v) ->
  holds recoverable (fun r w' => on_ok (fun _ => settled_truth w' /\ superseded sc w') r) (supersede_publish src b pkg f sc v) w.
Proof.
  intros Hst Ho Hv. unfold supersede_publish. cbv zeta.
  apply holds_settled_ok; [done| |done|].
  { unfold replaces_companions. walk; by apply reads_avoids. }
  intros replace w1 Hst1 _. apply holds_call_ok; [apply Hst1|by apply settled_recoverable| |].
  2:{ intros e s Hs. split; [|done]. by apply settled_recoverable, (declare_intent sc w1 _ _ Hst1 Ho Hs). }
  intros [] s Hs Hw2. destruct (declare_intent sc w1 _ _ Hst1 Ho Hs) as [[[Hl2 Ha2] Hu2] Hd2].
  apply holds_bind_ok. eapply holds_mono; [|apply holds_supersede_body; [by apply Hd2|done|done]].
  intros [c|e] w3 Hr3; [|done]. intros (-> & Hd3 & Ht3). cbn [negb]. by apply holds_publish_tail.
Qed.

Lemma holds_calm A (Q : res A -> world -> Prop) (p : prog (res A)) w :
  calm w -> guar shrinks (fun _ => True) p -> (forall r w', calm w' -> Q r w') -> holds recoverable Q p w.
Proof.
  intros Hc Hp HQ. eapply holds_conseq; [| |by apply (guar_calm _ (fun _ => True))].
  - intros w' [Hl Ha]. split; [done|by left].
  - intros r w' Hc' _. by apply HQ.
Qed.

Lemma holds_calm_ok A B (p : prog (res A)) (k : A -> prog (res B)) (Qp : A -> Prop) (Q : res B -> world -> Prop) w :
  calm w -> guar (avoids b truth_key) (on_ok Qp) p -> (forall e w, Q (Err e) w) ->
  (forall a w', calm w' -> same_on b truth_key w w' -> Qp a -> holds recoverable Q (k a) w') ->
  holds recoverable Q (pbind_ok p k) w.
Proof.
  intros [Hl Ha] Hp He Hk. eapply (holds_frame_ok _ _ _ _ b truth_key Qp); [apply Hl|exact Hp| |done|].
  - intros w' Hw' Hs. split; [by eapply legible_frame|left; by eapply attested_frame].
  - intros a w' Hw' Hs Hq. apply Hk; [|done|done]. split; [by eapply legible_frame|by eapply attested_frame].
Qed.

(** What a supersede that returns has done: nothing over a standing fence, else
    the source's bytes stand under a sidecar that names them. *)
Definition supersede_done (w : world) (r : Record_) (w' : world) : Prop :=
  attested w' /\ (~ unfenced w \/ exists sc, source_sidecar r = Ok sc /\ superseded sc w').

Lemma holds_supersede src r source w :
  src ≠ b -> calm w ->
  holds recoverable (fun x w' => on_ok (fun _ => supersede_done w r w') x) (supersede_record src b pkg f r source) w.
Proof.
  intros Hne Hc. unfold supersede_record. cbv zeta.
  assert (forall w, calm w -> recoverable w) as Hcr by (intros ? [? ?]; by split; [|left]).
  apply (holds_calm_ok _ _ _ _ (fun _ => True)); [done| |done|].
  { apply guar_call_bind; [by apply reads_avoids|by intros []]. }
  intros _ w1 Hc1 Hs1 _. apply (holds_calm_ok _ _ _ _ (fun sc => source_sidecar r = Ok sc)); [done| |done|].
  { by destruct (source_sidecar r). }
  intros sc w2 Hc2 Hs2 Hsc. case_decide as Ho; [|by apply holds_ret; [apply Hcr|]].
  eapply holds_calm_ok; [done|eapply (guar_avoids (source_footprint src pkg f)), guar_verify_record|done|].
  { intros k [? _]. congruence. }
  intros v w3 Hc3 Hs3 (sc' & Hsc' & Hv). assert (sc' = sc) as -> by congruence.
  apply (holds_calm_ok _ _ _ _ (fun _ => True)); [done| |done|].
  { eapply guar_mono; [|eapply (guar_avoids (fun _ k => k = origin_key pkg)), touch_ensure_private; [|done]].
    - by intros [].
    - intros k ->. apply origin_not_truth. }
  intros _ w4 Hc4 Hs4 _. assert (same_on b truth_key w w4) as Hs by (by repeat (eapply same_on_trans; [eassumption|])).
  destruct (truth_same _ _ Hs) as (_ & _ & _ & Hto4 & Hfr4).
  apply holds_read_ok; [done|by apply Hcr| |done]. intros froz Hfr.
  pose proof (head_exists_answer _ _ _ _ _ Hfr eq_refl) as Haf. destruct froz.
  { assert (~ unfenced w) as Hu by (intros [_ Hn]; by apply Hn, Hfr4, Haf).
    apply holds_calm; [done|apply shrink_freeze_incoming|]. intros [x|e] w' [_ Ha']; [by split; [|left]|done]. }
  apply holds_read_ok; [done|by apply Hcr| |done]. intros tomb Hto.
  pose proof (head_exists_answer _ _ _ _ _ Hto eq_refl) as Hat. destruct tomb.
  { assert (~ unfenced w) as Hu by (intros [Hn _]; by apply Hn, Hto4, Hat).
    apply holds_calm; [done| |by intros [x|e] w' [_ Ha']; [split; [|left]|]].
    eapply (guar_bind_ok _ _ _ (fun _ => True)); [apply shrink_tombstone|intros [] _; [apply shrink_dirty|done]|done]. }
  eapply holds_mono; [|apply holds_publish; [split; [done|]|done|done]].
  - intros [x|e] w' _; [|done]. intros [[[_ Ha'] _] Hsup]. split; [done|]. right. by exists sc.
  - split; [intros Ht; by apply Hat in Ht|intros Hz; by apply Haf in Hz].
Qed.

(** ** The pass over the intents *)

Lemma run_read_op v w c R (o : op R) : is_read o = true -> run v w (call c o) = (w, (op_run v (w c) o).2).
Proof. intros Hr. rewrite run_call, (is_read_run _ _ _ _ Hr). by rewrite fn_insert_id. Qed.

Lemma run_get_optional v w c key : run v w (get_optional c key) = (w, Ok (contents (w c) key)).
Proof.
  unfold get_optional. rewrite run_bind, run_read_op by done. cbn [op_run fst snd run]. unfold contents.
  by destruct (objects (w c) !! key).
Qed.

(** Installing over matching bytes always goes through. *)
Lemma run_install v w sc bytes :
  good_env v -> sc_origin sc = Some OriginState.PRIVATE -> legible w ->
  body w = Some bytes -> sha256_hex bytes = sha256 sc ->
  exists c, (run v w (install_or_verify_sidecar b (sidecar_key akey) sc)).2 = Ok c.
Proof.
  intros Hv Ho (Hw & Hr & _) Hb Hsha. unfold install_or_verify_sidecar. rewrite decide_True by done.
  unfold sidecar_key at 1, companion_key at 1. rewrite strip_suffix_app. cbn [install_loop ORIGIN_ATTEMPTS].
  rewrite run_bind_ok, run_read_op by done. cbn [op_run fst snd].
  unfold side, readable, contents in Hr. destruct (objects (w b) !! sidecar_key akey) as [obj|] eqn:Hobj; cbn [fmap option_fmap option_map] in *.
  2:{ rewrite run_bind_ok, run_call. cbn [op_run]. rewrite Hobj. cbn [fst snd run]. by exists true. }
  destruct (Hr _ eq_refl) as (current & Hdec & Hok).
  case_decide; [by exists false|]. unfold parse_sidecar. rewrite Hdec. rewrite run_bind_ok. cbn [run fst snd].
  rewrite Hok. cbn [negb]. rewrite run_bind_ok, run_get_optional. cbn [fst snd]. fold (body w). rewrite Hb.
  cbn [body_matches]. rewrite (bool_decide_eq_true_2 _ Hsha), orb_true_r. cbn [orb].
  assert (forall k, exists c, (run v w (let*? put := call b (PutIfMatch (sidecar_key akey) (obj_etag obj) (encode sc)) in
      match put with Some _ => Ret (Ok true) | None => k end)).2 = Ok c) as Hput.
  { intros k. rewrite run_bind_ok, run_call. cbn [op_run]. rewrite Hobj, decide_True by done. by exists true. }
  case_decide; [|apply Hput]. case_bool_decide; cbn [negb]; [apply Hput|by exists false].
Qed.

Lemma run_installs v w sc bytes :
  good_env v -> sc_origin sc = Some OriginState.PRIVATE -> legible w ->
  body w = Some bytes -> sha256_hex bytes = sha256 sc ->
  exists c w', run v w (install_or_verify_sidecar b (sidecar_key akey) sc) = (w', Ok c) /\ calm w'
    /\ body w' = body w /\ describes (side w') (sha256 sc).
Proof.
  intros Hv Ho Hl Hb Hsha. destruct (run_install v w sc bytes Hv Ho Hl Hb Hsha) as [c Hc].
  destruct (run v w _) as [w' r] eqn:Hrun. cbn [snd] in Hc. subst r. exists c, w'. split; [done|].
  pose proof (exec_run _ v w (install_or_verify_sidecar b (sidecar_key akey) sc) Hv) as He. rewrite Hrun in He.
  pose proof (holds_install sc w bytes (proj1 Hl) Hb Hsha) as Hh.
  eapply (holds_conseq _ _ (fun _ => True) _
    (fun r w' => installing sc w w' /\ on_ok (fun _ => describes (side w') (sha256 sc)) r)) in Hh; [|done|auto].
  destruct (holds_exec _ _ _ _ _ _ _ Hh He) as [(Hw' & Hs & _) Hd]. cbn [fst snd on_ok] in *.
  assert (forall t, t ∈ [] :: companion_suffixes -> t ≠ SIDECAR_SUFFIX ->
    contents (w' b) (companion_key akey t) = contents (w b) (companion_key akey t)) as Hc.
  { intros t Ht Hne. apply Hs. intros Heq. apply key_inj in Heq as (_ & _ & ?); [done|done|done|done|suffix_in]. }
  assert (intent w' = intent w) as Hint by (apply Hc; [suffix_side|done]).
  assert (body w' = body w) as Hbody.
  { unfold body. rewrite <- (app_nil_r akey). apply Hc; [suffix_side|done]. }
  split; [|done]. destruct Hl as (_ & _ & Hi). split; [split; [done|split; [|by rewrite Hint]]|].
  - destruct Hd as (raw & sc' & -> & Hdec & _ & Hok). intros raw' [= <-]. by exists sc'.
  - eapply describes_attested; [by rewrite Hbody|exact Hsha|done].
Qed.

(** What a pass over the intents does to a record: the body stays, a sidecar
    that stood still stands, and bytes the intent names, unfenced, have one that
    names them. *)
Definition mended (w w' : world) : Prop :=
  body w' = body w /\ (is_Some (side w) -> is_Some (side w'))
  /\ forall raw sc bytes, unfenced w -> intent w = Some raw -> decode raw = Some sc -> body w = Some bytes ->
     sha256 sc = sha256_hex bytes -> describes (side w') (sha256_hex bytes).

Lemma run_finish_one v w now grace st e raw :
  good_env v -> recoverable w -> intent w = Some raw -> entry_key e = superseding_key akey ->
  exists st' w', run v w (finish_one b now grace st e) = (w', Ok st') /\ calm w' /\ mended w w'
    /\ (st'.2 = st.2 \/ exists a, st'.2 = st.2 ++ [a] /\ a_marker a = superseding_key akey).
Proof.
  intros Hv [Hl Hst] Hraw He. pose proof Hl as (Hw & Hr & Hi). destruct (Hi raw Hraw) as (intended & Hdec & Ho).
  unfold finish_one. cbv zeta. rewrite He. unfold superseding_key at 1, companion_key at 1. rewrite strip_suffix_app.
  rewrite run_bind_ok, run_get_optional. cbn [fst snd]. fold (intent w). rewrite Hraw.
  unfold parse_sidecar. rewrite Hdec, run_bind_ok. cbn [run fst snd].
  rewrite run_bind_ok, run_read_op by done. cbn [op_run fst snd].
  rewrite run_bind_ok, run_read_op by done. cbn [op_run fst snd].
  set (tomb := bool_decide (is_Some (objects (w b) !! tombstone_key akey))).
  set (froz := bool_decide (is_Some (objects (w b) !! frozen_key akey))).
  assert (tomb || froz = false \/ attested w) as Hfence.
  { destruct Hst as [?|(sc & _ & _ & [Hnt Hnf] & _)]; [by right|]. left. unfold tombstone_at, frozen_at, present, contents in *.
    rewrite fmap_is_Some in *. unfold tomb, froz. by rewrite !bool_decide_eq_false_2. }
  rewrite run_bind_ok.
  assert (run v w (if tomb || froz then Ret (Ok None) else
            let* r := stream_sha256 b akey in
            Ret (match r with Ok h => Ok (Some h.1) | Err e => if is_not_found e then Ok None else Err e end))
          = (w, Ok (if tomb || froz then None else sha256_hex <$> body w))) as ->.
  { destruct (tomb || froz); [done|]. unfold stream_sha256. rewrite run_bind, run_bind_ok, run_read_op by done.
    cbn [op_run fst snd]. unfold body, contents. destruct (objects (w b) !! akey); cbn [run fst snd]; [|done].
    by rewrite hash_chunks_spec, chunks_concat. }
  cbn [fst snd]. set (sha := if tomb || froz then None else _).
  cbn [classify_marked_record install retire]. rewrite run_bind_ok. case_bool_decide as Hinst.
  - unfold sha in Hinst. destruct (tomb || froz); [done|]. destruct (body w) as [bytes|] eqn:Hb; [|done].
    injection Hinst as Hsha. destruct (run_installs v w intended bytes Hv Ho Hl Hb Hsha) as (c & w' & Hrun & Hcalm & Hb' & Hd').
    rewrite run_bind_ok, Hrun. cbn [run fst snd]. eexists _, w'. split; [done|]. split; [done|]. split.
    + split; [done|]. split; [intros _; destruct Hd' as (? & ? & -> & _); eauto|].
      intros raw' sc' bytes' _ _ _ Hb2 _. rewrite Hb in Hb2. injection Hb2 as <-. by rewrite Hsha.
    + cbn [snd]; repeat case_match; first [by left|right; eexists; by split].
  - cbn [run fst snd]. eexists _, w. split; [done|]. split; [split; [done|]|split].
    2:{ split; [done|]. split; [done|]. intros raw' sc' bytes' [Hnt Hnf] Hraw' Hdec' Hb' Hsha'. exfalso. apply Hinst.
        rewrite Hraw in Hraw'. injection Hraw' as <-. rewrite Hdec in Hdec'. injection Hdec' as <-. unfold sha, tomb, froz.
        unfold tombstone_at, frozen_at, present, contents in Hnt, Hnf. rewrite fmap_is_Some in Hnt, Hnf.
        rewrite !bool_decide_eq_false_2 by done. cbn [orb]. rewrite Hb'. cbn. by rewrite Hsha'. }
    2:{ cbn [snd]; repeat case_match; first [by left|right; eexists; by split]. }
    destruct Hst as [?|(sc & _ & Hint & _ & bytes & Hb & Hsha)]; [done|].
    destruct Hfence as [Hf|Ha]; [exfalso|exact Ha]. rewrite Hraw in Hint. injection Hint as ->.
    rewrite decode_encode in Hdec. injection Hdec as <-. unfold sha in Hinst. rewrite Hf, Hb in Hinst.
    apply Hinst. cbn. by rewrite Hsha.
Qed.

(** The intent as the rebuild's listing has it. *)
Definition intent_entries (w : world) : list FileEntry :=
  entry_of <$> list_where (fun k => bool_decide (k = superseding_key akey)) (w b).

Lemma intent_entries_spec w :
  intent_entries w = [] /\ intent w = None
  \/ exists e raw, intent_entries w = [e] /\ intent w = Some raw /\ entry_key e = superseding_key akey.
Proof.
  unfold intent_entries, intent, contents. set (key := superseding_key akey).
  assert (forall p, p ∈ list_where (fun k => bool_decide (k = key)) (w b) -> p.1 = key /\ objects (w b) !! key = Some p.2) as Hin.
  { intros p [Hk Ho]%elem_of_list_where. apply bool_decide_eq_true in Hk. by rewrite <- Hk. }
  destruct (objects (w b) !! key) as [obj|] eqn:Hobj.
  - right. assert (list_where (fun k => bool_decide (k = key)) (w b) = [(key, obj)]) as ->.
    { apply Permutation_singleton_r, NoDup_Permutation; [|apply NoDup_singleton|].
      - unfold list_where. rewrite merge_sort_Permutation. apply NoDup_filter, NoDup_map_to_list.
      - intros p. rewrite elem_of_list_where, list_elem_of_singleton, bool_decide_eq_true. destruct p as [k o]. cbn [fst snd].
        split; [intros [-> ?]; congruence|by intros [= -> ->]]. }
    by eexists _, _.
  - left. split; [|done]. destruct (list_where _ (w b)) as [|p l] eqn:Hl; [done|].
    destruct (Hin p) as [_ ?]; [left|done].
Qed.

Lemma mended_retire w w' v keys : mended w w' -> wf_world w' -> Forall (fun k => k = superseding_key akey) keys ->
  mended w (<[b := (op_run v (w' b) (DeleteKeys keys)).1]> w').
Proof.
  intros (Hb & Hs & Hd) Hw' Hk.
  assert (forall t, t ∈ [] :: companion_suffixes -> t ≠ SUPERSEDING_SUFFIX ->
    contents ((<[b := (op_run v (w' b) (DeleteKeys keys)).1]> w') b) (companion_key akey t) = contents (w' b) (companion_key akey t)) as Hc.
  { intros t Ht Hne. rewrite fn_lookup_insert. cbn [op_run fst]. rewrite contents_delete_all, decide_False; [done|].
    intros Hin. rewrite Forall_forall in Hk. apply Hk in Hin. apply key_inj in Hin as (_ & _ & ?); [done|done|done|done|suffix_in]. }
  assert (body (<[b := (op_run v (w' b) (DeleteKeys keys)).1]> w') = body w') as Hb'
    by (unfold body; rewrite <- (app_nil_r akey); apply Hc; [suffix_side|done]).
  assert (side (<[b := (op_run v (w' b) (DeleteKeys keys)).1]> w') = side w') as Hs' by (apply Hc; [suffix_side|done]).
  unfold mended. by rewrite Hb', Hs'.
Qed.

Lemma run_finish v w grace :
  good_env v -> recoverable w ->
  exists n w', run v w (finish_interrupted_supersedes b pkg (intent_entries w) grace) = (w', Ok n) /\ attested w' /\ mended w w'.
Proof.
  intros Hv Hrec. unfold finish_interrupted_supersedes. rewrite run_bind, run_read_op by done. cbn [op_run fst snd].
  destruct (intent_entries_spec w) as [[-> Hi]|(e & raw & -> & Hi & He)].
  - rewrite run_bind_ok. cbn [pfor run fst snd]. exists 0%nat, w. split; [done|]. split.
    + destruct Hrec as [_ [?|(sc & _ & Hi' & _)]]; [done|congruence].
    + split; [done|]. split; [done|]. intros raw sc bytes _ Hraw. congruence.
  - destruct (run_finish_one v w (env_now v) grace (0%nat, []) e raw Hv Hrec Hi He) as (st & w' & Hrun & Hc & Hm & Hst).
    rewrite run_bind_ok. cbn [pfor]. rewrite run_bind_ok, Hrun. cbn [run fst snd].
    assert (Forall (fun a => a_marker a = superseding_key akey) st.2) as Hall.
    { cbn [snd app] in Hst. destruct Hst as [->|(x & -> & Hx)]; by repeat constructor. }
    destruct (st.2) as [|a l] eqn:Hans; [exists st.1, w'; by split; [|split; [apply Hc|]]|]. rewrite <- Hans in *.
    rewrite run_bind_ok, run_read_op by done. cbn [op_run fst snd].
    destruct (a_marker <$> _) as [|k ks] eqn:Hk; [exists st.1, w'; by split; [|split; [apply Hc|]]|].
    rewrite run_bind_ok, run_call. cbn [fst snd run]. eexists _, _. split; [done|]. split.
    + apply (calm_shrink w' b _ (DeleteKeys (k :: ks)) (Ok tt)); [done|shrink_op|].
      exact (op_succeeds (DeleteKeys (k :: ks)) (w' b) v Hv).
    + apply mended_retire; [done|apply Hc|]. rewrite <- Hk. apply Forall_fmap, Forall_forall. intros x Hx. cbn.
      apply list_elem_of_In, filter_In in Hx as [Hx _]. rewrite Forall_forall in Hall. by apply Hall, list_elem_of_In.
Qed.

(** ** A streamed copy *)

(** The sidecar slot is empty or holds the copy's own sidecar. *)
Definition slot (sc : Sidecar) (w w' : world) : Prop :=
  wf_world w' /\ same_on b (fun k => k ≠ sidecar_key akey) w w'
  /\ (side w' = None \/ side w' = Some (encode sc)).

Lemma slot_create sc w w' r s :
  slot sc w w' -> op_step (PutIfAbsent (sidecar_key akey) (encode sc)) (w' b) r s -> slot sc w (<[b := s]> w').
Proof.
  intros (Hw & Hs & Hd) Hstep. split; [by eapply wf_insert|]. split.
  - eapply same_on_trans; [exact Hs|]. eapply same_on_step; [done| |done]. intros _ k Hk Hn. simpl in Hn. by subst.
  - unfold side in *. rewrite fn_lookup_insert.
    destruct (op_step_effect _ _ _ _ _ (sidecar_key akey) (Hw b) Hstep) as [->|(_ & _ & ->)]; [done|by right].
Qed.

(** Both installers over an empty or own slot: create, or find it done. *)
Lemma holds_slot_loop (loop : nat -> prog (res bool)) other sc w :
  (forall n, loop (S n) =
    (let*? read := call b (GetWithEtag (sidecar_key akey)) in
     match read with
     | None =>
       let*? created := call b (PutIfAbsent (sidecar_key akey) (encode sc)) in
       if created : bool then Ret (Ok true) else loop n
     | Some (current_bytes, etag) =>
       if decide (current_bytes = encode sc) then Ret (Ok false) else other n current_bytes etag
     end)) ->
  (forall w', slot sc w w' -> holds (slot sc w) (fun r w' => on_ok (fun _ => side w' = Some (encode sc)) r) (loop 0%nat) w') ->
  forall n w', slot sc w w' ->
  holds (slot sc w) (fun r w' => on_ok (fun _ => side w' = Some (encode sc)) r) (loop n) w'.
Proof.
  intros Hstep H0 n. induction n as [|n IH]; intros w' Hw'; [by apply H0|]. rewrite Hstep.
  apply holds_read_ok; [done|done| |done]. intros read Hread.
  pose proof (get_with_etag_answer _ _ _ _ _ Hread eq_refl) as Ha. pose proof Hw' as (_ & _ & Hd).
  destruct read as [[raw etag]|]; cbn [fmap option_fmap option_map fst] in Ha.
  - unfold side in Hd. rewrite <- Ha in Hd. destruct Hd as [?|[= ->]]; [done|]. rewrite decide_True by done.
    apply holds_ret; [done|]. by unfold side.
  - apply holds_call_ok; [apply Hw'|done| |intros e s Hs; by split; [eapply slot_create|]].
    intros [] s Hs Hw1; [|by apply IH; eapply slot_create]. apply holds_ret; [by eapply slot_create|].
    unfold side. rewrite fn_lookup_insert. by apply (put_if_absent_created _ _ _ _ _ Hs eq_refl).
Qed.

Lemma holds_slot (is_mirror : bool) sc w :
  wf_world w -> side w = None ->
  holds (slot sc w) (fun r w' => on_ok (fun _ => side w' = Some (encode sc)) r)
    (if is_mirror then install_or_verify_mirror_sidecar b (sidecar_key akey) sc
     else install_or_verify_sidecar b (sidecar_key akey) sc) w.
Proof.
  intros Hw Hs. assert (slot sc w w) as Hslot by (split; [done|]; split; [apply same_on_refl|by left]).
  destruct is_mirror; [unfold install_or_verify_mirror_sidecar|unfold install_or_verify_sidecar];
    (case_decide; [|by apply holds_ret]);
    unfold sidecar_key at 1, companion_key at 1; rewrite strip_suffix_app.
  - eapply (holds_slot_loop (fun n => install_mirror_loop n b (sidecar_key akey) akey sc));
      [by intros n|intros w' Hw'; by apply holds_ret|done].
  - eapply (holds_slot_loop (fun n => install_loop n b (sidecar_key akey) akey sc));
      [by intros n|intros w' Hw'; by apply holds_ret|done].
Qed.

Lemma slot_attested sc w w' bytes :
  slot sc w w' -> body w = Some bytes -> sha256_hex bytes = sha256 sc -> attested w' /\ body w' = Some bytes.
Proof.
  intros (Hw' & Hs & Hd) Hb Hsha. assert (body w' = Some bytes) as Hb'.
  { unfold body in *. rewrite Hs; [done|]. intros Heq. rewrite <- (app_nil_r akey) in Heq at 1.
    apply (key_inj _ _ []) in Heq as (_ & _ & Heq); [done|done|done|by left|suffix_in]. }
  split; [|done]. intros bytes' raw sc' Hb2 Hraw Hdec. destruct Hd as [Hd|Hd]; rewrite Hd in Hraw; [done|].
  injection Hraw as <-. rewrite decode_encode in Hdec. injection Hdec as <-. congruence.
Qed.

(** No sidecar: nothing is claimed about the bytes. *)
Definition bare_slot (w : world) : Prop := wf_world w /\ side w = None.

Lemma bare_attested w : bare_slot w -> attested w.
Proof. intros [_ Hs] bytes raw sc _ Hraw. by rewrite Hs in Hraw. Qed.

Lemma bare_step w c R (o : op R) r s :
  bare_slot w -> (c = b -> ~ puts_key o (sidecar_key akey)) -> op_step o (w c) r s -> bare_slot (<[c := s]> w).
Proof.
  intros [Hw Hs] Ho Hstep. split; [by eapply wf_insert|]. unfold side in *.
  destruct (decide (c = b)) as [->|Hne]; [|by rewrite fn_lookup_insert_ne]. rewrite fn_lookup_insert.
  destruct (op_step_effect _ _ _ _ _ (sidecar_key akey) (Hw b) Hstep) as [->|He]; [done|].
  specialize (Ho eq_refl). destruct o; simpl in *; naive_solver.
Qed.

Lemma guar_bare A (Q : A -> Prop) (p : prog A) w :
  bare_slot w -> guar shrinks Q p -> holds bare_slot (fun a _ => Q a) p w.
Proof.
  revert w. induction p as [a|R c o k IH]; intros w Hc Hp; [done|]. destruct Hp as [Ho Hk]. split; [done|].
  intros r s Hs. apply IH; [eapply bare_step; [done| |done]|].
  - intros ->. apply Ho; [done|suffix_side].
  - apply Hk. eapply op_step_sound; [apply Hc|done].
Qed.

Lemma shrink_race src : guar shrinks (fun _ => True) (freeze_copy_race src b pkg f).
Proof.
  unfold freeze_copy_race, mark_intent, mark_intent_with_nonce, mark_commit, put_marker.
  eapply (guar_bind_ok _ _ _ (fun _ => True)); [walk; shrink_op|intros n _|done].
  eapply (guar_bind _ _ _ (fun _ => True)); [|intros r _; walk; shrink_op].
  eapply (guar_bind_ok _ _ _ (fun _ => True)); [apply shrink_freeze|intros _ _|done].
  eapply (guar_bind_ok _ _ _ (fun _ => True)); [apply shrink_freeze|intros _ _; apply shrink_dirty|done].
Qed.

(** Once the marker of a freeze is written nothing of the freeze removes it. *)
Lemma holds_freezes w :
  wf_world w -> holds wf_world (fun r w' => on_ok (fun _ => frozen_at pkg f (w' b)) r) (freeze_side b pkg f) w.
Proof.
  intros Hw. unfold freeze_side, write_frozen_marker. cbv zeta.
  apply holds_call_ok; [done|done| |intros e s Hs; by split; [eapply wf_insert|]]. intros created s Hs Hw1.
  pose proof (put_if_absent_present _ _ _ _ _ _ Hs eq_refl) as Hp.
  eapply (holds_framed _ _ _ b (fun k => k = frozen_key akey) (fun _ => True)); [done| |by intros w' Hw' _|].
  - assert (forall k t, t ∈ [] :: companion_suffixes -> t ≠ FROZEN_SUFFIX -> k = companion_key akey t -> ~ k = frozen_key akey) as Hother.
    { intros k t Ht Hne -> Heq. apply key_inj in Heq as (_ & _ & ?); [done|done|done|done|suffix_in]. }
    set (F := fun (c : nat) k => k ≠ frozen_key akey). apply (guar_avoids F); [done|].
    eapply (guar_bind_ok _ _ _ (fun _ => True)); [apply touch_quarantine; by intros sha|intros _ _|done].
    eapply (guar_bind_ok _ _ _ (fun _ => True)); [|intros _ _|done].
    { unfold tombstone_write. walk. intros k <-. by eapply (Hother _ TOMBSTONE_SUFFIX); [suffix_side|done|]. }
    unfold drop_record_objects. walk. intros k Hk. rewrite drop_keys_suffixes in Hk.
    apply list_elem_of_fmap in Hk as (t & -> & Ht). eapply (Hother _ t); [| |done].
    + revert t Ht. apply Forall_forall. suffix_side.
    + intros ->. by apply (bool_decide_pack _) in Ht.
  - intros [x|e] w' Hw' Hsame _; [|done]. unfold frozen_at, present. rewrite Hsame by done. by rewrite fn_lookup_insert.
Qed.

Lemma holds_race src w :
  src ≠ b -> wf_world w ->
  holds wf_world (fun r w' => on_ok (fun _ => frozen_at pkg f (w' b)) r) (freeze_copy_race src b pkg f) w.
Proof.
  intros Hne Hw. unfold freeze_copy_race.
  assert (forall A (p : prog (res A)) w, wf_world w -> guar (avoids b (fun k => k = frozen_key akey)) (fun _ => True) p ->
    holds wf_world (fun r w' => wf_world w' /\ same_on b (fun k => k = frozen_key akey) w w') p w) as Hframe.
  { intros A p w0 Hw0 Hp. eapply holds_framed; [done|exact Hp|by intros|]. by intros. }
  assert (forall A (p : prog A), guar (touches (fun c _ => c = src)) (fun _ => True) p ->
    guar (avoids b (fun k => k = frozen_key akey)) (fun _ => True) p) as Hsrc.
  { intros A p. apply guar_avoids. intros k Hk. congruence. }
  apply holds_bind_ok. eapply holds_mono; [|apply Hframe; [done|apply Hsrc, touch_mark_intent; done]].
  intros r w1 _ [Hw1 _]. destruct r as [n|e]; [|done]. apply holds_bind.
  eapply (holds_mono _ _ (fun r w' => wf_world w' /\ on_ok (fun _ => frozen_at pkg f (w' b)) r)).
  { intros r w2 _ [Hw2 Hr]. apply holds_bind. eapply holds_mono; [|apply Hframe; [done|apply Hsrc, touch_mark_commit; done]].
    intros x w3 Hw3 [_ Hs3]. apply holds_ret; [done|]. destruct r as [u|e]; [|done]. cbn [on_ok] in *.
    unfold frozen_at, present in *. by rewrite Hs3. }
  eapply holds_mono; [intros r w' Hw' Hr; exact (conj Hw' Hr)|].
  apply holds_bind_ok. eapply holds_mono; [|apply Hframe; [done|apply Hsrc, touch_freeze_side; done]].
  intros r w2 _ [Hw2 _]. destruct r as [x|e]; [|done]. apply holds_bind_ok.
  eapply holds_mono; [|by apply holds_freezes]. intros [y|e] w3 Hw3; [|done]. intros Hfz.
  eapply (holds_framed _ _ _ b (fun k => k = frozen_key akey) (fun _ => True));
    [done|eapply (guar_avoids (fun _ k => exists n s, k = marker_key pkg n s)), touch_mark_dirty| |].
  - by intros k (n' & t & ->).
  - intros n' t. by exists n', t.
  - by intros.
  - intros [u|e] w4 Hw4 Hs4 _; [|done]. cbn [on_ok] in *. unfold frozen_at, present in *. by rewrite Hs4.
Qed.

(** Asking an absent sidecar. *)
Lemma holds_says_bare I (Q : res bool -> world -> Prop) ask w :
  I w -> side w = None -> Q (Ok false) w -> (forall e, Q (Err e) w) ->
  holds I Q (sidecar_says b (sidecar_key akey) ask) w.
Proof.
  intros HI Hs Hf He. split; [done|]. intros r s Hstep.
  pose proof (op_step_read _ _ _ _ _ (eq_refl : is_read (GetBytes _) = true) Hstep) as ->. rewrite fn_insert_id.
  destruct r as [raw|e].
  - pose proof (get_bytes_answer _ _ _ _ _ Hstep eq_refl) as Ha. unfold side in Hs. by rewrite Hs in Ha.
  - rewrite pbind_ret. destruct (is_not_found e); by apply holds_ret.
Qed.

Lemma holds_repair_bare sc a w :
  bare_slot w ->
  holds bare_slot (fun r w' => w' = w /\ on_ok (fun c => c = false) r) (repair_debris b pkg f sc a) w.
Proof.
  intros Hb. unfold repair_debris. cbv zeta. apply holds_read_ok; [done|done| |done].
  intros [[current etag]|] _; [|by apply holds_ret]. case_decide; [by apply holds_ret|].
  apply holds_bind_ok, holds_says_bare; [done|apply Hb|by apply holds_ret|done].
Qed.

Definition landed (sc : Sidecar) (w : world) : Prop :=
  bare_slot w /\ exists bytes, body w = Some bytes /\ sha256_hex bytes = sha256 sc.

Definition leg_done (sc : Sidecar) (r : res ArtifactLeg) (w : world) : Prop :=
  on_ok (fun leg => match leg with Landed _ => landed sc w | LegFrozen => frozen_at pkg f (w b) end) r.

Lemma bare_put_body w r s content :
  bare_slot w -> op_step (PutIfAbsent akey content) (w b) r s -> bare_slot (<[b := s]> w).
Proof.
  intros Hb Hs. eapply bare_step; [done| |done]. intros _ Heq. simpl in Heq. rewrite <- (app_nil_r akey) in Heq at 1.
  apply (key_inj _ _ []) in Heq as (_ & _ & Heq); [done|done|done|by left|suffix_in].
Qed.

Lemma holds_leg_bare src sc a w :
  src ≠ b -> bare_slot w -> staged_as (sha256 sc) a ->
  holds bare_slot (leg_done sc) (artifact_leg src b pkg f sc a false) w.
Proof.
  intros Hne Hb [Hsha Hlen]. unfold artifact_leg. cbv zeta. apply holds_bind_ok.
  eapply holds_mono; [|by apply holds_repair_bare]. intros r w1 _ [-> Hr]. destruct r as [changed|e]; [|done].
  unfold create_artifact_verified. apply holds_bind_ok, holds_call_ok; [apply Hb|done| |].
  2:{ intros e s Hs. pose proof (bare_put_body _ _ _ _ Hb Hs). by split; [|split]. }
  intros [] s Hs Hw1; pose proof (bare_put_body _ _ _ _ Hb Hs) as Hb1.
  - pose proof (put_if_absent_created _ _ _ _ _ Hs eq_refl) as Hput.
    assert (landed sc (<[b := s]> w)) as Hland.
    { split; [done|]. exists (staged_content a). unfold body. by rewrite fn_lookup_insert. }
    unfold verify_stored_size. apply holds_bind_ok, holds_bind, holds_size_check; [done|]. intros c _.
    apply holds_ret; [done|]. destruct c; [|by split..]. by apply holds_ret; [|apply holds_ret].
  - destruct (put_if_absent_taken _ _ _ _ _ Hs eq_refl) as [-> Hp]. rewrite fn_insert_id in *.
    apply holds_ret; [done|]. apply holds_read_ok; [done|done| |done]. intros raced Hraced.
    pose proof (get_bytes_answer _ _ _ _ _ Hraced eq_refl) as Hbody.
    case_decide as Hrs; [apply holds_ret; [done|]; split; [done|by exists raced]|]. cbn [negb].
    apply holds_bind_ok, holds_says_bare; [done|apply Hb| |done].
    apply holds_bind_ok. eapply holds_conseq; [| |eapply holds_and; [apply (guar_bare _ (fun _ => True)); [done|apply shrink_race]|by apply (holds_race src)]].
    + by intros w' [? _].
    + intros [u|e] w' [Hb' _] [_ Hq]; [|done]. by apply holds_ret.
Qed.

Lemma bare_frame w w' : bare_slot w -> wf_world w' -> same_on b truth_key w w' -> bare_slot w'.
Proof. intros [_ Hs] Hw' Hsame. destruct (truth_same _ _ Hsame) as (_ & Hd & _). split; [done|]. by rewrite Hd. Qed.

(** The finished copy. *)
Definition copied (sc : Sidecar) (w : world) : Prop :=
  side w = Some (encode sc) /\ exists bytes, body w = Some bytes /\ sha256_hex bytes = sha256 sc.

Lemma copied_attested sc w : copied sc w -> attested w.
Proof.
  intros (Hs & bytes & Hb & Hsha) bytes' raw sc' Hb' Hs' Hd. rewrite Hs in Hs'. injection Hs' as <-.
  rewrite decode_encode in Hd. congruence.
Qed.

Lemma copied_frame sc w w' : copied sc w -> same_on b truth_key w w' -> copied sc w'.
Proof. intros Hc Hs. destruct (truth_same _ _ Hs) as (Hb & Hd & _). unfold copied. by rewrite Hb, Hd. Qed.

Lemma companions_frame c changed x :
  guar (avoids b truth_key) (fun _ => True) (put_companions changed c akey x).
Proof.
  eapply (guar_avoids (fun _ k => k = metadata_key akey \/ k = provenance_key akey)), touch_put_companions;
    [|by left|by right]. intros k [->| ->]; apply companion_not_truth; suffix_side.
Qed.

Lemma holds_copy_truth sc c changed m n w :
  landed sc w ->
  holds attested (fun r w' => on_ok (fun _ => copied sc w') r) (copy_truth b akey sc c changed m n) w.
Proof.
  intros (Hb & bytes & Hbody & Hsha). pose proof (bare_attested _ Hb) as Ha. pose proof Hb as [Hw Hs].
  unfold copy_truth. apply holds_read_ok; [done|done| |done]. intros [sz|] _; [|by apply holds_ret].
  destruct (sz =? n); [|by apply holds_ret]. unfold or_changed. apply holds_bind_ok, holds_bind_ok.
  eapply holds_conseq; [| |by apply (holds_slot m sc w)].
  { intros w' Hslot. by destruct (slot_attested _ _ _ _ Hslot Hbody Hsha). }
  intros r w1 Hslot Hq. destruct (slot_attested _ _ _ _ Hslot Hbody Hsha) as [Ha1 Hb1].
  destruct r as [x|e]; [|by split; [split|]]. cbn [on_ok] in Hq. assert (copied sc w1) as Hc by (split; [done|by exists bytes]).
  apply holds_ret; [done|]. eapply (holds_framed _ _ _ b truth_key (fun _ => True)); [apply Hslot|apply companions_frame| |].
  - intros w' _ Hs'. by eapply copied_attested, copied_frame.
  - intros [y|e] w' _ Hs' _; [|done]. by eapply copied_frame.
Qed.

(** A part that names no truth key, before the copy has written anything. *)
Lemma holds_bare_ok A B (p : prog (res A)) (k : A -> prog (res B)) (Qp : A -> Prop) (Q : res B -> world -> Prop) w :
  bare_slot w -> guar (avoids b truth_key) (on_ok Qp) p -> (forall e w, Q (Err e) w) ->
  (forall a w', bare_slot w' -> Qp a -> holds attested Q (k a) w') -> holds attested Q (pbind_ok p k) w.
Proof.
  intros Hb Hp He Hk. eapply (holds_frame_ok _ _ _ _ b truth_key Qp); [apply Hb|exact Hp| |done|].
  - intros w' Hw' Hs. by eapply bare_attested, bare_frame.
  - intros a w' Hw' Hs Hq. apply Hk; [|done]. by eapply bare_frame.
Qed.

Lemma claim_frame m : guar (avoids b truth_key) (on_ok (fun _ => True)) (claim_destination b pkg m).
Proof.
  eapply guar_mono; [|eapply (guar_avoids (fun _ k => k = origin_key pkg)); [intros k ->; apply origin_not_truth|]].
  - by intros [].
  - unfold claim_destination. destruct m; [|by apply touch_ensure_private].
    eapply (guar_bind_ok _ _ _ (fun _ => True)); [by apply touch_ensure_mirror|by intros []|done].
Qed.

Lemma holds_copy_live src r source w :
  src ≠ b -> copy_allowed b src = false -> bare_slot w ->
  holds attested
    (fun x w' => on_ok (fun _ => frozen_at pkg f (w' b) \/ exists sc, source_sidecar r = Ok sc /\ copied sc w') x)
    (copy_live src b pkg f r source) w.
Proof.
  intros Hne Hc Hb. unfold copy_live. cbv zeta. rewrite Hc.
  apply (holds_bare_ok _ _ _ _ (fun sc => source_sidecar r = Ok sc)); [done|by destruct (source_sidecar r)|done|].
  intros sc w1 Hb1 Hsc. apply (holds_bare_ok _ _ _ _ (fun _ => True)); [done| |done|].
  { eapply guar_mono; [|eapply (guar_avoids (fun _ _ => False)), touch_companions; done]. by intros []. }
  intros c w2 Hb2 _.
  eapply holds_bare_ok; [done|eapply (guar_avoids (source_footprint src pkg f)), guar_verify_artifact|done|].
  { intros k [? _]. congruence. }
  intros a w3 Hb3 (sc' & Hsc' & Hstaged). assert (sc' = sc) as -> by congruence.
  apply (holds_bare_ok _ _ _ _ (fun _ => True)); [done| |done|].
  { eapply (guar_bind_ok _ _ _ (fun _ => True)); [|intros _ _; apply claim_frame|done].
    apply guar_call_bind; [by apply reads_avoids|by intros []]. }
  intros _ w4 Hb4 _. unfold copy_streamed. apply holds_bind_ok.
  eapply holds_conseq; [| |by apply (holds_leg_bare src)]; [apply bare_attested|].
  intros [[changed|]|e] w5 Hb5 Hq; [| |by split; [|apply bare_attested]]; cbn [leg_done on_ok] in Hq.
  - eapply holds_mono; [|by apply holds_copy_truth]. intros [x|e] w6 _ Hq6; [|done]. right. by exists sc.
  - apply holds_ret; [by apply bare_attested|by left].
Qed.

(** C4: a supersede that dies at any point is completed. From a bucket whose
    record is attested and legible, at every moment of superseding it (each
    storage operation succeeding, failing, or failing after its effect), the
    next rebuild's pass over the intent markers returns; it leaves the body as it
    finds it, loses no sidecar, puts a sidecar that names the standing bytes over
    them wherever the intent names those bytes and no fence stands, and no sidecar
    then names other bytes than it stands over. A supersede that returns has
    either found a fence or left the source's bytes under a sidecar that names
    them. *)
Theorem supersede_crash_heals src r source w :
  src ≠ b -> calm w ->
  holds
    (fun w1 => forall v grace, good_env v ->
       exists n w2, run v w1 (finish_interrupted_supersedes b pkg (intent_entries w1) grace) = (w2, Ok n)
                    /\ attested w2 /\ mended w1 w2)
    (fun x w' => on_ok (fun _ => supersede_done w r w') x)
    (supersede_record src b pkg f r source) w.
Proof.
  intros Hne Hc. eapply holds_conseq; [| |by apply holds_supersede].
  - intros w1 Hr v grace Hv. by apply run_finish.
  - by intros.
Qed.

(** A streamed copy never publishes a sidecar over bytes it does not name.
    Into a bucket without a sidecar for the filename, at every moment of the
    copy and whatever fails, a sidecar that stands names the body under it; and
    a copy that returns has either frozen the filename or left the source's
    sidecar over a body of exactly its sha256. *)
Theorem copy_attests src r source w :
  src ≠ b -> copy_allowed b src = false -> wf_world w -> side w = None ->
  holds attested
    (fun x w' => on_ok (fun _ => frozen_at pkg f (w' b) \/ exists sc, source_sidecar r = Ok sc /\ copied sc w') x)
    (copy_live src b pkg f r source) w.
Proof. intros Hne Hc Hw Hs. by apply holds_copy_live. Qed.

End record.

(** A record in a well-formed world whose sidecar names its bytes. *)
Lemma calm_intro b pkg f w bytes sc :
  wf_world w -> body b pkg f w = Some bytes -> side b pkg f w = Some (encode sc) -> intent b pkg f w = None ->
  sidecar_origin_ok sc = true -> sha256 sc = sha256_hex bytes -> calm b pkg f w.
Proof.
  intros Hw Hb Hs Hi Ho Hsha. split; [split; [done|split]|].
  - intros raw. rewrite Hs. intros [= <-]. exists sc. by rewrite decode_encode.
  - intros raw. by rewrite Hi.
  - intros bytes' raw sc' Hb' Hs' Hd. rewrite Hs in Hs'. injection Hs' as <-. rewrite decode_encode in Hd. congruence.
Qed.

End attest.

(** *** Witnesses *)

#[local] Existing Instances toy_digest toy_chunking toy_claim_codec toy_sidecar_codec toy_filename_codec
  content_etags no_copy_verb.

Lemma conflict_calm : calm 1 (&"a") example_file conflict_world.
Proof.
  apply (calm_intro 1 (&"a") example_file conflict_world (&"old") mirror_sidecar).
  - apply conflict_world_wf.
  - vm_compute. reflexivity.
  - reflexivity.
  - vm_compute. reflexivity.
  - reflexivity.
  - reflexivity.
Qed.

Lemma supersede_crash_heals_witness :
  holds
    (fun w1 => forall v grace, good_env v ->
       exists n w2, run v w1 (finish_interrupted_supersedes 1 (&"a") (intent_entries 1 (&"a") example_file w1) grace) = (w2, Ok n)
                    /\ attested 1 (&"a") example_file w2 /\ mended 1 (&"a") example_file w1 w2)
    (fun x w' => on_ok (fun _ => supersede_done 1 (&"a") example_file conflict_world (record_of private_sidecar) w') x)
    (supersede_record 0 1 (&"a") example_file (record_of private_sidecar) FromBucket) conflict_world.
Proof.
  apply (supersede_crash_heals 1 (&"a") example_file example_names 0 (record_of private_sidecar) FromBucket).
  - done.
  - apply conflict_calm.
Defined.

Lemma copy_attests_witness :
  holds (attested 2 (&"a") example_file)
    (fun x w' => on_ok (fun _ => frozen_at (&"a") example_file (w' 2%nat)
       \/ exists sc, source_sidecar (record_of private_sidecar) = Ok sc /\ copied 2 (&"a") example_file sc w') x)
    (copy_live 0 2 (&"a") example_file (record_of private_sidecar) FromBucket) conflict_world.
Proof.
  apply (copy_attests 2 (&"a") example_file example_names 0 (record_of private_sidecar) FromBucket conflict_world).
  - done.
  - reflexivity.
  - apply conflict_world_wf.
  - vm_compute. reflexivity.
Defined.

End Attest.
