(* ===== verification/Progress.v ===== *)
(** * Undisturbed copies converge

    With nothing failing and nobody interfering, the executor's copy of a live
    private record into a bucket that lacks it returns, and leaves two buckets
    that the next decision finds nothing to do for. *)
From stdpp Require Import functions.
From S2P Require Import Prelude RustStr Documents Hash Decide Storage Origin Markers Replicate Artifact Execute Footprint Preserve Attest.
Import Storage.

Module Progress.
Import Sidecar Decide Origin Hash Markers Replicate Artifact Execute Footprint Preserve Attest.

Section progress.
Context {D : Digest} {T : Chunking} `{ClaimCodec} {JS : Codec Sidecar} {JF : Codec FilenameBody}
  {V : CopyVerb} {E : Etags}.

(** ** Undisturbed runs *)

(** [w'] differs from [w] only under the keys of [F]. *)
Definition only (F : nat -> str -> Prop) (w w' : world) : Prop :=
  wf_world w' /\ forall c k, ~ F c k -> contents (w' c) k = contents (w c) k.

Lemma only_refl F w : wf_world w -> only F w w.
Proof. by split. Qed.

Lemma only_trans F w w1 w2 : only F w w1 -> only F w1 w2 -> only F w w2.
Proof. intros [_ H1] [Hw H2]. split; [done|]. intros c k Hk. by rewrite H2, H1. Qed.

Lemma only_sub (F F' : nat -> str -> Prop) w w' : (forall c k, F c k -> F' c k) -> only F w w' -> only F' w w'.
Proof. intros Hs [Hw Ho]. split; [done|]. intros c k Hk. apply Ho. intros HF. by apply Hk, Hs. Qed.

Lemma only_run A v w (p : prog A) F :
  good_env v -> wf_world w -> guar (touches F) (fun _ => True) p -> only F w (run v w p).1.
Proof.
  intros Hv Hw Hp. split; [by apply wf_run|]. intros c k Hk.
  assert (guar (avoids c (fun k' => k' = k)) (fun _ => True) p) as Ha.
  { apply (guar_avoids F); [|done]. by intros k' HF ->. }
  pose proof (guar_frame c _ _ _ p w Hw Ha) as Hh.
  eapply (holds_conseq _ _ (fun _ => True) _ (fun _ w' => same_on c (fun k' => k' = k) w w')) in Hh;
    [|done|by intros a w' [_ Hs] _].
  by apply (holds_exec _ _ _ _ _ _ _ Hh (exec_run _ v w p Hv)).
Qed.

(** A part that succeeds, and changes only the keys it names. *)
Lemma only_run_ok A v w (p : prog (res A)) F a :
  good_env v -> wf_world w -> guar (touches F) (fun _ => True) p -> (run v w p).2 = Ok a ->
  exists w', run v w p = (w', Ok a) /\ only F w w'.
Proof.
  intros Hv Hw Hp Ha. exists (run v w p).1. split; [|by apply only_run]. destruct (run v w p). simpl in *. by subst.
Qed.

Definition one (c : nat) (key : str) (c' : nat) (k : str) : Prop := c' = c /\ k = key.

Lemma run_create v w c key bytes :
  wf_world w -> contents (w c) key = None ->
  exists w', run v w (call c (PutIfAbsent key bytes)) = (w', Ok true)
    /\ only (one c key) w w' /\ contents (w' c) key = Some bytes.
Proof.
  intros Hw Hn. rewrite run_call. cbn [op_run]. unfold contents in Hn.
  destruct (objects (w c) !! key); [done|]. cbn [fst snd]. eexists. split; [done|]. split; [split|].
  - intros c'. destruct (decide (c = c')) as [<-|Hne]; [rewrite fn_lookup_insert|by rewrite fn_lookup_insert_ne].
    by apply wf_write.
  - intros c' k Hk. destruct (decide (c = c')) as [<-|Hne]; [rewrite fn_lookup_insert|by rewrite fn_lookup_insert_ne].
    rewrite contents_write, decide_False; [done|]. intros ->. by apply Hk.
  - by rewrite fn_lookup_insert, contents_write, decide_True.
Qed.

Lemma run_size v w c key n bytes :
  contents (w c) key = Some bytes -> Z.of_nat (length bytes) = n ->
  run v w (check_stored_size c key n) = (w, SizeOk).
Proof.
  intros Hb <-. unfold check_stored_size. rewrite run_bind, run_call. cbn [op_run fst snd run].
  unfold contents in Hb. destruct (objects (w c) !! key); simplify_eq/=. by rewrite fn_insert_id, Z.eqb_refl.
Qed.

(** A companion under a free key. *)
Lemma run_put_verify v w c key bytes :
  wf_world w -> contents (w c) key = None ->
  exists w', run v w (put_if_absent_or_verify c key bytes) = (w', Ok true)
    /\ only (one c key) w w' /\ contents (w' c) key = Some bytes.
Proof.
  intros Hw Hn. destruct (run_create v w c key bytes Hw Hn) as (w' & Hrun & Ho & Hc). exists w'. split; [|done].
  unfold put_if_absent_or_verify, store_artifact_verified. cbn [body_content]. rewrite run_bind_ok, Hrun. cbn [fst snd].
  by rewrite run_bind, (run_size _ _ _ _ _ bytes).
Qed.

Lemma run_put_companion v w c key changed bytes :
  wf_world w -> contents (w c) key = None ->
  exists w' x, run v w (put_companion changed c key bytes) = (w', Ok x) /\ only (one c key) w w' /\ (changed = true -> x = true).
Proof.
  intros Hw Hn. unfold put_companion. destruct bytes as [bytes|]; [|exists w, changed; split; [done|]; by split; [apply only_refl|]].
  destruct (run_put_verify v w c key bytes Hw Hn) as (w' & Hrun & Ho & _). exists w', (changed || true).
  unfold or_changed. rewrite run_bind_ok, Hrun. split; [done|]. split; [done|]. by intros ->.
Qed.

(** A package claim that parses. *)
Definition claim_readable (pkg : str) (s : store) : Prop :=
  forall raw, contents s (origin_key pkg) = Some raw -> exists st, decode_claim raw = Ok st.

Lemma run_encode_claim v w c st :
  run v w (encode_claim c st) = (w, encode (MkClaimBody (OriginState.as_str st) (env_nonce v))).
Proof. unfold encode_claim. rewrite run_bind, run_read_op by done. done. Qed.

Lemma run_cas_claim v w c pkg st obj :
  objects (w c) !! origin_key pkg = Some obj ->
  exists w' e, run v w (cas_claim c pkg (obj_etag obj) st) = (w', Ok (Some e)).
Proof.
  intros Hobj. unfold cas_claim. rewrite run_bind, run_encode_claim. cbn [fst snd]. rewrite run_call. cbn [op_run].
  rewrite Hobj, decide_True by done. by eexists _, _.
Qed.

Lemma run_claim_hinted v w c pkg obj :
  objects (w c) !! origin_key pkg = Some obj ->
  exists w' e, run v w (claim_origin c pkg (MkRequest OriginState.PRIVATE
      (Some (MkObservation OriginState.Unclaimed (obj_etag obj))))) = (w', Ok (MkClaim OriginState.PRIVATE e)).
Proof.
  intros Hobj. unfold claim_origin.
  change (OriginState.claim_target _) with (Some OriginState.Private). cbn iota.
  cbn [unclaimed_hint state etag]. rewrite decide_True by done. rewrite run_bind_ok.
  destruct (run_cas_claim v w c pkg OriginState.Private obj Hobj) as (w' & e & ->). by eexists _, _.
Qed.

Lemma run_claim_fresh v w c pkg :
  objects (w c) !! origin_key pkg = None ->
  exists w' e, run v w (claim_origin c pkg (MkRequest OriginState.PRIVATE None)) = (w', Ok (MkClaim OriginState.PRIVATE e)).
Proof.
  intros Hobj. unfold claim_origin. change (OriginState.claim_target _) with (Some OriginState.Private). cbn iota.
  cbn [unclaimed_hint]. unfold CLAIM_ATTEMPTS. generalize 7%nat. intros n. cbn [claim_loop].
  rewrite run_bind, run_encode_claim. cbn [fst snd]. rewrite run_bind_ok, run_call. cbn [op_run]. rewrite Hobj. by eexists _, _.
Qed.

Lemma run_ensure_private_loop n v w c pkg :
  claim_readable pkg (w c) -> (run v w (ensure_private_loop (S n) c pkg)).2 = Ok tt.
Proof.
  intros Hr. cbn [ensure_private_loop]. rewrite run_bind_ok. unfold read_origin_observation.
  rewrite run_bind_ok, run_read_op by done. cbn [op_run fst snd]. unfold claim_readable, contents in Hr.
  destruct (objects (w c) !! origin_key pkg) as [obj|] eqn:Hobj; cbn [fmap option_fmap option_map run fst snd] in *.
  - destruct (Hr _ eq_refl) as [st Hst]. rewrite Hst. cbn [rbind fst snd state etag]. destruct st; [| |done].
    + rewrite run_bind_ok. destruct (run_claim_hinted v w c pkg obj Hobj) as (w' & e & ->). done.
    + unfold demote_observed_mirror, rewrite_claim. cbn [state etag]. rewrite decide_True by done.
      rewrite run_bind_ok, run_bind_ok.
      destruct (run_cas_claim v w c pkg OriginState.Private obj Hobj) as (w' & e & ->). done.
  - rewrite run_bind_ok. destruct (run_claim_fresh v w c pkg Hobj) as (w' & e & ->). done.
Qed.

(** Claims only ever move to claims that parse. *)
Lemma readable_moves edge (x y : option str) :
  rtc (claim_mv edge) x y -> (forall raw, x = Some raw -> exists st, decode_claim raw = Ok st) ->
  forall raw, y = Some raw -> exists st, decode_claim raw = Ok st.
Proof.
  induction 1 as [x|x y z Hm _ IH]; [done|]. intros _. apply IH. intros raw ->. unfold claim_mv in Hm.
  cbn [fmap option_fmap option_map] in Hm. inversion Hm; eauto.
Qed.

Lemma run_ensure_private v w c pkg :
  good_env v -> wf_world w -> claim_readable pkg (w c) ->
  exists w', run v w (ensure_private_origin c pkg) = (w', Ok tt)
    /\ only (one c (origin_key pkg)) w w' /\ claim_readable pkg (w' c).
Proof.
  intros Hv Hw Hr. destruct (only_run_ok _ v w (ensure_private_origin c pkg) (one c (origin_key pkg)) tt) as (w' & Hrun & Ho);
    [done|done|by apply touch_ensure_private|by apply run_ensure_private_loop|].
  exists w'. split; [done|]. split; [done|].
  pose proof (steps_run v w (thread (ensure_private_origin c pkg)) Hv) as Hsteps.
  destruct (steps_follow origin_key (claim_mv auto_edge) _ _ _ _ Hw
    ltac:(constructor; [eapply guar_thread, guar_ensure_private|constructor]) Hsteps) as [_ Hm].
  specialize (Hm c pkg). unfold thread in Hm. rewrite run_bind, Hrun in Hm. cbn [fst snd run] in Hm.
  exact (readable_moves auto_edge _ _ Hm Hr).
Qed.

(** ** An undisturbed copy into an empty destination *)

Section converge.
Variables (v : env) (src dst : nat) (pkg f : str).
Hypotheses (env_ok : good_env v) (open_fleet : env_fenced v = false) (distinct : src ≠ dst)
  (names_ok : valid_names pkg f).

Abbreviation akey := (artifact_key pkg f).

(** The keys a copy may write. *)
Definition copy_keys (c : nat) (k : str) : Prop :=
  c = dst /\ exists s, s ∈ [[]; SIDECAR_SUFFIX; METADATA_SUFFIX; PROVENANCE_SUFFIX] /\ k = companion_key akey s.

(** The whole bracket: the claim and the markers too. *)
Definition bracket_keys (c : nat) (k : str) : Prop :=
  copy_keys c k \/ one dst (origin_key pkg) c k \/ c = dst /\ exists n s, k = marker_key pkg n s.

Lemma copy_keys_suffix s c k :
  bool_decide (s ∈ [[]; SIDECAR_SUFFIX; METADATA_SUFFIX; PROVENANCE_SUFFIX]) = true ->
  one dst (companion_key akey s) c k -> copy_keys c k.
Proof. intros Hs%bool_decide_eq_true [-> ->]. split; [done|]. by exists s. Qed.

Lemma copy_keys_body c k : one dst akey c k -> copy_keys c k.
Proof. intros Hk. apply (copy_keys_suffix []); [done|]. unfold companion_key. by rewrite app_nil_r. Qed.

(** A key of the record still free after another one was written. *)
Lemma free_after w w' s t :
  only (one dst (companion_key akey s)) w w' -> s ∈ [] :: companion_suffixes -> t ∈ [] :: companion_suffixes ->
  s ≠ t -> contents (w dst) (companion_key akey t) = None -> contents (w' dst) (companion_key akey t) = None.
Proof.
  intros [_ Ho] Hs Ht Hne Hn. rewrite Ho; [done|]. intros [_ Heq].
  apply key_inj in Heq as (_ & _ & Heq); [by symmetry in Heq|done|done|done|done].
Qed.

Lemma run_listed w c key listed :
  (listed = true -> is_Some (contents (w c) key)) ->
  exists o, run v w (read_listed_companion c key listed) = (w, Ok o).
Proof.
  intros Hl. unfold read_listed_companion. destruct listed; cbn [negb]; [|by exists None].
  destruct (Hl eq_refl) as [bytes Hb]. rewrite run_bind_ok, run_read_op by done. cbn [op_run fst snd].
  unfold contents in Hb. destruct (objects (w c) !! key); [|done]. by eexists.
Qed.

Lemma run_companions w r :
  (has_metadata r = true -> is_Some (contents (w src) (metadata_key akey))) ->
  (has_provenance r = true -> is_Some (contents (w src) (provenance_key akey))) ->
  exists c, run v w (read_source_companions src akey r) = (w, Ok c).
Proof.
  intros Hm Hp. unfold read_source_companions.
  destruct (run_listed w src (metadata_key akey) (has_metadata r) Hm) as [md Hmd].
  destruct (run_listed w src (provenance_key akey) (has_provenance r) Hp) as [pv Hpv].
  rewrite run_bind_ok, Hmd. cbn [fst snd]. rewrite run_bind_ok, Hpv. by eexists.
Qed.

(** What the destination must not hold. *)
Definition vacant (s : store) : Prop :=
  forall suffix, suffix ∈ [] :: companion_suffixes -> contents s (companion_key akey suffix) = None.

(** A live private record whose bytes match its sidecar. *)
Definition sound_source (s : store) (r : Record_) (sc : Sidecar) (bytes : str) : Prop :=
  sidecar r = Some sc /\ sc_origin sc = Some OriginState.PRIVATE
  /\ contents s akey = Some bytes /\ sha256_hex bytes = sha256 sc
  /\ Z.of_nat (length bytes) <= staging_cap (size sc)
  /\ (has_metadata r = true -> is_Some (contents s (metadata_key akey)))
  /\ (has_provenance r = true -> is_Some (contents s (provenance_key akey))).

Lemma run_verify_source w r sc bytes :
  sound_source (w src) r sc bytes ->
  exists a, run v w (verify_source_artifact src pkg f r FromBucket) = (w, Ok a)
    /\ staged_content a = bytes /\ staged_size a = Z.of_nat (length bytes).
Proof.
  intros (Hsc & _ & Hb & Hsha & Hcap & _). unfold verify_source_artifact, source_sidecar. rewrite Hsc.
  rewrite run_bind_ok. cbn [run fst snd]. cbn [stage]. rewrite run_bind_ok, (staging_exact _ _ _ _ _ bytes Hb).
  rewrite (proj2 (Z.ltb_ge _ _) Hcap). cbn [fst snd]. rewrite decide_True by done.
  eexists. split; [done|]. by destruct (size sc <=? STAGE_TO_DISK_ABOVE).
Qed.

Lemma run_leg w sc a bytes published :
  wf_world w -> contents (w dst) akey = None -> staged_content a = bytes -> staged_size a = Z.of_nat (length bytes) ->
  exists w', run v w (artifact_leg src dst pkg f sc a published) = (w', Ok (Landed true))
    /\ only (one dst (companion_key akey [])) w w' /\ contents (w' dst) akey = Some bytes.
Proof.
  intros Hw Hfree Hc Hn.
  unfold artifact_leg, repair_debris. cbv zeta. rewrite run_bind_ok, run_bind_ok, run_read_op by done. cbn [op_run fst snd].
  unfold contents in Hfree. destruct (objects (w dst) !! akey) eqn:Hobj; [done|]. cbn [fmap option_fmap option_map run fst snd].
  destruct (run_create v w dst akey bytes Hw) as (w' & Hrun & Ho & Hb'); [unfold contents; by rewrite Hobj|].
  unfold create_artifact_verified. rewrite run_bind_ok, run_bind_ok. unfold staged_content in Hc. rewrite Hc, Hrun. cbn [fst snd].
  unfold verify_stored_size. rewrite run_bind_ok, run_bind, (run_size _ _ _ _ _ bytes) by done. cbn [run fst snd].
  exists w'. split; [done|]. split; [|done]. unfold companion_key. by rewrite app_nil_r.
Qed.

(** The intended bytes already stand. *)
Lemma run_leg_standing w sc a bytes published :
  contents (w dst) akey = Some bytes -> sha256_hex bytes = sha256 sc ->
  run v w (artifact_leg src dst pkg f sc a published) = (w, Ok (Landed false)).
Proof.
  intros Hb Hsha. unfold artifact_leg, repair_debris. cbv zeta. rewrite run_bind_ok, run_bind_ok, run_read_op by done.
  unfold contents in Hb. cbn [op_run fst snd]. destruct (objects (w dst) !! akey) as [obj|] eqn:Hobj; [|done].
  injection Hb as <-. cbn [fmap option_fmap option_map]. rewrite decide_True by done. cbn [run fst snd]. unfold create_artifact_verified.
  rewrite run_bind_ok, run_bind_ok, run_call. cbn [op_run]. rewrite Hobj. cbn [fst snd run]. rewrite fn_insert_id.
  rewrite run_bind_ok, run_read_op by done. cbn [op_run fst snd]. rewrite Hobj. cbn [fst snd]. by rewrite decide_True.
Qed.

Lemma run_install_free w sc :
  wf_world w -> sc_origin sc = Some OriginState.PRIVATE -> contents (w dst) (sidecar_key akey) = None ->
  exists w', run v w (install_or_verify_sidecar dst (sidecar_key akey) sc) = (w', Ok true)
    /\ only (one dst (sidecar_key akey)) w w' /\ contents (w' dst) (sidecar_key akey) = Some (encode sc).
Proof.
  intros Hw Ho Hn. destruct (run_create v w dst _ (encode sc) Hw Hn) as (w' & Hrun & Honly & Hc). exists w'. split; [|done].
  unfold install_or_verify_sidecar. rewrite decide_True by done.
  unfold sidecar_key at 1, companion_key at 1. rewrite strip_suffix_app. unfold ORIGIN_ATTEMPTS. generalize 7%nat. intros n.
  cbn [install_loop]. rewrite run_bind_ok, run_read_op by done. cbn [op_run fst snd].
  unfold contents in Hn. destruct (objects (w dst) !! sidecar_key akey) eqn:Hobj; [done|].
  cbn [fmap option_fmap option_map]. by rewrite run_bind_ok, Hrun.
Qed.

(** The record as the copy leaves it on the destination. *)
Definition landed_at (sc : Sidecar) (bytes : str) (s : store) : Prop :=
  contents s akey = Some bytes /\ contents s (sidecar_key akey) = Some (encode sc).

Lemma landed_only F sc bytes w w' :
  landed_at sc bytes (w dst) -> only F w w' -> ~ F dst akey -> ~ F dst (sidecar_key akey) -> landed_at sc bytes (w' dst).
Proof. intros [Hb Hs] [_ Ho] H1 H2. split; by rewrite Ho. Qed.

Lemma other_key s t : s ∈ [] :: companion_suffixes -> t ∈ [] :: companion_suffixes -> s ≠ t ->
  ~ one dst (companion_key akey s) dst (companion_key akey t).
Proof. intros Hs Ht Hne [_ Heq]. apply key_inj in Heq as (_ & _ & Heq); [by symmetry in Heq|done|done|done|done]. Qed.

Lemma body_other_key s : s ∈ companion_suffixes -> ~ one dst (companion_key akey s) dst akey.
Proof.
  intros Hs. rewrite <- (app_nil_r akey) at 2. apply other_key; [by right|by left|].
  intros ->. by apply (bool_decide_pack _) in Hs.
Qed.

Lemma run_put_companions w c :
  wf_world w -> contents (w dst) (metadata_key akey) = None -> contents (w dst) (provenance_key akey) = None ->
  exists w', run v w (put_companions true dst akey c) = (w', Ok true) /\ only copy_keys w w'
    /\ contents (w' dst) akey = contents (w dst) akey
    /\ contents (w' dst) (sidecar_key akey) = contents (w dst) (sidecar_key akey).
Proof.
  intros Hw Hm Hp. unfold put_companions.
  destruct (run_put_companion v w dst (metadata_key akey) true (c_metadata c) Hw Hm) as (w1 & x & Hrun1 & Ho1 & Hx).
  rewrite run_bind_ok, Hrun1. cbn [fst snd].
  assert (contents (w1 dst) (provenance_key akey) = None) as Hp1.
  { eapply (free_after w w1 METADATA_SUFFIX PROVENANCE_SUFFIX); [done|suffix_side|suffix_side|done|done]. }
  destruct (run_put_companion v w1 dst (provenance_key akey) x (c_provenance c) (proj1 Ho1) Hp1) as (w2 & y & Hrun2 & Ho2 & Hy).
  exists w2. rewrite Hrun2, (Hy (Hx eq_refl)). split; [done|]. split_and!.
  - eapply only_trans; [eapply only_sub, Ho1; intros ??; by apply (copy_keys_suffix METADATA_SUFFIX)|].
    eapply only_sub, Ho2; intros ??. by apply (copy_keys_suffix PROVENANCE_SUFFIX).
  - rewrite (proj2 Ho2), (proj2 Ho1); [done|apply body_other_key; suffix_side..].
  - rewrite (proj2 Ho2), (proj2 Ho1); [done|by apply other_key; [suffix_side|suffix_side|]..].
Qed.

(** The sidecar and the companions behind it, on a destination that has none. *)
Lemma run_documents w sc c :
  wf_world w -> sc_origin sc = Some OriginState.PRIVATE ->
  (forall s, s ∈ companion_suffixes -> contents (w dst) (companion_key akey s) = None) ->
  exists w1 w', run v w (install_or_verify_sidecar dst (sidecar_key akey) sc) = (w1, Ok true)
    /\ run v w1 (put_companions true dst akey c) = (w', Ok true) /\ only copy_keys w w'
    /\ contents (w' dst) akey = contents (w dst) akey /\ contents (w' dst) (sidecar_key akey) = Some (encode sc).
Proof.
  intros Hw Ho Hfree. destruct (run_install_free w sc Hw Ho) as (w1 & Hrun1 & Ho1 & Hc1); [apply Hfree; suffix_side|].
  destruct (run_put_companions w1 c (proj1 Ho1)) as (w2 & Hrun2 & Ho2 & Hb2 & Hs2).
  { eapply (free_after w w1 SIDECAR_SUFFIX METADATA_SUFFIX); [done|suffix_side|suffix_side|done|apply Hfree; suffix_side]. }
  { eapply (free_after w w1 SIDECAR_SUFFIX PROVENANCE_SUFFIX); [done|suffix_side|suffix_side|done|apply Hfree; suffix_side]. }
  exists w1, w2. split_and!; [done|done| | |by rewrite Hs2].
  - eapply only_trans; [eapply only_sub, Ho1; intros ??; by apply (copy_keys_suffix SIDECAR_SUFFIX)|done].
  - rewrite Hb2, (proj2 Ho1); [done|]. apply body_other_key. suffix_side.
Qed.

Lemma run_copy_truth w sc c bytes :
  wf_world w -> sc_origin sc = Some OriginState.PRIVATE -> contents (w dst) akey = Some bytes ->
  (forall s, s ∈ companion_suffixes -> contents (w dst) (companion_key akey s) = None) ->
  exists w', run v w (copy_truth dst akey sc c true false (Z.of_nat (length bytes))) = (w', Ok true)
    /\ only copy_keys w w' /\ landed_at sc bytes (w' dst).
Proof.
  intros Hw Ho Hb Hfree. unfold copy_truth.
  assert (run v w (call dst (StoredSize akey)) = (w, Ok (Some (Z.of_nat (length bytes))))) as Hsz.
  { rewrite run_read_op by done. cbn [op_run fst snd]. unfold contents in Hb. by destruct (objects (w dst) !! akey); simplify_eq/=. }
  rewrite run_bind_ok, Hsz. cbn [fst snd]. rewrite Z.eqb_refl.
  destruct (run_documents w sc c Hw Ho Hfree) as (w1 & w2 & Hrun1 & Hrun2 & Ho2 & Hb2 & Hs2).
  unfold or_changed. rewrite run_bind_ok, run_bind_ok, Hrun1. cbn [fst snd run orb]. rewrite Hrun2.
  exists w2. split; [done|]. split; [done|]. split; [by rewrite Hb2|done].
Qed.

(** The provider's copy: the bytes stand, or it leaves the key free and says
    so. *)
Lemma run_server_side_copy w sc bytes :
  wf_world w -> contents (w src) akey = Some bytes -> contents (w dst) akey = None ->
  exists w' r, run v w (server_side_copy_artifact src dst akey sc) = (w', r)
    /\ only (one dst (companion_key akey [])) w w'
    /\ (contents (w' dst) akey = Some bytes \/ contents (w' dst) akey = None /\ r ≠ Ok true).
Proof.
  intros Hw Hb Hn. exists (run v w (server_side_copy_artifact src dst akey sc)).1, (run v w (server_side_copy_artifact src dst akey sc)).2.
  split; [apply surjective_pairing|]. unfold server_side_copy_artifact, server_side_copy. rewrite run_bind_ok.
  destruct (copyable_size (size sc)); cbn [negb].
  2:{ cbn [run fst snd]. split; [by apply only_refl|]. by right. }
  rewrite run_bind_ok, run_read_op by done. cbn [op_run fst snd]. unfold contents in Hb.
  destruct (objects (w src) !! akey) as [obj|]; [|done]. injection Hb as <-. cbn [fst snd].
  rewrite run_bind_ok, run_call. cbn [op_run fst snd run].
  set (w1 := <[dst := (write v (w dst) akey (obj_bytes obj)).1]> w).
  assert (contents (w1 dst) akey = Some (obj_bytes obj)) as Hb1.
  { unfold w1. by rewrite fn_lookup_insert, contents_write, decide_True. }
  assert (only (one dst (companion_key akey [])) w w1) as Ho1.
  { unfold companion_key. rewrite app_nil_r. split; unfold w1.
    - intros c'. destruct (decide (dst = c')) as [<-|Hne]; [rewrite fn_lookup_insert|by rewrite fn_lookup_insert_ne].
      by apply wf_write.
    - intros c' k Hk. destruct (decide (dst = c')) as [<-|Hne]; [rewrite fn_lookup_insert|by rewrite fn_lookup_insert_ne].
      rewrite contents_write, decide_False; [done|]. intros <-. by apply Hk. }
  assert (forall p : prog (res bool), (run v w1 p).1 = w1 -> only (one dst (companion_key akey [])) w (run v w1 p).1
    /\ (contents ((run v w1 p).1 dst) akey = Some (obj_bytes obj) \/ contents ((run v w1 p).1 dst) akey = None /\ (run v w1 p).2 ≠ Ok true)) as Hend.
  { intros q ->. split; [done|by left]. }
  apply Hend. rewrite run_bind_ok. unfold verify_stored_size, check_stored_size. rewrite run_bind, run_bind, run_call.
  cbn [op_run fst snd]. rewrite fn_insert_id. cbn [run fst snd].
  destruct (objects (w1 dst) !! akey) as [stored|]; cbn [fmap option_fmap option_map run fst snd]; [|done].
  destruct (_ =? _); [|done]. by case_decide.
Qed.

Lemma origin_not_record s : origin_key pkg ≠ companion_key akey s.
Proof.
  unfold origin_key.
  change (PACKAGES_PREFIX ++ pkg ++ &"/.origin") with (artifact_key pkg (&".origin")).
  rewrite companion_key_artifact. intros Heq. apply artifact_key_inj in Heq as [_ Heq]; [|apply names_ok..].
  destruct names_ok as [_ Hf]. unfold is_artifact in Hf. destruct f as [|c f']; [done|].
  cbn [app] in Heq. injection Heq as <- _. done.
Qed.

(** The source is as it was when only the destination changed. *)
Lemma source_kept (F : nat -> str -> Prop) w w' r sc bytes :
  (forall c k, F c k -> c = dst) -> only F w w' -> sound_source (w src) r sc bytes -> sound_source (w' src) r sc bytes.
Proof.
  intros HF [_ Ho] Hs. unfold sound_source in *. rewrite !Ho; [done|by intros ?%HF..].
Qed.

Lemma run_copy_server_side w r sc cs bytes :
  wf_world w -> vacant (w dst) -> sound_source (w src) r sc bytes ->
  exists w', run v w (copy_server_side src dst pkg f r sc false cs FromBucket) = (w', Ok true)
    /\ only copy_keys w w' /\ landed_at sc bytes (w' dst).
Proof.
  intros Hw Hvac Hsound. pose proof Hsound as (_ & Ho & _ & Hsha & _). unfold copy_server_side. cbv zeta.
  destruct (run_documents w sc cs Hw Ho) as (w1 & w2 & Hrun1 & Hrun2 & Ho2 & Hb2 & Hs2); [intros s Hs; apply Hvac; by right|].
  rewrite run_bind_ok, Hrun1. cbn [fst snd]. rewrite run_bind_ok, Hrun2. cbn [fst snd].
  apply (source_kept copy_keys w w2 _ _ _ ltac:(by intros c k [? _]) Ho2) in Hsound.
  assert (contents (w2 dst) akey = None) as Hn2.
  { rewrite Hb2, <- (app_nil_r akey). apply Hvac. by left. }
  destruct (run_server_side_copy w2 sc bytes (proj1 Ho2) ltac:(apply Hsound) Hn2) as (w3 & res & Hrun3 & Ho3 & Hend).
  apply (source_kept (one dst (companion_key akey [])) w2 w3 _ _ _ ltac:(by intros c k [? _]) Ho3) in Hsound. rewrite run_bind, Hrun3. cbn [fst snd].
  assert (contents (w3 dst) (sidecar_key akey) = Some (encode sc)) as Hs3.
  { rewrite (proj2 Ho3); [done|]. by apply other_key; [by left|suffix_side|]. }
  assert (forall w', only (one dst (companion_key akey [])) w3 w' -> only copy_keys w w') as Honly.
  { intros w' Ho'. eapply only_trans; [exact Ho2|]. eapply only_sub; [|eapply only_trans; [exact Ho3|exact Ho']].
    intros ??. by apply (copy_keys_suffix []). }
  destruct (run_verify_source w3 r sc bytes Hsound) as (a & Hver & Hac & Han).
  destruct Hend as [Hb3|[Hb3 Hres]].
  - exists w3. split; [|split; [by apply Honly, only_refl, Ho3|done]]. destruct res as [[]|e]; [done|..];
      by rewrite run_bind_ok, Hver; cbn [fst snd]; rewrite run_bind_ok, (run_leg_standing _ _ _ bytes).
  - destruct (run_leg w3 sc a bytes true (proj1 Ho3) Hb3 Hac Han) as (w4 & Hleg & Ho4 & Hb4). exists w4. split.
    + destruct res as [[]|e]; [done|..]; by rewrite run_bind_ok, Hver; cbn [fst snd]; rewrite run_bind_ok, Hleg.
    + split; [by apply Honly|]. split; [done|]. rewrite (proj2 Ho4); [done|]. by apply other_key; [by left|suffix_side|].
Qed.

Lemma run_copy_streamed w sc cs a bytes :
  wf_world w -> vacant (w dst) -> sc_origin sc = Some OriginState.PRIVATE -> staged_content a = bytes ->
  staged_size a = Z.of_nat (length bytes) ->
  exists w', run v w (copy_streamed src dst pkg f sc false cs a) = (w', Ok true)
    /\ only copy_keys w w' /\ landed_at sc bytes (w' dst).
Proof.
  intros Hw Hvac Ho Hac Han. unfold copy_streamed. destruct (run_leg w sc a bytes false Hw) as (w2 & Hleg & Ho2 & Hb2); [|done|done|].
  { rewrite <- (app_nil_r akey). apply Hvac. by left. }
  rewrite run_bind_ok, Hleg. cbn [fst snd]. rewrite Han.
  destruct (run_copy_truth w2 sc cs bytes (proj1 Ho2) Ho Hb2) as (w3 & Htruth & Ho3 & Hl3).
  { intros s Hs. eapply (free_after w w2 [] s); [done|by left|by right| |apply Hvac; by right].
    intros <-. by apply (bool_decide_pack _) in Hs. }
  exists w3. split; [done|]. split; [|done].
  eapply only_trans; [eapply only_sub, Ho2; intros ??; by apply (copy_keys_suffix [])|done].
Qed.

Lemma run_copy_live w r sc bytes :
  wf_world w -> vacant (w dst) -> claim_readable pkg (w dst) -> sound_source (w src) r sc bytes ->
  exists w', run v w (copy_live src dst pkg f r FromBucket) = (w', Ok true)
    /\ only bracket_keys w w' /\ claim_readable pkg (w' dst) /\ landed_at sc bytes (w' dst).
Proof.
  intros Hw Hvac Hclaim Hsound. pose proof Hsound as (Hsc & Ho & _ & _ & _ & Hm & Hp).
  unfold copy_live. cbv zeta. unfold source_sidecar at 1. rewrite Hsc, run_bind_ok. cbn [run fst snd].
  destruct (run_companions w r Hm Hp) as [cs Hcs]. rewrite run_bind_ok, Hcs. cbn [fst snd].
  assert (is_mirror_record r = false) as Hmirror.
  { unfold is_mirror_record, record_origin, sidecar_origin. rewrite Hsc. cbn [mbind option_bind]. rewrite Ho. done. }
  destruct (run_ensure_private v w dst pkg env_ok Hw Hclaim) as (w1 & Hens & Ho1 & Hr1).
  assert (run v w (let*? _ := require_replication_unfenced dst in claim_destination dst pkg (is_mirror_record r))
          = (w1, Ok tt)) as Hopen.
  { rewrite Hmirror, run_bind_ok. unfold require_replication_unfenced. rewrite run_bind, run_read_op by done.
    cbn [op_run fst snd run]. by rewrite open_fleet. }
  assert (vacant (w1 dst)) as Hvac1.
  { intros s Hs. rewrite (proj2 Ho1); [by apply Hvac|]. intros [_ Heq]. by apply (origin_not_record s). }
  pose proof (source_kept (one dst (origin_key pkg)) w w1 _ _ _ ltac:(by intros c k [? _]) Ho1 Hsound) as Hsound1.
  destruct (run_verify_source w r sc bytes Hsound) as (a & Hver & Hac & Han).
  destruct (run_copy_server_side w1 r sc cs bytes (proj1 Ho1) Hvac1 Hsound1) as (ws & Hss & Hos & Hls).
  destruct (run_copy_streamed w1 sc cs a bytes (proj1 Ho1) Hvac1 Ho Hac Han) as (wt & Hst & Hot & Hlt).
  assert (exists w', run v w (if copy_allowed dst src
      then let*? _ := (let*? _ := require_replication_unfenced dst in claim_destination dst pkg (is_mirror_record r)) in
           copy_server_side src dst pkg f r sc (is_mirror_record r) cs FromBucket
      else let*? staged := verify_source_artifact src pkg f r FromBucket in
           let*? _ := (let*? _ := require_replication_unfenced dst in claim_destination dst pkg (is_mirror_record r)) in
           copy_streamed src dst pkg f sc (is_mirror_record r) cs staged) = (w', Ok true)
    /\ only copy_keys w1 w' /\ landed_at sc bytes (w' dst)) as (w3 & Hrun & Ho13 & Hl3).
  { destruct (copy_allowed dst src).
    - exists ws. split; [|done]. by rewrite run_bind_ok, Hopen, Hmirror.
    - exists wt. split; [|done]. by rewrite run_bind_ok, Hver; cbn [fst snd]; rewrite run_bind_ok, Hopen, Hmirror. }
  exists w3. split; [done|]. split; [|split; [|done]].
  - eapply only_trans; [eapply only_sub, Ho1; intros c k Hk; by right; left|].
    eapply only_sub, Ho13. intros c k Hk. by left.
  - intros raw. rewrite (proj2 Ho13); [apply Hr1|]. intros (_ & s & _ & Heq). by apply (origin_not_record s).
Qed.

Lemma run_mark w c pkg' n s :
  wf_world w -> exists w', run v w (put_marker c pkg' n s) = (w', Ok tt) /\ only (one c (marker_key pkg' n s)) w w'.
Proof.
  intros Hw. unfold put_marker. rewrite run_call. cbn [op_run fst snd]. eexists. split; [done|]. split.
  - intros c'. destruct (decide (c = c')) as [<-|Hne]; [rewrite fn_lookup_insert|by rewrite fn_lookup_insert_ne].
    by apply wf_write.
  - intros c' k Hk. destruct (decide (c = c')) as [<-|Hne]; [rewrite fn_lookup_insert|by rewrite fn_lookup_insert_ne].
    rewrite contents_write, decide_False; [done|]. intros <-. by apply Hk.
Qed.

Lemma marker_bracket n s c k : one dst (marker_key pkg n s) c k -> bracket_keys c k.
Proof. intros [-> ->]. right. right. split; [done|]. by eexists _, _. Qed.

(** What the bracket leaves alone. *)
Lemma bracket_spares c k :
  c ≠ dst \/ (exists s, s ∈ companion_suffixes /\ (s ∉ [SIDECAR_SUFFIX; METADATA_SUFFIX; PROVENANCE_SUFFIX])
               /\ k = companion_key akey s) -> ~ bracket_keys c k.
Proof.
  intros Hor [(-> & s & Hs & Hk)|[[-> Hk]|(-> & n & s & Hk)]]; destruct Hor as [?|(t & Ht & Hn & ->)]; try done.
  - apply key_inj in Hk as (_ & _ & ->); [|done|done|by right|].
    + apply elem_of_cons in Hs as [->|Hs]; [by apply (bool_decide_pack _) in Ht|done].
    + clear Hk. revert s Hs. apply Forall_forall. suffix_side.
  - symmetry in Hk. by apply (origin_not_record t).
Qed.

Lemma run_execute_copy w ra rb sc bytes :
  wf_world w -> vacant (w dst) -> claim_readable pkg (w dst) -> sound_source (w src) ra sc bytes ->
  mirror_quarantined ra = false -> mirror_quarantined rb = false ->
  exists w', run v w (execute src dst pkg f ra rb FromBucket (Copy Decide.A)) = (w', Ok Converged)
    /\ only bracket_keys w w' /\ claim_readable pkg (w' dst) /\ landed_at sc bytes (w' dst).
Proof.
  intros Hw Hvac Hclaim Hsound Hqa Hqb. unfold execute.
  assert (run v w (require_replication_unfenced src) = (w, Ok tt)) as Hopen.
  { unfold require_replication_unfenced. rewrite run_bind, run_read_op by done. cbn [op_run fst snd run]. by rewrite open_fleet. }
  rewrite run_bind_ok, Hopen. cbn [fst snd brackets].
  assert (run v w (mark_intent_if false src pkg) = (w, Ok None)) as Hnone by done.
  rewrite run_bind_ok, Hnone. cbn [fst snd]. rewrite run_bind.
  destruct (run_mark w dst pkg (env_marker v) INTENT_SUFFIX Hw) as (w1 & Hm1 & Ho1).
  assert (run v w (mark_intent_if true dst pkg) = (w1, Ok (Some (env_marker v)))) as ->.
  { cbn [mark_intent_if]. unfold mark_intent, mark_intent_with_nonce. rewrite run_bind_ok, run_bind, run_read_op by done.
    cbn [op_run fst snd]. by rewrite run_bind_ok, Hm1. }
  cbn [fst snd]. rewrite run_bind. assert (forall c k, one dst (marker_key pkg (env_marker v) INTENT_SUFFIX) c k -> bracket_keys c k) as Hmk
    by (intros ??; apply marker_bracket).
  assert (forall k, k ≠ marker_key pkg (env_marker v) INTENT_SUFFIX -> contents (w1 dst) k = contents (w dst) k) as Hk1.
  { intros k Hk. apply (proj2 Ho1). by intros [_ ?]. }
  assert (forall k, contents (w1 src) k = contents (w src) k) as Hs1.
  { intros k. apply (proj2 Ho1). by intros [? _]. }
  destruct (run_copy_live w1 ra sc bytes) as (w2 & Hcopy & Ho2 & Hr2 & Hl2).
  { apply Ho1. }
  { intros s Hs. rewrite Hk1; [by apply Hvac|done]. }
  { intros raw. rewrite Hk1 by done. apply Hclaim. }
  { unfold sound_source in *. by rewrite !Hs1. }
  destruct (run_mark w2 dst pkg (env_marker v) COMMIT_SUFFIX (proj1 Ho2)) as (w3 & Hm3 & Ho3).
  assert (run v w1 (execute_body src dst pkg f ra rb FromBucket (Copy Decide.A)) = (w3, Ok Converged)) as ->.
  { unfold execute_body, clear_spent_demotion_fence. rewrite Hqa, Hqb. cbn [negb orb].
    rewrite run_bind_ok. cbn [run fst snd]. rewrite run_bind_ok. cbn [run fst snd]. rewrite run_bind_ok.
    cbn [execute_verdict pick]. rewrite run_bind_ok, Hcopy. cbn [fst snd mark_dirty_if]. unfold mark_dirty, mark_commit.
    rewrite run_bind, run_read_op by done. cbn [op_run fst snd]. by rewrite Hm3. }
  cbn [fst snd commit_if]. rewrite run_bind. cbn [run fst snd]. rewrite run_bind. cbn [commit_if].
  destruct (run_mark w3 dst pkg (env_marker v) COMMIT_SUFFIX (proj1 Ho3)) as (w4 & Hm4 & Ho4).
  unfold mark_commit. rewrite run_bind, Hm4. cbn [run fst snd]. exists w4. split; [done|].
  assert (only bracket_keys w2 w4) as Ho24.
  { eapply only_trans; [eapply only_sub, Ho3; intros ??; apply marker_bracket|].
    eapply only_sub, Ho4; intros ??; apply marker_bracket. }
  split; [eapply only_trans; [by eapply only_sub, Ho1|]; by eapply only_trans|]. split.
  2:{ eapply landed_only; [eapply landed_only; [exact Hl2|exact Ho3|by intros [_ ?]|by intros [_ ?]]|exact Ho4|by intros [_ ?]|by intros [_ ?]]. }
  intros raw. rewrite (proj2 Ho4), (proj2 Ho3); [apply Hr2|by intros [_ ?]|by intros [_ ?]].
Qed.

Lemma run_read_record w c :
  "/"%char ∉ f -> claim_readable pkg (w c) -> readable (contents (w c) (sidecar_key akey)) ->
  exists claim, run v w (read_record c pkg f)
    = (w, Ok (from_listing (has_object (w c) pkg f) (contents (w c) (sidecar_key akey) ≫= decode) claim)).
Proof.
  intros Hf Hclaim Hread. unfold read_record. cbv zeta. set (prefix := PACKAGES_PREFIX ++ pkg ++ &"/").
  rewrite run_bind_ok, run_read_op by done. cbn [op_run fst snd]. set (names := names_under prefix _).
  assert (forall s, s ∈ [] :: companion_suffixes -> f ++ s ∈ names <-> present (w c) (companion_key akey s)) as Hnames.
  { intros s Hs. unfold names. rewrite names_listing.
    - unfold prefix, companion_key, artifact_key. by rewrite <- !app_assoc.
    - rewrite elem_of_app. intros [?|Hin]; [done|].
      assert (Forall (fun s => "/"%char ∉ s) ([] :: companion_suffixes)) as Hall by suffix_side.
      rewrite Forall_forall in Hall. by apply (Hall s). }
  assert (exists claim, run v w (read_pkg_origin c pkg) = (w, Ok claim)) as [claim Hrun].
  { unfold read_pkg_origin, read_origin_observation. rewrite run_bind_ok, run_bind_ok, run_read_op by done. cbn [op_run fst snd].
    unfold claim_readable, contents in Hclaim. destruct (objects (w c) !! origin_key pkg) as [obj|];
      cbn [fmap option_fmap option_map run fst snd]; [|by eexists].
    destruct (Hclaim _ eq_refl) as [st ->]. by eexists. }
  exists claim. rewrite run_bind_ok, Hrun. cbn [fst snd]. unfold record_from_names. rewrite run_bind_ok.
  assert (run v w (if bool_decide (f ++ SIDECAR_SUFFIX ∈ names) then
      let*? bytes := call c (GetBytes (sidecar_key akey)) in
      Ret (let? sc := parse_sidecar bytes in
           if sidecar_origin_ok sc then Ok (Some sc) else Err (Bail (&"sidecar holds an unexpected origin")))
      else Ret (Ok None)) = (w, Ok (contents (w c) (sidecar_key akey) ≫= decode))) as ->.
  { case_bool_decide as Hin.
    - apply Hnames in Hin; [|suffix_in]. destruct Hin as [raw Hraw]. change (companion_key akey SIDECAR_SUFFIX) with (sidecar_key akey) in Hraw.
      destruct (Hread raw Hraw) as (sc & Hdec & Hok). rewrite run_bind_ok, run_read_op by done. cbn [op_run fst snd].
      rewrite Hraw. cbn [mbind option_bind]. rewrite Hdec. unfold contents in Hraw.
      destruct (objects (w c) !! sidecar_key akey); simplify_eq/=. unfold parse_sidecar. rewrite Hdec. cbn [rbind]. by rewrite Hok.
    - destruct (contents (w c) (sidecar_key akey)) as [raw|] eqn:Hraw; [|done].
      exfalso. apply Hin, Hnames; [suffix_in|]. exists raw. done. }
  cbn [fst snd run]. do 2 f_equal. apply from_listing_ext. intros s Hs. unfold has_object. apply bool_decide_ext. by apply Hnames.
Qed.

(** A record as the decision sees it. *)
Definition listed_live (s : store) : Prop :=
  present s akey /\ ~ tombstone_at pkg f s /\ ~ frozen_at pkg f s.

Lemma live_classified s sc claim :
  sc_origin sc = Some OriginState.PRIVATE -> listed_live s ->
  exists m, classify_record (from_listing (has_object s pkg f) (Some sc) claim) = Live (sha256 sc) StatusDoc.Private m.
Proof.
  intros Ho (Hb & Ht & Hf). unfold classify_record, record_origin, from_listing.
  cbn [frozen tombstoned mirror_quarantined sidecar has_artifact sidecar_origin superseding pkg_origin].
  assert (has_object s pkg f FROZEN_SUFFIX = false) as -> by by apply bool_decide_eq_false_2.
  assert (has_object s pkg f TOMBSTONE_SUFFIX = false) as -> by by apply bool_decide_eq_false_2.
  assert (has_object s pkg f [] = true) as ->.
  { apply bool_decide_eq_true_2. unfold companion_key. by rewrite app_nil_r. }
  cbn [sidecar_origin mbind option_bind]. rewrite Ho. rewrite bool_decide_eq_true_2 by done. rewrite andb_false_r.
  cbn [negb origin_parse]. by eexists.
Qed.

Lemma vacant_classified s claim :
  vacant s -> classify_record (from_listing (has_object s pkg f) None claim) = Absent false.
Proof.
  intros Hv. assert (forall t, t ∈ [] :: companion_suffixes -> has_object s pkg f t = false) as Hn.
  { intros t Ht. apply bool_decide_eq_false_2. rewrite Hv by done. by intros []. }
  unfold classify_record, from_listing, leftovers. cbn. rewrite !Hn by suffix_in. done.
Qed.

(** C24: an undisturbed copy converges, streamed or by the provider's copy verb,
    also where the verb declines the size or its checksum is contradicted.
    Suppose the fleet takes writes, nothing fails and nobody interferes, and the
    claims of the package on both buckets are absent or parse. When one bucket
    holds a live private record (no tombstone, freeze or mirror quarantine) whose
    bytes match its sidecar and fit the staging cap, and another bucket holds
    nothing of that filename, reading both records decides a copy, executing it
    returns, the destination then holds exactly the source's bytes under the
    source's sidecar, and reading both again finds nothing left to do. *)
Theorem copy_converges w sc bytes :
  wf_world w -> "/"%char ∉ f -> claim_readable pkg (w src) -> claim_readable pkg (w dst) ->
  contents (w src) akey = Some bytes -> contents (w src) (sidecar_key akey) = Some (encode sc) ->
  sc_origin sc = Some OriginState.PRIVATE -> sha256_hex bytes = sha256 sc ->
  Z.of_nat (length bytes) <= staging_cap (size sc) ->
  ~ tombstone_at pkg f (w src) -> ~ frozen_at pkg f (w src) ->
  contents (w src) (mirror_quarantined_key akey) = None -> vacant (w dst) ->
  exists ra rb ra' rb' w',
    run v w (read_record src pkg f) = (w, Ok ra) /\ run v w (read_record dst pkg f) = (w, Ok rb)
    /\ decide_records ra rb = Copy Decide.A
    /\ run v w (execute src dst pkg f ra rb FromBucket (Copy Decide.A)) = (w', Ok Converged)
    /\ landed_at sc bytes (w' dst)
    /\ run v w' (read_record src pkg f) = (w', Ok ra') /\ run v w' (read_record dst pkg f) = (w', Ok rb')
    /\ decide_records ra' rb' = Noop.
Proof.
  intros Hw Hf Hcs Hcd Hb Hs Ho Hsha Hcap Ht Hz Hq Hvac.
  assert (forall s, contents s (sidecar_key akey) = Some (encode sc) -> readable (contents s (sidecar_key akey))) as Hread.
  { intros s -> raw [= <-]. exists sc. rewrite decode_encode. split; [done|]. unfold sidecar_origin_ok. by rewrite Ho. }
  assert (contents (w dst) (sidecar_key akey) = None) as Hsd by (apply Hvac; suffix_side).
  destruct (run_read_record w src Hf Hcs (Hread _ Hs)) as [ca Hra]. rewrite Hs in Hra. cbn [mbind option_bind] in Hra. rewrite decode_encode in Hra.
  destruct (run_read_record w dst Hf Hcd) as [cb Hrb]; [by rewrite Hsd|]. rewrite Hsd in Hrb. cbn [mbind option_bind] in Hrb.
  set (ra := from_listing (has_object (w src) pkg f) (Some sc) ca) in *.
  set (rb := from_listing (has_object (w dst) pkg f) None cb) in *.
  assert (present (w src) akey) as Hp by (unfold present; by rewrite Hb).
  destruct (live_classified (w src) sc ca Ho (conj Hp (conj Ht Hz))) as [m Hm]. fold ra in Hm.
  pose proof (vacant_classified (w dst) cb Hvac) as Hmb. fold rb in Hmb.
  destruct (run_execute_copy w ra rb sc bytes) as (w' & Hex & Hon & Hrd & Hl); [done|done|done| | | |].
  { repeat split; try done; cbn; unfold has_object; intros Hh%bool_decide_eq_true; exact Hh. }
  { apply bool_decide_eq_false_2. unfold mirror_quarantined_key in Hq. rewrite Hq. by intros []. }
  { apply bool_decide_eq_false_2. rewrite Hvac by suffix_side. by intros []. }
  assert (forall k, contents (w' src) k = contents (w src) k) as Hsrc.
  { intros k. apply (proj2 Hon), bracket_spares. by left. }
  assert (forall s, s ∈ [TOMBSTONE_SUFFIX; FROZEN_SUFFIX] -> contents (w' dst) (companion_key akey s) = None) as Hfen.
  { intros s Hin. rewrite (proj2 Hon); [apply Hvac; revert s Hin; apply Forall_forall; suffix_side|].
    apply bracket_spares. right. exists s. split; [|split; [|done]]; revert s Hin; apply Forall_forall; suffix_side. }
  destruct (run_read_record w' src Hf) as [ca' Hra']; [intros raw; rewrite Hsrc; apply Hcs|apply Hread; by rewrite Hsrc|].
  destruct (run_read_record w' dst Hf Hrd (Hread _ (proj2 Hl))) as [cb' Hrb'].
  rewrite (proj2 Hl) in Hrb'. rewrite Hsrc, Hs in Hra'. cbn [mbind option_bind] in Hra', Hrb'. rewrite decode_encode in Hra', Hrb'.
  destruct (live_classified (w' src) sc ca' Ho) as [ma Hma].
  { unfold listed_live, tombstone_at, frozen_at, present. by rewrite !Hsrc. }
  destruct (live_classified (w' dst) sc cb' Ho) as [mb' Hmb'].
  { split; [unfold present; by rewrite (proj1 Hl)|]. unfold tombstone_at, frozen_at, present, tombstone_key, frozen_key.
    rewrite !Hfen by suffix_side. split; by intros []. }
  eexists ra, rb, _, _, w'. split; [done|]. split; [done|]. split; [unfold decide_records; by rewrite Hm, Hmb|].
  split; [done|]. split; [done|]. split; [exact Hra'|]. split; [exact Hrb'|].
  unfold decide_records. rewrite Hma, Hmb', decide_True by done. unfold same_bytes. cbn [from_listing sidecar].
  unfold sidecar_merge, ranked_merge. by rewrite cmp_refl, decide_True.
Qed.

End converge.

End progress.

(** *** Witnesses *)

#[local] Existing Instances toy_digest toy_chunking toy_claim_codec toy_sidecar_codec toy_filename_codec
  content_etags no_copy_verb.

Lemma copy_converges_witness :
  exists ra rb ra' rb' w',
    run example_env conflict_world (read_record 0 (&"a") example_file) = (conflict_world, Ok ra)
    /\ run example_env conflict_world (read_record 2 (&"a") example_file) = (conflict_world, Ok rb)
    /\ decide_records ra rb = Copy Decide.A
    /\ run example_env conflict_world (execute 0 2 (&"a") example_file ra rb FromBucket (Copy Decide.A))
       = (w', Ok Converged)
    /\ landed_at (&"a") example_file private_sidecar (&"new") (w' 2%nat)
    /\ run example_env w' (read_record 0 (&"a") example_file) = (w', Ok ra')
    /\ run example_env w' (read_record 2 (&"a") example_file) = (w', Ok rb')
    /\ decide_records ra' rb' = Noop.
Proof.
  apply (copy_converges example_env 0 2 (&"a") example_file example_env_good eq_refl ltac:(done) example_names
    conflict_world private_sidecar (&"new")).
  - apply conflict_world_wf.
  - apply (bool_decide_unpack _). vm_compute. exact I.
  - intros raw Hraw. by vm_compute in Hraw.
  - intros raw Hraw. by vm_compute in Hraw.
  - vm_compute. reflexivity.
  - reflexivity.
  - reflexivity.
  - reflexivity.
  - vm_compute. discriminate.
  - vm_compute. by intros [].
  - vm_compute. by intros [].
  - vm_compute. reflexivity.
  - intros s Hs. repeat (apply elem_of_cons in Hs as [->|Hs]; [vm_compute; reflexivity|]). by apply elem_of_nil in Hs.
Defined.

End Progress.
