(* ===== verification/Scan.v ===== *)
(** * Paged scans and the removal gate (src/replicate.rs)

    The forward-only key cursor and the migrate gate built on it: which
    artifacts and fences stand on a bucket that is about to be dropped and on
    no surviving one. The page loops of the source are unbounded; here they take
    a fuel, and the theorems ask for more of it than a bucket has objects. *)
From stdpp Require Import functions.
From S2P Require Import Prelude RustStr Documents Storage.
Import Storage.

Module Scan.
Import Sidecar.

Definition REMOVAL_DIFF_PAGE : nat := Z.to_nat 1000.

(** One bucket's [packages/] keys, one page resident at a time. *)
Record PagedKeys := MkPaged {
  pk_storage : nat;
  pk_after : option str;
  pk_buf : list str;
  pk_done : bool
}.

Definition paged_new (b : nat) : PagedKeys := MkPaged b None [] false.

Definition keys_fill (p : PagedKeys) : prog (res PagedKeys) :=
  if bool_decide (pk_buf p = []) && negb (pk_done p) then
    let*? page := call (pk_storage p) (ListPage PACKAGES_PREFIX (pk_after p) REMOVAL_DIFF_PAGE) in
    Ret (Ok (MkPaged (pk_storage p) (meta_key <$> last page) (pk_buf p ++ (meta_key <$> page))
                     ((length page <? REMOVAL_DIFF_PAGE)%nat || pk_done p)))
  else Ret (Ok p).

Definition pop_front (p : PagedKeys) : PagedKeys :=
  MkPaged (pk_storage p) (pk_after p) (tail (pk_buf p)) (pk_done p).

Fixpoint contains (fuel : nat) (p : PagedKeys) (target : str) : prog (res (bool * PagedKeys)) :=
  match fuel with
  | O => Ret (Err (Bail (&"scan bound reached")))
  | S fuel =>
    let*? p := keys_fill p in
    match pk_buf p with
    | [] => Ret (Ok (false, p))
    | front :: _ =>
      if decide (cmp front target = Lt) then contains fuel (pop_front p) target
      else Ret (Ok (bool_decide (front = target), p))
    end
  end.

(** [obj.key.rsplit('/').next().unwrap_or("")] *)
Definition last_segment (key : str) : str := default [] (last (split "/"%char key)).

Definition is_fence (filename : str) : bool :=
  existsb (fun suffix => ends_with suffix filename)
    [TOMBSTONE_SUFFIX; FROZEN_SUFFIX; MIRROR_QUARANTINED_SUFFIX].

(** The keys the gate looks at. *)
Definition gated (key : str) : bool :=
  let filename := last_segment key in is_fence filename || is_artifact filename.

(** The [for survivor in &mut survivor_keys] loop with its [break]. *)
Fixpoint on_survivor (fuel : nat) (survivors : list PagedKeys) (key : str)
    : prog (res (bool * list PagedKeys)) :=
  match survivors with
  | [] => Ret (Ok (false, []))
  | s :: rest =>
    let*? found := contains fuel s key in
    let '(here, s) := found in
    if here : bool then Ret (Ok (true, s :: rest)) else
    let*? found := on_survivor fuel rest key in
    let '(present, rest) := found in
    Ret (Ok (present, s :: rest))
  end.

(** One page of the removed bucket; [inr] is the early return of a full sample. *)
Fixpoint diff_page (fuel sample_cap : nat) (page : list ObjectMeta) (survivors : list PagedKeys)
    (samples : list str) : prog (res ((list PagedKeys * list str) + list str)) :=
  match page with
  | [] => Ret (Ok (inl (survivors, samples)))
  | obj :: page =>
    if gated (meta_key obj) then
      let*? found := on_survivor fuel survivors (meta_key obj) in
      let '(present, survivors) := found in
      if present : bool then diff_page fuel sample_cap page survivors samples else
      let samples := samples ++ [meta_key obj] in
      if (sample_cap <=? length samples)%nat then Ret (Ok (inr samples))
      else diff_page fuel sample_cap page survivors samples
    else diff_page fuel sample_cap page survivors samples
  end.

Fixpoint diff_loop (pages fuel : nat) (removed sample_cap : nat) (after : option str)
    (survivors : list PagedKeys) (samples : list str) : prog (res (list str)) :=
  match pages with
  | O => Ret (Err (Bail (&"scan bound reached")))
  | S pages =>
    let*? page := call removed (ListPage PACKAGES_PREFIX after REMOVAL_DIFF_PAGE) in
    if decide (page = []) then Ret (Ok samples) else
    let*? found := diff_page fuel sample_cap page survivors samples in
    match found with
    | inr samples => Ret (Ok samples)
    | inl (survivors, samples) =>
      if (REMOVAL_DIFF_PAGE <=? length page)%nat
      then diff_loop pages fuel removed sample_cap (meta_key <$> last page) survivors samples
      else Ret (Ok samples)
    end
  end.

Definition artifacts_unique_to_removed (fuel : nat) (removed : nat) (survivors : list nat) (sample_cap : nat)
    : prog (res (list str)) :=
  diff_loop fuel fuel removed sample_cap None (paged_new <$> survivors) [].


(** ** The package scan and the pairwise walk *)

Definition RECONCILE_SCAN_PAGE : nat := Z.to_nat 1000.

(** The distinct package names of one bucket, in listing order. *)
Record PackageScan := MkScan {
  sc_storage : nat;
  sc_after : option str;
  sc_buf : list str;
  sc_last_emitted : option str;
  sc_done : bool
}.

Definition scan_new (b : nat) : PackageScan := MkScan b None [] None false.

(** The package a key belongs to. *)
Definition package_of (key : str) : option str :=
  let! rest := strip_prefix PACKAGES_PREFIX key in
  let! parts := split_once "/"%char rest in
  Some parts.1.

(** The loop over one page. *)
Fixpoint absorb (page : list ObjectMeta) (buf : list str) (last_emitted : option str)
    : list str * option str :=
  match page with
  | [] => (buf, last_emitted)
  | obj :: page =>
    match package_of (meta_key obj) with
    | Some name =>
      if decide (last_emitted = Some name) then absorb page buf last_emitted
      else absorb page (buf ++ [name]) (Some name)
    | None => absorb page buf last_emitted
    end
  end.

Fixpoint scan_fill (fuel : nat) (s : PackageScan) : prog (res PackageScan) :=
  if bool_decide (sc_buf s = []) && negb (sc_done s) then
    match fuel with
    | O => Ret (Err (Bail (&"scan bound reached")))
    | S fuel =>
      let*? page := call (sc_storage s) (ListPage PACKAGES_PREFIX (sc_after s) RECONCILE_SCAN_PAGE) in
      if decide (page = []) then
        Ret (Ok (MkScan (sc_storage s) (sc_after s) (sc_buf s) (sc_last_emitted s) true))
      else
        let '(buf, last_emitted) := absorb page (sc_buf s) (sc_last_emitted s) in
        scan_fill fuel (MkScan (sc_storage s) (meta_key <$> last page) buf last_emitted
                               (negb (RECONCILE_SCAN_PAGE <=? length page)%nat || sc_done s))
    end
  else Ret (Ok s).

Definition peek (fuel : nat) (s : PackageScan) : prog (res (option str * PackageScan)) :=
  let*? s := scan_fill fuel s in Ret (Ok (head (sc_buf s), s)).

Definition advance (s : PackageScan) : PackageScan :=
  MkScan (sc_storage s) (sc_after s) (tail (sc_buf s)) (sc_last_emitted s) (sc_done s).

(** Which package comes next and which scans move past it. *)
Definition next_package (next_a next_b : option str) (sa sb : PackageScan)
    : option (str * PackageScan * PackageScan) :=
  match next_a, next_b with
  | None, None => None
  | Some a, None => Some (a, advance sa, sb)
  | None, Some b => Some (b, sa, advance sb)
  | Some a, Some b =>
    match cmp a b with
    | Lt => Some (a, advance sa, sb)
    | Gt => Some (b, sa, advance sb)
    | Eq => Some (a, advance sa, advance sb)
    end
  end.

Section theorems.
Context {E : Etags}.

(** ** The cursor *)

Definition package_keys (w : world) (b : nat) : list str := meta_key <$> list_all PACKAGES_PREFIX (w b).

Definition lt (x y : str) : Prop := cmp x y = Lt.

Lemma package_keys_sorted w b : StronglySorted lt (package_keys w b).
Proof.
  unfold package_keys. induction (list_all_sorted PACKAGES_PREFIX (w b)) as [|x l _ IH Hx];
    cbn [fmap list_fmap]; constructor; [done|]. by rewrite Forall_fmap.
Qed.

(** The keys a cursor has still to show. *)
Definition remaining (w : world) (p : PagedKeys) : list str :=
  pk_buf p ++ (if pk_done p then [] else
    meta_key <$> filter (after_key (pk_after p)) (list_all PACKAGES_PREFIX (w (pk_storage p)))).

(** A cursor that has passed only keys below [t]. *)
Definition passed (w : world) (t : str) (p : PagedKeys) : Prop :=
  exists gone, package_keys w (pk_storage p) = gone ++ remaining w p /\ Forall (fun k => lt k t) gone.

Lemma passed_new w t b : passed w t (paged_new b).
Proof.
  exists []. split; [|done]. unfold remaining, package_keys, paged_new; cbn [pk_buf pk_done pk_after pk_storage]. by rewrite filter_all.
Qed.

Lemma passed_mono w t t' p : (t = t' \/ lt t t') -> passed w t p -> passed w t' p.
Proof.
  intros Ht (gone & Hg & Hlt). exists gone. split; [done|]. eapply Forall_impl; [exact Hlt|].
  intros k Hk. destruct Ht as [<-|Ht]; [done|]. exact (cmp_lt_trans _ _ _ Hk Ht).
Qed.

(** A page and what follows it. *)
Lemma page_split (w : world) (b : nat) after :
  let rest := filter (after_key after) (list_all PACKAGES_PREFIX (w b)) in
  let page := take REMOVAL_DIFF_PAGE rest in
  rest = page ++ (if (length page <? REMOVAL_DIFF_PAGE)%nat then []
                  else filter (after_key (meta_key <$> last page)) (list_all PACKAGES_PREFIX (w b))).
Proof.
  intros rest page. destruct (Nat.ltb_spec (length page) REMOVAL_DIFF_PAGE) as [Hl|Hl].
  - unfold page in *. rewrite length_take in Hl. rewrite take_ge by lia. by rewrite app_nil_r.
  - destruct (last page) as [x|] eqn:Hx.
    + cbn [fmap option_fmap option_map]. rewrite (page_rest after REMOVAL_DIFF_PAGE _ x); [|apply list_all_sorted|done].
      unfold page, rest. by rewrite take_drop.
    + apply last_None in Hx. rewrite Hx in Hl. by apply Nat.le_0_r in Hl.
Qed.

Lemma run_keys_fill v w p :
  exists p', run v w (keys_fill p) = (w, Ok p') /\ pk_storage p' = pk_storage p
             /\ remaining w p' = remaining w p /\ (pk_buf p' = [] -> remaining w p' = []).
Proof.
  unfold keys_fill. destruct (bool_decide (pk_buf p = [])) eqn:Hb; cbn [andb].
  2:{ exists p. repeat split. intros He. by apply bool_decide_eq_false in Hb. }
  apply bool_decide_eq_true in Hb. destruct (pk_done p) eqn:Hd; cbn [negb].
  { exists p. repeat split. intros _. unfold remaining. by rewrite Hb, Hd. }
  rewrite run_bind_ok, run_call. cbn [op_run fst snd run]. rewrite fn_insert_id. unfold list_page.
  set (rest := filter _ _). set (page := take _ _). rewrite orb_false_r.
  pose proof (page_split w (pk_storage p) (pk_after p)) as Hs. fold rest page in Hs. cbv zeta in Hs.
  eexists. split; [done|]. split; [done|].
  assert (remaining w p = meta_key <$> rest) as Hr by (unfold remaining; by rewrite Hb, Hd).
  rewrite Hr. unfold remaining; cbn [pk_buf pk_done pk_after pk_storage]. rewrite Hb, app_nil_l. split.
  - rewrite Hs, fmap_app. f_equal. change (take REMOVAL_DIFF_PAGE rest) with page. by destruct (length page <? REMOVAL_DIFF_PAGE)%nat.
  - intros Hp%fmap_nil_inv. rewrite Hp. by cbn.
Qed.

(** What the cursor answers: presence of the target, and a cursor that has
    passed only keys below it. *)
Lemma run_contains v w fuel p target :
  passed w target p -> (length (remaining w p) < fuel)%nat ->
  exists p', run v w (contains fuel p target)
             = (w, Ok (bool_decide (target ∈ package_keys w (pk_storage p)), p'))
             /\ pk_storage p' = pk_storage p /\ passed w target p'.
Proof.
  revert p. induction fuel as [|fuel IH]; intros p Hp Hf; [lia|]. cbn [contains].
  rewrite run_bind_ok. destruct (run_keys_fill v w p) as (p1 & -> & Hst & Hrem & Hnil).
  cbn [fst snd]. rewrite <- Hst, <- Hrem in *.
  assert (passed w target p1) as Hp1.
  { destruct Hp as (gone & Hg & Hlt). exists gone. by rewrite Hst, Hrem. }
  clear Hp p Hst Hrem. destruct Hp1 as (gone & Hg & Hlt).
  assert (target ∉ gone) as Hgone.
  { intros Hin. rewrite Forall_forall in Hlt. specialize (Hlt _ Hin). unfold lt in Hlt.
    by rewrite cmp_refl in Hlt. }
  destruct (pk_buf p1) as [|front buf] eqn:Hbuf.
  - exists p1. split; [|split; [done|by exists gone]]. cbn [run]. do 3 f_equal. symmetry.
    apply bool_decide_eq_false. rewrite Hg, (Hnil eq_refl), app_nil_r. done.
  - assert (remaining w p1 = front :: remaining w (pop_front p1)) as Hpop.
    { unfold remaining, pop_front; simpl. by rewrite Hbuf. }
    case_decide as Hc.
    + destruct (IH (pop_front p1)) as (p2 & Hrun & Hst2 & Hp2).
      * exists (gone ++ [front]). rewrite <- app_assoc. split; [change (package_keys w (pk_storage p1) = gone ++ ([front] ++ remaining w (pop_front p1))); by rewrite Hg, Hpop|].
        apply Forall_app. split; [done|]. by constructor.
      * rewrite Hpop in Hf. simpl in Hf. lia.
      * exists p2. by rewrite Hrun.
    + exists p1. split; [|split; [done|by exists gone]]. cbn [run]. do 3 f_equal.
      apply bool_decide_ext. rewrite Hg, elem_of_app, Hpop, elem_of_cons.
      pose proof (package_keys_sorted w (pk_storage p1)) as Hsort. rewrite Hg, Hpop in Hsort.
      split; [intros ->; right; by left|]. intros [?|[->|Hin]]; [done|done|]. exfalso. apply Hc.
      apply (StronglySorted_app_1_elem_of lt (gone ++ [front]) (remaining w (pop_front p1))).
      { by rewrite <- app_assoc. }
      { set_solver. } { done. }
Qed.

(** ** The removal gate *)

(** The keys of the removed bucket that stand nowhere else. *)
Definition lost (w : world) (survivors : list nat) (key : str) : bool :=
  gated key && forallb (fun s => negb (bool_decide (key ∈ package_keys w s))) survivors.

Definition enough (w : world) (fuel : nat) (bs : list nat) : Prop :=
  Forall (fun b => (length (package_keys w b) < fuel)%nat) bs.

Lemma passed_short w t p fuel :
  passed w t p -> (length (package_keys w (pk_storage p)) < fuel)%nat -> (length (remaining w p) < fuel)%nat.
Proof. intros (gone & -> & _). rewrite length_app. lia. Qed.

Lemma run_on_survivor v w fuel ps key :
  Forall (passed w key) ps -> enough w fuel (pk_storage <$> ps) ->
  exists ps', run v w (on_survivor fuel ps key)
              = (w, Ok (negb (forallb (fun s => negb (bool_decide (key ∈ package_keys w s))) (pk_storage <$> ps)), ps'))
              /\ pk_storage <$> ps' = pk_storage <$> ps /\ Forall (passed w key) ps'.
Proof.
  induction ps as [|p ps IH]; intros Hp Hf; cbn [on_survivor].
  { exists []. by cbn. }
  cbn [fmap list_fmap] in *. inversion_clear Hp as [|? ? Hp1 Hps]. inversion_clear Hf as [|? ? Hf1 Hfs].
  rewrite run_bind_ok. destruct (run_contains v w fuel p key) as (p' & Hc & Hst & Hp'); [done|by eapply passed_short|].
  rewrite Hc. cbn [fst snd forallb]. case_bool_decide; cbn [negb andb].
  - exists (p' :: ps). cbn [fmap list_fmap run]. rewrite Hst. split; [done|]. split; [done|]. by constructor.
  - rewrite run_bind_ok. destruct (IH Hps Hfs) as (ps' & -> & Hsts & Hps'). cbn [fst snd run].
    exists (p' :: ps'). cbn [fmap list_fmap]. rewrite Hst, Hsts. split; [done|]. split; [done|]. by constructor.
Qed.

(** What a page of the removed bucket leaves: the findings so far with cursors
    that have passed only keys below what follows, or a full sample. *)
Definition page_result (w : world) (bs : list nat) (cap : nat) (page : list ObjectMeta) (ps : list PagedKeys)
    (found : list str) (r : (list PagedKeys * list str) + list str) : Prop :=
  match r with
  | inl (ps', samples) =>
    samples = found /\ (length found < Nat.max 1 cap)%nat /\ pk_storage <$> ps' = bs /\
    forall t, (forall o, o ∈ page -> lt (meta_key o) t) -> Forall (passed w t) ps -> Forall (passed w t) ps'
  | inr samples => samples = take (Nat.max 1 cap) found /\ (Nat.max 1 cap <= length found)%nat
  end.

Lemma page_result_cons w bs cap o page ps ps1 found r :
  (forall t, lt (meta_key o) t -> Forall (passed w t) ps -> Forall (passed w t) ps1) ->
  page_result w bs cap page ps1 found r -> page_result w bs cap (o :: page) ps found r.
Proof.
  intros Hm. destruct r as [[ps' samples]|samples]; [|done]. intros (-> & Hlen & Hst & Hmono).
  do 3 (split; [done|]). intros t Ht Hp. apply Hmono; [intros o' Ho'; apply Ht; by right|].
  apply Hm; [|done]. apply Ht. left.
Qed.

Lemma run_diff_page v w fuel cap page ps samples bs :
  StronglySorted key_lt page -> (forall o, o ∈ page -> Forall (passed w (meta_key o)) ps) ->
  pk_storage <$> ps = bs -> enough w fuel bs -> (length samples < Nat.max 1 cap)%nat ->
  exists r, run v w (diff_page fuel cap page ps samples) = (w, Ok r) /\
    page_result w bs cap page ps (samples ++ filter (fun k => lost w bs k = true) (meta_key <$> page)) r.
Proof.
  revert ps samples. induction page as [|o page IH]; intros ps samples Hsort Hp Hst Hf Hl; cbn [diff_page].
  { exists (inl (ps, samples)). cbn [fmap list_fmap filter list_filter]. by rewrite app_nil_r. }
  apply StronglySorted_inv in Hsort as [Hsort Ho]. rewrite Forall_forall in Ho.
  assert (forall ps' samples',
      (forall t, lt (meta_key o) t -> Forall (passed w t) ps -> Forall (passed w t) ps') ->
      pk_storage <$> ps' = bs -> (length samples' < Nat.max 1 cap)%nat ->
      exists r, run v w (diff_page fuel cap page ps' samples') = (w, Ok r) /\
        page_result w bs cap (o :: page) ps
          (samples' ++ filter (fun k => lost w bs k = true) (meta_key <$> page)) r) as Hnext.
  { intros ps' samples' Hm Hst' Hl'. destruct (IH ps' samples') as (r & Hr & Hres); [done| |done..|].
    - intros o' Ho'. apply Hm; [by apply Ho|]. apply Hp. by right.
    - exists r. split; [done|]. by eapply page_result_cons. }
  cbn [fmap list_fmap]. rewrite filter_cons.
  assert (lost w bs (meta_key o) = gated (meta_key o) && _) as Hlost by reflexivity.
  destruct (gated (meta_key o)) eqn:Hg; cbn [andb] in Hlost.
  2:{ rewrite Hlost, decide_False by done. by apply Hnext. }
  rewrite run_bind_ok. destruct (run_on_survivor v w fuel ps (meta_key o)) as (ps1 & -> & Hst1 & Hps1).
  { apply Hp. left. } { by rewrite Hst. }
  cbn [fst snd]. rewrite Hst in *.
  assert (forall t, lt (meta_key o) t -> Forall (passed w t) ps -> Forall (passed w t) ps1) as Hm1.
  { intros t Ht _. eapply Forall_impl; [exact Hps1|]. intros p. apply passed_mono. by right. }
  destruct (forallb _ _); cbn [negb]; rewrite Hlost.
  2:{ rewrite decide_False by done. by apply Hnext. }
  rewrite decide_True, (cons_middle (meta_key o) samples (filter _ _)),
    (app_assoc samples [meta_key o] (filter _ _)) by done.
  destruct (Nat.leb_spec cap (length (samples ++ [meta_key o]))) as [Hc|Hc].
  - exists (inr (samples ++ [meta_key o])). split; [done|].
    assert (Nat.max 1 cap = length (samples ++ [meta_key o])) as Hcap by (rewrite length_app in *; simpl in *; lia).
    unfold page_result. rewrite Hcap, take_app_length, (length_app (_ ++ _)). split; [done|lia].
  - apply Hnext; [done|done|lia].
Qed.

Lemma take_sorted n (l : list ObjectMeta) : StronglySorted key_lt l -> StronglySorted key_lt (take n l).
Proof.
  intros Hl. revert n. induction Hl as [|x l _ IH Hx]; intros [|n]; cbn [take]; constructor; [done|].
  by apply Forall_take.
Qed.

Lemma run_diff_loop v w fuel pages removed cap after ps samples bs :
  let rest := filter (after_key after) (list_all PACKAGES_PREFIX (w removed)) in
  (length rest < pages)%nat ->
  (forall o, o ∈ rest -> Forall (passed w (meta_key o)) ps) ->
  pk_storage <$> ps = bs -> enough w fuel bs -> (length samples < Nat.max 1 cap)%nat ->
  run v w (diff_loop pages fuel removed cap after ps samples)
  = (w, Ok (take (Nat.max 1 cap) (samples ++ filter (fun k => lost w bs k = true) (meta_key <$> rest)))).
Proof.
  revert after ps samples. induction pages as [|pages IH]; intros after ps samples rest Hn Hp Hst Hf Hl; [lia|].
  cbn [diff_loop]. rewrite run_bind_ok, run_call. cbn [op_run fst snd]. rewrite fn_insert_id.
  unfold list_page. fold rest. pose proof (page_split w removed after) as Hs. cbv zeta in Hs. fold rest in Hs.
  set (page := take REMOVAL_DIFF_PAGE rest) in *.
  assert (StronglySorted key_lt rest) as Hsort by (apply StronglySorted_filter_after, list_all_sorted).
  case_decide as Hpage.
  { rewrite Hpage in Hs. cbn in Hs. rewrite Hs. cbn [fmap list_fmap filter list_filter run].
    rewrite app_nil_r, take_ge by lia. done. }
  rewrite run_bind_ok. destruct (run_diff_page v w fuel cap page ps samples bs) as (r & -> & Hr); try done.
  { by apply take_sorted. }
  { intros o Ho. apply Hp. rewrite Hs. apply elem_of_app. by left. }
  cbn [fst snd]. rewrite Hs, fmap_app, filter_app, app_assoc.
  set (found := samples ++ filter _ (meta_key <$> page)) in *.
  destruct r as [[ps' samples']|samples'].
  2:{ destruct Hr as [-> Hlen]. cbn [run]. by rewrite take_app_le. }
  destruct Hr as (-> & Hlen & Hst' & Hmono). rewrite Nat.ltb_antisym.
  destruct (REMOVAL_DIFF_PAGE <=? length page)%nat eqn:Hfull; cbn [negb].
  2:{ cbn [fmap list_fmap filter list_filter run]. rewrite app_nil_r, take_ge by lia. done. }
  rewrite Nat.ltb_antisym, Hfull in Hs. cbn [negb] in Hs. rewrite Hs in Hn, Hsort, Hp.
  apply IH; [|..]; try done.
  - rewrite length_app in Hn. destruct page; [done|]. simpl in Hn. lia.
  - intros o Ho. apply Hmono.
    + intros o' Ho'. exact (StronglySorted_app_1_elem_of key_lt _ _ o' o Hsort Ho' Ho).
    + apply Hp, elem_of_app. by right.
Qed.

(** C27: the gate in front of dropping a bucket is exact. Its paged merge walk
    reports the first artifact and fence keys (up to the sample size) that stand
    on the removed bucket and on no surviving one, in key order, and nothing
    else; so an empty report means that every body, tombstone, freeze and
    demotion fence of the removed bucket stands on a survivor. *)
Theorem removal_gate_exact v w fuel removed survivors cap :
  enough w fuel (removed :: survivors) ->
  run v w (artifacts_unique_to_removed fuel removed survivors cap)
  = (w, Ok (take (Nat.max 1 cap) (filter (fun k => lost w survivors k = true) (package_keys w removed)))).
Proof.
  intros Hf. inversion_clear Hf as [|? ? Hr Hs]. unfold artifacts_unique_to_removed.
  assert (filter (after_key None) (list_all PACKAGES_PREFIX (w removed)) = list_all PACKAGES_PREFIX (w removed))
    as Hall by by apply filter_all.
  assert (pk_storage <$> (paged_new <$> survivors) = survivors) as Hst
    by (rewrite <- list_fmap_compose; apply list_fmap_id).
  rewrite (run_diff_loop _ _ _ _ _ _ _ _ _ survivors); rewrite ?Hall; try done.
  - unfold package_keys in Hr; by rewrite length_fmap in Hr.
  - intros o _. apply Forall_fmap, Forall_true. intros b. apply passed_new.
  - simpl. lia.
Qed.

End theorems.

(** ** An example fleet: one artifact on both buckets, one only on the first. *)
#[local] Existing Instance content_etags.

Definition two_buckets : world :=
  (run example_env empty_world
    (let* _ := call 0 (PutBytes (&"packages/a/a-1.tar.gz") (&"x")) in
     let* _ := call 0 (PutBytes (&"packages/a/a-1.tar.gz.meta.json") (&"{}")) in
     let* _ := call 0 (PutBytes (&"packages/b/b-1.tar.gz.tombstone") (&"{}")) in
     call 1 (PutBytes (&"packages/a/a-1.tar.gz") (&"x")))).1.

Lemma removal_gate_exact_witness :
  run example_env two_buckets (artifacts_unique_to_removed 5 0 [1%nat] 20)
  = (two_buckets, Ok [&"packages/b/b-1.tar.gz.tombstone"]).
Proof.
  assert (enough two_buckets 5 [0%nat; 1%nat]) as Hf by (repeat constructor; vm_compute; lia).
  rewrite (removal_gate_exact example_env two_buckets 5 0 [1%nat] 20 Hf). reflexivity.
Defined.

(** Names come out in the order of their keys, where [a-b/] sorts before [a/]:
    not in the order of the names. *)
Definition dashed_world : world :=
  (run example_env empty_world
    (let* _ := call 0 (PutBytes (&"packages/a/.origin") (&"private")) in
     call 0 (PutBytes (&"packages/a-b/.origin") (&"private")))).1.

Example scan_follows_key_order :
  (run example_env dashed_world (let*? s := scan_fill 2 (scan_new 0) in Ret (Ok (sc_buf s)))).2
  = Ok [&"a-b"; &"a"] /\ cmp (&"a" : str) (&"a-b") = Lt.
Proof. by vm_compute. Qed.

End Scan.
