(* ===== verification/Converge.v ===== *)
(** * Converging a package across two buckets (src/replicate.rs)

    The package-level programs above the executor of one record: the repair of
    a split origin claim, the reconciliation of the project status, the merge of
    one record ([replicate_record]) and of a whole package
    ([converge_package]), and the pairwise walk of two buckets. *)
From stdpp Require Import functions.
From S2P Require Import Prelude RustStr Documents Hash Decide Storage Origin Status Markers Replicate Artifact Execute Scan.
Import Storage.

Module Converge.
Import Sidecar Decide Origin Hash Status Markers Replicate Artifact Execute Scan.

Definition ORIGIN_MARKER : str := &".origin".
Definition PROJECT_STATUS_MARKER : str := &".project-status.json".

(** Each side's claim after the repair, and whether its mirror artifacts were
    scanned. *)
Record SplitOriginReconciled := MkSplit {
  a_origin : option StatusDoc.Origin;
  b_origin : option StatusDoc.Origin;
  scanned_a : bool;
  scanned_b : bool
}.

Section programs.
Context {D : Digest} {T : Chunking} `{ClaimCodec} {JS : Codec Sidecar} {JF : Codec FilenameBody}
  {JP : Codec StatusDoc.StoredProjectStatus} {V : CopyVerb}.

(** ** Split claims *)

(** Quarantining the mirror bodies of a demoted side, with its rebuild signal. *)
Definition quarantine_side (b : nat) (pkg : str) : prog (res unit) :=
  let*? quarantined := quarantine_mirror_artifacts b pkg in
  if (0 <? quarantined)%nat then mark_dirty b pkg else Ret (Ok tt).

(** One turn of the promotion loop: the side's new claim and whether it was
    scanned. *)
Definition promote_side (b : nat) (pkg : str) (origin : option StatusDoc.Origin)
    : prog (res (option StatusDoc.Origin * bool)) :=
  if decide (origin = Some StatusDoc.Private) then Ret (Ok (origin, false)) else
  let*? _ := ensure_private_origin b pkg in
  let*? scanned := (if decide (origin = Some StatusDoc.Mirror)
                    then let*? _ := quarantine_side b pkg in Ret (Ok true)
                    else Ret (Ok false)) in
  Ret (Ok (Some StatusDoc.Private, scanned)).

(** A mirror claim that stands alone is reserved on the peer. *)
Definition reserve_mirror (a b : nat) (pkg : str) (oa ob : option StatusDoc.Origin)
    : prog (res (option StatusDoc.Origin * option StatusDoc.Origin)) :=
  if decide (oa = Some StatusDoc.Mirror /\ ob = None) then
    let*? o := ensure_mirror_origin b pkg in Ret (Ok (oa, Some o))
  else if decide (ob = Some StatusDoc.Mirror /\ oa = None) then
    let*? o := ensure_mirror_origin a pkg in Ret (Ok (Some o, ob))
  else Ret (Ok (oa, ob)).

Definition reconcile_split_origin (a b : nat) (pkg : str) (oa ob : option StatusDoc.Origin)
    : prog (res SplitOriginReconciled) :=
  let*? claims := reserve_mirror a b pkg oa ob in
  let '(oa, ob) := claims in
  if decide (claim_join oa ob = Some StatusDoc.Private) then
    let*? ra := promote_side a pkg oa in
    let*? rb := promote_side b pkg ob in
    Ret (Ok (MkSplit ra.1 rb.1 ra.2 rb.2))
  else Ret (Ok (MkSplit oa ob false false)).

(** ** Project status *)

Fixpoint normalize_loop (attempts : nat) (b : nat) (pkg : str) : prog (res bool) :=
  match attempts with
  | O => Ret (Err (Bail (&"could not normalize late mirror status")))
  | S attempts =>
    let*? current := read_status_versioned b pkg in
    match current with
    | None => Ret (Ok false)
    | Some current =>
      if decide (StatusDoc.origin current = Some StatusDoc.Mirror) then
        let*? put := put_status_if_version b pkg (Some (StatusDoc.status_etag current))
                       StatusDoc.status_doc_default 0 (Some StatusDoc.Private) in
        if put : bool then Ret (Ok true) else normalize_loop attempts b pkg
      else Ret (Ok false)
    end
  end.

(** Under the package intent: the claim must still be the one observed. *)
Definition normalize_claimed (b : nat) (pkg : str) (claim : OriginObservation) : prog (res bool) :=
  let*? again := read_origin_observation b pkg in
  if decide (again = Some claim) then normalize_loop ORIGIN_ATTEMPTS b pkg else Ret (Ok false).

Definition normalize_mirror_status_under_private_claim (b : nat) (pkg : str) : prog (res bool) :=
  let*? observed := read_origin_observation b pkg in
  match observed with
  | None => Ret (Ok false)
  | Some claim =>
    if decide (state claim = OriginState.Private) then
      let*? initial_status := read_status_versioned b pkg in
      match initial_status with
      | None => Ret (Ok false)
      | Some initial_status =>
        if decide (StatusDoc.origin initial_status = Some StatusDoc.Mirror) then
          let*? nonce := mark_intent b pkg in
          let* result := normalize_claimed b pkg claim in
          let* committed := mark_commit b pkg nonce in
          Ret (match result, committed with
               | Ok changed, Ok _ => Ok changed
               | Err e, _ => Err e
               | Ok _, Err e => Err e
               end)
        else Ret (Ok false)
      end
    else Ret (Ok false)
  end.

Definition reconcile_project_status (a b : nat) (pkg : str) : prog (res unit) :=
  let*? _ := normalize_mirror_status_under_private_claim a pkg in
  let*? _ := normalize_mirror_status_under_private_claim b pkg in
  let*? r := reconcile_status_pair a b pkg in
  match r with
  | InSync => Ret (Ok tt)
  | UpdatedLeft => mark_dirty a pkg
  | UpdatedRight => mark_dirty b pkg
  end.

(** ** A package *)

(** The base filename a member implies. *)
Definition candidate (name : str) : option str :=
  match strip_suffix TOMBSTONE_SUFFIX name with
  | Some base => Some base
  | None =>
    match strip_suffix FROZEN_SUFFIX name with
    | Some base => Some base
    | None =>
      match strip_suffix MIRROR_QUARANTINED_SUFFIX name with
      | Some base => Some base
      | None => if is_artifact name then Some name else None
      end
    end
  end.

Definition candidate_filenames (names : list str) : list str := remove_dups (omap candidate names).

(** The union of both sides' candidates, sorted. *)
Definition pair_filenames (a_names b_names : list str) : list str :=
  merge_sort str_le (remove_dups (candidate_filenames a_names ++ candidate_filenames b_names)).

Definition package_member_names (b : nat) (pkg : str) : prog (res (list str)) :=
  let prefix := PACKAGES_PREFIX ++ pkg ++ &"/" in
  let*? entries := call b (ListDirEntries prefix) in
  Ret (Ok (names_under prefix entries)).

Definition names_if (rescan : bool) (b : nat) (pkg : str) (names : list str) : prog (res (list str)) :=
  if rescan then package_member_names b pkg else Ret (Ok names).

(** The rebuild signal a deferred bare side gets. *)
Definition signal_bare (b : nat) (pkg : str) (r : Record_) : prog (res unit) :=
  if decide (classify_record r = Bare) then mark_dirty b pkg else Ret (Ok tt).

Section package.
Variables (a b : nat) (pkg : str) (oa ob : option StatusDoc.Origin).

(** A late mirror record: quarantine the side and list it again. *)
Definition repair_late (late : bool) (side : nat) (names : list str) : prog (res (list str)) :=
  if late then let*? _ := quarantine_side side pkg in package_member_names side pkg
  else Ret (Ok names).

(** The loop over the filenames: [inl] carries the fresh listings of a late
    mirror retry, [inr] the outcome. *)
Fixpoint converge_files (filenames : list str) (a_names b_names : list str) (outcome : Convergence)
    : prog (res ((list str * list str) + Convergence)) :=
  match filenames with
  | [] => Ret (Ok (inr outcome))
  | filename :: filenames =>
    let*? ra := record_from_names a pkg filename a_names oa in
    let*? rb := record_from_names b pkg filename b_names ob in
    let late_a := is_late_mirror ra oa in
    let late_b := is_late_mirror rb ob in
    if late_a || late_b then
      let*? a_names := repair_late late_a a a_names in
      let*? b_names := repair_late late_b b b_names in
      Ret (Ok (inl (a_names, b_names)))
    else
      let*? result := execute a b pkg filename ra rb FromBucket (decide_records ra rb) in
      match result with
      | Converged => converge_files filenames a_names b_names outcome
      | Deferred =>
        let*? _ := signal_bare a pkg ra in
        let*? _ := signal_bare b pkg rb in
        converge_files filenames a_names b_names Deferred
      end
  end.

Fixpoint converge_tries (tries : nat) (a_names b_names : list str) : prog (res Convergence) :=
  match tries with
  | O => Ret (Err (Bail (&"package kept exposing mirror records under a private claim")))
  | S tries =>
    let*? r := converge_files (pair_filenames a_names b_names) a_names b_names Converged in
    match r with
    | inl (a_names, b_names) => converge_tries tries a_names b_names
    | inr outcome => Ret (Ok outcome)
    end
  end.

End package.

Definition converge_package (a b : nat) (pkg : str) : prog (res Convergence) :=
  let*? _ := require_replication_unfenced a in
  let*? a_names := package_member_names a pkg in
  let*? b_names := package_member_names b pkg in
  let*? oa := read_pkg_origin a pkg in
  let*? ob := read_pkg_origin b pkg in
  let*? split := reconcile_split_origin a b pkg oa ob in
  let*? a_names := names_if (scanned_a split) a pkg a_names in
  let*? b_names := names_if (scanned_b split) b pkg b_names in
  let*? _ := (if decide (a_origin split = Some StatusDoc.Private \/ b_origin split = Some StatusDoc.Private)
              then reconcile_project_status a b pkg else Ret (Ok tt)) in
  converge_tries a b pkg (a_origin split) (b_origin split) 3 a_names b_names.

(** ** One record *)

(** After a late mirror record was repaired through the whole package, both
    records are read again. *)
Definition reread_late (src dst : nat) (pkg filename : str) (ra rb : Record_)
    (os od : option StatusDoc.Origin) : prog (res (Record_ * Record_)) :=
  if is_late_mirror ra os || is_late_mirror rb od then
    let*? _ := converge_package src dst pkg in
    let*? ra := read_record src pkg filename in
    let*? rb := read_record dst pkg filename in
    Ret (Ok (ra, rb))
  else Ret (Ok (ra, rb)).

Definition replicate_record (src dst : nat) (pkg filename : str) (source : ArtifactSource)
    : prog (res Convergence) :=
  let*? _ := require_replication_unfenced src in
  let*? os := read_pkg_origin src pkg in
  let*? od := read_pkg_origin dst pkg in
  let*? split := reconcile_split_origin src dst pkg os od in
  if decide (filename = ORIGIN_MARKER) then Ret (Ok Converged) else
  if decide (filename = PROJECT_STATUS_MARKER) then
    let*? _ := (if decide (a_origin split = Some StatusDoc.Private \/ b_origin split = Some StatusDoc.Private)
                then reconcile_project_status src dst pkg else Ret (Ok tt)) in
    Ret (Ok Converged)
  else
    let*? ra := read_record src pkg filename in
    let*? rb := read_record dst pkg filename in
    let*? records := reread_late src dst pkg filename ra rb (a_origin split) (b_origin split) in
    let '(ra, rb) := records in
    execute src dst pkg filename ra rb source (decide_records ra rb).

(** ** The walk of two buckets *)

(** The failing packages are only counted: their texts go to the log. *)
Fixpoint diff_walk (steps fuel : nat) (a b : nat) (sa sb : PackageScan) (failures : nat)
    (deferred : list str) : prog (res (list str)) :=
  match steps with
  | O => Ret (Err (Bail (&"scan bound reached")))
  | S steps =>
    let*? pa := peek fuel sa in
    let*? pb := peek fuel sb in
    match next_package pa.1 pb.1 pa.2 pb.2 with
    | None => Ret (if (failures =? 0)%nat then Ok deferred else Err (Bail (&"package diffs failed")))
    | Some (pkg, sa, sb) =>
      let* r := converge_package a b pkg in
      match r with
      | Ok Converged => diff_walk steps fuel a b sa sb failures deferred
      | Ok Deferred => diff_walk steps fuel a b sa sb failures (deferred ++ [pkg])
      | Err _ => diff_walk steps fuel a b sa sb (S failures) deferred
      end
    end
  end.

Definition diff_pair (fuel : nat) (a b : nat) : prog (res (list str)) :=
  diff_walk fuel fuel a b (scan_new a) (scan_new b) 0 [].

End programs.

End Converge.
