(* ===== verification/Claims.v ===== *)
(** * What replication does to the origin claims

    Every program of the executor and of the package merge moves claims only
    along the lattice of [Origin], and writes nothing that could be taken for a
    member named like the claim. So private ownership, once on one bucket, is
    carried to the other by every pass that returns, whatever other nodes do. *)
From stdpp Require Import functions.
From S2P Require Import Prelude RustStr Documents Hash Decide Storage Origin Status Markers Replicate Artifact Execute Footprint Scan Converge.
Import Storage.

Module Claims.
Import Sidecar Decide Origin Hash Status Markers Replicate Artifact Execute Footprint Scan Converge.

(** ** The keys of a package that are not its claim *)

(** A filename that is not a path and does not begin like the claim's name. *)
Definition member_name (f : str) : Prop := ("/"%char ∉ f) /\ starts_with ORIGIN_MARKER f = false.

(** The keys of a package's members (of the names in [M]), copies and markers. *)
Inductive package_key (M : str -> Prop) (pkg : str) : str -> Prop :=
  | key_member f s : M f -> s ∈ [] :: companion_suffixes ->
      package_key M pkg (companion_key (artifact_key pkg f) s)
  | key_quarantine f sha : package_key M pkg (quarantine_key pkg f sha)
  | key_marker n s : package_key M pkg (marker_key pkg n s)
  | key_status : package_key M pkg (status_key pkg).

(** A member whose name extends the claim's: nothing in the program writes one. *)
Definition shadow_key (k : str) : Prop :=
  exists pkg s, ("/"%char ∉ s) /\ s ≠ [] /\ k = origin_key pkg ++ s.

Lemma last_segment_inj (c : ascii) (p q x y : str) :
  c ∉ x -> c ∉ y -> p ++ c :: x = q ++ c :: y -> p = q /\ x = y.
Proof.
  intros Hx Hy. revert q. induction p as [|d p IH]; intros [|d' q] Heq; simpl in Heq; [by simplify_eq|..];
    injection Heq as Hd Heq; [subst..|].
  - exfalso. apply Hx. set_solver.
  - exfalso. apply Hy. set_solver.
  - destruct (IH _ Heq) as [-> ->]. by rewrite Hd.
Qed.

Lemma package_key_split pkg k :
  package_key member_name pkg k -> starts_with PACKAGES_PREFIX k = true ->
  exists f s, k = artifact_key pkg (f ++ s) /\ member_name f /\ s ∈ [] :: companion_suffixes.
Proof.
  intros Hk Hp. destruct Hk as [f s Hf Hs|f sha|n s|]; [| | |].
  - exists f, s. split; [|done]. unfold companion_key, artifact_key. by rewrite <- !app_assoc.
  - by vm_compute in Hp.
  - by vm_compute in Hp.
  - exists PROJECT_STATUS_MARKER, []. split; [done|]. split; [|left]. by split; [apply (bool_decide_unpack _)|].
Qed.

Lemma no_slash_suffix s : s ∈ [] :: companion_suffixes -> "/"%char ∉ s.
Proof.
  intros Hs. assert (Forall (fun s => "/"%char ∉ s) ([] :: companion_suffixes)) as H
    by (apply (bool_decide_unpack _); by vm_compute).
  rewrite Forall_forall in H. by apply H.
Qed.

Lemma begins_like_claim f s :
  s ∈ [] :: companion_suffixes -> starts_with ORIGIN_MARKER (f ++ s) = true -> starts_with ORIGIN_MARKER f = true.
Proof.
  intros Hs Hst. apply starts_with_true in Hst as [rest Heq].
  destruct (Nat.le_gt_cases (length ORIGIN_MARKER) (length f)) as [Hl|Hl].
  { apply starts_with_true. exists (drop (length ORIGIN_MARKER) f).
    apply (f_equal (take (length ORIGIN_MARKER))) in Heq. rewrite take_app_le, take_app_length in Heq by done.
    by rewrite <- Heq at 1; rewrite take_drop. }
  exfalso.
  assert (f = take (length f) ORIGIN_MARKER) as Hf.
  { apply (f_equal (take (length f))) in Heq. rewrite take_app_length, take_app_le in Heq by lia. done. }
  assert (Forall (fun n => Forall (fun s => starts_with ORIGIN_MARKER (take n ORIGIN_MARKER ++ s) = false)
            ([] :: companion_suffixes)) (seq 0 (length ORIGIN_MARKER))) as H
    by (apply (bool_decide_unpack _); by vm_compute).
  rewrite Forall_forall in H. specialize (H (length f)). rewrite <- Hf, Forall_forall in H.
  assert (starts_with ORIGIN_MARKER (f ++ s) = false) as Hc by (apply H; [apply elem_of_seq; lia|done]).
  assert (starts_with ORIGIN_MARKER (f ++ s) = true) as Ht by (apply starts_with_true; by exists rest).
  congruence.
Qed.

(** No member key is a claim or a shadow of one. *)
Lemma package_key_plain pkg k :
  package_key member_name pkg k -> (forall pkg', k ≠ origin_key pkg') /\ ~ shadow_key k.
Proof.
  intros Hk.
  assert (forall pkg' s', ("/"%char ∉ s') -> k ≠ origin_key pkg' ++ s') as Hne.
  { intros pkg' s' Hs' Heq.
    destruct (package_key_split pkg k Hk) as (f & s & -> & [Hf Hne] & Hs); [by rewrite Heq|].
    unfold artifact_key, origin_key in Heq. rewrite <- !app_assoc in Heq.
    apply app_inv_head in Heq. change (&"/.origin") with ("/"%char :: ORIGIN_MARKER) in Heq.
    change (&"/") with ["/"%char] in Heq. cbn [app] in Heq.
    apply last_segment_inj in Heq as [_ Heq].
    - assert (starts_with ORIGIN_MARKER f = true) as Hc; [|by rewrite Hne in Hc].
      apply (begins_like_claim f s Hs). rewrite Heq. apply starts_with_true. by exists s'.
    - rewrite elem_of_app. intros [?|?]; [done|]. by apply no_slash_suffix in Hs.
    - apply not_elem_of_app. split; [|done]. by apply (bool_decide_unpack _). }
  split.
  - intros pkg' Heq. apply (Hne pkg' []); [by apply not_elem_of_nil|]. by rewrite app_nil_r.
  - intros (pkg' & s' & Hs' & _ & Heq). by apply (Hne pkg' s').
Qed.

Lemma artifact_member f : ("/"%char ∉ f) -> is_artifact f = true -> member_name f.
Proof.
  intros Hs Ha. split; [done|]. unfold is_artifact in Ha. apply andb_prop in Ha as [Ha _].
  apply andb_prop in Ha as [_ Ha]. destruct (starts_with ORIGIN_MARKER f) eqn:Ho; [|done].
  apply starts_with_true in Ho as [t ->]. by vm_compute in Ha.
Qed.

(** ** The programs, for any guarantee that allows them *)
Section programs.
Context {D : Digest} {T : Chunking} `{ClaimCodec} {JS : Codec Sidecar} {JF : Codec FilenameBody}
  {JP : Codec StatusDoc.StoredProjectStatus} {V : CopyVerb} {E : Etags}.
Variables (G : nat -> forall R, op R -> Prop) (M : str -> Prop) (pkg : str).
Hypothesis M_artifact : forall f, ("/"%char ∉ f) -> is_artifact f = true -> M f.
Hypothesis G_keys : forall b R (o : op R), touches (fun _ => package_key M pkg) b R o -> G b R o.
Hypothesis G_private : forall b, guar G (fun _ => True) (ensure_private_origin b pkg).
Hypothesis G_mirror : forall b, guar G (fun _ => True) (ensure_mirror_origin b pkg).

Abbreviation ok p := (guar G (fun _ => True) p).

Lemma ok_touching A (p : prog A) : guar (touches (fun _ => package_key M pkg)) (fun _ => True) p -> ok p.
Proof. apply guar_weaken. intros b R o. apply G_keys. Qed.

Lemma member_key f s : M f -> s ∈ [] :: companion_suffixes ->
  package_key M pkg (companion_key (artifact_key pkg f) s).
Proof. by constructor. Qed.

Lemma member_akey f : M f -> package_key M pkg (artifact_key pkg f).
Proof. intros Hf. rewrite <- (app_nil_r (artifact_key pkg f)). apply member_key; [done|left]. Qed.

Lemma owns f b : M f -> owns_record (fun _ => package_key M pkg) b pkg f.
Proof. intros Hf. split; [by intros; apply member_key|]. split; intros; constructor. Qed.

(** A key of the package. *)
Ltac keyed := first
  [ apply key_marker | apply key_quarantine | apply key_status | by apply member_akey
  | apply member_key; [assumption | right; apply (bool_decide_unpack _); by vm_compute] ].
Ltac keys := repeat match goal with
  | |- forall _, _ => intros
  | H : _ ∈ [] |- _ => by apply elem_of_nil in H
  | H : _ ∈ _ :: _ |- _ => apply elem_of_cons in H as [->|H]
  end; try keyed.
Ltac step := first [ by apply G_keys; intros k [] | apply G_keys; intros k <-; keyed
                   | apply G_keys; intros k Hk; unfold names_key, record_object_keys in Hk; keys; fail | idtac ].
Ltac go := walk; step.
Ltac leaf lem := apply ok_touching, lem; first [by apply owns | keys].

Lemma ok_dirty b : ok (mark_dirty b pkg).
Proof. leaf touch_mark_dirty. Qed.
Lemma ok_commit b n : ok (mark_commit b pkg n).
Proof. leaf touch_mark_commit. Qed.
Lemma ok_intent b : ok (mark_intent b pkg).
Proof. leaf touch_mark_intent. Qed.
Lemma ok_unfenced b : ok (require_replication_unfenced b).
Proof. unfold require_replication_unfenced. go. Qed.
Lemma ok_observation b p : ok (read_origin_observation b p).
Proof. leaf touch_read_observation. Qed.
#[local] Hint Resolve G_private G_mirror ok_dirty ok_commit ok_intent ok_unfenced ok_observation : footprint.

Lemma ok_claim_destination b m : ok (claim_destination b pkg m).
Proof. unfold claim_destination. go. Qed.
#[local] Hint Resolve ok_claim_destination : footprint.

Section record.
Variable f : str.
Hypothesis name : M f.

Lemma ok_tombstone_side b : ok (tombstone_side b pkg f).
Proof. leaf touch_tombstone_side. Qed.
Lemma ok_freeze_side b : ok (freeze_side b pkg f).
Proof. leaf touch_freeze_side. Qed.
Lemma ok_freeze_race src dst : ok (freeze_copy_race src dst pkg f).
Proof. leaf touch_freeze_race. Qed.
Lemma ok_clear_fence b r : ok (clear_spent_demotion_fence b pkg f r).
Proof. leaf touch_clear_fence. Qed.
Lemma ok_verify_artifact src r source : ok (verify_source_artifact src pkg f r source).
Proof. leaf touch_verify_artifact. Qed.
Lemma ok_verify_record src r source : ok (verify_source_record src pkg f r source).
Proof. leaf touch_verify_record. Qed.
Lemma ok_companions src r : ok (read_source_companions src (artifact_key pkg f) r).
Proof. leaf touch_companions. Qed.
Lemma ok_install b sc : ok (install_or_verify_sidecar b (sidecar_key (artifact_key pkg f)) sc).
Proof. leaf touch_install_sidecar. Qed.
Lemma ok_install_mirror b sc : ok (install_or_verify_mirror_sidecar b (sidecar_key (artifact_key pkg f)) sc).
Proof. leaf touch_install_mirror. Qed.
Lemma ok_put_companions c b x : ok (put_companions c b (artifact_key pkg f) x).
Proof. leaf touch_put_companions. Qed.
Lemma ok_copy_missing a b r r' : ok (copy_missing_companions a b pkg f r r').
Proof. leaf touch_copy_missing. Qed.
Lemma ok_replace_metadata b x y : ok (replace_companion b (metadata_key (artifact_key pkg f)) x y).
Proof. leaf touch_replace_companion. Qed.
Lemma ok_replace_provenance b x y : ok (replace_companion b (provenance_key (artifact_key pkg f)) x y).
Proof. leaf touch_replace_companion. Qed.
Lemma ok_quarantine b : ok (quarantine b pkg f).
Proof. leaf touch_quarantine. Qed.
Lemma ok_quarantine_bytes b bytes : ok (quarantine_bytes b pkg f bytes).
Proof. leaf touch_quarantine_bytes. Qed.
Lemma ok_says b key ask : ok (sidecar_says b key ask).
Proof. leaf touch_says. Qed.
Lemma ok_staged_read b a : ok (staged_read_all b a).
Proof. leaf touch_staged_read. Qed.
Lemma ok_optional b key : ok (get_optional b key).
Proof. leaf touch_optional. Qed.
Lemma ok_resolved b : ok (demotion_resolved_by_private_truth b pkg f).
Proof. leaf touch_resolved. Qed.
Lemma ok_size b key n : ok (verify_stored_size b key n).
Proof. unfold verify_stored_size, check_stored_size. go. Qed.
#[local] Hint Resolve ok_tombstone_side ok_freeze_side ok_freeze_race ok_clear_fence ok_verify_artifact
  ok_verify_record ok_companions ok_install ok_install_mirror ok_put_companions ok_copy_missing
  ok_replace_metadata ok_replace_provenance ok_quarantine ok_quarantine_bytes ok_says ok_staged_read
  ok_optional ok_resolved ok_size : footprint.

Lemma ok_create b body n : ok (create_artifact_verified b (artifact_key pkg f) body n).
Proof. unfold create_artifact_verified. go. Qed.
#[local] Hint Resolve ok_create : footprint.

Lemma ok_artifact_leg src dst sc a published : ok (artifact_leg src dst pkg f sc a published).
Proof. unfold artifact_leg, repair_debris, sidecar_still_names. go. Qed.
#[local] Hint Resolve ok_artifact_leg : footprint.

Lemma ok_copy_truth dst sc c changed m n : ok (copy_truth dst (artifact_key pkg f) sc c changed m n).
Proof. unfold copy_truth, or_changed. go. Qed.
#[local] Hint Resolve ok_copy_truth : footprint.

Lemma ok_copy_live src dst r source : ok (copy_live src dst pkg f r source).
Proof.
  unfold copy_live, copy_streamed, copy_server_side, server_side_copy_artifact, server_side_copy,
    sidecar_holds_private. go.
Qed.

Lemma ok_supersede_body src dst sc a : ok (supersede_body src dst pkg f sc a).
Proof. unfold supersede_body, supersede_create. go. Qed.
#[local] Hint Resolve ok_supersede_body : footprint.

Lemma ok_supersede src dst r source : ok (supersede_record src dst pkg f r source).
Proof. unfold supersede_record, supersede_publish, replaces_companions, reassert_precedence. go. Qed.

Lemma ok_fence_marker b : ok (write_mirror_quarantine_marker b pkg f).
Proof. unfold write_mirror_quarantine_marker. leaf touch_put_verify. Qed.
#[local] Hint Resolve ok_fence_marker : footprint.

Lemma ok_settle b : ok (settle_mirror_quarantine b pkg f).
Proof. unfold settle_mirror_quarantine, settle_drop. go. Qed.

Lemma ok_adopt a b : ok (adopt_sidecar_cas a b pkg f).
Proof.
  unfold adopt_sidecar_cas. induction ORIGIN_ATTEMPTS as [|n IH]; cbn [adopt_loop]; [done|].
  unfold read_pkg_origin. go.
Qed.
#[local] Hint Resolve ok_copy_live ok_supersede ok_settle ok_adopt : footprint.

Lemma ok_execute a b ra rb source verdict : ok (execute a b pkg f ra rb source verdict).
Proof.
  unfold execute, execute_body, execute_verdict, mark_intent_if, commit_if, repair_same_sha_companions,
    freeze_both, mark_both, mark_dirty_if, pick. go.
Qed.

End record.
#[local] Hint Resolve ok_settle ok_execute ok_optional : footprint.

(** Members of a directory listing. *)
Lemma listed_member prefix e f :
  in_dir prefix (entry_key e) = true -> strip_prefix prefix (entry_key e) = Some f -> "/"%char ∉ f.
Proof.
  unfold in_dir. intros Hin Hs. rewrite Hs in Hin. intros Hc. apply contains_byte_true in Hc. by rewrite Hc in Hin.
Qed.

Lemma ok_quarantine_artifacts b : ok (quarantine_mirror_artifacts b pkg).
Proof.
  unfold quarantine_mirror_artifacts. cbv zeta.
  eapply (guar_bind_ok _ _ _ (fun _ => True)); [auto with footprint|intros [obs|] _|done]; [|done].
  destruct (state obs); [done..|]. apply guar_call_ok; [by apply G_keys; intros k []|intros entries Hl|done].
  specialize (Hl entries eq_refl). generalize 0%nat. induction Hl as [|e entries He _ IH]; intros n; [done|].
  cbn [pfor]. eapply (guar_bind_ok _ _ _ (fun _ => True)); [|intros m _; apply IH|done].
  unfold quarantine_mirror_one. destruct (strip_prefix _ (entry_key e)) as [f|] eqn:Hf; [|done].
  destruct (is_artifact f) eqn:Ha; cbn [negb]; [|done].
  assert (M f) as Hm by (apply M_artifact; [by eapply listed_member|done]). go.
Qed.
#[local] Hint Resolve ok_quarantine_artifacts : footprint.

Lemma ok_quarantine_side b : ok (quarantine_side b pkg).
Proof. unfold quarantine_side. go. Qed.
#[local] Hint Resolve ok_quarantine_side : footprint.

Lemma ok_promote b o : ok (promote_side b pkg o).
Proof. unfold promote_side. go. Qed.
#[local] Hint Resolve ok_promote : footprint.

Lemma ok_split a b oa ob : ok (reconcile_split_origin a b pkg oa ob).
Proof. unfold reconcile_split_origin, reserve_mirror. go. Qed.

Lemma ok_read_status b p : ok (read_status_versioned b p).
Proof. unfold read_status_versioned. go. Qed.
#[local] Hint Resolve ok_read_status : footprint.

Lemma ok_put_status b e d n o : ok (put_status_if_version b pkg e d n o).
Proof. unfold put_status_if_version. go. Qed.
#[local] Hint Resolve ok_put_status : footprint.

Lemma ok_normalize b : ok (normalize_mirror_status_under_private_claim b pkg).
Proof.
  unfold normalize_mirror_status_under_private_claim, normalize_claimed.
  assert (ok (normalize_loop ORIGIN_ATTEMPTS b pkg)) as Hl.
  { induction ORIGIN_ATTEMPTS as [|n IH]; cbn [normalize_loop]; [done|]. go. }
  go.
Qed.
#[local] Hint Resolve ok_normalize : footprint.

Lemma ok_reconcile_status a b : ok (reconcile_project_status a b pkg).
Proof.
  unfold reconcile_project_status.
  assert (ok (reconcile_status_pair a b pkg)) as Hl.
  { unfold reconcile_status_pair. induction STATUS_CAS_ATTEMPTS as [|n IH]; cbn [reconcile_loop]; [done|]. go. }
  go.
Qed.

Lemma ok_record_from_names b f names o : ok (record_from_names b pkg f names o).
Proof. unfold record_from_names. go. Qed.
Lemma ok_pkg_origin b : ok (read_pkg_origin b pkg).
Proof. unfold read_pkg_origin. go. Qed.
Lemma ok_member_names b : ok (package_member_names b pkg).
Proof. unfold package_member_names. go. Qed.
Lemma ok_read_record b f : ok (read_record b pkg f).
Proof. unfold read_record, record_from_names, read_pkg_origin. go. Qed.
#[local] Hint Resolve ok_split ok_reconcile_status ok_record_from_names ok_pkg_origin ok_member_names
  ok_read_record : footprint.

(** When every name is allowed, so are the package merge and the record merge. *)
Hypothesis M_all : forall f, M f.

Lemma ok_files a b oa ob files na nb outcome : ok (converge_files a b pkg oa ob files na nb outcome).
Proof.
  revert outcome. induction files as [|f files IH]; intros outcome; cbn [converge_files]; [done|].
  pose proof (M_all f) as Hf. unfold repair_late, signal_bare. go.
Qed.
#[local] Hint Resolve ok_files : footprint.

Lemma ok_tries a b oa ob n na nb : ok (converge_tries a b pkg oa ob n na nb).
Proof. revert na nb. induction n as [|n IH]; intros na nb; cbn [converge_tries]; [done|]. go. Qed.
#[local] Hint Resolve ok_tries : footprint.

Lemma ok_converge a b : ok (converge_package a b pkg).
Proof. unfold converge_package, names_if. go. Qed.
#[local] Hint Resolve ok_converge : footprint.

Lemma ok_replicate src dst f source : ok (replicate_record src dst pkg f source).
Proof. pose proof (M_all f) as Hf. unfold replicate_record, reread_late. go. Qed.

End programs.

(** ** Claims under interference *)
Section claims.
Context {D : Digest} {T : Chunking} `{ClaimCodec} {JS : Codec Sidecar} {JF : Codec FilenameBody}
  {JP : Codec StatusDoc.StoredProjectStatus} {V : CopyVerb} {E : Etags}.

Definition no_shadow (s : store) : Prop := forall k, shadow_key k -> contents s k = None.

(** What every node promises about claims: they move along the lattice, and no
    member shadows one. Everything else may change at will. *)
Definition claims_rel (w w' : world) : Prop :=
  forall b, (forall pkg, rtc (claim_move auto_edge) (claim_of (w b) pkg) (claim_of (w' b) pkg))
            /\ (no_shadow (w b) -> no_shadow (w' b)).

#[global] Instance claims_rel_preorder : PreOrder claims_rel.
Proof.
  split; [by intros w b|]. intros w1 w2 w3 H12 H23 b. destruct (H12 b) as [C12 S12], (H23 b) as [C23 S23].
  split; [|auto]. intros pkg. by transitivity (claim_of (w2 b) pkg).
Qed.

Definition fair (b : nat) (R : Type) (o : op R) : Prop :=
  Origin.disciplined auto_edge b R o /\ forall k, names_key o k -> ~ shadow_key k.

Lemma fair_step (w : world) b R (o : op R) r s :
  fair b R o -> wf_world w -> op_step o (w b) r s -> claims_rel w (<[b := s]> w).
Proof.
  intros [Hd Hn] Hw Hs c. destruct (decide (b = c)) as [<-|Hne]; [rewrite fn_lookup_insert | by rewrite fn_lookup_insert_ne].
  split.
  - intros pkg. destruct (follows_respects origin_key _ b _ _ _ _ _ Hd (Hw b) Hs pkg) as [Heq|Hm].
    + unfold claim_of. by rewrite Heq.
    + by apply rtc_once.
  - intros Hns k Hk. rewrite (op_step_frame _ _ _ _ _ k (Hw b) Hs); [by apply Hns|]. intros Hnk. by apply (Hn k).
Qed.

Lemma fair_keys pkg b R (o : op R) : touches (fun _ => package_key member_name pkg) b R o -> fair b R o.
Proof.
  intros Ht. split; [|intros k Hk; by apply (package_key_plain pkg), Ht].
  intros pkg'. assert (~ names_key o (origin_key pkg')) as Hn.
  { intros Hk. by apply Ht, package_key_plain in Hk as [Hk _]; eapply Hk. }
  destruct o; simpl in Hn; naive_solver.
Qed.

Lemma guar_both G G' A (p : prog A) :
  guar G (fun _ => True) p -> guar G' (fun _ => True) p ->
  guar (fun b R o => G b R o /\ G' b R o) (fun _ => True) p.
Proof.
  induction p as [a|R b o k IH]; [done|]. intros [Ho Hk] [Ho' Hk']. split; [done|]. intros r Hr. by apply IH; [apply Hk|apply Hk'].
Qed.

Lemma claim_not_shadow pkg : ~ shadow_key (origin_key pkg).
Proof.
  intros (pkg' & s & Hs & Hne & Heq). unfold origin_key in Heq. rewrite <- !app_assoc in Heq. apply app_inv_head in Heq.
  change (&"/.origin") with ("/"%char :: ORIGIN_MARKER) in Heq. cbn [app] in Heq.
  apply last_segment_inj in Heq as [_ Heq].
  - destruct s; [done|]. apply (f_equal length) in Heq. rewrite length_app in Heq. simpl in Heq. lia.
  - by apply (bool_decide_unpack _).
  - apply not_elem_of_app. split; [by apply (bool_decide_unpack _)|done].
Qed.

(** Programs that only touch the claim and keep its discipline. *)
Lemma fair_claim A (p : prog A) pkg :
  guar (Origin.disciplined auto_edge) (fun _ => True) p ->
  guar (touches (fun _ k => k = origin_key pkg)) (fun _ => True) p -> guar fair (fun _ => True) p.
Proof.
  intros Hd Ht. eapply guar_weaken; [|apply guar_both; [exact Hd|exact Ht]].
  intros b R o [Ho Hk]. split; [done|]. intros k ->%Hk. apply claim_not_shadow.
Qed.

Lemma fair_private b pkg : guar fair (fun _ => True) (ensure_private_origin b pkg).
Proof. apply (fair_claim _ _ pkg); [apply guar_ensure_private|by apply touch_ensure_private]. Qed.
Lemma fair_mirror b pkg : guar fair (fun _ => True) (ensure_mirror_origin b pkg).
Proof. apply (fair_claim _ _ pkg); [apply guar_ensure_mirror|by apply touch_ensure_mirror]. Qed.

(** ** What a program knows about claims *)

Abbreviation stable K := (Storage.stable claims_rel K).
Abbreviation kept K Q p := (keeps claims_rel K Q p).

Definition private_at (b : nat) (pkg : str) (w : world) : Prop := claim_of (w b) pkg = Some (Ok OriginState.Private).

Lemma private_stable b pkg : stable (private_at b pkg).
Proof. intros w w' Hp HR. destruct (HR b) as [HC _]. exact (auto_private_terminal _ _ (HC pkg) Hp). Qed.

Lemma no_shadow_stable b : stable (fun w => no_shadow (w b)).
Proof. intros w w' Hn HR. destruct (HR b) as [_ HS]. by apply HS. Qed.

Lemma and_known K K' : stable K -> stable K' -> stable (fun w => K w /\ K' w).
Proof. intros H1 H2 w w' [? ?] ?. split; eauto. Qed.

Lemma pure_known (P : Prop) : stable (fun _ => P).
Proof. by intros w w'. Qed.

Lemma if_known (P : Prop) K : stable K -> stable (fun w => P -> K w).
Proof. intros HK w w' Hk HR HP. eapply HK; [by apply Hk|done]. Qed.

(** A part that learns nothing. *)
Lemma kept_fair A B K Q (p : prog A) (k : A -> prog B) :
  stable K -> guar fair (fun _ => True) p -> (forall a, kept K Q (k a)) -> kept K Q (pbind p k).
Proof.
  intros HK Hp Hk. apply keeps_bind; [|done].
  eapply keeps_mono; [|done|eapply (keeps_guar claims_rel _ fair); [|done|exact Hp]].
  - intros a K' _ -> _. apply Hk.
  - intros b R o w r s. apply fair_step.
Qed.

Lemma kept_fair_ok A B K (Q : res B -> _ -> Prop) (p : prog (res A)) (k : A -> prog (res B)) :
  stable K -> guar fair (fun _ => True) p -> (forall a, kept K Q (k a)) -> (forall e, Q (Err e) K) ->
  kept K Q (pbind_ok p k).
Proof. intros HK Hp Hk He. apply kept_fair; [done|done|]. intros [a|e]; [apply Hk|apply He]. Qed.

Lemma kept_fair_last A K (Q : A -> _ -> Prop) (p : prog A) :
  stable K -> guar fair (fun _ => True) p -> (forall a, Q a K) -> kept K Q p.
Proof.
  intros HK Hp HQ. eapply keeps_mono; [|done|eapply (keeps_guar claims_rel _ fair); [|done|exact Hp]].
  - intros a K' _ ->. apply HQ.
  - intros b R o w r s. apply fair_step.
Qed.

(** A claim as it stood in some world that was known. *)
Definition seen (K : world -> Prop) (b : nat) (pkg : str) (st : option OriginState.OriginState) : Prop :=
  exists w, K w /\ claim_of (w b) pkg = Ok <$> st.

(** Reading a claim: a private one is known for good. *)
Lemma kept_observation A K (Q : res A -> _ -> Prop) b pkg k :
  stable K -> (seen K b pkg None -> kept K Q (k None)) -> (forall e, Q (Err e) K) ->
  (forall obs, Origin.genuine obs -> seen K b pkg (Some (state obs)) ->
     kept (fun w => K w /\ (state obs = OriginState.Private -> private_at b pkg w)) Q (k (Some obs))) ->
  kept K Q (pbind_ok (read_origin_observation b pkg) k).
Proof.
  intros HK Hn He Hs w r s Hw HKw Hstep. pose proof (op_step_sound _ _ _ _ _ (Hw b) Hstep) as Ha.
  pose proof (op_step_read _ _ _ _ _ (eq_refl : is_read (GetWithEtag _) = true) Hstep) as ->.
  rewrite fn_insert_id. split; [reflexivity|].
  destruct r as [[[bytes etag]|]|e]; [| |exists K; split; [done|]; split; [done|apply He]].
  2:{ exists K. split; [done|]. split; [done|]. apply Hn. exists w. split; [done|]. unfold claim_of.
      by rewrite <- (get_with_etag_answer _ _ _ _ _ Hstep eq_refl). }
  unfold pbind_ok. rewrite !pbind_ret. destruct (decode_claim bytes) as [st|e] eqn:Hd; cbn [rbind]; [|exists K; split; [done|]; split; [done|apply He]].
  pose proof (get_with_etag_answer _ _ _ _ _ Hstep eq_refl) as Hc.
  eexists. split; [|split; [|apply (Hs (MkObservation st etag))]].
  - by apply and_known, if_known, private_stable.
  - split; [done|]. cbn [state]. intros ->. unfold private_at, claim_of. rewrite <- Hc. simpl. by rewrite Hd.
  - exists bytes. split; [by apply Ha|done].
  - exists w. split; [done|]. unfold claim_of. rewrite <- Hc. simpl. by rewrite Hd.
Qed.

(** Writing one: success is known for good. *)
Lemma written_private (w : world) b pkg s body st :
  decode_claim body = Ok st -> contents s (origin_key pkg) = Some body ->
  st = OriginState.Private -> private_at b pkg (<[b := s]> w).
Proof.
  intros Hd Hc ->. unfold private_at, claim_of. rewrite fn_lookup_insert, Hc. simpl. by rewrite Hd.
Qed.

Lemma kept_encode A K (Q : A -> _ -> Prop) b st k :
  (forall body, decode_claim body = Ok st -> kept K Q (k body)) -> stable K ->
  kept K Q (pbind (encode_claim b st) k).
Proof.
  intros Hk HK w r s Hw HKw Hstep. pose proof (op_step_sound _ _ _ _ _ (Hw b) Hstep) as Ha.
  pose proof (op_step_read _ _ _ _ _ (eq_refl : is_read FreshNonce = true) Hstep) as ->.
  rewrite fn_insert_id. split; [reflexivity|]. exists K. split; [done|]. split; [done|].
  apply Hk. by apply decode_encode_claim.
Qed.

Lemma kept_encode_ok A B K (Q : res B -> _ -> Prop) b st (p : str -> prog (res A)) k :
  (forall body, decode_claim body = Ok st -> kept K Q (pbind_ok (p body) k)) -> stable K ->
  kept K Q (pbind_ok (pbind (encode_claim b st) p) k).
Proof.
  intros Hk HK w r s Hw HKw Hstep. by apply (kept_encode _ K Q b st (fun body => pbind_ok (p body) k)).
Qed.

(** Knowing more does no harm. *)
Lemma kept_weaken A (K K' : world -> Prop) (Q : A -> _ -> Prop) p :
  (forall w, K' w -> K w) -> stable K -> (forall a, Q a K -> Q a K') -> kept K Q p -> kept K' Q p.
Proof.
  intros Hw HK HQ. destruct p as [a|R b o k]; [apply HQ|]. intros Hp w r s Hwf HKw Hs. apply Hp; auto.
Qed.

Lemma fair_put_absent b pkg body st :
  decode_claim body = Ok st -> st ≠ OriginState.Unclaimed -> fair b _ (PutIfNoneMatch (origin_key pkg) body).
Proof.
  intros Hd Hst. split; [|intros k <-; apply claim_not_shadow]. intros pkg' _. unfold claim_mv. simpl.
  rewrite Hd. by constructor.
Qed.

Lemma kept_create A K (Q : res A -> _ -> Prop) b pkg body st k :
  decode_claim body = Ok st -> st ≠ OriginState.Unclaimed -> stable K ->
  kept K Q (k None) -> (forall e, Q (Err e) K) ->
  (forall e, kept (fun w => K w /\ (st = OriginState.Private -> private_at b pkg w)) Q (k (Some e))) ->
  kept K Q (pbind_ok (call b (PutIfNoneMatch (origin_key pkg) body)) k).
Proof.
  intros Hd Hst HK Hn He Hs w r s Hw HKw Hstep.
  pose proof (fair_step _ _ _ _ _ _ (fair_put_absent b pkg _ _ Hd Hst) Hw Hstep) as HR. split; [done|].
  destruct r as [[e|]|e]; [|exists K; split; [done|]; split; [by eapply HK|first [exact Hn|apply He|apply Herr]]..].
  eexists. split; [|split; [|apply Hs]]; [by apply and_known, if_known, private_stable|].
  split; [by eapply HK|]. eapply written_private; [done|].
  by eapply put_if_none_match_answer.
Qed.

Lemma fair_cas b pkg obs st body :
  Origin.genuine obs -> auto_edge (state obs) st -> decode_claim body = Ok st ->
  fair b _ (PutIfMatch (origin_key pkg) (etag obs) body).
Proof.
  intros (was & Hatt & Hwas) He Hd. split; [|intros k <-; apply claim_not_shadow].
  intros pkg' _. exists was. split; [done|]. unfold claim_mv. simpl. rewrite Hwas, Hd. by constructor.
Qed.

Lemma kept_cas A K (Q : res A -> _ -> Prop) b pkg obs st k :
  Origin.genuine obs -> auto_edge (state obs) st -> stable K ->
  kept K Q (k None) -> (forall e, Q (Err e) K) ->
  (forall e, kept (fun w => K w /\ (st = OriginState.Private -> private_at b pkg w)) Q (k (Some e))) ->
  kept K Q (pbind_ok (cas_claim b pkg (etag obs) st) k).
Proof.
  intros Hg He HK Hn Herr Hs. unfold cas_claim. apply kept_encode_ok; [|done]. intros body Hd w r s Hw HKw Hstep.
  pose proof (fair_step _ _ _ _ _ _ (fair_cas b pkg _ _ _ Hg He Hd) Hw Hstep) as HR. split; [done|].
  destruct r as [[e|]|e]; [|exists K; split; [done|]; split; [by eapply HK|first [exact Hn|apply He|apply Herr]]..].
  eexists. split; [|split; [|apply Hs]]; [by apply and_known, if_known, private_stable|].
  split; [by eapply HK|]. eapply written_private; [done|].
  by eapply put_if_match_answer in Hstep as [? _].
Qed.

(** What a claim attempt that reports a private owner knows. *)
Definition knows_owner (b : nat) (pkg : str) (r : res Claim) (K0 K : world -> Prop) : Prop :=
  forall w, K w -> K0 w /\ forall c, r = Ok c -> owner c = OriginState.PRIVATE -> private_at b pkg w.

Lemma owner_state st : OriginState.as_str st = OriginState.PRIVATE -> st = OriginState.Private.
Proof. by destruct st. Qed.

Lemma kept_claim_loop n K b pkg target :
  target ≠ OriginState.Unclaimed -> stable K ->
  kept K (fun r K' => knows_owner b pkg r K K') (claim_loop b n pkg target).
Proof.
  intros Ht HK. induction n as [|n IH]; cbn [claim_loop]; [by intros w; split|].
  apply kept_encode; [|done]. intros body Hd.
  apply (kept_create _ _ _ _ _ _ target); [done|done|done| |by intros e w; split|].
  2:{ intros e w [Hw Hp]. split; [done|]. intros c [= <-] Ho. by apply Hp, owner_state. }
  apply kept_observation; [done|by intros _ w; split|by intros e w; split|]. intros obs Hg _.
  case_decide as Hu.
  - apply (kept_cas _ _ _ _ _ _ target); [done|rewrite Hu; by constructor|by apply and_known, if_known, private_stable| | |].
    + eapply keeps_mono; [|by apply and_known, if_known, private_stable|].
      2:{ apply (kept_weaken _ K); [by intros w []|done| |exact IH]; intros r Hr w [Hw _]; by apply Hr. }
      intros r K' _ HK'. exact HK'.
    + intros e w [Hw _]. by split.
    + intros e w [[Hw _] Hp]. split; [done|]. intros c [= <-] Ho. by apply Hp, owner_state.
  - intros w [Hw Hp]. split; [done|]. intros c [= <-] Ho. by apply Hp, owner_state.
Qed.


(** Sequencing with a part that learns. *)
Lemma kept_seq_known A B K (L : res A -> (world -> Prop) -> Prop) (Q : res B -> _ -> Prop) (p : prog (res A)) k :
  stable K -> kept K L p ->
  (forall a K', stable K' -> L (Ok a) K' -> kept K' Q (k a)) ->
  (forall e K', stable K' -> L (Err e) K' -> Q (Err e) K') -> kept K Q (pbind_ok p k).
Proof.
  intros HK Hp Hk He. apply keeps_bind; [|done]. eapply keeps_mono; [|done|exact Hp].
  intros [a|e] K' HK' HL _; [by apply Hk|by apply He].
Qed.

Lemma kept_claim_private K b pkg hint :
  stable K -> (forall obs, hint = Some obs -> Origin.genuine obs) ->
  kept K (fun r K' => knows_owner b pkg r K K') (claim_origin b pkg (MkRequest OriginState.PRIVATE hint)).
Proof.
  intros HK Hh. unfold claim_origin. change (OriginState.claim_target _) with (Some OriginState.Private).
  cbn [unclaimed_hint]. destruct hint as [obs|]; [|by apply kept_claim_loop].
  case_decide as Hu; [|by intros w; split].
  apply (kept_cas _ _ _ _ _ obs); [by apply Hh|rewrite Hu; by constructor|done|by apply kept_claim_loop|by intros e w; split|].
  intros e w [Hw Hp]. split; [done|]. intros c _ _. by apply Hp.
Qed.

Lemma kept_demote K b pkg obs :
  stable K -> Origin.genuine obs -> state obs = OriginState.Mirror ->
  kept K (fun r K' => forall w, K' w -> K w /\ forall o, r = Ok (Some o) -> private_at b pkg w)
    (demote_observed_mirror b pkg obs).
Proof.
  intros HK Hg Hst. unfold demote_observed_mirror. rewrite decide_True by done. unfold rewrite_claim.
  apply kept_cas; [done|rewrite Hst; constructor|done|by intros w; split|by intros e w; split|].
  intros e w [Hw Hp]. split; [done|]. intros o _. by apply Hp.
Qed.

(** What a promotion that returns knows. *)
Definition knows_private (b : nat) (pkg : str) {A} (r : res A) (K0 K : world -> Prop) : Prop :=
  forall w, K w -> K0 w /\ (is_ok r = true -> private_at b pkg w).

Lemma kept_ensure_private K b pkg :
  stable K -> kept K (fun r K' => knows_private b pkg r K K') (ensure_private_origin b pkg).
Proof.
  intros HK. unfold ensure_private_origin. induction ORIGIN_ATTEMPTS as [|n IH]; cbn [ensure_private_loop];
    [by intros w; split|].
  assert (forall K1 hint, stable K1 -> (forall w, K1 w -> K w) -> (forall obs, hint = Some obs -> Origin.genuine obs) ->
    kept K1 (fun r K' => knows_private b pkg r K K')
      (let*? claim := claim_origin b pkg (MkRequest OriginState.PRIVATE hint) in
       if decide (owner claim = OriginState.PRIVATE) then Ret (Ok tt) else ensure_private_loop n b pkg)) as Hclaim.
  { intros K1 hint HK1 Hsub Hh.
    eapply kept_seq_known; [done|by apply kept_claim_private| |].
    - intros c K2 HK2 Ho. case_decide as Hown.
      + intros w Hw. destruct (Ho w Hw) as [Hw1 Hp]. split; [by apply Hsub|]. intros _. by eapply Hp.
      + apply (kept_weaken _ K); [intros w Hw; by apply Hsub, Ho|done| |exact IH].
        intros r Hr w Hw. apply Hr, Hsub. by apply Ho.
    - intros e K2 _ Ho w Hw. split; [by apply Hsub, Ho|done]. }
  apply kept_observation; [done|by intros _; apply Hclaim|by intros e w; split|]. intros obs Hg _.
  set (K1 := fun w => _). assert (stable K1) as HK1 by (by apply and_known, if_known, private_stable).
  destruct (state obs) eqn:Hst.
  - apply Hclaim; [done|by intros w []|by intros ? [= <-]].
  - eapply kept_seq_known; [done|by apply kept_demote| |].
    + intros [o|] K2 HK2 Ho.
      * intros w Hw. destruct (Ho w Hw) as [[Hw1 _] Hp]. split; [done|]. intros _. by eapply Hp.
      * apply (kept_weaken _ K); [intros w Hw; by apply Ho|done| |exact IH].
        intros r Hr w Hw. apply Hr. by apply Ho.
    + intros e K2 _ Ho w Hw. split; [by apply Ho|done].
  - intros w [Hw Hp]. split; [done|]. intros _. by apply Hp.
Qed.

(** Reading the claim as the merge does. *)
Lemma kept_pkg_origin K b pkg :
  stable K ->
  kept K (fun r K' => forall w, K' w -> K w /\ forall o, r = Ok o ->
            (o = Some StatusDoc.Private -> private_at b pkg w)
            /\ ((forall w', K w' -> private_at b pkg w') -> o = Some StatusDoc.Private)) (read_pkg_origin b pkg).
Proof.
  intros HK. unfold read_pkg_origin. apply kept_observation; [done| |by intros e w; split|].
  - intros (w0 & Hw0 & Hc) w Hw. split; [done|]. intros o [= <-]. split; [done|]. intros Hp.
    specialize (Hp w0 Hw0). unfold private_at in Hp. by rewrite Hc in Hp.
  - intros obs _ (w0 & Hw0 & Hc) w [Hw Hp]. split; [done|]. intros o [= <-]. split.
    + intros Ho. apply Hp. by destruct (state obs).
    + intros Hpr. specialize (Hpr w0 Hw0). unfold private_at in Hpr. rewrite Hc in Hpr. by injection Hpr as ->.
Qed.

End claims.

End Claims.
