(* ===== verification/Spread.v ===== *)
(** * A pairwise pass spreads private claims

    The package merge and the paged walk of [diff_pair], with what they know of
    claims at every point: a name that is private on one side is never skipped
    by the walk, and its merge returns only once both sides are private. *)
From stdpp Require Import functions.
From S2P Require Import Prelude RustStr Documents Hash Decide Storage Origin Status Markers Replicate Artifact Execute Footprint Scan Converge Claims.
Import Storage.

Module Spread.
Import Sidecar Decide Origin Hash Status Markers Replicate Artifact Execute Footprint Scan Converge Claims.

Section spread.
Context {D : Digest} {T : Chunking} `{ClaimCodec} {JS : Codec Sidecar} {JF : Codec FilenameBody}
  {JP : Codec StatusDoc.StoredProjectStatus} {V : CopyVerb} {E : Etags}.

Abbreviation stable K := (Storage.stable claims_rel K).
Abbreviation kept K Q p := (keeps claims_rel K Q p).

(** ** Merging a package spreads its private claim *)

Section package.
Variables (a b : nat) (pkg : str).

Definition both_private (w : world) : Prop := private_at a pkg w /\ private_at b pkg w.

Lemma both_stable : stable both_private.
Proof. apply and_known; apply private_stable. Qed.

Lemma kept_promote K c o :
  stable K -> (forall w, K w -> o = Some StatusDoc.Private -> private_at c pkg w) ->
  kept K (fun r K' => knows_private c pkg r K K') (promote_side c pkg o).
Proof.
  intros HK Ho. unfold promote_side. case_decide as Hp.
  { intros w Hw. split; [done|]. intros _. by apply Ho. }
  eapply kept_seq_known; [done|by apply kept_ensure_private| |by intros e K' _ HL w Hw; apply HL in Hw as [? _]].
  intros [] K1 HK1 HL1. apply kept_fair_ok; [done| | |].
  - pose proof (ok_quarantine_side fair member_name pkg artifact_member (fair_keys pkg) (fun b => fair_private b pkg)) as Hq.
    case_decide; [|done]. eapply (guar_bind_ok _ _ _ (fun _ => True)); [apply Hq|done|done].
  - intros x w Hw. destruct (HL1 w Hw) as [? Hpr]. split; [done|]. intros _. by apply Hpr.
  - intros e w Hw. by destruct (HL1 w Hw).
Qed.

Lemma fair_of A (p : prog A) :
  (forall G : nat -> forall R, op R -> Prop,
     (forall b R (o : op R), touches (fun _ => package_key member_name pkg) b R o -> G b R o) ->
     (forall b, guar G (fun _ => True) (ensure_private_origin b pkg)) ->
     (forall b, guar G (fun _ => True) (ensure_mirror_origin b pkg)) -> guar G (fun _ => True) p) ->
  guar fair (fun _ => True) p.
Proof. intros Hp. apply Hp; [apply fair_keys|intros c; apply fair_private|intros c; apply fair_mirror]. Qed.

(** What the split repair knows when one side was read as private. *)
Lemma kept_split K oa ob :
  stable K -> (forall w, K w -> oa = Some StatusDoc.Private -> private_at a pkg w) ->
  (forall w, K w -> ob = Some StatusDoc.Private -> private_at b pkg w) ->
  kept K (fun r K' => forall w, K' w -> K w /\
            (is_ok r = true -> oa = Some StatusDoc.Private \/ ob = Some StatusDoc.Private -> both_private w))
    (reconcile_split_origin a b pkg oa ob).
Proof.
  intros HK Ha Hb. destruct (decide (oa = Some StatusDoc.Private \/ ob = Some StatusDoc.Private)) as [Hp|Hp].
  2:{ apply kept_fair_last; [done|apply fair_of; intros G HG HP HM; by apply (ok_split G member_name pkg); auto using artifact_member|]. intros r w Hw. by split. }
  unfold reconcile_split_origin, reserve_mirror.
  rewrite decide_False by naive_solver. rewrite decide_False by naive_solver.
  unfold pbind_ok at 1. rewrite pbind_ret. rewrite decide_True by (destruct Hp as [-> | ->]; [by destruct ob as [[]|]|by destruct oa as [[]|]]).
  eapply kept_seq_known; [done|by apply kept_promote| |by intros e K' _ HL w Hw; apply HL in Hw as [? _]].
  intros [oa1 sa] K1 HK1 HL1.
  eapply kept_seq_known; [done|apply kept_promote; [done|intros w Hw; apply Hb; by apply HL1]| |].
  - intros [ob1 sb] K2 HK2 HL2 w Hw. destruct (HL2 w Hw) as [Hw1 Hpb]. destruct (HL1 w Hw1) as [Hw0 Hpa].
    split; [done|]. intros _ _. split; [by apply Hpa|by apply Hpb].
  - intros e K2 _ HL2 w Hw. destruct (HL2 w Hw) as [Hw1 _]. destruct (HL1 w Hw1) as [Hw0 _]. by split.
Qed.

(** The candidates of a listing without shadows are members. *)
Lemma candidate_member n f :
  ("/"%char ∉ n) -> (starts_with ORIGIN_MARKER n = true -> n = ORIGIN_MARKER) -> candidate n = Some f ->
  member_name f.
Proof.
  intros Hs Ho. assert (forall t, n = f ++ t -> t ≠ [] \/ n ≠ ORIGIN_MARKER -> member_name f) as Hpre.
  { intros t -> Hne. split; [intros Hin; apply Hs, elem_of_app; by left|].
    destruct (starts_with ORIGIN_MARKER f) eqn:Hf; [|done]. apply starts_with_true in Hf as [u ->].
    assert ((ORIGIN_MARKER ++ u) ++ t = ORIGIN_MARKER) as Heq
      by (apply Ho, starts_with_true; exists (u ++ t); by rewrite app_assoc).
    destruct Hne as [Hne|Hne]; [|done]. apply (f_equal length) in Heq. rewrite !length_app in Heq.
    destruct t; [done|]. simpl in Heq. lia. }
  unfold candidate. repeat case_match; intros Hc; simplify_eq.
  1-3: match goal with H : strip_suffix _ _ = Some _ |- _ => apply strip_suffix_Some in H as -> end;
    eapply Hpre; [done|by left].
  apply (Hpre []); [by rewrite app_nil_r|]. right. intros ->. by vm_compute in *.
Qed.

Definition members (names : list str) : Prop := Forall (fun n => forall f, candidate n = Some f -> member_name f) names.

Lemma listing_members s :
  no_shadow s -> let prefix := PACKAGES_PREFIX ++ pkg ++ &"/" in
  members (names_under prefix (entry_of <$> list_where (in_dir prefix) s)).
Proof.
  intros Hns prefix. apply Forall_forall. intros n Hn f Hf. unfold names_under in Hn.
  apply list_elem_of_omap in Hn as (e & He & Hn). apply list_elem_of_fmap in He as (p & -> & Hp).
  apply elem_of_list_where in Hp as [Hin Hobj]. cbn [entry_of entry_key] in Hn.
  assert ("/"%char ∉ n) as Hs by (by eapply (listed_member prefix (entry_of p))).
  apply (candidate_member n f); [done| |done]. intros Ho. apply starts_with_true in Ho as [t ->].
  destruct (decide (t = [])) as [->|Hne]; [by rewrite app_nil_r|]. exfalso.
  apply strip_prefix_Some in Hn. assert (contents s p.1 = None) as Hc.
  { apply Hns. exists pkg, t. split; [intros Hin'; apply Hs, elem_of_app; by right|]. split; [done|].
    rewrite Hn. unfold prefix, origin_key. by rewrite <- !app_assoc. }
  unfold contents in Hc. by rewrite Hobj in Hc.
Qed.

Lemma kept_members K c :
  stable K -> (forall w, K w -> no_shadow (w c)) ->
  kept K (fun r K' => K' = K /\ forall names, r = Ok names -> members names) (package_member_names c pkg).
Proof.
  intros HK Hns. unfold package_member_names. cbv zeta. intros w r s Hw HKw Hstep.
  pose proof (op_step_read _ _ _ _ _ (eq_refl : is_read (ListDirEntries _) = true) Hstep) as ->.
  rewrite fn_insert_id. split; [reflexivity|]. exists K. split; [done|]. split; [done|].
  destruct r as [entries|e]; cbn; [|by split].
  split; [done|]. intros names [= <-]. rewrite (list_dir_answer _ _ _ _ _ Hstep eq_refl).
  apply listing_members, Hns, HKw.
Qed.

Lemma pair_members na nb : members na -> members nb -> Forall member_name (pair_filenames na nb).
Proof.
  unfold members. rewrite !Forall_forall. intros Ha Hb f Hf. unfold pair_filenames in Hf.
  rewrite merge_sort_Permutation, elem_of_remove_dups, elem_of_app in Hf. unfold candidate_filenames in Hf.
  rewrite !elem_of_remove_dups, !list_elem_of_omap in Hf.
  destruct Hf as [(n & Hn & Hc)|(n & Hn & Hc)]; [by eapply Ha|by eapply Hb].
Qed.

(** Programs that leave the knowledge as it was. *)
Definition unlearned {A} (P : A -> Prop) (K : world -> Prop) (r : res A) (K' : world -> Prop) : Prop :=
  K' = K /\ forall x, r = Ok x -> P x.

Lemma kept_unlearned A B K (P : A -> Prop) (Q : res B -> _ -> Prop) (p : prog (res A)) k :
  stable K -> kept K (unlearned P K) p -> (forall x, P x -> kept K Q (k x)) -> (forall e, Q (Err e) K) ->
  kept K Q (pbind_ok p k).
Proof.
  intros HK Hp Hk He. eapply kept_seq_known; [done|exact Hp| |].
  - intros x K' _ [-> Hx]. apply Hk. by apply Hx.
  - intros e K' _ [-> _]. apply He.
Qed.

Section known.
Variable K : world -> Prop.
Hypothesis HK : stable K.
Hypothesis shadowless : forall w, K w -> no_shadow (w a) /\ no_shadow (w b).

Lemma kept_fresh_names c : c = a \/ c = b -> kept K (unlearned members K) (package_member_names c pkg).
Proof. intros [-> | ->]; (apply kept_members; [done|]; intros w Hw; by apply shadowless). Qed.

Lemma kept_repair_late late c names :
  c = a \/ c = b -> members names -> kept K (unlearned members K) (repair_late pkg late c names).
Proof.
  intros Hc Hn. unfold repair_late. destruct late; [|by split; [|intros ? [= <-]]].
  apply kept_fair_ok; [done|apply fair_of; intros G HG HP HM; by apply (ok_quarantine_side G member_name pkg); auto using artifact_member| |by split].
  intros _. by apply kept_fresh_names.
Qed.

Lemma kept_files oa ob files na nb outcome :
  Forall member_name files -> members na -> members nb ->
  kept K (unlearned (fun x => match x with inl (na, nb) => members na /\ members nb | inr _ => True end) K)
    (converge_files a b pkg oa ob files na nb outcome).
Proof.
  intros Hf Hna Hnb. revert outcome. induction Hf as [|f files Hm _ IH]; intros outcome; cbn [converge_files];
    [by split; [|intros ? [= <-]]|].
  apply kept_fair_ok; [done|apply fair_of; intros G HG HP HM; by apply (ok_record_from_names G member_name pkg); auto using artifact_member| |by split]. intros ra.
  apply kept_fair_ok; [done|apply fair_of; intros G HG HP HM; by apply (ok_record_from_names G member_name pkg); auto using artifact_member| |by split]. intros rb.
  cbv zeta. destruct (is_late_mirror ra oa || is_late_mirror rb ob).
  - eapply kept_unlearned; [done|apply kept_repair_late; [by left|done]| |by split]. intros na' Hna'.
    eapply kept_unlearned; [done|apply kept_repair_late; [by right|done]| |by split]. intros nb' Hnb'.
    by split; [|intros ? [= <-]].
  - apply kept_fair_ok; [done|apply fair_of; intros G HG HP HM; by apply (ok_execute G member_name pkg); auto using artifact_member| |by split]. intros [].
    + apply IH.
    + do 2 (apply kept_fair_ok; [done| |intros _|by split];
        [apply fair_of; intros G HG HP HM; unfold signal_bare; case_decide; [by eapply ok_dirty|done]|]).
      apply IH.
Qed.

Lemma kept_tries oa ob n na nb :
  members na -> members nb -> kept K (unlearned (fun _ => True) K) (converge_tries a b pkg oa ob n na nb).
Proof.
  revert na nb. induction n as [|n IH]; intros na nb Hna Hnb; cbn [converge_tries]; [by split|].
  eapply kept_unlearned; [done|by apply kept_files; [apply pair_members|..]| |by split].
  intros [[na' nb']|outcome] Hx; [by apply IH; apply Hx|by split].
Qed.

(** What follows the split repair. *)
Lemma kept_rest split na nb :
  members na -> members nb ->
  kept K (unlearned (fun _ => True) K)
    (let*? a_names := names_if (scanned_a split) a pkg na in
     let*? b_names := names_if (scanned_b split) b pkg nb in
     let*? _ := (if decide (a_origin split = Some StatusDoc.Private \/ b_origin split = Some StatusDoc.Private)
                 then reconcile_project_status a b pkg else Ret (Ok tt)) in
     converge_tries a b pkg (a_origin split) (b_origin split) 3 a_names b_names).
Proof.
  intros Hna Hnb.
  assert (forall c scanned names, c = a \/ c = b -> members names ->
            kept K (unlearned members K) (names_if scanned c pkg names)) as Hnames.
  { intros c scanned names Hc Hn. unfold names_if. destruct scanned; [by apply kept_fresh_names|].
    by split; [|intros ? [= <-]]. }
  eapply kept_unlearned; [done|apply Hnames; [by left|done]| |by split]. intros na' Hna'.
  eapply kept_unlearned; [done|apply Hnames; [by right|done]| |by split]. intros nb' Hnb'.
  apply kept_fair_ok; [done| |intros _; by apply kept_tries|by split].
  apply fair_of. intros G HG HP HM. case_decide; [by eapply ok_reconcile_status|done].
Qed.

End known.

(** Merging a package: whoever was known private is private on both sides when
    the merge returns. *)
Lemma kept_converge K :
  stable K -> (forall w, K w -> no_shadow (w a) /\ no_shadow (w b)) ->
  kept K (fun r K' => forall w, K' w -> K w /\
      (is_ok r = true ->
       (forall w', K w' -> private_at a pkg w') \/ (forall w', K w' -> private_at b pkg w') -> both_private w))
    (converge_package a b pkg).
Proof.
  intros HK Hns. unfold converge_package.
  apply kept_fair_ok; [done|apply fair_of; intros G HG HP HM; by apply (ok_unfenced G member_name pkg)|intros _|by intros e w; split].
  eapply kept_unlearned; [done|by apply kept_fresh_names; [..|left]| |by intros e w; split]. intros na Hna.
  eapply kept_unlearned; [done|by apply kept_fresh_names; [..|right]| |by intros e w; split]. intros nb Hnb.
  eapply kept_seq_known; [done|by apply kept_pkg_origin| |by intros e K' _ HL w Hw; apply HL in Hw as [? _]].
  intros oa K1 HK1 HL1.
  eapply kept_seq_known; [done|by apply kept_pkg_origin| |].
  2:{ intros e K' _ HL w Hw. split; [|done]. by apply HL1, HL. }
  intros ob K2 HK2 HL2.
  eapply kept_seq_known; [done|apply kept_split; [done| |]| |].
  { intros w Hw Ho. destruct (HL2 w Hw) as [Hw1 _]. destruct (HL1 w Hw1) as [_ Hoa]. by apply (proj1 (Hoa _ eq_refl)). }
  { intros w Hw Ho. destruct (HL2 w Hw) as [_ Hob]. by apply (proj1 (Hob _ eq_refl)). }
  2:{ intros e K' _ HL w Hw. split; [|done]. by apply HL1, HL2, HL. }
  intros split K3 HK3 HL3.
  assert (forall w, K3 w -> K w) as Hsub by (intros w Hw; by apply HL1, HL2, HL3).
  assert (forall w, K3 w -> no_shadow (w a) /\ no_shadow (w b)) as Hns3 by (intros w Hw; by apply Hns, Hsub).
  assert (forall w, K3 w -> (forall w', K w' -> private_at a pkg w') \/ (forall w', K w' -> private_at b pkg w') ->
            both_private w) as Hboth.
  { intros w Hw Hp. destruct (HL3 w Hw) as [Hw2 Hb]. destruct (HL2 w Hw2) as [Hw1 Hob]. destruct (HL1 w Hw1) as [Hw0 Hoa].
    apply Hb; [done|]. destruct Hp as [Hp|Hp]; [left; by apply (proj2 (Hoa _ eq_refl))|right]. apply (proj2 (Hob _ eq_refl)).
    intros w' Hw'. apply Hp. by apply HL1. }
  eapply (keeps_mono _ _ _ (unlearned (fun _ => True) K3)); [|done|by apply kept_rest].
  intros r K' _ [-> _] w Hw. split; [by apply Hsub|]. intros _. by apply Hboth.
Qed.

End package.


(** ** The walk of two buckets *)

Section walk.
Variable p : str.
Hypothesis p_name : "/"%char ∉ p.

Lemma package_of_claim : package_of (origin_key p) = Some p.
Proof.
  unfold package_of, origin_key. rewrite strip_prefix_app. cbn [mbind option_bind].
  change (&"/.origin") with ("/"%char :: ORIGIN_MARKER). by rewrite split_once_app.
Qed.

(** The package is still to come, and was not skipped as a repetition. *)
Definition ahead (s : PackageScan) : Prop :=
  (p ∈ sc_buf s \/ sc_done s = false /\ is_after (sc_after s) (origin_key p) = true)
  /\ (sc_last_emitted s = Some p -> p ∈ sc_buf s).

Lemma absorb_spec page buf last :
  (last = Some p -> p ∈ buf) ->
  (forall x, x ∈ buf -> x ∈ (absorb page buf last).1)
  /\ ((absorb page buf last).2 = Some p -> p ∈ (absorb page buf last).1)
  /\ (forall o, o ∈ page -> package_of (meta_key o) = Some p -> p ∈ (absorb page buf last).1).
Proof.
  revert buf last. induction page as [|o page IH]; intros buf last Hlast; cbn [absorb].
  { split; [done|]. split; [done|]. intros o Ho. by apply elem_of_nil in Ho. }
  destruct (package_of (meta_key o)) as [name|] eqn:Hpo.
  2:{ destruct (IH buf last Hlast) as (H1 & H2 & H3). do 2 (split; [done|]). intros o' [->|Ho]%elem_of_cons Hp; [congruence|eauto]. }
  case_decide as Hd.
  - destruct (IH buf last Hlast) as (H1 & H2 & H3). do 2 (split; [done|]).
    intros o' [->|Ho]%elem_of_cons Hp; [|eauto]. apply H1, Hlast. congruence.
  - destruct (IH (buf ++ [name]) (Some name)) as (H1 & H2 & H3); [intros [= ->]; set_solver|].
    split; [intros x Hx; apply H1; set_solver|]. split; [done|].
    intros o' [->|Ho]%elem_of_cons Hp; [|eauto]. apply H1. rewrite Hpo in Hp. injection Hp as ->. set_solver.
Qed.

Lemma claim_listed (s : store) : is_Some (claim_of s p) -> exists o, o ∈ list_all PACKAGES_PREFIX s /\ meta_key o = origin_key p.
Proof.
  unfold claim_of, contents. intros [c Hc]. destruct (objects s !! origin_key p) as [obj|] eqn:Hobj; [|done].
  exists (meta_of (origin_key p, obj)). split; [|done]. unfold list_all. apply list_elem_of_fmap_2.
  apply elem_of_list_where. split; [|done]. apply starts_with_true. by eexists.
Qed.

(** A page that misses a key it has yet to show is full, and the key comes after
    it. *)
Lemma page_misses after limit l o :
  StronglySorted key_lt l -> o ∈ l -> is_after after (meta_key o) = true ->
  let page := take limit (filter (after_key after) l) in
  o ∈ page \/ (length page = limit /\ forall x, last page = Some x -> is_after (Some (meta_key x)) (meta_key o) = true).
Proof.
  intros Hs Ho Ha page. assert (o ∈ filter (after_key after) l) as Hin by (by apply list_elem_of_filter).
  rewrite <- (take_drop limit (filter (after_key after) l)) in Hin. apply elem_of_app in Hin as [Hin|Hin]; [by left|right].
  split.
  - unfold page. rewrite length_take. apply list_elem_of_lookup in Hin as [i Hi]. rewrite lookup_drop in Hi.
    apply lookup_lt_Some in Hi. lia.
  - intros x Hx. rewrite <- (page_rest after limit l x Hs Hx) in Hin. by apply list_elem_of_filter in Hin as [? _].
Qed.

(** The scan after one page. *)
Definition scan_page (s : PackageScan) (page : list ObjectMeta) : PackageScan :=
  let '(buf, last_emitted) := absorb page (sc_buf s) (sc_last_emitted s) in
  MkScan (sc_storage s) (meta_key <$> last page) buf last_emitted
         (negb (RECONCILE_SCAN_PAGE <=? length page)%nat || sc_done s).

Lemma ahead_page (st : store) s :
  is_Some (claim_of st p) -> sc_buf s = [] -> sc_done s = false -> ahead s ->
  let page := list_page PACKAGES_PREFIX (sc_after s) RECONCILE_SCAN_PAGE st in
  page ≠ [] /\ ahead (scan_page s page).
Proof.
  intros Hc Hb Hd [[Hin|[_ Ha]] Hl] page; [rewrite Hb in Hin; by apply elem_of_nil in Hin|].
  destruct (claim_listed st Hc) as (o & Ho & Hk). rewrite <- Hk in Ha.
  pose proof (page_misses _ RECONCILE_SCAN_PAGE _ _ (list_all_sorted _ _) Ho Ha) as Hm. cbv zeta in Hm.
  change (take RECONCILE_SCAN_PAGE _) with page in Hm. destruct Hm as [Hp|[Hlen Hnext]].
  - split; [intros He; rewrite He in Hp; by apply elem_of_nil in Hp|]. unfold scan_page, ahead.
    destruct (absorb_spec page (sc_buf s) (sc_last_emitted s) Hl) as (_ & H2 & H3).
    destruct (absorb page _ _) as [buf le]; cbn in *.
    split; [left; apply (H3 o); [done|]; rewrite Hk; apply package_of_claim|done].
  - assert (page ≠ []) as Hne by (intros He; by rewrite He in Hlen). split; [done|]. unfold scan_page, ahead.
    destruct (absorb_spec page (sc_buf s) (sc_last_emitted s) Hl) as (_ & H2 & _).
    destruct (absorb page _ _) as [buf le]; cbn [sc_buf sc_done sc_after sc_last_emitted fst snd] in *.
    split; [right|done]. rewrite Hlen, Nat.leb_refl, Hd. split; [done|].
    destruct (last page) as [x|] eqn:Hx; [|by apply last_None in Hx]. cbn [fmap option_fmap option_map].
    rewrite <- Hk. by apply Hnext.
Qed.

(** What filling a scan keeps: a package known private stays ahead. *)
Definition fill_keeps (K : world -> Prop) (s s' : PackageScan) : Prop :=
  sc_storage s' = sc_storage s
  /\ ((forall w, K w -> private_at (sc_storage s) p w) -> ahead s -> ahead s')
  /\ (sc_buf s' = [] -> sc_done s' = true).

Lemma kept_scan_fill K fuel s : stable K -> kept K (unlearned (fill_keeps K s) K) (scan_fill fuel s).
Proof.
  intros HK. revert s. induction fuel as [|fuel IH]; intros s; cbn [scan_fill];
    destruct (bool_decide (sc_buf s = []) && negb (sc_done s)) eqn:Hc.
  1: done.
  1,3: split; [done|]; intros s' [= <-]; do 2 (split; [done|]); intros Hb;
    rewrite bool_decide_eq_true_2 in Hc by done; by destruct (sc_done s).
  apply andb_prop in Hc as [Hb Hd]. apply bool_decide_eq_true in Hb. apply negb_true_iff in Hd.
  intros w r st Hw HKw Hstep.
  pose proof (op_step_read _ _ _ _ _ (eq_refl : is_read (ListPage _ _ _) = true) Hstep) as ->.
  rewrite fn_insert_id. split; [reflexivity|]. exists K. split; [done|]. split; [done|].
  destruct r as [page|e]; [|by split]. pose proof (list_page_answer _ _ _ _ _ _ _ Hstep eq_refl) as Hpage.
  unfold pbind_ok. rewrite pbind_ret.
  assert ((forall w, K w -> private_at (sc_storage s) p w) -> ahead s -> page ≠ [] /\ ahead (scan_page s page)) as Hah.
  { intros Hp Hah. rewrite Hpage. apply ahead_page; [|done..]. rewrite (Hp w HKw). by eexists. }
  case_decide as Hnil.
  { split; [done|]. intros s' [= <-]. split; [done|]. split; [|done]. intros Hp Ha. by apply Hah in Ha as [? _]. }
  change (kept K (unlearned (fill_keeps K s) K)
    (let '(buf, last_emitted) := absorb page (sc_buf s) (sc_last_emitted s) in
     scan_fill fuel (MkScan (sc_storage s) (meta_key <$> last page) buf last_emitted
                            (negb (RECONCILE_SCAN_PAGE <=? length page)%nat || sc_done s)))).
  unfold scan_page in Hah. destruct (absorb page _ _) as [buf le].
  eapply keeps_mono; [|done|apply IH]. intros r K' _ [-> Hr]. split; [done|].
  intros s' Hs'. destruct (Hr s' Hs') as (Hst & Ha & Hdone). split; [exact Hst|]. split; [|done].
  intros Hp Hs. by apply Ha; [|apply Hah].
Qed.

(** What the walk has achieved for the package: it was merged, a failure was
    counted, or it is still ahead. *)
Definition on_course (a b : nat) (K : world -> Prop) (failures : nat) (s : PackageScan) : Prop :=
  (forall w, K w -> both_private a b p w) \/ (0 < failures)%nat \/ ahead s.

Lemma ahead_advance s q : head (sc_buf s) = Some q -> q ≠ p -> ahead s -> ahead (advance s).
Proof.
  intros Hh Hq [Hin Hl]. destruct s as [st af buf le dn]. cbn in *. destruct buf as [|x buf]; [done|].
  injection Hh as ->. unfold ahead; cbn. split.
  - destruct Hin as [[->|Hin]%elem_of_cons|Hin]; [done|by left|by right].
  - intros ->. by destruct (elem_of_cons buf p q) as [Hc _]; destruct (Hc (Hl eq_refl)) as [->|?].
Qed.

Lemma ahead_head s : (sc_buf s = [] -> sc_done s = true) -> ahead s -> head (sc_buf s) ≠ None.
Proof.
  intros Hdone [[Hin|[Hd _]] _] Hh; destruct (sc_buf s); [by apply elem_of_nil in Hin|done| |done].
  by rewrite Hdone in Hd.
Qed.

Lemma kept_peek K fuel s :
  stable K -> kept K (unlearned (fun r => r.1 = head (sc_buf r.2) /\ fill_keeps K s r.2) K) (peek fuel s).
Proof.
  intros HK. unfold peek. eapply kept_unlearned; [done|by apply kept_scan_fill| |by split].
  intros s' Hs'. split; [done|]. by intros x [= <-].
Qed.

(** The next package is a head, and the scans move past that name only. *)
Lemma next_spec na nb sa sb q sa' sb' :
  next_package na nb sa sb = Some (q, sa', sb') ->
  (sa' = sa \/ na = Some q /\ sa' = advance sa) /\ (sb' = sb \/ nb = Some q /\ sb' = advance sb).
Proof.
  unfold next_package. destruct na as [x|], nb as [y|]; [|naive_solver..].
  destruct (cmp x y) eqn:Hc; [apply cmp_eq_iff in Hc|..]; naive_solver.
Qed.

Section pair.
Variables (a b : nat) (side : Side).
Let c := match side with A => a | B => b end.
Abbreviation tracked sa sb := (match side with A => sa | B => sb end).

Lemma kept_walk K steps fuel sa sb failures deferred :
  stable K -> (forall w, K w -> no_shadow (w a) /\ no_shadow (w b)) -> (forall w, K w -> private_at c p w) ->
  sc_storage sa = a -> sc_storage sb = b -> on_course a b K failures (tracked sa sb) ->
  kept K (fun r K' => forall w, K' w -> is_ok r = true -> both_private a b p w)
    (diff_walk steps fuel a b sa sb failures deferred).
Proof.
  revert K sa sb failures deferred.
  induction steps as [|steps IH]; intros K sa sb failures deferred HK Hns Hp Hsa Hsb Hcourse; cbn [diff_walk]; [done|].
  eapply kept_unlearned; [done|by apply kept_peek| |done]. intros [na sa1] [Hna (Hsta & Haha & Hda)].
  eapply kept_unlearned; [done|by apply kept_peek| |done]. intros [nb sb1] [Hnb (Hstb & Hahb & Hdb)].
  cbn [fst snd] in *. rewrite Hsa in *. rewrite Hsb in *.
  assert (on_course a b K failures (tracked sa1 sb1)) as Hcourse1.
  { destruct Hcourse as [?|[?|Ha]]; [by left|by right; left|right; right]. subst c. destruct side; auto. }
  clear Hcourse Haha Hahb.
  destruct (next_package na nb sa1 sb1) as [[[q sa2] sb2]|] eqn:Hnext.
  2:{ destruct (Nat.eqb_spec failures 0) as [->|]; [|done]. intros w Hw _.
      destruct Hcourse1 as [Hb|[?|Ha]]; [by apply Hb|lia|]. exfalso.
      assert (head (sc_buf (tracked sa1 sb1)) ≠ None) as Hh by (apply ahead_head; [by destruct side|done]).
      unfold next_package in Hnext. rewrite Hna, Hnb in Hnext. clear -Hh Hnext.
      destruct side, (head (sc_buf sa1)), (head (sc_buf sb1)); try done; by destruct (cmp _ _). }
  apply keeps_bind; [|done]. eapply keeps_mono; [|done|by apply kept_converge].
  intros r K1 HK1 HL _.
  assert (forall failures' deferred', (failures <= failures')%nat -> (is_ok r = false -> 0 < failures')%nat ->
    kept K1 (fun r K' => forall w, K' w -> is_ok r = true -> both_private a b p w)
      (diff_walk steps fuel a b sa2 sb2 failures' deferred')) as Hgo.
  { intros failures' deferred' Hle Hfail. apply next_spec in Hnext as [Hsa2 Hsb2].
    apply IH; [done|intros w Hw; by apply Hns, HL|intros w Hw; by apply Hp, HL| | |].
    - destruct Hsa2 as [->|[_ ->]]; done.
    - destruct Hsb2 as [->|[_ ->]]; done.
    - destruct Hcourse1 as [Hb|[?|Ha]]; [left; intros w Hw; by apply Hb, HL|right; left; lia|].
      destruct (decide (q = p)) as [->|Hq].
      + destruct (is_ok r) eqn:Hr; [|right; left; by apply Hfail]. left. intros w Hw. apply (HL w Hw); [done|].
        subst c. destruct side; [by left|by right].
      + right. right. rewrite Hna in Hsa2. rewrite Hnb in Hsb2.
        destruct side; [destruct Hsa2 as [->|[Hh ->]]|destruct Hsb2 as [->|[Hh ->]]]; try done; by eapply ahead_advance. }
  destruct r as [[]|e]; apply Hgo; simpl; auto with lia.
Qed.

End pair.
End walk.

(** A pass for no name in particular: it keeps what it knows. *)
Lemma fair_peek fuel s : guar fair (fun _ => True) (peek fuel s).
Proof.
  assert (forall b R (o : op R), is_read o = true -> fair b R o) as Hr.
  { intros b R o Ho. apply (fair_keys []). intros k Hk. by destruct o. }
  unfold peek. eapply (guar_bind_ok _ _ _ (fun _ => True)); [|done|done].
  revert s. induction fuel as [|fuel IH]; intros s; cbn [scan_fill]; case_match; try done.
  apply guar_call_ok; [by apply Hr|intros page _|done]. case_decide; [done|].
  destruct (absorb page _ _) as [buf le]. apply IH.
Qed.

Lemma kept_diff K steps fuel a b sa sb failures deferred :
  stable K -> (forall w, K w -> no_shadow (w a) /\ no_shadow (w b)) ->
  kept K (fun _ K' => forall w, K' w -> K w) (diff_walk steps fuel a b sa sb failures deferred).
Proof.
  revert K sa sb failures deferred.
  induction steps as [|steps IH]; intros K sa sb failures deferred HK Hns; cbn [diff_walk]; [by intros w|].
  apply kept_fair_ok; [done|apply fair_peek|intros pa|by intros e w]. apply kept_fair_ok; [done|apply fair_peek|intros pb|by intros e w].
  destruct (next_package _ _ _ _) as [[[q sa2] sb2]|]; [|by intros w].
  apply keeps_bind; [|done]. eapply keeps_mono; [|done|by apply kept_converge]. intros r K1 HK1 HL _.
  assert (forall w, K1 w -> no_shadow (w a) /\ no_shadow (w b)) as Hns1 by (intros w Hw; by apply Hns, HL).
  destruct r as [[]|e]; (eapply keeps_mono; [|done|by apply IH]; intros x K2 _ H2 w Hw; by apply HL, H2).
Qed.

(** Any execution of a pass, among others. *)
Lemma diff_spreads fuel a b pkg w deferred w' :
  ("/"%char ∉ pkg) -> no_shadow (w a) -> no_shadow (w b) ->
  private_at a pkg w \/ private_at b pkg w ->
  exec_rely claims_rel (diff_pair fuel a b) w (Ok deferred) w' ->
  private_at a pkg w' /\ private_at b pkg w'.
Proof.
  intros Hn Ha Hb Hp He.
  assert (exists side, private_at (match side with A => a | B => b end) pkg w) as [side Hs]
    by (destruct Hp; [by exists A|by exists B]).
  set (c := match side with A => a | B => b end) in *.
  set (K := fun w => (no_shadow (w a) /\ no_shadow (w b)) /\ private_at c pkg w).
  assert (stable K) as HK by (apply and_known; [apply and_known; apply no_shadow_stable|apply private_stable]).
  destruct (keeps_exec claims_rel _ K (fun r K' => forall w, K' w -> is_ok r = true -> both_private a b pkg w)
              (diff_pair fuel a b) w (Ok deferred) w') as (K' & HK' & HQ); [done|done| |done|by apply HQ].
  apply (kept_walk pkg Hn a b side); [done|by intros ? []|by intros ? []|done|done|].
  right. right. by destruct side; (split; [right|]).
Qed.


(** C26: ownership spreads. A name that is private on one of two buckets when a
    pairwise pass starts is private on both when the pass returns, whatever the
    storage answers (every operation may fail, before or after its effect) and
    whatever other nodes do meanwhile to any other object, as long as they keep
    the claim lattice: the paged walk cannot miss the package, and the merge
    cannot return without both claims standing. *)
Theorem diff_pass_spreads_private fuel a b pkg w deferred w' :
  ("/"%char ∉ pkg) -> no_shadow (w a) -> no_shadow (w b) ->
  private_at a pkg w \/ private_at b pkg w ->
  exec_rely claims_rel (diff_pair fuel a b) w (Ok deferred) w' ->
  private_at a pkg w' /\ private_at b pkg w'.
Proof. apply diff_spreads. Qed.

End spread.

(** ** An example: a private name on the first of two buckets. *)
#[local] Existing Instances toy_digest toy_claim_codec toy_sidecar_codec toy_filename_codec toy_status_codec
  content_etags no_copy_verb toy_chunking.

Lemma run_no_shadow A (p : prog A) w b :
  wf_world w -> no_shadow (w b) -> guar fair (fun _ => True) p -> no_shadow ((run example_env w p).1 b).
Proof.
  intros Hw Hn Hf. assert (Storage.stable claims_rel (fun w => no_shadow (w b))) as HK by apply no_shadow_stable.
  destruct (keeps_exec claims_rel _ _ (fun _ K' => K' = (fun w => no_shadow (w b))) p w _ _ HK Hn
              (keeps_guar claims_rel _ fair _ _ (fun b R o w r s => fair_step w b R o r s) HK Hf)
              (exec_rely_run claims_rel _ example_env _ p Hw example_env_good))
    as (K' & HK' & ->). exact HK'.
Qed.

Lemma claimed_no_shadow b : no_shadow (claimed_world OriginState.PRIVATE b).
Proof.
  apply run_no_shadow; [apply empty_world_wf|done|]. apply (fair_claim _ _ (&"requests")).
  - apply guar_thread with (Q := fun _ => True). by apply guar_claim_any.
  - apply guar_thread with (Q := fun _ => True). by apply touch_claim_origin.
Qed.

Lemma diff_pass_spreads_private_witness :
  private_at 0 (&"requests") (claimed_world OriginState.PRIVATE)
  /\ claim_of (claimed_world OriginState.PRIVATE 1%nat) (&"requests") = None
  /\ private_at 1 (&"requests") (run example_env (claimed_world OriginState.PRIVATE) (diff_pair 3 0 1)).1.
Proof.
  split; [vm_compute; reflexivity|]. split; [vm_compute; reflexivity|].
  assert (private_at 0 (&"requests") (claimed_world OriginState.PRIVATE)) as Hp by (vm_compute; reflexivity).
  assert ((run example_env (claimed_world OriginState.PRIVATE) (diff_pair 3 0 1)).2 = Ok []) as Hr
    by (vm_compute; reflexivity).
  assert (wf_world (claimed_world OriginState.PRIVATE)) as Hw by (apply wf_run, empty_world_wf).
  pose proof (exec_rely_run claims_rel _ example_env _ (diff_pair 3 0 1) Hw example_env_good) as He.
  rewrite Hr in He.
  apply (diff_pass_spreads_private 3 0 1 (&"requests") (claimed_world OriginState.PRIVATE) []);
    [by apply (bool_decide_unpack _)|apply claimed_no_shadow|apply claimed_no_shadow|by left|exact He].
Defined.

End Spread.
