(* ===== verification/BucketHealth.v ===== *)
(** * Per-node bucket health and selection (src/bucket_health.rs)

    A synchronous state machine: classified observations and timer ticks move a
    write selection and a read pin over the configured buckets. Instants and
    durations are nanosecond counts. *)
From S2P Require Import Prelude RustStr.

Module BucketHealth.

Inductive BucketSignal :=
  | Success
  | Timeout
  | ConnectionFailure
  | HttpStatus (code : Z)
  | KmsError
  | QuotaError
  | ConfigurationError
  | OtherError.

Inductive SignalClass := ClassHealthy | AvailabilityFailure | Ignored.

#[global] Instance SignalClass_eq_dec : EqDecision SignalClass.
Proof. solve_decision. Defined.

Definition classify (signal : BucketSignal) : SignalClass :=
  match signal with
  | Success => ClassHealthy
  | Timeout | ConnectionFailure => AvailabilityFailure
  | HttpStatus c =>
    if (c =? 408) || ((500 <=? c) && (c <=? 599)) then AvailabilityFailure
    else if (200 <=? c) && (c <=? 399) then ClassHealthy
    else Ignored
  | KmsError | QuotaError | ConfigurationError | OtherError => Ignored
  end.

Inductive HealthState := Unknown | Healthy | Unhealthy.

#[global] Instance HealthState_eq_dec : EqDecision HealthState.
Proof. solve_decision. Defined.

Record HealthPolicy := MkPolicy { leave_after_failures : Z; return_after_healthy : Z }.

Inductive HealthConfigError := NoBuckets | ZeroLeaveThreshold.

(** [HealthPolicy::new]. *)
Definition policy_new (leave return_after : Z) : result HealthConfigError HealthPolicy :=
  if leave =? 0 then Err ZeroLeaveThreshold else Ok (MkPolicy leave return_after).

Record SelectionChange := MkChange { from : nat; to : nat }.

Inductive ReadPin := FollowWrite | Earned.

#[global] Instance ReadPin_eq_dec : EqDecision ReadPin.
Proof. solve_decision. Defined.

Definition next_read_pin (pin : ReadPin) (usable served_window caught_up : bool) : ReadPin :=
  match pin with
  | Earned => if negb usable then FollowWrite else Earned
  | FollowWrite => if usable && served_window && caught_up then Earned else FollowWrite
  end.

Inductive Topology := Verified | Pending | Checking.

#[global] Instance Topology_eq_dec : EqDecision Topology.
Proof. solve_decision. Defined.

Record BucketStatus := MkStatus {
  bstate : HealthState;
  consecutive_failures : Z;
  healthy_since : option Z;
  topology : Topology
}.

Definition status_new (st : HealthState) : BucketStatus := MkStatus st 0 None Verified.

(** [BucketStatus::usable]. *)
Definition status_usable (b : BucketStatus) : bool :=
  bool_decide (bstate b = Healthy) && bool_decide (topology b = Verified).

(** [BucketStatus::served], with [saturating_duration_since]. *)
Definition served (b : BucketStatus) (window now : Z) : bool :=
  status_usable b
  && match healthy_since b with Some since => window <=? Z.max (now - since) 0 | None => false end.

Record BucketHealth := MkHealth {
  policy : HealthPolicy;
  buckets : list BucketStatus;
  selected : nat;
  read_preference : option nat;
  read_pin : ReadPin
}.

(** [Iterator::position]. *)
Definition position {A} (p : A -> bool) (l : list A) : option nat :=
  fst <$> list_find (fun x => p x = true) l.

(** [BucketHealth::new]. *)
Definition health_new (bucket_count : nat) (p : HealthPolicy) : result HealthConfigError BucketHealth :=
  if (bucket_count =? 0)%nat then Err NoBuckets
  else if leave_after_failures p =? 0 then Err ZeroLeaveThreshold
  else Ok (MkHealth p (<[0%nat := status_new Healthy]> (replicate bucket_count (status_new Unknown)))
             0 None FollowWrite).

Definition read_index (h : BucketHealth) : nat :=
  match read_preference h, read_pin h with
  | Some region, Earned => region
  | _, _ => selected h
  end.

(** [BucketHealth::usable]. *)
Definition usable (h : BucketHealth) (index : nat) : bool :=
  match buckets h !! index with Some b => status_usable b | None => false end.

Definition set_buckets (h : BucketHealth) (bs : list BucketStatus) : BucketHealth :=
  MkHealth (policy h) bs (selected h) (read_preference h) (read_pin h).

(** [BucketHealth::set_read_affinity]. *)
Definition set_read_affinity (h : BucketHealth) (preference : nat) (earned : bool) : BucketHealth :=
  MkHealth (policy h) (buckets h) (selected h) (Some preference)
    (next_read_pin (if earned then Earned else FollowWrite) (usable h preference) false false).

(** The selection half of [BucketHealth::evaluate]. *)
Definition next_selected (h : BucketHealth) (now : Z) (from_tick : bool) : nat :=
  match buckets h !! selected h with
  | None => selected h
  | Some current =>
    if bool_decide (bstate current = Unhealthy) || (from_tick && negb (status_usable current)) then
      default (selected h) (position status_usable (buckets h))
    else
      default (selected h)
        (position (fun b => served b (return_after_healthy (policy h)) now)
           (take (selected h) (buckets h)))
  end.

(** Its read-pin half. *)
Definition next_pin (h : BucketHealth) (now : Z) (region_caught_up : bool) : ReadPin :=
  match (let! region := read_preference h in buckets h !! region) with
  | Some b => next_read_pin (read_pin h) (status_usable b)
                (served b (return_after_healthy (policy h)) now) region_caught_up
  | None => read_pin h
  end.

Definition evaluate (h : BucketHealth) (now : Z) (region_caught_up from_tick : bool) : BucketHealth :=
  MkHealth (policy h) (buckets h) (next_selected h now from_tick) (read_preference h)
    (next_pin h now region_caught_up).

(** What one observation does to the bucket it names. *)
Definition observe_status (p : HealthPolicy) (signal : BucketSignal) (now : Z) (b : BucketStatus)
    : BucketStatus :=
  match classify signal with
  | ClassHealthy =>
    MkStatus Healthy 0 (Some (default now (healthy_since b)))
      (if decide (bstate b = Healthy) then topology b else Pending)
  | AvailabilityFailure =>
    let failures := u32_saturating_add (consecutive_failures b) 1 in
    MkStatus (if leave_after_failures p <=? failures then Unhealthy else bstate b) failures None
      (topology b)
  | Ignored => b
  end.

(** [BucketHealth::observe]; [None] is [InvalidBucket]. *)
Definition observe (h : BucketHealth) (index : nat) (signal : BucketSignal) (now : Z)
    : option BucketHealth :=
  let! b := buckets h !! index in
  Some (evaluate (set_buckets h (<[index := observe_status (policy h) signal now b]> (buckets h)))
          now false false).

Definition tick (h : BucketHealth) (now : Z) (region_caught_up : bool) : BucketHealth :=
  evaluate h now region_caught_up true.

(** ** The controller shared by requests and the worker *)

Record ControllerState := MkController {
  health : BucketHealth;
  applied_selected : nat;
  applied_read_selected : nat;
  alarms : list Z
}.

(** [HealthController::new]. *)
Definition controller_new (bucket_count : nat) (p : HealthPolicy)
    : result HealthConfigError ControllerState :=
  let? h := health_new bucket_count p in
  Ok (MkController h 0 0 (replicate bucket_count 0)).

Definition bucket_eligible (c : ControllerState) (index : nat) : option bool :=
  (fun b => negb (bool_decide (bstate b = Unhealthy)) && bool_decide (topology b = Verified))
  <$> buckets (health c) !! index.

(** [apply_selection]: whether the proposal was published, and the new state. *)
Definition apply_selection (c : ControllerState) (index : nat) : ControllerState * bool :=
  if (selected (health c) =? index)%nat && usable (health c) index
  then (MkController (health c) index (applied_read_selected c) (alarms c), true)
  else (c, false).

Definition apply_read_selection (c : ControllerState) (index : nat) : ControllerState * bool :=
  if (read_index (health c) =? index)%nat && usable (health c) index
  then (MkController (health c) (applied_selected c) index (alarms c), true)
  else (c, false).

Definition configure_read_affinity (c : ControllerState) (preference : nat) (earned : bool)
    : option (ControllerState * bool) :=
  if (preference <? length (buckets (health c)))%nat then
    let h := set_read_affinity (health c) preference earned in
    let pinned := bool_decide (read_pin h = Earned) in
    Some (MkController h (applied_selected c)
            (if pinned then preference else applied_selected c) (alarms c), pinned)
  else None.

Definition read_return_pending (c : ControllerState) : option nat :=
  let! region := read_preference (health c) in
  if negb (applied_read_selected c =? region)%nat && usable (health c) region
  then Some region else None.

Definition with_bucket (c : ControllerState) (index : nat) (update : BucketStatus -> BucketStatus)
    : option ControllerState :=
  let! b := buckets (health c) !! index in
  Some (MkController (set_buckets (health c) (<[index := update b]> (buckets (health c))))
          (applied_selected c) (applied_read_selected c) (alarms c)).

Definition set_topology (t : Topology) (b : BucketStatus) : BucketStatus :=
  MkStatus (bstate b) (consecutive_failures b) (healthy_since b) t.

Definition topology_revalidated (c : ControllerState) (index : nat) : option ControllerState :=
  with_bucket c index (set_topology Verified).

Definition topology_check_passed (c : ControllerState) (index : nat) : option ControllerState :=
  with_bucket c index (fun b => if decide (topology b = Checking) then set_topology Verified b else b).

Definition observe_at (c : ControllerState) (index : nat) (signal : BucketSignal) (now : Z)
    : option ControllerState :=
  let! h := observe (health c) index signal now in
  Some (MkController h (applied_selected c) (applied_read_selected c)
    (if decide (classify signal = Ignored)
     then alter (fun n => u64_saturating_add n 1) index (alarms c) else alarms c)).

Record WorkerHealthSnapshot := MkSnapshot {
  selected_index : nat;
  selection_change : option SelectionChange;
  read_selected_index : nat;
  read_selection_change : option SelectionChange;
  states : list HealthState;
  topology_revalidation : list nat;
  snapshot_alarms : list Z
}.

(** A switch to propose while the published index differs. *)
Definition pending_change (applied wanted : nat) : option SelectionChange :=
  if (wanted =? applied)%nat then None else Some (MkChange applied wanted).

(** Hand an unverified bucket to the worker. *)
Definition start_check (b : BucketStatus) : BucketStatus :=
  if decide (topology b = Verified) then b else set_topology Checking b.

Definition worker_tick_at (c : ControllerState) (now : Z) (region_caught_up : bool)
    : ControllerState * WorkerHealthSnapshot :=
  let h := tick (health c) now region_caught_up in
  let '(read, read_change) :=
    match read_preference h with
    | Some _ => (read_index h, pending_change (applied_read_selected c) (read_index h))
    | None => (selected h, None)
    end in
  let unverified := filter (fun i => from_option (fun b => negb (bool_decide (topology b = Verified)))
                                       false (buckets h !! i) = true) (seq 0 (length (buckets h))) in
  (MkController (set_buckets h (start_check <$> buckets h)) (applied_selected c)
     (applied_read_selected c) (replicate (length (alarms c)) 0),
   MkSnapshot (selected h) (pending_change (applied_selected c) (selected h)) read read_change
     (bstate <$> buckets h) unverified (alarms c)).

(** ** Events and reachable controllers *)

Inductive event :=
  | Observe (index : nat) (signal : BucketSignal) (now : Z)
  | WorkerTick (now : Z) (region_caught_up : bool)
  | ApplySelection (index : nat)
  | ApplyReadSelection (index : nat)
  | ConfigureReadAffinity (preference : nat) (earned : bool)
  | TopologyRevalidated (index : nat)
  | TopologyCheckPassed (index : nat).

(** A refused event leaves the controller as it is. *)
Definition handle (c : ControllerState) (e : event) : ControllerState :=
  match e with
  | Observe i s now => default c (observe_at c i s now)
  | WorkerTick now caught_up => (worker_tick_at c now caught_up).1
  | ApplySelection i => (apply_selection c i).1
  | ApplyReadSelection i => (apply_read_selection c i).1
  | ConfigureReadAffinity p earned => from_option fst c (configure_read_affinity c p earned)
  | TopologyRevalidated i => default c (topology_revalidated c i)
  | TopologyCheckPassed i => default c (topology_check_passed c i)
  end.

Inductive reachable (n : nat) (p : HealthPolicy) : ControllerState -> Prop :=
  | reach_new c : controller_new n p = Ok c -> reachable n p c
  | reach_step c e : reachable n p c -> reachable n p (handle c e).

(** ** The invariant *)

(** One bucket: unhealthy exactly when its failure streak reached the
    threshold; continuously healthy only without failures. *)
Definition status_inv (p : HealthPolicy) (b : BucketStatus) : Prop :=
  0 <= consecutive_failures b
  /\ (bstate b = Unhealthy <-> leave_after_failures p <= consecutive_failures b)
  /\ (is_Some (healthy_since b) -> bstate b = Healthy /\ consecutive_failures b = 0).

Definition health_inv (h : BucketHealth) : Prop :=
  0 < leave_after_failures (policy h) <= u32_max
  /\ Forall (status_inv (policy h)) (buckets h)
  /\ (selected h < length (buckets h))%nat
  /\ (forall r, read_preference h = Some r -> (r < length (buckets h))%nat)
  /\ (read_pin h = Earned -> exists r, read_preference h = Some r /\ usable h r = true).

Definition controller_inv (c : ControllerState) : Prop :=
  health_inv (health c)
  /\ (applied_selected c < length (buckets (health c)))%nat
  /\ (applied_read_selected c < length (buckets (health c)))%nat
  /\ length (alarms c) = length (buckets (health c)).

Lemma position_Some {A} (f : A -> bool) l i :
  position f l = Some i -> exists x, l !! i = Some x /\ f x = true
    /\ forall j y, l !! j = Some y -> (j < i)%nat -> f y = false.
Proof.
  unfold position. destruct (list_find _ l) as [[k x]|] eqn:Hf; simpl; [|done]. intros [= ->].
  apply list_find_Some in Hf as (Hx & Hfx & Hmin). exists x. do 2 (split; [done|]).
  intros j y Hy Hj. destruct (f y) eqn:Hfy; [|done]. by destruct (Hmin j y Hy Hj).
Qed.

Lemma position_None {A} (f : A -> bool) l : position f l = None -> forall x, x ∈ l -> f x = false.
Proof.
  unfold position. destruct (list_find _ l) as [[k x]|] eqn:Hf; simpl; [done|]. intros _ x Hx.
  apply list_find_None in Hf. rewrite Forall_forall in Hf. specialize (Hf x Hx).
  by destruct (f x).
Qed.

Lemma next_selected_bound h now t :
  (selected h < length (buckets h))%nat -> (next_selected h now t < length (buckets h))%nat.
Proof.
  intros Hs. unfold next_selected. destruct (buckets h !! selected h); [|done]. case_match.
  - destruct (position _ (buckets h)) eqn:Hp; simpl; [|done].
    apply position_Some in Hp as (x & Hx & _). by apply lookup_lt_Some in Hx.
  - destruct (position _ (take _ _)) eqn:Hp; simpl; [|done].
    apply position_Some in Hp as (x & Hx & _). apply lookup_lt_Some in Hx. rewrite length_take in Hx. lia.
Qed.

Lemma next_pin_earned h now caught_up :
  next_pin h now caught_up = Earned ->
  (read_pin h = Earned -> exists r, read_preference h = Some r) ->
  (forall r, read_preference h = Some r -> (r < length (buckets h))%nat) ->
  exists r, read_preference h = Some r /\ usable h r = true.
Proof.
  unfold next_pin, usable. intros Hpin Hpref Hb. destruct (read_preference h) as [r|] eqn:Hr; simpl in *.
  - exists r. split; [done|]. destruct (lookup_lt_is_Some_2 (buckets h) r) as [b Hbr]; [by apply Hb|].
    rewrite Hbr in *. unfold next_read_pin in Hpin.
    destruct (read_pin h); by destruct (status_usable b).
  - by destruct (Hpref Hpin).
Qed.

(** Re-evaluating restores the invariant from its bucket-level part. *)
Lemma evaluate_inv h now caught_up t :
  0 < leave_after_failures (policy h) <= u32_max -> Forall (status_inv (policy h)) (buckets h) ->
  (selected h < length (buckets h))%nat ->
  (forall r, read_preference h = Some r -> (r < length (buckets h))%nat) ->
  (read_pin h = Earned -> exists r, read_preference h = Some r) ->
  health_inv (evaluate h now caught_up t).
Proof.
  intros Hp Hb Hs Hr He. unfold health_inv, evaluate; simpl. do 2 (split; [done|]).
  split; [by apply next_selected_bound|]. split; [done|]. intros Hpin.
  by apply next_pin_earned in Hpin.
Qed.

Lemma observe_status_inv p signal now b :
  0 < leave_after_failures p <= u32_max -> status_inv p b -> status_inv p (observe_status p signal now b).
Proof.
  intros Hp (Hge & Hu & Hh). unfold observe_status. destruct (classify signal); [| |done].
  - split; [done|]. split; [|done]. simpl. split; [done|lia].
  - unfold status_inv, u32_saturating_add; simpl.
    destruct (Z.leb_spec (leave_after_failures p) (Z.min (consecutive_failures b + 1) u32_max)).
    + split; [unfold u32_max in *; lia|]. split; [done|]. by intros [].
    + split; [unfold u32_max in *; lia|]. split; [|by intros []].
      rewrite Hu. unfold u32_max in *. lia.
Qed.

(** A status change that can only make a bucket more usable. *)
Lemma with_status_inv h i b b' :
  health_inv h -> buckets h !! i = Some b -> status_inv (policy h) b' ->
  (status_usable b = true -> status_usable b' = true) ->
  health_inv (set_buckets h (<[i := b']> (buckets h))).
Proof.
  intros (Hp & Hb & Hs & Hr & He) Hi Hb' Hu. unfold health_inv; simpl. rewrite length_insert.
  split; [done|]. split; [by apply Forall_insert|]. do 2 (split; [done|]). intros Hpin.
  destruct (He Hpin) as (r & Hrp & Hru). exists r. split; [done|]. revert Hru. unfold usable; simpl.
  destruct (decide (i = r)) as [<-|Hne].
  - rewrite Hi, list_lookup_insert_eq by (by eapply lookup_lt_Some). done.
  - by rewrite list_lookup_insert_ne.
Qed.

Lemma start_check_usable b : status_usable (start_check b) = status_usable b.
Proof.
  unfold start_check. case_decide as Ht; [done|]. unfold status_usable; simpl.
  rewrite (bool_decide_eq_false_2 _ Ht). by rewrite !andb_false_r.
Qed.

Lemma start_check_inv h : health_inv h -> health_inv (set_buckets h (start_check <$> buckets h)).
Proof.
  intros (Hp & Hb & Hs & Hr & He). unfold health_inv; simpl. rewrite length_fmap.
  split; [done|]. split.
  { rewrite Forall_fmap. eapply Forall_impl; [exact Hb|]. intros b Hi. unfold start_check; simpl.
    by case_decide. }
  do 2 (split; [done|]). intros Hpin. destruct (He Hpin) as (r & Hrp & Hru). exists r. split; [done|].
  revert Hru. unfold usable; simpl. rewrite list_lookup_fmap.
  destruct (buckets h !! r); simpl; [|done]. by rewrite start_check_usable.
Qed.

Lemma health_new_inv n p h :
  0 <= leave_after_failures p <= u32_max -> health_new n p = Ok h ->
  health_inv h /\ length (buckets h) = n /\ selected h = 0%nat.
Proof.
  intros Hp. unfold health_new. destruct (Nat.eqb_spec n 0); [done|].
  destruct (Z.eqb_spec (leave_after_failures p) 0); [done|]. intros [= <-]. unfold health_inv; simpl.
  rewrite length_insert, length_replicate. split; [|done]. split; [lia|].
  assert (forall st, st ≠ Unhealthy -> status_inv p (status_new st)) as Hnew.
  { intros st Hst. split; [done|]. split; [simpl; split; [done|lia]|]. by intros []. }
  split; [|split; [lia|done]].
  apply Forall_insert; [by apply Forall_replicate, Hnew | by apply Hnew].
Qed.

Lemma apply_bound h i :
  usable h i = true -> (i < length (buckets h))%nat.
Proof. unfold usable. destruct (buckets h !! i) eqn:Hi; [|done]. intros _. by apply lookup_lt_Some in Hi. Qed.

Lemma observe_inv h i signal now h' :
  health_inv h -> observe h i signal now = Some h' ->
  health_inv h' /\ length (buckets h') = length (buckets h).
Proof.
  intros (Hp & Hb & Hs & Hr & He). unfold observe.
  destruct (buckets h !! i) as [b|] eqn:Hi; simpl; [|done]. intros [= <-]. simpl.
  rewrite length_insert. split; [|done]. apply evaluate_inv; simpl; rewrite ?length_insert; try done.
  - apply Forall_insert; [done|]. apply observe_status_inv; [done|]. by eapply Forall_lookup_1.
  - intros Hpin. destruct (He Hpin) as (r & ? & _). by exists r.
Qed.

Lemma handle_inv c e : controller_inv c -> controller_inv (handle c e).
Proof.
  intros (Hh & Ha & Har & Hal). pose proof Hh as (Hp & Hb & Hs & Hr & He).
  destruct e as [i sg now|now caught|i|i|p earned|i|i]; simpl.
  - unfold observe_at. destruct (observe (health c) i sg now) as [h|] eqn:Ho; simpl; [|done].
    apply observe_inv in Ho as [Hi Hlen]; [|done]. split; [done|]. simpl. rewrite Hlen.
    split; [done|]. split; [done|]. by case_decide; rewrite ?length_alter.
  - unfold worker_tick_at, tick.
    assert (health_inv (evaluate (health c) now caught true)) as Hev.
    { apply evaluate_inv; try done. intros Hpin. destruct (He Hpin) as (r & ? & _). by exists r. }
    destruct (match read_preference _ with Some _ => _ | None => _ end).
    split; [by apply (start_check_inv (evaluate (health c) now caught true))|]. simpl.
    by rewrite length_fmap, length_replicate.
  - unfold apply_selection. destruct (_ && _) eqn:Hc; [|done]. apply andb_true_iff in Hc as [_ Hu].
    split; [done|]. simpl. split; [by apply apply_bound|done].
  - unfold apply_read_selection. destruct (_ && _) eqn:Hc; [|done]. apply andb_true_iff in Hc as [_ Hu].
    split; [done|]. simpl. split; [done|]. split; [by apply apply_bound|done].
  - unfold configure_read_affinity. destruct (Nat.ltb_spec p (length (buckets (health c)))) as [Hlt|]; [|done].
    simpl. split; [|split; [done|split; [by case_match|done]]]. simpl.
    do 3 (split; [done|]). split; [by intros r [= <-]|]. intros Hpin. exists p. split; [done|].
    revert Hpin. change (usable _ p) with (usable (health c) p). simpl.
    destruct earned; by destruct (usable (health c) p).
  - unfold topology_revalidated, with_bucket. destruct (buckets (health c) !! i) as [b|] eqn:Hi; [|done].
    simpl. split; [|by simpl; rewrite length_insert].
    apply (with_status_inv _ _ b); [done|done|exact (Forall_lookup_1 _ _ _ _ Hb Hi)|].
    unfold status_usable; simpl. intros Hu. by apply andb_true_iff in Hu as [-> _].
  - unfold topology_check_passed, with_bucket. destruct (buckets (health c) !! i) as [b|] eqn:Hi; [|done].
    simpl. split; [|by simpl; rewrite length_insert].
    pose proof (Forall_lookup_1 _ _ _ _ Hb Hi) as Hbi.
    apply (with_status_inv _ _ b); [done|done|by case_decide|].
    case_decide; [|done]. unfold status_usable; simpl. intros Hu. by apply andb_true_iff in Hu as [-> _].
Qed.

Lemma reachable_controller n p c :
  0 <= leave_after_failures p <= u32_max -> reachable n p c -> controller_inv c.
Proof.
  intros Hp. induction 1 as [c Hc|c e _ IH]; [|by apply handle_inv].
  unfold controller_new in Hc. destruct (health_new n p) as [h|] eqn:Hh; [|done]. simpl in Hc.
  injection Hc as <-. apply health_new_inv in Hh as (Hi & Hlen & Hsel); [|done].
  assert (0 < length (buckets h))%nat by (destruct Hi as (_ & _ & Hlt & _); lia).
  split; [done|]. simpl. rewrite length_replicate. lia.
Qed.

(** ** How selections move *)

(** The selection half of a move: the target, what it needed, and why the
    current bucket was left. *)
Definition justified_move (before after : BucketHealth) (now : Z) (from_tick : bool) : Prop :=
  exists current target,
    buckets after !! selected before = Some current
    /\ buckets after !! selected after = Some target
    /\ status_usable target = true
    /\ (if bool_decide (bstate current = Unhealthy) || (from_tick && negb (status_usable current))
        then forall j b, buckets after !! j = Some b -> (j < selected after)%nat -> status_usable b = false
        else (selected after < selected before)%nat
             /\ served target (return_after_healthy (policy after)) now = true).

Lemma evaluate_moves h now caught t :
  selected (evaluate h now caught t) ≠ selected h -> justified_move h (evaluate h now caught t) now t.
Proof.
  unfold justified_move, evaluate, next_selected; simpl.
  destruct (buckets h !! selected h) as [current|] eqn:Hc; [|done]. case_match eqn:Hleave.
  - destruct (position status_usable (buckets h)) as [i|] eqn:Hp; simpl; [|done]. intros _.
    apply position_Some in Hp as (b & Hb & Hu & Hmin). exists current, b. rewrite Hleave. eauto.
  - destruct (position _ (take _ _)) as [i|] eqn:Hp; simpl; [|done]. intros _.
    apply position_Some in Hp as (b & Hb & Hserved & _).
    pose proof (lookup_lt_Some _ _ _ Hb) as Hlt. rewrite length_take in Hlt.
    rewrite lookup_take_lt in Hb by lia. exists current, b. rewrite Hleave.
    split; [done|]. split; [done|]. split; [|split; [lia|done]].
    unfold served in Hserved. by apply andb_true_iff in Hserved as [? _].
Qed.

(** A reference for the leave rule: the failures since the last success, the
    ignored signals not counting either way. *)
Definition streak (signals : list BucketSignal) : Z :=
  foldl (fun n s => match classify s with
                    | ClassHealthy => 0
                    | AvailabilityFailure => n + 1
                    | Ignored => n
                    end) 0 signals.

Definition observe_all (p : HealthPolicy) (b : BucketStatus) (history : list (BucketSignal * Z))
    : BucketStatus :=
  foldl (fun b x => observe_status p x.1 x.2 b) b history.

Lemma streak_nonneg signals : 0 <= streak signals.
Proof.
  induction signals as [|x l IH] using rev_ind; [done|]. unfold streak in *. rewrite foldl_app. simpl.
  destruct (classify x); lia.
Qed.

Lemma observe_all_failures p st history :
  0 < leave_after_failures p <= u32_max ->
  consecutive_failures (observe_all p (status_new st) history) = Z.min (streak history.*1) u32_max
  /\ (st ≠ Unhealthy -> status_inv p (observe_all p (status_new st) history)).
Proof.
  intros Hp. induction history as [|x l [IHf IHi]] using rev_ind.
  { split; [done|]. intros Hst. split; [done|]. split; [|by intros []].
    simpl. split; [done|]. unfold u32_max. lia. }
  pose proof (streak_nonneg l.*1) as Hn. unfold observe_all, streak in *.
  rewrite fmap_app, !foldl_app. cbn [foldl fmap list_fmap].
  set (b0 := foldl _ (status_new st) l) in *. set (n := foldl _ 0 l.*1) in *. split.
  - unfold observe_status. destruct (classify x.1); cbn [consecutive_failures]; [done| |done].
    rewrite IHf. unfold u32_saturating_add, u32_max. lia.
  - intros Hst. apply observe_status_inv; [done|]. by apply IHi.
Qed.

(** ** Properties *)

(** C23: in every reachable controller the selections name configured buckets, a
    bucket is unhealthy exactly when its failure streak has reached the
    threshold, its healthy clock runs only without failures, and the read pin is
    earned only on a region bucket that is usable right now. *)
Theorem reachable_inv n p c :
  0 <= leave_after_failures p <= u32_max -> reachable n p c -> controller_inv c.
Proof. apply reachable_controller. Qed.

(** The write selection moves only with cause and only onto a usable
    bucket. An observation or a tick that moves it leaves an unhealthy (or, at a
    tick, unusable) bucket for the most-preferred usable one, or returns from a
    working bucket to a more-preferred one that has been healthy for the whole
    return window; no other event moves it. *)
Theorem selection_moves_justified c e :
  match e with
  | Observe i signal now => forall h, observe (health c) i signal now = Some h ->
      selected h ≠ selected (health c) -> justified_move (health c) h now false
  | WorkerTick now caught_up =>
      selected (tick (health c) now caught_up) ≠ selected (health c) ->
      justified_move (health c) (tick (health c) now caught_up) now true
  | _ => selected (health (handle c e)) = selected (health c)
  end.
Proof.
  destruct e as [i sg now|now caught|i|i|p earned|i|i]; simpl.
  - intros h. unfold observe. destruct (buckets (health c) !! i) as [b|]; simpl; [|done].
    intros [= <-] Hne. by apply (evaluate_moves (set_buckets (health c) _)).
  - apply evaluate_moves.
  - unfold apply_selection. by case_match.
  - unfold apply_read_selection. by case_match.
  - unfold configure_read_affinity. by case_match.
  - unfold topology_revalidated, with_bucket. by destruct (buckets (health c) !! i).
  - unfold topology_check_passed, with_bucket. by destruct (buckets (health c) !! i).
Qed.

(** The read pin is earned only through its gate: by a worker tick whose
    caught-up check passed while the region bucket was usable and had served the
    whole return window, or by startup's verdict on a usable bucket. *)
Theorem read_pin_gate c e :
  read_pin (health c) = FollowWrite -> read_pin (health (handle c e)) = Earned ->
  (exists now r b, e = WorkerTick now true /\ read_preference (health c) = Some r
     /\ buckets (health c) !! r = Some b
     /\ served b (return_after_healthy (policy (health c))) now = true)
  \/ (exists r, e = ConfigureReadAffinity r true /\ usable (health c) r = true).
Proof.
  intros Hf. destruct e as [i sg now|now caught|i|i|p earned|i|i]; simpl.
  - unfold observe_at, observe. destruct (buckets (health c) !! i) as [b|]; simpl; [|congruence].
    unfold next_pin; simpl. rewrite Hf. intros Hpin.
    destruct (read_preference (health c)) as [r|]; simpl in Hpin; [|done].
    destruct (<[i:=_]> _ !! r); simpl in Hpin; [|done]. by rewrite andb_false_r in Hpin.
  - unfold worker_tick_at. destruct (match read_preference _ with Some _ => _ | None => _ end). simpl.
    unfold next_pin. rewrite Hf. destruct (read_preference (health c)) as [r|] eqn:Hr; simpl; [|done].
    destruct (buckets (health c) !! r) as [b|] eqn:Hb; [|done]. simpl.
    destruct (status_usable b && _ && caught) eqn:Hg; [|done]. intros _. left.
    apply andb_true_iff in Hg as [[_ Hs]%andb_true_iff ->]. by exists now, r, b.
  - unfold apply_selection. case_match; simpl; congruence.
  - unfold apply_read_selection. case_match; simpl; congruence.
  - unfold configure_read_affinity. case_match; simpl; [|congruence].
    unfold next_read_pin. destruct earned; [|by rewrite andb_false_r].
    destruct (usable (health c) p) eqn:Hu; simpl; [|done]. intros _. right. by exists p.
  - unfold topology_revalidated, with_bucket. destruct (buckets (health c) !! i); simpl; congruence.
  - unfold topology_check_passed, with_bucket. destruct (buckets (health c) !! i); simpl; congruence.
Qed.

(** The leave rule is exactly the failure streak. After any history of
    observations a bucket is unhealthy if and only if its failures since the last
    success, ignored signals aside, reach the threshold, at any length of
    history (the 32-bit counter saturates). *)
Theorem unhealthy_iff_streak p st history :
  0 < leave_after_failures p <= u32_max -> st ≠ Unhealthy ->
  bstate (observe_all p (status_new st) history) = Unhealthy
  <-> leave_after_failures p <= streak history.*1.
Proof.
  intros Hp Hst. destruct (observe_all_failures p st history Hp) as [Hf Hi].
  destruct (Hi Hst) as (_ & Hu & _). rewrite Hu, Hf. unfold u32_max in *. lia.
Qed.

(** *** Witnesses *)

Definition example_policy : HealthPolicy := MkPolicy 2 100.
Definition example_controller : ControllerState :=
  match controller_new 2 example_policy with Ok c => c | Err _ => MkController
    (MkHealth example_policy [] 0 None FollowWrite) 0 0 [] end.
(** Bucket 1 becomes reachable, is verified, and bucket 0 fails twice. *)
Definition failed_over : ControllerState :=
  foldl handle example_controller
    [Observe 1 Success 5; TopologyRevalidated 1; Observe 0 Timeout 10; Observe 0 (HttpStatus 503) 11].

Lemma reachable_inv_witness : controller_inv failed_over /\ selected (health failed_over) = 1%nat.
Proof.
  split; [|reflexivity]. apply (reachable_inv 2 example_policy).
  - unfold u32_max. simpl. lia.
  - unfold failed_over. cbn [foldl]. do 4 apply reach_step. apply reach_new. reflexivity.
Defined.

Lemma read_pin_gate_witness :
  let c := foldl handle example_controller
             [Observe 1 Success 5; TopologyRevalidated 1; ConfigureReadAffinity 1 false] in
  (exists now r b, WorkerTick 200 true = WorkerTick now true /\ read_preference (health c) = Some r
     /\ buckets (health c) !! r = Some b
     /\ served b (return_after_healthy (policy (health c))) now = true)
  \/ (exists r, WorkerTick 200 true = ConfigureReadAffinity r true /\ usable (health c) r = true).
Proof.
  intros c. apply (read_pin_gate c (WorkerTick 200 true)); vm_compute; reflexivity.
Defined.

Lemma unhealthy_iff_streak_witness :
  bstate (observe_all example_policy (status_new Healthy)
            [(Timeout, 1); (HttpStatus 403, 2); (HttpStatus 500, 3)]) = Unhealthy
  <-> leave_after_failures example_policy <= streak [Timeout; HttpStatus 403; HttpStatus 500].
Proof.
  apply (unhealthy_iff_streak example_policy Healthy
           [(Timeout, 1); (HttpStatus 403, 2); (HttpStatus 500, 3)]).
  - unfold u32_max. simpl. lia.
  - discriminate.
Defined.

End BucketHealth.
