(* ===== verification/Fanout.v ===== *)
(** * Fan-out, repair notes and the reconcile job (src/replicate.rs)

    The tiers above the merge of one record: the synchronous fan-out before a
    client is answered, the durable [_repl/] notes it leaves where it could not
    deliver, the sweep that drains them, the backfill sentinels of a new bucket,
    and the reconcile job that walks every pair.

    Buckets are named by their position in the configured list; [names] is the
    list of their configured names. What the node cannot decide is a parameter
    of each program: which buckets are eligible when asked, how long a merge is
    waited for ([tokio::select!] against a deadline or an eligibility watch), in
    which order concurrent jobs make progress, and the health signal the
    provider's error stands for. *)
From stdpp Require Import functions.
From S2P Require Import Prelude RustStr Documents Hash Decide Storage Origin Status Markers Replicate Artifact Execute Footprint Scan Converge Claims BucketHealth.
Import Storage.

Module Fanout.
Import Sidecar Decide Origin Hash Status Markers Replicate Artifact Execute Footprint Scan Converge Claims.

Definition REPL_PREFIX : str := &"_repl/".
Definition REPL_SWEEP_PAGE : nat := Z.to_nat 1000.
Definition BACKFILL_SENTINEL : str := &"_backfill!".

(** ** Waiting and interleaving *)

(** How a [select!] ends: the work, or the other branch after [n] operations,
    with the next operation in flight or not. *)
Inductive Patience := Waits | Leaves (n : nat) (in_flight : bool).

(** The work dropped when patience runs out: its remaining operations never
    happen, and the answer of one in flight is never seen. *)
Fixpoint select {A} (patience : Patience) (left : A) (p : prog A) : prog A :=
  match p with
  | Ret a => Ret a
  | Do b o k =>
    match patience with
    | Waits => Do b o (fun r => select Waits left (k r))
    | Leaves O false => Ret left
    | Leaves O true => Do b o (fun _ => Ret left)
    | Leaves (S n) f => Do b o (fun r => select (Leaves n f) left (k r))
    end
  end.

(** Two programs in the order a schedule gives, until both have answered. *)
Fixpoint both {A B} (p : prog A) : (nat -> bool) -> prog B -> prog (A * B) :=
  fix go (sched : nat -> bool) (q : prog B) : prog (A * B) :=
    match p with
    | Ret a => pbind q (fun y => Ret (a, y))
    | Do b o k =>
      match q with
      | Ret y => pbind p (fun a => Ret (a, y))
      | Do b' o' k' =>
        if sched O then Do b o (fun r => both (k r) (fun n => sched (S n)) q)
        else Do b' o' (fun r => go (fun n => sched (S n)) (k' r))
      end
    end.

(** [futures::future::join_all], and [buffer_unordered] with any width: every
    interleaving of the jobs is one of some schedule. *)
Fixpoint join_all {A} (sched : nat -> nat -> bool) (ps : list (prog A)) : prog (list A) :=
  match ps with
  | [] => Ret []
  | p :: ps =>
    let* r := both p (sched O) (join_all (fun i => sched (S i)) ps) in
    Ret (r.1 :: r.2)
  end.

(** [try_join]: the first failure, or both answers. *)
Definition try_join {A B} (sched : nat -> bool) (p : prog (res A)) (q : prog (res B)) : prog (res (A * B)) :=
  let* r := both p sched q in
  Ret (let? x := r.1 in let? y := r.2 in Ok (x, y)).

(** [try_join_all]: the first failure, or all answers. *)
Fixpoint all_ok {A} (rs : list (res A)) : res (list A) :=
  match rs with
  | [] => Ok []
  | r :: rs => let? x := r in let? xs := all_ok rs in Ok (x :: xs)
  end.

(** ** Notes *)

(** [counters::bucket_tag]: a char of several bytes folds to one dash. *)
Definition tag_char (c : ascii) : ascii :=
  if is_ascii_alphanumeric c || bool_decide (c ∈ ["."; "_"; "-"]%char) then c else "-"%char.
Definition bucket_tag (name : str) : str :=
  let tag := tag_char <$> List.filter (fun c => negb (continuation c)) name in
  if decide (tag = []) then &"local" else tag.

Definition repl_key (dest_tag pkg filename nonce : str) : str :=
  REPL_PREFIX ++ dest_tag ++ &"/" ++ pkg ++ &"/" ++ filename ++ &"!" ++ nonce.

Definition write_marker (b : nat) (dest_tag pkg filename : str) : prog (res str) :=
  let* nonce := call b MarkerNonce in
  let key := repl_key dest_tag pkg filename nonce in
  let*? _ := call b (PutBytes key []) in
  Ret (Ok key).

Record ReplMarker := MkRepl { dest_tag : str; repl_pkg : str; repl_filename : str; repl_note : str }.

(** [str::rsplit_once] *)
Definition rsplit_once (c : ascii) (s : str) : option (str * str) :=
  let! parts := split_once c (reverse s) in
  Some (reverse parts.2, reverse parts.1).

Definition parse_repl_marker (key : str) : option ReplMarker :=
  let! rest := strip_prefix REPL_PREFIX key in
  let! parts := split_once "/"%char rest in
  let! parts' := split_once "/"%char parts.2 in
  let! file := rsplit_once "!"%char parts'.2 in
  Some (MkRepl parts.1 parts'.1 file.1 key).

Fixpoint position {A} (f : A -> bool) (l : list A) : option nat :=
  match l with
  | [] => None
  | x :: l => if f x then Some O else S <$> position f l
  end.

Definition dest_index_for_tag (names : list str) (tag : str) : option nat :=
  position (fun name => bool_decide (bucket_tag name = tag)) names.

Fixpoint first_note_loop (pages : nat) (b : nat) (after : option str) : prog (res (option str)) :=
  match pages with
  | O => Ret (Err (Bail (&"scan bound reached")))
  | S pages =>
    let*? page := call b (ListPage REPL_PREFIX after REPL_SWEEP_PAGE) in
    match List.find (fun obj => bool_decide (is_Some (parse_repl_marker (meta_key obj)))) page with
    | Some note => Ret (Ok (Some (meta_key note)))
    | None =>
      if (length page <? REPL_SWEEP_PAGE)%nat then Ret (Ok None)
      else first_note_loop pages b (meta_key <$> last page)
    end
  end.
Definition first_undrained_repl_note (pages : nat) (b : nat) : prog (res (option str)) :=
  first_note_loop pages b None.

Definition bucket_is_corpus_empty (b : nat) : prog (res bool) :=
  let*? page := call b (ListPage PACKAGES_PREFIX None 1) in
  Ret (Ok (bool_decide (page = []))).

Definition has_undrained_repl_notes_for (b : nat) (tag : str) : prog (res bool) :=
  let*? page := call b (ListPage (REPL_PREFIX ++ tag ++ &"/") None 1) in
  Ret (Ok (negb (bool_decide (page = [])))).

Fixpoint owed_none (region_tag : str) (region : nat) (peers : list nat) : prog bool :=
  match peers with
  | [] => Ret true
  | index :: peers =>
    if decide (index = region) then owed_none region_tag region peers else
    let* r := has_undrained_repl_notes_for index region_tag in
    match r with
    | Ok false => owed_none region_tag region peers
    | Ok true | Err _ => Ret false
    end
  end.

Definition region_owed_no_notes (names : list str) (region : nat) : prog bool :=
  match names !! region with
  | None => Ret true
  | Some name => owed_none (bucket_tag name) region (seq 0 (length names))
  end.

(** ** Backfill sentinels *)

Definition backfill_sentinel_prefix (tag : str) : str := REPL_PREFIX ++ tag ++ &"/" ++ BACKFILL_SENTINEL.

Definition seed_backfill_sentinel (b : nat) (tag : str) : prog (res unit) :=
  let* nonce := call b MarkerNonce in
  call b (PutBytes (backfill_sentinel_prefix tag ++ nonce) []).

(** One (bucket, destination) pair; the state is the fenced names and the
    failures so far. *)
Definition drain_one (drain : bool) (b : nat) (dest : str) (st : list str * nat) : prog (list str * nat) :=
  let* page := call b (ListPage (backfill_sentinel_prefix (bucket_tag dest)) None REPL_SWEEP_PAGE) in
  match page with
  | Err _ => Ret (st.1, S st.2)
  | Ok [] => Ret st
  | Ok page =>
    let fenced := if bool_decide (dest ∈ st.1) then st.1 else st.1 ++ [dest] in
    if drain then
      let* r := call b (DeleteKeys (meta_key <$> page)) in
      match r with Ok _ => Ret (fenced, st.2) | Err _ => Ret (fenced, S st.2) end
    else Ret (fenced, st.2)
  end.

Fixpoint drain_all (drain : bool) (pairs : list (nat * str)) (st : list str * nat) : prog (list str * nat) :=
  match pairs with
  | [] => Ret st
  | (b, dest) :: pairs => let* st := drain_one drain b dest st in drain_all drain pairs st
  end.

Definition drain_backfill_sentinels (names : list str) (drain : bool) : prog (res (list str)) :=
  let pairs := b ← seq 0 (length names); (fun dest => (b, dest)) <$> names in
  let* st := drain_all drain pairs ([], O) in
  Ret (if (st.2 =? 0)%nat then Ok st.1 else Err (Bail (&"backfill sentinel drain failed"))).

Section programs.
Context {D : Digest} {T : Chunking} `{ClaimCodec} {JS : Codec Sidecar} {JF : Codec FilenameBody}
  {JP : Codec StatusDoc.StoredProjectStatus} {V : CopyVerb}.
Variable names : list str.

Definition tag_of (index : nat) : str := bucket_tag (default [] (names !! index)).
Definition peers_of (src : nat) : list nat := List.filter (fun idx => negb (idx =? src)%nat) (seq 0 (length names)).

(** ** The synchronous fan-out *)

Section fanout.
Variables (src : nat) (pkg filename : str) (source : ArtifactSource).

Definition fanout_job (attempt : bool) (patience : Patience) (idx : nat) : prog (nat * bool) :=
  if attempt then
    let* result := select patience (Err (Bail (&"fan-out was abandoned")))
                     (replicate_record src idx pkg filename source) in
    Ret (idx, match result with Ok Converged => true | _ => false end)
  else Ret (idx, false).

(** One retry of a note that would not land. *)
Definition note_peer (tag : str) : prog (res str) :=
  let* wrote := write_marker src tag pkg filename in
  match wrote with
  | Ok key => Ret (Ok key)
  | Err _ => write_marker src tag pkg filename
  end.

(** A note per bucket that did not converge; the gaps that could not be noted
    are counted. *)
Fixpoint fanout_notes (results : list (nat * bool)) (unrecorded : nat) : prog nat :=
  match results with
  | [] => Ret unrecorded
  | (idx, converged) :: results =>
    if converged : bool then fanout_notes results unrecorded else
    let* wrote := note_peer (tag_of idx) in
    match wrote with
    | Ok _ => fanout_notes results unrecorded
    | Err _ => fanout_notes results (S unrecorded)
    end
  end.

Definition fanout_sync (eligible : nat -> bool) (patience : nat -> Patience) (sched : nat -> nat -> bool)
    : prog (res unit) :=
  if (length names <=? 1)%nat then Ret (Ok tt) else
  let* unfenced := require_replication_unfenced src in
  let can_copy := is_ok unfenced && eligible src in
  let* results := join_all sched
    ((fun idx => fanout_job (can_copy && eligible idx) (patience idx) idx) <$> peers_of src) in
  let* unrecorded := fanout_notes results 0 in
  Ret (if (0 <? unrecorded)%nat then Err (Bail (&"replication gap could not be recorded")) else Ok tt).

(** The notes of a proxy fill, written after the response. *)
Fixpoint proxy_notes (peers : list nat) (failures : nat) : prog nat :=
  match peers with
  | [] => Ret failures
  | idx :: peers =>
    let* wrote := write_marker src (tag_of idx) pkg filename in
    match wrote with
    | Ok _ => proxy_notes peers failures
    | Err _ => proxy_notes peers (S failures)
    end
  end.

Definition note_proxy_fill (eligible : nat -> bool) : prog (res unit) :=
  let* unfenced := require_replication_unfenced src in
  if negb (is_ok unfenced) || negb (eligible src) then Ret (Ok tt) else
  match names !! src with
  | None => Ret (Ok tt)
  | Some _ =>
    let* failures := proxy_notes (peers_of src) 0 in
    Ret (if (failures =? 0)%nat then Ok tt else Err (Bail (&"proxy-fill notes failed")))
  end.

End fanout.

(** ** The sweep *)

Inductive NoteOutcome := Consumed | Pending | Failing.

#[global] Instance NoteOutcome_eq_dec : EqDecision NoteOutcome.
Proof. solve_decision. Defined.

Record Backlog := MkBacklog { pending : Z; failing : Z }.

(** The health signal of a storage error ([observed_storage::signal_for_error],
    which reads the provider's error chain). *)
Variable signal_for_error : error -> BucketHealth.BucketSignal.

Definition classify_note_failure (e : error) : NoteOutcome :=
  match e with
  | Contended _ => Pending
  | _ =>
    match signal_for_error e with
    | BucketHealth.Timeout | BucketHealth.ConnectionFailure | BucketHealth.QuotaError | BucketHealth.Success => Pending
    | BucketHealth.HttpStatus status =>
      if (status =? 408) || (status =? 429) || (500 <=? status) then Pending else Failing
    | _ => Failing
    end
  end.

(** One note: merge the record, signal the destination, and only then consume. *)
Definition deliver (src dst : nat) (patience : Patience) (marker : ReplMarker) : prog NoteOutcome :=
  let* result := select patience None
    (let* r := replicate_record src dst (repl_pkg marker) (repl_filename marker) FromBucket in Ret (Some r)) in
  match result with
  | None => Ret Pending
  | Some (Err e) => Ret (classify_note_failure e)
  | Some (Ok outcome) =>
    let* signalled := mark_dirty dst (repl_pkg marker) in
    match signalled with
    | Err e => Ret (classify_note_failure e)
    | Ok _ =>
      match outcome with
      | Deferred => Ret Pending
      | Converged =>
        let* consumed := call src (DeleteKeys [repl_note marker]) in
        Ret (match consumed with Ok _ => Consumed | Err e => classify_note_failure e end)
      end
    end
  end.

Definition backlog_of (outcomes : list NoteOutcome) : Backlog :=
  MkBacklog (Z.of_nat (length (List.filter (fun o => negb (bool_decide (o = Consumed))) outcomes)))
            (Z.of_nat (length (List.filter (fun o => bool_decide (o = Failing)) outcomes))).

(** The notes of a page by destination; one whose destination is gone is
    dropped. *)
Fixpoint route_notes (src : nat) (page : list ObjectMeta) (routed : list (nat * ReplMarker))
    : prog (list (nat * ReplMarker)) :=
  match page with
  | [] => Ret routed
  | meta :: page =>
    match parse_repl_marker (meta_key meta) with
    | None => route_notes src page routed
    | Some marker =>
      match dest_index_for_tag names (dest_tag marker) with
      | None =>
        let* _ := call src (DeleteKeys [repl_note marker]) in
        route_notes src page routed
      | Some dest => route_notes src page (routed ++ [(dest, marker)])
      end
    end
  end.

Definition notes_to (dest : nat) (routed : list (nat * ReplMarker)) : list ReplMarker :=
  snd <$> List.filter (fun p => (p.1 =? dest)%nat) routed.

Definition lane (src : nat) (eligible : nat -> bool) (patience : str -> Patience) (sched : nat -> nat -> bool)
    (routed : list (nat * ReplMarker)) (dest : nat) : prog (nat * Backlog) :=
  let markers := notes_to dest routed in
  if eligible dest then
    let* outcomes := join_all sched ((fun m => deliver src dest (patience (repl_note m)) m) <$> markers) in
    Ret (dest, backlog_of outcomes)
  else Ret (dest, MkBacklog (Z.of_nat (length markers)) 0).

Definition add_backlog (remaining : gmap nat Backlog) (r : nat * Backlog) : gmap nat Backlog :=
  let old := default (MkBacklog 0 0) (remaining !! r.1) in
  <[r.1 := MkBacklog (pending old + pending r.2) (failing old + failing r.2)]> remaining.

(** The page loop; every question to the environment is indexed by the page. *)
Fixpoint sweep_loop (pages : nat) (src : nat) (listing : nat -> Patience) (eligible : nat -> nat -> bool)
    (patience : nat -> str -> Patience) (sched : nat -> nat -> nat -> nat -> bool)
    (after : option str) (remaining : gmap nat Backlog) : prog (res (gmap nat Backlog)) :=
  match pages with
  | O => Ret (Err (Bail (&"scan bound reached")))
  | S pages =>
    let*? page := select (listing O) (Err (Bail (&"source bucket became ineligible during marker listing")))
                    (call src (ListPage REPL_PREFIX after REPL_SWEEP_PAGE)) in
    if decide (page = []) then Ret (Ok remaining) else
    let* routed := route_notes src page [] in
    let dests := List.filter (fun d => negb (bool_decide (notes_to d routed = []))) (seq 0 (length names)) in
    let* outcomes := join_all (sched O O)
      ((fun d => lane src (eligible O) (patience O) (sched O (S d)) routed d) <$> dests) in
    let remaining := foldl add_backlog remaining outcomes in
    if (length page <? REPL_SWEEP_PAGE)%nat then Ret (Ok remaining)
    else sweep_loop pages src (fun n => listing (S n)) (fun n => eligible (S n)) (fun n => patience (S n))
           (fun n => sched (S n)) (meta_key <$> last page) remaining
  end.

Definition sweep_bucket_markers (pages : nat) (src : nat) (listing : nat -> Patience)
    (eligible : nat -> nat -> bool) (patience : nat -> str -> Patience)
    (sched : nat -> nat -> nat -> nat -> bool) : prog (res (gmap nat Backlog)) :=
  sweep_loop pages src listing eligible patience sched None ∅.

(** Every eligible source, concurrently; the backlogs are published as metrics,
    and the failures are reported together. *)
Definition sweep_all_markers (pages : nat) (here : nat) (sources : nat -> bool) (listing : nat -> nat -> Patience)
    (eligible : nat -> nat -> nat -> bool) (patience : nat -> nat -> str -> Patience)
    (sched : nat -> nat -> nat -> nat -> nat -> bool) (order : nat -> nat -> bool) : prog (res unit) :=
  if (length names <=? 1)%nat then Ret (Ok tt) else
  let*? _ := require_replication_unfenced here in
  let* results := join_all order
    ((fun idx => sweep_bucket_markers pages idx (listing idx) (eligible idx) (patience idx) (sched idx))
       <$> List.filter sources (seq 0 (length names))) in
  Ret (if forallb is_ok results then Ok tt else Err (Bail (&"marker sweeps failed"))).

(** ** The reconcile job *)

(** One pass over the peers of the selected bucket: how many of them it leaves
    unproven. *)
Fixpoint reconcile_pass (fuel : nat) (hub : nat) (eligible : nat -> bool) (patience : nat -> Patience)
    (peers : list nat) (unproven : nat) : prog nat :=
  match peers with
  | [] => Ret unproven
  | index :: peers =>
    if eligible index then
      let* result := select (patience index) (Err (Bail (&"reconcile pair became topology-ineligible")))
                       (diff_pair fuel hub index) in
      match result with
      | Ok [] => reconcile_pass fuel hub eligible patience peers unproven
      | Ok _ | Err _ => reconcile_pass fuel hub eligible patience peers (S unproven)
      end
    else reconcile_pass fuel hub eligible patience peers (S unproven)
  end.

Definition reconcile (fuel : nat) (hub : nat) (hub_eligible : bool) (eligible : bool -> nat -> bool)
    (patience : bool -> nat -> Patience) : prog (res unit) :=
  if (length names <=? 1)%nat then Ret (Ok tt) else
  let*? _ := require_replication_unfenced hub in
  if negb hub_eligible then Ret (Err (Bail (&"selected bucket is not eligible for reconciliation"))) else
  let* unproven := reconcile_pass fuel hub (eligible false) (patience false) (peers_of hub) 0 in
  let* unproven := reconcile_pass fuel hub (eligible true) (patience true) (peers_of hub) unproven in
  let* _ := drain_backfill_sentinels names (unproven =? 0)%nat in
  Ret (Ok tt).

End programs.

(** ** Notes read back *)

Lemma tag_no_slash name : "/"%char ∉ bucket_tag name.
Proof.
  unfold bucket_tag. case_decide; [by apply (bool_decide_unpack _)|].
  intros (c & Hc & _)%list_elem_of_fmap. unfold tag_char in Hc.
  destruct (is_ascii_alphanumeric c || bool_decide (c ∈ ["."; "_"; "-"]%char)) eqn:Ha; [|done].
  by subst c.
Qed.

Lemma rsplit_once_app c l r : c ∉ r -> rsplit_once c (l ++ c :: r) = Some (l, r).
Proof.
  intros Hc. unfold rsplit_once. rewrite reverse_app, reverse_cons, <- app_assoc. cbn [app].
  rewrite split_once_app by (by rewrite elem_of_reverse). cbn [mbind option_bind fst snd].
  by rewrite !reverse_involutive.
Qed.

Lemma parse_repl_key tag pkg f nonce :
  ("/"%char ∉ tag) -> ("/"%char ∉ pkg) -> is_marker_nonce nonce ->
  parse_repl_marker (repl_key tag pkg f nonce) = Some (MkRepl tag pkg f (repl_key tag pkg f nonce)).
Proof.
  intros Ht Hp Hn. unfold parse_repl_marker, repl_key. rewrite strip_prefix_app. cbn [mbind option_bind].
  change (&"/") with ["/"%char]. change (&"!") with ["!"%char]. cbn [app].
  rewrite split_once_app by done. cbn [mbind option_bind fst snd]. rewrite split_once_app by done.
  cbn [mbind option_bind fst snd]. rewrite rsplit_once_app; [done|].
  intros Hin. unfold is_marker_nonce in Hn. rewrite Forall_forall in Hn. by apply Hn in Hin.
Qed.

Lemma position_lookup names i name :
  NoDup (bucket_tag <$> names) -> names !! i = Some name -> dest_index_for_tag names (bucket_tag name) = Some i.
Proof.
  unfold dest_index_for_tag. revert i. induction names as [|x names IH]; intros i Hnd Hi; [done|].
  cbn [fmap list_fmap] in Hnd. apply NoDup_cons in Hnd as [Hx Hnd]. cbn [position]. destruct i as [|i]; simpl in Hi.
  - injection Hi as ->. by rewrite bool_decide_eq_true_2.
  - rewrite bool_decide_eq_false_2; [by rewrite (IH i)|].
    intros Heq. apply Hx. rewrite Heq. by apply list_elem_of_fmap_2, list_elem_of_lookup_2 with i.
Qed.

(** ** Jobs among others *)

Section jobs.
Context {E : Etags}.

(** Two reads side by side answer for the buckets as they are. *)
Lemma exec_try_join_reads A B (o : op (res A)) (o' : op (res B)) b c sched w x w' :
  is_read o = true -> is_read o' = true -> exec (try_join sched (call b o) (call c o')) w (Ok x) w' ->
  w' = w /\ op_step o (w b) (Ok x.1) (w b) /\ op_step o' (w c) (Ok x.2) (w c).
Proof.
  intros Ho Ho' ([r1 r2] & w1 & He & [Heq ->])%exec_bind. cbn [fst snd] in Heq.
  assert (op_step o (w b) r1 (w b) /\ op_step o' (w c) r2 (w c) /\ w1 = w) as (H1 & H2 & ->).
  { unfold call in He. cbn [both] in He. destruct (sched O); cbn [pbind] in He;
      destruct He as (a & s & Hs & a' & s' & Hs' & [[= -> ->] ->]);
      (pose proof (op_step_read _ _ _ _ _ Ho Hs) as -> || pose proof (op_step_read _ _ _ _ _ Ho' Hs) as ->);
      rewrite fn_insert_id in Hs' |- *;
      (pose proof (op_step_read _ _ _ _ _ Ho Hs') as -> || pose proof (op_step_read _ _ _ _ _ Ho' Hs') as ->);
      by rewrite fn_insert_id. }
  destruct r1 as [y|e]; [|done]. destruct r2 as [z|e]; [|done]. injection Heq as ->. by split.
Qed.

Lemma rely_bind (Rel : relation world) `{!Reflexive Rel} A B (p : prog A) (f : A -> prog B) w a w' :
  exec_rely Rel (pbind p f) w a w' -> exists x w1, exec_rely Rel p w x w1 /\ exec_rely Rel (f x) w1 a w'.
Proof.
  revert w. induction p as [x|R b o k IH]; intros w He.
  - rewrite pbind_ret in He.
    assert (exists w0, Rel w w0 /\ wf_world w0 /\ exec_rely Rel (f x) w0 a w') as (w0 & HR & Hw0 & Hf).
    { destruct (f x); destruct He as (w0 & Hr & Hw0 & He); exists w0; do 2 (split; [done|]); by exists w0. }
    exists x, w0. split; [by exists w0|done].
  - destruct He as (w0 & Hr & Hw0 & r & s & Hs & He). apply IH in He as (x & w1 & Hp & Hf).
    exists x, w1. split; [|done]. exists w0. split; [done|]. split; [done|]. by exists r, s.
Qed.

Lemma rely_later (Rel : relation world) `{!Transitive Rel} A (p : prog A) w w1 a w' :
  Rel w w1 -> exec_rely Rel p w1 a w' -> exec_rely Rel p w a w'.
Proof. intros HR. destruct p; intros (w0 & HR0 & Hw0 & He); exists w0; (split; [by etransitivity|]); by split. Qed.

(** A [select!] that did not leave ran the work to its end. *)
Lemma select_rely (Rel : relation world) A (p : prog A) patience left w a w' :
  exec_rely Rel (select patience left p) w a w' -> a = left \/ exec_rely Rel p w a w'.
Proof.
  revert patience w. induction p as [x|R b o k IH]; intros patience w He; [by right|].
  assert (forall w0 r s patience, Rel w w0 -> wf_world w0 -> op_step o (w0 b) r s ->
    exec_rely Rel (select patience left (k r)) (<[b := s]> w0) a w' -> a = left \/ exec_rely Rel (Do b o k) w a w') as Hgo.
  { intros w0 r s pt HR Hw0 Hs Hk. apply IH in Hk as [->|Hk]; [by left|right].
    exists w0. split; [done|]. split; [done|]. by exists r, s. }
  destruct patience as [|[|n] []]; cbn [select] in He.
  - destruct He as (w0 & HR & Hw0 & r & s & Hs & He). by eapply Hgo.
  - destruct He as (w0 & _ & Hw0 & r & s & Hs & (w1 & _ & _ & -> & _)). by left.
  - destruct He as (w0 & _ & _ & -> & _). by left.
  - destruct He as (w0 & HR & Hw0 & r & s & Hs & He). by eapply Hgo.
  - destruct He as (w0 & HR & Hw0 & r & s & Hs & He). by eapply Hgo.
Qed.

(** Abandoned work issues no operation of its own. *)
Lemma select_guar G A (Q : A -> Prop) patience left (p : prog A) :
  Q left -> guar G Q p -> guar G Q (select patience left p).
Proof.
  intros Hl. revert patience. induction p as [x|R b o k IH]; intros patience; [done|]. intros [Ho Hk].
  destruct patience as [|[|n] []]; cbn [select]; try done; (split; [done|]); intros r Hr; try done; by apply IH, Hk.
Qed.

End jobs.

(** *** Jobs and what they issued *)

(** Each of two interleaved jobs issued its own operations among them. *)
Lemma both_replays A B (p : prog A) (q : prog B) sched log x y : replays (both p sched q) log (x, y) ->
  (exists l, l `sublist_of` log /\ replays p l x) /\ (exists l, l `sublist_of` log /\ replays q l y).
Proof.
  revert sched q log. induction p as [a|R b o k IH]; intros sched q log He.
  - assert (replays (pbind q (fun y => Ret (a, y))) log (x, y)) as He' by (by destruct q).
    apply replays_bind in He' as (y' & l1 & l2 & -> & Hq & -> & [= -> ->]). rewrite app_nil_r.
    split; [exists []; split; [apply sublist_nil_l|done]|by exists l1].
  - revert sched log He. induction q as [y'|R' b' o' k' IH']; intros sched log He.
    + change (replays (pbind (Do b o k) (fun a => Ret (a, y'))) log (x, y)) in He.
      apply replays_bind in He as (x' & l1 & l2 & -> & Hp & -> & [= -> ->]). rewrite app_nil_r.
      split; [by exists l1|exists []; split; [apply sublist_nil_l|done]].
    + cbn [both] in He. destruct (sched O); destruct He as (r & l & -> & He).
      * apply IH in He as [(lp & Hp & Hrp) (lq & Hq & Hrq)]. split.
        -- exists (MkEvent R b o r :: lp). split; [by apply sublist_skip|]. by exists r, lp.
        -- exists lq. split; [by apply sublist_cons|done].
      * apply IH' in He as [(lp & Hp & Hrp) (lq & Hq & Hrq)]. split.
        -- exists lp. split; [by apply sublist_cons|done].
        -- exists (MkEvent R' b' o' r :: lq). split; [by apply sublist_skip|]. by exists r, lq.
Qed.

Lemma join_all_replays A (ps : list (prog A)) sched log rs : replays (join_all sched ps) log rs ->
  Forall2 (fun p r => exists l, l `sublist_of` log /\ replays p l r) ps rs.
Proof.
  revert sched rs log. induction ps as [|p ps IH]; intros sched rs log He; cbn [join_all] in He.
  - by destruct He as [_ ->].
  - apply replays_bind in He as ([x xs] & l1 & l2 & -> & He & -> & ->). rewrite app_nil_r.
    apply both_replays in He as [Hp (l & Hl & Hps)]. constructor; [done|].
    eapply Forall2_impl; [by eapply IH|]. intros q r (l' & Hl' & Hq). exists l'. split; [by etrans|done].
Qed.

Lemma select_replays A (p : prog A) patience left log a : replays (select patience left p) log a -> a = left \/ replays p log a.
Proof.
  revert patience log. induction p as [x|R b o k IH]; intros patience log He; [by right|].
  destruct patience as [|[|n] []]; cbn [select] in He.
  - destruct He as (r & l & -> & He). apply IH in He as [->|He]; [by left|right]. by exists r, l.
  - destruct He as (r & l & -> & _ & ->). by left.
  - destruct He as [_ ->]. by left.
  - destruct He as (r & l & -> & He). apply IH in He as [->|He]; [by left|right]. by exists r, l.
  - destruct He as (r & l & -> & He). apply IH in He as [->|He]; [by left|right]. by exists r, l.
Qed.

(** ** Nothing is acknowledged and forgotten *)

Section totality.
Context {D : Digest} {T : Chunking} `{ClaimCodec} {JS : Codec Sidecar} {JF : Codec FilenameBody}
  {JP : Codec StatusDoc.StoredProjectStatus} {V : CopyVerb} {E : Etags}.
Variables (names : list str) (src : nat) (pkg f : str).

(** What other nodes may do meanwhile: anything but drop a note of the source. *)
Definition notes_kept (w w' : world) : Prop :=
  forall k, starts_with REPL_PREFIX k = true -> present (w src) k -> present (w' src) k.

#[local] Instance notes_kept_preorder : PreOrder notes_kept.
Proof. split; [by intros w k|]. intros w1 w2 w3 H12 H23 k Hk Hp. by apply H23, H12. Qed.

(** A note the sweep will read back as this record's, for this destination. *)
Definition noted (i : nat) (w : world) : Prop :=
  exists k, starts_with REPL_PREFIX k = true /\ present (w src) k /\
    exists m, parse_repl_marker k = Some m /\ repl_pkg m = pkg /\ repl_filename m = f
              /\ dest_index_for_tag names (dest_tag m) = Some i.

Hypothesis tags_distinct : NoDup (bucket_tag <$> names).
Hypothesis pkg_name : "/"%char ∉ pkg.

Abbreviation stable K := (Storage.stable notes_kept K).
Abbreviation kept K Q p := (keeps notes_kept K Q p).

Lemma noted_stable i : stable (noted i).
Proof. intros w w' (k & Hk & Hp & Hm) HR. exists k. split; [done|]. split; [by apply HR|done]. Qed.

Lemma put_keeps_notes (w : world) k bytes r s :
  wf_world w -> op_step (PutBytes k bytes) (w src) r s -> notes_kept w (<[src := s]> w).
Proof. intros Hw Hs k' _ Hp. rewrite fn_lookup_insert. eapply op_step_present; [apply Hw|done|done|]. by intros []. Qed.

(** Writing a note: success is known until it is consumed. *)
Lemma kept_write_marker K i name :
  stable K -> names !! i = Some name ->
  kept K (fun r K' => forall w, K' w -> K w /\ (is_ok r = true -> noted i w))
    (write_marker src (bucket_tag name) pkg f).
Proof.
  intros HK Hi. unfold write_marker. intros w nonce s Hw HKw Hstep.
  pose proof (op_step_sound _ _ _ _ _ (Hw src) Hstep) as Hn.
  pose proof (op_step_read _ _ _ _ _ (eq_refl : is_read MarkerNonce = true) Hstep) as ->.
  rewrite fn_insert_id. split; [reflexivity|]. exists K. split; [done|]. split; [done|].
  intros w1 r s Hw1 HKw1 Hs. pose proof (put_keeps_notes _ _ _ _ _ Hw1 Hs) as HR. split; [done|].
  destruct r as [[]|e].
  - exists (fun w => K w /\ noted i w). split; [|split].
    + intros w2 w3 [H1 H2] H23. split; [by eapply HK|by eapply noted_stable].
    + split; [by eapply HK|]. exists (repl_key (bucket_tag name) pkg f nonce). split; [apply starts_with_true; by eexists|].
      rewrite fn_lookup_insert. split; [eexists; by apply (put_bytes_answer _ _ _ _ _ Hs)|].
      eexists. split; [by apply parse_repl_key; [apply tag_no_slash|done|]|]. cbn. do 2 (split; [done|]).
      by apply position_lookup.
    + intros w2 [H1 H2]. by split.
  - exists K. split; [done|]. split; [by eapply HK|]. by intros w2; split.
Qed.

Lemma kept_note_peer K i name :
  stable K -> names !! i = Some name ->
  kept K (fun r K' => forall w, K' w -> K w /\ (is_ok r = true -> noted i w)) (note_peer src pkg f (bucket_tag name)).
Proof.
  intros HK Hi. unfold note_peer. apply keeps_bind; [|done].
  eapply keeps_mono; [|done|by apply kept_write_marker]. intros [k|e] K1 HK1 HL _; [done|].
  eapply keeps_mono; [|done|by apply kept_write_marker]. intros r K2 _ HL2 w Hw.
  destruct (HL2 w Hw) as [Hw1 Hn]. split; [by apply HL|done].
Qed.

(** The notes of a fan-out: when none is unrecorded, every gap is noted. *)
Lemma kept_fanout_notes K results n0 :
  stable K -> Forall (fun r => is_Some (names !! r.1)) results ->
  kept K (fun n K' => (n0 <= n)%nat /\ forall w, K' w -> K w /\
            (n = n0 -> forall i, (i, false) ∈ results -> noted i w)) (fanout_notes names src pkg f results n0).
Proof.
  intros HK Hr. revert K n0 HK. induction Hr as [|[i c] results [name Hname] _ IH]; intros K n0 HK; cbn [fanout_notes].
  { split; [done|]. intros w Hw. split; [done|]. intros _ i Hi. by apply elem_of_nil in Hi. }
  destruct c.
  { eapply keeps_mono; [|done|by apply IH]. intros n K' _ [Hn HL]. split; [done|]. intros w Hw.
    destruct (HL w Hw) as [Hw1 Hall]. split; [done|]. intros Heq j [?|Hj]%elem_of_cons; [done|]. by apply Hall. }
  cbn [fst] in Hname. unfold tag_of. rewrite Hname. cbn [default].
  apply keeps_bind; [|done]. eapply keeps_mono; [|done|by apply kept_note_peer].
  intros [key|e] K1 HK1 HL1 _.
  - eapply keeps_mono; [|done|by apply IH]. intros n K' _ [Hn HL]. split; [done|]. intros w Hw.
    destruct (HL w Hw) as [Hw1 Hall]. destruct (HL1 w Hw1) as [Hw0 Hnoted]. split; [done|].
    intros Heq j [[= ->]|Hj]%elem_of_cons; [by apply Hnoted|by apply Hall].
  - eapply keeps_mono; [|done|by apply IH]. intros n K' _ [Hn HL]. split; [lia|]. intros w Hw.
    destruct (HL w Hw) as [Hw1 _]. destruct (HL1 w Hw1) as [Hw0 _]. split; [done|]. lia.
Qed.

Lemma fanout_job_replays source attempt patience idx log i c :
  replays (fanout_job src pkg f source attempt patience idx) log (i, c) ->
  i = idx /\ (c = true -> attempt = true /\ replays (replicate_record src idx pkg f source) log (Ok Converged)).
Proof.
  unfold fanout_job. destruct attempt; intros He; [|by destruct He as [_ [= -> ->]]].
  apply replays_bind in He as (r & l1 & l2 & -> & He & -> & [= -> ->]). rewrite app_nil_r. split; [done|]. intros Hc. split; [done|].
  apply select_replays in He as [->|He]; [done|]. by destruct r as [[]|].
Qed.

(** C5: nothing is acknowledged and forgotten. When the fan-out in front of a
    client's answer returns, every other bucket is owed the record by a durable
    note in the source bucket that the sweep reads back as this package, this
    filename and this destination; or that bucket was eligible and, among the
    operations this very fan-out issued, with the answers they got, are those of
    one whole merge of the record with it, which answered that it has converged.
    This holds whichever copies failed, were abandoned at the deadline or never
    started, however the jobs interleaved, whatever the storage answered, and
    whatever other nodes did short of consuming the notes. *)
Theorem ack_totality source eligible patience sched w log w' i :
  (1 < length names)%nat -> (i < length names)%nat -> i ≠ src ->
  exec_log notes_kept (fanout_sync names src pkg f source eligible patience sched) w log (Ok tt) w' ->
  noted i w'
  \/ eligible i = true /\ exists l, l `sublist_of` log /\ replays (replicate_record src i pkg f source) l (Ok Converged).
Proof.
  intros Hmulti Hi Hne He. unfold fanout_sync in He. rewrite (proj2 (Nat.leb_gt _ _) Hmulti) in He.
  apply log_bind in He as (unfenced & w1 & l1 & l' & -> & _ & He); [|apply _]. cbv zeta in He.
  apply log_bind in He as (results & w2 & l2 & l3 & -> & Hjobs & He); [|apply _].
  apply log_bind in He as (n & w3 & l4 & l5 & -> & Hnotes%log_rely & He%log_rely); [|apply _].
  set (can_copy := is_ok unfenced && eligible src) in *.
  apply log_replays, join_all_replays in Hjobs. rewrite Forall2_fmap_l in Hjobs.
  assert (i ∈ peers_of names src) as Hpeer.
  { unfold peers_of. apply list_elem_of_In, filter_In. split; [apply list_elem_of_In, elem_of_seq; lia|].
    apply negb_true_iff. by apply Nat.eqb_neq. }
  apply list_elem_of_lookup in Hpeer as [j Hj].
  destruct (Forall2_lookup_l _ _ _ _ _ Hjobs Hj) as ([i' c] & Hr & l & Hl & Hjob).
  apply fanout_job_replays in Hjob as [-> Hjob]. destruct c.
  { right. destruct (Hjob eq_refl) as [Hel Hrep]. apply andb_prop in Hel as [_ Hel].
    split; [done|]. exists l. split; [|done]. etrans; [exact Hl|]. by apply sublist_inserts_l, sublist_inserts_r. }
  left. assert (n = 0%nat) as ->.
  { destruct He as (w4 & _ & _ & Heq & _). destruct n; [done|]. discriminate Heq. }
  assert (Forall (fun r => is_Some (names !! r.1)) results) as Hall.
  { apply Forall_lookup. intros k [x y] Hk. destruct (Forall2_lookup_r _ _ _ _ _ Hjobs Hk) as (x' & Hx & lx & _ & Hjob').
    apply fanout_job_replays in Hjob' as [-> _]. apply list_elem_of_lookup_2, list_elem_of_In, filter_In in Hx as [Hx _].
    apply lookup_lt_is_Some. apply list_elem_of_In, elem_of_seq in Hx. simpl. lia. }
  destruct (keeps_exec notes_kept _ _ _ _ _ _ _ (fun w w' _ _ => I : True) I (kept_fanout_notes (fun _ => True) results 0 (fun w w' _ _ => I) Hall) Hnotes)
    as (K' & HK' & _ & HQ).
  destruct (HQ w3 HK') as [_ HQ']. specialize (HQ' eq_refl i (list_elem_of_lookup_2 _ _ _ Hr)).
  destruct He as (w4 & HR & _ & _ & ->). by eapply noted_stable.
Qed.

End totality.

(** ** A debt is dropped only once it is paid *)

Section debts.
Context {D : Digest} {T : Chunking} `{ClaimCodec} {JS : Codec Sidecar} {JF : Codec FilenameBody}
  {JP : Codec StatusDoc.StoredProjectStatus} {V : CopyVerb} {E : Etags}.
Variables (signal_for_error : error -> BucketHealth.BucketSignal) (src dst : nat) (marker : ReplMarker).
Abbreviation note := (repl_note marker).
Hypothesis note_key : starts_with REPL_PREFIX note = true.

(** What other nodes may do meanwhile: anything but drop this note. *)
Definition note_kept (w w' : world) : Prop := present (w src) note -> present (w' src) note.

#[local] Instance note_kept_preorder : PreOrder note_kept.
Proof. split; [by intros w Hp|]. intros w1 w2 w3 H12 H23 Hp. by apply H23, H12. Qed.

Definition spares_note (b : nat) (R : Type) (o : op R) : Prop := ~ deletes o note.

Lemma spared_step (w : world) b R (o : op R) r s :
  spares_note b R o -> wf_world w -> op_step o (w b) r s -> note_kept w (<[b := s]> w).
Proof.
  intros Ho Hw Hs Hp. destruct (decide (b = src)) as [->|Hne]; [|by rewrite fn_lookup_insert_ne].
  rewrite fn_lookup_insert. by eapply op_step_present.
Qed.

Lemma spares_keys pkg b R (o : op R) : touches (fun _ => package_key (fun _ => True) pkg) b R o -> spares_note b R o.
Proof.
  intros Ht Hd. assert (package_key (fun _ => True) pkg note) as Hk by (apply Ht; by destruct o).
  pose proof note_key as Hn. apply starts_with_true in Hn as [rest Hr]. rewrite Hr in Hk.
  inversion Hk as [f s _ _ Heq|f sha Heq|n s Heq|Heq]; apply (f_equal (fun l => l !! 1%nat)) in Heq; discriminate Heq.
Qed.

Lemma spares_claim pkg b R (o : op R) : touches (fun _ k => k = origin_key pkg) b R o -> spares_note b R o.
Proof.
  intros Ht Hd. assert (note = origin_key pkg) as Hk by (apply (Ht note); by destruct o).
  pose proof note_key as Hn. rewrite Hk in Hn. by vm_compute in Hn.
Qed.

Lemma spares_replicate pkg f source : guar spares_note (fun _ => True) (replicate_record src dst pkg f source).
Proof.
  apply (ok_replicate spares_note (fun _ => True)); [done|apply spares_keys| | |done].
  - intros b. eapply guar_weaken; [|by apply (touch_ensure_private (fun _ k => k = origin_key pkg))]. intros c R o. apply spares_claim.
  - intros b. eapply guar_weaken; [|by apply (touch_ensure_mirror (fun _ k => k = origin_key pkg))]. intros c R o. apply spares_claim.
Qed.

(** A part that never deletes the note leaves it standing, whoever else runs. *)
Lemma rely_spared A (p : prog A) w a w' :
  guar spares_note (fun _ => True) p -> exec_rely note_kept p w a w' -> note_kept w w'.
Proof.
  intros Hg He.
  destruct (keeps_exec note_kept _ (note_kept w) (fun _ K' => K' = note_kept w) p w a w') as (K' & HK' & ->); [| | |done|done].
  - intros w1 w2 H1 H12. by transitivity w1.
  - reflexivity.
  - eapply (keeps_guar note_kept _ spares_note); [|by intros w1 w2 H1 H12; transitivity w1|done].
    intros b R o w1 r s. apply spared_step.
Qed.

(** A debt is dropped only once it is paid. However the sweep's delivery of
    a note ends, by its answer, by being abandoned at any point or by any storage
    failure, and whatever other nodes do short of consuming the note themselves,
    the note still stands, or the record's merge with the destination has run to
    the end and reported it converged and, after that, the destination's rebuild
    marker has been written. *)
Theorem debt_stands_until_paid patience w outcome w' :
  present (w src) note ->
  exec_rely note_kept (deliver signal_for_error src dst patience marker) w outcome w' ->
  (outcome ≠ Consumed /\ present (w' src) note)
  \/ exists w1 w2,
       exec_rely note_kept (replicate_record src dst (repl_pkg marker) (repl_filename marker) FromBucket) w (Ok Converged) w1
       /\ exec_rely note_kept (mark_dirty dst (repl_pkg marker)) w1 (Ok tt) w2.
Proof.
  intros Hp He. unfold deliver in He. apply rely_bind in He as (r & w1 & Hr & He); [|apply _].
  assert (forall e, classify_note_failure signal_for_error e ≠ Consumed) as Hcl.
  { intros e. unfold classify_note_failure. repeat case_match; done. }
  assert (present (w1 src) note) as Hp1.
  { revert Hp. eapply rely_spared; [|exact Hr]. apply select_guar; [done|].
    eapply (guar_bind _ _ _ (fun _ => True)); [apply spares_replicate|done]. }
  assert (forall o w2, exec_rely note_kept (Ret o) w2 outcome w' -> o ≠ Consumed -> present (w2 src) note ->
            outcome ≠ Consumed /\ present (w' src) note) as Hend.
  { intros o w2 (w3 & HR & _ & -> & ->) Ho Hp2. split; [done|]. by apply HR. }
  destruct r as [[c|e]|]; [|left; by eapply Hend..].
  apply select_rely in Hr as [?|Hr]; [done|]. apply rely_bind in Hr as (c' & w1' & Hrep & Hret); [|apply _].
  destruct Hret as (w1'' & HR1 & Hw1 & [= <-] & ->).
  apply rely_bind in He as (s & w2 & Hs & He); [|apply _].
  assert (present (w2 src) note) as Hp2.
  { revert Hp1. eapply rely_spared; [|exact Hs]. eapply guar_weaken; [|apply (touch_mark_dirty (fun _ => package_key (fun _ => True) (repl_pkg marker)))].
    - intros b R o. apply spares_keys.
    - intros n t. constructor. }
  destruct s as [[]|e]; [|left; by eapply Hend]. destruct c; [|left; by eapply Hend].
  right. exists w1', w2. split; [done|]. eapply (rely_later note_kept); [exact HR1|exact Hs].
Qed.

End debts.

(** ** Examples: a claimed name, a peer out of reach, and a note. *)
#[local] Existing Instances toy_digest toy_claim_codec toy_sidecar_codec toy_filename_codec toy_status_codec
  content_etags no_copy_verb toy_chunking.
#[local] Existing Instances notes_kept_preorder note_kept_preorder.

Definition two_names : list str := [&"s3://one"; &"s3://two"].
Definition private_world : world := claimed_world OriginState.PRIVATE.

Lemma private_world_wf : wf_world private_world.
Proof. apply wf_run, empty_world_wf. Qed.

Definition peer_down : prog (res unit) :=
  fanout_sync two_names 0 (&"requests") (&".origin") FromBucket (fun i => (i =? 0)%nat) (fun _ => Waits) (fun _ _ => true).

Lemma ack_totality_witness :
  (run example_env private_world peer_down).2 = Ok tt
  /\ noted two_names 0 (&"requests") (&".origin") 1 (run example_env private_world peer_down).1.
Proof.
  assert ((run example_env private_world peer_down).2 = Ok tt) as Hr by (vm_compute; reflexivity). split; [exact Hr|].
  pose proof (exec_rely_run (notes_kept 0) _ example_env _ peer_down private_world_wf example_env_good) as He.
  rewrite Hr in He. apply rely_log in He as [log He].
  assert (NoDup (bucket_tag <$> two_names)) as Hnd
    by (repeat constructor; apply (bool_decide_unpack _); vm_compute; exact I).
  assert ("/"%char ∉ (&"requests" : str)) as Hn by (apply (bool_decide_unpack _); vm_compute; exact I).
  destruct (ack_totality two_names 0 (&"requests") (&".origin") Hnd Hn FromBucket (fun i => (i =? 0)%nat) (fun _ => Waits)
              (fun _ _ => true) private_world log (run example_env private_world peer_down).1 1) as [Hnoted|[Hel _]]; [simpl; lia|simpl; lia|done|exact He|exact Hnoted|discriminate Hel].
Defined.

Definition owed : ReplMarker :=
  MkRepl (&"s3---two") (&"requests") (&".origin") (repl_key (&"s3---two") (&"requests") (&".origin") (&"17-4-0-ff")).
Definition owing_world : world := (run example_env private_world peer_down).1.

Lemma debt_stands_until_paid_witness :
  present (owing_world 0%nat) (repl_note owed)
  /\ (run example_env owing_world (deliver (fun _ => BucketHealth.Timeout) 0 1 Waits owed)).2 = Consumed
  /\ exists w1 w2,
       exec_rely (note_kept 0 owed) (replicate_record 0 1 (&"requests") (&".origin") FromBucket) owing_world (Ok Converged) w1
       /\ exec_rely (note_kept 0 owed) (mark_dirty 1 (&"requests")) w1 (Ok tt) w2.
Proof.
  assert (present (owing_world 0%nat) (repl_note owed)) as Hp by (eexists; vm_compute; reflexivity).
  split; [exact Hp|].
  assert ((run example_env owing_world (deliver (fun _ => BucketHealth.Timeout) 0 1 Waits owed)).2 = Consumed) as Hr
    by (vm_compute; reflexivity).
  split; [exact Hr|].
  assert (wf_world owing_world) as Hw by (apply wf_run, private_world_wf).
  pose proof (exec_rely_run (note_kept 0 owed) _ example_env _
                (deliver (fun _ => BucketHealth.Timeout) 0 1 Waits owed) Hw example_env_good) as He.
  rewrite Hr in He.
  destruct (debt_stands_until_paid (fun _ => BucketHealth.Timeout) 0 1 owed eq_refl Waits owing_world Consumed _ Hp He)
    as [[Hc _]|Hd]; [by destruct Hc|exact Hd].
Defined.

End Fanout.
