(* ===== verification/Reconcile.v ===== *)
(** * The reconcile job over a whole fleet

    Two star passes around the selected bucket, and the backfill sentinels that
    keep a new bucket out of region reads until a clean pass has proved it
    caught up. *)
From stdpp Require Import functions.
From S2P Require Import Prelude RustStr Documents Hash Decide Storage Origin Status Markers Replicate Artifact Execute Footprint Scan Converge Claims Spread BucketHealth Fanout.
Import Storage.

Module Reconcile.
Import Sidecar Decide Origin Hash Status Markers Replicate Artifact Execute Footprint Scan Converge Claims Spread Fanout.

Section reconcile.
Context {D : Digest} {T : Chunking} `{ClaimCodec} {JS : Codec Sidecar} {JF : Codec FilenameBody}
  {JP : Codec StatusDoc.StoredProjectStatus} {V : CopyVerb} {E : Etags}.

Definition is_sentinel (k : str) : Prop := exists tag rest, k = backfill_sentinel_prefix tag ++ rest.

(** What other nodes may do meanwhile: they keep the claim lattice and the
    sentinels, and anything else may change. *)
Definition fleet_rel (w w' : world) : Prop :=
  claims_rel w w' /\ forall b k, is_sentinel k -> present (w b) k -> present (w' b) k.

#[global] Instance fleet_rel_preorder : PreOrder fleet_rel.
Proof.
  split; [by intros w; split|]. intros w1 w2 w3 [C12 S12] [C23 S23]. split; [by transitivity w2|eauto].
Qed.

Lemma rely_mono (Rel Rel' : relation world) A (p : prog A) w a w' :
  (forall w w', Rel w w' -> Rel' w w') -> exec_rely Rel p w a w' -> exec_rely Rel' p w a w'.
Proof.
  intros HR. revert w. induction p as [x|R b o k IH]; intros w (w0 & H0 & Hw0 & He); exists w0;
    (split; [by apply HR|]); (split; [done|]); [done|].
  destruct He as (r & s & Hs & He). exists r, s. split; [done|]. by apply IH.
Qed.

(** Abandoned or not, stable knowledge survives. *)
Lemma keeps_select (Rel : relation world) `{!PreOrder Rel} A (K K0 : world -> Prop) patience left (p : prog A) :
  stable Rel K0 -> (forall w, K w -> K0 w) -> keeps Rel K (fun _ _ => True) p ->
  keeps Rel K (fun _ K' => forall w, K' w -> K0 w) (select patience left p).
Proof.
  intros HK0. revert K patience. induction p as [x|R b o k IH]; intros K patience Hsub Hp; [by intros w; apply Hsub|].
  destruct patience as [|[|n] []]; cbn [select]; try (by intros w; apply Hsub); intros w r s Hw HKw Hs;
    destruct (Hp w r s Hw HKw Hs) as (HR & K' & HK' & HKw' & Hk); (split; [done|]);
    exists (fun w => K' w /\ K0 w); (split; [intros w1 w2 [H1 H2] H12; split; [by eapply HK'|by eapply HK0]|]);
    (split; [split; [done|eapply HK0; [by apply Hsub|done]]|]); try (by intros w1 []);
    apply IH; try (by intros w1 []); revert Hk; apply keeps_strengthen; by intros w1 [].
Qed.

(** ** The passes *)

Section passes.
Variables (fuel hub : nat).
Abbreviation clear := (fun w : world => forall b, no_shadow (w b)).

Lemma clear_stable : stable claims_rel clear.
Proof. intros w w' Hn HR b. by eapply no_shadow_stable. Qed.

Lemma kept_diff_pair i patience left :
  keeps claims_rel clear (fun _ K' => forall w, K' w -> clear w) (select patience left (diff_pair fuel hub i)).
Proof.
  apply keeps_select; [apply _|apply clear_stable|done|]. eapply keeps_mono; [|apply clear_stable|apply kept_diff]; [done|apply clear_stable|].
  intros w Hw. by split.
Qed.

(** What a pass that leaves nobody more unproven has done for a name. *)
Lemma pass_spreads eligible patience peers u w u' w' pkg :
  ("/"%char ∉ pkg) -> clear w ->
  exec_rely claims_rel (reconcile_pass fuel hub eligible patience peers u) w u' w' ->
  claims_rel w w' /\ clear w' /\ (u <= u')%nat /\
  (u' = u -> (forall i, i ∈ peers -> private_at i pkg w -> private_at hub pkg w')
             /\ (private_at hub pkg w -> forall i, i ∈ peers -> private_at i pkg w')).
Proof.
  intros Hn. revert u w. induction peers as [|i peers IH]; intros u w Hc He; cbn [reconcile_pass] in He.
  { destruct He as (w0 & HR & Hw0 & -> & ->). split; [done|]. split; [by eapply clear_stable|]. split; [done|].
    intros _. split; [intros i Hi|intros _ i Hi]; by apply elem_of_nil in Hi. }
  destruct (eligible i).
  2:{ apply IH in He as (HR & Hc' & Hu & _); [|done]. split; [done|]. split; [done|]. split; lia. }
  apply rely_bind in He as (r & w1 & Hd & He); [|apply _].
  assert (claims_rel w w1) as HR1 by (eapply keeps_rel; [apply _|apply clear_stable|exact Hc|apply kept_diff_pair|exact Hd]).
  assert (clear w1) as Hc1 by (by eapply clear_stable).
  assert (exists u1, (u <= u1)%nat /\ (u1 = u -> r = Ok []) /\
            exec_rely claims_rel (reconcile_pass fuel hub eligible patience peers u1) w1 u' w') as (u1 & Hu1 & Hr & He1).
  { destruct r as [[|d ds]|e]; [by exists u|exists (S u)..]; (split; [lia|]); (split; [lia|done]). }
  apply IH in He1 as (HR2 & Hc2 & Hu2 & HI); [|done].
  split; [by transitivity w1|]. split; [done|]. split; [lia|]. intros Heq. assert (u1 = u) as -> by lia.
  specialize (Hr eq_refl) as ->. apply select_rely in Hd as [?|Hd]; [done|].
  destruct (HI Heq) as [Hgather Hspread].
  assert (private_at hub pkg w \/ private_at i pkg w -> private_at hub pkg w1 /\ private_at i pkg w1) as Hpair
    by (intros Hp; by eapply diff_spreads).
  split.
  - intros j [->|Hj]%elem_of_cons Hp; [apply (private_stable hub pkg w1 w'); [by apply Hpair; right|exact HR2]|].
    apply (Hgather j Hj). by apply (private_stable j pkg w w1).
  - intros Hp j [->|Hj]%elem_of_cons; [apply (private_stable i pkg w1 w'); [by apply Hpair; left|exact HR2]|].
    apply Hspread; [by apply Hpair; left|done].
Qed.

End passes.
(** ** The sentinels *)

Section sentinel.
Variables (b : nat) (k : str).
Hypothesis sentinel : is_sentinel k.
Abbreviation mark := (MkRepl [] [] [] k).

Lemma sentinel_note : starts_with REPL_PREFIX k = true.
Proof.
  destruct sentinel as (tag & rest & ->). apply starts_with_true. unfold backfill_sentinel_prefix.
  rewrite <- !app_assoc. by eexists.
Qed.

Lemma spares_converge a c pkg : guar (spares_note mark) (fun _ => True) (converge_package a c pkg).
Proof.
  pose proof sentinel_note as Hk.
  apply (ok_converge (spares_note mark) (fun _ => True)); [done|by apply spares_keys| | |done].
  - intros x. eapply guar_weaken; [|by apply (touch_ensure_private (fun _ k => k = origin_key pkg))].
    intros y R o. by apply spares_claim.
  - intros x. eapply guar_weaken; [|by apply (touch_ensure_mirror (fun _ k => k = origin_key pkg))].
    intros y R o. by apply spares_claim.
Qed.

Lemma spares_peek fuel s : guar (spares_note mark) (fun _ => True) (peek fuel s).
Proof.
  unfold peek. eapply (guar_bind_ok _ _ _ (fun _ => True)); [|done|done].
  revert s. induction fuel as [|fuel IH]; intros s; cbn [scan_fill]; case_match; try done.
  apply guar_call_ok; [by intros []|intros page _|done]. case_decide; [done|].
  destruct (absorb page _ _) as [buf le]. apply IH.
Qed.

Lemma spares_walk steps fuel a c sa sc failures deferred :
  guar (spares_note mark) (fun _ => True) (diff_walk steps fuel a c sa sc failures deferred).
Proof.
  revert sa sc failures deferred. induction steps as [|steps IH]; intros; cbn [diff_walk]; [done|].
  do 2 (eapply (guar_bind_ok _ _ _ (fun _ => True)); [apply spares_peek|intros ? _|done]).
  destruct (next_package _ _ _ _) as [[[q sa2] sc2]|]; [|done].
  eapply (guar_bind _ _ _ (fun _ => True)); [apply spares_converge|]. intros [[]|] _; apply IH.
Qed.

Lemma spares_pass fuel hub eligible patience peers u :
  guar (spares_note mark) (fun _ => True) (reconcile_pass fuel hub eligible patience peers u).
Proof.
  revert u. induction peers as [|i peers IH]; intros u; cbn [reconcile_pass]; [done|]. case_match; [|apply IH].
  eapply (guar_bind _ _ _ (fun _ => True)); [apply select_guar; [done|apply spares_walk]|].
  intros [[]|] _; apply IH.
Qed.

Lemma spares_idle_drain names : guar (spares_note mark) (fun _ => True) (drain_backfill_sentinels names false).
Proof.
  unfold drain_backfill_sentinels. eapply (guar_bind _ _ _ (fun _ => True)); [|done]. generalize (([], O) : list str * nat).
  induction (b ← seq 0 (length names); (fun dest => (b, dest)) <$> names) as [|[x dest] pairs IH]; intros st; cbn [drain_all]; [done|].
  eapply (guar_bind _ _ _ (fun _ => True)); [|intros st' _; apply IH].
  unfold drain_one. apply guar_call_bind; [by intros []|]. by intros [[]|] _.
Qed.

Lemma rely_sentinel A (p : prog A) w a w' :
  guar (spares_note mark) (fun _ => True) p -> exec_rely fleet_rel p w a w' -> present (w b) k -> present (w' b) k.
Proof.
  intros Hg He. assert (note_kept b mark w w') as Hkept; [|exact Hkept].
  eapply rely_spared; [exact Hg|]. eapply rely_mono; [|exact He]. intros w1 w2 [_ HS]. exact (HS b k sentinel).
Qed.

End sentinel.

(** Draining touches nothing but sentinels. *)
Lemma fair_drain names drain : guar fair (fun _ => True) (drain_backfill_sentinels names drain).
Proof.
  assert (forall b keys, Forall (fun k => starts_with REPL_PREFIX k = true) keys -> fair b _ (DeleteKeys keys)) as Hdel.
  { intros b keys Hk. rewrite Forall_forall in Hk. split.
    - intros pkg Hin. by apply Hk in Hin.
    - intros key Hin (pkg & s & _ & _ & ->). apply Hk in Hin. by apply starts_with_true in Hin as [t Ht]. }
  assert (forall b R (o : op R), is_read o = true -> fair b R o) as Hr.
  { intros b R o Ho. apply (fair_keys []). intros k Hk. by destruct o. }
  unfold drain_backfill_sentinels. eapply (guar_bind _ _ _ (fun _ => True)); [|done]. generalize (([], O) : list str * nat).
  induction (b ← seq 0 (length names); (fun dest => (b, dest)) <$> names) as [|[x dest] pairs IH]; intros st; cbn [drain_all]; [done|].
  eapply (guar_bind _ _ _ (fun _ => True)); [|intros st' _; apply IH]. unfold drain_one.
  apply guar_call_bind; [by apply Hr|]. intros [page|] Hp; [|done]. specialize (Hp page eq_refl).
  destruct page as [|o page]; [done|]. destruct drain; [|done].
  apply guar_call_bind; [|by intros [] _]. apply Hdel, Forall_fmap. eapply Forall_impl; [exact Hp|]. intros y Hy.
  apply starts_with_true in Hy as [t Hy]. simpl. rewrite Hy. apply starts_with_true. unfold backfill_sentinel_prefix.
  rewrite <- !app_assoc. by eexists.
Qed.

(** A job whose two passes both leave nobody unproven. *)
Lemma clean_spreads fuel names hub el el' pt pt' w n1 w1 w2 pkg i j :
  ("/"%char ∉ pkg) -> (forall b, no_shadow (w b)) ->
  (i < length names)%nat -> (j < length names)%nat ->
  exec_rely claims_rel (reconcile_pass fuel hub el pt (peers_of names hub) 0) w n1 w1 ->
  exec_rely claims_rel (reconcile_pass fuel hub el' pt' (peers_of names hub) n1) w1 0%nat w2 ->
  private_at i pkg w -> private_at j pkg w2.
Proof.
  intros Hn Hc Hi Hj H1 H2 Hp.
  assert (forall x, (x < length names)%nat -> x ≠ hub -> x ∈ peers_of names hub) as Hpeer.
  { intros x Hx Hne. unfold peers_of. apply list_elem_of_In, filter_In. split; [apply list_elem_of_In, elem_of_seq; lia|].
    apply negb_true_iff. by apply Nat.eqb_neq. }
  destruct (pass_spreads _ _ _ _ _ _ _ _ _ pkg Hn Hc H1) as (HR1 & Hc1 & Hu1 & HI1).
  destruct (pass_spreads _ _ _ _ _ _ _ _ _ pkg Hn Hc1 H2) as (HR2 & Hc2 & Hu2 & HI2).
  assert (n1 = 0%nat) as -> by lia. destruct (HI1 eq_refl) as [Hgather _]. destruct (HI2 eq_refl) as [_ Hspread].
  assert (private_at hub pkg w1) as Hhub.
  { destruct (decide (i = hub)) as [->|Hne]; [by apply (private_stable hub pkg w w1)|]. by apply (Hgather i); [apply Hpeer|]. }
  destruct (decide (j = hub)) as [->|Hne]; [by apply (private_stable hub pkg w1 w2)|]. by apply Hspread, Hpeer.
Qed.

(** From the guard in front of the passes to the end of the job. *)
Lemma job_spreads names fuel hub el el' pt pt' w e0 w1 w2 r w' pkg i j :
  ("/"%char ∉ pkg) -> (forall b, no_shadow (w b)) -> (i < length names)%nat -> (j < length names)%nat ->
  exec_rely fleet_rel (require_replication_unfenced hub) w e0 w1 ->
  exec_rely fleet_rel (reconcile_pass fuel hub el pt (peers_of names hub) 0) w1 0%nat w2 ->
  (exists w3, exec_rely fleet_rel (reconcile_pass fuel hub el' pt' (peers_of names hub) 0) w2 0%nat w3
    /\ exists y w4, exec_rely fleet_rel (drain_backfill_sentinels names true) w3 y w4
    /\ exec_rely fleet_rel (Ret (Ok tt : res unit)) w4 r w') ->
  private_at i pkg w -> private_at j pkg w'.
Proof.
  intros Hn Hc Hi Hj Hf H1 (w3 & H2 & y & w4 & Hd & He) Hpriv.
  assert (forall v v', fleet_rel v v' -> claims_rel v v') as Hsub by (by intros v v' []).
  assert (claims_rel w w1) as HR0.
  { eapply (keeps_rel claims_rel _ _ (fun _ _ => True)); [apply clear_stable|exact Hc| |eapply rely_mono; [exact Hsub|exact Hf]].
    apply kept_fair_last; [apply clear_stable|apply (ok_unfenced fair member_name pkg), fair_keys|done]. }
  apply (private_stable j pkg w3 w').
  - eapply (clean_spreads fuel names hub _ _ _ _ w1 0 w2 w3 pkg i j); try done.
    + by eapply clear_stable.
    + by eapply rely_mono.
    + by eapply rely_mono.
    + by apply (private_stable i pkg w w1).
  - destruct He as (w5 & [HR _] & _ & _ & ->). transitivity w4; [|done].
    eapply (keeps_rel claims_rel _ (fun _ => True) (fun _ _ => True)); [done|done| |eapply rely_mono; [exact Hsub|exact Hd]].
    apply kept_fair_last; [done|apply fair_drain|done].
Qed.

(** What a pass that leaves nobody unproven issued: for each peer in turn, a whole
    diff that failed on no package and put none off. *)
Definition clean_pass (fuel hub : nat) (peers : list nat) (log : list event) : Prop :=
  exists parts, log = concat parts /\ Forall2 (fun peer l => replays (diff_pair fuel hub peer) l (Ok [])) peers parts.

Lemma pass_replays fuel hub eligible patience peers u log u' :
  replays (reconcile_pass fuel hub eligible patience peers u) log u' ->
  (u <= u')%nat /\ (u' = u -> clean_pass fuel hub peers log).
Proof.
  revert u log. induction peers as [|i peers IH]; intros u log He; cbn [reconcile_pass] in He.
  { destruct He as [-> ->]. split; [done|]. intros _. by exists []. }
  destruct (eligible i); [|apply IH in He as [Hu _]; split; lia].
  apply replays_bind in He as (r & l1 & l2 & -> & Hd & He).
  assert ((S u <= u')%nat \/ r = Ok [] /\ replays (reconcile_pass fuel hub eligible patience peers u) l2 u') as [Hu|[-> He']].
  { destruct r as [[|d ds]|e]; [by right|left; by apply IH in He as [? _]..]. }
  { split; lia. }
  apply select_replays in Hd as [?|Hd]; [done|]. apply IH in He' as [Hu Hc]. split; [done|]. intros Heq.
  destruct (Hc Heq) as (parts & -> & Hp). exists (l1 :: parts). split; [done|]. by constructor.
Qed.

(** C6: a new bucket is let in only once it has caught up. If a backfill
    sentinel is gone when a reconcile job returns (and no other node removed
    it), then among the operations this job issued are two passes, one after the
    other, and each of them is, for every other bucket in turn, one whole diff
    with the selected bucket that answered with no failed and no deferred
    package; and every name that was private on any bucket of the fleet when the
    job started is private on all of them: gathered into the selected bucket by
    the first pass and spread from it by the second, whatever failed or
    interfered in between. *)
Theorem sentinel_falls_after_spread names fuel hub hub_eligible eligible patience w log r w' b k :
  (forall b, no_shadow (w b)) -> (hub < length names)%nat ->
  is_sentinel k -> present (w b) k -> ~ present (w' b) k ->
  exec_log fleet_rel (reconcile names fuel hub hub_eligible eligible patience) w log r w' ->
  (exists before first second after, log = before ++ first ++ second ++ after
     /\ clean_pass fuel hub (peers_of names hub) first /\ clean_pass fuel hub (peers_of names hub) second)
  /\ forall pkg i j, ("/"%char ∉ pkg) -> (i < length names)%nat -> (j < length names)%nat ->
     private_at i pkg w -> private_at j pkg w'.
Proof.
  intros Hc Hhub Hk Hp Hgone He. unfold reconcile in He.
  assert (forall A (p : prog A) v x v', guar (spares_note (MkRepl [] [] [] k)) (fun _ => True) p ->
            exec_rely fleet_rel p v x v' -> present (v b) k -> present (v' b) k) as Hkeep by (intros; by eapply rely_sentinel).
  assert (forall v l y, exec_log fleet_rel (Ret y) v l r w' -> present (v b) k -> False) as Hret.
  { intros v l y (w2 & [_ HS] & _ & _ & -> & _) Hpv. by apply Hgone, HS. }
  destruct (length names <=? 1)%nat; [by edestruct Hret|].
  apply log_bind in He as (x & w1 & l0 & l' & -> & Hf%log_rely & He); [|apply _].
  assert (present (w1 b) k) as Hp1 by (eapply Hkeep; [|exact Hf|exact Hp]; apply guar_call_bind; [by intros []|done]).
  destruct x as [[]|e]; [|by edestruct Hret]. destruct hub_eligible; cbn [negb] in He; [|by edestruct Hret].
  apply log_bind in He as (n1 & w2 & l1 & l'' & -> & L1 & He); [|apply _].
  apply log_bind in He as (n2 & w3 & l2 & l3 & -> & L2 & He); [|apply _].
  apply log_bind in He as (y & w4 & l4 & l5 & -> & Hd%log_rely & He); [|apply _].
  pose proof (log_rely _ _ _ _ _ _ _ L1) as H1. pose proof (log_rely _ _ _ _ _ _ _ L2) as H2.
  assert (present (w3 b) k) as Hp3.
  { eapply Hkeep; [|exact H2|]; [by apply spares_pass|]. eapply Hkeep; [|exact H1|exact Hp1]. by apply spares_pass. }
  destruct n2 as [|n2]; cbn [Nat.eqb] in Hd.
  2:{ destruct (Hret w4 l5 (Ok tt)); [done|]. eapply Hkeep; [by apply spares_idle_drain|exact Hd|done]. }
  apply log_replays, pass_replays in L1 as [Hu1 C1]. apply log_replays, pass_replays in L2 as [Hu2 C2].
  assert (n1 = 0%nat) as -> by lia.
  split; [exists l0, l1, l2, (l4 ++ l5); split_and!; auto|].
  apply log_rely in He. intros pkg i j Hn Hi Hj. eapply job_spreads; try done. exists w3. split; [done|]. by exists y, w4.
Qed.

End reconcile.

(** ** An example: a private name, and a second bucket just added. *)
#[local] Existing Instances toy_digest toy_claim_codec toy_sidecar_codec toy_filename_codec toy_status_codec
  content_etags no_copy_verb toy_chunking.

Definition fenced_world : world := (run example_env private_world (seed_backfill_sentinel 0 (&"s3---two"))).1.
Definition sentinel_key : str := backfill_sentinel_prefix (&"s3---two") ++ &"17-4-0-ff".
Definition reconcile_two : prog (res unit) :=
  reconcile two_names 3 0 true (fun _ _ => true) (fun _ _ => Waits).

Lemma fenced_no_shadow b : no_shadow (fenced_world b).
Proof.
  apply run_no_shadow; [apply private_world_wf|apply claimed_no_shadow|].
  apply guar_call_bind; [apply (fair_keys []); by intros k []|]. intros nonce _. apply guar_call; [|done]. split.
  - intros pkg Heq. by apply (f_equal (fun l => l !! 1%nat)) in Heq.
  - intros k <- (pkg & s & _ & _ & Heq). by apply (f_equal (fun l => l !! 1%nat)) in Heq.
Qed.

Lemma sentinel_falls_after_spread_witness :
  present (fenced_world 0%nat) sentinel_key
  /\ ~ present ((run example_env fenced_world reconcile_two).1 0%nat) sentinel_key
  /\ private_at 0 (&"requests") fenced_world
  /\ private_at 1 (&"requests") (run example_env fenced_world reconcile_two).1.
Proof.
  assert (present (fenced_world 0%nat) sentinel_key) as Hp by (eexists; vm_compute; reflexivity).
  assert (~ present ((run example_env fenced_world reconcile_two).1 0%nat) sentinel_key) as Hg.
  { intros [x Hx]. vm_compute in Hx. discriminate Hx. }
  assert (private_at 0 (&"requests") fenced_world) as Hpr by (vm_compute; reflexivity).
  split; [exact Hp|]. split; [exact Hg|]. split; [exact Hpr|].
  assert (wf_world fenced_world) as Hw by (apply wf_run, private_world_wf).
  pose proof (exec_rely_run fleet_rel _ example_env _ reconcile_two Hw example_env_good) as He.
  apply rely_log in He as [log He].
  assert (is_sentinel sentinel_key) as Hk by (by exists (&"s3---two"), (&"17-4-0-ff")).
  destruct (sentinel_falls_after_spread two_names 3 0 true (fun _ _ => true) (fun _ _ => Waits) fenced_world log
    (run example_env fenced_world reconcile_two).2 (run example_env fenced_world reconcile_two).1 0 sentinel_key
    fenced_no_shadow (Nat.lt_0_2 : (0 < length two_names)%nat) Hk Hp Hg He) as [_ Hspread].
  apply (Hspread (&"requests") 0%nat 1%nat); [by apply (bool_decide_unpack _)|simpl; lia|simpl; lia|exact Hpr].
Defined.

End Reconcile.
