(* ===== verification/Jobs.v ===== *)
(** * Concurrent jobs with their own keys (futures::future::join_all)

    [join_all] interleaves its jobs operation by operation. Jobs that read and
    write only keys of their own do not see each other: each answers as it would
    alone, and leaves its own keys as it would alone. *)
From stdpp Require Import functions.
From S2P Require Import Prelude RustStr Documents Storage Fanout.
Import Storage Fanout.

Module Jobs.

Section jobs.
Context {E : Etags}.

(** An operation's every effect is a change [Rel] allows. *)
Definition promises (G : nat -> forall R, op R -> Prop) (Rel : relation world) : Prop :=
  forall b R (o : op R) w r s, G b R o -> wf_world w -> op_step o (w b) r s -> Rel w (<[b := s]> w).

Lemma rely_sub (Rel Rel' : relation world) A (p : prog A) w a w' :
  (forall w w', Rel w w' -> Rel' w w') -> exec_rely Rel p w a w' -> exec_rely Rel' p w a w'.
Proof.
  intros Hsub. revert w. induction p as [x|R b o k IH]; intros w (w0 & HR & Hw0 & He); exists w0;
    (split; [by apply Hsub|]); (split; [done|]); [done|].
  destruct He as (r & s & Hs & He). exists r, s. split; [done|]. by apply IH.
Qed.

(** What happens after the last operation is part of the run. *)
Lemma rely_end (Rel : relation world) `{!Transitive Rel} A (p : prog A) w a w1 w' :
  wf_world w' -> exec_rely Rel p w a w1 -> Rel w1 w' -> exec_rely Rel p w a w'.
Proof.
  intros Hw'. revert w. induction p as [x|R b o k IH]; intros w (w0 & HR & Hw0 & He) Hend.
  - destruct He as [-> ->]. exists w'. split; [by etransitivity|]. done.
  - destruct He as (r & s & Hs & He). exists w0. split; [done|]. split; [done|]. exists r, s. split; [done|]. by apply IH.
Qed.

Lemma rely_wf (Rel : relation world) A (p : prog A) w a w' : exec_rely Rel p w a w' -> wf_world w'.
Proof.
  revert w. induction p as [x|R b o k IH]; intros w (w0 & _ & Hw0 & He); [by destruct He as [_ ->]|].
  destruct He as (r & s & _ & He). by eapply IH.
Qed.

(** A program keeps its own promise along with the others'. *)
Lemma rely_kept (Rel Rel' : relation world) `{!PreOrder Rel'} G A (Q : A -> Prop) (p : prog A) w a w' :
  (forall w w', Rel w w' -> Rel' w w') -> promises G Rel' -> guar G Q p ->
  exec_rely Rel p w a w' -> Rel' w w'.
Proof.
  intros Hsub HG. revert w. induction p as [x|R b o k IH]; intros w Hp (w0 & HR & Hw0 & He).
  - destruct He as [_ ->]. by apply Hsub.
  - destruct Hp as [Ho Hk], He as (r & s & Hs & He). transitivity w0; [by apply Hsub|].
    transitivity (<[b := s]> w0); [by eapply HG|]. apply (IH r); [|done]. apply Hk. by eapply op_step_sound.
Qed.

Section pair.
Context (R0 Rp Rq : relation world) `{!PreOrder Rp} `{!PreOrder Rq} (Gp Gq : nat -> forall R, op R -> Prop).
Hypothesis sub_p : forall w w', R0 w w' -> Rp w w'.
Hypothesis sub_q : forall w w', R0 w w' -> Rq w w'.
Hypothesis keeps_p : promises Gq Rp.
Hypothesis keeps_q : promises Gp Rq.

Lemma both_rely A B (Q : A -> Prop) (Q' : B -> Prop) (p : prog A) (q : prog B) sched w x y w' :
  guar Gp Q p -> guar Gq Q' q -> exec_rely R0 (both p sched q) w (x, y) w' ->
  exec_rely Rp p w x w' /\ exec_rely Rq q w y w'.
Proof.
  revert sched q w. induction p as [a|R b o k IH]; intros sched q w Hp Hq He; pose proof (rely_wf _ _ _ _ _ _ He) as Hw'.
  - assert (exec_rely R0 (pbind q (fun y => Ret (a, y))) w (x, y) w') as He' by (by destruct q). clear He.
    assert (Rp w w') as HR.
    { eapply (rely_kept R0 Rp Gq _ (fun _ => True)); [done|done| |exact He']. eapply guar_bind; [exact Hq|]. done. }
    eapply rely_sub in He'; [|exact sub_q]. apply rely_bind in He' as (y' & w1 & Hq' & (w2 & HR2 & _ & [= -> ->] & ->)); [|apply _].
    split; [by exists w2|]. eapply rely_end; [apply _|exact Hw'|exact Hq'|done].
  - revert sched w He. induction q as [y'|R' b' o' k' IH']; intros sched w He.
    + change (exec_rely R0 (pbind (Do b o k) (fun a => Ret (a, y'))) w (x, y) w') in He.
      assert (Rq w w') as HR.
      { eapply (rely_kept R0 Rq Gp _ (fun _ => True)); [done|done| |exact He]. eapply guar_bind; [exact Hp|]. done. }
      eapply rely_sub in He; [|exact sub_p]. apply rely_bind in He as (x' & w1 & Hp' & (w2 & HR2 & _ & [= -> ->] & ->)); [|apply _].
      split; [eapply rely_end; [apply _|exact Hw'|exact Hp'|done]|]. by exists w2.
    + destruct Hp as [Ho Hk], Hq as [Ho' Hk'].
      cbn [both] in He. destruct (sched O); destruct He as (w0 & HR & Hw0 & r & s & Hs & He).
      * apply IH in He as [Hp' Hq']; [|apply Hk; by apply (op_step_sound _ o (w0 b) r s)|by split]. split.
        -- exists w0. split; [by apply sub_p|]. split; [done|]. by exists r, s.
        -- eapply rely_later; [apply _| |exact Hq']. transitivity w0; [by apply sub_q|]. by eapply keeps_q.
      * apply IH' in He as [Hp' Hq']; [|apply Hk'; by apply (op_step_sound _ o' (w0 b') r s)]. split.
        -- eapply rely_later; [apply _| |exact Hp']. transitivity w0; [by apply sub_p|]. by eapply keeps_p.
        -- exists w0. split; [by apply sub_q|]. split; [done|]. by exists r, s.
Qed.

End pair.

(** Any of the operations a job may issue may be next. *)
Lemma guar_pair G A B (Q : A -> Prop) (Q' : B -> Prop) (p : prog A) (q : prog B) sched :
  guar G Q p -> guar G Q' q -> guar G (fun r => Q r.1 /\ Q' r.2) (both p sched q).
Proof.
  revert sched q. induction p as [a|R b o k IH]; intros sched q Hp Hq.
  - assert (guar G (fun r => Q r.1 /\ Q' r.2) (pbind q (fun y => Ret (a, y)))) as Hb.
    { eapply guar_bind; [exact Hq|]. by intros y Hy. }
    by destruct q.
  - revert sched. induction q as [y|R' b' o' k' IH']; intros sched.
    + change (guar G (fun r => Q r.1 /\ Q' r.2) (pbind (Do b o k) (fun a => Ret (a, y)))).
      eapply guar_bind; [exact Hp|]. by intros x Hx.
    + destruct Hp as [Ho Hk], Hq as [Ho' Hk']. cbn [both]. destruct (sched O); (split; [done|]); intros r Hr.
      * apply IH; [by apply Hk|by split].
      * apply IH'. by apply Hk'.
Qed.

Lemma guar_join_all G A (Q : A -> Prop) (ps : list (prog A)) sched :
  Forall (guar G Q) ps -> guar G (Forall Q) (join_all sched ps).
Proof.
  intros Hps. revert sched. induction Hps as [|p ps Hp _ IH]; intros sched; cbn [join_all]; [by constructor|].
  eapply guar_bind; [by apply guar_pair|]. intros [x xs] [Hx Hxs]. by constructor.
Qed.

(** Jobs that only read answer for the buckets as they are. *)
Lemma exec_both_reads A B (p : prog A) (q : prog B) sched w x y w' :
  wf_world w -> guar reads (fun _ => True) p -> guar reads (fun _ => True) q -> exec (both p sched q) w (x, y) w' ->
  exec p w x w /\ exec q w y w.
Proof.
  intros Hw. revert sched q. induction p as [a|R b o k IH]; intros sched q Hp Hq He.
  - assert (exec (pbind q (fun y => Ret (a, y))) w (x, y) w') as He' by (by destruct q).
    apply exec_bind in He' as (y' & w1 & Hy & [[= -> ->] ->]).
    pose proof (exec_reading _ _ _ _ _ Hw Hq Hy) as ->. by split.
  - revert sched He. induction q as [y'|R' b' o' k' IH']; intros sched He.
    + change (exec (pbind (Do b o k) (fun a => Ret (a, y'))) w (x, y) w') in He.
      apply exec_bind in He as (x' & w1 & Hx & [[= -> ->] ->]).
      pose proof (exec_reading _ _ _ _ _ Hw Hp Hx) as ->. by split.
    + destruct Hp as [Ho Hk], Hq as [Ho' Hk']. cbn [both] in He. destruct (sched O); destruct He as (r & s & Hs & He).
      * pose proof (op_step_read _ _ _ _ _ Ho Hs) as ->. rewrite fn_insert_id in He.
        apply IH in He as [Hx Hy]; [|apply Hk; by eapply op_step_sound|by split]. split; [|done].
        exists r, (w b). split; [done|]. by rewrite fn_insert_id.
      * pose proof (op_step_read _ _ _ _ _ Ho' Hs) as ->. rewrite fn_insert_id in He.
        apply IH' in He as [Hx Hy]; [|apply Hk'; by eapply op_step_sound]. split; [done|].
        exists r, (w b'). split; [done|]. by rewrite fn_insert_id.
Qed.

Lemma exec_join_reads A (ps : list (prog A)) sched w rs w' :
  wf_world w -> Forall (guar reads (fun _ => True)) ps -> exec (join_all sched ps) w rs w' ->
  w' = w /\ Forall2 (fun p r => exec p w r w) ps rs.
Proof.
  intros Hw Hps He. split.
  { eapply exec_reading; [done| |exact He]. eapply guar_mono; [|by apply (guar_join_all _ _ (fun _ => True))]. done. }
  revert sched rs w' He. induction Hps as [|p ps Hp Hps IH]; intros sched rs w' He; cbn [join_all] in He.
  { destruct He as [-> _]. constructor. }
  apply exec_bind in He as ([r rs'] & w1 & Hb & [-> ->]). cbn [fst snd].
  apply exec_both_reads in Hb as [Hr Hrs]; [|done|done|].
  - constructor; [done|]. by eapply IH.
  - eapply guar_mono; [|by apply (guar_join_all _ _ (fun _ => True))]. done.
Qed.

(** Each job of a [join_all] runs among the others. *)
Lemma join_all_rely I (Rel : I -> relation world) `{!forall i, PreOrder (Rel i)}
    (G : I -> nat -> forall R, op R -> Prop) A (jobs : list (I * prog A)) :
  (forall i j, i ≠ j -> promises (G i) (Rel j)) ->
  NoDup jobs.*1 -> Forall (fun j => guar (G j.1) (fun _ => True) j.2) jobs ->
  forall (R0 : relation world) `{!Reflexive R0} sched w rs w',
  Forall (fun j => forall w w', R0 w w' -> Rel j.1 w w') jobs ->
  exec_rely R0 (join_all sched jobs.*2) w rs w' ->
  Forall2 (fun j r => exec_rely (Rel j.1) j.2 w r w') jobs rs.
Proof.
  intros HG. induction jobs as [|[i p] jobs IH]; intros Hnd Hg R0 HR0 sched w rs w' Hsub He; cbn [fmap list_fmap join_all] in *.
  { destruct He as (w0 & _ & _ & -> & _). constructor. }
  apply NoDup_cons in Hnd as [Hi Hnd]. apply Forall_cons in Hg as [Hp Hg]. apply Forall_cons in Hsub as [Hsp Hsub].
  cbn [fst snd] in *. pose proof (rely_wf _ _ _ _ _ _ He) as Hw'.
  apply rely_bind in He as ([x xs] & w1 & He & (w2 & HR2 & _ & -> & ->)); [|done]. cbn [fst snd] in *.
  pose (Rq := fun w w' => Forall (fun j : I * prog A => Rel j.1 w w') jobs).
  pose (Gq := fun b R (o : op R) => Exists (fun j : I * prog A => G j.1 b R o) jobs).
  assert (PreOrder Rq) as HRq.
  { split; [intros v; apply Forall_true; reflexivity|]. intros v1 v2 v3 H12 H23. unfold Rq in *.
    rewrite Forall_forall in *. intros j Hj. transitivity v2; auto. }
  apply (both_rely R0 (Rel i) Rq (G i) Gq) with (Q := fun _ => True) (Q' := fun _ => True) in He as [Hep Heq].
  - constructor; [eapply rely_end; [apply _|exact Hw'|exact Hep|by apply Hsp]|].
    eapply (IH Hnd Hg Rq _ (fun j => sched (S j))).
    + unfold Rq. apply Forall_forall. intros j Hj v v' Hv. rewrite Forall_forall in Hv. by apply Hv.
    + eapply rely_end; [apply _|exact Hw'|exact Heq|]. eapply Forall_impl; [exact Hsub|]. cbn. eauto.
  - exact Hsp.
  - intros v v' Hv. eapply Forall_impl; [exact Hsub|]. cbn. eauto.
  - intros b R o v r s Hex Hv Hs. apply Exists_exists in Hex as ([j q] & Hj & Hex). cbn [fst] in Hex.
    eapply (HG j i); [|done|done|done]. intros ->. apply Hi. by apply (list_elem_of_fmap_2 fst) in Hj.
  - intros b R o v r s Ho Hv Hs. apply Forall_forall. intros [j q] Hj. cbn [fst].
    eapply (HG i j); [|done|done|done]. intros ->. apply Hi. by apply (list_elem_of_fmap_2 fst) in Hj.
  - done.
  - eapply guar_mono; [|apply guar_join_all]; [done|]. apply Forall_fmap, Forall_forall. intros [j q] Hj. cbn.
    rewrite Forall_forall in Hg. eapply guar_weaken; [|by apply (Hg _ Hj)].
    intros b R o Ho. apply Exists_exists. by exists (j, q).
Qed.

(** ** Jobs on their own keys *)

(** Reads and writes of the contents of keys in [P]. *)
Definition own_op (b : nat) (P : str -> Prop) (c : nat) (R : Type) (o : op R) : Prop :=
  c = b /\
  match o with
  | GetBytes k | HeadExists k | PutBytes k _ | PutIfAbsent k _ => P k
  | DeleteKeys ks => Forall P ks
  | _ => False
  end.

Definition agree (P : str -> Prop) (s t : store) : Prop := forall k, P k -> contents s k = contents t k.

Lemma agree_write P v s t k bytes : agree P s t -> agree P (write v s k bytes).1 (write v t k bytes).1.
Proof. intros Ha k' Hk'. rewrite !contents_write. by rewrite (Ha k'). Qed.

Lemma agree_delete P s t ks : agree P s t -> agree P (delete_all ks s) (delete_all ks t).
Proof. intros Ha k Hk. rewrite !contents_delete_all. by rewrite (Ha k). Qed.

Lemma agree_lookup P s t k : agree P s t -> P k ->
  (objects s !! k = None /\ objects t !! k = None) \/
  exists o o', objects s !! k = Some o /\ objects t !! k = Some o' /\ obj_bytes o = obj_bytes o'.
Proof.
  intros Ha Hk. specialize (Ha k Hk). unfold contents in Ha.
  destruct (objects s !! k) as [o|], (objects t !! k) as [o'|]; try done; [right|by left].
  cbn in Ha. injection Ha as Ha. by exists o, o'.
Qed.

Lemma agree_run P b c R (o : op R) v s t :
  own_op b P c R o -> agree P s t ->
  (op_run v s o).2 = (op_run v t o).2 /\ agree P (op_run v s o).1 (op_run v t o).1.
Proof.
  intros [_ Ho] Ha. destruct o; try done; cbn [op_run];
    try (split; [done|]; by first [apply agree_write|apply agree_delete]).
  - destruct (agree_lookup P s t key Ha Ho) as [[-> ->]|(x & y & -> & -> & Hxy)]; cbn [fst snd]; by rewrite ?Hxy.
  - destruct (agree_lookup P s t key Ha Ho) as [[-> ->]|(x & y & -> & -> & Hxy)]; done.
  - destruct (agree_lookup P s t key Ha Ho) as [[-> ->]|(x & y & -> & -> & Hxy)]; cbn [fst snd]; [|done].
    split; [done|]. by apply agree_write.
Qed.

Lemma agree_step P b c R (o : op R) s t r s' :
  own_op b P c R o -> agree P s t -> op_step o s r s' -> exists t', op_step o t r t' /\ agree P s' t'.
Proof.
  intros Ho Ha Hs. destruct Hs as [v Hv|r Hf|v r Hf|r s' Hf Hm].
  - destruct (agree_run P b c R o v s t Ho Ha) as [-> Ha']. exists (op_run v t o).1. split; [by constructor|done].
  - exists t. by split; [constructor 2|].
  - destruct (agree_run P b c R o v s t Ho Ha) as [_ Ha']. exists (op_run v t o).1. split; [by constructor 3|done].
  - destruct o; try (by apply not_elem_of_nil in Hm). cbn [partial_effects] in *.
    apply list_elem_of_fmap in Hm as (n & -> & Hn). exists (delete_all (take n keys) t).
    split; [|by apply agree_delete]. constructor 4; [done|]. apply list_elem_of_fmap. by exists n.
Qed.

(** A job on its own keys, among others that leave them alone, runs as it would
    alone. *)
Lemma own_exec b P A (Q : A -> Prop) (p : prog A) w a w' v :
  guar (own_op b P) Q p -> exec_rely (same_on b P) p w a w' -> same_on b P v w ->
  exists v', exec p v a v' /\ same_on b P v' w'.
Proof.
  revert w v. induction p as [x|R c o k IH]; intros w v Hp (w0 & HR & Hw0 & He) Hv.
  - destruct He as [-> ->]. exists v. split; [done|]. by eapply same_on_trans.
  - destruct Hp as [Ho Hk], He as (r & s & Hs & He). pose proof (Ho) as [-> _].
    destruct (agree_step P b b R o (w0 b) (v b) r s Ho) as (t & Ht & Ha); [|done|].
    { intros k' Hk'. rewrite (HR k' Hk'). by apply Hv. }
    destruct (IH r (<[b := s]> w0) (<[b := t]> v)) as (v' & Hev & Hv'); [|done| |].
    + apply Hk. by apply (op_step_sound _ o (w0 b) r s).
    + intros k' Hk'. rewrite !fn_lookup_insert. by apply Ha.
    + exists v'. split; [|done]. exists r, t. by split.
Qed.

Lemma rely_alone A (p : prog A) w a w' : wf_world w -> exec p w a w' -> exec_rely eq p w a w'.
Proof.
  revert w. induction p as [x|R b o k IH]; intros w Hw; [by intros [-> ->]; exists w|].
  intros (r & s & Hs & He). exists w. split; [done|]. split; [done|]. exists r, s. split; [done|].
  apply IH; [by eapply wf_step|done].
Qed.

#[global] Instance same_on_preorder b P : PreOrder (same_on b P).
Proof. split; [intros w; apply same_on_refl|intros w1 w2 w3; apply same_on_trans]. Qed.

Lemma own_avoids b (P P' : str -> Prop) c R (o : op R) :
  (forall k, P k -> P' k -> False) -> own_op b P c R o -> avoids b P' c R o.
Proof.
  intros Hd [-> Ho] _ k Hk Hn. destruct o; try done; cbn [names_key] in Hn; try (subst; by eapply Hd).
  rewrite Forall_forall in Ho. by eapply Hd; [apply Ho|].
Qed.

(** Jobs with disjoint keys, interleaved: each answers as it would alone, and
    leaves its keys as it would alone. *)
Lemma join_all_own I (P : I -> str -> Prop) b A (Q : A -> Prop) (jobs : list (I * prog A)) sched w rs w' :
  (forall i j k, i ≠ j -> P i k -> P j k -> False) -> NoDup jobs.*1 ->
  Forall (fun j => guar (own_op b (P j.1)) Q j.2) jobs -> wf_world w ->
  exec (join_all sched jobs.*2) w rs w' ->
  Forall2 (fun j r => exists v, exec j.2 w r v /\ same_on b (P j.1) v w') jobs rs.
Proof.
  intros Hd Hnd Hg Hw He. apply rely_alone in He; [|done].
  eapply (join_all_rely I (fun i => same_on b (P i)) (fun i => own_op b (P i))) in He.
  - clear Hnd. induction He as [|[i p] r jobs rs Hr _ IH]; constructor; apply Forall_cons in Hg as [Hp Hg]; [|by apply IH].
    eapply own_exec; [exact Hp|exact Hr|apply same_on_refl].
  - intros i j Hij c R o v r s Ho Hv Hs. eapply same_on_step; [done| |done]. eapply own_avoids; [|done].
    intros k. by apply Hd.
  - done.
  - eapply Forall_impl; [exact Hg|]. intros j Hj. by eapply guar_mono; [|exact Hj].
  - apply _.
  - apply Forall_true. intros j v v' ->. apply same_on_refl.
Qed.

End jobs.
End Jobs.
