(* ===== verification/Index.v ===== *)
(** * The index worker's package rebuild (src/worker.rs, src/sidecar_cache.rs)

    A rebuild lists a package, reads every artifact's sidecar (or the memo of an
    earlier read under the same listing token), gives bare bodies a sidecar,
    drops what no index shows, and renders the project's pages. In a fleet the
    whole rebuild stands behind an intent of its own. *)
From stdpp Require Import functions.
From S2P Require Import Prelude RustStr Pep440 Names Documents Hash Decide Storage Origin Status Markers Replicate Artifact Execute Fanout Denylist Render.
Import Names Sidecar Decide Storage Origin Hash Markers Replicate Artifact Execute Fanout Denylist Render.

Module Index.

Definition SIMPLE_PREFIX : str := &"simple/".
Definition SIDECAR_READ_CONCURRENCY : nat := 64.

Definition html_key (pkg : str) : str := SIMPLE_PREFIX ++ pkg ++ &"/index.html".
Definition json_key (pkg : str) : str := SIMPLE_PREFIX ++ pkg ++ &"/index.json".

(** ** The sidecar memo (sidecar_cache.rs) *)

(** One package's memo: a listing token and what was read under it. *)
Record PackageSidecars := MkMemo {
  memo_sidecars : gmap str (str * Sidecar);
  memo_metadata : gmap str (str * str)
}.
Definition no_memo : PackageSidecars := MkMemo ∅ ∅.

Definition memo_len (m : PackageSidecars) : nat := base.size (memo_sidecars m) + base.size (memo_metadata m).
Definition memo_is_empty (m : PackageSidecars) : bool := (memo_len m =? 0)%nat.

Definition MAX_FILES : nat := Z.to_nat 100000.

(** [Inner], behind the lock: memos by storage handle and package. *)
Record SidecarCache := MkCache { packages : gmap (nat * str) PackageSidecars; files : nat }.

Definition cache_take (c : SidecarCache) (b : nat) (pkg : str) : PackageSidecars * SidecarCache :=
  match packages c !! (b, pkg) with
  | Some memo => (memo, MkCache (delete (b, pkg) (packages c)) (files c - memo_len memo))
  | None => (no_memo, c)
  end.

Definition cache_put (c : SidecarCache) (b : nat) (pkg : str) (memo : PackageSidecars) : SidecarCache :=
  if memo_is_empty memo || (MAX_FILES <? memo_len memo)%nat then c else
  let c := match packages c !! (b, pkg) with
           | Some old => MkCache (delete (b, pkg) (packages c)) (files c - memo_len old)
           | None => c
           end in
  let c := if (MAX_FILES <? files c + memo_len memo)%nat then MkCache ∅ 0 else c in
  MkCache (<[(b, pkg) := memo]> (packages c)) (files c + memo_len memo).

(** One artifact's view of the memo. *)
Record SidecarMemo := MkFileMemo {
  sc_etag : option str;
  sc_known : option Sidecar;
  metadata_etag : option str;
  known_metadata : option str
}.

(** What one artifact adds to the memo being filled. *)
Record Fresh := MkFresh { fresh_sidecar : option (str * Sidecar); fresh_metadata : option (str * str) }.
Definition nothing_fresh : Fresh := MkFresh None None.

(** [RebuiltPackage]. *)
Record RebuiltPackage := MkRebuilt {
  still_live : bool;
  raw_artifacts : list (str * Z);
  file_shas : gmap str str;
  views : list (str * str);
  quarantined : option bool;
  newest_file : option str
}.

Inductive OnFailure := MarkersHeld | Rearm.

(** [artifacts.chunks(n)]. *)
Fixpoint chunks_of {A} (fuel n : nat) (l : list A) : list (list A) :=
  match fuel, l with
  | _, [] => []
  | O, _ => []
  | S fuel, _ => take n l :: chunks_of fuel n (drop n l)
  end.

Section newest.
Context {P : Pep440}.

(** [used_by::newest]: the last of the greatest in the order finals first, then
    version, then filename. *)
Definition newest_key (p : Version * str) : bool * (Version * str) := (negb (any_prerelease p.1), p).

Definition newest (names : list str) : option str :=
  snd <$> foldl (fun best f =>
    match infer_version_from_filename f ≫= parse_version with
    | None => best
    | Some v =>
      match best with
      | Some m => if leb (newest_key m) (newest_key (v, f)) then Some (v, f) else best
      | None => Some (v, f)
      end
    end) None names.

End newest.

Section programs.
Context {D : Digest} {T : Chunking} `{ClaimCodec} {JS : Codec Sidecar} {JF : Codec FilenameBody}
  {JD : Codec StatusDoc.StoredProjectStatus} {JP : Codec Pep691PkgIndex} {X : HtmlEscape} {P : Pep440}.
(** The text of a listing's modification time. *)
Variable rfc3339 : Z -> str.

(** ** Reads *)

Definition read_listed_sidecar (b : nat) (akey : str) : prog (res (option Sidecar)) :=
  let* r := call b (GetBytes (sidecar_key akey)) in
  Ret (match r with
       | Ok bytes => Ok (decode bytes)
       | Err e => if is_not_found e then Ok None else Err e
       end).

Definition read_metadata_sha256 (b : nat) (akey : str) : prog (res (option str)) :=
  let* r := call b (GetBytes (metadata_key akey)) in
  Ret (match r with
       | Ok bytes => Ok (Some (sha256_hex bytes))
       | Err e => if is_not_found e then Ok None else Err e
       end).

(** ** Bare bodies *)

(** The sidecar given to a body that has none. *)
Definition backfilled (entry : FileEntry) (filename sha : str) (pkg_origin : option str) : Sidecar :=
  MkSidecar sha (entry_size entry) (default [] (infer_version_from_filename filename))
    (default [] (rfc3339 <$> last_modified entry)) None None (Flag false) pkg_origin 0 0 false None.

(** The fabricated sidecar is taken back when its body is not the one hashed. *)
Definition retract_fabricated (b : nat) (akey fabricated : str) : prog (res unit) :=
  let* current := call b (GetBytes (sidecar_key akey)) in
  match current with
  | Ok bytes =>
    if decide (bytes = fabricated) then call b (DeleteKeys [sidecar_key akey]) else Ret (Ok tt)
  | Err e => Ret (if is_not_found e then Ok tt else Err e)
  end.

Definition backfill_sidecar (b : nat) (entry : FileEntry) (filename : str) (pkg_origin : option str)
    : prog (res (option Sidecar)) :=
  let akey := entry_key entry in
  let* hashed := stream_sha256 b akey in
  match hashed with
  | Err e => Ret (if is_not_found e then Ok None else Err e)
  | Ok (sha, read) =>
    if negb (read =? entry_size entry) then Ret (Err (Bail (&"read bytes disagree with the listing"))) else
    let sc := backfilled entry filename sha pkg_origin in
    let fabricated := encode sc in
    let*? created := call b (PutIfAbsent (sidecar_key akey) fabricated) in
    if negb created then read_listed_sidecar b akey else
    let* again := stream_sha256 b akey in
    let*? confirmed := Ret (match again with
                            | Ok (now, _) => Ok (bool_decide (now = sha256 sc))
                            | Err e => if is_not_found e then Ok false else Err e
                            end) in
    if negb confirmed then
      let*? _ := retract_fabricated b akey fabricated in Ret (Ok None)
    else Ret (Ok (Some sc))
  end.

(** ** One artifact *)

(** The sidecar of a listed artifact, from the memo or the bucket: nothing where
    none is listed or a fence hides the file, [None] where it cannot be had. *)
Definition sidecar_of (b : nat) (akey : str) (wanted : bool) (known : option Sidecar)
    : prog (res (option (option Sidecar))) :=
  if wanted then
    match known with
    | Some sc => Ret (Ok (Some (Some sc)))
    | None => let*? sc := read_listed_sidecar b akey in Ret (Ok (Some <$> sc))
    end
  else Ret (Ok (Some None)).

(** The digest of the [.metadata] companion, if one is listed. *)
Definition companion_sha (b : nat) (akey : str) (listed : bool) (known : option str) : prog (res (option str)) :=
  if listed then
    match known with Some sha => Ret (Ok (Some sha)) | None => read_metadata_sha256 b akey end
  else Ret (Ok None).

Definition load_file_metadata (b : nat) (entry : FileEntry) (filename : str) (names : list str)
    (claim : option StatusDoc.Origin) (backfill_missing : bool) (memo : SidecarMemo)
    : prog (res (option FileMetadata * Fresh)) :=
  let has suffix := bool_decide (filename ++ suffix ∈ names) in
  let record sc := from_listing has sc claim in
  let*? found := sidecar_of b (entry_key entry)
    (has SIDECAR_SUFFIX && negb (fenced_by_markers (tombstoned (record None)) (frozen (record None))))
    (sc_known memo) in
  match found with
  | None => Ret (Ok (None, nothing_fresh))
  | Some sc =>
    let fresh := match sc, sc_etag memo with Some sc, Some etag => Some (etag, sc) | _, _ => None end in
    let*? filled := (if backfill_missing && bool_decide (classify_record (record sc) = Bare) then
                       let*? sc := backfill_sidecar b entry filename (origin_str <$> claim) in
                       Ret (Ok (Some <$> sc))
                     else Ret (Ok (Some sc))) in
    match filled with
    | None => Ret (Ok (None, MkFresh fresh None))
    (* no index lists a record without a sidecar *)
    | Some None => Ret (Ok (None, MkFresh fresh None))
    | Some (Some sc) =>
      if negb (listed (record (Some sc)) claim) then Ret (Ok (None, MkFresh fresh None)) else
      let*? sha := companion_sha b (entry_key entry) (has METADATA_SUFFIX) (known_metadata memo) in
      let freshm := match metadata_etag memo, sha with Some etag, Some sha => Some (etag, sha) | _, _ => None end in
      Ret (Ok (Some (from_sidecar filename sc sha (has PROVENANCE_SUFFIX)), MkFresh fresh freshm))
    end
  end.

(** ** The listing *)

(** The artifacts of a listing, with their filenames. *)
Definition artifacts_in (prefix : str) (entries : list FileEntry) : list (FileEntry * str) :=
  omap (fun e => let! name := strip_prefix prefix (entry_key e) in
                 if is_artifact name then Some (e, name) else None) entries.

(** The tokens a listing shows for the objects with a suffix, by filename. *)
Definition etags_in (prefix suffix : str) (entries : list FileEntry) : gmap str str :=
  list_to_map (omap (fun e => let! name := strip_prefix prefix (entry_key e) in
                              let! f := strip_suffix suffix name in
                              let! etag := entry_etag e in Some (f, etag)) (reverse entries)).

Definition file_memo (memo : PackageSidecars) (sidecar_etags metadata_etags : gmap str str) (filename : str)
    : SidecarMemo :=
  let etag := sidecar_etags !! filename in
  let metag := metadata_etags !! filename in
  MkFileMemo etag
    (let! e := etag in let! seen := memo_sidecars memo !! filename in
     if decide (seen.1 = e) then Some seen.2 else None)
    metag
    (let! e := metag in let! seen := memo_metadata memo !! filename in
     if decide (seen.1 = e) then Some seen.2 else None).

Definition add_fresh (m : PackageSidecars) (filename : str) (fr : Fresh) : PackageSidecars :=
  MkMemo (match fresh_sidecar fr with Some v => <[filename := v]> (memo_sidecars m) | None => memo_sidecars m end)
         (match fresh_metadata fr with Some v => <[filename := v]> (memo_metadata m) | None => memo_metadata m end).

(** [for file in loaded { metadata.extend(file?) }], with the memo each filled. *)
Fixpoint collect (names : list str) (loaded : list (res (option FileMetadata * Fresh)))
    (st : list FileMetadata * PackageSidecars) : res (list FileMetadata * PackageSidecars) :=
  match names, loaded with
  | name :: names, Ok (file, fr) :: loaded =>
    collect names loaded (st.1 ++ option_list file, add_fresh st.2 name fr)
  | _ :: _, Err e :: _ => Err e
  | _, _ => Ok st
  end.

Definition is_superseding_marker (prefix : str) (e : FileEntry) : bool :=
  match strip_prefix prefix (entry_key e) ≫= strip_suffix SUPERSEDING_SUFFIX with
  | Some name => is_artifact name
  | None => false
  end.

(** The listing taken again behind the interrupted supersedes it showed. *)
Definition finish_marked (b : nat) (pkg : str) (authoring : option Z) (entries : list FileEntry)
    : prog (res (list FileEntry)) :=
  let prefix := PACKAGES_PREFIX ++ pkg ++ &"/" in
  match authoring, List.filter (is_superseding_marker prefix) entries with
  | Some intent_grace, (_ :: _) as marked =>
    let*? _ := finish_interrupted_supersedes b pkg marked intent_grace in
    call b (ListDirEntries prefix)
  | _, _ => Ret (Ok entries)
  end.

(** One chunk of loads at a time. *)
Fixpoint load_chunks (load : FileEntry * str -> prog (res (option FileMetadata * Fresh)))
    (sched : nat -> nat -> nat -> bool) (cs : list (list (FileEntry * str)))
    (st : list FileMetadata * PackageSidecars) : prog (res (list FileMetadata * PackageSidecars)) :=
  match cs with
  | [] => Ret (Ok st)
  | c :: cs =>
    let* loaded := join_all (sched O) (load <$> c) in
    match collect c.*2 loaded st with
    | Ok st => load_chunks load (fun n => sched (S n)) cs st
    | Err e => Ret (Err e)
    end
  end.

(** [authoring] is the intent grace of a rebuild that may write. [take] is the
    memo of the package, read after the listing; the memo to put back is part of
    the answer. *)
Definition list_artifacts_for_claim (b : nat) (memo : PackageSidecars) (sched : nat -> nat -> nat -> bool)
    (pkg : str) (authoring : option Z)
    : prog (res (list FileMetadata * list (str * Z) * PackageSidecars)) :=
  let prefix := PACKAGES_PREFIX ++ pkg ++ &"/" in
  let*? claimed := read_origin_claim b pkg in
  let claim := claimed ≫= origin_of_state in
  let*? listed := call b (ListDirEntries prefix) in
  let*? entries := finish_marked b pkg authoring listed in
  let names := names_under prefix entries in
  let artifacts := artifacts_in prefix entries in
  let sidecar_etags := etags_in prefix SIDECAR_SUFFIX entries in
  let metadata_etags := etags_in prefix METADATA_SUFFIX entries in
  let*? st := load_chunks
    (fun a => load_file_metadata b a.1 a.2 names claim (bool_decide (is_Some authoring))
                (file_memo memo sidecar_etags metadata_etags a.2))
    sched (chunks_of (length artifacts) SIDECAR_READ_CONCURRENCY artifacts) ([], no_memo) in
  Ret (Ok (st.1, (fun a => (a.2, entry_size a.1)) <$> artifacts, st.2)).

Definition list_artifacts (b : nat) (memo : PackageSidecars) (sched : nat -> nat -> nat -> bool) (pkg : str)
    (intent_grace : Z) : prog (res (list FileMetadata * list (str * Z) * PackageSidecars)) :=
  list_artifacts_for_claim b memo sched pkg (Some intent_grace).

Definition list_artifacts_readonly (b : nat) (memo : PackageSidecars) (sched : nat -> nat -> nat -> bool)
    (pkg : str) : prog (res (list FileMetadata * list (str * Z) * PackageSidecars)) :=
  list_artifacts_for_claim b memo sched pkg None.

(** ** The pages *)

Definition put_if_changed (b : nat) (key bytes : str) : prog (res unit) :=
  let* current := call b (GetBytes key) in
  if bool_decide (current = Ok bytes) then Ret (Ok tt) else call b (PutBytes key bytes).

(** [blocks] is the armed advisory snapshot: whether a blocking advisory covers
    a version of a package. *)
Definition malware_scrubbed_files (b : nat) (blocks : option (str -> option str -> bool)) (pkg : str)
    (fs : list FileMetadata) : prog (option (list FileMetadata)) :=
  match blocks with
  | None => Ret None
  | Some covers =>
    let is_blocked f := covers pkg (infer_version_from_filename (fm_filename f)) in
    if negb (existsb is_blocked fs) then Ret None else
    let* claim := read_origin_claim b pkg in
    Ret (match claim with
         | Ok (Some OriginState.Mirror) => Some (List.filter (fun f => negb (is_blocked f)) fs)
         | _ => None
         end)
  end.

Definition write_pkg_indexes (b : nat) (blocks : option (str -> option str -> bool)) (pkg : str)
    (fs : list FileMetadata) : prog (res (list (str * str) * bool)) :=
  let*? status := Status.read_status b pkg in
  let* scrubbed := malware_scrubbed_files b blocks pkg fs in
  let fs := default fs scrubbed in
  let blocked := StatusDoc.blocks_downloads (StatusDoc.status status) in
  let render_files := if blocked then [] else fs in
  let pages := [(html_key pkg, pep503_project_html pkg render_files status);
                (json_key pkg, pep691_project_json pkg render_files status)] in
  let*? _ := pfor pages tt (fun _ page => put_if_changed b page.1 page.2) in
  Ret (Ok (pages, blocked)).

(** ** The rebuild *)

(** What of the server state a rebuild consults. *)
Record IndexConfig := MkConfig {
  is_multi : bool;
  cfg_intent_grace : Z;
  denylist : option Denylist;
  malware : option (str -> option str -> bool)
}.

(** The listed files a page may show: not the one being deleted, not the
    excluded ones. *)
Definition visible (cfg : IndexConfig) (pkg : str) (omit : option str) (fs : list FileMetadata) : list FileMetadata :=
  let fs := match omit with Some o => List.filter (fun f => negb (bool_decide (fm_filename f = o))) fs | None => fs end in
  match denylist cfg with
  | Some d => List.filter (fun f => negb (file_denied d pkg (fm_filename f))) fs
  | None => fs
  end.

Definition rebuild_package_indexes_inner (cfg : IndexConfig) (b : nat) (memo : PackageSidecars)
    (sched : nat -> nat -> nat -> bool) (pkg : str) (omit : option str)
    : prog (res (RebuiltPackage * PackageSidecars)) :=
  let*? found := list_artifacts_for_claim b memo sched pkg (Some (cfg_intent_grace cfg)) in
  let '(fs, raw, fresh) := found in
  let fs := visible cfg pkg omit fs in
  let raw := match omit with Some o => List.filter (fun f : str * Z => negb (bool_decide (f.1 = o))) raw | None => raw end in
  let shas := list_to_map (reverse ((fun f => (fm_filename f, fm_sha256 f)) <$> fs)) in
  let new := newest (fm_filename <$> List.filter fm_core_metadata fs) in
  match fs with
  | _ :: _ =>
    let*? written := write_pkg_indexes b (malware cfg) pkg fs in
    Ret (Ok (MkRebuilt true raw shas written.1 (Some written.2) new, fresh))
  | [] =>
    let*? _ := call b (DeleteKeys [html_key pkg; json_key pkg]) in
    Ret (Ok (MkRebuilt false raw shas [] None new, fresh))
  end.

Definition rebuild_package_indexes (cfg : IndexConfig) (b : nat) (memo : PackageSidecars)
    (sched : nat -> nat -> nat -> bool) (pkg : str) (omit : option str) (on_failure : OnFailure)
    : prog (res (RebuiltPackage * PackageSidecars)) :=
  if negb (is_multi cfg) then rebuild_package_indexes_inner cfg b memo sched pkg omit else
  let*? nonce := mark_intent b pkg in
  let* result := rebuild_package_indexes_inner cfg b memo sched pkg omit in
  match result with
  | Ok value => let*? _ := clear_intent b pkg nonce in Ret (Ok value)
  | Err error =>
    let* _ := match on_failure with
              | MarkersHeld => clear_intent b pkg nonce
              | Rearm => mark_commit b pkg nonce
              end in
    Ret (Err error)
  end.

End programs.
(** ** The memo's bound *)

(** The entries of all memos. *)
Definition total (m : gmap (nat * str) PackageSidecars) : nat := map_fold (fun _ p n => memo_len p + n)%nat 0%nat m.

(** The counter counts, within the bound, and no memo kept is empty. *)
Definition cache_ok (c : SidecarCache) : Prop :=
  files c = total (packages c) /\ (files c <= MAX_FILES)%nat
  /\ map_Forall (fun _ p => (0 < memo_len p)%nat) (packages c).

Lemma total_insert m k p : m !! k = None -> total (<[k := p]> m) = (memo_len p + total m)%nat.
Proof. intros Hk. unfold total. rewrite map_fold_insert_L; [done|lia|done]. Qed.

Lemma total_delete m k p : m !! k = Some p -> total m = (memo_len p + total (delete k m))%nat.
Proof. intros Hk. unfold total. rewrite (map_fold_delete_L _ _ k p m); [done|lia|done]. Qed.

(** The cache without a package's memo. *)
Definition out_of (c : SidecarCache) (k : nat * str) : SidecarCache :=
  match packages c !! k with
  | Some old => MkCache (delete k (packages c)) (files c - memo_len old)
  | None => c
  end.

Lemma out_of_ok c k : cache_ok c -> cache_ok (out_of c k) /\ packages (out_of c k) !! k = None.
Proof.
  intros (Hf & Hmax & Hpos). unfold out_of. destruct (packages c !! k) as [old|] eqn:Hk; [|done].
  pose proof (total_delete _ _ _ Hk) as Ht. split; [|cbn; apply lookup_delete_eq].
  split_and!; cbn [files packages]; [lia|lia|]. by apply map_Forall_delete.
Qed.

(** What rebuilds do with the cache, in any order. *)
Inductive cache_op := TakeMemo (b : nat) (pkg : str) | PutMemo (b : nat) (pkg : str) (m : PackageSidecars).
Definition cache_do (c : SidecarCache) (o : cache_op) : SidecarCache :=
  match o with TakeMemo b pkg => (cache_take c b pkg).2 | PutMemo b pkg m => cache_put c b pkg m end.

Lemma take_ok c b pkg : cache_ok c -> cache_ok (cache_take c b pkg).2.
Proof. intros Hc. destruct (out_of_ok c (b, pkg) Hc) as [Ho _]. unfold cache_take, out_of in *. by destruct (packages c !! _). Qed.

Lemma put_ok c b pkg m : cache_ok c -> cache_ok (cache_put c b pkg m).
Proof.
  intros Hc. destruct (out_of_ok c (b, pkg) Hc) as [Ho Hnone]. unfold cache_put. cbv zeta. fold (out_of c (b, pkg)).
  destruct (memo_is_empty m || _) eqn:He; [done|]. apply orb_false_iff in He as [Hne Hle].
  unfold memo_is_empty in Hne. apply Nat.eqb_neq in Hne. apply Nat.ltb_ge in Hle.
  assert (forall c', cache_ok c' -> packages c' !! (b, pkg) = None -> (files c' + memo_len m <= MAX_FILES)%nat ->
    cache_ok (MkCache (<[(b, pkg) := m]> (packages c')) (files c' + memo_len m))) as Hin.
  { intros c' (Hf & _ & Hpos) Hk Hl. split_and!; cbn [files packages]; [rewrite total_insert by done; lia|done|].
    apply map_Forall_insert_2; [lia|done]. }
  destruct (MAX_FILES <? _)%nat eqn:Hl; [|apply Nat.ltb_ge in Hl; by apply Hin].
  apply Hin; [|apply lookup_empty|exact Hle]. split_and!; cbn [files packages]; [done|lia|apply map_Forall_empty].
Qed.

(** After any sequence of takes and puts, whichever buckets, packages and
    memos they name, the cache's file counter is exactly the number of entries
    it holds (so no subtraction of [take] or [put] went below zero), that number
    is at most [MAX_FILES], and no empty memo is kept. *)
Theorem cache_bounded (l : list cache_op) : cache_ok (foldl cache_do (MkCache ∅ 0) l).
Proof.
  assert (forall c, cache_ok c -> cache_ok (foldl cache_do c l)) as Hall; [|apply Hall].
  - induction l as [|[b pkg|b pkg m] l IH]; intros c Hc; [done| |]; cbn [foldl cache_do]; apply IH; [by apply take_ok|by apply put_ok].
  - split_and!; cbn [files packages]; [done|lia|apply map_Forall_empty].
Qed.

End Index.
