(* ===== verification/Rebuild.v ===== *)
(** * A rebuilt index shows the truth

    The pages a rebuild leaves are the rendering of the records the bucket then
    holds: every artifact that is live and no late mirror, with the metadata of
    its stored sidecar, and nothing else. *)
From stdpp Require Import functions.
From S2P Require Import Prelude RustStr Pep440 Names Documents Hash Decide Storage Origin Status Markers Replicate Artifact Execute Footprint Fanout Denylist Render Jobs Index.
Import Names Sidecar Decide Storage Origin Hash Markers Replicate Artifact Execute Footprint Fanout Denylist Render Jobs Index.

Module Rebuild.

Ltac suffix_in := apply (bool_decide_unpack _); vm_compute; exact I.

Section reading.
Context {E : Etags}.

Lemma holds_get A I (Q : A -> world -> Prop) b key k w :
  I w ->
  (forall r, match r with
             | Ok bytes => contents (w b) key = Some bytes
             | Err e => is_not_found e = true -> contents (w b) key = None
             end -> holds I Q (k r) w) ->
  holds I Q (pbind (call b (GetBytes key)) k) w.
Proof.
  intros HI Hk. split; [done|]. intros r s Hs.
  pose proof (op_step_read _ _ _ _ _ (eq_refl : is_read (GetBytes key) = true) Hs) as ->. rewrite fn_insert_id.
  apply Hk. destruct r as [bytes|e]; [by eapply get_bytes_answer|].
  intros He%bool_decide_eq_true. subst e. by eapply get_bytes_not_found.
Qed.

Lemma holds_stream {D : Digest} {T : Chunking} A I (Q : A -> world -> Prop) b key k w :
  I w ->
  (forall r, match r with
             | Ok (sha, n) => exists body, contents (w b) key = Some body /\ sha = sha256_hex body /\ n = Z.of_nat (length body)
             | Err e => is_not_found e = true -> contents (w b) key = None
             end -> holds I Q (k r) w) ->
  holds I Q (pbind (stream_sha256 b key) k) w.
Proof.
  intros HI Hk. apply holds_bind. unfold stream_sha256, pbind_ok. apply holds_get; [done|]. intros r Hr.
  destruct r as [body|e]; apply holds_ret; try done; [|by apply Hk].
  apply Hk. rewrite hash_chunks_spec, chunks_concat. by exists body.
Qed.

End reading.

Section files.
Context {D : Digest} {T : Chunking} `{ClaimCodec} {JS : Codec Sidecar} {JF : Codec FilenameBody}
  {JD : Codec StatusDoc.StoredProjectStatus} {JP : Codec Pep691PkgIndex} {X : HtmlEscape} {P : Pep440} {E : Etags}.
Variable rfc3339 : Z -> str.

(** ** What a bucket's truth shows *)

(** The index entry of a filename, from its stored record. *)
Definition file_in (s : store) (pkg : str) (claim : option StatusDoc.Origin) (f : str) : option FileMetadata :=
  let! bytes := contents s (sidecar_key (artifact_key pkg f)) in
  let! sc := decode bytes in
  if listed (from_listing (has_object s pkg f) (Some sc) claim) claim
  then Some (from_sidecar f sc (sha256_hex <$> contents s (metadata_key (artifact_key pkg f)))
               (has_object s pkg f PROVENANCE_SUFFIX))
  else None.

(** The artifacts of a package, in key order. *)
Definition artifact_names (s : store) (pkg : str) : list str :=
  (artifacts_in (PACKAGES_PREFIX ++ pkg ++ &"/")
    (entry_of <$> list_where (in_dir (PACKAGES_PREFIX ++ pkg ++ &"/")) s)).*2.

Definition files_in (s : store) (pkg : str) (claim : option StatusDoc.Origin) : list FileMetadata :=
  omap (file_in s pkg claim) (artifact_names s pkg).

Lemma has_object_false s pkg f suffix :
  has_object s pkg f suffix = false -> contents s (companion_key (artifact_key pkg f) suffix) = None.
Proof. intros Hh%bool_decide_eq_false. by apply eq_None_not_Some. Qed.

Lemma fenced_not_listed (r : Record_) claim :
  fenced_by_markers (tombstoned r) (frozen r) = true -> listed r claim = false.
Proof.
  unfold fenced_by_markers, listed, classify_record. cbn [Decide.frozen Decide.tombstoned].
  destruct (Decide.frozen r); [done|]. by destruct (Decide.tombstoned r).
Qed.

Lemma no_sidecar_not_listed (r : Record_) claim : sidecar r = None -> listed r claim = false.
Proof.
  intros Hr. unfold listed, classify_record. rewrite Hr. by repeat case_match.
Qed.

Lemma bare_no_sidecar (r : Record_) : classify_record r = Bare -> sidecar r = None.
Proof. unfold classify_record. intros Hr. repeat case_match; done. Qed.

Lemma bare_not_fenced (r : Record_) :
  classify_record r = Bare -> fenced_by_markers (tombstoned r) (frozen r) = false.
Proof.
  unfold fenced_by_markers, classify_record. cbn [Decide.frozen Decide.tombstoned].
  destruct (Decide.frozen r); [done|]. by destruct (Decide.tombstoned r).
Qed.

(** ** One artifact *)

Section artifact.
Variables (b : nat) (pkg f : str).
Hypothesis names_ok : valid_names pkg f.
Abbreviation akey := (artifact_key pkg f).

(** The keys one artifact's load reads and writes. *)
Definition load_key (k : str) : Prop := k ∈ [akey; sidecar_key akey; metadata_key akey].

(** The sidecar and digest a memo vouches for are those stored. *)
Definition memo_true (s : store) (m : SidecarMemo) : Prop :=
  (forall sc, sc_known m = Some sc -> contents s (sidecar_key akey) ≫= decode = Some sc) /\
  (forall sha, known_metadata m = Some sha -> sha256_hex <$> contents s (metadata_key akey) = Some sha).

(** What a load adds to the memo was read under the token it is filed under. *)
Definition fresh_true (s : store) (m : SidecarMemo) (fr : Fresh) : Prop :=
  (forall etag sc, fresh_sidecar fr = Some (etag, sc) ->
     sc_etag m = Some etag /\ contents s (sidecar_key akey) ≫= decode = Some sc) /\
  (forall etag sha, fresh_metadata fr = Some (etag, sha) ->
     metadata_etag m = Some etag /\ sha256_hex <$> contents s (metadata_key akey) = Some sha).

Lemma akey_ne_sidecar : sidecar_key akey ≠ akey.
Proof.
  intros Heq. apply (f_equal length) in Heq. unfold sidecar_key, companion_key in Heq.
  rewrite length_app in Heq. cbn in Heq. lia.
Qed.

(** An undisturbed backfill of a bare body stores the sidecar it answers. *)
Lemma holds_backfill entry origin w :
  wf_world w -> entry_key entry = akey -> is_Some (contents (w b) akey) -> contents (w b) (sidecar_key akey) = None ->
  holds (fun _ => True)
    (fun r v => match r with
                | Ok (Some sc) => contents (v b) (sidecar_key akey) = Some (encode sc)
                                  /\ forall k, k ≠ sidecar_key akey -> contents (v b) k = contents (w b) k
                | Ok None => False
                | Err _ => True
                end) (backfill_sidecar rfc3339 b entry f origin) w.
Proof.
  intros Hw Hkey [body Hbody] Hnone. unfold backfill_sidecar. rewrite Hkey. apply holds_stream; [done|].
  intros [[sha n]|e] Hr; [|apply holds_ret; [done|]; destruct (is_not_found e); [by rewrite Hr in Hbody|done]].
  destruct Hr as (body' & Hb' & -> & ->). rewrite Hbody in Hb'. injection Hb' as <-.
  case_match; [by apply holds_ret|].
  apply holds_call_ok; [done|done| |done]. intros created s Hs Hw'.
  destruct created; cbn [negb].
  2:{ exfalso. eapply put_if_absent_taken in Hs as [_ Hp]; [|done]. unfold present in Hp. rewrite Hnone in Hp.
      by destruct Hp. }
  pose proof (put_if_absent_created _ _ _ _ _ Hs eq_refl) as Hcreated.
  assert (forall k, k ≠ sidecar_key akey -> contents s k = contents (w b) k) as Hframe.
  { intros k Hk. eapply op_step_frame; [apply Hw|exact Hs|]. by intros ?. }
  apply holds_stream; [done|]. intros r Hr. rewrite fn_lookup_insert in Hr.
  rewrite (Hframe akey) in Hr by (intros Heq; by apply akey_ne_sidecar). rewrite Hbody in Hr.
  destruct r as [[now n]|e].
  - destruct Hr as (body' & [= <-] & -> & ->). unfold pbind_ok. rewrite !pbind_ret. cbn [sha256 backfilled].
    rewrite bool_decide_eq_true_2 by done. cbn [negb]. apply holds_ret; [done|]. by rewrite fn_lookup_insert.
  - unfold pbind_ok. rewrite pbind_ret. destruct (is_not_found e); [by discriminate Hr|]. by apply holds_ret.
Qed.

(** The objects a record's reading asks for, its sidecar apart. *)
Definition view_suffixes : list str :=
  [[]; METADATA_SUFFIX; PROVENANCE_SUFFIX; TOMBSTONE_SUFFIX; FROZEN_SUFFIX; MIRROR_QUARANTINED_SUFFIX; SUPERSEDING_SUFFIX].

Lemma view_companion s : s ∈ view_suffixes -> s ∈ [] :: companion_suffixes.
Proof.
  assert (Forall (fun s => s ∈ [] :: companion_suffixes) view_suffixes) as Hall by suffix_in.
  rewrite Forall_forall in Hall. apply Hall.
Qed.

Lemma from_listing_view has has' sc claim :
  (forall suffix, suffix ∈ view_suffixes -> has suffix = has' suffix) ->
  from_listing has sc claim = from_listing has' sc claim.
Proof. intros Hh. unfold from_listing. by rewrite !Hh by suffix_in. Qed.

Lemma view_not_sidecar s : s ∈ view_suffixes -> companion_key akey s ≠ sidecar_key akey.
Proof.
  intros Hs Heq. apply key_inj in Heq as (_ & _ & ->); [|done|done|by apply view_companion|suffix_in].
  revert Hs. suffix_in.
Qed.

Abbreviation stored w := (contents (w b) (sidecar_key akey) ≫= (decode : str -> option Sidecar)).

(** Outside its sidecar slot, a load leaves the record as it was. *)
Definition same_view (w v : world) : Prop := forall k, k ≠ sidecar_key akey -> contents (v b) k = contents (w b) k.

Lemma view_same w v suffix : same_view w v -> suffix ∈ view_suffixes ->
  has_object (v b) pkg f suffix = has_object (w b) pkg f suffix.
Proof. intros Hv Hs. unfold has_object. by rewrite Hv by (by apply view_not_sidecar). Qed.

Lemma file_in_listed w v sc claim :
  same_view w v -> stored v = Some sc ->
  file_in (v b) pkg claim f =
  if listed (from_listing (has_object (w b) pkg f) (Some sc) claim) claim
  then Some (from_sidecar f sc (sha256_hex <$> contents (w b) (metadata_key akey)) (has_object (w b) pkg f PROVENANCE_SUFFIX))
  else None.
Proof.
  intros Hv Hsc. unfold file_in. destruct (contents (v b) (sidecar_key akey)) as [bytes|]; [|done].
  cbn [mbind option_bind] in *. rewrite Hsc. cbn [mbind option_bind].
  rewrite (from_listing_view (has_object (v b) pkg f) (has_object (w b) pkg f)) by (intros; by apply view_same).
  rewrite (view_same w v PROVENANCE_SUFFIX) by (done || suffix_in).
  by rewrite (Hv (metadata_key akey)) by (apply (view_not_sidecar METADATA_SUFFIX); suffix_in).
Qed.

Lemma file_in_unread w claim :
  has_object (w b) pkg f SIDECAR_SUFFIX = false
  \/ fenced_by_markers (has_object (w b) pkg f TOMBSTONE_SUFFIX) (has_object (w b) pkg f FROZEN_SUFFIX) = true ->
  file_in (w b) pkg claim f = None.
Proof.
  intros Hr. unfold file_in. destruct (contents (w b) (sidecar_key akey)) as [bytes|] eqn:Hb; [|done].
  cbn [mbind option_bind]. destruct (decode bytes) as [sc|]; [|done]. cbn [mbind option_bind]. destruct Hr as [Hr|Hr].
  - apply has_object_false in Hr. unfold sidecar_key in Hb. congruence.
  - by rewrite fenced_not_listed.
Qed.

(** What is known once the sidecar has been looked for. *)
Definition sought (w : world) (found : option (option Sidecar)) : Prop :=
  match found with
  | Some (Some sc) => stored w = Some sc
  | Some None => has_object (w b) pkg f SIDECAR_SUFFIX = false
      \/ fenced_by_markers (has_object (w b) pkg f TOMBSTONE_SUFFIX) (has_object (w b) pkg f FROZEN_SUFFIX) = true
  | None => stored w = None
  end.

Lemma holds_sidecar_of known w :
  (forall sc, known = Some sc -> stored w = Some sc) ->
  holds (fun _ => True) (fun r v => v = w /\ match r with Ok found => sought w found | Err _ => True end)
    (sidecar_of b akey (has_object (w b) pkg f SIDECAR_SUFFIX &&
       negb (fenced_by_markers (has_object (w b) pkg f TOMBSTONE_SUFFIX) (has_object (w b) pkg f FROZEN_SUFFIX))) known) w.
Proof.
  intros Hknown. unfold sidecar_of.
  destruct (has_object (w b) pkg f SIDECAR_SUFFIX) eqn:Hs; cbn [andb]; [|apply holds_ret; [done|]; split; [done|by left]].
  destruct (fenced_by_markers _ _) eqn:Hf; cbn [negb]; [apply holds_ret; [done|]; split; [done|by right]|].
  destruct known as [sc|]; [apply holds_ret; [done|]; split; [done|]; by apply Hknown|].
  apply holds_bind_ok. unfold read_listed_sidecar. apply holds_get; [done|]. intros r Hr.
  apply holds_ret; [done|]. destruct r as [bytes|e].
  - apply holds_ret; [done|]. split; [done|]. destruct (decode bytes) eqn:Hd;
    cbn [sought fmap option_fmap option_map]; by rewrite Hr.
  - destruct (is_not_found e); [|done]. apply holds_ret; [done|]. split; [done|].
    cbn [sought fmap option_fmap option_map]. by rewrite Hr.
Qed.

Lemma holds_companion_sha known w v :
  same_view w v -> (forall sha, known = Some sha -> sha256_hex <$> contents (w b) (metadata_key akey) = Some sha) ->
  holds (fun _ => True)
    (fun r u => u = v /\ match r with Ok sha => sha = sha256_hex <$> contents (w b) (metadata_key akey) | Err _ => True end)
    (companion_sha b akey (has_object (w b) pkg f METADATA_SUFFIX) known) v.
Proof.
  intros Hv Hknown. unfold companion_sha.
  destruct (has_object (w b) pkg f METADATA_SUFFIX) eqn:Hm.
  - destruct known as [sha|]; [apply holds_ret; [done|]; split; [done|]; by rewrite (Hknown sha)|].
    unfold read_metadata_sha256. apply holds_get; [done|]. intros r Hr. apply holds_ret; [done|]. split; [done|].
    rewrite (Hv (metadata_key akey)) in Hr by (apply (view_not_sidecar METADATA_SUFFIX); suffix_in).
    destruct r as [bytes|e]; [by rewrite Hr|]. destruct (is_not_found e); [|done]. by rewrite Hr.
  - apply holds_ret; [done|]. split; [done|]. apply has_object_false in Hm. unfold metadata_key. by rewrite Hm.
Qed.

(** What is known once a bare body has its sidecar. *)
Definition settled_sidecar (w v : world) (filled : option (option Sidecar)) : Prop :=
  match filled with
  | Some (Some sc) => same_view w v /\ stored v = Some sc
  | Some None => v = w /\ sought w (Some None)
  | None => False
  end.

Lemma holds_fill entry claim fill sc w :
  wf_world w -> entry_key entry = akey -> is_Some (contents (w b) akey) -> sought w (Some sc) ->
  holds (fun _ => True) (fun r v => match r with Ok filled => settled_sidecar w v filled | Err _ => True end)
    (if fill && bool_decide (classify_record (from_listing (has_object (w b) pkg f) sc claim) = Bare) then
       let*? sc := backfill_sidecar rfc3339 b entry f (origin_str <$> claim) in Ret (Ok (Some <$> sc))
     else Ret (Ok (Some sc))) w.
Proof.
  intros Hw Hkey Hbody Hsc. destruct (fill && _) eqn:Hfill.
  - apply andb_true_iff in Hfill as [_ Hbare]. apply bool_decide_eq_true in Hbare.
    pose proof (bare_no_sidecar _ Hbare) as Hnone. cbn in Hnone. subst sc.
    assert (contents (w b) (sidecar_key akey) = None) as Hno.
    { destruct Hsc as [Hs|Hf].
      - by apply has_object_false in Hs.
      - apply bare_not_fenced in Hbare. cbn [tombstoned frozen from_listing] in Hbare. congruence. }
    apply holds_bind_ok. eapply holds_mono; [|by apply holds_backfill]. intros [[sc|]|e] v _; try done.
    intros [Hs Hv]. cbn [fmap option_fmap option_map]. apply holds_ret; [done|]. split; [exact Hv|]. rewrite Hs. apply decode_encode.
  - apply holds_ret; [done|]. destruct sc as [sc|]; [|by split]. by split.
Qed.

Lemma holds_load entry names claim fill memo w :
  wf_world w -> entry_key entry = akey -> is_Some (contents (w b) akey) ->
  (forall suffix, suffix ∈ [] :: companion_suffixes -> bool_decide (f ++ suffix ∈ names) = has_object (w b) pkg f suffix) ->
  memo_true (w b) memo ->
  holds (fun _ => True)
    (fun r v => match r with
                | Ok (file, fr) => file = file_in (v b) pkg claim f /\ fresh_true (w b) memo fr
                | Err _ => True
                end) (load_file_metadata rfc3339 b entry f names claim fill memo) w.
Proof.
  intros Hw Hkey Hbody Hnames [Hknown Hkmeta]. unfold load_file_metadata. rewrite Hkey. cbv zeta.
  assert (forall sc, from_listing (fun suffix => bool_decide (f ++ suffix ∈ names)) sc claim
                     = from_listing (has_object (w b) pkg f) sc claim) as Hrec
    by (intros sc; by apply from_listing_ext).
  rewrite !Hrec. cbn [tombstoned frozen from_listing].
  rewrite (Hnames SIDECAR_SUFFIX), (Hnames METADATA_SUFFIX), (Hnames PROVENANCE_SUFFIX) by suffix_in.
  apply holds_bind_ok. eapply holds_mono; [|by apply holds_sidecar_of].
  intros [found|e] v _ [-> Hfound]; [|done]. destruct found as [sc|].
  2:{ apply holds_ret; [done|]. split; [|by split]. cbn [sought] in Hfound. unfold file_in.
      destruct (contents (w b) (sidecar_key akey)) as [bytes|]; [|done]. cbn [mbind option_bind] in *. by rewrite Hfound. }
  rewrite !Hrec. set (fresh := match sc with Some _ => _ | None => _ end).
  assert (forall etag sc', fresh = Some (etag, sc') -> sc_etag memo = Some etag /\ stored w = Some sc') as Hfresh.
  { intros etag sc' Hf. unfold fresh in Hf. destruct sc as [sc|]; [|done]. destruct (sc_etag memo); [|done]. by simplify_eq. }
  assert (fresh_true (w b) memo (MkFresh fresh None)) as Hft by (by split).
  apply holds_bind_ok. eapply holds_mono; [|by apply holds_fill]. intros [filled|e] v _; [|done].
  destruct filled as [[sc'|]|]; cbn [settled_sidecar]; [|intros [-> Hs]; apply holds_ret; [done|]; split; [|done]; symmetry; by apply file_in_unread|done].
  intros [Hv Hs]. rewrite Hrec. pose proof (file_in_listed w v sc' claim Hv Hs) as Hfile.
  destruct (listed _ claim); cbn [negb]; [|by apply holds_ret].
  apply holds_bind_ok. eapply holds_mono; [|by apply holds_companion_sha]. intros [sha|e] u _ [-> Hsha]; [|done].
  apply holds_ret; [done|]. subst sha. split; [by rewrite Hfile|]. split; [apply Hfresh|].
  intros etag sha Hf. cbn [fresh_metadata] in Hf. destruct (metadata_etag memo); [|done].
  destruct (contents (w b) (metadata_key akey)); [|done]. cbn in Hf |- *. by simplify_eq.
Qed.

(** A load reads and writes its own keys only. *)
Lemma guar_load entry names claim fill memo :
  entry_key entry = akey ->
  guar (own_op b load_key) (fun _ => True) (load_file_metadata rfc3339 b entry f names claim fill memo).
Proof.
  intros Hkey. unfold load_file_metadata, sidecar_of, companion_sha, read_listed_sidecar, read_metadata_sha256,
    backfill_sidecar, retract_fabricated, read_listed_sidecar, stream_sha256. rewrite Hkey.
  walk; (split; [done|]); try (apply Forall_cons; split; [|constructor]); unfold load_key; rewrite !elem_of_cons; auto.
Qed.

End artifact.

(** ** The listing *)

Section listing.
Variables (b : nat) (pkg : str).
Hypothesis pkg_ok : "/"%char ∉ pkg.
Abbreviation prefix := (PACKAGES_PREFIX ++ pkg ++ &"/").

Lemma prefix_akey f : prefix ++ f = artifact_key pkg f.
Proof. unfold artifact_key. by rewrite <- !app_assoc. Qed.

(** A listing token stands for the content it was shown over. *)
Definition shown_for (etag bytes : str) : Prop := exists n, listed_etag (mk_etag n bytes) = Some etag.

Lemma shown_inj etag x y : shown_for etag x -> shown_for etag y -> x = y.
Proof. intros [n Hn] [m Hm]. by eapply listed_content. Qed.

(** A memo whose every entry was read under the token it is filed under. *)
Definition memo_ok (m : PackageSidecars) : Prop :=
  (forall f etag sc, memo_sidecars m !! f = Some (etag, sc) -> exists bytes, shown_for etag bytes /\ decode bytes = Some sc) /\
  (forall f etag sha, memo_metadata m !! f = Some (etag, sha) -> exists bytes, shown_for etag bytes /\ sha = sha256_hex bytes).

(** What a listing of a store says of one of its artifacts. *)
Lemma artifacts_listed (s : store) e f :
  (e, f) ∈ artifacts_in prefix (entry_of <$> list_where (in_dir prefix) s) ->
  valid_names pkg f /\ ("/"%char ∉ f) /\ entry_key e = artifact_key pkg f /\ is_Some (contents s (artifact_key pkg f)).
Proof.
  unfold artifacts_in. rewrite list_elem_of_omap. intros (e' & He' & Hf).
  apply list_elem_of_fmap in He' as ([k o] & -> & Hk). apply elem_of_list_where in Hk as [Hd Ho].
  cbn [fst snd entry_of entry_key] in *. destruct (strip_prefix prefix k) as [name|] eqn:Hs; [|done].
  cbn [mbind option_bind] in Hf.
  destruct (is_artifact name) eqn:Ha; [|done]. simplify_eq.
  pose proof (proj1 (strip_prefix_Some _ _ _) Hs) as ->. rewrite prefix_akey in *. split; [by split|].
  unfold in_dir in Hd. rewrite <- prefix_akey, strip_prefix_app in Hd. apply negb_true_iff in Hd. split.
  - intros Hin. apply contains_byte_true in Hin. congruence.
  - split; [done|]. unfold contents. rewrite Ho. by eexists.
Qed.

(** The filenames of a listing are distinct. *)
Lemma artifact_names_NoDup (s : store) : NoDup (artifact_names s pkg).
Proof.
  unfold artifact_names, artifacts_in. pose proof (listing_NoDup (in_dir prefix) s) as Hnd.
  assert (Forall (fun p => exists n, p.1 = prefix ++ n) (list_where (in_dir prefix) s)) as Hp.
  { apply Forall_forall. intros p [Hd _]%elem_of_list_where. unfold in_dir in Hd.
    destruct (strip_prefix prefix p.1) as [n|] eqn:Hs; [|done]. exists n. by apply strip_prefix_Some. }
  revert Hnd Hp. generalize (list_where (in_dir prefix) s). intros l. induction l as [|[k o] l IH]; intros Hnd Hp; [constructor|].
  cbn [fmap list_fmap] in *. apply NoDup_cons in Hnd as [Hk Hnd]. apply Forall_cons in Hp as [[n Hn] Hp].
  cbn [fst] in Hn. subst k. cbn [omap list_omap entry_of entry_key fst]. rewrite strip_prefix_app. cbn [mbind option_bind].
  specialize (IH Hnd Hp). destruct (is_artifact n); [|exact IH]. cbn [fmap list_fmap snd]. constructor; [|exact IH].
  intros Hin. apply Hk. apply list_elem_of_fmap in Hin as ([e n'] & -> & Hin). cbn [snd].
  apply list_elem_of_omap in Hin as (e' & He' & Hf). apply list_elem_of_fmap in He' as ([k o'] & -> & Hko).
  rewrite Forall_forall in Hp. destruct (Hp _ Hko) as [m Hm]. cbn [fst] in Hm. subst k.
  cbn [entry_of entry_key fst] in Hf. rewrite strip_prefix_app in Hf. cbn [mbind option_bind] in Hf.
  destruct (is_artifact m); simplify_eq. by apply (list_elem_of_fmap_2 fst) in Hko.
Qed.

End listing.

(** ** The loads of a package, a chunk at a time *)

Lemma Forall2_in {A B} (R R' : A -> B -> Prop) l k :
  Forall2 R l k -> (forall x y, x ∈ l -> R x y -> R' x y) -> Forall2 R' l k.
Proof.
  induction 1 as [|x y l k Hxy _ IH]; intros HR; constructor; [apply HR; [by left|done]|].
  apply IH. intros x' y' Hx. apply HR. by right.
Qed.

Lemma omap_same {A B} (g h : A -> option B) (l : list A) : (forall x, x ∈ l -> g x = h x) -> omap g l = omap h l.
Proof.
  induction l as [|x l IH]; intros Hgh; [done|]. cbn [omap list_omap]. rewrite Hgh by (by left).
  rewrite IH; [done|]. intros y Hy. apply Hgh. by right.
Qed.

Section loading.
Variables (b : nat) (pkg : str) (names : list str) (claim : option StatusDoc.Origin) (fill : bool)
  (memo_of : str -> SidecarMemo).
Hypothesis pkg_ok : "/"%char ∉ pkg.
Abbreviation load := (fun a : FileEntry * str => load_file_metadata rfc3339 b a.1 a.2 names claim fill (memo_of a.2)).
Abbreviation ck f := (companion_key (artifact_key pkg f)).

(** Two stores with the same objects of a record. *)
Definition same_record (f : str) (s s' : store) : Prop :=
  forall suffix, suffix ∈ [] :: companion_suffixes -> contents s' (ck f suffix) = contents s (ck f suffix).

(** What a listing and a memo taken of a store say of an artifact in it. *)
Record ready (s : store) (a : FileEntry * str) : Prop := {
  ready_names : valid_names pkg a.2;
  ready_key : entry_key a.1 = artifact_key pkg a.2;
  ready_body : is_Some (contents s (ck a.2 []));
  ready_has : forall suffix, suffix ∈ [] :: companion_suffixes ->
    bool_decide (a.2 ++ suffix ∈ names) = has_object s pkg a.2 suffix;
  ready_memo : memo_true pkg a.2 s (memo_of a.2);
  ready_sidecar_token : forall etag bytes, sc_etag (memo_of a.2) = Some etag ->
    contents s (sidecar_key (artifact_key pkg a.2)) = Some bytes -> shown_for etag bytes;
  ready_metadata_token : forall etag bytes, metadata_etag (memo_of a.2) = Some etag ->
    contents s (metadata_key (artifact_key pkg a.2)) = Some bytes -> shown_for etag bytes
}.

Lemma ck_nil f : ck f [] = artifact_key pkg f.
Proof. unfold companion_key. apply app_nil_r. Qed.

Lemma same_record_has f s s' suffix :
  same_record f s s' -> suffix ∈ [] :: companion_suffixes -> has_object s' pkg f suffix = has_object s pkg f suffix.
Proof. intros Hs Hin. unfold has_object. by rewrite Hs. Qed.

Lemma same_record_sidecar f s s' : same_record f s s' ->
  contents s' (sidecar_key (artifact_key pkg f)) = contents s (sidecar_key (artifact_key pkg f)).
Proof. intros Hs. apply (Hs SIDECAR_SUFFIX). suffix_in. Qed.

Lemma same_record_metadata f s s' : same_record f s s' ->
  contents s' (metadata_key (artifact_key pkg f)) = contents s (metadata_key (artifact_key pkg f)).
Proof. intros Hs. apply (Hs METADATA_SUFFIX). suffix_in. Qed.

Lemma ready_same s s' a : same_record a.2 s s' -> ready s a -> ready s' a.
Proof.
  intros Hs [H1 H2 H3 H4 [Hm1 Hm2] H6 H7].
  pose proof (same_record_sidecar _ _ _ Hs) as Hsc. pose proof (same_record_metadata _ _ _ Hs) as Hmd.
  split; try done.
  - rewrite Hs by suffix_in. done.
  - intros suffix Hin. rewrite (same_record_has a.2 s s') by done. by apply H4.
  - split; [by rewrite Hsc|by rewrite Hmd].
  - by rewrite Hsc.
  - by rewrite Hmd.
Qed.

Lemma file_in_same f s s' : same_record f s s' -> file_in s' pkg claim f = file_in s pkg claim f.
Proof.
  intros Hs. unfold file_in. rewrite (same_record_sidecar f s s'), (same_record_metadata f s s') by done.
  rewrite (same_record_has f s s' PROVENANCE_SUFFIX) by (done || suffix_in).
  destruct (contents s (sidecar_key (artifact_key pkg f))) as [bytes|]; [|done]. cbn [mbind option_bind].
  destruct (decode bytes) as [sc|]; [|done]. cbn [mbind option_bind].
  by rewrite (from_listing_ext (has_object s' pkg f) (has_object s pkg f)) by (intros; by apply same_record_has).
Qed.

Definition load_suffixes : list str := [[]; SIDECAR_SUFFIX; METADATA_SUFFIX].

Lemma load_key_suffix f k : load_key pkg f k <-> exists suffix, suffix ∈ load_suffixes /\ k = ck f suffix.
Proof.
  unfold load_key, load_suffixes. split.
  - intros Hk. rewrite !elem_of_cons in Hk. destruct Hk as [->|[->|[->|[]%elem_of_nil]]];
      [exists []; split; [suffix_in|by rewrite ck_nil]|exists SIDECAR_SUFFIX; split; [suffix_in|done]|
       exists METADATA_SUFFIX; split; [suffix_in|done]].
  - intros (suffix & Hs & ->). rewrite !elem_of_cons in Hs. destruct Hs as [->|[->|[->|[]%elem_of_nil]]];
      rewrite ?ck_nil, !elem_of_cons; auto.
Qed.

Lemma load_suffix_companion s : s ∈ load_suffixes -> s ∈ [] :: companion_suffixes.
Proof.
  assert (Forall (fun s => s ∈ [] :: companion_suffixes) load_suffixes) as Hall by suffix_in.
  rewrite Forall_forall in Hall. apply Hall.
Qed.

Lemma load_key_other f g suffix :
  valid_names pkg f -> valid_names pkg g -> suffix ∈ [] :: companion_suffixes -> load_key pkg f (ck g suffix) ->
  f = g /\ suffix ∈ load_suffixes.
Proof.
  intros Hf Hg Hs (s & Hin & Heq)%load_key_suffix.
  apply key_inj in Heq as (_ & -> & ->); [done|done|done|done|by apply load_suffix_companion].
Qed.

(** The keys of a load, for artifacts only: those of two artifacts are apart. *)
Definition own (f k : str) : Prop := is_artifact f = true /\ load_key pkg f k.

Lemma own_apart f g k : f ≠ g -> own f k -> own g k -> False.
Proof.
  intros Hne [Hf Hk] [Hg Hk']. apply load_key_suffix in Hk' as (s & Hs & ->).
  apply load_key_other in Hk as [-> _]; [done|by split|by split|by apply load_suffix_companion].
Qed.

Definition loaded (u : store) (s : store) (a : FileEntry * str) (r : res (option FileMetadata * Fresh)) : Prop :=
  match r with
  | Ok (file, fr) => file = file_in s pkg claim a.2 /\ fresh_true pkg a.2 u (memo_of a.2) fr
  | Err _ => True
  end.

Definition untouched (c : list (FileEntry * str)) (k : str) : Prop := forall a, a ∈ c -> ~ load_key pkg a.2 k.

Lemma load_avoids c a : a ∈ c -> valid_names pkg a.2 -> entry_key a.1 = artifact_key pkg a.2 ->
  guar (avoids b (untouched c)) (fun _ => True) (load a).
Proof.
  intros Ha Hv Hk. eapply guar_weaken; [|by apply guar_load]. intros c' R o Ho.
  eapply own_avoids; [|exact Ho]. intros k Hk1 Hk2. by apply (Hk2 a).
Qed.

Lemma exec_chunk c sched u rs u' :
  wf_world u -> NoDup c.*2 -> Forall (ready (u b)) c -> exec (join_all sched (load <$> c)) u rs u' ->
  Forall2 (loaded (u b) (u' b)) c rs /\ wf_world u' /\ same_on b (untouched c) u u'.
Proof.
  intros Hu Hnd Hready He.
  assert (wf_world u' /\ same_on b (untouched c) u u') as [Hu' Hsame].
  { eapply exec_frame; [done| |exact He]. apply (guar_join_all _ _ (fun _ => True)). apply Forall_fmap, Forall_forall.
    intros a Ha. rewrite Forall_forall in Hready. destruct (Hready a Ha). by apply load_avoids. }
  split; [|done].
  assert (load <$> c = ((fun a => (a.2, load a)) <$> c).*2) as Hjobs by (rewrite <- list_fmap_compose; by apply list_fmap_ext).
  rewrite Hjobs in He. apply (join_all_own str own b _ (fun _ => True)) in He.
  - rewrite Forall2_fmap_l in He. eapply Forall2_in; [exact He|]. intros a r Ha (v & Hv & Hown). cbn [fst snd] in *.
    rewrite Forall_forall in Hready. destruct (Hready a Ha) as [Hn Hk Hb Hh Hm _ _]. rewrite ck_nil in Hb.
    pose proof (holds_exec _ _ _ _ _ _ _ (holds_load b pkg a.2 Hn a.1 names claim fill (memo_of a.2) u Hu Hk Hb Hh Hm) Hv) as Hr.
    destruct r as [[file fr]|]; [|done]. destruct Hr as [-> Hfr]. split; [|done]. symmetry. apply file_in_same.
    eapply exec_frame in Hv as [_ Hv]; [|done|apply (load_avoids [a]); [by apply list_elem_of_singleton|done|done]].
    intros suffix Hs. destruct (decide (suffix ∈ load_suffixes)) as [Hl|Hl].
    + apply Hown. split; [by destruct Hn|]. apply load_key_suffix. eauto.
    + rewrite Hsame, <- Hv; [done| |]; intros a' Ha' Hlk.
      * apply list_elem_of_singleton in Ha' as ->. by apply load_key_other in Hlk as [_ Hlk].
      * destruct (Hready a' Ha'). by apply load_key_other in Hlk as [_ Hlk].
  - intros f g k. apply own_apart.
  - rewrite <- list_fmap_compose. exact Hnd.
  - apply Forall_fmap, Forall_forall. intros a Ha. rewrite Forall_forall in Hready. destruct (Hready a Ha) as [[Hp Hf] Hk _ _ _ _ _].
    cbn [compose fst snd]. eapply guar_weaken; [|by apply guar_load]. intros c' R o [-> Ho]. split; [done|].
    unfold own. destruct o; try done. eapply Forall_impl; [exact Ho|]. by intros k Hk'.
  - done.
Qed.

Lemma fresh_memo u a m fr :
  ready u a -> fresh_true pkg a.2 u (memo_of a.2) fr -> memo_ok m -> memo_ok (add_fresh m a.2 fr).
Proof.
  intros [_ _ _ _ _ Hst Hmt] [Hs Hm] [Hok1 Hok2]. unfold add_fresh. split; cbn [memo_sidecars memo_metadata].
  - intros f etag sc Hl. destruct (fresh_sidecar fr) as [[e x]|] eqn:Hfr; [|by eapply Hok1].
    apply lookup_insert_Some in Hl as [[_ [= -> ->]]|[_ Hl]]; [|by eapply Hok1].
    destruct (Hs etag sc eq_refl) as [He Hc]. destruct (contents u _) as [bytes|] eqn:Hb; [|done].
    exists bytes. split; [by apply Hst|exact Hc].
  - intros f etag sha Hl. destruct (fresh_metadata fr) as [[e x]|] eqn:Hfr; [|by eapply Hok2].
    apply lookup_insert_Some in Hl as [[_ [= -> ->]]|[_ Hl]]; [|by eapply Hok2].
    destruct (Hm etag sha eq_refl) as [He Hc]. destruct (contents u (metadata_key _)) as [bytes|] eqn:Hb; [|done].
    exists bytes. split; [by apply Hmt|]. cbn in Hc. congruence.
Qed.

Lemma collect_loaded u s c rs st st' :
  Forall2 (loaded u s) c rs -> Forall (ready u) c -> memo_ok st.2 -> collect c.*2 rs st = Ok st' ->
  st'.1 = st.1 ++ omap (file_in s pkg claim) c.*2 /\ memo_ok st'.2.
Proof.
  intros Hrs. revert st. induction Hrs as [|a r c rs Hr _ IH]; intros st Hready Hm Hc; cbn [fmap list_fmap collect] in Hc.
  { injection Hc as <-. by rewrite app_nil_r. }
  apply Forall_cons in Hready as [Ha Hready]. destruct r as [[file fr]|e]; [|done]. destruct Hr as [-> Hfr].
  apply IH in Hc as [-> Hm']; [|done|by eapply fresh_memo]. split; [|done]. cbn [fst]. rewrite <- app_assoc. f_equal.
  cbn [fmap list_fmap omap list_omap]. by destruct (file_in s pkg claim a.2).
Qed.

(** The objects of a record that no load of [c] belongs to. *)
Lemma untouched_record c f u u' :
  valid_names pkg f -> Forall (fun a => valid_names pkg a.2) c -> f ∉ c.*2 -> same_on b (untouched c) u u' ->
  same_record f (u b) (u' b).
Proof.
  intros Hf Hc Hin Hs suffix Hsuf. apply Hs. intros a Ha Hk. rewrite Forall_forall in Hc.
  apply load_key_other in Hk as [<- _]; [|by apply Hc|done|done]. apply Hin. by apply list_elem_of_fmap_2.
Qed.

Lemma exec_chunks cs sched st u st' u' :
  wf_world u -> NoDup (concat cs).*2 -> Forall (ready (u b)) (concat cs) -> memo_ok st.2 ->
  exec (load_chunks load sched cs st) u (Ok st') u' ->
  st'.1 = st.1 ++ omap (file_in (u' b) pkg claim) (concat cs).*2 /\ memo_ok st'.2 /\ wf_world u'
  /\ same_on b (untouched (concat cs)) u u'.
Proof.
  revert sched st u. induction cs as [|c cs IH]; intros sched st u Hu Hnd Hready Hm He; cbn [load_chunks concat] in *.
  { destruct He as [[= <-] ->]. split; [by rewrite app_nil_r|]. split; [done|]. split; [done|apply same_on_refl]. }
  apply exec_bind in He as (rs & u1 & Hc & He). rewrite fmap_app in Hnd. apply NoDup_app in Hnd as (Hnd1 & Hdis & Hnd2).
  apply Forall_app in Hready as [Hr1 Hr2]. apply exec_chunk in Hc as (Hrs & Hu1 & Hs1); [|done..].
  destruct (collect c.*2 rs st) as [st1|e] eqn:Hcol; [|by destruct He].
  eapply collect_loaded in Hcol as [Hst1 Hm1]; [|done..].
  assert (forall l, Forall (ready (u b)) l -> Forall (fun a => valid_names pkg a.2) l) as Hvalid
    by (intros l Hl; eapply Forall_impl; [exact Hl|]; by intros a []).
  apply IH in He as (Hst & Hm' & Hu' & Hs'); [|done|done| |done].
  - split; [|split; [done|split; [done|]]].
    + rewrite Hst, Hst1, fmap_app, omap_app, <- app_assoc. f_equal. f_equal. apply omap_same. intros f Hf.
      symmetry. apply file_in_same.
      assert (valid_names pkg f) as Hv.
      { apply list_elem_of_fmap in Hf as (a & -> & Ha). pose proof (Hvalid _ Hr1) as Hva. rewrite Forall_forall in Hva. by apply Hva. }
      eapply untouched_record; [done|by apply Hvalid| |exact Hs']. intros Hin. by eapply Hdis.
    + intros k Hk. rewrite Hs', Hs1; [done| |]; intros a Ha; apply Hk, elem_of_app; auto.
  - apply Forall_forall. intros a Ha. rewrite Forall_forall in Hr2. eapply ready_same; [|by apply Hr2].
    eapply untouched_record; [by destruct (Hr2 a Ha)|by apply Hvalid| |exact Hs1]. intros Hin. eapply Hdis; [done|].
    by apply list_elem_of_fmap_2.
Qed.

End loading.

(** ** A whole listing *)

Section package.
Variables (b : nat) (pkg : str).
Hypothesis pkg_ok : "/"%char ∉ pkg.
Abbreviation prefix := (PACKAGES_PREFIX ++ pkg ++ &"/").
Abbreviation listing s := (entry_of <$> list_where (in_dir prefix) s).
Abbreviation ck f := (companion_key (artifact_key pkg f)).

Lemma chunks_of_concat {A} fuel n (l : list A) :
  (0 < n)%nat -> (length l <= fuel)%nat -> concat (chunks_of fuel n l) = l.
Proof.
  intros Hn. revert l. induction fuel as [|fuel IH]; intros l Hl; destruct l as [|x l]; try done; [simpl in Hl; lia|].
  cbn [chunks_of concat]. rewrite IH; [apply take_drop|]. rewrite length_drop. cbn [length] in *. lia.
Qed.

(** A token of a listing was shown over the stored content. *)
Lemma token_shown (s : store) suffix f etag :
  wf_store s -> etags_in prefix suffix (listing s) !! f = Some etag ->
  exists bytes, contents s (ck f suffix) = Some bytes /\ shown_for etag bytes.
Proof.
  intros Hs Hl. unfold etags_in in Hl. apply elem_of_list_to_map_2 in Hl. apply list_elem_of_omap in Hl as (e & He & Hf).
  rewrite elem_of_reverse in He. apply list_elem_of_fmap in He as ([k o] & -> & Hk). apply elem_of_list_where in Hk as [_ Ho].
  cbn [fst snd entry_of entry_key entry_etag] in *. destruct (strip_prefix prefix k) as [name|] eqn:Hp; [|done].
  cbn [mbind option_bind] in Hf. destruct (strip_suffix suffix name) as [g|] eqn:Hx; [|done]. cbn [mbind option_bind] in Hf.
  destruct (listed_etag (obj_etag o)) as [t|] eqn:Ht; [|done]. cbn [mbind option_bind] in Hf. simplify_eq.
  apply strip_prefix_Some in Hp as ->. apply strip_suffix_Some in Hx as ->. rewrite companion_key_artifact, <- prefix_akey.
  exists (obj_bytes o). unfold contents. rewrite Ho. split; [done|]. destruct (Hs _ _ Ho) as [n Hn]. exists n. congruence.
Qed.

Lemma listed_ready (s : store) memo a :
  wf_store s -> memo_ok memo -> a ∈ artifacts_in prefix (listing s) ->
  ready pkg (names_under prefix (listing s))
    (file_memo memo (etags_in prefix SIDECAR_SUFFIX (listing s)) (etags_in prefix METADATA_SUFFIX (listing s))) s a.
Proof.
  intros Hs [Hok1 Hok2] Ha. destruct a as [e f]. apply artifacts_listed in Ha as (Hn & Hslash & Hk & Hb); [|done].
  assert (forall suffix etag bytes, etags_in prefix suffix (listing s) !! f = Some etag ->
    contents s (ck f suffix) = Some bytes -> shown_for etag bytes) as Htok.
  { intros suffix etag bytes Ht Hc. destruct (token_shown s suffix f etag Hs Ht) as (bytes' & Hc' & Hshown). congruence. }
  split; cbn [fst snd]; try done.
  - by rewrite ck_nil.
  - intros suffix Hsuf. unfold has_object. apply bool_decide_ext. rewrite names_listing.
    + by rewrite prefix_akey, companion_key_artifact.
    + rewrite elem_of_app. intros [?|Hin]; [done|]. revert Hsuf Hin. clear.
      intros Hsuf Hin. assert (Forall (fun x => "/"%char ∉ x) ([] :: companion_suffixes)) as Hall by suffix_in.
      rewrite Forall_forall in Hall. by apply (Hall suffix).
  - split; unfold file_memo; cbn [sc_known known_metadata].
    + intros sc Hkn. destruct (etags_in prefix SIDECAR_SUFFIX (listing s) !! f) as [etag|] eqn:Ht; [|done].
      cbn [mbind option_bind] in Hkn. destruct (memo_sidecars memo !! f) as [[seen x]|] eqn:Hm; [|done].
      cbn [mbind option_bind fst snd] in Hkn. case_decide; [|done]. simplify_eq.
      destruct (Hok1 _ _ _ Hm) as (bytes & Hsh & Hd). destruct (token_shown s SIDECAR_SUFFIX f etag Hs Ht) as (bytes' & Hc & Hsh').
      rewrite (shown_inj etag bytes' bytes) in Hc by done. unfold sidecar_key. by rewrite Hc.
    + intros sha Hkn. destruct (etags_in prefix METADATA_SUFFIX (listing s) !! f) as [etag|] eqn:Ht; [|done].
      cbn [mbind option_bind] in Hkn. destruct (memo_metadata memo !! f) as [[seen x]|] eqn:Hm; [|done].
      cbn [mbind option_bind fst snd] in Hkn. case_decide; [|done]. simplify_eq.
      destruct (Hok2 _ _ _ Hm) as (bytes & Hsh & ->). destruct (token_shown s METADATA_SUFFIX f etag Hs Ht) as (bytes' & Hc & Hsh').
      rewrite (shown_inj etag bytes' bytes) in Hc by done. unfold metadata_key. by rewrite Hc.
  - intros etag bytes Ht. apply (Htok SIDECAR_SUFFIX). exact Ht.
  - intros etag bytes Ht. apply (Htok METADATA_SUFFIX). exact Ht.
Qed.

(** The artifacts of a store are those under an artifact's key, in order. *)
Lemma elem_of_artifact_names s f :
  f ∈ artifact_names s pkg <-> is_artifact f = true /\ ("/"%char ∉ f) /\ present s (artifact_key pkg f).
Proof.
  unfold artifact_names. rewrite list_elem_of_fmap. split.
  - intros ([e g] & -> & Hin). apply artifacts_listed in Hin as ([_ Ha] & Hs & _ & Hp); [by split_and!|done].
  - intros (Ha & Hs & Hp). rewrite <- prefix_akey in Hp. apply (names_listing prefix f s Hs) in Hp.
    unfold names_under in Hp. apply list_elem_of_omap in Hp as (e & He & Hf). exists (e, f). split; [done|].
    unfold artifacts_in. apply list_elem_of_omap. exists e. rewrite Hf. cbn [mbind option_bind]. by rewrite Ha.
Qed.

Lemma cmp_app_prefix (p x y : str) : cmp (p ++ x) (p ++ y) = cmp x y.
Proof. induction p as [|c p IH]; [done|]. cbn [app]. cbn [cmp list_Ord list_cmp]. by rewrite cmp_refl. Qed.

Lemma artifact_names_sorted s : StronglySorted str_le (artifact_names s pkg).
Proof.
  unfold artifact_names, artifacts_in.
  assert (StronglySorted key_le (list_where (in_dir prefix) s)) as Hst by apply listing_sorted.
  induction Hst as [|[k o] l _ IH Hall]; [constructor|]. cbn [fmap list_fmap omap list_omap].
  destruct (strip_prefix prefix (entry_key (entry_of (k, o)))) as [n|] eqn:Hn; [|exact IH]. cbn [mbind option_bind].
  destruct (is_artifact n); [|exact IH]. cbn [fmap list_fmap snd]. constructor; [exact IH|].
  apply Forall_forall. intros m Hm. apply list_elem_of_fmap in Hm as ([e m'] & -> & Hm). apply list_elem_of_omap in Hm as (e' & He' & Hf).
  apply list_elem_of_fmap in He' as ([k' o'] & -> & Hk'). rewrite Forall_forall in Hall. specialize (Hall _ Hk').
  cbn [fst snd entry_of entry_key] in *. destruct (strip_prefix prefix k') as [m|] eqn:Hm; [|done]. cbn [mbind option_bind] in Hf.
  destruct (is_artifact m); simplify_eq. apply strip_prefix_Some in Hn as ->, Hm as ->. unfold key_le in Hall. cbn [fst] in Hall.
  unfold str_le. revert Hall. unfold leb. by rewrite cmp_app_prefix.
Qed.

End package.

End files.
End Rebuild.
