(* ===== verification/Pages.v ===== *)
(** * The pages a rebuild leaves

    A rebuild that answers has stored the rendering of exactly the records the
    bucket then shows, under the claim and the status it then holds. *)
From stdpp Require Import functions.
From S2P Require Import Prelude RustStr Pep440 Names Documents Hash Decide Storage Origin Status Markers Replicate Artifact Execute Footprint Preserve Claims Fanout Denylist Render Jobs Index Rebuild.
Import Names Sidecar Decide Storage Origin Hash Markers Replicate Artifact Execute Footprint Claims Fanout Denylist
  Render Jobs Index Rebuild.

Module Pages.

Ltac suffix_in := apply (bool_decide_unpack _); vm_compute; exact I.

Section pages.
Context {D : Digest} {T : Chunking} `{ClaimCodec} {JS : Codec Sidecar} {JF : Codec FilenameBody}
  {JD : Codec StatusDoc.StoredProjectStatus} {JP : Codec Pep691PkgIndex} {X : HtmlEscape} {P : Pep440} {E : Etags}.
Variable rfc3339 : Z -> str.

(** ** What a bucket's truth says *)

(** The claim a bucket holds, where it is readable. *)
Definition claim_in (s : store) (pkg : str) : option StatusDoc.Origin :=
  let! bytes := contents s (origin_key pkg) in
  match decode_claim bytes with Ok st => origin_of_state st | Err _ => None end.

(** The status a bucket holds: the default where there is none. *)
Definition status_in (s : store) (pkg : str) : option StatusDoc.ProjectStatusDoc :=
  match contents s (Status.status_key pkg) with
  | Some bytes => match Status.decode_status bytes with Ok e => Some (StatusDoc.stored_doc e) | Err _ => None end
  | None => Some StatusDoc.status_doc_default
  end.

(** Two stores with the same objects under [packages/]. *)
Definition same_packages (s s' : store) : Prop :=
  forall k, starts_with PACKAGES_PREFIX k = true -> contents s' k = contents s k.

Section truth.
Variable pkg : str.
Hypothesis pkg_ok : "/"%char ∉ pkg.

Lemma under_packages x : starts_with PACKAGES_PREFIX (PACKAGES_PREFIX ++ x) = true.
Proof. apply starts_with_true. by exists x. Qed.

Lemma under_companion f s : starts_with PACKAGES_PREFIX (companion_key (artifact_key pkg f) s) = true.
Proof. rewrite companion_key_artifact. unfold artifact_key. apply under_packages. Qed.

Lemma artifact_names_present s s' :
  (forall f, is_artifact f = true -> present s' (artifact_key pkg f) <-> present s (artifact_key pkg f)) ->
  artifact_names s' pkg = artifact_names s pkg.
Proof.
  intros Hp. apply sorted_unique; try apply artifact_names_sorted; try apply artifact_names_NoDup.
  intros f. rewrite !elem_of_artifact_names by done. split; intros (Ha & Hs & Hf); split_and!; try done; by apply Hp.
Qed.

Lemma artifact_names_same s s' : same_packages s s' -> artifact_names s' pkg = artifact_names s pkg.
Proof.
  intros Hs. apply artifact_names_present. intros f _. unfold present. rewrite Hs; [done|].
  rewrite <- (ck_nil pkg). apply under_companion.
Qed.

Lemma files_in_same claim s s' : same_packages s s' -> files_in s' pkg claim = files_in s pkg claim.
Proof.
  intros Hs. unfold files_in. rewrite (artifact_names_same s s') by done. apply omap_same. intros f _.
  apply file_in_same. intros suffix _. apply Hs, under_companion.
Qed.

Lemma claim_in_same s s' : contents s' (origin_key pkg) = contents s (origin_key pkg) -> claim_in s' pkg = claim_in s pkg.
Proof. intros Hs. unfold claim_in. by rewrite Hs. Qed.

Lemma status_in_same s s' : same_packages s s' -> status_in s' pkg = status_in s pkg.
Proof. intros Hs. unfold status_in. rewrite Hs; [done|]. unfold Status.status_key. apply under_packages. Qed.

End truth.
(** ** Executions that answer *)

Lemma exec_read_claim b pkg w c w' :
  exec (read_origin_claim b pkg) w (Ok c) w' -> w' = w /\ c ≫= origin_of_state = claim_in (w b) pkg.
Proof.
  intros (r & w1 & Hc & [Hr ->])%exec_bind. apply exec_read_call in Hc as [-> Hs]; [|done]. split; [done|].
  unfold claim_in. destruct r as [bytes|e].
  - rewrite (get_bytes_answer _ _ _ _ _ Hs eq_refl). cbn [mbind option_bind]. destruct (decode_claim bytes); by simplify_eq/=.
  - destruct (is_not_found e) eqn:He; [|done]. apply bool_decide_eq_true in He as ->. simplify_eq/=.
    by rewrite (get_bytes_not_found _ _ _ _ Hs eq_refl).
Qed.

Lemma exec_read_status b pkg w d w' :
  exec (Status.read_status b pkg) w (Ok d) w' -> w' = w /\ status_in (w b) pkg = Some d.
Proof.
  intros (r & w1 & Hc & [Hr ->])%exec_bind. apply exec_read_call in Hc as [-> Hs]; [|done]. split; [done|].
  unfold status_in. destruct r as [bytes|e].
  - rewrite (get_bytes_answer _ _ _ _ _ Hs eq_refl). destruct (Status.decode_status bytes); by simplify_eq/=.
  - destruct (is_not_found e) eqn:He; [|done]. apply bool_decide_eq_true in He as ->. simplify_eq/=.
    by rewrite (get_bytes_not_found _ _ _ _ Hs eq_refl).
Qed.

Lemma exec_holds A (Q : A -> world -> Prop) (p : prog A) w :
  (forall a w', exec p w a w' -> Q a w') -> holds (fun _ => True) Q p w.
Proof.
  revert w. induction p as [a|R c o k IH]; intros w HQ; (split; [done|]); [by apply HQ|].
  intros r s Hs. apply IH. intros a w' He. apply HQ. by exists r, s.
Qed.

Lemma companion_apart key suffix : suffix ≠ [] -> companion_key key suffix ≠ key.
Proof.
  intros Hs Heq. apply (f_equal length) in Heq. unfold companion_key in Heq. rewrite length_app in Heq.
  destruct suffix; [done|]. cbn [length] in Heq. lia.
Qed.

Lemma holds_reading A B I (Q : B -> world -> Prop) (p : prog A) (k : A -> prog B) w :
  I w -> guar reads (fun _ => True) p -> wf_world w -> (forall a, exec p w a w -> holds I Q (k a) w) ->
  holds I Q (pbind p k) w.
Proof.
  intros HI Hp Hw. revert k. induction p as [a|R c o k' IH]; intros k Hk; [by apply Hk|].
  destruct Hp as [Ho Hp]. split; [done|]. intros r s Hs. pose proof (op_step_read _ _ _ _ _ Ho Hs) as ->.
  rewrite fn_insert_id. apply IH.
  - apply Hp. eapply op_step_sound; [apply Hw|done].
  - intros a He. apply Hk. exists r, (w c). split; [done|]. by rewrite fn_insert_id.
Qed.

Lemma exec_observation b pkg' w o w' :
  exec (read_origin_observation b pkg') w (Ok o) w' ->
  w' = w /\ match o with
            | Some obs => claim_in (w b) pkg' = origin_of_state (state obs)
            | None => contents (w b) (origin_key pkg') = None
            end.
Proof.
  intros (r & w1 & Hc & [Heq ->])%exec_ok. apply exec_read_call in Hc as [-> Hs]; [|done]. split; [done|].
  pose proof (get_with_etag_answer _ _ _ _ _ Hs eq_refl) as Hr. unfold claim_in.
  destruct r as [[bytes etag]|]; cbn [fmap option_fmap option_map fst] in Hr; [|by injection Heq as ->].
  rewrite <- Hr. cbn [mbind option_bind]. destruct (decode_claim bytes) as [st|]; [|done]. by injection Heq as ->.
Qed.

Lemma reads_observation b pkg : guar reads (fun _ => True) (read_origin_observation b pkg).
Proof. unfold read_origin_observation. by apply guar_call_ok. Qed.

(** ** Finishing what was interrupted *)

(** What finishing a supersede writes: sidecars and intents. *)
Definition finish_key (k : str) : Prop := exists x, k = sidecar_key x \/ k = superseding_key x.

Definition intents_only (st : nat * list Answered) : Prop := Forall (fun a => finish_key (a_marker a)) st.2.
Abbreviation on_ok J := (fun r => match r with Ok st => J st | Err _ => True end).

Lemma touch_finish_one b now grace st e :
  intents_only st -> guar (touches (fun _ => finish_key)) (on_ok intents_only) (finish_one b now grace st e).
Proof.
  intros Hst. unfold finish_one. cbv zeta.
  destruct (strip_suffix SUPERSEDING_SUFFIX (entry_key e)) as [akey|] eqn:Hk; [|done].
  apply strip_suffix_Some in Hk.
  eapply guar_bind_ok; [apply touch_optional|intros [bytes|] _; [|done]|done].
  apply guar_ret_bind; [intros intended _|done].
  do 2 (apply guar_call_ok; [by intros k []|intros ? _|done]).
  eapply (guar_bind_ok _ _ _ (fun _ => True)); [|intros sha _|done].
  { case_match; [done|]. eapply (guar_bind _ _ _ (fun _ => True)); [apply touch_stream_sha256|done]. }
  eapply (guar_bind_ok _ _ _ (fun _ => True)); [|intros finished _|done].
  { case_match; [|done]. eapply (guar_bind_ok _ _ _ (fun _ => True)); [|done|done]. apply touch_install_sidecar.
    exists akey. by left. }
  repeat case_match; try done. apply Forall_app. split; [done|]. apply Forall_singleton. exists akey. by right.
Qed.

Lemma touch_finish b pkg entries grace :
  guar (touches (fun _ => finish_key)) (fun _ => True) (finish_interrupted_supersedes b pkg entries grace).
Proof.
  unfold finish_interrupted_supersedes. apply guar_call_bind; [by intros k []|]. intros now _.
  eapply guar_bind_ok; [eapply (Preserve.Preserve.guar_pfor _ _ _ (fun _ => True) intents_only); [by apply Forall_true|constructor|]| |done].
  { intros e st _ Hst. by apply touch_finish_one. }
  intros [n answered] Hans. cbn [snd fst]. destruct answered as [|a l] eqn:Hl; [done|]. rewrite <- Hl in *.
  apply guar_call_ok; [by intros k []|intros relisted _|done].
  destruct (a_marker <$> List.filter (unchanged relisted) answered) as [|k ks] eqn:Hk; [done|].
  rewrite <- Hk. apply guar_call_ok; [|done|done]. intros k' (x & -> & Hx)%list_elem_of_fmap.
  apply list_elem_of_In, filter_In in Hx as [Hx _]. unfold intents_only in Hans. rewrite Forall_forall in Hans.
  by apply Hans, list_elem_of_In.
Qed.

(** The claim's slot ends like neither. *)
Lemma claim_not_finished pkg : ~ finish_key (origin_key pkg).
Proof.
  intros [x [Hx|Hx]]; apply (f_equal (fun l => take 2 (reverse l))) in Hx; revert Hx;
    unfold origin_key, sidecar_key, superseding_key, companion_key; rewrite !app_assoc, !reverse_app; by intros [=].
Qed.

Lemma suffix_of_segment (p f x s : str) : "/"%char ∉ s -> p ++ &"/" ++ f = x ++ s -> exists y, f = y ++ s.
Proof.
  intros Hs Heq. change (&"/") with ["/"%char] in Heq. cbn [app] in Heq.
  apply app_eq_inv in Heq as [(k & _ & ->)|([|c k] & _ & Heq)].
  - by rewrite elem_of_app, elem_of_cons in Hs; destruct Hs; right; left.
  - cbn [app] in Heq. subst s. by destruct Hs; left.
  - injection Heq as _ ->. by exists k.
Qed.

Lemma body_not_finished pkg f : is_artifact f = true -> ~ finish_key (artifact_key pkg f).
Proof.
  intros Hf [x Hx].
  assert (exists s, s ∈ companion_suffixes /\ artifact_key pkg f = x ++ s) as (s & Hs & Heq)
    by (destruct Hx; eexists; (split; [|done]); suffix_in).
  unfold artifact_key in Heq. rewrite app_assoc in Heq. apply suffix_of_segment in Heq as [y ->].
  - apply (is_artifact_no_suffix _ s y) in Hf; [by apply Hf|done].
  - apply no_slash_suffix. by right.
Qed.

(** What a rebuild's reading part leaves as it was. *)
Definition steady (k : str) : Prop := ~ finish_key k.

Lemma finish_avoids A (Q : A -> Prop) b (p : prog A) :
  guar (touches (fun _ => finish_key)) Q p -> guar (avoids b steady) Q p.
Proof. apply Preserve.Preserve.guar_avoids. by intros k Hk Hs. Qed.

Lemma touch_load b entry f names claim fill memo :
  guar (touches (fun _ => finish_key)) (fun _ => True) (load_file_metadata rfc3339 b entry f names claim fill memo).
Proof.
  unfold load_file_metadata, sidecar_of, companion_sha, read_listed_sidecar, read_metadata_sha256,
    backfill_sidecar, retract_fabricated, read_listed_sidecar, stream_sha256.
  walk; intros k Hk; cbn [names_key] in Hk; rewrite ?list_elem_of_singleton in Hk; subst k; eexists; by left.
Qed.

Lemma touch_chunks b sched names claim fill memo_of cs st :
  guar (touches (fun _ => finish_key)) (fun _ => True)
    (load_chunks (fun a => load_file_metadata rfc3339 b a.1 a.2 names claim fill (memo_of a.2)) sched cs st).
Proof.
  revert sched st. induction cs as [|c cs IH]; intros sched st; [done|]. cbn [load_chunks].
  eapply (guar_bind _ _ _ (fun _ => True)).
  - eapply guar_mono; [|apply (guar_join_all _ _ (fun _ => True)); apply Forall_fmap, Forall_forall; intros a _; apply touch_load].
    done.
  - intros rs _. destruct (collect _ _ _); [apply IH|done].
Qed.

Section package.
Variables (b : nat) (pkg : str).
Hypothesis pkg_ok : "/"%char ∉ pkg.

Lemma steady_truth (w w' : world) : same_on b steady w w' ->
  claim_in (w' b) pkg = claim_in (w b) pkg /\ artifact_names (w' b) pkg = artifact_names (w b) pkg.
Proof.
  intros Hs. split.
  - apply claim_in_same, Hs, claim_not_finished.
  - apply artifact_names_present; [done|]. intros f Hf. unfold present. by rewrite Hs by (by apply body_not_finished).
Qed.

(** The entries a rebuild goes on with are the bucket's listing then. *)
Lemma exec_finish_marked authoring w entries w' :
  wf_world w -> exec (finish_marked b pkg authoring (entry_of <$> list_where (in_dir (PACKAGES_PREFIX ++ pkg ++ &"/")) (w b))) w
    (Ok entries) w' ->
  entries = entry_of <$> list_where (in_dir (PACKAGES_PREFIX ++ pkg ++ &"/")) (w' b) /\ wf_world w' /\ same_on b steady w w'.
Proof.
  intros Hw He. unfold finish_marked in He.
  destruct authoring as [grace|]; [|apply exec_answer in He as [-> ->]; split_and!; [done|done|apply same_on_refl]].
  destruct (List.filter _ _) as [|m ms]; [apply exec_answer in He as [-> ->]; split_and!; [done|done|apply same_on_refl]|].
  apply exec_ok in He as (n & w1 & Hf & He). apply exec_read_call in He as [-> Hs]; [|done].
  eapply exec_frame in Hf as [Hw1 Hsame]; [|done|apply finish_avoids, touch_finish].
  split; [|done]. by eapply list_dir_answer.
Qed.

(** What a rebuild reads is what the bucket shows when it has read it. *)
Lemma exec_list_artifacts memo sched authoring w fs raw fresh w' :
  wf_world w -> memo_ok memo ->
  exec (list_artifacts_for_claim rfc3339 b memo sched pkg authoring) w (Ok (fs, raw, fresh)) w' ->
  fs = files_in (w' b) pkg (claim_in (w' b) pkg) /\ raw.*1 = artifact_names (w' b) pkg /\ memo_ok fresh
  /\ wf_world w' /\ same_on b steady w w'.
Proof.
  intros Hw Hm He. unfold list_artifacts_for_claim in He. cbv zeta in He.
  apply exec_ok in He as (c & w1 & Hc & He). apply exec_read_claim in Hc as [-> Hclaim]. rewrite Hclaim in He.
  apply exec_ok in He as (listed & w1 & Hl & He). apply exec_read_call in Hl as [-> Hl]; [|done].
  pose proof (list_dir_answer _ _ _ _ _ Hl eq_refl) as ->.
  apply exec_ok in He as (entries & u & Hf & He). apply exec_finish_marked in Hf as (-> & Hu & Hs1); [|done].
  set (l := artifacts_in (PACKAGES_PREFIX ++ pkg ++ &"/") (entry_of <$> list_where (in_dir (PACKAGES_PREFIX ++ pkg ++ &"/")) (u b))) in *.
  apply exec_ok in He as (st & u' & Hch & He). apply exec_answer in He as [Heq ->]. apply pair_eq in Heq as [[-> ->]%pair_eq ->].
  pose proof Hch as Hframe. eapply exec_frame in Hframe as [_ Hs2]; [|done|apply finish_avoids, touch_chunks].
  pose proof (same_on_trans _ _ _ _ _ Hs1 Hs2) as Hs. destruct (steady_truth _ _ Hs) as [Hcl _].
  destruct (steady_truth _ _ Hs2) as [_ Hnames]. rewrite Hcl.
  assert (concat (chunks_of (length l) SIDECAR_READ_CONCURRENCY l) = l) as Hconcat by (apply chunks_of_concat; [unfold SIDECAR_READ_CONCURRENCY; lia|lia]).
  eapply (exec_chunks rfc3339 b pkg) in Hch as (Hst & Hfresh & Hw' & _); try done.
  - rewrite Hconcat in Hst. split_and!; try done.
    + rewrite Hst. unfold files_in. by rewrite Hnames.
    + rewrite Hnames, <- list_fmap_compose. done.
  - rewrite Hconcat. apply artifact_names_NoDup.
  - rewrite Hconcat. apply Forall_forall. intros a Ha. by apply listed_ready.
Qed.

End package.

(** ** The pages *)

(** The files a page shows, of those visible: none while the status blocks
    downloads; of a mirror's with blocking armed, those no blocking advisory
    covers, or all of them where the claim was [unread] at that moment; else all. *)
Definition page_files (cfg : IndexConfig) (unread : Prop) (pkg : str) (claim : option StatusDoc.Origin)
    (status : StatusDoc.ProjectStatusDoc) (shown fs : list FileMetadata) : Prop :=
  if StatusDoc.blocks_downloads (StatusDoc.status status) then fs = [] else
  match malware cfg, claim with
  | Some covers, Some StatusDoc.Mirror =>
    fs = List.filter (fun f => negb (covers pkg (infer_version_from_filename (fm_filename f)))) shown
    \/ unread /\ fs = shown
  | _, _ => fs = shown
  end.

(** What the bucket's pages of a package say of it. *)
Definition pages_true (cfg : IndexConfig) (unread : Prop) (s : store) (pkg : str) (omit : option str) : Prop :=
  let claim := claim_in s pkg in
  let shown := visible cfg pkg omit (files_in s pkg claim) in
  match shown with
  | [] => contents s (html_key pkg) = None /\ contents s (json_key pkg) = None
  | _ => exists status fs, status_in s pkg = Some status /\ page_files cfg unread pkg claim status shown fs
      /\ contents s (html_key pkg) = Some (pep503_project_html pkg fs status)
      /\ contents s (json_key pkg) = Some (pep691_project_json pkg fs status)
  end.

Lemma page_files_weaken cfg (unread unread' : Prop) pkg claim status shown fs :
  (unread -> unread') -> page_files cfg unread pkg claim status shown fs -> page_files cfg unread' pkg claim status shown fs.
Proof. unfold page_files. intros Hu. repeat case_match; naive_solver. Qed.

Lemma pages_true_weaken cfg (unread unread' : Prop) s pkg omit :
  (unread -> unread') -> pages_true cfg unread s pkg omit -> pages_true cfg unread' s pkg omit.
Proof.
  intros Hu. unfold pages_true. cbv zeta. destruct (visible _ _ _ _); [done|]. intros (status & fs & Hs & Hf & Hp).
  exists status, fs. split; [done|]. split; [|done]. by eapply page_files_weaken.
Qed.

(** A read of the claim of [pkg], among the operations of a run, that failed. *)
Definition claim_unread (pkg : str) (log : list event) : Prop :=
  exists b e, MkEvent _ b (GetBytes (origin_key pkg)) (Err e) ∈ log /\ is_not_found e = false.

Lemma claim_unread_mono pkg l l' : l ⊆ l' -> claim_unread pkg l -> claim_unread pkg l'.
Proof. intros Hl (b & e & Hin & He). exists b, e. split; [by apply Hl|done]. Qed.

Lemma pages_true_same cfg unread s s' pkg omit :
  "/"%char ∉ pkg -> same_packages s s' ->
  contents s' (html_key pkg) = contents s (html_key pkg) -> contents s' (json_key pkg) = contents s (json_key pkg) ->
  pages_true cfg unread s pkg omit -> pages_true cfg unread s' pkg omit.
Proof.
  intros Hp Hs Hh Hj. unfold pages_true. rewrite Hh, Hj, (status_in_same pkg s s'), (files_in_same pkg Hp _ s s') by done.
  rewrite (claim_in_same pkg s s'); [done|]. apply Hs. unfold origin_key. apply under_packages.
Qed.

Lemma exec_put_if_changed b key bytes w w' :
  wf_world w -> exec (put_if_changed b key bytes) w (Ok tt) w' ->
  contents (w' b) key = Some bytes /\ wf_world w' /\ same_on b (fun k => k ≠ key) w w'.
Proof.
  intros Hw He. apply exec_bind in He as (r & w1 & Hg & He). apply exec_read_call in Hg as [-> Hg]; [|done].
  case_bool_decide as Hr.
  - destruct He as [_ ->]. split_and!; [by eapply get_bytes_answer|done|apply same_on_refl].
  - apply exec_call in He as (s & Hs & ->). rewrite fn_lookup_insert. split_and!.
    + by eapply put_bytes_answer.
    + by eapply wf_step.
    + intros k Hk. rewrite fn_lookup_insert. eapply op_step_frame; [apply Hw|exact Hs|]. by intros <-.
Qed.

Lemma page_not_package b (w w' : world) key :
  starts_with PACKAGES_PREFIX key = false -> same_on b (fun k => k ≠ key) w w' -> same_packages (w b) (w' b).
Proof. intros Hk Hs k Hp. apply Hs. intros ->. congruence. Qed.

Lemma pages_apart pkg : html_key pkg ≠ json_key pkg.
Proof.
  intros Heq. apply (f_equal (fun l => take 1 (reverse l))) in Heq. revert Heq. unfold html_key, json_key.
  rewrite !app_assoc, !reverse_app. by intros [=].
Qed.

Lemma read_claim_same b pkg w r w' : exec (read_origin_claim b pkg) w r w' -> w' = w.
Proof. intros (r' & w1 & Hc & [_ ->])%exec_bind. by apply exec_read_call in Hc as [-> _]. Qed.

Lemma filter_none_blocked {A} (blocked : A -> bool) l : existsb blocked l = false -> List.filter (fun f => negb (blocked f)) l = l.
Proof.
  induction l as [|x l IH]; [done|]. cbn [existsb List.filter]. intros [-> Hl]%orb_false_iff. cbn [negb]. by rewrite IH.
Qed.

Lemma scrub_reads cfg b pkg fs w scrubbed w' :
  exec (malware_scrubbed_files b (malware cfg) pkg fs) w scrubbed w' -> w' = w.
Proof.
  unfold malware_scrubbed_files. destruct (malware cfg); [|by intros [_ ->]]. cbv zeta. destruct (negb _); [by intros [_ ->]|].
  intros (r & w1 & Hr & [_ ->])%exec_bind. by eapply read_claim_same.
Qed.

Lemma log_scrub cfg b pkg fs w log scrubbed w' status :
  exec_log eq (malware_scrubbed_files b (malware cfg) pkg fs) w log scrubbed w' ->
  page_files cfg (claim_unread pkg log) pkg (claim_in (w b) pkg) status fs
    (if StatusDoc.blocks_downloads (StatusDoc.status status) then [] else default fs scrubbed).
Proof.
  intros He. unfold malware_scrubbed_files in He. unfold page_files. destruct (StatusDoc.blocks_downloads _); [done|].
  destruct (malware cfg) as [covers|]; [|by destruct He as (? & _ & _ & -> & _)]. cbv zeta in He.
  destruct (negb _) eqn:Hex.
  { apply negb_true_iff in Hex. destruct He as (? & _ & _ & -> & _). cbn [default from_option id].
    destruct (claim_in (w b) pkg) as [[]|]; [done| |done]. left. by rewrite filter_none_blocked. }
  apply log_bind in He as (r & w1 & l1 & l2 & -> & Hr & (? & _ & _ & -> & _)); [|apply _].
  destruct r as [c|e].
  - apply log_exec, exec_read_claim in Hr as [_ <-].
    destruct c as [[]|]; cbn [mbind option_bind origin_of_state default from_option id]; auto.
  - assert (claim_unread pkg l1 \/ claim_in (w b) pkg = None) as [Hu|Hn].
    { apply log_bind in Hr as (y & w2 & l3 & l4 & -> & Hcall & (w3 & _ & _ & Hx & _)); [|apply _].
      destruct Hcall as (w0 & <- & _ & r & s & l & -> & Hs & (w4 & _ & _ & -> & _)).
      destruct r as [bytes|e']; [right|left].
      - unfold claim_in. rewrite (get_bytes_answer _ _ _ _ _ Hs eq_refl). cbn [mbind option_bind]. by destruct (decode_claim bytes).
      - destruct (is_not_found e') eqn:He'; [done|]. exists b, e'. split; [left|done]. }
    + cbn [default from_option id]. destruct (claim_in (w b) pkg) as [[]|]; [done| |done]. right. split; [|done].
      eapply claim_unread_mono; [|exact Hu]. set_solver.
    + by rewrite Hn.
Qed.

Lemma log_write_pages cfg b pkg fs w log pages w' :
  wf_world w -> exec_log eq (write_pkg_indexes b (malware cfg) pkg fs) w log (Ok pages) w' ->
  wf_world w' /\ same_packages (w b) (w' b) /\ exists status out,
    status_in (w b) pkg = Some status /\ page_files cfg (claim_unread pkg log) pkg (claim_in (w b) pkg) status fs out
    /\ contents (w' b) (html_key pkg) = Some (pep503_project_html pkg out status)
    /\ contents (w' b) (json_key pkg) = Some (pep691_project_json pkg out status).
Proof.
  intros Hw He. unfold write_pkg_indexes in He. cbv zeta in He.
  apply log_ok in He as (status & w1 & l0 & l1 & -> & Hst%log_exec & He); [|apply _]. apply exec_read_status in Hst as [-> Hst].
  apply log_bind in He as (scrubbed & w1 & l2 & l3 & -> & Hsc & He%log_exec); [|apply _].
  pose proof (scrub_reads cfg b pkg fs w scrubbed w1 (log_exec _ _ _ _ _ _ Hsc)) as ->.
  apply (log_scrub _ _ _ _ _ _ _ _ status) in Hsc.
  apply exec_ok in He as ([] & w3 & Hput & [_ ->]). cbn [pfor fst snd] in Hput.
  apply exec_ok in Hput as ([] & w1 & Hhtml & Hput). apply exec_ok in Hput as ([] & w2 & Hjson & [_ ->]).
  apply exec_put_if_changed in Hhtml as (Hh & Hw1 & Hs1); [|done].
  apply exec_put_if_changed in Hjson as (Hj & Hw2 & Hs2); [|done].
  pose proof (page_not_package b w w1 (html_key pkg) eq_refl Hs1) as Hp1.
  pose proof (page_not_package b w1 w2 (json_key pkg) eq_refl Hs2) as Hp2.
  split_and!; [done|intros k Hk; by rewrite Hp2, Hp1|]. eexists status, _. split_and!; [done|eapply page_files_weaken; [|exact Hsc]; apply claim_unread_mono; set_solver| |exact Hj].
  rewrite Hs2 by apply pages_apart. exact Hh.
Qed.

(** ** A rebuild *)

Section rebuild.
Variables (cfg : IndexConfig) (b : nat) (pkg : str) (omit : option str).
Hypothesis pkg_ok : "/"%char ∉ pkg.

Lemma log_inner memo sched w log rebuilt fresh w' :
  wf_world w -> memo_ok memo ->
  exec_log eq (rebuild_package_indexes_inner rfc3339 cfg b memo sched pkg omit) w log (Ok (rebuilt, fresh)) w' ->
  wf_world w' /\ memo_ok fresh /\ pages_true cfg (claim_unread pkg log) (w' b) pkg omit.
Proof.
  intros Hw Hm He. unfold rebuild_package_indexes_inner in He.
  apply log_ok in He as ([[fs raw] new] & w1 & l1 & l2 & -> & Hl%log_exec & He); [|apply _].
  apply exec_list_artifacts in Hl as (-> & _ & Hnew & Hw1 & _); [|done..]. cbv zeta in He. unfold pages_true. cbv zeta.
  destruct (visible cfg pkg omit _) as [|f fs] eqn:Hfs.
  - apply log_exec, exec_ok in He as ([] & w2 & Hd & He). apply exec_answer in He as [Heq ->]. apply pair_eq in Heq as [_ ->].
    apply exec_call in Hd as (s & Hs & ->). split_and!; [by eapply wf_step|done|]. rewrite fn_lookup_insert.
    assert (same_packages (w1 b) s) as Hp.
    { intros k Hk. eapply op_step_frame; [apply Hw1|exact Hs|]. cbn [names_key]. rewrite !elem_of_cons.
      intros [->|[->|[]%elem_of_nil]]; by vm_compute in Hk. }
    rewrite (files_in_same pkg pkg_ok _ (w1 b)), (claim_in_same pkg (w1 b)), Hfs; [|apply Hp; unfold origin_key; apply under_packages|done].
    split; apply eq_None_not_Some; eapply delete_keys_done; try exact Hs; try done; rewrite !elem_of_cons; auto.
  - apply log_ok in He as (pages & w2 & l3 & l4 & -> & Hd & He%log_exec); [|apply _].
    apply exec_answer in He as [Heq ->]. apply pair_eq in Heq as [_ ->].
    apply log_write_pages in Hd as (Hw2 & Hp & status & out & Hst & Hout & Hh & Hj); [|done]. split_and!; [done..|].
    rewrite (files_in_same pkg pkg_ok _ (w1 b)), (claim_in_same pkg (w1 b)), Hfs; [|apply Hp; unfold origin_key; apply under_packages|done].
    exists status, out. rewrite (status_in_same pkg (w1 b)) by done. split; [done|]. split; [|done].
    eapply page_files_weaken; [|exact Hout]. apply claim_unread_mono. set_solver.
Qed.

Lemma marker_frame unread (w w' : world) :
  same_on b (fun k => starts_with DIRTY_PREFIX k = false) w w' ->
  pages_true cfg unread (w b) pkg omit -> pages_true cfg unread (w' b) pkg omit.
Proof.
  intros Hs. apply pages_true_same; [done|intros k Hk; apply Hs|by apply Hs|by apply Hs].
  apply starts_with_true in Hk as [x ->]. done.
Qed.

Lemma log_rebuild memo sched on_failure w log rebuilt fresh w' :
  wf_world w -> memo_ok memo ->
  exec_log eq (rebuild_package_indexes rfc3339 cfg b memo sched pkg omit on_failure) w log (Ok (rebuilt, fresh)) w' ->
  wf_world w' /\ memo_ok fresh /\ pages_true cfg (claim_unread pkg log) (w' b) pkg omit.
Proof.
  intros Hw Hm He. unfold rebuild_package_indexes in He. destruct (is_multi cfg); cbn [negb] in He.
  2:{ by apply log_inner in He. }
  apply log_ok in He as (nonce & w1 & l1 & l2 & -> & Hi%log_exec & He); [|apply _]. pose proof (wf_exec _ _ _ _ _ Hw Hi) as Hw1.
  apply log_bind in He as (r & w2 & l3 & l4 & -> & Hin & He%log_exec); [|apply _]. destruct r as [[rb fr]|e].
  2:{ by apply exec_bind in He as (? & ? & _ & [? _]). }
  apply log_inner in Hin as (Hw2 & Hf & Hp); [|done..]. apply exec_ok in He as ([] & w3 & Hc & He).
  apply exec_answer in He as [Heq ->]. apply pair_eq in Heq as [_ ->]. pose proof (wf_exec _ _ _ _ _ Hw2 Hc) as Hw3.
  split_and!; [done|done|]. eapply marker_frame, pages_true_weaken; [| |exact Hp].
  - apply exec_call in Hc as (s & Hs & ->). intros k Hk. rewrite fn_lookup_insert. eapply op_step_frame; [apply Hw2|exact Hs|].
    cbn [names_key]. intros ->%list_elem_of_singleton. by vm_compute in Hk.
  - apply claim_unread_mono. set_solver.
Qed.

Lemma exec_rebuild memo sched on_failure w rebuilt fresh w' :
  wf_world w -> memo_ok memo ->
  exec (rebuild_package_indexes rfc3339 cfg b memo sched pkg omit on_failure) w (Ok (rebuilt, fresh)) w' ->
  wf_world w' /\ memo_ok fresh /\ pages_true cfg True (w' b) pkg omit.
Proof.
  intros Hw Hm [log He]%exec_logged; [|done]. apply log_rebuild in He as (Hw' & Hf & Hp); [|done..].
  split_and!; [done|done|]. by eapply pages_true_weaken.
Qed.

(** What a rebuild may write. *)
Definition rebuild_key (k : str) : Prop :=
  finish_key k \/ k = html_key pkg \/ k = json_key pkg \/ exists n s, k = marker_key pkg n s.

Lemma touch_rebuild memo sched on_failure :
  guar (touches (fun _ => rebuild_key)) (fun _ => True)
    (rebuild_package_indexes rfc3339 cfg b memo sched pkg omit on_failure).
Proof.
  assert (forall A (Q : A -> Prop) p, guar (touches (fun _ => finish_key)) Q p -> guar (touches (fun _ => rebuild_key)) Q p) as Hup
    by (intros A Q p; apply guar_weaken; intros c R o Ho k Hk; left; by apply Ho).
  assert (forall bytes key, key = html_key pkg \/ key = json_key pkg ->
    guar (touches (fun _ => rebuild_key)) (fun _ => True) (put_if_changed b key bytes)) as Hput
    by (intros bytes key Hk; unfold put_if_changed; walk; intros k <-; unfold rebuild_key; tauto).
  assert (guar (touches (fun _ => rebuild_key)) (fun _ => True) (rebuild_package_indexes_inner rfc3339 cfg b memo sched pkg omit)) as Hinner.
  { unfold rebuild_package_indexes_inner, list_artifacts_for_claim, finish_marked, write_pkg_indexes, malware_scrubbed_files,
      read_origin_claim, Status.read_status. cbn [pfor].
    walk; try (by apply Hup, touch_finish); try (by apply Hup, touch_chunks); try (apply Hput; tauto).
    all: try (intros k Hk; cbn [names_key] in Hk; rewrite !elem_of_cons in Hk; destruct Hk as [->|[->|[]%elem_of_nil]]; unfold rebuild_key; tauto). }
  unfold rebuild_package_indexes, mark_intent, mark_intent_with_nonce, mark_commit, clear_intent, put_marker. walk; try done.
  all: intros k Hk; cbn [names_key] in Hk; rewrite ?list_elem_of_singleton in Hk; subst k; unfold rebuild_key; eauto 6.
Qed.

(** C8: whatever the storage answers to each step, a rebuild that reports success
    has left the package's pages true: they are absent exactly when the bucket
    then shows no file of it, and otherwise both are the rendering, under the
    status the bucket then holds, of exactly the files its records then show:
    bodies with a readable sidecar, unfenced, of the claim's origin; less the one
    being deleted and the excluded ones; none while the status blocks downloads;
    and, of a mirror's package with blocking armed, less the malware, unless one
    of this rebuild's own reads of the claim failed (the listing is then left
    whole). This holds for every memo whose entries were read under their listing
    tokens, for every interleaving of the concurrent loads, and the memo it
    answers is again such a memo. *)
Theorem rebuild_shows_truth memo sched on_failure w log rebuilt fresh w' :
  wf_world w -> memo_ok memo ->
  exec_log eq (rebuild_package_indexes rfc3339 cfg b memo sched pkg omit on_failure) w log (Ok (rebuilt, fresh)) w' ->
  memo_ok fresh /\ pages_true cfg (claim_unread pkg log) (w' b) pkg omit.
Proof. intros Hw Hm He. by apply log_rebuild in He as (_ & ? & ?). Qed.

End rebuild.

End pages.
(** *** Witnesses *)

#[global] Instance CoreMetadataValue_eq_dec : EqDecision CoreMetadataValue.
Proof. solve_decision. Defined.
#[global] Instance CoreMetadataValue_countable : Countable CoreMetadataValue.
Proof.
  apply (inj_countable' (fun v => match v with MetadataTrue => None | MetadataSha s => Some s end)
    (fun o => match o with None => MetadataTrue | Some s => MetadataSha s end)). by intros [].
Defined.
#[global] Instance ProjectStatusDoc_countable : Countable StatusDoc.ProjectStatusDoc.
Proof.
  apply (inj_countable' (fun d => StatusDoc.MkStored d 0 None) StatusDoc.stored_doc). by intros [].
Defined.
#[global] Instance Pep691File_eq_dec : EqDecision Pep691File.
Proof. solve_decision. Defined.
#[global] Instance Pep691File_countable : Countable Pep691File.
Proof.
  apply (inj_countable'
    (fun '(MkPepFile f u h s t y r c p) => (f, u, h, s, t, y, r, c, p))
    (fun '(f, u, h, s, t, y, r, c, p) => MkPepFile f u h s t y r c p)). by intros [].
Defined.
#[global] Instance Pep691PkgIndex_eq_dec : EqDecision Pep691PkgIndex.
Proof. solve_decision. Defined.
#[global] Instance Pep691PkgIndex_countable : Countable Pep691PkgIndex.
Proof.
  apply (inj_countable' (fun '(MkPkgIndex v n s vs fs) => (v, n, s, vs, fs))
    (fun '(v, n, s, vs, fs) => MkPkgIndex v n s vs fs)). by intros [].
Defined.
Definition toy_page_codec : Codec Pep691PkgIndex := countable_codec.

(** Escapes to evaluate with: the text in hexadecimal digits. *)
Definition toy_escape : HtmlEscape.
Proof.
  refine {| encode_text := hex; encode_double_quoted_attribute := hex; decode_html_entities := fun s => default [] (unhex s) |};
    try (intros s; by rewrite unhex_hex).
  all: intros s Hin; pose proof (hex_digits s) as Hall; rewrite Forall_forall in Hall; by apply Hall in Hin.
Defined.

#[local] Existing Instances toy_digest toy_chunking toy_claim_codec toy_sidecar_codec toy_filename_codec
  toy_status_codec toy_page_codec toy_escape toy_pep440 content_etags.

Definition fleet_config : IndexConfig := MkConfig true 60 None None.
Definition first_of (n m k : nat) : bool := true.
Definition rebuild_a : prog (res (RebuiltPackage * PackageSidecars)) :=
  rebuild_package_indexes (fun _ => []) fleet_config 0 no_memo first_of (&"a") None Rearm.
Definition rebuilt_a := run example_env stocked_world rebuild_a.

Lemma rebuild_shows_truth_witness :
  exists log, exec_log eq rebuild_a stocked_world log rebuilt_a.2 rebuilt_a.1
  /\ (forall y, rebuilt_a.2 = Ok y -> memo_ok y.2 /\ pages_true fleet_config (claim_unread (&"a") log) (rebuilt_a.1 0%nat) (&"a") None)
  /\ match rebuilt_a.2 with Ok y => still_live y.1 | Err _ => false end = true.
Proof.
  assert (exec rebuild_a stocked_world rebuilt_a.2 rebuilt_a.1) as He by (unfold rebuilt_a; apply exec_run; exact example_env_good).
  apply exec_logged in He as [log He]; [|apply stocked_world_wf]. exists log. split; [exact He|]. split.
  - intros [rebuilt fresh] Hy. rewrite Hy in He.
    apply (rebuild_shows_truth (fun _ => []) fleet_config 0 (&"a") None ltac:(by apply (bool_decide_unpack _))
             no_memo first_of Rearm stocked_world log rebuilt fresh rebuilt_a.1).
    + apply stocked_world_wf.
    + split; intros f; unfold no_memo; cbn [memo_sidecars memo_metadata]; intros ? ?; by rewrite lookup_empty.
    + exact He.
  - vm_compute. reflexivity.
Defined.

End Pages.
