(* ===== verification/Publish.v ===== *)
(** * The write path (src/publish.rs, the checksum probe of src/storage.rs)

    Uploads, deletes and sidecar edits as programs over the storage contract:
    every read, guard and write of the handlers' cores in their order. An HTTP
    answer is a status code with its message; a failed best-effort write changes
    nothing of the answer. An intent is closed on every way out: by its commit,
    or, when the handler returns early, by the commit its drop writes. *)
From stdpp Require Import functions.
From S2P Require Import Prelude RustStr Pep440 Names Documents Hash Decide Storage Origin Status Markers Replicate Artifact Execute Scan Converge Fanout Denylist Render Index.
Import Names Sidecar Decide Storage Origin Hash Markers Replicate Artifact Execute Converge Fanout Denylist Render Index.

Module Publish.

(** ** Answers *)

(** A status code and its message. *)
Abbreviation http := (Z * str)%type.
Abbreviation reply := (result http).

Definition OK : Z := 200.
Definition NO_CONTENT : Z := 204.
Definition FORBIDDEN : Z := 403.
Definition NOT_FOUND : Z := 404.
Definition CONFLICT : Z := 409.
Definition INTERNAL_SERVER_ERROR : Z := 500.
Definition SERVICE_UNAVAILABLE : Z := 503.

(** The [?] of a handler. *)
Definition hbind {A B} (p : prog (reply A)) (k : A -> prog (reply B)) : prog (reply B) :=
  pbind p (fun r => match r with Ok a => k a | Err e => Ret (Err e) end).
Notation "'let*!' x ':=' p 'in' k" := (hbind p (fun x => k))
  (at level 10, x pattern, k at level 200) : rust_scope.

(** [map_err] of a storage call into an answer. *)
Definition or_answer {A} (code : Z) (message : error -> str) (p : prog (res A)) : prog (reply A) :=
  let* r := p in Ret (match r with Ok a => Ok a | Err e => Err (code, message e) end).

Inductive UploadConflict := Exists_ | Fenced.
#[global] Instance UploadConflict_eq_dec : EqDecision UploadConflict.
Proof. solve_decision. Defined.

Definition FILE_EXISTS : str := &"File already exists".
Definition FILENAME_FENCED : str := &"frozen or deleted".

(** [str::contains(&str)]. *)
Fixpoint contains_str (needle s : str) : bool :=
  starts_with needle s || match s with [] => false | _ :: s => contains_str needle s end.

Definition upload_conflict (code : Z) (msg : str) : option UploadConflict :=
  if negb (code =? CONFLICT) then None
  else if starts_with FILE_EXISTS msg then Some Exists_
  else if contains_str FILENAME_FENCED msg then Some Fenced
  else None.

Inductive Mutation := Upload | Delete | Yank_ | StatusChange | UploadTime_.

Definition EM_DASH : str := [ascii_of_N 226; ascii_of_N 128; ascii_of_N 148].

Definition noun (m : Mutation) : str :=
  match m with
  | Upload => &"upload"
  | Delete => &"delete"
  | Yank_ => &"yank"
  | StatusChange => &"status change"
  | UploadTime_ => &"upload time repair"
  end.

Definition retry_advice (m : Mutation) : str :=
  match m with
  | Upload => &"the bytes are already stored, so re-sending the file will be refused as a duplicate filename"
  | _ => &"sending the same request again is safe"
  end.

(** ** The write budget *)

Definition MULTIPART_PART_SIZE : Z := 8 * MIB.
Definition MULTIPART_CONCURRENCY : Z := 4.
Definition READ_CHUNK : Z := 256 * 1024.
Definition MULTIPART_FOOTPRINT : Z := MULTIPART_PART_SIZE * (MULTIPART_CONCURRENCY + 1) + READ_CHUNK.

(** [u64::div_ceil]. *)
Definition div_ceil (a b : Z) : Z := if a mod b =? 0 then a / b else a / b + 1.

Definition artifact_write_weight (size : Z) : Z :=
  let bytes := if size <=? MULTIPART_THRESHOLD then size else MULTIPART_FOOTPRINT in
  Z.max (div_ceil bytes MIB) 1.

(** [contains(char::is_control)]: the C0 and C1 controls and delete. *)
Fixpoint contains_control (s : str) : bool :=
  match s with
  | [] => false
  | c :: rest =>
    is_ascii_control c
    || (bool_decide (c = ascii_of_N 194) && match rest with d :: _ => byte_in 128 159 d | [] => false end)
    || contains_control rest
  end.

(** A filename usable as an artifact key. *)
Definition valid_artifact_filename (filename : str) : bool :=
  (length filename <=? MAX_ARTIFACT_FILENAME_BYTES)%nat
  && negb (contains_byte "/"%char filename)
  && negb (contains_byte "\"%char filename)
  && negb (contains_control filename)
  && is_artifact filename.

(** ** The home write probe (storage.rs) *)

Inductive S3EtagCheck := EtagMatch | Divergent | Unprovable.
Inductive HomeWriteProbe := Bind | SizeOnly | Confirm.

Definition is_hex32 (s : str) : bool := (length s =? 32)%nat && forallb is_ascii_hexdigit s.

Definition classify_s3_etag (etag : option str) (md5_hex : str) : S3EtagCheck :=
  match etag with
  | None => Unprovable
  | Some raw =>
    let hex := to_ascii_lowercase (trim_matches dq (trim raw)) in
    if negb (is_hex32 hex) then Unprovable
    else if decide (hex = to_ascii_lowercase md5_hex) then EtagMatch else Divergent
  end.

Definition probe_s3_home_write (etag : option str) (md5_hex : str) (size confirm_cap : Z) : HomeWriteProbe :=
  match classify_s3_etag etag md5_hex with
  | EtagMatch => Bind
  | Unprovable => SizeOnly
  | Divergent => if size <=? confirm_cap then Confirm else SizeOnly
  end.

(** The backends, as far as their content digests differ. *)
Inductive Backend := S3 | Gcs | OtherBackend.

(** A checksum, or the proof that the stored bytes are not the ones sent. *)
Inductive Bound := Checksum (c : option StoreChecksum) | HomeWriteCorrupt.

(** Md5 of the bytes, by the md5 crate. *)
Class Md5 := { md5_hex : str -> str }.

Definition resolve_home_write (stored_md5 upload_md5 : str) : Bound :=
  if eq_ignore_ascii_case stored_md5 upload_md5 then Checksum None else HomeWriteCorrupt.

Section programs.
Context {D : Digest} {T : Chunking} `{ClaimCodec} {JS : Codec Sidecar} {JF : Codec FilenameBody}
  {JD : Codec StatusDoc.StoredProjectStatus} {JP : Codec Pep691PkgIndex} {X : HtmlEscape} {P : Pep440}
  {V : CopyVerb} {M5 : Md5}.
Variable rfc3339 : Z -> str.
(** The text of a storage error, and the instant a timestamp names. *)
Variable show_error : error -> str.
Variable instant : str -> option Z.
(** The filenames serde reads off an index page. *)
Variable index_filenames : str -> option (list str).

(** A HEAD answers an object's token and size. *)
Definition store_content_checksum (backend : Backend) (b : nat) (key md5 : str) : prog (res Bound) :=
  match backend with
  | S3 =>
    let*? meta := call b (GetWithEtag key) in
    match meta with
    | None => Ret (Ok (Checksum None))
    | Some (bytes, etag) =>
      match probe_s3_home_write (Some etag) md5 (Z.of_nat (length bytes)) MULTIPART_THRESHOLD with
      | Bind => Ret (Ok (Checksum (Some (store_checksum_md5 md5))))
      | SizeOnly => Ret (Ok (Checksum None))
      | Confirm =>
        let*? stored := call b (GetBytes key) in
        Ret (Ok (resolve_home_write (md5_hex stored) md5))
      end
    end
  | Gcs => Ret (Ok (Checksum (Some (store_checksum_md5 md5))))
  | OtherBackend => Ret (Ok (Checksum None))
  end.

(** ** The server and one request's circumstances *)

(** What of [AppState] the write path consults. *)
Record Server := MkServer {
  bucket_names : list str;
  private_names : PrivateNames;
  backend_of : nat -> Backend;
  grace : Z;
  excluded : option Denylist;
  armed : option (str -> option str -> bool);
  (** the polls of the index that fit in the upload's wait, if it waits *)
  wait_on_upload : option nat
}.

Definition multi (srv : Server) : bool := (1 <? length (bucket_names srv))%nat.
Definition index_config (srv : Server) : IndexConfig := MkConfig (multi srv) (grace srv) (excluded srv) (armed srv).

(** The clock, the eligible peers, the deadlines and the interleavings a
    request happens to meet. *)
Record Weather := MkWeather {
  now_ms : Z;
  eligible : nat -> bool;
  patience : nat -> Patience;
  jobs : nat -> nat -> bool;
  loads : nat -> nat -> nat -> bool
}.

Definition fan_out (srv : Server) (wx : Weather) (b : nat) (pkg filename : str) (source : ArtifactSource)
    : prog (res unit) :=
  fanout_sync (bucket_names srv) b pkg filename source (eligible wx) (patience wx) (jobs wx).

Definition unrecorded_replication_gap (m : Mutation) (e : error) : str :=
  &"The " ++ noun m ++ &" is durable on this bucket, but the fleet could not record that the other buckets still owe it ("
  ++ show_error e ++ &"). Nothing was lost " ++ EM_DASH ++ &" " ++ retry_advice m
  ++ &". Check the other buckets' availability.".

(** ** Upload *)

Record PublishRequest := MkPublish {
  pr_pkg : str;
  pr_filename : str;
  pr_body : ArtifactBody;
  pr_sha256 : str;
  pr_md5 : str;
  pr_size : Z;
  pr_version : str;
  pr_requires_python : option str;
  pr_is_mirror : bool;
  pr_upload_time : str;
  pr_yanked : Yanked;
  pr_wheel_metadata : option str;
  pr_is_wheel : bool;
  pr_provenance : option str
}.

Definition desired_origin (req : PublishRequest) : str :=
  if pr_is_mirror req then OriginState.MIRROR else OriginState.PRIVATE.

Definition desired_state (req : PublishRequest) : OriginState.OriginState :=
  if pr_is_mirror req then OriginState.Mirror else OriginState.Private.

Definition first_claim (observed : option OriginObservation) : bool :=
  match observed with
  | None => true
  | Some o => bool_decide (state o = OriginState.Unclaimed)
  end.

Definition owned_elsewhere (pkg owner desired : str) : str :=
  &"Package '" ++ pkg ++ &"' is " ++ owner ++ &"-owned; " ++ desired ++ &" uploads are rejected".

(** The refusals before anything is written. *)
Definition refused_upfront (srv : Server) (req : PublishRequest) (observed : option OriginObservation) : option http :=
  let pkg := pr_pkg req in
  if pr_is_mirror req && names_match (private_names srv) pkg then
    Some (FORBIDDEN, &"'" ++ pkg ++ &"' is a reserved private name; mirrors may not touch it")
  else
    let other := match observed with
                 | Some o =>
                   if negb (bool_decide (state o = OriginState.Unclaimed))
                      && negb (bool_decide (OriginState.as_str (state o) = desired_origin req))
                   then Some (OriginState.as_str (state o)) else None
                 | None => None
                 end in
    match other with
    | Some owner => Some (FORBIDDEN, owned_elsewhere pkg owner (desired_origin req))
    | None =>
      if first_claim observed && negb (pr_is_mirror req) && negb (names_is_empty (private_names srv))
         && negb (names_match (private_names srv) pkg)
      then Some (FORBIDDEN, &"Package '" ++ pkg ++ &"' is not a reserved private name (reserved: "
                              ++ names_show (name_patterns (private_names srv)) ++ &")")
      else None
    end.

Section upload.
Variables (srv : Server) (wx : Weather) (b : nat) (req : PublishRequest).
Abbreviation pkg := (pr_pkg req).
Abbreviation akey := (artifact_key (pr_pkg req) (pr_filename req)).

Definition changed_origin (while_ : str) : http := (CONFLICT, &"Package '" ++ pkg ++ &"' changed origin " ++ while_).

(** The first write of a name claims it; the answer is the claim to write under. *)
Definition claim_name (observed : option OriginObservation) : prog (reply (option OriginObservation)) :=
  if negb (first_claim observed) then Ret (Ok observed) else
  let*! claim := or_answer INTERNAL_SERVER_ERROR (fun e => &"Failed to claim origin: " ++ show_error e)
    (claim_origin b pkg (MkRequest (desired_origin req) observed)) in
  if negb (bool_decide (owner claim = desired_origin req)) then
    Ret (Err (FORBIDDEN, owned_elsewhere pkg (owner claim) (desired_origin req)))
  else
    let* _ := (match claim_etag claim with
               | Some _ => if multi srv then fan_out srv wx b pkg ORIGIN_MARKER FromBucket else Ret (Ok tt)
               | None => Ret (Ok tt)
               end) in
    match claim_etag claim with
    | Some etag => Ret (Ok (Some (MkObservation (desired_state req) etag)))
    | None =>
      let*! again := or_answer SERVICE_UNAVAILABLE (fun e => &"storage error re-reading origin claim: " ++ show_error e)
        (read_origin_observation b pkg) in
      match again with
      | Some o => if decide (OriginState.as_str (state o) = desired_origin req) then Ret (Ok (Some o))
                  else Ret (Err (changed_origin (&"while claiming")))
      | None => Ret (Err (changed_origin (&"while claiming")))
      end
    end.

(** The claim still stands as it was observed. *)
Definition write_fence_holds (fence : option OriginObservation) : prog (reply unit) :=
  match fence with
  | None => Ret (Ok tt)
  | Some expected =>
    let*! current := or_answer SERVICE_UNAVAILABLE (fun e => &"storage error re-checking origin claim: " ++ show_error e)
      (read_origin_observation b pkg) in
    if decide (current = Some expected) then Ret (Ok tt) else Ret (Err (changed_origin (&"during upload")))
  end.

Definition store_body : prog (reply unit) :=
  let*! stored := or_answer SERVICE_UNAVAILABLE (fun e => &"Failed to store file: " ++ show_error e)
    (store_artifact_verified b akey (pr_body req) (pr_size req) Reject) in
  if stored : bool then Ret (Ok tt) else Ret (Err (CONFLICT, FILE_EXISTS ++ &": " ++ pr_filename req)).

(** The provider's digest of the bytes just written, where a copy may follow. *)
Definition bind_checksum : prog (reply (option StoreChecksum)) :=
  if negb (multi srv) then Ret (Ok None) else
  let* bound := store_content_checksum (backend_of srv b) b akey (pr_md5 req) in
  match bound with
  | Ok (Checksum c) => Ret (Ok c)
  | Ok HomeWriteCorrupt =>
    let* _ := call b (DeleteKeys [akey]) in
    Ret (Err (SERVICE_UNAVAILABLE, &"Stored artifact failed content verification: " ++ pr_filename req))
  | Err _ => Ret (Ok None)
  end.

Definition upload_sidecar (checksum : option StoreChecksum) : Sidecar :=
  MkSidecar (pr_sha256 req) (pr_size req) (pr_version req) (pr_upload_time req)
    (if pr_is_mirror req then None else Some (now_ms wx)) (pr_requires_python req) (pr_yanked req)
    (Some (desired_origin req)) 0 0 (pr_is_mirror req) checksum.

Definition install_mirror (sc : Sidecar) : prog (reply unit) :=
  let*! created := or_answer SERVICE_UNAVAILABLE (fun e => &"Failed to store mirror sidecar: " ++ show_error e)
    (call b (PutIfAbsent (sidecar_key akey) (encode sc))) in
  if created : bool then Ret (Ok tt) else
  let*! _ := or_answer SERVICE_UNAVAILABLE (fun e => &"Failed to converge mirror sidecar: " ++ show_error e)
    (install_or_verify_mirror_sidecar b (sidecar_key akey) sc) in
  Ret (Ok tt).

Definition post_publish_mirror_claim_is_current (expected : OriginObservation) : prog (res bool) :=
  if negb (multi srv) then Ret (Ok true) else
  let*? current := read_origin_observation b pkg in
  Ret (Ok (bool_decide (current = Some expected))).

Definition mirror_still_claimed (fence : option OriginObservation) : prog (reply unit) :=
  match fence with
  | None => Ret (Err (INTERNAL_SERVER_ERROR, &"mirror upload lost its origin fence"))
  | Some expected =>
    let*! current := or_answer SERVICE_UNAVAILABLE
      (fun e => &"storage error re-checking mirror claim after publish: " ++ show_error e)
      (post_publish_mirror_claim_is_current expected) in
    if current : bool then Ret (Ok tt) else Ret (Err (changed_origin (&"during mirror upload")))
  end.

(** [try_join] of the two HEADs. *)
Definition heads (sched : nat -> bool) (k1 k2 : str) : prog (res (bool * bool)) :=
  try_join sched (call b (HeadExists k1)) (call b (HeadExists k2)).

Definition filename_unfenced : prog (reply unit) :=
  let*! marks := or_answer SERVICE_UNAVAILABLE (fun e => &"storage error checking filename fence: " ++ show_error e)
    (heads (jobs wx O) (tombstone_key akey) (frozen_key akey)) in
  if fenced_by_markers marks.1 marks.2 then
    let* _ := (if multi srv then Ret (Ok tt) else call b (DeleteKeys [akey])) in
    Ret (Err (CONFLICT, &"File '" ++ pr_filename req ++ &"' is " ++ FILENAME_FENCED ++ &" and cannot be reused"))
  else Ret (Ok tt).

(** The companions, best effort. *)
Definition put_upload_companions : prog unit :=
  let* _ := (match pr_is_wheel req, pr_wheel_metadata req with
             | true, Some md =>
               if pr_is_mirror req
               then let* _ := call b (PutIfAbsent (metadata_key akey) md) in Ret tt
               else let* _ := call b (PutBytes (metadata_key akey) md) in Ret tt
             | _, _ => Ret tt
             end) in
  match pr_is_mirror req, pr_provenance req with
  | true, Some prov => let* _ := call b (PutIfAbsent (provenance_key akey) prov) in Ret tt
  | _, _ => Ret tt
  end.

(** Everything between the intent and its commit. *)
Definition publish_inner (observed : option OriginObservation) : prog (reply unit) :=
  let*! fence := claim_name observed in
  let*! _ := write_fence_holds fence in
  let*! _ := store_body in
  let*! checksum := bind_checksum in
  let sc := upload_sidecar checksum in
  let*! _ := (if pr_is_mirror req then install_mirror sc else Ret (Ok tt)) in
  let*! _ := (if pr_is_mirror req then mirror_still_claimed fence else Ret (Ok tt)) in
  let*! _ := filename_unfenced in
  let* _ := put_upload_companions in
  if pr_is_mirror req then Ret (Ok tt) else
  or_answer INTERNAL_SERVER_ERROR (fun e => &"Failed to store sidecar: " ++ show_error e)
    (call b (PutBytes (sidecar_key akey) (encode sc))).

Definition index_lists (bytes filename : str) : bool :=
  match index_filenames bytes with
  | Some names => existsb (fun f => bool_decide (f = filename)) names
  | None => false
  end.

Fixpoint wait_for_index_visibility (polls : nat) : prog unit :=
  match polls with
  | O => Ret tt
  | S polls =>
    let* r := call b (GetBytes (json_key pkg)) in
    match r with
    | Ok bytes => if index_lists bytes (pr_filename req) then Ret tt else wait_for_index_visibility polls
    | Err _ => wait_for_index_visibility polls
    end
  end.

Definition spool_of : ArtifactSource :=
  match pr_body req with Spool content => FromSpool content | Bytes _ => FromBucket end.

Definition publish_record : prog (reply http) :=
  let*! observed := or_answer SERVICE_UNAVAILABLE (fun e => &"storage error reading origin: " ++ show_error e)
    (read_origin_observation b pkg) in
  match refused_upfront srv req observed with
  | Some refusal => Ret (Err refusal)
  | None =>
    let*! nonce := or_answer SERVICE_UNAVAILABLE (fun e => &"failed to reserve package write: " ++ show_error e)
      (mark_intent b pkg) in
    let* published := publish_inner observed in
    let* _ := mark_commit b pkg nonce in
    let*! _ := Ret published in
    let*! _ := or_answer SERVICE_UNAVAILABLE (unrecorded_replication_gap Upload)
      (fan_out srv wx b pkg (pr_filename req) spool_of) in
    let* _ := wait_for_index_visibility (default O (wait_on_upload srv)) in
    Ret (Ok (OK, &"OK"))
  end.

End upload.

(** ** Delete *)

Section delete.
Variables (srv : Server) (wx : Weather) (b : nat) (memo : PackageSidecars) (pkg filename : str).
Abbreviation akey := (artifact_key pkg filename).

Definition rebuild_package_excluding (omit : option str) : prog (res (bool * gmap str str)) :=
  let*? rebuilt := rebuild_package_indexes rfc3339 (index_config srv) b memo (loads wx) pkg omit Rearm in
  Ret (Ok (still_live rebuilt.1, file_shas rebuilt.1)).

(** A delete needs a live claim; a fleet evicts no mirror. *)
Definition delete_claim : prog (reply OriginObservation) :=
  let*! observed := or_answer SERVICE_UNAVAILABLE (fun e => &"storage error reading origin: " ++ show_error e)
    (read_origin_observation b pkg) in
  match observed with
  | Some o =>
    match state o with
    | OriginState.Unclaimed =>
      Ret (Err (INTERNAL_SERVER_ERROR, &"artifact '" ++ filename ++ &"' has no live origin claim; refusing delete"))
    | OriginState.Mirror =>
      if multi srv then Ret (Err (CONFLICT, &"Mirror cache eviction is disabled with multiple buckets"))
      else Ret (Ok o)
    | OriginState.Private => Ret (Ok o)
    end
  | None => Ret (Err (INTERNAL_SERVER_ERROR, &"artifact '" ++ filename ++ &"' has no live origin claim; refusing delete"))
  end.

Definition claim_unchanged (before : OriginObservation) : prog (reply unit) :=
  if negb (multi srv) then Ret (Ok tt) else
  let*! current := or_answer SERVICE_UNAVAILABLE (fun e => &"storage error re-checking origin: " ++ show_error e)
    (read_origin_observation b pkg) in
  if decide (current = Some before) then Ret (Ok tt)
  else Ret (Err (CONFLICT, &"Package '" ++ pkg ++ &"' changed origin during delete")).

(** [internal] of app.rs. *)
Definition internal {A} (label : str) (p : prog (res A)) : prog (reply A) :=
  or_answer INTERNAL_SERVER_ERROR (fun e => label ++ &": " ++ show_error e) p.

(** Between the intent and its commit: out of the index, fenced, gone; the
    answer is whether the delete is truth of the fleet. *)
Definition delete_inner : prog (reply bool) :=
  let*! before := delete_claim in
  let*! _ := internal (&"index rewrite failed") (rebuild_package_excluding (Some filename)) in
  let*! _ := claim_unchanged before in
  let private := bool_decide (state before = OriginState.Private) in
  let*! _ := (if private then internal (&"tombstone write failed") (tombstone_write b akey filename) else Ret (Ok tt)) in
  let*! _ := internal (&"artifact delete failed") (call b (DeleteKeys [akey])) in
  let* _ := call b (DeleteKeys [sidecar_key akey; metadata_key akey; provenance_key akey]) in
  Ret (Ok private).

Definition delete_record : prog (reply Z) :=
  let*! found := or_answer SERVICE_UNAVAILABLE (fun e => &"storage error: " ++ show_error e)
    (call b (HeadExists akey)) in
  if negb found then Ret (Err (NOT_FOUND, &"No such file")) else
  let*! nonce := or_answer SERVICE_UNAVAILABLE (fun e => &"failed to reserve delete: " ++ show_error e)
    (mark_intent b pkg) in
  let* deleted := delete_inner in
  let* _ := mark_commit b pkg nonce in
  let*! replicate_delete := Ret deleted in
  let*! _ := (if replicate_delete : bool
              then or_answer SERVICE_UNAVAILABLE (unrecorded_replication_gap Delete)
                     (fan_out srv wx b pkg filename FromBucket)
              else Ret (Ok tt)) in
  Ret (Ok NO_CONTENT).

End delete.

(** ** Sidecar edits *)

Inductive SidecarEdit := Yank (desired : Yanked) | UploadTime (want_sha256 time : str).

Definition mutation_of (edit : SidecarEdit) : Mutation :=
  match edit with Yank _ => Yank_ | UploadTime _ _ => UploadTime_ end.

Definition edit_refusal (record : Record_) (claim : option StatusDoc.Origin) (edit : SidecarEdit) : option http :=
  let st := classify_record record in
  if negb (listed record claim) then
    Some (match st with
          | Absent _ | Bare => (NOT_FOUND, &"No such file")
          | _ => (CONFLICT, &"file is deleted, frozen or quarantined")
          end)
  else if match st with Live _ _ superseding => superseding | _ => false end then
    Some (CONFLICT, &"a replication repair is rewriting this file's metadata; retry")
  else if match edit with UploadTime _ _ => true | Yank _ => false end
          && (negb (bool_decide (claim = Some StatusDoc.Private))
              || negb (match st with Live _ StatusDoc.Private _ => true | _ => false end))
  then Some (CONFLICT, &"timestamp repair requires a private artifact")
  else None.

Definition PROBED : list str := [[]; TOMBSTONE_SUFFIX; FROZEN_SUFFIX; MIRROR_QUARANTINED_SUFFIX; SUPERSEDING_SUFFIX].

(** Field updates of a sidecar. *)
Definition set_yanked (sc : Sidecar) (y : Yanked) : Sidecar :=
  MkSidecar (sha256 sc) (size sc) (version sc) (upload_time sc) (upload_epoch_ms sc) (requires_python sc) y
    (sc_origin sc) (yank_epoch sc) (upload_time_revision sc) (snapshot sc) (store_checksum sc).
Definition set_upload_time (sc : Sidecar) (t : str) : Sidecar :=
  MkSidecar (sha256 sc) (size sc) (version sc) t (upload_epoch_ms sc) (requires_python sc) (yanked sc)
    (sc_origin sc) (yank_epoch sc) (upload_time_revision sc) (snapshot sc) (store_checksum sc).
Definition set_yank_epoch (sc : Sidecar) (n : Z) : Sidecar :=
  MkSidecar (sha256 sc) (size sc) (version sc) (upload_time sc) (upload_epoch_ms sc) (requires_python sc) (yanked sc)
    (sc_origin sc) n (upload_time_revision sc) (snapshot sc) (store_checksum sc).
Definition set_revision (sc : Sidecar) (n : Z) : Sidecar :=
  MkSidecar (sha256 sc) (size sc) (version sc) (upload_time sc) (upload_epoch_ms sc) (requires_python sc) (yanked sc)
    (sc_origin sc) (yank_epoch sc) n (snapshot sc) (store_checksum sc).

Section edit.
Variables (srv : Server) (wx : Weather) (b : nat) (pkg filename : str) (edit : SidecarEdit).
Abbreviation akey := (artifact_key pkg filename).

Definition check_editable (sc : Sidecar) : prog (reply unit) :=
  let* r := both (join_all (jobs wx) ((fun suffix => call b (HeadExists (companion_key akey suffix))) <$> PROBED))
              (jobs wx O) (read_origin_claim b pkg) in
  match (let? present := all_ok r.1 in let? claimed := r.2 in Ok (present, claimed)) with
  | Err e => Ret (Err (SERVICE_UNAVAILABLE, &"record read failed: " ++ show_error e))
  | Ok (present, claimed) =>
    let claim := claimed ≫= origin_of_state in
    let record := from_listing (fun suffix => existsb (fun p => p.2 && bool_decide (p.1 = suffix)) (zip PROBED present))
                    (Some sc) claim in
    Ret (match edit_refusal record claim edit with Some refused => Err refused | None => Ok tt end)
  end.

(** The sidecar with the edit made, and whether that changes it. *)
Definition apply_edit (sc : Sidecar) : reply (Sidecar * bool) :=
  match edit with
  | Yank desired => Ok (set_yanked sc desired, negb (bool_decide (yanked_normalized (yanked sc) = desired)))
  | UploadTime sha time =>
    if negb (eq_ignore_ascii_case (sha256 sc) sha)
    then Err (CONFLICT, &"SHA-256 mismatch; refusing timestamp repair")
    else Ok (set_upload_time sc time, negb (bool_decide (instant (upload_time sc) = instant time)))
  end.

(** [checked_add(1)] on the edit's revision. *)
Definition bump (sc : Sidecar) : option Sidecar :=
  match edit with
  | Yank _ => if yank_epoch sc =? u64_max then None else Some (set_yank_epoch sc (yank_epoch sc + 1))
  | UploadTime _ _ =>
    if upload_time_revision sc =? u64_max then None else Some (set_revision sc (upload_time_revision sc + 1))
  end.

(** What the loop leaves: the intent it holds by then, and the sidecar's origin
    when the edit is in place ([None]: nothing to do). *)
Abbreviation edited := (reply (option (option str))).

Fixpoint edit_loop (attempts : nat) (intent : option (option str)) : prog (edited * option (option str)) :=
  match attempts with
  | O => Ret (Err (CONFLICT, &"sidecar changed repeatedly; retry the metadata update"), intent)
  | S attempts =>
    let* read := call b (GetWithEtag (sidecar_key akey)) in
    match read with
    | Err e => Ret (Err (SERVICE_UNAVAILABLE, &"sidecar read failed: " ++ show_error e), intent)
    | Ok None => Ret (Err (NOT_FOUND, &"No such file"), intent)
    | Ok (Some (bytes, etag)) =>
      match decode bytes with
      | None => Ret (Err (INTERNAL_SERVER_ERROR, &"bad sidecar: " ++ show_error Corrupt), intent)
      | Some sc =>
        let* editable := check_editable sc in
        match (let? _ := editable in apply_edit sc) with
        | Err refused => Ret (Err refused, intent)
        | Ok (sc, changed) =>
          if negb changed then
            if match edit with Yank _ => true | _ => false end && negb (multi srv)
            then Ret (Ok None, intent) else Ret (Ok (Some (sc_origin sc)), intent)
          else
            match bump sc with
            | None => Ret (Err (CONFLICT, &"sidecar revision exhausted"), intent)
            | Some sc =>
              let* intent := (match intent with
                              | Some _ => Ret intent
                              | None => let* nonce := open_best_effort b pkg in Ret (Some nonce)
                              end) in
              let* swapped := call b (PutIfMatch (sidecar_key akey) etag (encode sc)) in
              match swapped with
              | Err e => Ret (Err (INTERNAL_SERVER_ERROR, &"write: " ++ show_error e), intent)
              | Ok None => edit_loop attempts intent
              | Ok (Some _) =>
                let* again := check_editable sc in
                match again with
                | Err (code, msg) =>
                  if code =? SERVICE_UNAVAILABLE then Ret (Ok (Some (sc_origin sc)), intent)
                  else Ret (Err (code, msg), intent)
                | Ok _ => Ret (Ok (Some (sc_origin sc)), intent)
                end
              end
            end
        end
      end
    end
  end.

Definition EDIT_ATTEMPTS : nat := 8.

(** Whether an edit rides to the other buckets. *)
Definition replicate_edit (record_origin : option str) : prog (reply bool) :=
  if negb (multi srv) then Ret (Ok false) else
  let typed o := bool_decide (o = Some OriginState.PRIVATE \/ o = Some OriginState.MIRROR) in
  if typed record_origin then Ret (Ok true) else
  let*! claimed := or_answer SERVICE_UNAVAILABLE (fun e => &"storage error reading origin for replication: " ++ show_error e)
    (read_origin b pkg) in
  Ret (Ok (typed claimed)).

Definition edit_sidecar : prog (reply Z) :=
  let*! intent := (if multi srv then
                     let*! nonce := or_answer SERVICE_UNAVAILABLE
                       (fun e => &"failed to reserve " ++ noun (mutation_of edit) ++ &": " ++ show_error e)
                       (mark_intent b pkg) in
                     Ret (Ok (Some (Some nonce)))
                   else Ret (Ok None)) in
  let* done := edit_loop EDIT_ATTEMPTS intent in
  match done with
  | (Ok (Some record_origin), intent) =>
    let* _ := commit_marker b pkg (match intent with Some nonce => nonce | None => None end) in
    let*! replicate_this := replicate_edit record_origin in
    let*! _ := (if replicate_this : bool
                then or_answer SERVICE_UNAVAILABLE (unrecorded_replication_gap (mutation_of edit))
                       (fan_out srv wx b pkg filename FromBucket)
                else Ret (Ok tt)) in
    Ret (Ok OK)
  | (Ok None, intent) =>
    let* _ := (match intent with Some nonce => commit_marker b pkg nonce | None => Ret (Ok tt) end) in
    Ret (Ok OK)
  | (Err refused, intent) =>
    let* _ := (match intent with Some nonce => commit_marker b pkg nonce | None => Ret (Ok tt) end) in
    Ret (Err refused)
  end.

End edit.

Definition set_yank (srv : Server) (wx : Weather) (b : nat) (pkg filename : str) (y : Yanked) : prog (reply Z) :=
  edit_sidecar srv wx b pkg filename (Yank (yanked_normalized y)).

End programs.
(** ** Executions that answer *)

Section answers.
Context {E : Etags}.

Lemma exec_or_answer A code msg (p : prog (res A)) w a w' :
  exec (or_answer code msg p) w (Ok a) w' -> exec p w (Ok a) w'.
Proof. intros ([x|e] & w1 & Hp & [Heq ->])%exec_bind; [|done]. by injection Heq as ->. Qed.

Lemma guar_or_answer G A code msg (p : prog (res A)) :
  guar G (fun _ => True) p -> guar G (fun _ => True) (or_answer code msg p).
Proof. intros Hp. unfold or_answer. by eapply (guar_bind _ _ _ (fun _ => True)). Qed.

Lemma exec_hbind A B (p : prog (reply A)) (k : A -> prog (reply B)) w y w' :
  exec (hbind p k) w (Ok y) w' -> exists x w1, exec p w (Ok x) w1 /\ exec (k x) w1 (Ok y) w'.
Proof. intros ([x|e] & w1 & Hp & He)%exec_bind; [by exists x, w1|]. by destruct He. Qed.

End answers.

(** ** Bounds *)

(** A write is charged at least one permit and at most a whole slot. *)
Lemma write_weight_bounds size : u64 size -> 1 <= artifact_write_weight size <= 64.
Proof.
  intros [H0 H1]. unfold artifact_write_weight. cbv zeta.
  assert (forall n, 0 <= n <= MULTIPART_THRESHOLD -> div_ceil n MIB <= 64) as Hdiv.
  { unfold div_ceil, MULTIPART_THRESHOLD, MIB. intros n Hn. case_match eqn:Hz; [apply Z.div_le_upper_bound; lia|].
    apply Z.eqb_neq in Hz. assert (n / (1024 * 1024) < 64) by (apply Z.div_lt_upper_bound; [lia|];
      destruct (decide (n = 64 * (1024 * 1024))) as [->|]; [by vm_compute in Hz|lia]). lia. }
  split; [lia|]. apply Z.max_lub; [|lia]. case_match eqn:Hs; [apply Z.leb_le in Hs; apply Hdiv; lia|].
  by vm_compute.
Qed.

(** A filename that may be uploaded names a record of its own. *)
Lemma valid_filename_record filename :
  valid_artifact_filename filename = true -> is_artifact filename = true /\ ("/"%char ∉ filename).
Proof.
  unfold valid_artifact_filename. intros Hv. bool_to_prop. split; [done|]. intros Hin. apply contains_byte_true in Hin. congruence.
Qed.

End Publish.
