(* ===== verification/Edits.v ===== *)
(** * Edits and deletes keep their order (src/publish.rs)

    What other nodes may see while a delete runs, and what an edit leaves. *)
From stdpp Require Import functions.
From S2P Require Import Prelude RustStr Pep440 Names Documents Hash Decide Storage Origin Status Markers Replicate Artifact Execute Footprint Preserve Scan Converge Claims Fanout Denylist Render Jobs Index Rebuild Pages Publish.
Import Names Sidecar Decide Storage Origin Hash Markers Replicate Artifact Execute Footprint Converge Claims Fanout Denylist Render Jobs Index Rebuild Pages Publish.

Module Edits.

Ltac suffix_in := apply (bool_decide_unpack _); vm_compute; exact I.

Section edits.
Context {D : Digest} {T : Chunking} `{ClaimCodec} {JS : Codec Sidecar} {JF : Codec FilenameBody}
  {JD : Codec StatusDoc.StoredProjectStatus} {JP : Codec Pep691PkgIndex} {X : HtmlEscape} {P : Pep440}
  {V : CopyVerb} {M5 : Md5} {E : Etags}.
Variables (show_error : error -> str) (instant : str -> option Z).

(** ** Edits advance the sidecar *)

(** One revision: the yank with its epoch, or the upload time with its revision,
    and nothing else of the sidecar. *)
Definition revised (sc sc' : Sidecar) : Prop :=
  yank_epoch sc' = yank_epoch sc + 1
    /\ sc' = MkSidecar (sha256 sc) (size sc) (version sc) (upload_time sc) (upload_epoch_ms sc) (requires_python sc) (yanked sc')
               (sc_origin sc) (yank_epoch sc') (upload_time_revision sc) (snapshot sc) (store_checksum sc)
  \/ upload_time_revision sc' = upload_time_revision sc + 1
    /\ sc' = MkSidecar (sha256 sc) (size sc) (version sc) (upload_time sc') (upload_epoch_ms sc) (requires_python sc) (yanked sc)
               (sc_origin sc) (yank_epoch sc) (upload_time_revision sc') (snapshot sc) (store_checksum sc).

(** How a stored sidecar changes: an adoption, or a revision that wins the merge
    against what it replaced whatever origin both are ranked under. *)
Definition sidecar_step (old new : option str) : Prop :=
  sidecar_move old new
  \/ exists was sc sc', old = Some was /\ decode was = Some sc /\ new = Some (encode sc') /\ revised sc sc'
     /\ sha256 sc' = sha256 sc /\ forall o, sidecar_merge sc' (Some o) sc (Some o) = MA.

Section loop.
Variables (srv : Server) (wx : Weather) (b : nat) (pkg f : str) (edit : SidecarEdit).

Lemma reads_check_editable sc : guar reads (fun _ => True) (check_editable show_error wx b pkg f edit sc).
Proof.
  unfold check_editable. eapply (guar_bind _ _ _ (fun _ => True)).
  - eapply guar_mono; [|apply (guar_pair _ _ _ (fun _ => True) (fun _ => True))]; [done| |].
    + eapply guar_mono; [|apply (guar_join_all _ _ (fun _ => True))]; [done|]. apply Forall_fmap, Forall_forall.
      intros suffix _. by apply guar_call.
    + unfold read_origin_claim. by apply guar_call_bind.
  - intros r _. by repeat case_match.
Qed.

Lemma cmp_later (n : Z) : cmp (n + 1) n = Gt.
Proof. change (Z.compare (n + 1) n = Gt). apply Z.compare_gt_iff. lia. Qed.

Lemma edit_revises sc sc' changed sc'' :
  apply_edit instant edit sc = Ok (sc', changed) -> bump edit sc' = Some sc'' -> revised sc sc''.
Proof.
  intros Ha Hb. unfold apply_edit in Ha. unfold bump in Hb. destruct edit as [desired|sha time].
  - injection Ha as <- <-. case_match; [done|]. injection Hb as <-. by left.
  - destruct (negb _); [done|]. injection Ha as <- <-. case_match; [done|]. injection Hb as <-. by right.
Qed.

(** An edit wins the merge against what it replaced, whatever the origin both
    are ranked under. *)
Lemma edit_wins sc sc' changed sc'' o :
  apply_edit instant edit sc = Ok (sc', changed) -> bump edit sc' = Some sc'' ->
  sha256 sc = sha256 sc'' /\ sidecar_merge sc'' (Some o) sc (Some o) = MA.
Proof.
  intros Ha Hb. unfold apply_edit in Ha. unfold bump in Hb. unfold sidecar_merge, ranked_merge, sidecar_merge_key.
  destruct edit as [desired|sha time].
  - injection Ha as <- <-. case_match; [done|]. injection Hb as <-. split; [done|].
    cbn [cmp prod_ord fst snd yank_epoch set_yank_epoch set_yanked]. by rewrite cmp_refl, cmp_later.
  - destruct (negb _); [done|]. injection Ha as <- <-. case_match; [done|]. injection Hb as <-. split; [done|].
    unfold is_yanked. cbn [cmp prod_ord fst snd yank_epoch yanked upload_time_revision set_revision set_upload_time].
    by rewrite !cmp_refl, cmp_later.
Qed.

Abbreviation advances := (follows record_key sidecar_step).

Lemma advances_marker pkg' n s bytes : advances b (res unit) (PutBytes (marker_key pkg' n s) bytes).
Proof. intros i Hk. by vm_compute in Hk. Qed.

Lemma advances_open : guar advances (fun _ => True) (open_best_effort b pkg).
Proof.
  unfold open_best_effort, mark_intent, mark_intent_with_nonce, put_marker.
  eapply (guar_bind _ _ _ (fun _ => True)); [|done]. apply guar_call_bind; [done|]. intros n _.
  apply guar_call_ok; [apply advances_marker|done|done].
Qed.

Lemma guar_edit n intent : guar advances (fun _ => True) (edit_loop show_error instant srv wx b pkg f edit n intent).
Proof.
  revert intent. induction n as [|n IH]; intros intent; [done|]. cbn [edit_loop].
  apply guar_call_bind; [done|]. intros [[[bytes etag]|]|e] Hread; [|done|done].
  destruct (decode bytes) as [sc|] eqn:Hsc; [|done].
  eapply guar_bind; [apply guar_reads, reads_check_editable|intros editable _].
  destruct (let? _ := editable in apply_edit instant edit sc) as [[sc' changed]|refused] eqn:Ha; [|done].
  destruct editable as [[]|]; [|done]. cbn [rbind] in Ha.
  destruct (negb changed); [by case_match|]. destruct (bump edit sc') as [sc''|] eqn:Hb; [|done].
  eapply (guar_bind _ _ _ (fun _ => True)).
  { destruct intent; [done|]. eapply guar_bind; [apply advances_open|done]. }
  intros intent' _. apply guar_call_bind.
  { intros i _. exists bytes. split; [by apply Hread|]. right. exists bytes, sc, sc''.
    destruct (edit_wins _ _ _ _ StatusDoc.Private Ha Hb) as [Hsha _]. split_and!; try done; [by eapply edit_revises|].
    intros o. by apply (edit_wins _ _ _ _ o Ha Hb). }
  intros [[etag'|]|e] _; [|apply IH|done].
  eapply guar_bind; [apply guar_reads, reads_check_editable|]. intros [[]|[code msg]] _; [done|]. by case_match.
Qed.
End loop.

(** C11: a sidecar is never replaced by a worse one. Along every interleaving of
    yank, unyank and upload-time edits (whatever servers and buckets run them,
    each retrying under its token) with replication's sidecar adoptions and with
    programs that write no sidecar, every change of a stored sidecar is one of
    two: an edit, which changes the yank or the upload time alone, with exactly
    one more epoch or revision, and wins the merge against exactly the sidecar it
    replaces under any origin; or an adoption of a sidecar of the same artifact
    bytes that wins the merge against exactly the one it replaces, each ranked
    under the origin it states (a package's claim only where it states none). So
    no edit is lost to a concurrent one or undone by an adoption of an older. *)
Theorem sidecars_advance (w w' : world) ts ts' :
  wf_world w ->
  Forall (fun p => (exists srv wx b pkg f edit n intent,
                      p = thread (edit_loop show_error instant srv wx b pkg f edit n intent))
                   \/ (exists n a b pkg f, p = thread (adopt_loop n a b pkg f))
                   \/ guar (spares record_key) (fun _ => True) p) ts ->
  rtc step (w, ts) (w', ts') ->
  forall b pkg f, rtc sidecar_step (contents (w b) (sidecar_key (artifact_key pkg f)))
                    (contents (w' b) (sidecar_key (artifact_key pkg f))).
Proof.
  intros Hw Hts Hsteps b pkg f.
  assert (Forall (guar (follows record_key sidecar_step) (fun _ => True)) ts) as Hg.
  { eapply Forall_impl; [exact Hts|].
    intros p [(srv & wx & b' & pkg' & f' & edit & n & intent & ->)|[(n & a & c & pkg' & f' & ->)|Hp]].
    - eapply guar_thread. apply guar_edit.
    - eapply guar_thread, guar_weaken, guar_adopt. intros c' R o. apply follows_mono. by left.
    - eapply guar_weaken; [|exact Hp]. intros. by apply spares_follows. }
  destruct (steps_follow record_key sidecar_step _ _ _ _ Hw Hg Hsteps) as [_ HT]. apply (HT b (pkg, f)).
Qed.
End edits.

(** ** A delete never leaves a listed file missing *)

Section deletes.
Context {D : Digest} {T : Chunking} `{ClaimCodec} {JS : Codec Sidecar} {JF : Codec FilenameBody}
  {JD : Codec StatusDoc.StoredProjectStatus} {JP : Codec Pep691PkgIndex} {X : HtmlEscape} {P : Pep440} {E : Etags}.
Variables (rfc3339 : Z -> str) (show_error : error -> str).

Section deleting.
Variables (srv : Server) (wx : Weather) (b : nat) (memo : PackageSidecars) (pkg f : str).
Hypothesis names_ok : valid_names pkg f.
Hypothesis plain_f : "/"%char ∉ f.
Abbreviation akey := (artifact_key pkg f).
Abbreviation cfg := (index_config srv).

(** Two stores that differ at most in the record of [f]. *)
Definition same_but (s s' : store) : Prop :=
  forall k, (forall suffix, suffix ∈ [] :: companion_suffixes -> k ≠ companion_key akey suffix) -> contents s' k = contents s k.

Lemma file_in_name s claim g m : file_in s pkg claim g = Some m -> fm_filename m = g.
Proof.
  unfold file_in. destruct (contents s (sidecar_key (artifact_key pkg g))) as [bytes|]; [|done]. cbn [mbind option_bind].
  destruct (decode bytes) as [sc|]; [|done]. cbn [mbind option_bind]. case_match; [|done].
  intros Heq. apply (f_equal (fmap fm_filename)) in Heq. cbn in Heq. congruence.
Qed.

(** The shown files apart from [f] are those of the other names. *)
Lemma files_apart s claim :
  List.filter (fun m => negb (bool_decide (fm_filename m = f))) (files_in s pkg claim)
  = omap (file_in s pkg claim) (filter (fun g => g ≠ f) (artifact_names s pkg)).
Proof.
  unfold files_in. induction (artifact_names s pkg) as [|g l IH]; [done|]. cbn [omap list_omap].
  rewrite filter_cons. destruct (file_in s pkg claim g) as [m|] eqn:Hm.
  - cbn [List.filter]. rewrite (file_in_name _ _ _ _ Hm), IH. case_bool_decide; case_decide; try done.
    cbn [negb omap list_omap]. by rewrite Hm.
  - rewrite IH. case_decide; [|done]. cbn [omap list_omap]. by rewrite Hm.
Qed.

Lemma other_record g suffix :
  valid_names pkg g -> g ≠ f -> suffix ∈ [] :: companion_suffixes ->
  forall t, t ∈ [] :: companion_suffixes -> companion_key (artifact_key pkg g) suffix ≠ companion_key akey t.
Proof. intros Hg Hne Hs t Ht Heq. apply key_inj in Heq as (_ & -> & _); done. Qed.

(** What the pages say of the other files does not depend on [f]'s record. *)
Lemma pages_true_apart s s' : same_but s s' -> pages_true cfg True s pkg (Some f) -> pages_true cfg True s' pkg (Some f).
Proof.
  intros Hs. destruct names_ok as [Hp Hf].
  assert (forall k, starts_with PACKAGES_PREFIX k = false -> contents s' k = contents s k) as Hpages.
  { intros k Hk. apply Hs. intros suffix _ ->. by rewrite under_companion in Hk. }
  assert (contents s' (origin_key pkg) = contents s (origin_key pkg)) as Ho.
  { apply Hs. intros suffix Hsuf Heq. symmetry in Heq. revert Heq. apply (package_key_plain pkg).
    constructor; [by apply artifact_member|done]. }
  assert (contents s' (Status.status_key pkg) = contents s (Status.status_key pkg)) as Hst.
  { apply Hs. intros suffix Hsuf Heq. rewrite companion_key_artifact in Heq.
    apply (artifact_key_inj pkg pkg PROJECT_STATUS_MARKER) in Heq as [_ Heq]; [|done..].
    unfold is_artifact in Hf. destruct f as [|c g]; [done|]. injection Heq as <- _. by vm_compute in Hf. }
  assert (omap (file_in s' pkg (claim_in s' pkg)) (filter (fun g => g ≠ f) (artifact_names s' pkg))
          = omap (file_in s pkg (claim_in s pkg)) (filter (fun g => g ≠ f) (artifact_names s pkg))) as Hfiles.
  { rewrite (claim_in_same pkg s s') by done.
    assert (filter (fun g => g ≠ f) (artifact_names s' pkg) = filter (fun g => g ≠ f) (artifact_names s pkg)) as ->.
    { apply sorted_unique; try apply sorted_filter, artifact_names_sorted; try apply NoDup_filter, artifact_names_NoDup.
      intros g. rewrite !list_elem_of_filter, !elem_of_artifact_names by done.
      assert (g ≠ f -> is_artifact g = true -> contents s' (artifact_key pkg g) = contents s (artifact_key pkg g)) as Hg.
      { intros Hne Hg. apply Hs. rewrite <- (ck_nil pkg g). intros t Ht. apply other_record; [by split|done|left|done]. }
      unfold present. split; intros (Hne & Ha & Hpl & Hpr); split_and!; try done; [rewrite <- Hg|rewrite Hg]; done. }
    apply omap_same. intros g [Hg Hin]%list_elem_of_filter. apply elem_of_artifact_names in Hin as (Ha & _ & _); [|done].
    apply file_in_same. intros suffix Hsuf. apply Hs. intros t Ht. by apply other_record. }
  unfold pages_true, visible. rewrite !files_apart, Hfiles, (claim_in_same pkg s s'), !Hpages by done.
  unfold status_in. by rewrite Hst.
Qed.

Lemma same_but_step (w : world) R (o : op R) r s :
  wf_world w -> op_step o (w b) r s ->
  (forall k, names_key o k -> exists suffix, suffix ∈ [] :: companion_suffixes /\ k = companion_key akey suffix) ->
  same_but (w b) s.
Proof.
  intros Hw Hs Ho k Hk. eapply op_step_frame; [apply Hw|exact Hs|]. intros Hn.
  destruct (Ho k Hn) as (suffix & Hsuf & ->). by apply (Hk suffix).
Qed.

Lemma claim_apart s s' : same_but s s' -> claim_in s' pkg = claim_in s pkg.
Proof.
  intros Hs. apply claim_in_same, Hs. intros suffix Hsuf Heq. symmetry in Heq. revert Heq. destruct names_ok.
  apply (package_key_plain pkg). constructor; [by apply artifact_member|done].
Qed.

(** The file is off the pages and, if its delete is the fleet's, fenced. *)
Definition off_index (w : world) : Prop :=
  pages_true cfg True (w b) pkg (Some f)
  /\ (claim_in (w b) pkg = Some StatusDoc.Private -> present (w b) (tombstone_key akey)).

(** No page names a missing body. *)
Definition never_dangling (w : world) : Prop := present (w b) akey \/ off_index w.

(** Taking the record's objects away, its fence apart. *)
Lemma off_index_step (w : world) keys r s :
  wf_world w -> (forall k, k ∈ keys -> k ∈ record_object_keys akey) ->
  op_step (DeleteKeys keys) (w b) r s -> off_index w -> off_index (<[b := s]> w).
Proof.
  intros Hw Hk Hs [Hp Ht]. unfold off_index. rewrite fn_lookup_insert.
  assert (same_but (w b) s) as Hsame.
  { eapply same_but_step; [done|exact Hs|]. intros k Hn%Hk. unfold record_object_keys in Hn. rewrite !elem_of_cons in Hn.
    destruct Hn as [->|[->|[->|[->|[]%elem_of_nil]]]];
      [exists []; split; [suffix_in|by rewrite (ck_nil pkg)]|eexists; (split; [|reflexivity]; suffix_in)..]. }
  split; [by eapply pages_true_apart|]. rewrite (claim_apart _ _ Hsame). intros Hc. specialize (Ht Hc).
  unfold present. erewrite op_step_frame; [exact Ht|apply Hw|exact Hs|]. cbn [names_key]. intros Hn%Hk.
  unfold record_object_keys, tombstone_key, sidecar_key, metadata_key, provenance_key, companion_key in Hn.
  rewrite !elem_of_cons in Hn. destruct Hn as [Heq|[Heq|[Heq|[Heq|[]%elem_of_nil]]]].
  - apply (f_equal length) in Heq. rewrite length_app in Heq. cbn in Heq. lia.
  - by apply app_inv_head in Heq.
  - by apply app_inv_head in Heq.
  - by apply app_inv_head in Heq.
Qed.

(** A rebuild that drops the file: its body stays throughout, and on success
    the pages are true without it. *)
Lemma holds_rebuild w :
  wf_world w -> memo_ok memo -> present (w b) akey ->
  holds (fun v => wf_world v /\ present (v b) akey)
    (fun r v => match r with Ok _ => pages_true cfg True (v b) pkg (Some f) /\ claim_in (v b) pkg = claim_in (w b) pkg | Err _ => True end)
    (rebuild_package_excluding rfc3339 srv wx b memo pkg (Some f)) w.
Proof.
  intros Hw Hm Hbody. destruct names_ok as [Hp Hf].
  assert (guar (avoids b (fun k => k = akey \/ k = origin_key pkg)) (fun _ => True)
            (rebuild_package_excluding rfc3339 srv wx b memo pkg (Some f))) as Hg.
  { unfold rebuild_package_excluding. eapply (guar_bind_ok _ _ _ (fun _ => True)); [|done|done].
    eapply Preserve.Preserve.guar_avoids; [|apply touch_rebuild].
    intros k [Hk|[->|[->|(n & s & ->)]]] [Heq|Heq]; try done; subst k.
    - by eapply body_not_finished.
    - by eapply claim_not_finished. }
  assert (holds (fun _ => True) (fun r v => match r with Ok _ => pages_true cfg True (v b) pkg (Some f) | Err _ => True end)
            (rebuild_package_excluding rfc3339 srv wx b memo pkg (Some f)) w) as Hex.
  { apply exec_holds. intros [r|e] v He; [|done]. unfold rebuild_package_excluding in He.
    apply exec_ok in He as ([rb fr] & w1 & He & [_ ->]). by apply exec_rebuild in He as (_ & _ & ?). }
  eapply holds_conseq; [| |exact (holds_and _ _ _ _ _ _ _ (guar_frame _ _ _ _ _ _ Hw Hg) Hex)].
  - intros v [[Hv Hs] _]. split; [done|]. unfold present. by rewrite Hs by auto.
  - intros [r|e] v [[Hv Hs] _] [_ Hr]; [|done]. split; [done|]. apply claim_in_same. apply Hs. auto.
Qed.

Lemma reads_delete_claim : guar reads (fun _ => True) (delete_claim show_error srv b pkg f).
Proof.
  unfold delete_claim. eapply (guar_bind _ _ _ (fun _ => True)); [apply guar_or_answer, reads_observation|].
  intros r _. by repeat case_match.
Qed.

Lemma reads_claim_unchanged before : guar reads (fun _ => True) (claim_unchanged show_error srv b pkg before).
Proof.
  unfold claim_unchanged. case_match; [done|].
  eapply (guar_bind _ _ _ (fun _ => True)); [apply guar_or_answer, reads_observation|]. intros r _. by repeat case_match.
Qed.

Lemma exec_delete_claim w before w' :
  exec (delete_claim show_error srv b pkg f) w (Ok before) w' -> claim_in (w b) pkg = origin_of_state (state before).
Proof.
  intros (o & w1 & Ho & He)%exec_hbind. apply exec_or_answer, exec_observation in Ho as [-> Ho].
  destruct o as [o|]; [|by destruct He]. destruct (state o) eqn:Hst; [by destruct He| |].
  - destruct (multi srv); [by destruct He|]. destruct He as [[= <-] _]. by rewrite Ho, Hst.
  - destruct He as [[= <-] _]. by rewrite Ho, Hst.
Qed.

(** The fence of a private delete, behind true pages and with the body there. *)
Lemma holds_fence before v :
  wf_world v -> present (v b) akey -> pages_true cfg True (v b) pkg (Some f) ->
  claim_in (v b) pkg = origin_of_state (state before) ->
  holds never_dangling (fun r v' => wf_world v' /\ match r with Ok _ => off_index v' | Err _ => present (v' b) akey end)
    (if bool_decide (state before = OriginState.Private)
     then internal show_error (&"tombstone write failed") (tombstone_write b akey f) else Ret (Ok tt)) v.
Proof.
  intros Hv Hbody Hpages Hclaim. case_bool_decide as Hst.
  2:{ apply holds_ret; [by left|]. split; [done|]. split; [done|]. rewrite Hclaim. by destruct (state before). }
  unfold internal, or_answer, tombstone_write. apply holds_bind, holds_bind. split; [by left|]. intros r s Hs.
  pose proof (wf_step _ _ _ _ _ _ Hv Hs) as Hv'.
  assert (same_but (v b) s) as Hsame.
  { eapply same_but_step; [done|exact Hs|]. intros k <-. exists TOMBSTONE_SUFFIX. split; [suffix_in|done]. }
  assert (present (<[b := s]> v b) akey) as Hbody'.
  { rewrite fn_lookup_insert. unfold present. erewrite op_step_frame; [exact Hbody|apply Hv|exact Hs|].
    by apply companion_apart. }
  apply holds_ret; [by left|]. destruct r as [created|e]; repeat (apply holds_ret; [by left|]); [|done].
  split; [done|]. unfold off_index. rewrite fn_lookup_insert. split; [by eapply pages_true_apart|].
  intros _. by eapply put_if_absent_present.
Qed.

(** The record's objects, once it is off the index. *)
Lemma holds_drop v (x : bool) :
  wf_world v -> off_index v ->
  holds never_dangling (fun r v' => match r with Ok _ => ~ present (v' b) akey | Err _ => True end)
    (let*! _ := internal show_error (&"artifact delete failed") (call b (DeleteKeys [akey])) in
     let* _ := call b (DeleteKeys [sidecar_key akey; metadata_key akey; provenance_key akey]) in
     Ret (Ok x)) v.
Proof.
  intros Hv Hoff. apply holds_bind. unfold internal, or_answer. apply holds_bind. split; [by right|]. intros r s Hs.
  pose proof (wf_step _ _ _ _ _ _ Hv Hs) as Hv'.
  assert (off_index (<[b := s]> v)) as Hoff'.
  { eapply off_index_step; [done| |exact Hs|done]. intros k ->%list_elem_of_singleton. by left. }
  apply holds_ret; [by right|]. destruct r as [[]|e]; (apply holds_ret; [by right|]); [|by apply holds_ret; [right|]].
  assert (~ present s akey) as Hgone by (eapply delete_keys_done; [exact Hs|done|by left]).
  apply holds_bind. split; [by right|]. intros r s' Hs'. repeat (apply holds_ret; [by right; eapply off_index_step; [done| |exact Hs'|done]; unfold record_object_keys; set_solver|]).
  intros Hp. apply Hgone. rewrite fn_lookup_insert in Hs', Hp. unfold present in *.
  erewrite op_step_frame in Hp; [exact Hp| |exact Hs'|]; [specialize (Hv' b); by rewrite fn_lookup_insert in Hv'|].
  cbn [names_key]. rewrite !elem_of_cons. intros [Heq|[Heq|[Heq|[]%elem_of_nil]]]; symmetry in Heq; by apply companion_apart in Heq.
Qed.

(** C10: a delete never leaves a page naming a missing file. Between the intent
    and its commit, at every moment and whatever the storage answers (so also
    where the process dies), as long as the body was there at first: either it
    still is, or the pages the bucket stores are true without the file, and a
    private delete's tombstone stands. When the delete reports success, the body
    is gone. *)
Theorem delete_never_dangles w :
  wf_world w -> memo_ok memo -> present (w b) akey ->
  holds never_dangling (fun r v => match r with Ok _ => ~ present (v b) akey | Err _ => True end)
    (delete_inner rfc3339 show_error srv wx b memo pkg f) w.
Proof.
  intros Hw Hm Hbody. unfold delete_inner.
  apply holds_reading; [by left|apply reads_delete_claim|done|]. intros [before|e] Hbefore; [|apply holds_ret; [by left|done]].
  apply exec_delete_claim in Hbefore.
  apply holds_bind. unfold internal at 1, or_answer. apply holds_bind.
  eapply holds_conseq; [| |by apply holds_rebuild]; [intros v [_ Hv]; by left|].
  intros r v [Hv Hbv] Hr. destruct r as [r|e]; apply holds_ret; try (by left); [|apply holds_ret; [by left|done]].
  destruct Hr as [Hpages Hclaim]. rewrite Hbefore in Hclaim. clear Hbefore Hbody Hw w.
  apply holds_reading; [by left|apply reads_claim_unchanged|done|]. intros [[]|e] _; [|apply holds_ret; [by left|done]].
  cbv zeta. apply holds_bind.
  eapply (holds_mono _ _ (fun r v => wf_world v /\ match r with Ok _ => off_index v | Err _ => present (v b) akey end)).
  { intros [[]|e] v' _ [Hv' Hoff]; [|apply holds_ret; [by left|done]]. by apply holds_drop. }
  apply holds_fence; try done.
Qed.

End deleting.

End deletes.
(** *** Witnesses *)

#[local] Existing Instances toy_digest toy_chunking toy_claim_codec toy_sidecar_codec toy_filename_codec
  toy_status_codec toy_page_codec toy_escape toy_pep440 no_copy_verb content_etags.

Definition toy_md5 : Md5 := {| md5_hex := fun s => s |}.
#[local] Existing Instance toy_md5.

Definition one_bucket : Server := MkServer [&"s3://one"] (MkNames []) (fun _ => S3) 60 None None None.
Definition calm : Weather := MkWeather 1000 (fun _ => true) (fun _ => Waits) (fun _ _ => true) (fun _ _ _ => true).
Definition no_text (e : error) : str := [].
Definition yank_a : prog unit :=
  thread (edit_loop no_text (fun _ => None) one_bucket calm 0 (&"a") example_file (Yank (Flag true)) 8 None).

Lemma sidecars_advance_witness :
  rtc sidecar_step (contents (stocked_world 0%nat) (sidecar_key example_akey))
    (contents ((run example_env stocked_world yank_a).1 0%nat) (sidecar_key example_akey))
  /\ contents (stocked_world 0%nat) (sidecar_key example_akey)
     ≠ contents ((run example_env stocked_world yank_a).1 0%nat) (sidecar_key example_akey).
Proof.
  split.
  - apply (sidecars_advance no_text (fun _ => None) stocked_world _ [yank_a] [Ret (run example_env stocked_world yank_a).2]).
    + apply stocked_world_wf.
    + constructor; [left; by repeat eexists|constructor].
    + apply steps_run, example_env_good.
  - apply (bool_decide_unpack _). vm_compute. exact I.
Defined.

(** One private artifact with its sidecar and its claim. *)
Definition owned_world : world :=
  (run example_env stocked_world (claim_origin 0 (&"a") (MkRequest OriginState.PRIVATE None))).1.

Lemma owned_world_wf : wf_world owned_world.
Proof. apply wf_run, stocked_world_wf. Qed.

Definition delete_a : prog (reply bool) :=
  delete_inner (fun _ => []) no_text one_bucket calm 0 no_memo (&"a") example_file.

Lemma delete_never_dangles_witness :
  holds (never_dangling one_bucket 0 (&"a") example_file)
    (fun r v => match r with Ok _ => ~ present (v 0%nat) example_akey | Err _ => True end) delete_a owned_world
  /\ (run example_env owned_world delete_a).2 = Ok true.
Proof.
  split.
  - apply (delete_never_dangles (fun _ => []) no_text one_bucket calm 0 no_memo (&"a") example_file).
    + apply example_names.
    + apply (bool_decide_unpack _). vm_compute. exact I.
    + apply owned_world_wf.
    + split; intros g; unfold no_memo; cbn [memo_sidecars memo_metadata]; intros ? ?; by rewrite lookup_empty.
    + apply (bool_decide_unpack _). vm_compute. exact I.
  - vm_compute. reflexivity.
Defined.

End Edits.
