(* ===== verification/Uploads.v ===== *)
(** * What an acknowledged upload means (src/publish.rs)

    The answers of an upload, read back as facts about the bucket. *)
From stdpp Require Import functions.
From S2P Require Import Prelude RustStr Pep440 Names Documents Hash Decide Storage Origin Status Markers Replicate Artifact Execute Footprint Preserve Scan Converge Claims Fanout Denylist Render Jobs Index Rebuild Pages Publish Edits.
Import Names Sidecar Decide Storage Origin Hash Markers Replicate Artifact Execute Footprint Converge Claims Fanout Denylist Render Jobs Index Rebuild Pages Publish Edits.

Module Uploads.

Ltac suffix_in := apply (bool_decide_unpack _); vm_compute; exact I.

Section uploads.
Context {D : Digest} {T : Chunking} `{ClaimCodec} {JS : Codec Sidecar} {JF : Codec FilenameBody}
  {JD : Codec StatusDoc.StoredProjectStatus} {JP : Codec Pep691PkgIndex} {X : HtmlEscape} {P : Pep440} {V : CopyVerb} {M5 : Md5}
  {E : Etags}.
Variables (show_error : error -> str) (index_filenames : str -> option (list str)).

(** ** Pieces *)

Section pieces.
Variables (srv : Server) (wx : Weather) (b : nat) (req : PublishRequest).
Abbreviation pkg := (pr_pkg req).
Abbreviation akey := (artifact_key (pr_pkg req) (pr_filename req)).

(** A frame from a footprint. *)
Lemma exec_touch F A (p : prog A) w a w' :
  wf_world w -> guar (touches (fun _ => F)) (fun _ => True) p -> exec p w a w' ->
  wf_world w' /\ same_on b (fun k => ~ F k) w w'.
Proof.
  intros Hw Hg. eapply exec_frame; [done|]. eapply Preserve.Preserve.guar_avoids; [|exact Hg]. by intros k Hk Hn.
Qed.

(** Both HEADs answer for the bucket as it is. *)
Lemma exec_heads sched k1 k2 w x w' :
  exec (heads b sched k1 k2) w (Ok x) w' ->
  w' = w /\ (x.1 = true <-> present (w b) k1) /\ (x.2 = true <-> present (w b) k2).
Proof.
  intros (-> & H1 & H2)%exec_try_join_reads; [|done..].
  split_and!; [done|by eapply head_exists_answer|by eapply head_exists_answer].
Qed.

Lemma exec_unfenced w w' :
  exec (filename_unfenced show_error srv wx b req) w (Ok tt) w' ->
  w' = w /\ ~ present (w b) (tombstone_key akey) /\ ~ present (w b) (frozen_key akey).
Proof.
  intros (marks & w1 & Hm & He)%exec_hbind. apply exec_or_answer, exec_heads in Hm as (-> & Ht & Hf).
  destruct marks as [t fr]. cbn [fst snd] in *. unfold fenced_by_markers in He. cbn in He.
  destruct t, fr; cbn in He; try (by apply exec_bind in He as (? & ? & _ & [? _])).
  destruct He as [_ ->]. rewrite <- Ht, <- Hf. done.
Qed.

(** A stored body: the key was free and holds the bytes. *)
Lemma exec_store w w' :
  wf_world w -> exec (store_body show_error b req) w (Ok tt) w' ->
  contents (w b) akey = None /\ contents (w' b) akey = Some (body_content (pr_body req)) /\ wf_world w'
  /\ same_on b (fun k => k ≠ akey) w w'.
Proof.
  intros Hw (stored & w1 & Hs & He)%exec_hbind. destruct stored; [|by destruct He]. destruct He as [_ ->].
  apply exec_or_answer, exec_ok in Hs as (created & w2 & Hc & Hs). apply exec_call in Hc as (s & Hput & ->).
  destruct created; [|by destruct Hs].
  apply exec_bind in Hs as (check & w3 & Hchk & Hs).
  assert (w3 = <[b := s]> w) as ->.
  { eapply exec_reading; [by eapply wf_step| |exact Hchk]. unfold check_stored_size. by apply guar_call_bind. }
  destruct check; [|by apply exec_bind in Hs as (? & ? & _ & [? _])|by destruct Hs]. destruct Hs as [_ ->].
  rewrite fn_lookup_insert. split_and!.
  - by eapply put_if_absent_was_absent.
  - by eapply put_if_absent_created.
  - by eapply wf_step.
  - intros k Hk. rewrite fn_lookup_insert. eapply op_step_frame; [apply Hw|exact Hput|]. by intros <-.
Qed.

Lemma touch_claim_name : multi srv = false ->
  forall observed, guar (touches (fun _ k => k = origin_key pkg)) (fun _ => True) (claim_name show_error srv wx b req observed).
Proof.
  intros Hm observed. unfold claim_name, hbind. rewrite Hm. destruct (negb _); [done|].
  eapply (guar_bind _ _ _ (fun _ => True)); [apply guar_or_answer, touch_claim_origin; done|]. intros [claim|e] _; [|done].
  destruct (negb _); [done|]. eapply (guar_bind _ _ _ (fun _ => True)); [by destruct (claim_etag claim)|]. intros _ _.
  destruct (claim_etag claim); [done|].
  eapply (guar_bind _ _ _ (fun _ => True)); [apply guar_or_answer, touch_read_observation|]. intros r _. by repeat case_match.
Qed.

Lemma touch_upload_companions : guar (touches (fun _ k => k = metadata_key akey \/ k = provenance_key akey)) (fun _ => True)
  (put_upload_companions b req).
Proof. unfold put_upload_companions. walk; intros k <-; auto. Qed.

Lemma as_str_desired st : OriginState.as_str st = desired_origin req -> st = desired_state req.
Proof. unfold desired_origin, desired_state. by destruct st, (pr_is_mirror req); intros Heq; vm_compute in Heq. Qed.

(** The claim an upload goes on under is of its own origin. *)
Lemma exec_claim_name observed w fence w' :
  (forall o, observed = Some o -> state o = OriginState.Unclaimed \/ state o = desired_state req) ->
  exec (claim_name show_error srv wx b req observed) w (Ok fence) w' ->
  exists o, fence = Some o /\ state o = desired_state req.
Proof.
  intros Hobs He. unfold claim_name in He. destruct (first_claim observed) eqn:Hfirst; cbn [negb] in He.
  2:{ apply exec_answer in He as [-> _]. destruct observed as [o|]; [|done]. exists o. split; [done|].
      cbn [first_claim] in Hfirst. apply bool_decide_eq_false in Hfirst. by destruct (Hobs o eq_refl). }
  apply exec_hbind in He as (claim & w1 & _ & He). destruct (negb _); [by destruct He|].
  apply exec_bind in He as (x & w2 & _ & He). destruct (claim_etag claim) as [etag|].
  { apply exec_answer in He as [-> _]. by eexists. }
  apply exec_hbind in He as (again & w3 & _ & He). destruct again as [o|]; [|by destruct He].
  case_decide as Ho; [|by destruct He]. apply exec_answer in He as [-> _]. exists o. split; [done|]. by apply as_str_desired.
Qed.

Lemma exec_fence o w w' :
  exec (write_fence_holds show_error b req (Some o)) w (Ok tt) w' ->
  w' = w /\ claim_in (w b) pkg = origin_of_state (state o).
Proof.
  intros (current & w1 & Hc & He)%exec_hbind. apply exec_or_answer, exec_observation in Hc as [-> Hc].
  case_decide as Heq; [|by destruct He]. destruct He as [_ ->]. by rewrite Heq in Hc.
Qed.

(** A mirror's sidecar in a free slot. *)
Lemma exec_install_mirror sc w w' :
  wf_world w -> exec (install_mirror show_error b req sc) w (Ok tt) w' ->
  wf_world w' /\ same_on b (fun k => k ≠ sidecar_key akey) w w'
  /\ (contents (w b) (sidecar_key akey) = None -> contents (w' b) (sidecar_key akey) = Some (encode sc)).
Proof.
  intros Hw He. pose proof He as Hframe.
  eapply (exec_touch (fun k => k = sidecar_key akey)) in Hframe as [Hw' Hs]; [|done|].
  2:{ unfold install_mirror, hbind. eapply (guar_bind _ _ _ (fun _ => True)); [apply guar_or_answer, guar_call; [by intros k <-|done]|].
      intros [[]|e] _; [done| |done]. eapply (guar_bind _ _ _ (fun _ => True)); [by apply guar_or_answer, touch_install_mirror|].
      by intros [] _. }
  split_and!; [done|done|]. intros Hnone. apply exec_hbind in He as (created & w1 & Hc & He).
  apply exec_or_answer, exec_call in Hc as (s & Hput & ->). destruct created.
  - destruct He as [_ ->]. rewrite fn_lookup_insert. by eapply put_if_absent_created.
  - eapply put_if_absent_taken in Hput as [_ [x Hx]]; [|done]. congruence.
Qed.

Lemma companion_ne s t : s ≠ t -> companion_key akey s ≠ companion_key akey t.
Proof. intros Hst Heq. by apply app_inv_head in Heq. Qed.

(** What an upload leaves behind, between its intent and its commit. *)
Record published (wf_sc : Sidecar) (w w' : world) : Prop := {
  was_free : contents (w b) akey = None;
  holds_body : contents (w' b) akey = Some (body_content (pr_body req));
  holds_sidecar : (pr_is_mirror req = true -> contents (w b) (sidecar_key akey) = None) ->
    contents (w' b) (sidecar_key akey) = Some (encode wf_sc);
  no_tombstone : ~ present (w' b) (tombstone_key akey);
  no_freeze : ~ present (w' b) (frozen_key akey);
  owns_name : claim_in (w' b) pkg = origin_of_state (desired_state req)
}.

Hypothesis names_ok : valid_names (pr_pkg req) (pr_filename req).
Hypothesis plain_f : "/"%char ∉ pr_filename req.

Lemma claim_not_record suffix : suffix ∈ [] :: companion_suffixes -> companion_key akey suffix ≠ origin_key pkg.
Proof.
  intros Hs. destruct names_ok. apply (package_key_plain pkg). constructor; [by apply artifact_member|done].
Qed.

Lemma akey_not_claim : akey ≠ origin_key pkg.
Proof. rewrite <- (ck_nil pkg). apply claim_not_record. suffix_in. Qed.

(** The keys of the record and its claim. *)
Definition watched (k : str) : Prop := k ∈ [akey; sidecar_key akey; tombstone_key akey; frozen_key akey; origin_key pkg].

Lemma watched_package k : watched k -> starts_with PACKAGES_PREFIX k = true.
Proof.
  unfold watched. rewrite !elem_of_cons. intros [->|[->|[->|[->|[->|[]%elem_of_nil]]]]]; try apply under_companion.
  - rewrite <- (ck_nil pkg). apply under_companion.
  - unfold origin_key. apply under_packages.
Qed.

Lemma watched_companions k : watched k -> k ≠ metadata_key akey /\ k ≠ provenance_key akey.
Proof.
  unfold watched. rewrite !elem_of_cons. intros [->|[->|[->|[->|[->|[]%elem_of_nil]]]]]; split;
    first [by apply companion_ne | intros Heq; symmetry in Heq; by apply companion_apart in Heq
          | intros Heq; symmetry in Heq; revert Heq; apply claim_not_record; suffix_in].
Qed.

Lemma published_same sc w w' w0 w0' :
  published sc w w' -> same_on b watched w0 w -> same_on b watched w' w0' -> published sc w0 w0'.
Proof.
  intros [H1 H2 H3 H4 H5 H6] Hs Hs'.
  assert (forall k, watched k -> contents (w b) k = contents (w0 b) k) as Hb by (intros; by apply Hs).
  unfold watched in Hb, Hs'. unfold present, claim_in in *.
  split; unfold present, claim_in; rewrite ?Hs', <- ?Hb by (rewrite !elem_of_cons; auto 7); done.
Qed.

Lemma reads_still_claimed fence : guar reads (fun _ => True) (mirror_still_claimed show_error srv b req fence).
Proof.
  unfold mirror_still_claimed, post_publish_mirror_claim_is_current, hbind. destruct fence as [o|]; [|done].
  eapply (guar_bind _ _ _ (fun _ => True)); [|intros r _; by repeat case_match].
  apply guar_or_answer. destruct (negb _); [done|].
  eapply (guar_bind_ok _ _ _ (fun _ => True)); [apply reads_observation|done|done].
Qed.

(** The typing of a mirror's body, before the fences. *)
Lemma exec_type_mirror sc fence (k : unit -> prog (reply unit)) w w' :
  wf_world w ->
  exec (let*! _ := (if pr_is_mirror req then install_mirror show_error b req sc else Ret (Ok tt)) in
        let*! x := (if pr_is_mirror req then mirror_still_claimed show_error srv b req fence else Ret (Ok tt)) in k x)
    w (Ok tt) w' ->
  exists w1, exec (k tt) w1 (Ok tt) w' /\ wf_world w1 /\ same_on b (fun k => k ≠ sidecar_key akey) w w1
  /\ (pr_is_mirror req = true -> contents (w b) (sidecar_key akey) = None -> contents (w1 b) (sidecar_key akey) = Some (encode sc)).
Proof.
  intros Hw ([] & w1 & Hi & He)%exec_hbind. apply exec_hbind in He as ([] & w2 & Hc & He). destruct (pr_is_mirror req).
  - apply exec_install_mirror in Hi as (Hw1 & Hs & Hsc); [|done].
    apply exec_reading in Hc as ->; [|done|apply reads_still_claimed]. exists w1. by split_and!.
  - apply exec_answer in Hi as [_ ->]. apply exec_answer in Hc as [_ ->]. exists w. by split_and!.
Qed.

Lemma exec_publish_inner observed w w' :
  multi srv = false -> wf_world w ->
  (forall o, observed = Some o -> state o = OriginState.Unclaimed \/ state o = desired_state req) ->
  exec (publish_inner show_error srv wx b req observed) w (Ok tt) w' ->
  wf_world w' /\ published (upload_sidecar wx req None) w w'.
Proof.
  intros Hm Hw Hobs He. unfold publish_inner in He.
  apply exec_hbind in He as (fence & w1 & Hc & He). pose proof Hc as Hframe.
  eapply exec_touch in Hframe as [Hw1 Hs1]; [|done|by apply touch_claim_name].
  apply exec_claim_name in Hc as (o & -> & Ho); [|done].
  apply exec_hbind in He as ([] & w2 & Hf & He). apply exec_fence in Hf as [-> Hclaim]. rewrite Ho in Hclaim.
  apply exec_hbind in He as ([] & w2 & Hst & He). apply exec_store in Hst as (Hfree & Hbody & Hw2 & Hs2); [|done].
  apply exec_hbind in He as (checksum & w3 & Hck & He). unfold bind_checksum in Hck. rewrite Hm in Hck. cbn [negb] in Hck.
  apply exec_answer in Hck as [-> ->]. cbv zeta in He. set (sc := upload_sidecar wx req None) in *.
  apply exec_type_mirror in He as (w3 & He & Hw3 & Hs3 & Hmirror); [|done].
  apply exec_hbind in He as ([] & w4 & Hun & He). apply exec_unfenced in Hun as (-> & Ht & Hfr).
  apply exec_bind in He as ([] & w4 & Hcomp & He).
  eapply exec_touch in Hcomp as [Hw4 Hs4]; [|done|apply touch_upload_companions].
  assert (wf_world w' /\ same_on b (fun k => k ≠ sidecar_key akey) w4 w'
    /\ contents (w' b) (sidecar_key akey) = if pr_is_mirror req then contents (w4 b) (sidecar_key akey) else Some (encode sc))
    as (Hw' & Hs5 & Hsc).
  { destruct (pr_is_mirror req); [apply exec_answer in He as [_ ->]; split_and!; [done|apply same_on_refl|done]|].
    apply exec_or_answer, exec_call in He as (st & Hput & ->). rewrite fn_lookup_insert. split_and!.
    - by eapply wf_step.
    - intros k Hk. rewrite fn_lookup_insert. eapply op_step_frame; [apply Hw4|exact Hput|]. by intros <-.
    - by eapply put_bytes_answer. }
  split; [done|]. pose proof akey_not_claim as Hne.
  assert (forall k, k ≠ sidecar_key akey -> k ≠ metadata_key akey -> k ≠ provenance_key akey ->
    contents (w' b) k = contents (w2 b) k) as Hlate.
  { intros k H1 H2 H3. rewrite Hs5, Hs4, Hs3; [done|done| |done]. by intros [?|?]. }
  assert (forall suffix, suffix ∈ [TOMBSTONE_SUFFIX; FROZEN_SUFFIX] ->
    contents (w' b) (companion_key akey suffix) = contents (w3 b) (companion_key akey suffix)) as Hmark.
  { intros suffix Hin. rewrite Hs5, Hs4; [done| |]; rewrite !elem_of_cons in Hin; destruct Hin as [->|[->|[]%elem_of_nil]];
      try (by apply companion_ne); by intros [Heq|Heq]; apply companion_ne in Heq. }
  split.
  - rewrite <- Hs1; [done|exact Hne].
  - rewrite Hlate; [done|..]; intros Heq; symmetry in Heq; by apply companion_apart in Heq.
  - intros Hslot. rewrite Hsc. destruct (pr_is_mirror req) eqn:Hmi; [|done].
    rewrite Hs4 by (by intros [Heq|Heq]; apply companion_ne in Heq). apply Hmirror; [done|].
    rewrite Hs2, Hs1; [by apply Hslot|apply claim_not_record; suffix_in|by apply companion_apart].
  - unfold present, tombstone_key. by rewrite Hmark by suffix_in.
  - unfold present, frozen_key. by rewrite Hmark by suffix_in.
  - rewrite <- Hclaim. apply claim_in_same. rewrite Hlate, Hs2; [done|..];
      first [by intros Heq; apply Hne | intros Heq; symmetry in Heq; revert Heq; apply claim_not_record; suffix_in].
Qed.

Lemma not_refused observed :
  refused_upfront srv req observed = None ->
  forall o, observed = Some o -> state o = OriginState.Unclaimed \/ state o = desired_state req.
Proof.
  unfold refused_upfront. intros Hr o ->. destruct (_ && _) in Hr; [done|]. cbv zeta in Hr.
  destruct (negb (bool_decide (state o = OriginState.Unclaimed))) eqn:Hu; cbn [andb] in Hr.
  2:{ left. apply negb_false_iff, bool_decide_eq_true in Hu. done. }
  right. destruct (negb (bool_decide (OriginState.as_str (state o) = desired_origin req))) eqn:Hd; [done|].
  apply negb_false_iff, bool_decide_eq_true in Hd. by apply as_str_desired.
Qed.

Lemma marker_same n (w w' : world) : same_on b (fun k => ~ exists s, k = marker_key pkg n s) w w' -> same_on b watched w w'.
Proof. intros Hs k Hk. apply Hs. intros [s ->]. apply watched_package in Hk. by vm_compute in Hk. Qed.

Lemma touch_marker n s : guar (touches (fun _ k => exists s, k = marker_key pkg n s)) (fun _ => True) (put_marker b pkg n s).
Proof. unfold put_marker. walk. intros k <-. by exists s. Qed.

Lemma reads_wait n : guar reads (fun _ => True) (wait_for_index_visibility index_filenames b req n).
Proof.
  induction n as [|n IH]; [done|]. cbn [wait_for_index_visibility]. apply guar_call_bind; [done|].
  intros [bytes|e] _; [by case_match|done].
Qed.

Lemma exec_publish w ans w' :
  multi srv = false -> wf_world w -> exec (publish_record show_error index_filenames srv wx b req) w (Ok ans) w' ->
  published (upload_sidecar wx req None) w w'.
Proof.
  intros Hm Hw He. unfold publish_record in He. apply exec_hbind in He as (observed & w1 & Ho & He).
  apply exec_or_answer, exec_observation in Ho as [-> _].
  destruct (refused_upfront srv req observed) eqn:Hr; [by destruct He|].
  apply exec_hbind in He as (nonce & w1 & Hi & He). apply exec_or_answer in Hi.
  unfold mark_intent in Hi. apply exec_bind in Hi as (n & w2 & Hn & Hi). apply exec_read_call in Hn as [-> _]; [|done].
  apply exec_ok in Hi as ([] & w2 & Hi & Hret). apply exec_answer in Hret as [-> ->].
  eapply exec_touch in Hi as [Hw1 Hs1]; [|done|apply touch_marker].
  apply exec_bind in He as (r & w3 & Hin & He). apply exec_bind in He as (c & w4 & Hc & He).
  apply exec_hbind in He as ([] & w5 & Hret & He).
  destruct r as [[]|e]; [|by destruct Hret]. apply exec_answer in Hret as [_ ->].
  apply exec_publish_inner in Hin as [Hw3 Hpub]; [|done|done|by apply not_refused].
  eapply exec_touch in Hc as [Hw4 Hs4]; [|done|apply touch_marker].
  apply exec_hbind in He as ([] & w5 & Hfan & He). apply exec_or_answer in Hfan. unfold fan_out, fanout_sync in Hfan.
  unfold multi in Hm. apply Nat.ltb_ge in Hm. rewrite (proj2 (Nat.leb_le _ _) Hm) in Hfan.
  apply exec_answer in Hfan as [_ ->]. apply exec_bind in He as ([] & w6 & Hwait & He).
  apply exec_reading in Hwait as ->; [|done|apply reads_wait]. apply exec_answer in He as [_ ->].
  eapply published_same; [exact Hpub|exact (marker_same _ _ _ Hs1)|exact (marker_same _ _ _ Hs4)].
Qed.

(** A private record so published is one every index shows. *)
Lemma published_listed sc w w' :
  published sc w w' -> pr_is_mirror req = false -> sc_origin sc = Some OriginState.PRIVATE ->
  exists m, file_in (w' b) pkg (claim_in (w' b) pkg) (pr_filename req) = Some m /\ fm_sha256 m = sha256 sc
    /\ fm_filename m = pr_filename req.
Proof.
  intros [_ Hbody Hsc Ht Hf Hc] Hpriv Ho. unfold file_in. rewrite Hsc by (intros Hx; congruence). cbn [mbind option_bind].
  rewrite decode_encode. cbn [mbind option_bind].
  assert (listed (from_listing (has_object (w' b) pkg (pr_filename req)) (Some sc) (claim_in (w' b) pkg)) (claim_in (w' b) pkg) = true) as ->.
  2:{ eexists. by split. }
  assert (has_object (w' b) pkg (pr_filename req) [] = true) as Hb.
  { apply bool_decide_eq_true. unfold present. rewrite (ck_nil pkg), Hbody. by eexists. }
  unfold listed, is_late_mirror, classify_record, record_origin, from_listing.
  cbn [Decide.frozen Decide.tombstoned Decide.mirror_quarantined Decide.sidecar Decide.has_artifact sidecar_origin mbind option_bind].
  rewrite (bool_decide_eq_false_2 _ Hf : has_object (w' b) pkg (pr_filename req) FROZEN_SUFFIX = false).
  rewrite (bool_decide_eq_false_2 _ Ht : has_object (w' b) pkg (pr_filename req) TOMBSTONE_SUFFIX = false).
  rewrite Hb, Ho. cbn [negb andb mbind option_bind]. rewrite bool_decide_eq_true_2 by done. cbn [negb]. rewrite andb_false_r.
  change (origin_parse OriginState.PRIVATE) with (Some StatusDoc.Private). cbn [negb andb]. by rewrite andb_false_r.
Qed.

(** What the pages that tell the truth about a store show of a file: while the
    status blocks downloads, nothing; else a link under this digest. *)
Definition shown_in_pages (s : store) (filename sha : str) : Prop :=
  exists status fs, status_in s pkg = Some status
  /\ contents s (html_key pkg) = Some (pep503_project_html pkg fs status)
  /\ contents s (json_key pkg) = Some (pep691_project_json pkg fs status)
  /\ (StatusDoc.blocks_downloads (StatusDoc.status status) = false ->
      exists m, m ∈ fs /\ fm_filename m = filename /\ fm_sha256 m = sha).

Lemma listed_shown cfg unread s filename m :
  claim_in s pkg = Some StatusDoc.Private -> filename ∈ artifact_names s pkg ->
  file_in s pkg (claim_in s pkg) filename = Some m -> fm_filename m = filename ->
  (forall d, Index.denylist cfg = Some d -> file_denied d pkg filename = false) ->
  pages_true cfg unread s pkg None -> shown_in_pages s filename (fm_sha256 m).
Proof.
  intros Hc Hn Hf Hname Hd. unfold pages_true. cbv zeta.
  assert (m ∈ visible cfg pkg None (files_in s pkg (claim_in s pkg))) as Hin.
  { unfold visible. assert (m ∈ files_in s pkg (claim_in s pkg)) as Hm by (apply list_elem_of_omap; by exists filename).
    destruct (Index.denylist cfg) as [d|] eqn:Hdl; [|done]. apply list_elem_of_In, filter_In. split; [by apply list_elem_of_In|].
    by rewrite Hname, (Hd d eq_refl). }
  destruct (visible _ _ _ _) as [|x l] eqn:Hv; [by apply elem_of_nil in Hin|]. rewrite <- Hv in *.
  intros (status & fs & Hs & Hp & Hh & Hj). exists status, fs. split_and!; [done..|]. intros Hb.
  unfold page_files in Hp. rewrite Hb, Hc in Hp. exists m. split; [|done]. rewrite Hc in Hin.
  by destruct (malware cfg); subst fs.
Qed.

(** C9: an acknowledged upload is durable, named and visible. When a single
    bucket's upload answers success, whatever the storage answered on the way:
    the filename was free, the bucket holds exactly the bytes sent, the package
    is claimed for the upload's own origin, neither a tombstone nor a freeze
    stands over the name, and the stored sidecar is the upload's own (a mirror's
    where no sidecar stood before). A private file is then on both pages of every
    index that tells the truth about these records, under the digest sent, unless
    it is on the exclude list or the project's status blocks downloads (the pages
    then show no file). *)
Theorem upload_acked w ans w' :
  multi srv = false -> wf_world w ->
  exec (publish_record show_error index_filenames srv wx b req) w (Ok ans) w' ->
  published (upload_sidecar wx req None) w w'
  /\ (pr_is_mirror req = false ->
      forall cfg unread s, same_packages (w' b) s -> pages_true cfg unread s pkg None ->
      (forall d, Index.denylist cfg = Some d -> file_denied d pkg (pr_filename req) = false) ->
      shown_in_pages s (pr_filename req) (pr_sha256 req)).
Proof.
  intros Hm Hw He. apply exec_publish in He as Hp; [|done|done]. split; [done|]. intros Hpriv cfg unread s Hs Ht Hd.
  assert (sc_origin (upload_sidecar wx req None) = Some OriginState.PRIVATE) as Ho
    by (cbn [sc_origin upload_sidecar]; unfold desired_origin; by rewrite Hpriv).
  destruct (published_listed _ w w' Hp Hpriv Ho) as (m & Hf & Hsha & Hname).
  assert (claim_in s pkg = claim_in (w' b) pkg) as Hc
    by (apply claim_in_same, Hs; unfold origin_key; apply under_packages).
  assert (file_in s pkg (claim_in s pkg) (pr_filename req) = Some m) as Hf'.
  { rewrite Hc, <- Hf. apply file_in_same. intros suffix _. apply Hs, under_companion. }
  change (pr_sha256 req) with (sha256 (upload_sidecar wx req None)). rewrite <- Hsha. eapply listed_shown; try done.
  - rewrite Hc, (owns_name _ _ _ Hp). unfold desired_state. by rewrite Hpriv.
  - rewrite (artifact_names_same pkg (proj1 names_ok) (w' b)) by done.
    apply elem_of_artifact_names; [apply names_ok|]. split; [apply names_ok|]. split; [done|].
    unfold present. rewrite (holds_body _ _ _ Hp). by eexists.
Qed.

End pieces.
(** ** What a refusal tells *)

Section refusals.
Variables (srv : Server) (wx : Weather) (b : nat) (req : PublishRequest).
Abbreviation pkg := (pr_pkg req).
Abbreviation akey := (artifact_key (pr_pkg req) (pr_filename req)).
(** A normalized name has no space. *)
Hypothesis pkg_plain : " "%char ∉ pr_pkg req.

(** What the client makes of a refusal is so. *)
Definition told (e : http) (v : world) : Prop :=
  match upload_conflict e.1 e.2 with
  | Some Exists_ => present (v b) akey
  | Some Fenced => present (v b) (tombstone_key akey) \/ present (v b) (frozen_key akey)
  | None => True
  end.

Definition tells {A} (p : prog (reply A)) : Prop := forall w e w', wf_world w -> exec p w (Err e) w' -> told e w'.

Lemma exec_refused A (e e' : http) w w' : exec (Ret (Err e : reply A)) w (Err e') w' -> e' = e /\ w' = w.
Proof. intros [Heq ->]. split; [congruence|done]. Qed.

Lemma tells_hbind A B (p : prog (reply A)) (k : A -> prog (reply B)) : tells p -> (forall x, tells (k x)) -> tells (hbind p k).
Proof.
  intros Hp Hk w e w' Hw ([x|e'] & w1 & H1 & H2)%exec_bind; [eapply Hk; [|exact H2]; by eapply wf_exec|].
  destruct H2 as [[= ->] ->]. by eapply Hp.
Qed.

Lemma tells_after A B (p : prog A) (k : A -> prog (reply B)) : (forall x, tells (k x)) -> tells (pbind p k).
Proof. intros Hk w e w' Hw (x & w1 & H1 & H2)%exec_bind. eapply Hk; [|exact H2]. by eapply wf_exec. Qed.

Lemma tells_ok A (x : A) : tells (Ret (Ok x)).
Proof. intros w e w' _ [? _]. done. Qed.

Lemma tells_quiet A (e : http) : upload_conflict e.1 e.2 = None -> tells (Ret (Err e : reply A)).
Proof. intros He w e' w' _ [[= ->] _]. unfold told. by rewrite He. Qed.

Lemma other_code code msg : code ≠ CONFLICT -> upload_conflict code msg = None.
Proof. intros Hc. unfold upload_conflict. by rewrite (proj2 (Z.eqb_neq _ _) Hc). Qed.

Lemma tells_or_answer A code msg (p : prog (res A)) : code ≠ CONFLICT -> tells (or_answer code msg p).
Proof.
  intros Hc w e w' _ ([x|err] & w1 & _ & [Heq _])%exec_bind; [done|]. injection Heq as ->. unfold told. by rewrite other_code.
Qed.

Lemma contains_split needle s : contains_str needle s = true -> exists l r, s = l ++ needle ++ r.
Proof.
  induction s as [|c s IH]; cbn [contains_str]; intros Hc; apply orb_true_iff in Hc as [Hc|Hc]; try done.
  - apply starts_with_true in Hc as [r Hr]. by exists [], r.
  - apply starts_with_true in Hc as [r Hr]. by exists [], r.
  - apply IH in Hc as (l & r & ->). by exists (c :: l), r.
Qed.

(** The words after a separator are words. *)
Lemma split_later c l t x : x ∈ split c t -> x ∈ split c (l ++ c :: t).
Proof.
  intros Hx. assert (exists p ps, split c (l ++ c :: t) = p :: ps /\ x ∈ ps) as (p & ps & -> & Hin); [|by right].
  induction l as [|d l (p & ps & Heq & Hin)]; cbn [app split]; [rewrite decide_True by done; by exists [], (split c t)|].
  rewrite Heq. case_decide; [exists [], (p :: ps)|exists (d :: p), ps]; (split; [done|]); [by right|done].
Qed.

(** An origin that moved is neither of the two named conflicts. *)
Lemma moved_quiet while_ :
  while_ ∈ [&"while claiming"; &"during upload"; &"during mirror upload"] ->
  upload_conflict (changed_origin req while_).1 (changed_origin req while_).2 = None.
Proof.
  intros Hin. unfold changed_origin, upload_conflict. cbn [fst snd].
  assert (forall x, starts_with FILE_EXISTS (&"Package '" ++ x) = false) as -> by done.
  change (negb (CONFLICT =? CONFLICT)) with false. cbv iota.
  destruct (contains_str FILENAME_FENCED _) eqn:Hc; [|done]. exfalso. apply contains_split in Hc as (l & r & Hmsg).
  assert (&"or" ∈ split " "%char (&"Package '" ++ pkg ++ &"' changed origin " ++ while_)) as Hor.
  { rewrite Hmsg. change (FILENAME_FENCED ++ r) with (&"frozen" ++ " "%char :: (&"or" ++ " "%char :: (&"deleted" ++ r))).
    rewrite app_assoc. apply split_later. rewrite split_app_sep by suffix_in. by left. }
  change (&"Package '" ++ pkg ++ &"' changed origin " ++ while_)
    with (&"Package" ++ " "%char :: (&"'" ++ pkg ++ (&"'" ++ " "%char :: (&"changed" ++ " "%char :: (&"origin" ++ " "%char :: while_))))) in Hor.
  rewrite !(app_assoc (&"'")), !(app_assoc _ (&"'")) in Hor. rewrite split_app_sep in Hor by suffix_in.
  rewrite split_app_sep in Hor by (rewrite !elem_of_app; intros [[H1|H1]|H1]; [by apply list_elem_of_singleton in H1|done|by apply list_elem_of_singleton in H1]).
  rewrite !split_app_sep in Hor by suffix_in.
  rewrite !elem_of_cons in Hor. destruct Hor as [?|[Heq|[?|[?|Hw]]]]; try done.
  rewrite !elem_of_cons in Hin. destruct Hin as [->|[->|[->|[]%elem_of_nil]]]; revert Hw; suffix_in.
Qed.

Lemma tells_claim_name observed : tells (claim_name show_error srv wx b req observed).
Proof.
  unfold claim_name. destruct (negb _); [apply tells_ok|].
  apply tells_hbind; [by apply tells_or_answer|]. intros claim. destruct (negb _); [by apply tells_quiet, other_code|].
  apply tells_after. intros _. destruct (claim_etag claim); [apply tells_ok|].
  apply tells_hbind; [by apply tells_or_answer|]. intros [o|]; [case_decide; [apply tells_ok|]|];
    apply tells_quiet, moved_quiet; by left.
Qed.

Lemma tells_fence fence : tells (write_fence_holds show_error b req fence).
Proof.
  unfold write_fence_holds. destruct fence as [o|]; [|apply tells_ok]. apply tells_hbind; [by apply tells_or_answer|].
  intros current. case_decide; [apply tells_ok|]. apply tells_quiet, moved_quiet. by right; left.
Qed.

Lemma tells_still_claimed fence : tells (mirror_still_claimed show_error srv b req fence).
Proof.
  unfold mirror_still_claimed. destruct fence as [o|]; [|by apply tells_quiet, other_code].
  apply tells_hbind; [by apply tells_or_answer|]. intros []; [apply tells_ok|].
  apply tells_quiet, moved_quiet. by right; right; left.
Qed.

(** "Already exists": the body is there. *)
Lemma tells_store : tells (store_body show_error b req).
Proof.
  intros w e w' Hw ([stored|e'] & w1 & Hs & He)%exec_bind.
  2:{ destruct He as [[= ->] ->]. eapply (tells_or_answer _ SERVICE_UNAVAILABLE); [done|exact Hw|exact Hs]. }
  destruct stored; [by destruct He|]. apply exec_refused in He as [-> ->]. apply exec_or_answer in Hs.
  unfold store_artifact_verified in Hs. apply exec_ok in Hs as (created & w2 & Hc & Hs). apply exec_call in Hc as (s & Hput & ->).
  destruct created.
  { apply exec_bind in Hs as ([]& w3 & _ & Hs); [by destruct Hs|by apply exec_bind in Hs as (? & ? & _ & [? _])|by destruct Hs]. }
  destruct Hs as [_ ->]. eapply put_if_absent_taken in Hput as [-> Hp]; [|done]. rewrite fn_insert_id.
  unfold told, upload_conflict. cbn [fst snd]. change (negb (CONFLICT =? CONFLICT)) with false. cbv iota.
  assert (forall x, starts_with FILE_EXISTS (FILE_EXISTS ++ x) = true) as ->; [|done].
  intros x. apply starts_with_true. by exists x.
Qed.

(** "Frozen or deleted": a fence is there. *)
Lemma tells_unfenced : tells (filename_unfenced show_error srv wx b req).
Proof.
  intros w e w' Hw (r & w1 & Hr & He)%exec_bind. destruct r as [[t fr]|e'].
  2:{ destruct He as [[= ->] ->]. eapply (tells_or_answer _ SERVICE_UNAVAILABLE); [done|exact Hw|exact Hr]. }
  apply exec_or_answer, exec_heads in Hr as (-> & Ht & Hf). cbn [fst snd] in *.
  destruct (fenced_by_markers t fr) eqn:Hfen; [|by destruct He].
  apply exec_bind in He as (x & w1 & Hd & He). apply exec_refused in He as [-> ->].
  assert (present (w b) (tombstone_key akey) \/ present (w b) (frozen_key akey)) as Hmark.
  { unfold fenced_by_markers in Hfen. cbn in Hfen. destruct t, fr; try done; tauto. }
  assert (same_on b (fun k => k ≠ akey) w w1) as Hsame.
  { destruct (multi srv); [destruct Hd as [_ ->]; apply same_on_refl|]. apply exec_call in Hd as (s & Hs & ->).
    intros k Hk. rewrite fn_lookup_insert. eapply op_step_frame; [apply Hw|exact Hs|]. by intros ?%list_elem_of_singleton. }
  unfold told, upload_conflict. cbn [fst snd]. change (negb (CONFLICT =? CONFLICT)) with false. cbv iota.
  assert (forall x, starts_with FILE_EXISTS (&"File '" ++ x) = false) as -> by done.
  destruct (contains_str _ _); [|done]. unfold present in *. by rewrite !Hsame by (by apply companion_apart).
Qed.

Lemma tells_publish_inner observed : tells (publish_inner show_error srv wx b req observed).
Proof.
  unfold publish_inner. apply tells_hbind; [apply tells_claim_name|intros fence].
  apply tells_hbind; [apply tells_fence|intros _]. apply tells_hbind; [apply tells_store|intros _].
  apply tells_hbind.
  { unfold bind_checksum. destruct (negb _); [apply tells_ok|]. apply tells_after. intros [[c|]|e]; try apply tells_ok.
    apply tells_after. intros _. by apply tells_quiet, other_code. }
  intros checksum. apply tells_hbind.
  { destruct (pr_is_mirror req); [|apply tells_ok]. apply tells_hbind; [by apply tells_or_answer|]. intros []; [apply tells_ok|].
    apply tells_hbind; [by apply tells_or_answer|]. intros _. apply tells_ok. }
  intros _. apply tells_hbind; [destruct (pr_is_mirror req); [apply tells_still_claimed|apply tells_ok]|intros _].
  apply tells_hbind; [apply tells_unfenced|intros _]. apply tells_after. intros _.
  destruct (pr_is_mirror req); [apply tells_ok|by apply tells_or_answer].
Qed.

(** C12: a refusal means what the client reads in it. However an upload ends in a
    refusal and whatever the storage answered, when the client's reading of it is
    "the filename already holds bytes", the bucket holds a body under the name,
    and when it is "deleted or frozen on purpose", a tombstone or a freeze stands
    over it; no other refusal (an origin that moved, an outage, a reserved name)
    is ever read as either, and skipped. *)
Theorem conflict_tells w e w' :
  wf_world w -> exec (publish_record show_error index_filenames srv wx b req) w (Err e) w' -> told e w'.
Proof.
  intros Hw. revert w e w' Hw. change (tells (publish_record show_error index_filenames srv wx b req)). unfold publish_record.
  apply tells_hbind; [by apply tells_or_answer|]. intros observed.
  destruct (refused_upfront srv req observed) as [[code msg]|] eqn:Hr.
  { apply tells_quiet. unfold refused_upfront in Hr. repeat case_match; simplify_eq; by apply other_code. }
  apply tells_hbind; [by apply tells_or_answer|]. intros nonce w e w' Hw (r & w1 & Hin & He)%exec_bind.
  pose proof (wf_exec _ _ _ _ _ Hw Hin) as Hw1. apply exec_bind in He as (c & w2 & Hc & He).
  pose proof (wf_exec _ _ _ _ _ Hw1 Hc) as Hw2. destruct r as [[]|e'].
  - revert He. apply (tells_hbind _ _ (Ret (Ok tt))); [apply tells_ok| |done]. intros _.
    apply tells_hbind; [by apply tells_or_answer|]. intros _. apply tells_after. intros _. apply tells_ok.
  - destruct He as [[= ->] ->]. apply tells_publish_inner in Hin; [|done].
    eapply exec_touch in Hc as [_ Hs]; [|done|apply touch_marker].
    assert (forall k, starts_with PACKAGES_PREFIX k = true -> contents (w2 b) k = contents (w1 b) k) as Hk
      by (intros k Hk; apply Hs; intros [s ->]; by vm_compute in Hk).
    unfold told in *. case_match; [|done]. unfold present in *.
    case_match; rewrite ?Hk; try done; try apply under_companion.
Qed.

End refusals.

End uploads.
(** *** Witnesses *)

#[local] Existing Instances toy_digest toy_chunking toy_claim_codec toy_sidecar_codec toy_filename_codec
  toy_status_codec toy_pep440 no_copy_verb content_etags toy_md5 toy_page_codec toy_escape.

Definition upload_a : PublishRequest :=
  MkPublish (&"a") example_file (Bytes (&"bytes")) (sha256_hex (&"bytes")) (&"m") 5 (&"1") None false (&"t") (Flag false)
    None false None.
Definition publish_a : prog (reply http) := publish_record no_text (fun _ => None) one_bucket calm 0 upload_a.

Lemma plain_names : valid_names (pr_pkg upload_a) (pr_filename upload_a) /\ ("/"%char ∉ pr_filename upload_a)
  /\ (" "%char ∉ pr_pkg upload_a).
Proof. split_and!; [apply example_names|apply (bool_decide_unpack _); vm_compute; exact I..]. Qed.

Lemma upload_acked_witness :
  (forall ans, (run example_env empty_world publish_a).2 = Ok ans ->
     published 0 upload_a (upload_sidecar calm upload_a None) empty_world (run example_env empty_world publish_a).1)
  /\ is_ok (run example_env empty_world publish_a).2 = true.
Proof.
  destruct plain_names as (H1 & H2 & H3). split.
  - intros ans Hans.
    assert (exec publish_a empty_world (Ok ans) (run example_env empty_world publish_a).1) as He
      by (rewrite <- Hans; apply exec_run; exact example_env_good).
    exact (proj1 (upload_acked no_text (fun _ => None) one_bucket calm 0 upload_a H1 H2 empty_world ans
                    (run example_env empty_world publish_a).1 eq_refl empty_world_wf He)).
  - vm_compute. reflexivity.
Defined.

(** The same upload over a body that is there. *)
Lemma conflict_tells_witness :
  (forall e, (run example_env owned_world publish_a).2 = Err e -> told 0 upload_a e (run example_env owned_world publish_a).1)
  /\ match (run example_env owned_world publish_a).2 with
     | Err e => bool_decide (upload_conflict e.1 e.2 = Some Exists_)
     | Ok _ => false
     end = true.
Proof.
  destruct plain_names as (H1 & H2 & H3). split.
  - intros e He. apply (conflict_tells no_text (fun _ => None) one_bucket calm 0 upload_a H3 owned_world e); [apply owned_world_wf|].
    rewrite <- He. apply exec_run. exact example_env_good.
  - vm_compute. reflexivity.
Defined.

End Uploads.
