(* ===== verification/Net.v ===== *)
(** * Addresses (Rust's std::net as the program uses it)

    An IPv4 address is its 32-bit number, an IPv6 address its 128-bit number;
    octets, segments and the classification predicates are the standard
    library's. [in_net] is CIDR membership, the reference the address rules are
    judged against. *)
From S2P Require Import Prelude RustStr.

Module Net.

Inductive IpAddr : Type :=
  | V4 (bits : Z)
  | V6 (bits : Z).

#[export] Instance IpAddr_eq_dec : EqDecision IpAddr.
Proof. solve_decision. Defined.
#[export] Instance IpAddr_countable : Countable IpAddr.
Proof.
  refine (inj_countable' (fun ip => match ip with V4 b => inl b | V6 b => inr b end)
    (fun s => match s with inl b => V4 b | inr b => V6 b end) _).
  by intros [].
Defined.

Definition wf_ip (ip : IpAddr) : Prop :=
  match ip with V4 b => 0 <= b < 2 ^ 32 | V6 b => 0 <= b < 2 ^ 128 end.

(** [Ipv4Addr::octets()[i]] and [Ipv6Addr::segments()[i]]. *)
Definition octet (i v4 : Z) : Z := Z.land (Z.shiftr v4 (8 * (3 - i))) 255.
Definition segment (i v6 : Z) : Z := Z.land (Z.shiftr v6 (16 * (7 - i))) 65535.
(** [Ipv4Addr::new]. *)
Definition v4_new (a b c d : Z) : Z :=
  Z.lor (Z.shiftl a 24) (Z.lor (Z.shiftl b 16) (Z.lor (Z.shiftl c 8) d)).

Definition v4_is_private (v4 : Z) : bool :=
  (octet 0 v4 =? 10)
  || ((octet 0 v4 =? 172) && (16 <=? octet 1 v4) && (octet 1 v4 <=? 31))
  || ((octet 0 v4 =? 192) && (octet 1 v4 =? 168)).
Definition v4_is_loopback (v4 : Z) : bool := octet 0 v4 =? 127.
Definition v4_is_link_local (v4 : Z) : bool := (octet 0 v4 =? 169) && (octet 1 v4 =? 254).
Definition v4_is_unspecified (v4 : Z) : bool := v4 =? 0.
Definition v4_is_broadcast (v4 : Z) : bool := v4 =? 2 ^ 32 - 1.
Definition v4_is_multicast (v4 : Z) : bool := (224 <=? octet 0 v4) && (octet 0 v4 <=? 239).

Definition v6_is_loopback (v6 : Z) : bool := v6 =? 1.
Definition v6_is_unspecified (v6 : Z) : bool := v6 =? 0.
Definition v6_is_multicast (v6 : Z) : bool := Z.land (segment 0 v6) 0xff00 =? 0xff00.

(** [Ipv6Addr::to_ipv4_mapped] ([::ffff:a.b.c.d]) and [Ipv6Addr::to_ipv4], which
    takes [::a.b.c.d] too. *)
Definition v6_head (v6 : Z) : bool :=
  (segment 0 v6 =? 0) && (segment 1 v6 =? 0) && (segment 2 v6 =? 0)
  && (segment 3 v6 =? 0) && (segment 4 v6 =? 0).
Definition v6_tail (v6 : Z) : Z := Z.lor (Z.shiftl (segment 6 v6) 16) (segment 7 v6).
Definition to_ipv4_mapped (v6 : Z) : option Z :=
  if v6_head v6 && (segment 5 v6 =? 0xffff) then Some (v6_tail v6) else None.
Definition to_ipv4 (v6 : Z) : option Z :=
  if v6_head v6 && ((segment 5 v6 =? 0) || (segment 5 v6 =? 0xffff))
  then Some (v6_tail v6) else None.

(** ** Printing ([Display] of addresses) *)

(** A segment in lowercase hex without leading zeros. *)
Definition hex_nibble (n : Z) : ascii := ascii_of_N (Z.to_N (if n <? 10 then 48 + n else 87 + n)).
Definition show_segment (s : Z) : str :=
  if s <? 16 then [hex_nibble s]
  else if s <? 256 then [hex_nibble (s / 16); hex_nibble (s mod 16)]
  else if s <? 4096 then [hex_nibble (s / 256); hex_nibble (s / 16 mod 16); hex_nibble (s mod 16)]
  else [hex_nibble (s / 4096); hex_nibble (s / 256 mod 16); hex_nibble (s / 16 mod 16);
        hex_nibble (s mod 16)].
Definition show_v4 (v4 : Z) : str :=
  join "."%char ((fun i => decimal (octet i v4)) <$> [0; 1; 2; 3]).

(** The longest run of zero segments, the first one of that length: its start
    and length. [run] is the run that ends just before position [i]. *)
Fixpoint zero_run (i : nat) (run best : nat * nat) (segs : list Z) : nat * nat :=
  match segs with
  | [] => best
  | s :: rest =>
      if s =? 0 then
        let run := if (run.2 =? 0)%nat then (i, 1%nat) else (run.1, S run.2) in
        zero_run (S i) run (if (best.2 <? run.2)%nat then run else best) rest
      else zero_run (S i) (0, 0)%nat best rest
  end.
Definition show_v6 (v6 : Z) : str :=
  match to_ipv4_mapped v6 with
  | Some v4 => &"::ffff:" ++ show_v4 v4
  | None =>
      let segs := (fun i => segment i v6) <$> [0; 1; 2; 3; 4; 5; 6; 7] in
      let shown := show_segment <$> segs in
      let run := zero_run 0 (0, 0)%nat (0, 0)%nat segs in
      if (1 <? run.2)%nat
      then join ":"%char (take run.1 shown) ++ &"::" ++ join ":"%char (drop (run.1 + run.2) shown)
      else join ":"%char shown
  end.
Definition ip_text (ip : IpAddr) : str :=
  match ip with V4 v4 => show_v4 v4 | V6 v6 => show_v6 v6 end.

Example ip_text_v4 : ip_text (V4 (v4_new 169 254 169 254)) = &"169.254.169.254".
Proof. reflexivity. Qed.
Example ip_text_v6 :
  ip_text (V6 0x20010db8000000000001000000000001) = &"2001:db8::1:0:0:1" /\
  ip_text (V6 1) = &"::1" /\ ip_text (V6 0) = &"::" /\
  ip_text (V6 0xffff0a000001) = &"::ffff:10.0.0.1".
Proof. by vm_compute. Qed.

(** ** CIDR membership and the facts that connect it with octets *)

(** [ip] of a [w]-bit family lies in [net/bits]. *)
Definition in_net (w net bits ip : Z) : bool :=
  (ip / 2 ^ (w - bits)) =? (net / 2 ^ (w - bits)).

Lemma land_ones_mod a k : 0 <= k -> Z.land a (2 ^ k - 1) = a mod 2 ^ k.
Proof. intros. replace (2 ^ k - 1) with (Z.ones k); [by apply Z.land_ones | rewrite Z.ones_equiv; lia]. Qed.

Lemma octet_spec i v4 : 0 <= i <= 3 -> octet i v4 = (v4 / 2 ^ (8 * (3 - i))) mod 256.
Proof.
  intros. unfold octet. rewrite Z.shiftr_div_pow2 by lia. apply (land_ones_mod _ 8). lia.
Qed.

Lemma segment_spec i v6 : 0 <= i <= 7 -> segment i v6 = (v6 / 2 ^ (16 * (7 - i))) mod 65536.
Proof.
  intros. unfold segment. rewrite Z.shiftr_div_pow2 by lia. apply (land_ones_mod _ 16). lia.
Qed.

Lemma octet_range i v4 : 0 <= i <= 3 -> 0 <= octet i v4 < 256.
Proof. intros. rewrite octet_spec by done. apply Z.mod_pos_bound. lia. Qed.

Lemma segment_range i v6 : 0 <= i <= 7 -> 0 <= segment i v6 < 65536.
Proof. intros. rewrite segment_spec by done. apply Z.mod_pos_bound. lia. Qed.

(** A [k]-bit number has no bit at [k] or above. *)
Lemma bits_beyond b k n : 0 <= b < 2 ^ k -> k <= n -> Z.testbit b n = false.
Proof.
  intros Hb Hn. destruct (decide (b = 0)) as [->|]; [apply Z.bits_0|].
  destruct (Z.lt_ge_cases k 0); [rewrite Z.pow_neg_r in Hb; lia|].
  apply Z.bits_above_log2; [lia|]. apply Z.log2_lt_pow2; [lia|].
  assert (2 ^ k <= 2 ^ n) by (apply Z.pow_le_mono_r; lia). lia.
Qed.

(** Joining a low half of [k] bits onto a high one. *)
Lemma lor_shiftl_add a b k : 0 <= k -> 0 <= b < 2 ^ k -> Z.lor (Z.shiftl a k) b = a * 2 ^ k + b.
Proof.
  intros Hk Hb. rewrite <- Z.add_lor_land, Z.shiftl_mul_pow2 by done.
  assert (Z.land (a * 2 ^ k) b = 0) as ->; [|lia].
  apply Z.bits_inj'. intros n Hn. rewrite Z.land_spec, Z.bits_0.
  destruct (Z.lt_ge_cases n k) as [?|Hge]; [by rewrite Z.mul_pow2_bits_low|].
  by rewrite (bits_beyond b k n), andb_false_r.
Qed.

(** Masking to the high bits of a [w]-bit number drops its [k] low ones. *)
Lemma land_high w k s : 0 <= k <= w -> 0 <= s < 2 ^ w -> Z.land s (2 ^ w - 2 ^ k) = s / 2 ^ k * 2 ^ k.
Proof.
  intros Hk Hs.
  assert (s / 2 ^ k * 2 ^ k = Z.ldiff s (Z.ones k)) as ->.
  { rewrite Z.ldiff_ones_r, Z.shiftl_mul_pow2, Z.shiftr_div_pow2 by lia. done. }
  assert (2 ^ w - 2 ^ k = Z.ldiff (Z.ones w) (Z.ones k)) as ->.
  { rewrite Z.ldiff_ones_r, Z.shiftl_mul_pow2, Z.shiftr_div_pow2, Z.ones_div_pow2, !Z.ones_equiv by lia.
    replace w with (w - k + k) at 1 by lia. rewrite Z.pow_add_r by lia. lia. }
  apply Z.bits_inj'. intros n Hn. rewrite Z.land_spec, !Z.ldiff_spec.
  destruct (Z.lt_ge_cases n w).
  - by rewrite (Z.ones_spec_low w n) by lia.
  - by rewrite (bits_beyond s w n).
Qed.

(** The tail of an IPv6 address is its low 32 bits. *)
Lemma v6_tail_spec v6 : v6_tail v6 = v6 mod 2 ^ 32.
Proof.
  unfold v6_tail. rewrite lor_shiftl_add; [| lia | apply segment_range; lia].
  rewrite !segment_spec by lia. change (16 * (7 - 6)) with 16. change (16 * (7 - 7)) with 0.
  change (2 ^ 0) with 1. rewrite Z.div_1_r. change (2 ^ 16) with 65536. change (2 ^ 32) with (65536 * 65536).
  rewrite Z.rem_mul_r by lia. lia.
Qed.

End Net.
