(* ===== verification/Ssrf.v ===== *)
(** * Outbound fetch guard (src/ssrf.rs)

    The address rules, the guard's allow-list, the pre-flight check of a URL, the
    filtering DNS resolver and the redirect loop. The [url] crate, the HTTP
    client, the system resolver and the clock are parameters ([Web]). *)
From S2P Require Import Prelude RustStr Net.

Module Ssrf.
Import Net.

(** ** Address rules *)

Definition nat64_embedded_v4 (v6 : Z) : option Z :=
  let s i := segment i v6 in
  if (s 0 =? 0x64) && (s 1 =? 0xff9b)
     && (Z.lor (Z.lor (Z.lor (s 2) (s 3)) (s 4)) (s 5) =? 0)
  then Some (v4_new (Z.land (Z.shiftr (s 6) 8) 255) (Z.land (s 6) 255)
                    (Z.land (Z.shiftr (s 7) 8) 255) (Z.land (s 7) 255))
  else None.

Definition is_forbidden_v4 (v4 : Z) : bool :=
  v4_is_private v4 || v4_is_loopback v4 || v4_is_link_local v4
  || v4_is_unspecified v4 || v4_is_broadcast v4 || v4_is_multicast v4
  || (octet 0 v4 =? 0) || (240 <=? octet 0 v4)
  || ((octet 0 v4 =? 100) && (Z.land (octet 1 v4) 0xc0 =? 64)).

Definition is_forbidden_ip (ip : IpAddr) : bool :=
  match ip with
  | V4 v4 => is_forbidden_v4 v4
  | V6 v6 =>
      match to_ipv4 v6 with
      | Some v4 => is_forbidden_v4 v4
      | None =>
          match nat64_embedded_v4 v6 with
          | Some v4 => is_forbidden_v4 v4
          | None =>
              v6_is_loopback v6 || v6_is_unspecified v6 || v6_is_multicast v6
              || (Z.land (segment 0 v6) 0xfe00 =? 0xfc00)
              || (Z.land (segment 0 v6) 0xffc0 =? 0xfe80)
          end
      end
  end.

(** ** The guard *)

(** [ipnet::IpNet]: a network of one family and its prefix length. *)
Record IpNet := { net_addr : IpAddr; prefix_len : Z }.
Definition net_contains (n : IpNet) (ip : IpAddr) : bool :=
  match net_addr n, ip with
  | V4 a, V4 b => in_net 32 a (prefix_len n) b
  | V6 a, V6 b => in_net 128 a (prefix_len n) b
  | _, _ => false
  end.

Record Guard := {
  upstream_host : option str;
  allow_hosts : gset str;
  allow_cidrs : list IpNet
}.

(** [url::Host]. *)
Inductive Host : Type :=
  | Domain (name : str)
  | HostIp (ip : IpAddr).

(** What the fetch path uses of its libraries: URLs, address printing and
    network parsing; one GET (a reply, or the client's error) and the system's
    name lookup. *)
Class Web := {
  Url : Type;
  url_parse : str -> option Url;
  url_scheme : Url -> str;
  url_host : Url -> option Host;
  url_join : Url -> str -> option Url;
  host_text : Host -> str;
  parse_net : str -> option IpNet
}.

(** A reply: whether its status is 3xx and its [Location] header, if any, with
    [None] inside for bytes that are not text. *)
Record Response := {
  is_redirection : bool;
  location : option (option str);
  payload : str
}.

(** The errors of the fetch path; texts leave out the URL they quote. *)
Inductive fetch_error : Type :=
  | Blocked (why : str)
  | TimedOut
  | SendFailed (why : str)
  | BadLocation
  | BadCidr (raw : str).

Definition MAX_REDIRECTS : nat := 10.

Section guard.
Context {W : Web}.

(** [Guard::new]. *)
Fixpoint parse_nets (raws : list str) : result fetch_error (list IpNet) :=
  match raws with
  | [] => Ok []
  | raw :: rest =>
      match parse_net raw with
      | None => Err (BadCidr raw)
      | Some n => let? ns := parse_nets rest in Ok (n :: ns)
      end
  end.

Definition guard_new (upstream : str) (hosts cidrs : list str) : result fetch_error Guard :=
  let up := let! u := url_parse upstream in host_text <$> url_host u in
  let? ns := parse_nets cidrs in
  Ok {| upstream_host := up; allow_hosts := list_to_set hosts; allow_cidrs := ns |}.

Definition host_exempt (g : Guard) (host : str) : bool :=
  bool_decide (upstream_host g = Some host) || bool_decide (host ∈ allow_hosts g).

Definition ip_allowed (g : Guard) (ip : IpAddr) : bool :=
  negb (is_forbidden_ip ip) || existsb (fun n => net_contains n ip) (allow_cidrs g).

Definition check_target (g : Guard) (url : Url) : result fetch_error unit :=
  if negb (bool_decide (url_scheme url = &"http") || bool_decide (url_scheme url = &"https"))
  then Err (Blocked (&"only http/https targets are allowed"))
  else match url_host url with
  | None => Err (Blocked (&"URL has no host"))
  | Some (Domain _) => Ok tt
  | Some (HostIp ip) =>
      let exempt := host_exempt g (ip_text ip) || host_exempt g (&"[" ++ ip_text ip ++ &"]") in
      if exempt || ip_allowed g ip then Ok tt
      else Err (Blocked (&"private/loopback/link-local address"))
  end.

(** [SsrfGuardResolver::resolve] over the system's answer for [host]. *)
Definition resolve (g : Guard) (host : str) (lookup_host : result fetch_error (list IpAddr))
    : result fetch_error (list IpAddr) :=
  let exempt := host_exempt g host in
  let? addrs := lookup_host in
  let filtered := filter (fun ip => exempt || ip_allowed g ip = true) addrs in
  match filtered with
  | [] => Err (Blocked (&"resolves only to private/loopback addresses"))
  | _ => Ok filtered
  end.

(** ** The redirect loop *)

(** The network answers the [n]-th request, given its URL and the timeout set on
    it; [clock n] is the instant read before it. *)
Variable send : nat -> Url -> option Z -> result fetch_error Response.
Variable clock : nat -> Z.

(** A request that went out: its URL and timeout. *)
Definition sent : Type := Url * option Z.

(** The body of the loop: [hops] iterations are left, [n] requests went out. The
    second component lists the requests, oldest first. *)
Fixpoint follow (g : Guard) (deadline : option Z) (hops n : nat) (current : Url)
    : result fetch_error Response * list sent :=
  match hops with
  | O => (Err (Blocked (&"too many redirects (> 10) fetching upstream URL")), [])
  | S hops =>
      match check_target g current with
      | Err e => (Err e, [])
      | Ok tt =>
          let left := (fun d => u64_saturating_sub d (clock n)) <$> deadline in
          if bool_decide (left = Some 0) then (Err TimedOut, [])
          else
          let rest :=
            match send n current left with
            | Err e => (Err e, [])
            | Ok resp =>
                if negb (is_redirection resp) then (Ok resp, [])
                else match location resp with
                | None => (Ok resp, [])
                | Some None => (Err BadLocation, [])
                | Some (Some loc) =>
                    match url_join current loc with
                    | None => (Err BadLocation, [])
                    | Some next => follow g deadline hops (S n) next
                    end
                end
            end in
          (rest.1, (current, left) :: rest.2)
      end
  end.

(** [guarded_get_with]; [start] is the instant the deadline is taken at, and
    [send] stands for the client with the caller's decoration of each hop. *)
Definition guarded_get_with (g : Guard) (url : Url) (budget : option Z) (start : Z)
    : result fetch_error Response * list sent :=
  follow g ((fun b => start + b) <$> budget) (S MAX_REDIRECTS) 0 url.

End guard.

(** ** The address rules against their reference *)

(** The networks the address rules close, as (network, prefix length). *)
Definition forbidden_v4_nets : list (Z * Z) :=
  [(v4_new 0 0 0 0, 8); (v4_new 10 0 0 0, 8); (v4_new 100 64 0 0, 10); (v4_new 127 0 0 0, 8);
   (v4_new 169 254 0 0, 16); (v4_new 172 16 0 0, 12); (v4_new 192 168 0 0, 16);
   (v4_new 224 0 0 0, 4); (v4_new 240 0 0 0, 4)].
Definition forbidden_v6_nets : list (Z * Z) :=
  [(Z.shiftl 0xff00 112, 8); (Z.shiftl 0xfc00 112, 7); (Z.shiftl 0xfe80 112, 10)].
(** The prefixes whose addresses stand for the IPv4 address in their low bits:
    [::/96], [::ffff:0:0/96] and NAT64's [64:ff9b::/96]. *)
Definition embedding_nets : list (Z * Z) :=
  [(0, 96); (Z.shiftl 0xffff 32, 96); (Z.shiftl 0x64ff9b 96, 96)].
Definition in_nets (w : Z) (nets : list (Z * Z)) (ip : Z) : bool :=
  existsb (fun n => in_net w n.1 n.2 ip) nets.
(** The reference: what address a target reaches, and whether it is closed. *)
Definition reaches (ip : IpAddr) : IpAddr :=
  match ip with
  | V6 v6 => if in_nets 128 embedding_nets v6 then V4 (v6 mod 2 ^ 32) else ip
  | V4 _ => ip
  end.
Definition closed_ip (ip : IpAddr) : bool :=
  match reaches ip with
  | V4 v4 => in_nets 32 forbidden_v4_nets v4
  | V6 v6 => in_nets 128 forbidden_v6_nets v6
  end.


(** Evaluate the closed powers and network numbers of the goal. *)
Ltac eval_pows :=
  repeat match goal with
  | |- context [2 ^ (?a - ?b)] => let x := eval vm_compute in (2 ^ (a - b)) in change (2 ^ (a - b)) with x
  | |- context [?a / ?b] => lazymatch a with Zpos _ => let x := eval vm_compute in (a / b) in change (a / b) with x | 0 => change (0 / b) with 0 end
  end.

(** [lia] with the division and remainder equations spelled out. *)
Ltac divlia := Z.to_euclidean_division_equations; lia.

Lemma v4_split v4 : 0 <= v4 < 2 ^ 32 ->
  exists a b r, v4 = a * 16777216 + b * 65536 + r /\ 0 <= a < 256 /\ 0 <= b < 256 /\ 0 <= r < 65536 /\
    octet 0 v4 = a /\ octet 1 v4 = b.
Proof.
  intros Hv. exists (v4 / 16777216), (v4 / 65536 mod 256), (v4 mod 65536).
  rewrite !octet_spec by lia. change (2 ^ (8 * (3 - 0))) with 16777216.
  change (2 ^ (8 * (3 - 1))) with 65536. divlia.
Qed.

Lemma div_bounds x d : 0 < d -> d * (x / d) <= x < d * (x / d) + d.
Proof. intros Hd. pose proof (Z.div_mod x d ltac:(lia)). pose proof (Z.mod_pos_bound x d Hd). lia. Qed.

Lemma forbidden_v4_exact v4 :
  0 <= v4 < 2 ^ 32 -> is_forbidden_v4 v4 = in_nets 32 forbidden_v4_nets v4.
Proof.
  intros Hv. apply v4_split in Hv as (a & b & r & Hv & Ha & Hb & Hr & E0 & E1).
  apply eq_iff_eq_true.
  unfold is_forbidden_v4, v4_is_private, v4_is_loopback, v4_is_link_local, v4_is_unspecified,
    v4_is_broadcast, v4_is_multicast. rewrite E0, E1.
  assert (Z.land b 0xc0 = b / 64 * 64) as -> by (apply (land_high 8 6); lia).
  unfold in_nets, in_net. cbn [existsb forbidden_v4_nets fst snd].
  repeat match goal with |- context [v4_new ?a ?b ?c ?d] => let x := eval vm_compute in (v4_new a b c d) in change (v4_new a b c d) with x end.
  eval_pows.
  assert (v4 / 16777216 = a) as -> by divlia. assert (v4 / 65536 = a * 256 + b) as -> by divlia.
  assert (v4 / 4194304 = a * 4 + b / 64) as -> by divlia.
  assert (v4 / 1048576 = a * 16 + b / 16) as -> by divlia.
  assert (v4 / 268435456 = a / 16) as -> by divlia.
  rewrite ?orb_true_iff, ?andb_true_iff, ?Z.eqb_eq, ?Z.leb_le. change (2 ^ 32 - 1) with 4294967295.
  clear E0 E1.
  assert (v4 = 0 -> a = 0) by lia. assert (v4 = 4294967295 -> 240 <= a) by lia. clear Hv Hr.
  pose proof (div_bounds b 64 ltac:(lia)) as Hq. pose proof (div_bounds b 16 ltac:(lia)) as Hs.
  pose proof (div_bounds a 16 ltac:(lia)) as Hh.
  set (q := b / 64) in *. set (s := b / 16) in *. set (h := a / 16) in *. clearbody q s h.
  assert (a * 256 + b = 43518 <-> a = 169 /\ b = 254) by (clear - Ha Hb; lia).
  assert (a * 256 + b = 49320 <-> a = 192 /\ b = 168) by (clear - Ha Hb; lia).
  assert (a * 4 + q = 401 <-> a = 100 /\ q * 64 = 64) by (clear - Ha Hb Hq; lia).
  assert (a * 16 + s = 2753 <-> a = 172 /\ 16 <= b /\ b <= 31) by (clear - Ha Hb Hs; lia).
  assert (h = 14 <-> 224 <= a /\ a <= 239) by (clear - Hh; lia).
  assert (h = 15 <-> 240 <= a) by (clear - Ha Hh; lia).
  assert (false ≠ true) by done. clear Ha Hb Hq Hs Hh. tauto.
Qed.

(** An IPv6 address by its segments. *)
Lemma v6_split v6 : 0 <= v6 < 2 ^ 128 ->
  v6 / 2 ^ 32 = ((((segment 0 v6 * 65536 + segment 1 v6) * 65536 + segment 2 v6) * 65536
    + segment 3 v6) * 65536 + segment 4 v6) * 65536 + segment 5 v6.
Proof.
  intros Hv. rewrite !segment_spec by lia.
  assert (forall i, 0 <= i -> v6 / 2 ^ (16 * (i + 1)) = (v6 / 2 ^ (16 * i)) / 65536) as Hstep.
  { intros i Hi. rewrite Z.div_div by lia. f_equal. change 65536 with (2 ^ 16). rewrite <- Z.pow_add_r by lia.
    f_equal. lia. }
  pose proof (Hstep 2 ltac:(lia)) as H2. pose proof (Hstep 3 ltac:(lia)) as H3.
  pose proof (Hstep 4 ltac:(lia)) as H4. pose proof (Hstep 5 ltac:(lia)) as H5.
  pose proof (Hstep 6 ltac:(lia)) as H6. pose proof (Hstep 7 ltac:(lia)) as H7.
  assert (v6 / 2 ^ (16 * (7 + 1)) = 0) as H8 by (apply Z.div_small; done).
  rewrite H7 in H8. 
  change (16 * (2 + 1)) with 48 in *. change (16 * (3 + 1)) with 64 in *.
  change (16 * (4 + 1)) with 80 in *. change (16 * (5 + 1)) with 96 in *.
  change (16 * (6 + 1)) with 112 in *. change (16 * (7 + 1)) with 128 in *.
  change (16 * 2) with 32 in *. change (16 * 3) with 48 in *. change (16 * 4) with 64 in *.
  change (16 * 5) with 80 in *. change (16 * 6) with 96 in *. change (16 * 7) with 112 in *.
  change (16 * (7 - 0)) with 112. change (16 * (7 - 1)) with 96. change (16 * (7 - 2)) with 80.
  change (16 * (7 - 3)) with 64. change (16 * (7 - 4)) with 48. change (16 * (7 - 5)) with 32.
  revert H2 H3 H4 H5 H6 H8.
  generalize (v6 / 2 ^ 32) (v6 / 2 ^ 48) (v6 / 2 ^ 64) (v6 / 2 ^ 80) (v6 / 2 ^ 96) (v6 / 2 ^ 112).
  intros x2 x3 x4 x5 x6 x7 -> -> -> -> -> H. clear Hstep H7 Hv. divlia.
Qed.

Lemma v4_of_halves h l : 0 <= h < 65536 -> 0 <= l < 65536 ->
  v4_new (Z.land (Z.shiftr h 8) 255) (Z.land h 255) (Z.land (Z.shiftr l 8) 255) (Z.land l 255)
  = h * 65536 + l.
Proof.
  intros Hh Hl. unfold v4_new. change 255 with (2 ^ 8 - 1). rewrite !land_ones_mod, !Z.shiftr_div_pow2 by lia.
  change (2 ^ 8) with 256.
  rewrite (lor_shiftl_add _ _ 8) by (change (2 ^ 8) with 256; divlia). change (2 ^ 8) with 256.
  rewrite (lor_shiftl_add _ _ 16) by (change (2 ^ 16) with 65536; divlia). change (2 ^ 16) with 65536.
  rewrite (lor_shiftl_add _ _ 24) by (change (2 ^ 24) with 16777216; divlia).
  change (2 ^ 24) with 16777216. divlia.
Qed.

(** The two folds together take exactly the embedding prefixes. *)
Lemma embedded_exact v6 : 0 <= v6 < 2 ^ 128 ->
  match to_ipv4 v6 with Some v4 => Some v4 | None => nat64_embedded_v4 v6 end
  = if in_nets 128 embedding_nets v6 then Some (v6 mod 2 ^ 32) else None.
Proof.
  intros Hv. pose proof (v6_split v6 Hv) as Hs. pose proof (v6_tail_spec v6) as Ht.
  assert (forall i, 0 <= i <= 7 -> 0 <= segment i v6 < 65536) as Hr by (intros; by apply segment_range).
  pose proof (Hr 0 ltac:(lia)). pose proof (Hr 1 ltac:(lia)). pose proof (Hr 2 ltac:(lia)).
  pose proof (Hr 3 ltac:(lia)). pose proof (Hr 4 ltac:(lia)). pose proof (Hr 5 ltac:(lia)).
  assert (in_nets 128 embedding_nets v6 = true <->
    v6 / 2 ^ 32 = 0 \/ v6 / 2 ^ 32 = 0xffff \/ v6 / 2 ^ 32 = 0x64ff9b * 2 ^ 64) as Hin.
  { unfold in_nets, in_net. cbn [existsb embedding_nets fst snd].
    change (2 ^ (128 - 96)) with (2 ^ 32). change (Z.shiftl 0xffff 32 / 2 ^ 32) with 0xffff.
    change (Z.shiftl 0x64ff9b 96 / 2 ^ 32) with (0x64ff9b * 2 ^ 64). change (0 / 2 ^ 32) with 0.
    rewrite !orb_true_iff, !Z.eqb_eq. naive_solver. }
  unfold to_ipv4, nat64_embedded_v4. cbv zeta. rewrite v4_of_halves by (apply Hr; lia).
  assert (segment 6 v6 * 65536 + segment 7 v6 = v6_tail v6) as ->.
  { unfold v6_tail. rewrite lor_shiftl_add; [done | lia | apply Hr; lia]. }
  rewrite Ht. rewrite Hs in Hin. clear Hs Ht Hv.
  change (2 ^ 64) with 18446744073709551616 in Hin.
  destruct (v6_head v6 && _) eqn:E1.
  { assert (in_nets 128 embedding_nets v6 = true) as ->; [|done].
    apply Hin. unfold v6_head in E1. bool_to_prop. lia. }
  match goal with |- context [if ?c then _ else _] => destruct c eqn:E2 end.
  { assert (in_nets 128 embedding_nets v6 = true) as ->; [|done].
    bool_to_prop. rewrite !Z.lor_eq_0_iff in *. apply Hin. lia. }
  destruct (in_nets 128 embedding_nets v6) eqn:E3; [|done]. exfalso.
  assert (E3' : true = true) by done. apply Hin in E3' as [E|[E|E]]; clear Hin.
  - assert (v6_head v6 && ((segment 5 v6 =? 0) || (segment 5 v6 =? 65535)) = true); [|congruence].
    unfold v6_head. lia.
  - assert (v6_head v6 && ((segment 5 v6 =? 0) || (segment 5 v6 =? 65535)) = true); [|congruence].
    unfold v6_head. lia.
  - rewrite <- not_true_iff_false, !andb_true_iff, !Z.eqb_eq, !Z.lor_eq_0_iff in E2. lia.
Qed.

(** A prefix of at most 16 bits reads the first segment. *)
Lemma first_segment v6 k : 0 <= v6 < 2 ^ 128 -> 0 <= k <= 16 ->
  v6 / 2 ^ (112 + k) = segment 0 v6 / 2 ^ k.
Proof.
  intros Hv Hk. rewrite Z.pow_add_r, <- Z.div_div by lia. rewrite segment_spec by lia.
  change (16 * (7 - 0)) with 112. rewrite (Z.mod_small (v6 / 2 ^ 112)); [done|].
  split; [apply Z.div_pos; lia|]. apply Z.div_lt_upper_bound; lia.
Qed.

Lemma forbidden_v6_exact v6 : 0 <= v6 < 2 ^ 128 -> in_nets 128 embedding_nets v6 = false ->
  v6_is_loopback v6 || v6_is_unspecified v6 || v6_is_multicast v6
  || (Z.land (segment 0 v6) 0xfe00 =? 0xfc00) || (Z.land (segment 0 v6) 0xffc0 =? 0xfe80)
  = in_nets 128 forbidden_v6_nets v6.
Proof.
  intros Hv Hin. pose proof (segment_range 0 v6 ltac:(lia)) as Hr.
  assert (v6_is_loopback v6 = false /\ v6_is_unspecified v6 = false) as [-> ->].
  { unfold v6_is_loopback, v6_is_unspecified. split; apply not_true_iff_false; intros ->%Z.eqb_eq; done. }
  unfold v6_is_multicast, in_nets, in_net. cbn [existsb forbidden_v6_nets fst snd].
  change (128 - 8) with (112 + 8). change (128 - 7) with (112 + 9). change (128 - 10) with (112 + 6).
  rewrite (first_segment _ 8), (first_segment _ 9), (first_segment _ 6) by lia.
  pose proof (land_high 16 8 (segment 0 v6) ltac:(lia) Hr) as E8.
  pose proof (land_high 16 9 (segment 0 v6) ltac:(lia) Hr) as E9.
  pose proof (land_high 16 6 (segment 0 v6) ltac:(lia) Hr) as E6.
  change (2 ^ 16 - 2 ^ 8) with 0xff00 in E8. change (2 ^ 16 - 2 ^ 9) with 0xfe00 in E9.
  change (2 ^ 16 - 2 ^ 6) with 0xffc0 in E6. rewrite E8, E9, E6. clear E8 E9 E6.
  change (Z.shiftl 0xff00 112 / 2 ^ (112 + 8)) with 255. change (Z.shiftl 0xfc00 112 / 2 ^ (112 + 9)) with 126.
  change (Z.shiftl 0xfe80 112 / 2 ^ (112 + 6)) with 1018.
  change (2 ^ 8) with 256. change (2 ^ 9) with 512. change (2 ^ 6) with 64.
  apply eq_iff_eq_true. rewrite !orb_true_iff, !Z.eqb_eq. clear Hin Hv. divlia.
Qed.

(** C30: the address rules close exactly the documented networks. An address is
    judged as the one it reaches (an IPv4 address written in [::/96],
    [::ffff:0:0/96] or NAT64's [64:ff9b::/96] as that IPv4 address), and it is
    forbidden precisely when that one lies in 0/8, 10/8, 100.64/10, 127/8,
    169.254/16, 172.16/12, 192.168/16, 224/4 or 240/4, or in ff00::/8, fc00::/7
    or fe80::/10. *)
Theorem forbidden_exact ip : wf_ip ip -> is_forbidden_ip ip = closed_ip ip.
Proof.
  destruct ip as [v4|v6]; intros Hv; [by apply forbidden_v4_exact|].
  pose proof (embedded_exact v6 Hv) as He. unfold closed_ip, reaches.
  assert (0 <= v6 mod 2 ^ 32 < 2 ^ 32) as Hm by (apply Z.mod_pos_bound; lia).
  cbn [is_forbidden_ip].
  destruct (in_nets 128 embedding_nets v6) eqn:Ein.
  { rewrite <- forbidden_v4_exact by done.
    destruct (to_ipv4 v6); [by simplify_eq|]. by rewrite He. }
  destruct (to_ipv4 v6); [done|]. rewrite He. by apply forbidden_v6_exact.
Qed.

Lemma forbidden_exact_witness :
  is_forbidden_ip (V6 (Z.lor (Z.shiftl 0x64ff9b 96) (v4_new 169 254 169 254)))
  = closed_ip (V6 (Z.lor (Z.shiftl 0x64ff9b 96) (v4_new 169 254 169 254))) /\
  closed_ip (V6 (Z.lor (Z.shiftl 0x64ff9b 96) (v4_new 169 254 169 254))) = true /\
  closed_ip (V4 (v4_new 93 184 216 34)) = false.
Proof. split; [apply forbidden_exact; by vm_compute | by vm_compute]. Defined.

(** ** The fetch *)

Section fetch.
Context {W : Web}.
Variable send : nat -> Url -> option Z -> result fetch_error Response.
Variable clock : nat -> Z.

(** A target the guard lets a request go to. *)
Definition exempt_ip (g : Guard) (ip : IpAddr) : Prop :=
  host_exempt g (ip_text ip) = true \/ host_exempt g (&"[" ++ ip_text ip ++ &"]") = true.
Definition open_ip (g : Guard) (ip : IpAddr) : Prop :=
  is_forbidden_ip ip = false \/ exists n, n ∈ allow_cidrs g /\ net_contains n ip = true.
Definition permitted (g : Guard) (url : Url) : Prop :=
  (url_scheme url = &"http" \/ url_scheme url = &"https") /\
  ((exists name, url_host url = Some (Domain name)) \/
   exists ip, url_host url = Some (HostIp ip) /\ (exempt_ip g ip \/ open_ip g ip)).

Lemma ip_allowed_true g ip : ip_allowed g ip = true <-> open_ip g ip.
Proof. unfold ip_allowed, open_ip. by rewrite orb_true_iff, negb_true_iff, existsb_Exists. Qed.

Lemma check_target_spec g url : check_target g url = Ok tt <-> permitted g url.
Proof.
  unfold check_target, permitted.
  destruct (negb _) eqn:Es.
  { split; [done|]. intros [Hs _]. apply negb_true_iff, orb_false_iff in Es as [E1 E2]. bool_to_prop. naive_solver. }
  apply negb_false_iff, orb_true_iff in Es. rewrite !bool_decide_eq_true in Es.
  destruct (url_host url) as [[name|ip]|]; [naive_solver | | naive_solver].
  destruct (_ || _ || _) eqn:E.
  - split; [|done]. intros _. split; [done|]. right. exists ip. split; [done|].
    unfold exempt_ip. rewrite !orb_true_iff, ip_allowed_true in E. naive_solver.
  - split; [done|]. intros [_ [[? [=]]|(? & [= <-] & H)]].
    apply not_true_iff_false in E. destruct E. unfold exempt_ip in H.
    rewrite !orb_true_iff, ip_allowed_true. naive_solver.
Qed.

(** What the resolver hands the client of the system's answer: all of it that
    an exempt name or an open address allows, in the answer's order, and an
    error when nothing is left. *)
Definition resolved (g : Guard) (host : str) (answer r : result fetch_error (list IpAddr)) : Prop :=
  match answer with
  | Err e => r = Err e
  | Ok ips =>
    match r with
    | Ok addrs => addrs ≠ [] /\ addrs `sublist_of` ips /\
        (forall ip, ip ∈ addrs <-> ip ∈ ips /\ (host_exempt g host = true \/ open_ip g ip))
    | Err e => (exists why, e = Blocked why) /\
        (forall ip, ip ∈ ips -> host_exempt g host = false /\ ~ open_ip g ip)
    end
  end.

Lemma resolve_exact g host answer : resolved g host answer (resolve g host answer).
Proof.
  unfold resolve, resolved. destruct answer as [ips|e]; cbn [rbind]; [|done].
  set (keep := fun ip => host_exempt g host || ip_allowed g ip = true).
  assert (forall ip, keep ip <-> host_exempt g host = true \/ open_ip g ip) as Hk.
  { intros ip. unfold keep. by rewrite orb_true_iff, ip_allowed_true. }
  assert (forall ip, ip ∈ filter keep ips <-> ip ∈ ips /\ (host_exempt g host = true \/ open_ip g ip)) as Hf.
  { intros ip. rewrite list_elem_of_filter, Hk. tauto. }
  pose proof (sublist_filter keep ips) as Hs.
  destruct (filter keep ips) as [|ip rest] eqn:E; [|split_and!; done].
  split; [by eexists|]. intros ip Hip. specialize (Hf ip) as [_ Hf].
  assert (~ (host_exempt g host = true \/ open_ip g ip)) as Hn by (intros Ho; by eapply not_elem_of_nil, Hf).
  destruct (host_exempt g host); tauto.
Qed.

Lemma check_target_blocked g url e : check_target g url = Err e -> exists why, e = Blocked why.
Proof. unfold check_target. repeat case_goal; naive_solver. Qed.

Lemma follow_blocked g deadline hops n u e :
  check_target g u = Err e -> follow send clock g deadline (S hops) n u = (Err e, []).
Proof. cbn [follow]. by intros ->. Qed.

(** The request after one that was redirected goes where the reply points. *)
Definition redirects_to (n : nat) (r : sent) (next : Url) : Prop :=
  exists resp loc, send n r.1 r.2 = Ok resp /\ is_redirection resp = true /\
    location resp = Some (Some loc) /\ url_join r.1 loc = Some next.
Inductive redirect_chain : nat -> Url -> list sent -> Prop :=
  | chain_none n u : redirect_chain n u []
  | chain_last n u t : redirect_chain n u [(u, t)]
  | chain_hop n u t v out : redirects_to n (u, t) v -> redirect_chain (S n) v out ->
      redirect_chain n u ((u, t) :: out).

(** The timeout of the [i]-th of the requests is what is left of the deadline at
    the instant read before that very request; without a deadline there is
    none. *)
Definition timed (deadline : option Z) (n : nat) (out : list sent) : Prop :=
  forall i s, out !! i = Some s ->
    match deadline with
    | Some d => s.2 = Some (d - clock (n + i)) /\ 0 < d - clock (n + i)
    | None => s.2 = None
    end.

(** The answer handed back is the last request's reply, and not one to follow. *)
Definition final_reply (n : nat) (out : list sent) (resp : Response) : Prop :=
  exists r, last out = Some r /\ send (n + length out - 1) r.1 r.2 = Ok resp /\
    (is_redirection resp = false \/ location resp = None).

Record fetch_ok (g : Guard) (deadline : option Z) (hops n : nat) (u : Url)
    (r : result fetch_error Response) (out : list sent) : Prop := {
  fetch_bound : (length out <= hops)%nat;
  fetch_checked : Forall (fun s => permitted g s.1) out;
  fetch_chain : redirect_chain n u out;
  fetch_timeout : timed deadline n out;
  fetch_reply : forall resp, r = Ok resp -> final_reply n out resp
}.

Lemma fetch_stop g deadline hops n u e : fetch_ok g deadline hops n u (Err e) [].
Proof. constructor; [simpl; lia | constructor.. | by intros i s | done]. Qed.

Lemma timed_cons deadline n s out :
  timed deadline n [s] -> timed deadline (S n) out -> timed deadline n (s :: out).
Proof.
  intros H1 H2 [|i] x Hx; [by apply (H1 O)|]. rewrite <- Nat.add_succ_comm. by apply H2.
Qed.

Lemma follow_ok g deadline hops n u :
  let '(r, out) := follow send clock g deadline hops n u in fetch_ok g deadline hops n u r out.
Proof.
  revert n u. induction hops as [|hops IH]; intros n u; cbn [follow]; [apply fetch_stop|].
  destruct (check_target g u) as [[]|e] eqn:Ec; [|apply fetch_stop].
  apply check_target_spec in Ec. case_bool_decide as Ez; [apply fetch_stop|].
  set (left := _ <$> deadline) in *.
  assert (timed deadline n [(u, left)]) as Hleft.
  { intros [|i] s Hi; [injection Hi as <-|done]. rewrite Nat.add_0_r. subst left. destruct deadline as [d|]; [|done].
    simpl in *. unfold u64_saturating_sub in *.
    assert (Z.max (d - clock n) 0 ≠ 0) by congruence. split; [f_equal|]; lia. }
  assert (forall r, (forall resp, r = Ok resp -> send n u left = Ok resp /\
      (is_redirection resp = false \/ location resp = None)) ->
    fetch_ok g deadline (S hops) n u r [(u, left)]) as Hlast.
  { intros r Hr. constructor; [simpl; lia | by apply Forall_singleton | constructor | done |].
    intros resp ->. destruct (Hr resp eq_refl) as [Hs Hstop]. exists (u, left). split; [done|]. split; [|done].
    simpl. by replace (n + 1 - 1)%nat with n by lia. }
  destruct (send n u left) as [resp|e] eqn:Es; [|by apply Hlast].
  destruct (is_redirection resp) eqn:Er; cbn [negb]; [|apply Hlast; naive_solver].
  destruct (location resp) as [[loc|]|] eqn:El; [| by apply Hlast | apply Hlast; naive_solver].
  destruct (url_join u loc) as [v|] eqn:Ej; [|by apply Hlast].
  specialize (IH (S n) v). destruct (follow _ _ _ _ _ _ _) as [r out].
  destruct IH as [Hb Hc Hch Ht Hr]. cbn [fst snd]. constructor.
  - simpl. lia.
  - by constructor.
  - eapply chain_hop; [|exact Hch]. exists resp, loc. naive_solver.
  - by apply timed_cons.
  - intros resp' E. destruct (Hr resp' E) as (s & Hl & Hs & Hstop). exists s. split; [|split; [|done]].
    + destruct out; [done|]. by rewrite last_cons_cons.
    + simpl. by replace (n + S (length out) - 1)%nat with (S n + length out - 1)%nat by lia.
Qed.

End fetch.

(** C29: an upstream fetch stays inside the guard. Whatever the servers answer and
    however long each takes, every request that goes out, the first and each
    redirected one, has a scheme of http or https and a host that is a name or
    an address the guard permits; at most eleven go out; each follows the
    [Location] of the one before; with a budget, the timeout of every request is
    what is left of the one deadline at the instant read before that request,
    and more than nothing; a reply handed back is the last request's and not a
    redirect that could be followed. A target that is not permitted is refused
    before anything is sent. Of the system's answer for a name, the resolver
    hands on exactly the addresses that are open, or all of them for an exempt
    name, and refuses when none is left. *)
Theorem guarded_get_safe {W : Web} send clock (g : Guard) (url : Url) budget start :
  (let '(r, out) := guarded_get_with send clock g url budget start in
   fetch_ok send clock g ((fun b => start + b) <$> budget) 11 0 url r out /\
   (~ permitted g url -> out = [] /\ exists why, r = Err (Blocked why))) /\
  forall host answer, resolved g host answer (resolve g host answer).
Proof.
  split; [|intros host answer; apply resolve_exact].
  pose proof (follow_ok send clock g ((fun b => start + b) <$> budget) 11 0 url) as H.
  destruct (guarded_get_with _ _ _ _ _ _) as [r out] eqn:E. unfold guarded_get_with, MAX_REDIRECTS in E.
  rewrite E in H. split; [done|].
  rewrite <- check_target_spec. destruct (check_target g url) as [[]|e] eqn:Ec; [done|]. intros _.
  rewrite (follow_blocked send clock g _ 10 0 url e Ec) in E.
  apply check_target_blocked in Ec as [why ->]. naive_solver.
Qed.

End Ssrf.
