(* ===== verification/Range.v ===== *)
(** * HTTP byte ranges (src/range.rs)

    A [Range] header resolved against an object's size, and the read buffer's
    capacity. *)
From S2P Require Import Prelude RustStr.

Module Range.

Inductive RangeSpec : Type :=
  | Full
  | Partial (start end_ : Z)
  | Unsatisfiable.

(** [size] and the numbers read are [u64]. *)
Definition parse_range (header : option str) (size : Z) : RangeSpec :=
  match (let! h := header in strip_prefix (&"bytes=") h) with
  | None => Full
  | Some spec =>
      let spec := trim spec in
      if contains_byte ","%char spec then Full
      else match strip_prefix (&"-") spec with
      | Some suffix =>
          match parse_u64 suffix with
          | None => Full
          | Some n =>
              if (n =? 0) || (size =? 0) then Unsatisfiable
              else let n := Z.min n size in Partial (size - n) (size - 1)
          end
      | None =>
          match split_once "-"%char spec with
          | None => Full
          | Some (start_s, end_s) =>
              match parse_u64 start_s with
              | None => Full
              | Some start =>
                  if size <=? start then Unsatisfiable
                  else if bool_decide (end_s = []) then Partial start (size - 1)
                  else match parse_u64 end_s with
                  | Some e => if start <=? e then Partial start (Z.min e (size - 1)) else Full
                  | None => Full
                  end
              end
          end
      end
  end.

(** [usize] is 64 bits wide on the supported targets: the conversion succeeds. *)
Definition read_capacity (len : Z) : Z := Z.max 1 (Z.min len (64 * 1024)).

(** The buffer is never empty, never over 64 KiB, and never longer than a
    non-empty body. *)
Lemma read_capacity_bounds len :
  1 <= read_capacity len <= 64 * 1024 /\ (0 < len -> read_capacity len <= len).
Proof. unfold read_capacity. lia. Qed.

(** ** Decimal numbers read back *)

Lemma digit_char_spec d : 0 <= d < 10 ->
  is_ascii_digit (digit_char d) = true /\ digit_val (digit_char d) = d.
Proof.
  intros Hd. unfold digit_char. assert (d = 0 \/ d = 1 \/ d = 2 \/ d = 3 \/ d = 4 \/ d = 5 \/
    d = 6 \/ d = 7 \/ d = 8 \/ d = 9) as H by lia. destruct_or! H; subst; by vm_compute.
Qed.

(** The digits produced for [n < 10 ^ k], put before a text of digits, read as
    [n] followed by that text. *)
Lemma decimal_aux_spec k n acc : (0 < k)%nat -> 0 <= n < 10 ^ Z.of_nat k -> Forall is_ascii_digit acc ->
  exists p, decimal_aux k n acc = p ++ acc /\ p ≠ [] /\ Forall is_ascii_digit p /\ digits_val p = n.
Proof.
  revert n acc. induction k as [|k IH]; intros n acc Hk Hn Ha; [lia|]. cbn [decimal_aux].
  assert (0 <= n mod 10 < 10) as Hm by (apply Z.mod_pos_bound; lia).
  destruct (digit_char_spec _ Hm) as [Hd Hv].
  destruct (n <? 10) eqn:E; bool_to_prop.
  - exists [digit_char (n mod 10)]. split; [done|]. split; [done|]. split.
    + apply Forall_singleton. by apply Is_true_true.
    + unfold digits_val. simpl. rewrite Hv. rewrite Z.mod_small; lia.
  - destruct k as [|k]; [simpl in Hn; lia|].
    destruct (IH (n / 10) (digit_char (n mod 10) :: acc)) as (p & Ep & Hne & Hp & Hpv); [lia | | |].
    + rewrite Nat2Z.inj_succ, Z.pow_succ_r in Hn by lia. split; [apply Z.div_pos; lia|].
      apply Z.div_lt_upper_bound; lia.
    + constructor; [by apply Is_true_true | done].
    + exists (p ++ [digit_char (n mod 10)]). rewrite Ep, <- app_assoc. split; [done|].
      split; [by destruct p|]. split.
      * apply Forall_app. split; [done|]. apply Forall_singleton. by apply Is_true_true.
      * unfold digits_val in *. rewrite foldl_app, Hpv. cbn [foldl]. rewrite Hv.
        pose proof (Z.div_mod n 10). lia.
Qed.

Lemma decimal_spec n : u64 n ->
  decimal n ≠ [] /\ Forall is_ascii_digit (decimal n) /\ digits_val (decimal n) = n.
Proof.
  intros Hn. destruct (decimal_aux_spec 20 n []) as (p & E & Hp); [lia | | constructor |].
  - unfold u64, u64_max in Hn. lia.
  - unfold decimal. rewrite E, app_nil_r. done.
Qed.

Lemma parse_u64_decimal n : u64 n -> parse_u64 (decimal n) = Some n.
Proof.
  intros Hn. destruct (decimal_spec n Hn) as (Hne & Hd & Hv). unfold parse_u64.
  destruct (decimal n) as [|c r] eqn:E; [done|].
  destruct (decide (c = "+"%char)) as [->|_]; [by inversion Hd|].
  rewrite bool_decide_true by done. apply forallb_Forall in Hd. rewrite Hd, Hv.
  assert ((n <=? u64_max) = true) as -> by (apply Z.leb_le, Hn). done.
Qed.

Lemma parse_u64_bound s n : parse_u64 s = Some n -> 0 <= n.
Proof.
  unfold parse_u64. set (ds := match s with [] => [] | _ => _ end).
  destruct (_ && _) eqn:E; [|done]. intros [= <-]. bool_to_prop.
  match goal with H : forallb _ _ = true |- _ => apply forallb_Forall in H; revert H end. clear.
  unfold digits_val. assert (forall a, 0 <= a -> Forall is_ascii_digit ds ->
    0 <= foldl (fun n c => 10 * n + digit_val c) a ds) as H; [|by apply H].
  induction ds as [|c ds IH]; intros a Ha Hd; [done|]. inversion Hd as [|?? Hc Hr]; subst.
  cbn [foldl]. apply IH; [|done]. assert (0 <= digit_val c) by (revert Hc; by_bytes c). lia.
Qed.

(** A text of digits and dashes: what surrounds it is untouched. *)
Definition range_char (c : ascii) : bool := is_ascii_digit c || bool_decide (c = "-"%char).

Lemma range_text s : Forall range_char s -> trim s = s /\ contains_byte ","%char s = false.
Proof.
  intros Hs. split.
  - apply trim_plain. eapply Forall_impl; [exact Hs|]. intros c. by_bytes c.
  - apply not_true_iff_false. rewrite contains_byte_true. intros Hin.
    rewrite Forall_forall in Hs. by apply Hs in Hin.
Qed.

Lemma decimal_range n : u64 n -> Forall range_char (decimal n).
Proof.
  intros Hn. destruct (decimal_spec n Hn) as (_ & Hd & _). eapply Forall_impl; [exact Hd|].
  intros c. by_bytes c.
Qed.

Lemma decimal_no_dash n : u64 n -> "-"%char ∉ decimal n.
Proof.
  intros Hn Hin. destruct (decimal_spec n Hn) as (_ & Hd & _). rewrite Forall_forall in Hd.
  by apply Hd in Hin.
Qed.

Lemma decimal_not_suffix n t : u64 n -> strip_prefix (&"-") (decimal n ++ t) = None.
Proof.
  intros Hn. destruct (decimal_spec n Hn) as (Hne & Hd & _). destruct (decimal n) as [|c r]; [done|].
  inversion Hd; subst. cbn. destruct (decide _) as [E|]; [|done]. by subst.
Qed.

(** A header of the two-sided or open form, up to reading its end. *)
Lemma parse_range_from a e size : u64 a -> Forall range_char e ->
  parse_range (Some (&"bytes=" ++ decimal a ++ &"-" ++ e)) size =
  if size <=? a then Unsatisfiable
  else if bool_decide (e = []) then Partial a (size - 1)
  else match parse_u64 e with
       | Some b => if a <=? b then Partial a (Z.min b (size - 1)) else Full
       | None => Full
       end.
Proof.
  intros Ha He. unfold parse_range. cbn [mbind option_bind]. rewrite strip_prefix_app. cbv zeta.
  destruct (range_text (decimal a ++ &"-" ++ e)) as [-> ->].
  { apply Forall_app. split; [by apply decimal_range|]. by constructor. }
  rewrite decimal_not_suffix by done.
  change (&"-" ++ e) with ("-"%char :: e). rewrite split_once_app by (by apply decimal_no_dash).
  by rewrite parse_u64_decimal.
Qed.

(** A resolved range is a slice of the object. Whatever the header, a partial
    answer satisfies [0 <= start <= end < size]; and the three forms mean what
    RFC 9110 says: [bytes=a-b] is [a..=b] cut at the end of the object,
    [bytes=a-] everything from [a], [bytes=-n] the last [n] bytes, with a start
    past the end or an empty suffix unsatisfiable. *)
Theorem parse_range_correct size :
  u64 size ->
  (forall h s e, parse_range h size = Partial s e -> 0 <= s <= e /\ e < size) /\
  (forall a b, u64 a -> u64 b -> a <= b ->
     parse_range (Some (&"bytes=" ++ decimal a ++ &"-" ++ decimal b)) size =
     if size <=? a then Unsatisfiable else Partial a (Z.min b (size - 1))) /\
  (forall a, u64 a -> parse_range (Some (&"bytes=" ++ decimal a ++ &"-")) size =
     if size <=? a then Unsatisfiable else Partial a (size - 1)) /\
  (forall n, u64 n -> parse_range (Some (&"bytes=-" ++ decimal n)) size =
     if (n =? 0) || (size =? 0) then Unsatisfiable
     else Partial (size - Z.min n size) (size - 1)).
Proof.
  intros Hsize. split; [|split; [|split]].
  - intros h s e. unfold parse_range. repeat case_goal; intros [= <- <-]; bool_to_prop;
      repeat match goal with H : parse_u64 _ = Some _ |- _ => apply parse_u64_bound in H end;
      unfold u64 in *; lia.
  - intros a b Ha Hb Hab. rewrite parse_range_from by (done || by apply decimal_range).
    destruct (decimal_spec b Hb) as (Hne & _). rewrite bool_decide_false, parse_u64_decimal by done.
    apply Z.leb_le in Hab. by rewrite Hab.
  - intros a Ha. by apply (parse_range_from a []).
  - intros n Hn. unfold parse_range. cbn [mbind option_bind].
    change (&"bytes=-" ++ decimal n) with (&"bytes=" ++ &"-" ++ decimal n).
    rewrite strip_prefix_app. cbv zeta.
    destruct (range_text (&"-" ++ decimal n)) as [-> ->]; [constructor; [done | by apply decimal_range]|].
    by rewrite strip_prefix_app, parse_u64_decimal.
Qed.

Lemma parse_range_correct_witness :
  u64 100 /\ parse_range (Some (&"bytes=" ++ decimal 90 ++ &"-" ++ decimal 300)) 100 = Partial 90 99.
Proof.
  assert (u64 100) as H by by vm_compute. split; [exact H|].
  destruct (parse_range_correct 100 H) as (_ & Hr & _). rewrite Hr by by vm_compute. reflexivity.
Defined.

End Range.
