(* ===== verification/Auth.v ===== *)
(** * Credentials and roles (src/token.rs, src/auth.rs, the role checks of
    src/app.rs)

    Install tokens are minted and verified, Basic credentials decoded and
    compared, and a request is placed in the role hierarchy. Base64, serde and
    the text form of a header value are parameters. *)
From S2P Require Import Prelude RustStr Documents Hash.

Module Auth.
Import Hash.

(** ** Tokens *)

Inductive Role : Type := Reader | Uploader | Admin.
#[export] Instance Role_eq_dec : EqDecision Role.
Proof. solve_decision. Defined.

Definition role_parse (s : str) : option Role :=
  if bool_decide (s = &"reader") then Some Reader
  else if bool_decide (s = &"uploader") then Some Uploader
  else if bool_decide (s = &"admin") then Some Admin
  else None.
Definition role_str (r : Role) : str :=
  match r with Reader => &"reader" | Uploader => &"uploader" | Admin => &"admin" end.
(** The derived order, and the one of [Option<Role>] with [None] least. *)
Definition role_rank (r : Role) : Z := match r with Reader => 0 | Uploader => 1 | Admin => 2 end.
Definition opt_role_geb (a b : option Role) : bool :=
  match a, b with
  | _, None => true
  | None, Some _ => false
  | Some a, Some b => role_rank b <=? role_rank a
  end.

Record Claims := MkClaims {
  role : Role;
  repo : option str;
  commit : option str;
  user : option str;
  iat : Z;
  exp : Z
}.
#[export] Instance Claims_eq_dec : EqDecision Claims.
Proof. solve_decision. Defined.

Definition TOKEN_USERNAME : str := &"__token__".
Definition PREFIX : str := &"pypiron-".
Definition MAX_CLOCK_SKEW_SECS : Z := 60.

(** A username up to its [+tag]. *)
Definition base_name (u : str) : str :=
  match split_once "+"%char u with Some (b, _) => b | None => u end.

Definition is_token_username (u : str) : bool := bool_decide (base_name u = TOKEN_USERNAME).

(** The text forms: base64's URL-safe alphabet without padding for tokens (its
    output has no dot) and its standard one for Basic credentials; a header value
    as text, which is the value itself when it is visible ASCII. *)
Class Wire := {
  b64url_encode : str -> str;
  b64url_decode : str -> option str;
  b64url_decode_encode : forall s, b64url_decode (b64url_encode s) = Some s;
  b64url_no_dot : forall s, "."%char ∉ b64url_encode s;
  b64_decode : str -> option str;
  header_to_str : str -> option str
}.

(** [ct_eq]: the accumulator ORs every byte difference. *)
Definition ct_fold (a b : str) : N :=
  foldl (fun diff p => N.lor diff (N.lxor (N_of_ascii p.1) (N_of_ascii p.2))) 0%N (zip a b).
Definition ct_eq (a b : str) : bool :=
  if negb (length a =? length b)%nat then false else (ct_fold a b =? 0)%N.

Section token.
Context {D : Digest} {B : Wire} {J : Codec Claims}.

Definition token_mac (signing_key payload : str) : str :=
  b64url_encode (hmac_sha256 signing_key payload).

Definition mint (signing_key : str) (claims : Claims) : str :=
  let payload := b64url_encode (encode claims) in
  PREFIX ++ payload ++ &"." ++ token_mac signing_key payload.

Definition verify (signing_key token : str) (now_unix : Z) : option Claims :=
  let! body := strip_prefix PREFIX token in
  let! (payload, mac) := split_once "."%char body in
  if negb (ct_eq mac (token_mac signing_key payload)) then None
  else
    let! bytes := b64url_decode payload in
    let! claims := decode bytes in
    if (exp claims <=? now_unix) || (i64_saturating_add now_unix MAX_CLOCK_SKEW_SECS <? iat claims)
    then None else Some claims.

End token.

(** ** Basic credentials *)

Definition nonempty (value : option str) : option str :=
  match value with Some [] => None | v => v end.

Definition cred_pair (u p : option str) : option (str * str) :=
  match nonempty u, nonempty p with Some u, Some p => Some (u, p) | _, _ => None end.

Definition DEFAULT_ADMIN_USER : str := &"admin".
Definition resolve_admin_user (u p : option str) : option str :=
  if bool_decide (is_Some (nonempty p)) && negb (bool_decide (is_Some (nonempty u)))
  then Some DEFAULT_ADMIN_USER else u.

Definition credential_pair_error (label : str) (u p : option str) : option str :=
  match nonempty u, nonempty p with
  | Some _, None => Some (label ++ &" username is set but its password is empty/unset")
  | None, Some _ => Some (label ++ &" password is set but its username is empty/unset")
  | _, _ => None
  end.

(** The one header these checks read: the value of [Authorization]. *)
Record HeaderMap := MkHeaders { authorization : option str }.

Inductive StatusCode : Type := FORBIDDEN | UNAUTHORIZED.
#[export] Instance StatusCode_eq_dec : EqDecision StatusCode.
Proof. solve_decision. Defined.

(** The credentials a server is configured with ([AppState]'s fields). *)
Record AppState := {
  uploader_user : option str; uploader_pass : option str;
  admin_user : option str; admin_pass : option str;
  read_user : option str; read_pass : option str;
  token_signing_key : option str
}.

Section basic.
Context {B : Wire}.

Definition basic_credentials (h : HeaderMap) : option (str * str) :=
  let! v := authorization h in
  let! auth := header_to_str v in
  let! encoded := strip_prefix (&"Basic ") auth in
  let! s := b64_decode encoded in
  if negb (is_utf8 s) then None
  else Some (match split_once ":"%char s with Some up => up | None => (s, []) end).

(** Whether [check_basic_auth] returns [Ok]; its callers only ask that. *)
Definition check_basic_auth (h : HeaderMap) (u p : str) : bool :=
  match basic_credentials h with
  | None => false
  | Some (u', p') =>
      (bool_decide (u' = u) || bool_decide (base_name u' = u)) && ct_eq p' p
  end.

Definition tag_char (b : ascii) : bool :=
  is_ascii_alphanumeric b || bool_decide (b = "-"%char) || bool_decide (b = "_"%char)
  || bool_decide (b = "."%char).
Definition project_tag (h : HeaderMap) : option str :=
  let! (u, _) := basic_credentials h in
  let tag := match split_once "+"%char u with Some (_, t) => t | None => u end in
  if negb (bool_decide (tag = [])) && (length tag <=? 64)%nat && forallb tag_char tag
  then Some tag else None.

(** ** Roles of a request; [now] is the protocol clock in unix seconds *)

Context {D : Digest} {J : Codec Claims}.

Definition uploader_credential (st : AppState) := cred_pair (uploader_user st) (uploader_pass st).
Definition admin_credential (st : AppState) := cred_pair (admin_user st) (admin_pass st).
Definition read_credential (st : AppState) := cred_pair (read_user st) (read_pass st).
Definition uploads_disabled (st : AppState) : bool :=
  bool_decide (uploader_credential st = None) && bool_decide (admin_credential st = None).
Definition credential_free (st : AppState) : bool :=
  uploads_disabled st && bool_decide (read_credential st = None)
  && bool_decide (nonempty (token_signing_key st) = None).

Definition token_role (st : AppState) (h : HeaderMap) (now : Z) : option Role :=
  let! key := nonempty (token_signing_key st) in
  let! (u, p) := basic_credentials h in
  if negb (is_token_username u) then None
  else role <$> verify key p now.

Definition presents (h : HeaderMap) (cred : option (str * str)) : bool :=
  match cred with Some (u, p) => check_basic_auth h u p | None => false end.

Definition is_admin (st : AppState) (h : HeaderMap) (now : Z) : bool :=
  match admin_credential st with
  | Some (u, p) => check_basic_auth h u p || bool_decide (token_role st h now = Some Admin)
  | None => false
  end.

Definition is_uploader (st : AppState) (h : HeaderMap) (now : Z) : bool :=
  is_admin st h now || presents h (uploader_credential st)
  || (negb (uploads_disabled st) && opt_role_geb (token_role st h now) (Some Uploader)).

Definition is_reader (st : AppState) (h : HeaderMap) (now : Z) : bool :=
  match read_credential st with
  | None => true
  | Some (u, p) =>
      check_basic_auth h u p || is_uploader st h now
      || bool_decide (is_Some (token_role st h now))
  end.

Definition authenticates (st : AppState) (h : HeaderMap) (now : Z) : bool :=
  if is_uploader st h now then true
  else if bool_decide (is_Some (token_role st h now)) then true
  else presents h (read_credential st).

Definition require_admin (st : AppState) (h : HeaderMap) (now : Z)
    : result (StatusCode * str) unit :=
  if is_admin st h now then Ok tt
  else if bool_decide (admin_credential st = None)
  then Err (FORBIDDEN, &"This operation is disabled (no admin credential configured)")
  else if authenticates st h now then Err (FORBIDDEN, &"Admin credential required")
  else Err (UNAUTHORIZED, &"Admin credential required").

End basic.

(** ** Lemmas *)

Lemma lor_fold_zero (l : list (ascii * ascii)) a :
  foldl (fun diff p => N.lor diff (N.lxor (N_of_ascii p.1) (N_of_ascii p.2))) a l = 0%N <->
  a = 0%N /\ Forall (fun p => p.1 = p.2) l.
Proof.
  revert a. induction l as [|[x y] l IH]; intros a; cbn [foldl]; [naive_solver|].
  rewrite IH, N.lor_eq_0_iff, N.lxor_eq_0_iff, Forall_cons. cbn [fst snd].
  assert (N_of_ascii x = N_of_ascii y <-> x = y); [|naive_solver].
  split; [|by intros ->]. intros E. by rewrite <- (ascii_N_embedding x), E, ascii_N_embedding.
Qed.

Lemma ct_eq_true a b : ct_eq a b = true <-> a = b.
Proof.
  unfold ct_eq. destruct (_ =? _)%nat eqn:El; cbn [negb].
  2: { apply Nat.eqb_neq in El. split; [done|]. by intros ->. }
  apply Nat.eqb_eq in El. unfold ct_fold. rewrite N.eqb_eq, lor_fold_zero.
  revert b El. induction a as [|x a IH]; intros [|y b] El; try done.
  injection El as El. cbn [zip zip_with]. rewrite Forall_cons. specialize (IH b El). naive_solver.
Qed.

Lemma nonempty_Some v s : nonempty v = Some s <-> v = Some s /\ s ≠ [].
Proof. destruct v as [[]|]; naive_solver. Qed.

Lemma cred_pair_Some u p c d :
  cred_pair u p = Some (c, d) <-> u = Some c /\ p = Some d /\ c ≠ [] /\ d ≠ [].
Proof. unfold cred_pair. destruct u as [[]|], p as [[]|]; naive_solver. Qed.

Section theorems.
Context {D : Digest} {B : Wire} {J : Codec Claims}.

(** A token the key's holder signed, carrying [c], and live at [now]. *)
Definition genuine (key token : str) (now : Z) (c : Claims) : Prop :=
  exists payload,
    token = PREFIX ++ payload ++ &"." ++ token_mac key payload /\ ("."%char ∉ payload) /\
    (exists bytes, b64url_decode payload = Some bytes /\ decode bytes = Some c) /\
    now < exp c /\ iat c <= i64_saturating_add now MAX_CLOCK_SKEW_SECS.

Lemma verify_genuine key token now c : verify key token now = Some c <-> genuine key token now c.
Proof.
  unfold verify, genuine. split.
  - destruct (strip_prefix PREFIX token) as [body|] eqn:Ep; [|done]. cbn [mbind option_bind].
    destruct (split_once _ body) as [[payload mac]|] eqn:Eb; [|done].
    cbn [mbind option_bind]. destruct (ct_eq mac _) eqn:Em; [|done]. cbn [mbind option_bind negb].
    destruct (b64url_decode payload) as [bytes|] eqn:Ed; [|done]. cbn [mbind option_bind].
    destruct (decode bytes) as [c'|] eqn:Ec; [|done]. cbn [mbind option_bind].
    destruct (_ || _) eqn:Et; [done|]. intros [= ->]. bool_to_prop.
    apply ct_eq_true in Em as ->. apply strip_prefix_Some in Ep as ->.
    apply split_once_Some in Eb as [-> Hdot]. exists payload. naive_solver.
  - intros (payload & -> & Hdot & (bytes & Ed & Ec) & He & Hi).
    rewrite strip_prefix_app. cbn [mbind option_bind].
    change (&"." ++ ?m) with ("."%char :: m). rewrite split_once_app by done. cbn [mbind option_bind].
    rewrite (proj2 (ct_eq_true _ _) eq_refl). cbn [negb mbind option_bind]. rewrite Ed. cbn [mbind option_bind].
    rewrite Ec. cbn [mbind option_bind].
    destruct (_ || _) eqn:Et; [|done]. apply orb_true_iff in Et. rewrite Z.leb_le, Z.ltb_lt in Et. lia.
Qed.

(** A token is honoured exactly when it was signed with the server's key, is
    well formed, is not expired and was not issued more than a minute in the
    verifier's future; in particular a minted token yields its claims throughout
    its life, with the expiry exclusive, and nothing outside it. *)
Theorem token_verify_exact key token now c :
  (verify key token now = Some c <-> genuine key token now c) /\
  verify key (mint key c) now =
    (if (now <? exp c) && (iat c <=? i64_saturating_add now MAX_CLOCK_SKEW_SECS) then Some c else None).
Proof.
  split; [apply verify_genuine|].
  destruct (_ && _) eqn:E.
  - bool_to_prop. apply verify_genuine. exists (b64url_encode (encode c)).
    split; [done|]. split; [apply b64url_no_dot|]. split; [|lia]. exists (encode c).
    by rewrite b64url_decode_encode, decode_encode.
  - destruct (verify key (mint key c) now) as [c'|] eqn:Ev; [|done].
    apply verify_genuine in Ev as (payload & Et & Hdot & (bytes & Ed & Ec) & He & Hi).
    unfold mint in Et. apply app_inv_head in Et.
    apply (f_equal (split_once "."%char)) in Et.
    change (&"." ++ ?m) with ("."%char :: m) in Et.
    rewrite !split_once_app in Et by (done || apply b64url_no_dot). injection Et as <- _.
    rewrite b64url_decode_encode in Ed. injection Ed as <-. rewrite decode_encode in Ec. injection Ec as <-.
    exfalso. lia.
Qed.

(** Someone presented the configured pair, with or without a tag, or an admin
    token signed with the configured key. *)
Definition admin_proof (st : AppState) (h : HeaderMap) (now : Z) : Prop :=
  exists u p u' p',
    admin_user st = Some u /\ admin_pass st = Some p /\ u ≠ [] /\ p ≠ [] /\
    basic_credentials h = Some (u', p') /\
    ((u' = u \/ base_name u' = u) /\ p' = p \/
     base_name u' = TOKEN_USERNAME /\
     exists key c, token_signing_key st = Some key /\ key ≠ [] /\
       genuine key p' now c /\ role c = Admin).

Lemma check_basic_auth_true h u p : check_basic_auth h u p = true <->
  exists u' p', basic_credentials h = Some (u', p') /\ (u' = u \/ base_name u' = u) /\ p' = p.
Proof.
  unfold check_basic_auth. destruct (basic_credentials h) as [[u' p']|]; [|naive_solver].
  rewrite andb_true_iff, orb_true_iff, !bool_decide_eq_true, ct_eq_true. naive_solver.
Qed.

Lemma token_role_Some st h now r : token_role st h now = Some r <->
  exists key u p c, token_signing_key st = Some key /\ key ≠ [] /\ basic_credentials h = Some (u, p) /\
    base_name u = TOKEN_USERNAME /\ genuine key p now c /\ role c = r.
Proof.
  unfold token_role. split.
  - destruct (nonempty _) as [key|] eqn:Ek; [|done]. apply nonempty_Some in Ek as [Ek Hne].
    cbn [mbind option_bind]. destruct (basic_credentials h) as [[u p]|] eqn:Eb; [|done].
    cbn [mbind option_bind]. unfold is_token_username. case_bool_decide as Eu; [|done]. cbn [negb].
    intros (c & Hv & ->)%fmap_Some. apply verify_genuine in Hv. naive_solver.
  - intros (key & u & p & c & Ek & Hne & Eb & Eu & Hg & <-).
    rewrite (proj2 (nonempty_Some _ key)) by done. cbn [mbind option_bind]. rewrite Eb. cbn [mbind option_bind].
    unfold is_token_username. rewrite bool_decide_true by done. cbn [negb].
    apply verify_genuine in Hg. by rewrite Hg.
Qed.

Lemma is_admin_proof st h now : is_admin st h now = true <-> admin_proof st h now.
Proof.
  unfold is_admin, admin_proof. split.
  - destruct (admin_credential st) as [[u p]|] eqn:Ea; [|done].
    apply cred_pair_Some in Ea as (Eu & Ep & Hu & Hp).
    rewrite orb_true_iff, bool_decide_eq_true, check_basic_auth_true, token_role_Some.
    intros [(u' & p' & Hc & Hn & Hpw)|(key & u' & p' & c & Ht)]; exists u, p, u', p'; naive_solver.
  - intros (u & p & u' & p' & Eu & Ep & Hu & Hp & Hc & Hcase).
    assert (admin_credential st = Some (u, p)) as -> by (by apply cred_pair_Some).
    rewrite orb_true_iff, bool_decide_eq_true, check_basic_auth_true, token_role_Some.
    destruct Hcase as [Hb|(Hn & key & c & Ht)]; [left | right]; naive_solver.
Qed.

Lemma admin_uploads st h now : is_admin st h now = true -> is_uploader st h now = true.
Proof. unfold is_uploader. by intros ->. Qed.

(** The admin gate. A privileged request is let through exactly when an admin
    credential is configured with both halves non-empty and the request carries
    that user (tagged or not) with that very password, or an admin token signed
    with the configured non-empty key. Otherwise it is 403 when no admin
    credential is configured or when the request authenticates as a lower role,
    and 401 when it authenticates as nobody. Admins may upload, whoever may
    upload authenticates and may read, and a server with no credential
    authenticates nobody. *)
Theorem require_admin_outcome st h now :
  (require_admin st h now = Ok tt <-> admin_proof st h now) /\
  (admin_credential st = None <-> exists why, require_admin st h now = Err (FORBIDDEN, why) /\
     why = &"This operation is disabled (no admin credential configured)") /\
  (require_admin st h now = Err (UNAUTHORIZED, &"Admin credential required") <->
     is_Some (admin_credential st) /\ authenticates st h now = false) /\
  (is_admin st h now = true -> is_uploader st h now = true) /\
  (is_uploader st h now = true -> authenticates st h now = true /\ is_reader st h now = true) /\
  (credential_free st = true -> authenticates st h now = false /\ is_uploader st h now = false).
Proof.
  assert (admin_credential st = None -> is_admin st h now = false) as Hnone.
  { unfold is_admin. by intros ->. }
  assert (is_uploader st h now = true -> authenticates st h now = true) as Hup.
  { unfold authenticates. by intros ->. }
  split; [|split; [|split; [|split; [|split]]]].
  - rewrite <- is_admin_proof. unfold require_admin. destruct (is_admin st h now); [naive_solver|].
    repeat case_match; naive_solver.
  - unfold require_admin. split.
    + intros E. rewrite (Hnone E), bool_decide_true by done. naive_solver.
    + intros (why & E & ->). destruct (is_admin st h now) eqn:Ea; [done|].
      case_bool_decide; [done|]. by destruct (authenticates st h now).
  - unfold require_admin. split.
    + destruct (is_admin st h now); [done|]. case_bool_decide as Ec; [done|].
      destruct (authenticates st h now); [done|]. intros _. split; [by apply not_eq_None_Some | done].
    + intros [Hs Ha]. destruct (is_admin st h now) eqn:Ea; [by rewrite Hup in Ha by by apply admin_uploads|].
      rewrite bool_decide_false by (by apply not_eq_None_Some). by rewrite Ha.
  - apply admin_uploads.
  - intros Hu. split; [by apply Hup|]. unfold is_reader. destruct (read_credential st) as [[u p]|]; [|done].
    by rewrite Hu, orb_true_r.
  - unfold credential_free, uploads_disabled. intros Hf. bool_to_prop.
    assert (token_role st h now = None) as Ht.
    { unfold token_role. by replace (nonempty (token_signing_key st)) with (@None str). }
    assert (is_uploader st h now = false) as Hu.
    { unfold is_uploader, uploads_disabled. rewrite Hnone, Ht by done.
      replace (uploader_credential st) with (@None (str * str)). replace (admin_credential st) with (@None (str * str)).
      done. }
    split; [|done]. unfold authenticates. rewrite Hu, Ht. cbn. by replace (read_credential st) with (@None (str * str)).
Qed.

End theorems.

(** ** Instances for concrete inputs: hex as the base64 stand-in *)

Lemma hex_no_dot s : "."%char ∉ hex s.
Proof. intros H. pose proof (hex_digits s) as Hd. rewrite Forall_forall in Hd. by apply Hd in H. Qed.

Definition toy_wire : Wire :=
  {| b64url_encode := hex; b64url_decode := unhex; b64url_decode_encode := unhex_hex;
     b64url_no_dot := hex_no_dot; b64_decode := Some; header_to_str := Some |}.

#[global] Instance Role_countable : Countable Role.
Proof.
  apply (inj_countable' role_str (fun s => default Reader (role_parse s))). by intros [].
Defined.

#[global] Instance Claims_countable : Countable Claims.
Proof.
  apply (inj_countable' (fun '(MkClaims a b c d e f) => (a, b, c, d, e, f))
    (fun '(a, b, c, d, e, f) => MkClaims a b c d e f)).
  by intros [].
Defined.
Definition toy_claims_codec : Codec Claims := countable_codec.

Definition example_claims : Claims := MkClaims Admin None None (Some (&"ci")) 1000 2000.

Lemma token_verify_exact_witness :
  verify (D := toy_digest) (B := toy_wire) (J := toy_claims_codec) (&"key")
    (mint (D := toy_digest) (B := toy_wire) (J := toy_claims_codec) (&"key") example_claims) 1999
  = Some example_claims.
Proof.
  rewrite (proj2 (token_verify_exact (D := toy_digest) (B := toy_wire) (J := toy_claims_codec)
    (&"key") [] 1999 example_claims)).
  reflexivity.
Defined.

Definition example_state : AppState :=
  {| uploader_user := None; uploader_pass := None; admin_user := Some (&"root");
     admin_pass := Some (&"secret"); read_user := None; read_pass := None; token_signing_key := None |}.

Lemma require_admin_outcome_witness :
  admin_proof (D := toy_digest) (B := toy_wire) (J := toy_claims_codec) example_state
    (MkHeaders (Some (&"Basic root+ci:secret"))) 0 /\
  require_admin (D := toy_digest) (B := toy_wire) (J := toy_claims_codec) example_state
    (MkHeaders (Some (&"Basic root+ci:wrong"))) 0 = Err (UNAUTHORIZED, &"Admin credential required").
Proof.
  split; [|reflexivity].
  apply (proj1 (require_admin_outcome (D := toy_digest) (B := toy_wire) (J := toy_claims_codec)
    example_state (MkHeaders (Some (&"Basic root+ci:secret"))) 0)).
  reflexivity.
Defined.

End Auth.
