(* ===== verification/Throttle.v ===== *)
(** * The failed-login throttle (src/auth.rs, [LoginThrottle])

    The table behind the lock, admission and release of credential-bearing
    requests, and the system of requests in flight around them: admissions and
    releases interleave in any order. [RandomState]'s hash is a parameter. *)
From S2P Require Import Prelude RustStr Net Documents Hash Auth.

Module Throttle.
Import Net Auth.

Definition LOGIN_FAIL_LIMIT : Z := 5.
Definition LOGIN_THROTTLE_CAP : Z := 32 * 1024.
Definition LOGIN_SWEEP_INTERVAL_MS : Z := 1000.

(** A network and its prefix length. *)
Definition ThrottleKey : Type := IpAddr * Z.

(** One wrong credential in flight; [refs = 0] marks the slot free. *)
Record Pending := MkPending { fp : Z; refs : Z; failed : bool }.

Record FailWindow := MkWindow {
  count : Z;
  last_ms : Z;
  blocked_until_ms : Z;
  pending : list Pending
}.
Definition window_default : FailWindow := MkWindow 0 0 0 (replicate 5 (MkPending 0 0 false)).

Record ThrottleTable := MkTable { map : gmap ThrottleKey FailWindow; swept_ms : Z }.
Definition table_default : ThrottleTable := MkTable ∅ 0.

Definition set_count (w : FailWindow) (n : Z) : FailWindow :=
  MkWindow n (last_ms w) (blocked_until_ms w) (pending w).
Definition set_pending (w : FailWindow) (ps : list Pending) : FailWindow :=
  MkWindow (count w) (last_ms w) (blocked_until_ms w) ps.
Definition put (t : ThrottleTable) (k : ThrottleKey) (w : FailWindow) : ThrottleTable :=
  MkTable (<[k := w]> (map t)) (swept_ms t).

Definition held (p : Pending) : bool := 0 <? refs p.
Definition holds_fp (f : Z) (p : Pending) : bool := held p && (fp p =? f).
(** The fingerprints in flight. *)
Definition live_fps (w : FailWindow) : list Z := fp <$> filter (fun p => held p = true) (pending w).
Definition in_flight (w : FailWindow) : Z := Z.of_nat (length (live_fps w)).
Definition live (w : FailWindow) (now_ms : Z) : bool :=
  (now_ms <? blocked_until_ms w) || (0 <? in_flight w).

(** [iter_mut().find(..)] and the change made through the reference. *)
Fixpoint update_first {A} (sel : A -> bool) (change : A -> A) (l : list A) : option (list A) :=
  match l with
  | [] => None
  | x :: l => if sel x then Some (change x :: l) else cons x <$> update_first sel change l
  end.

(** ** The networks an address counts against *)

Definition mask32 (bits : Z) : Z := Z.land (Z.shiftl u32_max (32 - bits)) u32_max.
Definition u128_max : Z := 2 ^ 128 - 1.
Definition mask128 (bits : Z) : Z := Z.land (Z.shiftl u128_max (128 - bits)) u128_max.

Definition v4_keys (v4 : Z) : list ThrottleKey :=
  (fun bits => (V4 (Z.land v4 (mask32 bits)), bits)) <$> [32; 24; 16].
Definition throttle_keys (ip : IpAddr) : list ThrottleKey :=
  match ip with
  | V4 v4 => v4_keys v4
  | V6 v6 =>
      match to_ipv4_mapped v6 with
      | Some v4 => v4_keys v4
      | None => (fun bits => (V6 (Z.land v6 (mask128 bits)), bits)) <$> [64; 48; 32]
      end
  end.
(** [keys[i]]; there are always three. *)
Definition key_at (ip : IpAddr) (i : nat) : ThrottleKey := nth i (throttle_keys ip) (ip, 0).

Definition tracked (m : gmap ThrottleKey FailWindow) (k : ThrottleKey) : bool :=
  bool_decide (is_Some (m !! k)).
(** The network already counting the address: the most specific one tracked. *)
Definition counted (m : gmap ThrottleKey FailWindow) (ip : IpAddr) : option ThrottleKey :=
  List.find (tracked m) (throttle_keys ip).

(** ** Admission and release *)

Section throttle.
Variable cooldown_ms : Z.

Definition decayed (w : FailWindow) (now_ms : Z) : bool :=
  cooldown_ms <=? u64_saturating_sub now_ms (last_ms w).

(** The sweep a crowded map runs before it tracks another network. *)
Definition sweep (t : ThrottleTable) (now_ms : Z) : ThrottleTable :=
  let len := Z.of_nat (size (map t)) in
  if (LOGIN_THROTTLE_CAP / 2 <=? len)
     && (LOGIN_SWEEP_INTERVAL_MS <=? u64_saturating_sub now_ms (swept_ms t))
  then
    let full := LOGIN_THROTTLE_CAP <=? len in
    MkTable (filter (fun kw => live kw.2 now_ms || (negb full && negb (decayed kw.2 now_ms)) = true) (map t))
            now_ms
  else t.

(** Which of its networks an untracked address is counted under, by how many
    quarters of the cap are in use. *)
Definition tier_key (ip : IpAddr) (len : Z) : option ThrottleKey :=
  let quarter := len * 4 / LOGIN_THROTTLE_CAP in
  if quarter <=? 1 then Some (key_at ip 0)
  else if quarter =? 2 then Some (key_at ip 1)
  else if quarter =? 3 then Some (key_at ip 2)
  else None.

Definition admit_untracked (t : ThrottleTable) (ip : IpAddr) (guess : option Z) (now_ms : Z)
    : result Z ThrottleKey * ThrottleTable :=
  let t := sweep t now_ms in
  match tier_key ip (Z.of_nat (size (map t))) with
  | None => (Err (u64_div_ceil cooldown_ms 1000), t)
  | Some key =>
      match guess with
      | None => (Ok key, t)
      | Some f =>
          (Ok key, put t key (set_pending window_default
             (MkPending f 1 false :: replicate 4 (MkPending 0 0 false))))
      end
  end.

Definition u32_wrapping_add (a b : Z) : Z := (a + b) mod 2 ^ 32.

(** The same credential joins its slot. *)
Definition join_slot (f : Z) (w : FailWindow) : option (list Pending) :=
  update_first (holds_fp f)
    (fun p => MkPending (fp p) (u32_wrapping_add (refs p) 1) (failed p)) (pending w).
(** A wrong credential takes the first free slot. *)
Definition take_slot (f : Z) (w : FailWindow) : list Pending :=
  default (pending w)
    (update_first (fun p => refs p =? 0) (fun _ => MkPending f 1 false) (pending w)).

Definition admit_tracked (t : ThrottleTable) (key : ThrottleKey) (w : FailWindow)
    (guess : option Z) (now_ms : Z) : result Z ThrottleKey * ThrottleTable :=
  if now_ms <? blocked_until_ms w
  then (Err (u64_div_ceil (blocked_until_ms w - now_ms) 1000), t)
  else
  let old := decayed w now_ms in
  let w := if old then set_count w 0 else w in
  match (let! f := guess in join_slot f w) with
  | Some ps => (Ok key, put t key (set_pending w ps))
  | None =>
      if LOGIN_FAIL_LIMIT <=? u32_wrapping_add (count w) (in_flight w)
      then (Err 1, put t key w)
      else match guess with
      | Some f => (Ok key, put t key (set_pending w (take_slot f w)))
      | None =>
          if old && negb (live w now_ms)
          then (Ok key, MkTable (delete key (map t)) (swept_ms t))
          else (Ok key, put t key w)
      end
  end.

Definition admit_at (t : ThrottleTable) (ip : IpAddr) (guess : option Z) (now_ms : Z)
    : result Z ThrottleKey * ThrottleTable :=
  if cooldown_ms =? 0 then (Ok (key_at ip 0), t)
  else match counted (map t) ip with
  | None => admit_untracked t ip guess now_ms
  | Some key =>
      match map t !! key with
      | None => (Ok key, t)
      | Some w => admit_tracked t key w guess now_ms
      end
  end.

(** The failure a released slot reports. *)
Definition count_failure (w : FailWindow) (now_ms : Z) : FailWindow :=
  let n := u32_wrapping_add (if decayed w now_ms then 0 else count w) 1 in
  if LOGIN_FAIL_LIMIT <=? n
  then MkWindow 0 now_ms (u64_saturating_add now_ms cooldown_ms) (pending w)
  else MkWindow n now_ms (blocked_until_ms w) (pending w).

Definition drop_ref (outcome : bool) (p : Pending) : Pending :=
  MkPending (fp p) (refs p - 1) (failed p || outcome).

Definition release_at (t : ThrottleTable) (key : ThrottleKey) (f : Z) (outcome : bool) (now_ms : Z)
    : ThrottleTable :=
  match map t !! key with
  | None => t
  | Some w =>
      match List.find (holds_fp f) (pending w), update_first (holds_fp f) (drop_ref outcome) (pending w) with
      | Some p, Some ps =>
          let p := drop_ref outcome p in
          let w := set_pending w ps in
          if (0 <? refs p) || negb (failed p) then put t key w
          else put t key (count_failure w now_ms)
      | _, _ => t
      end
  end.

(** ** Requests in flight

    A [LoginAttempt] of a wrong credential exists from its admission to its drop;
    the requests of a process are counted in 32 bits. *)
Record system := MkSystem { table : ThrottleTable; attempts : list (ThrottleKey * Z) }.

Definition system_init : system := MkSystem table_default [].

Definition admitted (r : result Z ThrottleKey) (guess : option Z) : list (ThrottleKey * Z) :=
  match r, guess with Ok k, Some f => [(k, f)] | _, _ => [] end.

Inductive throttle_step (now_ms : Z) : system -> system -> Prop :=
  | step_admit s ip guess r t :
      Z.of_nat (length (attempts s)) < u32_max ->
      admit_at (table s) ip guess now_ms = (r, t) ->
      throttle_step now_ms s (MkSystem t (admitted r guess ++ attempts s))
  | step_release s l1 k f l2 outcome :
      attempts s = l1 ++ (k, f) :: l2 ->
      throttle_step now_ms s (MkSystem (release_at (table s) k f outcome now_ms) (l1 ++ l2)).

Definition throttle_steps : system -> system -> Prop := rtc (fun s s' => exists now, throttle_step now s s').

End throttle.

(** [fingerprint]: the checked identity of a credential, hashed. *)
Section fingerprint.
Context {B : Wire}.
Variable hash_credential : str * str -> Z.
Variable hash_header : option str -> Z.

Definition fingerprint (h : HeaderMap) : Z :=
  match basic_credentials h with
  | Some (u, p) => hash_credential (base_name u, p)
  | None => hash_header (authorization h)
  end.
End fingerprint.

(** ** Slots *)

Lemma update_first_Some {A} (sel : A -> bool) change l l' :
  update_first sel change l = Some l' ->
  exists l1 x l2, l = l1 ++ x :: l2 /\ l' = l1 ++ change x :: l2 /\ sel x = true /\
    List.find sel l = Some x.
Proof.
  revert l'. induction l as [|y l IH]; intros l'; [done|]. cbn [update_first List.find].
  destruct (sel y) eqn:E; [intros [= <-]; by exists [], y, l|].
  intros (m & Hm & ->)%fmap_Some. destruct (IH m Hm) as (l1 & x & l2 & -> & -> & Hx & Hf).
  by exists (y :: l1), x, l2.
Qed.

Lemma update_first_None {A} (sel : A -> bool) change l :
  update_first sel change l = None <-> Forall (fun x => sel x = false) l.
Proof.
  induction l as [|y l IH]; cbn [update_first]; [naive_solver|]. rewrite Forall_cons.
  destruct (sel y); [naive_solver|]. rewrite fmap_None, IH. naive_solver.
Qed.

(** References to one credential's slot. *)
Definition refs_in (f : Z) (p : Pending) : Z := if holds_fp f p then refs p else 0.
Definition refs_of (f : Z) (ps : list Pending) : Z := foldr (fun p n => refs_in f p + n) 0 ps.

Lemma refs_of_cons f p l : refs_of f (p :: l) = refs_in f p + refs_of f l.
Proof. done. Qed.

Lemma refs_of_app f l1 l2 : refs_of f (l1 ++ l2) = refs_of f l1 + refs_of f l2.
Proof. induction l1 as [|p l1 IH]; [done|]. cbn [app]. rewrite !refs_of_cons, IH. lia. Qed.

Lemma refs_in_nonneg f p : 0 <= refs_in f p.
Proof. unfold refs_in, holds_fp, held. destruct (0 <? refs p) eqn:E; simpl; repeat case_match; bool_to_prop; lia. Qed.

Lemma refs_of_nonneg f l : 0 <= refs_of f l.
Proof. induction l as [|p l IH]; [done|]. rewrite refs_of_cons. pose proof (refs_in_nonneg f p). lia. Qed.

Lemma refs_of_pos f l : 0 < refs_of f l <-> exists p, p ∈ l /\ holds_fp f p = true.
Proof.
  induction l as [|p l IH]; [split; [done|]; intros (? & H & _); by apply not_elem_of_nil in H|].
  rewrite refs_of_cons. pose proof (refs_of_nonneg f l) as Hl. unfold refs_in.
  destruct (holds_fp f p) eqn:E.
  - assert (0 < refs p) by (unfold holds_fp, held in E; bool_to_prop; lia).
    split; [|lia]. intros _. exists p. split; [by left | done].
  - rewrite Z.add_0_l, IH. split.
    + intros (q & Hq & Hh). exists q. split; [by right | done].
    + intros (q & [->|Hq]%elem_of_cons & Hh); [congruence | by exists q].
Qed.

Lemma elem_of_live_fps f w : f ∈ live_fps w <-> exists p, p ∈ pending w /\ holds_fp f p = true.
Proof.
  unfold live_fps. rewrite list_elem_of_fmap. setoid_rewrite list_elem_of_filter. unfold holds_fp.
  setoid_rewrite andb_true_iff. setoid_rewrite Z.eqb_eq. naive_solver.
Qed.

(** A well-formed window: five slots, a count under the limit, the count and the
    slots taken within it, one slot per credential. *)
Record wf_window (w : FailWindow) : Prop := {
  wf_slots : length (pending w) = 5%nat;
  wf_refs : Forall (fun p => 0 <= refs p) (pending w);
  wf_count : 0 <= count w < LOGIN_FAIL_LIMIT;
  wf_budget : count w + in_flight w <= LOGIN_FAIL_LIMIT;
  wf_one_slot : NoDup (live_fps w)
}.

(** The live fingerprints around one slot. *)
Lemma live_fps_split w l1 p l2 : pending w = l1 ++ p :: l2 ->
  live_fps w = (fp <$> filter (fun p => held p = true) l1)
    ++ (if held p then [fp p] else []) ++ (fp <$> filter (fun p => held p = true) l2).
Proof.
  intros E. unfold live_fps. rewrite E, filter_app, fmap_app, filter_cons.
  f_equal. destruct (held p) eqn:Eh.
  - rewrite decide_True by done. done.
  - rewrite decide_False by done. done.
Qed.

(** Changing one slot: what the three uses of a slot do to the window. *)
Lemma slot_change w l1 p l2 p' :
  wf_window w -> pending w = l1 ++ p :: l2 -> 0 <= refs p' ->
  (held p' = true -> held p = true /\ fp p' = fp p \/ held p = false /\ fp p' ∉ live_fps w) ->
  count w + in_flight w + (if held p' then 1 else 0) - (if held p then 1 else 0) <= LOGIN_FAIL_LIMIT ->
  wf_window (set_pending w (l1 ++ p' :: l2)) /\
  in_flight (set_pending w (l1 ++ p' :: l2)) =
    in_flight w + (if held p' then 1 else 0) - (if held p then 1 else 0) /\
  forall f, refs_of f (l1 ++ p' :: l2) = refs_of f (pending w) + refs_in f p' - refs_in f p.
Proof.
  intros [Hlen Hrefs Hcount Hbudget Hnd] E Hr Hh Hb.
  pose proof (live_fps_split w l1 p l2 E) as L.
  pose proof (live_fps_split (set_pending w (l1 ++ p' :: l2)) l1 p' l2 eq_refl) as L'.
  assert (in_flight (set_pending w (l1 ++ p' :: l2)) =
    in_flight w + (if held p' then 1 else 0) - (if held p then 1 else 0)) as Hf.
  { unfold in_flight. rewrite L, L', !length_app. destruct (held p), (held p'); simpl; lia. }
  split; [|split; [done|]].
  - constructor; cbn [pending count set_pending].
    + rewrite E in Hlen. rewrite length_app in *. simpl in *. lia.
    + rewrite E in Hrefs. rewrite Forall_app, Forall_cons in *. naive_solver.
    + done.
    + rewrite Hf. lia.
    + rewrite L'. rewrite L in Hnd, Hh. clear L L' Hf Hb.
      destruct (held p') eqn:Eh'.
      * destruct (Hh eq_refl) as [[Eh Ef]|[Eh Hni]].
        { rewrite Eh in Hnd. by rewrite Ef. }
        rewrite Eh in *. cbn [app] in *. rewrite <- Permutation_middle. by constructor.
      * destruct (held p); [|done]. cbn [app] in *. rewrite <- Permutation_middle in Hnd.
        by inversion Hnd.
  - intros f. rewrite E, !refs_of_app, !refs_of_cons. lia.
Qed.

(** ** The invariant *)

Section invariant.
Variable cooldown_ms : Z.

(** Attempts in flight for one credential under one network. *)
Definition cnt (k : ThrottleKey) (f : Z) (l : list (ThrottleKey * Z)) : Z :=
  Z.of_nat (length (filter (fun a => a = (k, f)) l)).

Record inv (s : system) : Prop := {
  inv_size : Z.of_nat (size (map (table s))) <= LOGIN_THROTTLE_CAP;
  inv_wf : forall k w, map (table s) !! k = Some w -> wf_window w;
  inv_refs : forall k w f, map (table s) !! k = Some w -> refs_of f (pending w) = cnt k f (attempts s);
  inv_slot : cooldown_ms ≠ 0 -> forall k f, (k, f) ∈ attempts s -> is_Some (map (table s) !! k);
  inv_off : cooldown_ms = 0 -> map (table s) = ∅
}.

Lemma cnt_app k f l1 l2 : cnt k f (l1 ++ l2) = cnt k f l1 + cnt k f l2.
Proof. unfold cnt. rewrite filter_app, length_app. lia. Qed.

Lemma cnt_one k f k' f' : cnt k f [(k', f')] = if decide ((k', f') = (k, f)) then 1 else 0.
Proof. unfold cnt. rewrite filter_cons, filter_nil. by case_decide. Qed.

Lemma cnt_pos k f l : 0 < cnt k f l <-> (k, f) ∈ l.
Proof.
  unfold cnt. split.
  - intros H. destruct (filter _ l) as [|a m] eqn:E; [done|].
    assert (a ∈ filter (fun a => a = (k, f)) l) as Ha by (rewrite E; left).
    by apply list_elem_of_filter in Ha as [-> ?].
  - intros H. assert ((k, f) ∈ filter (fun a => a = (k, f)) l) as Ha by (by apply list_elem_of_filter).
    destruct (filter _ l); [by apply not_elem_of_nil in Ha | simpl; lia].
Qed.

Lemma cnt_le k f l : 0 <= cnt k f l <= Z.of_nat (length l).
Proof. unfold cnt. pose proof (length_filter (fun a => a = (k, f)) l). lia. Qed.

(** A window with an attempt in flight is live. *)
Lemma held_live s k w f now : inv s -> map (table s) !! k = Some w -> (k, f) ∈ attempts s ->
  live w now = true.
Proof.
  intros Hi Hk Ha. unfold live. apply orb_true_iff. right. apply Z.ltb_lt.
  apply cnt_pos in Ha. rewrite <- (inv_refs s Hi k w f Hk), refs_of_pos, <- elem_of_live_fps in Ha.
  unfold in_flight. destruct (live_fps w); [by apply not_elem_of_nil in Ha | simpl; lia].
Qed.

(** Writing one window back. *)
Lemma inv_put s k w atts : inv s -> cooldown_ms ≠ 0 ->
  is_Some (map (table s) !! k) \/ Z.of_nat (size (map (table s))) < LOGIN_THROTTLE_CAP ->
  wf_window w -> (forall f, refs_of f (pending w) = cnt k f atts) ->
  (forall k' f, k' ≠ k -> cnt k' f atts = cnt k' f (attempts s)) ->
  inv (MkSystem (put (table s) k w) atts).
Proof.
  intros Hi Hc Hsize Hw Hrefs Hother. constructor; cbn [table attempts put map].
  - destruct (decide (is_Some (map (table s) !! k))) as [Hs|Hn].
    + rewrite map_size_insert_Some by done. by apply inv_size.
    + rewrite map_size_insert_None by (by apply eq_None_not_Some). destruct Hsize; [done | lia].
  - intros k' w' [[<- <-]|[_ H]]%lookup_insert_Some; [done | by eapply inv_wf].
  - intros k' w' f [[<- <-]|[Hne H]]%lookup_insert_Some; [done|].
    rewrite Hother by done. by apply inv_refs.
  - intros _ k' f Hin. destruct (decide (k' = k)) as [->|Hne]; [by rewrite lookup_insert_eq|].
    rewrite lookup_insert_ne by done. apply (inv_slot s Hi Hc k' f), cnt_pos.
    rewrite <- Hother by done. by apply cnt_pos.
  - done.
Qed.

(** Dropping windows that hold no attempt. *)
Lemma inv_shrink s m sw : inv s -> m ⊆ map (table s) ->
  (forall k w f, map (table s) !! k = Some w -> (k, f) ∈ attempts s -> m !! k = Some w) ->
  inv (MkSystem (MkTable m sw) (attempts s)).
Proof.
  intros Hi Hsub Hkeep. constructor; cbn [table attempts map].
  - pose proof (map_subseteq_size _ _ Hsub). pose proof (inv_size s Hi). lia.
  - intros k w H. eapply inv_wf; [done | by eapply lookup_weaken].
  - intros k w f H. eapply inv_refs; [done | by eapply lookup_weaken].
  - intros Hc k f Hin. destruct (inv_slot s Hi Hc k f Hin) as [w Hw]. eauto.
  - intros Hc. rewrite (inv_off s Hi Hc) in Hsub. apply map_empty. intros k.
    destruct (m !! k) eqn:E; [|done]. by eapply lookup_weaken in E; [rewrite lookup_empty in E|].
Qed.

Lemma inv_sweep s now : inv s -> inv (MkSystem (sweep cooldown_ms (table s) now) (attempts s)).
Proof.
  intros Hi. unfold sweep. cbv zeta. destruct (_ && _); [|by destruct s].
  apply inv_shrink; [done | apply map_filter_subseteq|].
  intros k w f Hk Ha. apply map_lookup_filter_Some. split; [done|]. cbn [snd].
  by rewrite (held_live s k w f now).
Qed.

Lemma set_count_wf w n : wf_window w -> 0 <= n <= count w -> wf_window (set_count w n).
Proof.
  intros [Hl Hr Hc Hb Hn] Hle. constructor; cbn [set_count count pending]; try done; [lia|].
  unfold in_flight, live_fps in *. cbn [set_count pending]. lia.
Qed.

Lemma filter_held_all ps : Forall (fun p => held p = true) ps -> filter (fun p => held p = true) ps = ps.
Proof.
  induction 1 as [|p ps Hp _ IH]; [done|]. rewrite filter_cons, decide_True by done. by rewrite IH.
Qed.

(** A free slot exists while the budget is not spent. *)
Lemma free_slot w f : wf_window w -> in_flight w < 5 ->
  exists l1 p l2, pending w = l1 ++ p :: l2 /\ held p = false /\
    take_slot f w = l1 ++ MkPending f 1 false :: l2.
Proof.
  intros [Hl Hr _ _ _] Hf. unfold take_slot. destruct (update_first _ _ _) as [ps|] eqn:E.
  - apply update_first_Some in E as (l1 & p & l2 & E & -> & Hp & _). exists l1, p, l2.
    split; [done|]. split; [|done]. unfold held. bool_to_prop. apply Z.ltb_ge. lia.
  - apply update_first_None in E. exfalso. unfold in_flight, live_fps in Hf.
    rewrite length_fmap, filter_held_all in Hf; [lia|].
    apply Forall_forall. intros p Hp. rewrite Forall_forall in E, Hr. unfold held.
    specialize (E p Hp). specialize (Hr p Hp). simpl in E, Hr. bool_to_prop. apply Z.ltb_lt. lia.
Qed.

(** Taking a slot for a credential that holds none. *)
Lemma take_slot_ok w f : wf_window w -> count w + in_flight w < LOGIN_FAIL_LIMIT -> f ∉ live_fps w ->
  wf_window (set_pending w (take_slot f w)) /\
  forall f', refs_of f' (take_slot f w) = refs_of f' (pending w) + (if decide (f = f') then 1 else 0).
Proof.
  intros Hw Hb Hf. pose proof (wf_count w Hw) as Hc. unfold LOGIN_FAIL_LIMIT in *.
  destruct (free_slot w f Hw) as (l1 & p & l2 & E & Hp & ->); [lia|].
  destruct (slot_change w l1 p l2 (MkPending f 1 false) Hw E) as (H1 & _ & H2).
  - done.
  - by right.
  - rewrite Hp. unfold LOGIN_FAIL_LIMIT. simpl. lia.
  - split; [done|]. intros f'. rewrite H2. unfold refs_in, holds_fp. rewrite Hp. cbn.
    case_decide as Hd; destruct (f =? f') eqn:Ef; bool_to_prop; lia.
Qed.

(** Another request with a credential already in flight. *)
Lemma join_slot_ok w f ps : wf_window w -> join_slot f w = Some ps -> refs_of f (pending w) < u32_max ->
  wf_window (set_pending w ps) /\
  forall f', refs_of f' ps = refs_of f' (pending w) + (if decide (f = f') then 1 else 0).
Proof.
  intros Hw Hj Hmax. apply update_first_Some in Hj as (l1 & p & l2 & E & -> & Hp & _).
  assert (0 < refs p /\ fp p = f) as [Hr Hfp].
  { unfold holds_fp, held in Hp. bool_to_prop. done. }
  assert (refs p <= refs_of f (pending w)) as Hle.
  { rewrite E, refs_of_app, refs_of_cons. unfold refs_in. rewrite Hp.
    pose proof (refs_of_nonneg f l1). pose proof (refs_of_nonneg f l2). lia. }
  assert (u32_wrapping_add (refs p) 1 = refs p + 1) as ->.
  { apply Z.mod_small. unfold u32_max in Hmax. lia. }
  assert (held p = true) as Hh by (by apply Z.ltb_lt).
  assert (held (MkPending (fp p) (refs p + 1) (failed p)) = true) as Hh' by (apply Z.ltb_lt; simpl; lia).
  destruct (slot_change w l1 p l2 (MkPending (fp p) (refs p + 1) (failed p)) Hw E) as (H1 & _ & H2).
  - simpl. lia.
  - by left.
  - rewrite Hh, Hh'. pose proof (wf_budget w Hw). lia.
  - split; [done|]. intros f'. rewrite H2. unfold refs_in, holds_fp. rewrite Hh, Hh'. cbn.
    case_decide as Hd; destruct (fp p =? f') eqn:Ef; bool_to_prop; lia.
Qed.

Lemma join_slot_None w f : join_slot f w = None <-> f ∉ live_fps w.
Proof.
  unfold join_slot. rewrite update_first_None, elem_of_live_fps, Forall_forall. split.
  - intros H (p & Hp & Hh). specialize (H p Hp). simpl in H. congruence.
  - intros H p Hp. destruct (holds_fp f p) eqn:E; [|done]. destruct H. eauto.
Qed.

Lemma counted_Some m ip k : counted m ip = Some k -> k ∈ throttle_keys ip /\ is_Some (m !! k).
Proof.
  unfold counted. intros H. apply List.find_some in H as [Hin Ht]. apply bool_decide_eq_true in Ht.
  split; [by apply list_elem_of_In | done].
Qed.

Lemma counted_None m ip k : counted m ip = None -> k ∈ throttle_keys ip -> m !! k = None.
Proof.
  unfold counted. intros H Hin. apply list_elem_of_In in Hin.
  apply (List.find_none _ _ H), bool_decide_eq_false in Hin. by apply eq_None_not_Some.
Qed.

Lemma key_at_in ip i : (i < 3)%nat -> key_at ip i ∈ throttle_keys ip.
Proof.
  intros Hi. unfold key_at. apply list_elem_of_In, List.nth_In. unfold throttle_keys.
  destruct ip as [v|v]; [done|]. destruct (to_ipv4_mapped v); done.
Qed.

(** Growing the attempts by one admitted credential. *)
Lemma cnt_cons k f k' f' l :
  cnt k' f' ((k, f) :: l) = cnt k' f' l + (if decide ((k, f) = (k', f')) then 1 else 0).
Proof. change ((k, f) :: l) with ([(k, f)] ++ l). rewrite cnt_app, cnt_one. lia. Qed.

Lemma cnt_same k f f' l : cnt k f' ((k, f) :: l) = cnt k f' l + (if decide (f = f') then 1 else 0).
Proof. rewrite cnt_cons. repeat case_decide; naive_solver. Qed.

Lemma cnt_other k f k' f' l : k' ≠ k -> cnt k' f' ((k, f) :: l) = cnt k' f' l.
Proof. intros H. rewrite cnt_cons, decide_False by naive_solver. lia. Qed.

(** One atomic admission keeps the invariant. *)
Lemma admit_tracked_inv s k w guess now r t : inv s -> cooldown_ms ≠ 0 ->
  map (table s) !! k = Some w -> Z.of_nat (length (attempts s)) < u32_max ->
  admit_tracked cooldown_ms (table s) k w guess now = (r, t) ->
  inv (MkSystem t (admitted r guess ++ attempts s)).
Proof.
  intros Hi Hc Hk Hmax. pose proof (inv_wf s Hi k w Hk) as Hw. unfold admit_tracked. cbv zeta.
  destruct (now <? blocked_until_ms w); [intros [= <- <-]; by destruct s|].
  set (w1 := if decayed _ _ _ then _ else _).
  assert (wf_window w1 /\ pending w1 = pending w) as [Hw1 Hp1].
  { subst w1. destruct (decayed _ _ _); [|done]. split; [|done].
    apply set_count_wf; [done|]. pose proof (wf_count w Hw). lia. }
  assert (forall f, refs_of f (pending w1) = cnt k f (attempts s)) as Hrefs.
  { intros f. rewrite Hp1. by apply inv_refs. }
  assert (inv (MkSystem (put (table s) k w1) (attempts s))) as Hput by (apply inv_put; eauto).
  destruct (let! f := guess in join_slot f w1) as [ps|] eqn:Ej.
  - destruct guess as [f|]; [|done]. cbn in Ej. intros [= <- <-]. cbn [admitted app].
    destruct (join_slot_ok w1 f ps Hw1 Ej) as [Hw2 Hr2].
    { rewrite Hrefs. pose proof (cnt_le k f (attempts s)). lia. }
    apply inv_put; eauto using cnt_other. intros f'. cbn [set_pending pending].
    by rewrite Hr2, cnt_same, Hrefs.
  - pose proof (wf_budget w1 Hw1) as Hb. pose proof (wf_count w1 Hw1) as Hcnt.
    assert (u32_wrapping_add (count w1) (in_flight w1) = count w1 + in_flight w1) as ->.
    { apply Z.mod_small. unfold LOGIN_FAIL_LIMIT in *. unfold in_flight in *. lia. }
    destruct (LOGIN_FAIL_LIMIT <=? _) eqn:Ef; [by intros [= <- <-]|]. bool_to_prop.
    destruct guess as [f|].
    + cbn in Ej. apply join_slot_None in Ej. destruct (take_slot_ok w1 f Hw1) as [Hw2 Hr2]; [lia | done |].
      intros [= <- <-]. cbn [admitted app]. apply inv_put; eauto using cnt_other.
      intros f'. cbn [set_pending pending]. by rewrite Hr2, cnt_same, Hrefs.
    + destruct (_ && _) eqn:El; intros [= <- <-]; [|done]. bool_to_prop.
      apply inv_shrink; [done | apply delete_subseteq|].
      intros k' w' f Hk' Ha. apply lookup_delete_Some. split; [|done]. intros <-.
      rewrite Hk in Hk'. injection Hk' as <-.
      assert (live w1 now = live w now) as Hl.
      { subst w1. by destruct (decayed _ _ _). }
      rewrite (held_live s k w f now) in Hl by done. congruence.
Qed.

Definition first_window (f : Z) : FailWindow :=
  set_pending window_default (MkPending f 1 false :: replicate 4 (MkPending 0 0 false)).

Lemma first_window_ok f : wf_window (first_window f) /\
  forall f', refs_of f' (pending (first_window f)) = if decide (f = f') then 1 else 0.
Proof.
  split.
  - constructor; [done | repeat constructor; done | done | done |].
    change (NoDup [f]). apply NoDup_singleton.
  - intros f'. unfold first_window, refs_of, refs_in, holds_fp. cbn.
    case_decide as Hd; destruct (f =? f') eqn:E; bool_to_prop; lia.
Qed.

Lemma tier_key_Some ip len k : tier_key ip len = Some k -> k ∈ throttle_keys ip /\ len < LOGIN_THROTTLE_CAP.
Proof.
  unfold tier_key. cbv zeta. set (quarter := len * 4 / _). intros Hk.
  assert (k ∈ throttle_keys ip /\ quarter <= 3) as [Hin Hq].
  { destruct (quarter <=? 1) eqn:E1; [|destruct (quarter =? 2) eqn:E2; [|destruct (quarter =? 3) eqn:E3; [|done]]];
      bool_to_prop; simplify_eq; (split; [apply key_at_in; lia | lia]). }
  split; [done|]. subst quarter. unfold LOGIN_THROTTLE_CAP in *. Z.to_euclidean_division_equations. lia.
Qed.

Lemma sweep_sub t now : map (sweep cooldown_ms t now) ⊆ map t.
Proof. unfold sweep. cbv zeta. destruct (_ && _); [apply map_filter_subseteq | done]. Qed.

Lemma admit_untracked_inv s ip guess now r t : inv s -> cooldown_ms ≠ 0 ->
  counted (map (table s)) ip = None ->
  admit_untracked cooldown_ms (table s) ip guess now = (r, t) ->
  inv (MkSystem t (admitted r guess ++ attempts s)).
Proof.
  intros Hi Hc Hnone. unfold admit_untracked. cbv zeta.
  pose proof (inv_sweep s now Hi) as Hs. pose proof (sweep_sub (table s) now) as Hsub.
  set (t' := sweep cooldown_ms (table s) now) in *.
  destruct (tier_key _ _) as [k|] eqn:Ek; [|by intros [= <- <-]].
  apply tier_key_Some in Ek as [Hin Hlt].
  destruct guess as [f|]; intros [= <- <-]; [|done]. cbn [admitted app].
  destruct (first_window_ok f) as [Hw Hr].
  apply (inv_put (MkSystem t' (attempts s)) k (first_window f)); auto using cnt_other.
  intros f'. rewrite Hr, cnt_same. assert (cnt k f' (attempts s) = 0) as ->; [|lia].
  destruct (decide (0 < cnt k f' (attempts s))) as [Hpos|]; [|pose proof (cnt_le k f' (attempts s)); lia].
  apply cnt_pos in Hpos. destruct (inv_slot s Hi Hc k f' Hpos) as [w Hk].
  by rewrite (counted_None _ ip k Hnone Hin) in Hk.
Qed.

Lemma admit_inv s ip guess now r t : inv s -> Z.of_nat (length (attempts s)) < u32_max ->
  admit_at cooldown_ms (table s) ip guess now = (r, t) ->
  inv (MkSystem t (admitted r guess ++ attempts s)).
Proof.
  intros Hi Hmax. unfold admit_at. destruct (cooldown_ms =? 0) eqn:Ec; bool_to_prop.
  - intros [= <- <-]. constructor; cbn [table attempts].
    + apply Hi.
    + apply Hi.
    + intros k w f. by rewrite (inv_off s Hi Ec), lookup_empty.
    + done.
    + apply Hi.
  - destruct (counted _ _) as [k|] eqn:Ek; [|by apply admit_untracked_inv].
    apply counted_Some in Ek as [_ [w Hk]]. rewrite Hk. by apply admit_tracked_inv.
Qed.

(** Releasing a reference; the last one of a failed slot counts. *)
Lemma count_failure_wf w now : wf_window w -> count w + in_flight w < LOGIN_FAIL_LIMIT ->
  wf_window (count_failure cooldown_ms w now).
Proof.
  intros [Hl Hr Hc Hb Hn] Hlt. unfold count_failure, LOGIN_FAIL_LIMIT in *.
  set (n := u32_wrapping_add _ _).
  assert (n = (if decayed cooldown_ms w now then 0 else count w) + 1) as En.
  { apply Z.mod_small. destruct (decayed _ _ _); lia. }
  assert (0 <= in_flight w) by (unfold in_flight; lia).
  destruct (5 <=? n) eqn:E; bool_to_prop; constructor; cbn [pending count]; try done; unfold LOGIN_FAIL_LIMIT.
  - change (in_flight (MkWindow _ _ _ _)) with (in_flight w). lia.
  - destruct (decayed _ _ _); lia.
  - change (in_flight (MkWindow _ _ _ _)) with (in_flight w). destruct (decayed _ _ _); lia.
Qed.

Lemma release_slot w f outcome p ps : wf_window w ->
  List.find (holds_fp f) (pending w) = Some p ->
  update_first (holds_fp f) (drop_ref outcome) (pending w) = Some ps ->
  wf_window (set_pending w ps) /\
  (refs (drop_ref outcome p) <= 0 -> count w + in_flight (set_pending w ps) < LOGIN_FAIL_LIMIT) /\
  forall f', refs_of f' ps = refs_of f' (pending w) - (if decide (f = f') then 1 else 0).
Proof.
  intros Hw Hfind Hu. apply update_first_Some in Hu as (l1 & q & l2 & E & -> & Hq & Hf').
  assert (q = p) as -> by congruence. clear Hf' Hfind.
  assert (0 < refs p /\ fp p = f) as [Hr Hfp].
  { unfold holds_fp, held in Hq. bool_to_prop. done. }
  assert (held p = true) as Hh by (by apply Z.ltb_lt). pose proof (wf_budget w Hw).
  destruct (slot_change w l1 p l2 (drop_ref outcome p) Hw E) as (H1 & H2 & H3).
  - simpl. lia.
  - by left.
  - rewrite Hh. destruct (held (drop_ref outcome p)); lia.
  - split; [done|]. split.
    + intros Hz. rewrite H2, Hh. unfold held. rewrite (proj2 (Z.ltb_ge 0 _)) by done. lia.
    + intros f'. rewrite H3. unfold refs_in, holds_fp, held, drop_ref. cbn [refs fp].
      rewrite (proj2 (Z.ltb_lt 0 (refs p))) by done. rewrite Hfp.
      case_decide as Hd; destruct (f =? f') eqn:Ef; bool_to_prop; destruct (0 <? refs p - 1) eqn:Ez;
        bool_to_prop; simpl; lia.
Qed.

Lemma release_inv s l1 k f l2 outcome now : inv s -> attempts s = l1 ++ (k, f) :: l2 ->
  inv (MkSystem (release_at cooldown_ms (table s) k f outcome now) (l1 ++ l2)).
Proof.
  intros Hi Ha.
  assert (forall k' f', cnt k' f' (l1 ++ l2) = cnt k' f' (attempts s)
    - (if decide ((k, f) = (k', f')) then 1 else 0)) as Hcnt.
  { intros k' f'. rewrite Ha, !cnt_app, cnt_cons. lia. }
  unfold release_at. destruct (decide (cooldown_ms = 0)) as [Hz|Hc].
  { pose proof (inv_off s Hi Hz) as Hm. rewrite Hm, lookup_empty.
    constructor; cbn [table attempts]; rewrite ?Hm; done. }
  assert ((k, f) ∈ attempts s) as Hin by (rewrite Ha; set_solver).
  destruct (inv_slot s Hi Hc k f Hin) as [w Hk]. rewrite Hk.
  assert (0 < refs_of f (pending w)) as Hpos by (rewrite (inv_refs s Hi k w f Hk); by apply cnt_pos).
  pose proof (inv_wf s Hi k w Hk) as Hw.
  destruct (update_first (holds_fp f) (drop_ref outcome) (pending w)) as [ps|] eqn:Eu.
  2: { apply update_first_None in Eu. apply refs_of_pos in Hpos as (p & Hp & Hh).
       rewrite Forall_forall in Eu. specialize (Eu p Hp). simpl in Eu. congruence. }
  pose proof (update_first_Some _ _ _ _ Eu) as (_ & p & _ & _ & _ & _ & Hfind). rewrite Hfind.
  destruct (release_slot w f outcome p ps Hw Hfind Eu) as (Hw2 & Hb2 & Hr2). cbv zeta.
  assert (forall w', wf_window w' -> pending w' = ps ->
    inv (MkSystem (put (table s) k w') (l1 ++ l2))) as Hput.
  { intros w' Hw' Hp'. apply inv_put; eauto.
    - intros f'. rewrite Hp', Hr2, Hcnt, (inv_refs s Hi k w f' Hk). repeat case_decide; naive_solver.
    - intros k' f' Hne. rewrite Hcnt, decide_False by naive_solver. lia. }
  destruct (_ || _) eqn:Er; [by apply Hput|]. bool_to_prop.
  apply Hput; [by apply count_failure_wf; [|apply Hb2]|]. unfold count_failure. cbv zeta. by destruct (_ <=? _).
Qed.

Lemma throttle_step_inv now s s' : inv s -> throttle_step cooldown_ms now s s' -> inv s'.
Proof. intros Hi Hs. destruct Hs; eauto using admit_inv, release_inv. Qed.

Lemma system_init_inv : inv system_init.
Proof. constructor; cbn; try done. intros _ k f H. by apply not_elem_of_nil in H. Qed.

End invariant.

(** C20: the guessing budget. However admissions and releases of requests
    interleave and whatever the clock does, every network's window has five
    slots, its counted failures and its wrong credentials in flight together
    never exceed five, each credential in flight holds exactly one slot whose
    reference count is the number of requests carrying it, no request's slot is
    ever swept away before it is released, and the table never tracks more than
    32768 networks. *)
Theorem throttle_budget cooldown_ms s :
  throttle_steps cooldown_ms system_init s ->
  Z.of_nat (size (map (table s))) <= LOGIN_THROTTLE_CAP /\
  (forall k w, map (table s) !! k = Some w ->
     length (pending w) = 5%nat /\ 0 <= count w < 5 /\ count w + in_flight w <= 5 /\
     NoDup (live_fps w) /\
     forall f, refs_of f (pending w) = cnt k f (attempts s) /\
       (f ∈ live_fps w <-> (k, f) ∈ attempts s)) /\
  (cooldown_ms ≠ 0 -> forall k f, (k, f) ∈ attempts s -> is_Some (map (table s) !! k)) /\
  (cooldown_ms = 0 -> map (table s) = ∅).
Proof.
  intros Hs. assert (inv cooldown_ms s) as Hi.
  { revert Hs. generalize (system_init_inv cooldown_ms). generalize system_init.
    intros s0 Hi Hs. induction Hs as [|s0 s1 s2 [now H1] _ IH]; [done|]. eauto using throttle_step_inv. }
  split; [by apply (inv_size cooldown_ms)|]. split; [|split; apply Hi].
  intros k w Hk. destruct (inv_wf _ s Hi k w Hk) as [Hl Hr Hc Hb Hn].
  split; [done|]. split; [done|]. split; [done|]. split; [done|].
  intros f. pose proof (inv_refs _ s Hi k w f Hk) as Hf. split; [done|].
  by rewrite elem_of_live_fps, <- refs_of_pos, Hf, cnt_pos.
Qed.

(** Two guesses from one address, one of which fails, and a third one. *)
Lemma throttle_budget_witness :
  exists s, throttle_steps 300000 system_init s /\ length (attempts s) = 2%nat /\
    size (map (table s)) = 1%nat /\
    (forall k w, map (table s) !! k = Some w -> count w + in_flight w <= 5).
Proof.
  pose (ip := V4 (v4_new 203 0 113 9)).
  pose (k := key_at ip 0).
  pose (t1 := (admit_at 300000 table_default ip (Some 1) 1000000).2).
  pose (t2 := (admit_at 300000 t1 ip (Some 2) 1000000).2).
  pose (t3 := release_at 300000 t2 k 1 true 1000001).
  pose (t4 := (admit_at 300000 t3 ip (Some 3) 1000002).2).
  assert (throttle_steps 300000 system_init (MkSystem t4 [(k, 3); (k, 2)])) as Hs.
  { eapply rtc_l; [exists 1000000; by apply (step_admit 300000 1000000 system_init ip (Some 1) (Ok k) t1)|].
    eapply rtc_l; [exists 1000000;
      by apply (step_admit 300000 1000000 (MkSystem t1 [(k, 1)]) ip (Some 2) (Ok k) t2)|].
    eapply rtc_l; [exists 1000001;
      by apply (step_release 300000 1000001 (MkSystem t2 [(k, 2); (k, 1)]) [(k, 2)] k 1 [] true)|].
    eapply rtc_l; [exists 1000002;
      by apply (step_admit 300000 1000002 (MkSystem t3 [(k, 2)]) ip (Some 3) (Ok k) t4)|].
    apply rtc_refl. }
  exists (MkSystem t4 [(k, 3); (k, 2)]). split; [exact Hs|]. split; [reflexivity|].
  split; [vm_compute; reflexivity|]. intros k' w Hw.
  destruct (throttle_budget _ _ Hs) as (_ & H & _). destruct (H k' w Hw) as (_ & _ & Hb & _). exact Hb.
Defined.

(** ** Lockouts *)

Lemma mask_nest (m1 m2 a b : Z) :
  Z.land m1 m2 = m2 -> Z.land a m1 = Z.land b m1 -> Z.land a m2 = Z.land b m2.
Proof. intros Hm E. by rewrite <- Hm, !Z.land_assoc, E. Qed.

(** Within one family, addresses that share a network share every coarser one. *)
Lemma family_nested (fam : Z -> IpAddr) (mask : Z -> Z) b1 b2 b3 a a' l1 k l2 k'
    (keys := fun x => (fun bits => (fam (Z.land x (mask bits)), bits)) <$> [b1; b2; b3]) :
  Inj (=) (=) fam -> NoDup [b1; b2; b3] ->
  Z.land (mask b1) (mask b2) = mask b2 -> Z.land (mask b1) (mask b3) = mask b3 ->
  Z.land (mask b2) (mask b3) = mask b3 ->
  keys a = l1 ++ k :: l2 -> k' ∈ l1 -> k' ∈ keys a' -> k ∈ keys a'.
Proof.
  intros Hinj Hnd M12 M13 M23 E Hin Hin'.
  assert (b1 ≠ b2 /\ b2 ≠ b3 /\ b1 ≠ b3) as (N12 & N23 & N13).
  { rewrite !NoDup_cons, !not_elem_of_cons in Hnd. naive_solver. }
  assert (forall x y, Z.land (mask x) (mask y) = mask y ->
    fam (Z.land a (mask x)) = fam (Z.land a' (mask x)) ->
    (fam (Z.land a (mask y)), y) = (fam (Z.land a' (mask y)), y)) as Hn.
  { intros x y Hm Hx. apply Hinj in Hx. by rewrite (mask_nest (mask x) (mask y) a a'). }
  subst keys. cbn in E, Hin' |- *. rewrite !elem_of_cons, elem_of_nil in Hin'. rewrite !elem_of_cons.
  destruct l1 as [|x1 [|x2 [|x3 [|x4 l1]]]]; try (by apply not_elem_of_nil in Hin);
    cbn in E; simplify_eq; rewrite !elem_of_cons, elem_of_nil in Hin.
  - right; left. destruct_or! Hin; destruct_or! Hin'; simplify_eq; try done; apply (Hn b1 b2); congruence.
  - right; right; left. destruct_or! Hin; destruct_or! Hin'; simplify_eq; try done;
      [apply (Hn b1 b3) | apply (Hn b2 b3)]; congruence.
Qed.

Lemma v4_v6_keys v v6 k :
  k ∈ v4_keys v -> k ∉ ((fun bits => (V6 (Z.land v6 (mask128 bits)), bits)) <$> [64; 48; 32]).
Proof.
  unfold v4_keys. rewrite !list_elem_of_fmap. intros (? & -> & _) (? & [=] & _).
Qed.

(** Addresses that share a network share every coarser one. *)
Lemma keys_nested ip ip' l1 k l2 k' :
  throttle_keys ip = l1 ++ k :: l2 -> k' ∈ l1 -> k' ∈ throttle_keys ip' -> k ∈ throttle_keys ip'.
Proof.
  intros E Hin Hin'. assert (k' ∈ throttle_keys ip) as Hk by (rewrite E; set_solver).
  assert (forall v v', v4_keys v = l1 ++ k :: l2 -> k' ∈ v4_keys v' -> k ∈ v4_keys v') as H44.
  { intros v v' E' H'. eapply (family_nested V4 mask32 32 24 16); [intros ?? [=]; done | | | | | exact E' | exact Hin | exact H'];
      [refine (bool_decide_unpack _ _); done | done..]. }
  unfold throttle_keys in *. destruct ip as [v|v6], ip' as [v'|v6']; repeat case_match; eauto.
  all: try (exfalso; eapply v4_v6_keys; by eauto).
  eapply (family_nested V6 mask128 64 48 32); [intros ?? [=]; done | | | | | exact E | exact Hin | exact Hin'];
    [refine (bool_decide_unpack _ _); done | done..].
Qed.

Lemma find_split {A} (sel : A -> bool) l x : List.find sel l = Some x <->
  exists l1 l2, l = l1 ++ x :: l2 /\ sel x = true /\ Forall (fun y => sel y = false) l1.
Proof.
  split.
  - induction l as [|y l IH]; cbn [List.find]; [done|]. destruct (sel y) eqn:E.
    + intros [= <-]. by exists [], l.
    + intros H. destruct (IH H) as (l1 & l2 & -> & Hx & Hl). exists (y :: l1), l2. by rewrite Forall_cons.
  - intros (l1 & l2 & -> & Hx & Hl). induction Hl as [|y l1 Hy _ IH]; cbn [app List.find]; [by rewrite Hx|].
    by rewrite Hy.
Qed.

Section lockout.
Variable cooldown_ms : Z.

(** The address is counted under [k], which is locked until [b] at least. *)
Definition locked (t : ThrottleTable) (ip : IpAddr) (k : ThrottleKey) (b : Z) : Prop :=
  counted (map t) ip = Some k /\ exists w, map t !! k = Some w /\ b <= blocked_until_ms w.

(** A table that keeps the locked window and tracks no finer network of the
    address keeps the lock. *)
Lemma locked_keep t t' ip k b : locked t ip k b ->
  (exists w, map t' !! k = Some w /\ b <= blocked_until_ms w) ->
  (forall k', is_Some (map t' !! k') -> is_Some (map t !! k') \/ k' = k \/
     exists ip', k' ∈ throttle_keys ip' /\ counted (map t) ip' = None) ->
  locked t' ip k b.
Proof.
  intros [Hc _] Hw Hnew. split; [|done]. unfold counted in *.
  apply find_split in Hc as (l1 & l2 & E & Hk & Hl). apply find_split. exists l1, l2. split; [done|].
  split.
  - apply bool_decide_eq_true. destruct Hw as (w & -> & _). done.
  - apply Forall_forall. intros k' Hin. rewrite Forall_forall in Hl. specialize (Hl k' Hin).
    apply bool_decide_eq_false in Hl. apply bool_decide_eq_false. intros Hs.
    destruct (Hnew k' Hs) as [?|[->|(ip' & Hin' & Hnone)]]; [done | |].
    + apply bool_decide_eq_true in Hk. done.
    + apply bool_decide_eq_true in Hk as [w Hk].
      by rewrite (counted_None _ ip' k Hnone (keys_nested ip ip' l1 k l2 k' E Hin Hin')) in Hk.
Qed.

Lemma sweep_keeps t now k w : map t !! k = Some w -> now < blocked_until_ms w ->
  map (sweep cooldown_ms t now) !! k = Some w.
Proof.
  intros Hk Hb. unfold sweep. cbv zeta. destruct (_ && _); [|done].
  apply map_lookup_filter_Some. split; [done|]. cbn [snd]. unfold live.
  by rewrite (proj2 (Z.ltb_lt _ _) Hb).
Qed.

(** A locked window is not touched by an admission, whoever asks. *)
Lemma admit_keeps t ip' guess now k w : map t !! k = Some w -> now < blocked_until_ms w ->
  map (admit_at cooldown_ms t ip' guess now).2 !! k = Some w /\
  forall k', is_Some (map (admit_at cooldown_ms t ip' guess now).2 !! k') ->
    is_Some (map t !! k') \/ k' ∈ throttle_keys ip' /\ counted (map t) ip' = None.
Proof.
  intros Hk Hb. unfold admit_at. destruct (cooldown_ms =? 0); [by eauto|].
  destruct (counted (map t) ip') as [kc|] eqn:Ec.
  - apply counted_Some in Ec as [_ [wc Hkc]]. rewrite Hkc.
    destruct (decide (kc = k)) as [->|Hne].
    + unfold admit_tracked. assert (wc = w) as -> by congruence.
      rewrite (proj2 (Z.ltb_lt _ _) Hb). by eauto.
    + assert (map (admit_tracked cooldown_ms t kc wc guess now).2 !! k = Some w /\
        forall k', is_Some (map (admit_tracked cooldown_ms t kc wc guess now).2 !! k') -> is_Some (map t !! k'))
        as [H1 H2]; [|by eauto].
      assert (forall w', (<[kc := w']> (map t)) !! k = Some w /\
        forall k', is_Some ((<[kc := w']> (map t)) !! k') -> is_Some (map t !! k')) as Hput.
      { intros w'. rewrite lookup_insert_ne by done. split; [done|]. intros k' H.
        destruct (decide (kc = k')) as [<-|]; [done|]. by rewrite lookup_insert_ne in H. }
      unfold admit_tracked. cbv zeta. repeat case_goal; cbn [snd put map]; try done.
      rewrite lookup_delete_ne by done. split; [done|]. intros k' H.
      destruct (decide (kc = k')) as [<-|]; [done|]. by rewrite lookup_delete_ne in H.
  - unfold admit_untracked. cbv zeta. pose proof (sweep_keeps t now k w Hk Hb) as Hs.
    pose proof (sweep_sub cooldown_ms t now) as Hsub.
    assert (forall k', is_Some (map (sweep cooldown_ms t now) !! k') -> is_Some (map t !! k')) as Hin.
    { intros k' [w' H]. exists w'. by eapply lookup_weaken. }
    assert (forall kn w', kn ∈ throttle_keys ip' -> (<[kn := w']> (map (sweep cooldown_ms t now))) !! k = Some w /\
      forall k', is_Some ((<[kn := w']> (map (sweep cooldown_ms t now))) !! k') ->
        is_Some (map t !! k') \/ k' ∈ throttle_keys ip' /\ (@None ThrottleKey) = None) as Hput.
    { intros kn w' Hkn. split.
      - rewrite lookup_insert_ne; [done|]. intros ->. by rewrite (counted_None _ ip' k Ec Hkn) in Hk.
      - intros k' H. destruct (decide (kn = k')) as [<-|]; [by right|]. rewrite lookup_insert_ne in H by done. eauto. }
    destruct (tier_key _ _) as [kn|] eqn:Et; [|cbn [snd]; by eauto].
    apply tier_key_Some in Et as [Hkn _]. destruct guess; cbn [snd put map]; [by apply Hput | by eauto].
Qed.

Lemma release_keeps t kr f outcome now k w b : map t !! k = Some w -> b <= blocked_until_ms w ->
  b <= u64_saturating_add now cooldown_ms ->
  (exists w', map (release_at cooldown_ms t kr f outcome now) !! k = Some w' /\ b <= blocked_until_ms w') /\
  forall k', is_Some (map (release_at cooldown_ms t kr f outcome now) !! k') -> is_Some (map t !! k').
Proof.
  intros Hk Hb Hnow. unfold release_at. destruct (map t !! kr) as [wr|] eqn:Er; [|by eauto].
  assert (forall w', (kr = k -> b <= blocked_until_ms w') ->
    (exists w'', (<[kr := w']> (map t)) !! k = Some w'' /\ b <= blocked_until_ms w'') /\
    forall k', is_Some ((<[kr := w']> (map t)) !! k') -> is_Some (map t !! k')) as Hput.
  { intros w' Hw'. split.
    - destruct (decide (kr = k)) as [->|Hne]; [rewrite lookup_insert_eq; eauto|].
      rewrite lookup_insert_ne by done. eauto.
    - intros k' H. destruct (decide (kr = k')) as [<-|]; [by rewrite Er|]. by rewrite lookup_insert_ne in H. }
  destruct (List.find _ _) as [p|]; [|by eauto]. destruct (update_first _ _ _) as [ps|]; [|by eauto].
  cbv zeta. assert (kr = k -> b <= blocked_until_ms wr) as Hwr by (intros ->; naive_solver).
  destruct (_ || _); cbn [put map]; apply Hput; intros E; specialize (Hwr E); [done|].
  unfold count_failure. cbv zeta. by destruct (_ <=? _).
Qed.

Lemma locked_step now s s' ip k b : now < b -> b <= u64_saturating_add now cooldown_ms ->
  locked (table s) ip k b -> throttle_step cooldown_ms now s s' -> locked (table s') ip k b.
Proof.
  intros Hnow Hb Hl Hs. pose proof Hl as [_ (w & Hk & Hw)].
  destruct Hs as [s ip' guess r t _ Ha|s l1 kr f l2 outcome _]; cbn [table].
  - destruct (admit_keeps (table s) ip' guess now k w Hk ltac:(lia)) as [H1 H2]. rewrite Ha in H1, H2.
    apply (locked_keep (table s)); [done | by exists w|]. intros k' H. destruct (H2 k' H) as [?|?]; [by left|].
    right; right. by exists ip'.
  - destruct (release_keeps (table s) kr f outcome now k w b Hk Hw Hb) as [H1 H2].
    apply (locked_keep (table s)); [done | done|]. eauto.
Qed.

(** Steps taken at times from [t0] up to, not including, [b]. *)
Definition steps_within (t0 b : Z) : system -> system -> Prop :=
  rtc (fun s s' => exists now, t0 <= now < b /\ throttle_step cooldown_ms now s s').

Lemma locked_steps t0 b s s' ip k : b <= u64_saturating_add t0 cooldown_ms ->
  locked (table s) ip k b -> steps_within t0 b s s' -> locked (table s') ip k b.
Proof.
  intros Hb Hl Hs. induction Hs as [|s0 s1 s2 (now & Hnow & H1) _ IH]; [done|].
  apply IH. apply (locked_step now s0); [lia | | done | done].
  unfold u64_saturating_add in *. lia.
Qed.

Lemma locked_refuses t ip k b now guess : cooldown_ms ≠ 0 -> locked t ip k b -> now < b ->
  exists secs, admit_at cooldown_ms t ip guess now = (Err secs, t) /\ 1 <= secs /\ b - now <= 1000 * secs.
Proof.
  intros Hc (Hcnt & w & Hk & Hw) Hnow. unfold admit_at. rewrite (proj2 (Z.eqb_neq _ _) Hc), Hcnt, Hk.
  unfold admit_tracked. rewrite (proj2 (Z.ltb_lt _ _)) by lia. eexists. split; [done|].
  unfold u64_div_ceil. Z.to_euclidean_division_equations. lia.
Qed.

End lockout.

(** A lockout holds. Once the network an address is counted under is locked,
    then until the lock runs out, whatever other requests are admitted or
    released meanwhile and however crowded the table becomes, every
    credential-bearing request from that address is refused without looking at
    the credential, leaves the table as it was, and is told to wait at least one
    second and no less than what is left of the lock. *)
Theorem lockout_holds cooldown_ms t0 b s s' ip k w now guess :
  cooldown_ms ≠ 0 ->
  counted (map (table s)) ip = Some k -> map (table s) !! k = Some w ->
  b <= blocked_until_ms w -> b <= u64_saturating_add t0 cooldown_ms ->
  steps_within cooldown_ms t0 b s s' -> t0 <= now < b ->
  exists secs, admit_at cooldown_ms (table s') ip guess now = (Err secs, table s') /\
    1 <= secs /\ b - now <= 1000 * secs.
Proof.
  intros Hc Hcnt Hk Hb Hcap Hs Hnow. apply (locked_refuses cooldown_ms _ ip k); [done | | lia].
  apply (locked_steps cooldown_ms t0 b s); [done | | done]. split; [done|]. by exists w.
Qed.

(** A refusal is no oracle. A request whose credential is right and one whose
    credential is wrong get the same answer from the same table, the same refusal
    or the same network to be counted under, as long as the wrong one is not a
    guess already in flight from there. (One that is in flight joins its slot:
    it is refused only by a lock.) *)
Theorem refusal_blind cooldown_ms t ip f now :
  (forall k w, counted (map t) ip = Some k -> map t !! k = Some w -> f ∉ live_fps w) ->
  (admit_at cooldown_ms t ip (Some f) now).1 = (admit_at cooldown_ms t ip None now).1.
Proof.
  intros Hf. unfold admit_at. destruct (cooldown_ms =? 0); [done|].
  destruct (counted (map t) ip) as [k|] eqn:Ec.
  - destruct (map t !! k) as [w|] eqn:Ek; [|done]. specialize (Hf k w eq_refl Ek).
    unfold admit_tracked. destruct (_ <? _); [done|]. cbv zeta.
    set (w1 := if decayed _ _ _ then _ else _). cbn [mbind option_bind].
    assert (f ∉ live_fps w1) as Hf1 by (subst w1; by destruct (decayed _ _ _)).
    apply join_slot_None in Hf1. rewrite Hf1. destruct (_ <=? _); [done|]. by destruct (_ && _).
  - unfold admit_untracked. cbv zeta. by destruct (tier_key _ _).
Qed.

(** Five failures lock the address; the witnesses start from there. *)
Definition example_ip : IpAddr := V4 (v4_new 203 0 113 9).
Definition example_key : ThrottleKey := key_at example_ip 0.
Definition fail_once (f : Z) (t : ThrottleTable) : ThrottleTable :=
  release_at 300000 (admit_at 300000 t example_ip (Some f) 1000000).2 example_key f true 1000000.
Definition locked_table : ThrottleTable :=
  fail_once 5 (fail_once 4 (fail_once 3 (fail_once 2 (fail_once 1 table_default)))).

Definition locked_system : system := MkSystem locked_table [].
Definition locked_window : FailWindow :=
  MkWindow 0 1000000 1300000 (MkPending 5 0 true :: replicate 4 (MkPending 0 0 false)).

Lemma lockout_holds_witness :
  map (table locked_system) !! example_key = Some locked_window /\
  exists secs, admit_at 300000 (table locked_system) example_ip None 1299500 = (Err secs, table locked_system) /\
    1 <= secs /\ 1300000 - 1299500 <= 1000 * secs.
Proof.
  assert (map (table locked_system) !! example_key = Some locked_window) as Hw by (vm_compute; reflexivity).
  split; [exact Hw|].
  apply (lockout_holds 300000 1000000 1300000 locked_system locked_system example_ip example_key
    locked_window 1299500 None).
  - discriminate.
  - vm_compute; reflexivity.
  - exact Hw.
  - apply Z.le_refl.
  - vm_compute. discriminate.
  - apply rtc_refl.
  - split; [discriminate | reflexivity].
Defined.

Lemma refusal_blind_witness :
  (admit_at 300000 locked_table example_ip (Some 9) 1000000).1
  = (admit_at 300000 locked_table example_ip None 1000000).1 /\
  (admit_at 300000 locked_table example_ip None 1000000).1 = Err 300.
Proof.
  split; [|vm_compute; reflexivity]. apply refusal_blind. intros k w Hc Hk.
  assert (counted (map locked_table) example_ip = Some example_key) as E by (vm_compute; reflexivity).
  rewrite E in Hc. injection Hc as <-.
  assert (map locked_table !! example_key =
    Some (MkWindow 0 1000000 1300000 (MkPending 5 0 true :: replicate 4 (MkPending 0 0 false)))) as E2
    by (vm_compute; reflexivity).
  rewrite E2 in Hk. injection Hk as <-. apply not_elem_of_nil.
Defined.

End Throttle.
