(* ===== verification/Chain.v ===== *)
(** * The transparency chain (src/transparency.rs, src/worker.rs)

    The audit commits the digests of every changed package into a chain of
    links, each naming the digest of the link before it. The leader reconciles
    the chain across the fleet, appends by one create-if-absent write, and
    [verify-chain] replays it against the buckets.

    Buckets are named by their position in the configured list. A [BTreeSet] of
    sequence numbers is a [gset] walked in ascending order, a [BTreeMap] a
    [gmap] walked in key order. *)
From stdpp Require Import functions.
From S2P Require Import Prelude RustStr Documents Hash Storage Fanout Range.
Import Sidecar Storage Hash Fanout.

Module Chain.

Definition CHAIN_PREFIX : str := &"_transparency/chain/".
Definition SEQ_WIDTH : nat := 16.
Definition DIFF_CONCURRENCY : nat := 64.
Definition JSON_SUFFIX : str := &".json".

(** One package's committed digests by filename, and the packages of a link. *)
Abbreviation FileShas := (gmap str str).
Abbreviation Delta := (gmap str FileShas).

Definition chain_key (seq : Z) : str := CHAIN_PREFIX ++ decimal_padded SEQ_WIDTH seq ++ JSON_SUFFIX.

Definition seq_from_key (key : str) : option Z :=
  let! rest := strip_prefix CHAIN_PREFIX key in
  let! digits := strip_suffix JSON_SUFFIX rest in
  parse_u64 digits.

Record ChainLink := MkLink {
  seq : Z;
  prev_sha256 : str;
  created : str;
  packages : Delta
}.

(** A link of a bucket: its number in the key, its bytes, and what they say. *)
Abbreviation Loaded := (Z * str * ChainLink)%type.
Abbreviation at_seq := (fun l : Loaded => l.1.1).
Abbreviation bytes_of := (fun l : Loaded => l.1.2).
Abbreviation link_of := (fun l : Loaded => l.2).

(** The ascending walk of a set of numbers. *)
Definition ascending (X : gset Z) : list Z := merge_sort Z.le (elements X).

(** [Iterator::max]. *)
Definition maximum (l : list Z) : option Z :=
  foldr (fun x m => Some (match m with Some y => Z.max x y | None => x end)) None l.

Inductive CatchUp := Synced | Forked.
Inductive Copied := Landed | Diverged.
#[global] Instance Copied_eq_dec : EqDecision Copied.
Proof. solve_decision. Defined.

Definition listed_seqs (entries : list ObjectMeta) : list Z := omap (fun o => seq_from_key (meta_key o)) entries.

Section chain.
Context {D : Digest} {JL : Codec ChainLink} {JS : Codec Sidecar}.
(** The configured names of the buckets. *)
Variable bucket_name : nat -> str.

Definition link_bytes (link : ChainLink) : str := encode link.

Definition read_head (b : nat) : prog (res (option (Z * str))) :=
  let*? entries := call b (ListAll CHAIN_PREFIX) in
  match maximum (listed_seqs entries) with
  | None => Ret (Ok None)
  | Some max => let*? bytes := call b (GetBytes (chain_key max)) in Ret (Ok (Some (max, bytes)))
  end.

Definition chain_seqs (b : nat) : prog (res (gset Z)) :=
  let*? entries := call b (ListAll CHAIN_PREFIX) in Ret (Ok (list_to_set (listed_seqs entries))).

Definition copy_link (dst : nat) (seq : Z) (bytes : str) : prog (res Copied) :=
  let*? put := call dst (PutIfNoneMatch (chain_key seq) bytes) in
  match put with
  | Some _ => Ret (Ok Landed)
  | None => let*? held := call dst (GetBytes (chain_key seq)) in
            Ret (Ok (if decide (held = bytes) then Landed else Diverged))
  end.

(** ** Catching up *)

(** The lowest and the highest number both hold. *)
Definition probes (ours theirs : gset Z) : list Z :=
  let shared := ascending (ours ∩ theirs) in
  ascending (list_to_set (option_list (head shared) ++ option_list (last shared))).

Fixpoint contradiction_among (jobs : nat -> nat -> bool) (primary replica : nat) (seqs : list Z) : prog (res (option Z)) :=
  match seqs with
  | [] => Ret (Ok None)
  | seq :: rest =>
    let*? both_bytes := try_join (jobs O) (call primary (GetBytes (chain_key seq))) (call replica (GetBytes (chain_key seq))) in
    if decide (both_bytes.1 = both_bytes.2) then contradiction_among (fun i => jobs (S i)) primary replica rest
    else Ret (Ok (Some seq))
  end.

Definition first_contradiction (jobs : nat -> nat -> bool) (primary replica : nat) (ours theirs : gset Z) : prog (res (option Z)) :=
  contradiction_among jobs primary replica (probes ours theirs).

(** The links only the replica has, oldest first; what was pulled counts even
    when a later one fails. *)
Fixpoint pull_links (primary replica : nat) (seqs : list Z) (ours : gset Z) : prog (gset Z * res unit) :=
  match seqs with
  | [] => Ret (ours, Ok tt)
  | seq :: rest =>
    let* got := call replica (GetBytes (chain_key seq)) in
    match got with
    | Err e => Ret (ours, Err e)
    | Ok bytes =>
      let* copied := copy_link primary seq bytes in
      match copied with
      | Err e => Ret (ours, Err e)
      | Ok Diverged =>
        Ret (ours, Err (Bail (&"chain link " ++ decimal seq ++ &" from bucket " ++ bucket_name replica
          ++ &" contradicts the link bucket " ++ bucket_name primary ++ &" already holds at that seq")))
      | Ok Landed => pull_links primary replica rest ({[seq]} ∪ ours)
      end
    end
  end.

(** The links only the primary has; the first failure leaves the rest for the
    next audit. *)
Fixpoint push_links (primary replica : nat) (seqs : list Z) : prog CatchUp :=
  match seqs with
  | [] => Ret Synced
  | seq :: rest =>
    let* got := call primary (GetBytes (chain_key seq)) in
    match got with
    | Err _ => Ret Synced
    | Ok bytes =>
      let* copied := copy_link replica seq bytes in
      match copied with
      | Ok Landed => push_links primary replica rest
      | Ok Diverged => Ret Forked
      | Err _ => Ret Synced
      end
    end
  end.

(** [ours] gains what is pulled, also when the pull stops early. *)
Definition catch_up_replica (jobs : nat -> nat -> bool) (primary replica : nat) (ours theirs : gset Z)
    : prog (gset Z * res CatchUp) :=
  let* c := first_contradiction jobs primary replica ours theirs in
  match c with
  | Err e => Ret (ours, Err e)
  | Ok (Some _) => Ret (ours, Ok Forked)
  | Ok None =>
    let pull := ascending (theirs ∖ ours) in
    let push := ascending (ours ∖ theirs) in
    let* pulled := pull_links primary replica pull ours in
    match pulled.2 with
    | Err e => Ret (pulled.1, Err e)
    | Ok _ => let* pushed := push_links primary replica push in Ret (pulled.1, Ok pushed)
    end
  end.

(** What the pass knows between two peers: the pin's numbers, the positions in
    sync, and whether the append must wait. *)
Record Pass := MkPass { ours : gset Z; in_sync : list nat; defer : bool }.

Definition catch_up_peer (jobs : nat -> nat -> bool) (pin position peer : nat) (p : Pass) : prog Pass :=
  let* listed := chain_seqs peer in
  match listed with
  | Err _ => Ret (MkPass (ours p) (in_sync p) true)
  | Ok theirs =>
    let* r := catch_up_replica jobs pin peer (ours p) theirs in
    Ret (match r.2 with
         | Ok Synced => MkPass r.1 (in_sync p ++ [position]) (defer p)
         | Ok Forked => MkPass r.1 (in_sync p) (defer p)
         | Err _ => MkPass r.1 (in_sync p) true
         end)
  end.

Fixpoint catch_up_peers (jobs : nat -> nat -> nat -> bool) (pin primary position : nat) (peers : list nat) (p : Pass) : prog Pass :=
  match peers with
  | [] => Ret p
  | peer :: rest =>
    let* p := (if decide (position = primary) then Ret p else catch_up_peer (jobs position) pin position peer p) in
    catch_up_peers jobs pin primary (S position) rest p
  end.

(** The positions a link may be created on; none means append nothing. *)
Definition catch_up_fleet (jobs : nat -> nat -> nat -> bool) (buckets : list nat) (primary : nat) : prog (list nat) :=
  match buckets !! primary with
  | None => Ret []
  | Some pin =>
    let* listed := chain_seqs pin in
    match listed with
    | Err _ => Ret []
    | Ok seqs =>
      let* p := catch_up_peers jobs pin primary 0 buckets (MkPass seqs [primary] false) in
      Ret (if defer p then [] else merge_sort le (in_sync p))
    end
  end.

(** ** Appending *)

(** The head as the link after it names it. *)
Definition head_digest (head : Z * str) : Z * str := (head.1, sha256_hex head.2).

(** [AppState::singleton_replicas], the fence read and the buckets eligible. *)
Definition singleton_replicas (handles : nat) (eligible : nat -> bool) (primary_index : nat) : prog (list nat) :=
  let* fenced := call primary_index MutationsFenced in
  Ret (if (handles <=? 1)%nat || fenced then []
       else filter (fun i => eligible i = true) (filter (fun i => i ≠ primary_index) (List.seq 0 handles))).

(** The pin and its eligible peers in configured order, and the pin's place. *)
Definition chain_fleet (handles pinned : nat) (peers : list nat) : list nat * nat :=
  foldl (fun acc index =>
           if decide (index = pinned) then (acc.1 ++ [index], length acc.1)
           else if decide (index ∈ peers) then (acc.1 ++ [index], acc.2)
           else acc)
    ([], O) (List.seq 0 handles).

(** May a bucket whose head is [head] take the link [seq]? *)
Definition chains_on (head : option (Z * str)) (seq : Z) (prev : str) : bool :=
  match head with
  | Some (head_seq, head_bytes) =>
    (head_seq <? seq) && (bool_decide (u64_wrapping_add head_seq 1 ≠ seq) || bool_decide (sha256_hex head_bytes = prev))
  | None => true
  end.

Fixpoint mirror_link (fleet : list nat) (decider : nat) (seq : Z) (bytes : str) (positions : list nat) : prog unit :=
  match positions with
  | [] => Ret tt
  | position :: rest =>
    let* _ := (if decide (position = decider) then Ret (Ok Landed)
               else match fleet !! position with
                    | None => Ret (Ok Landed)
                    | Some bucket => copy_link bucket seq bytes
                    end) in
    mirror_link fleet decider seq bytes rest
  end.

(** [generation_current] is the node's generation check, [rfc3339] the clock's
    format, which may refuse a time. *)
Definition append_chain_link (rfc3339 : Z -> option str) (generation_current : bool) (fleet : list nat) (primary : nat)
    (synced : list nat) (walk_head : option (Z * str)) (delta : Delta) : prog bool :=
  match fleet !! primary, head synced with
  | Some pin, Some decider =>
    match fleet !! decider with
    | None => Ret false
    | Some arbiter =>
      if negb generation_current then Ret false else
      let* read := read_head pin in
      match read with
      | Err _ => Ret false
      | Ok read =>
        let head := head_digest <$> read in
        if decide (head = walk_head) then
          let next := match head with Some (head_seq, sha) => (u64_wrapping_add head_seq 1, sha) | None => (0, []) end in
          let* ready := (if decide (decider = primary) then Ret true
                         else let* read := read_head arbiter in
                              Ret (match read with Ok head => chains_on head next.1 next.2 | Err _ => false end)) in
          if negb ready then Ret false else
          let* now := call pin Now in
          match rfc3339 now with
          | None => Ret false
          | Some created =>
            let bytes := link_bytes (MkLink next.1 next.2 created delta) in
            let* put := call arbiter (PutIfNoneMatch (chain_key next.1) bytes) in
            match put with
            | Ok (Some _) => let* _ := mirror_link fleet decider next.1 bytes synced in Ret true
            | Ok None => Ret false
            | Err _ => Ret false
            end
          end
        else Ret false
      end
    end
  | _, _ => Ret false
  end.

Definition write_chain_link (rfc3339 : Z -> option str) (generation_current : bool) (jobs : nat -> nat -> nat -> bool)
    (handles : nat) (eligible : nat -> bool) (pinned : nat) (walk_head : option (Z * str)) (delta : Delta) : prog bool :=
  if (handles <=? pinned)%nat then Ret false else
  let* peers := singleton_replicas handles eligible pinned in
  let fleet := chain_fleet handles pinned peers in
  let* synced := catch_up_fleet jobs fleet.1 fleet.2 in
  if decide (delta = ∅) then Ret true else
  match synced with
  | [] => Ret false
  | _ => append_chain_link rfc3339 generation_current fleet.1 fleet.2 synced walk_head delta
  end.

(** The fence of an audit: the head its walk begins from. *)
Definition read_walk_head (transparency : bool) (b : nat) : prog (option (option (Z * str))) :=
  if transparency
  then let* read := read_head b in
       Ret (match read with Ok head => Some (head_digest <$> head) | Err _ => None end)
  else Ret None.

(** The audit's checkpoint at its end. *)
Definition checkpoint (rfc3339 : Z -> option str) (generation_current : bool) (jobs : nat -> nat -> nat -> bool)
    (handles : nat) (eligible : nat -> bool) (pinned : nat) (walk_head : option (option (Z * str))) (delta : Delta) : prog bool :=
  match walk_head with
  | Some head =>
    let delta := match head with Some _ => delta | None => filter (fun p => p.2 ≠ ∅) delta end in
    write_chain_link rfc3339 generation_current jobs handles eligible pinned head delta
  | None => Ret false
  end.

End chain.

(** ** Keys and numbers *)

Lemma digits_val_zeros n s : digits_val (replicate n "0"%char ++ s) = digits_val s.
Proof. induction n as [|n IH]; [done|]. exact IH. Qed.

Lemma parse_padded width n : u64 n -> parse_u64 (decimal_padded width n) = Some n.
Proof.
  intros Hn. destruct (Range.decimal_spec n Hn) as (Hne & Hd & Hv). unfold parse_u64, decimal_padded.
  set (zeros := replicate _ _). assert (Forall is_ascii_digit (zeros ++ decimal n)) as Hall.
  { apply Forall_app. split; [by apply Forall_replicate|done]. }
  assert (zeros ++ decimal n ≠ []) as Hne' by (intros [_ ?]%app_eq_nil; done).
  assert (digits_val (zeros ++ decimal n) = n) as Hv' by (unfold zeros; by rewrite digits_val_zeros).
  destruct (zeros ++ decimal n) as [|c r]; [done|]. destruct (decide (c = "+"%char)) as [->|_]; [by inversion Hall|].
  rewrite bool_decide_true by done. apply forallb_Forall in Hall. rewrite Hall, Hv'.
  assert ((n <=? u64_max) = true) as -> by (apply Z.leb_le, Hn). done.
Qed.

Lemma seq_from_chain_key n : u64 n -> seq_from_key (chain_key n) = Some n.
Proof.
  intros Hn. unfold seq_from_key, chain_key. rewrite strip_prefix_app. cbn [mbind option_bind].
  rewrite strip_suffix_app. cbn [mbind option_bind]. by apply parse_padded.
Qed.

Lemma parse_u64_range s n : parse_u64 s = Some n -> u64 n.
Proof.
  intros Hp. split; [by eapply Range.parse_u64_bound|]. revert Hp. unfold parse_u64.
  destruct (_ && _) eqn:Hc; [|done]. intros [= <-]. by bool_to_prop.
Qed.

Lemma seq_from_key_range key n : seq_from_key key = Some n -> u64 n.
Proof.
  unfold seq_from_key. destruct (strip_prefix _ _) as [rest|]; [|done]. cbn [mbind option_bind].
  destruct (strip_suffix _ _) as [digits|]; [|done]. cbn [mbind option_bind]. apply parse_u64_range.
Qed.

Lemma elem_of_ascending n X : n ∈ ascending X <-> n ∈ X.
Proof. unfold ascending. by rewrite merge_sort_Permutation, elem_of_elements. Qed.

Lemma maximum_spec l :
  match maximum l with Some m => m ∈ l /\ forall n, n ∈ l -> n <= m | None => l = [] end.
Proof.
  induction l as [|x l IH]; [done|]. cbn [maximum foldr]. fold (maximum l). destruct (maximum l) as [m|].
  - destruct IH as [Hin Hle]. split.
    + destruct (Z.max_spec x m) as [[_ ->]|[_ ->]]; [by right|by left].
    + intros n [->|Hn]%elem_of_cons; [lia|]. specialize (Hle n Hn). lia.
  - subst l. split; [by left|]. by intros n ->%list_elem_of_singleton.
Qed.

(** ** Links are immutable *)

(** A chain key is created once and never changes again. *)
Definition created_once (old new : option str) : Prop := old = None /\ is_Some new.
Abbreviation chain_object := (fun name : str => CHAIN_PREFIX ++ name).

Section appending.
Context {D : Digest} {JL : Codec ChainLink} {JS : Codec Sidecar} {E : Etags}.
Variable bucket_name : nat -> str.

Definition append_only : nat -> forall R, op R -> Prop := follows chain_object created_once.

(** The bytes under a key, once there, stay. *)
Definition kept (key : str) (s s' : store) : Prop := forall bytes, contents s key = Some bytes -> contents s' key = Some bytes.

Lemma chain_moves_keep name b s s' : rtc (keys_move chain_object created_once b) s s' -> kept (chain_object name) s s'.
Proof.
  induction 1 as [s|s s1 s' Hm _ IH]; intros bytes Hs; [done|]. apply IH.
  destruct (Hm name) as [->|[Hn _]]; [done|]. congruence.
Qed.

Create HintDb chain.
#[local] Hint Extern 1 (append_only _ _ _) => (intros ?; exact I) : chain.
Lemma append_only_create b key bytes : append_only b _ (PutIfNoneMatch key bytes).
Proof. intros i _. by split. Qed.
#[local] Hint Resolve append_only_create : chain.

Ltac chain_op := auto with chain.

Lemma guar_copy_link dst n bytes : guar append_only (fun _ => True) (copy_link dst n bytes).
Proof.
  apply guar_call_ok; [chain_op| |done]. intros [e|] _; [done|]. by apply guar_call_ok; [chain_op| |].
Qed.

Lemma guar_read_head b : guar append_only (fun _ => True) (read_head b).
Proof.
  apply guar_call_ok; [chain_op| |done]. intros entries _. destruct (maximum _); [|done].
  by apply guar_call_ok; [chain_op| |].
Qed.

Lemma guar_chain_seqs b : guar append_only (fun _ => True) (chain_seqs b).
Proof. by apply guar_call_ok; [chain_op| |]. Qed.

Lemma guar_contradiction jobs pin peer seqs : guar append_only (fun _ => True) (contradiction_among jobs pin peer seqs).
Proof.
  revert jobs. induction seqs as [|n seqs IH]; intros jobs; [done|]. cbn [contradiction_among].
  eapply (guar_bind_ok _ _ _ (fun _ => True)); [|intros x _; case_decide; [apply IH|done]|done].
  eapply (guar_bind _ _ _ (fun _ => True)); [|done]. unfold call. cbn [both].
  destruct (jobs O O); (split; [chain_op|]); intros r _; (split; [chain_op|]); by intros.
Qed.

Lemma guar_pull pin peer seqs mine : guar append_only (fun _ => True) (pull_links bucket_name pin peer seqs mine).
Proof.
  revert mine. induction seqs as [|n seqs IH]; intros mine; [done|]. cbn [pull_links].
  apply guar_call_bind; [chain_op|]. intros [bytes|e] _; [|done].
  eapply (guar_bind _ _ _ (fun _ => True)); [apply guar_copy_link|]. intros [[]|e] _; [apply IH|done|done].
Qed.

Lemma guar_push pin peer seqs : guar append_only (fun _ => True) (push_links pin peer seqs).
Proof.
  induction seqs as [|n seqs IH]; [done|]. cbn [push_links].
  apply guar_call_bind; [chain_op|]. intros [bytes|e] _; [|done].
  eapply (guar_bind _ _ _ (fun _ => True)); [apply guar_copy_link|]. intros [[]|e] _; [apply IH|done|done].
Qed.

Lemma guar_catch_up_replica jobs pin peer mine theirs :
  guar append_only (fun _ => True) (catch_up_replica bucket_name jobs pin peer mine theirs).
Proof.
  eapply (guar_bind _ _ _ (fun _ => True)); [apply guar_contradiction|]. intros [[n|]|e] _; [done| |done].
  eapply (guar_bind _ _ _ (fun _ => True)); [apply guar_pull|]. intros [mine' [u|e]] _; [|done].
  by eapply (guar_bind _ _ _ (fun _ => True)); [apply guar_push|].
Qed.

Lemma guar_catch_up_peers jobs pin primary position peers p :
  guar append_only (fun _ => True) (catch_up_peers bucket_name jobs pin primary position peers p).
Proof.
  revert position p. induction peers as [|peer peers IH]; intros position p; [done|]. cbn [catch_up_peers].
  eapply (guar_bind _ _ _ (fun _ => True)); [|intros; apply IH]. case_decide; [done|].
  eapply (guar_bind _ _ _ (fun _ => True)); [apply guar_chain_seqs|]. intros [theirs|e] _; [|done].
  by eapply (guar_bind _ _ _ (fun _ => True)); [apply guar_catch_up_replica|].
Qed.

Lemma guar_catch_up_fleet jobs buckets primary :
  guar append_only (fun _ => True) (catch_up_fleet bucket_name jobs buckets primary).
Proof.
  unfold catch_up_fleet. destruct (buckets !! primary) as [pin|]; [|done].
  eapply (guar_bind _ _ _ (fun _ => True)); [apply guar_chain_seqs|]. intros [mine|e] _; [|done].
  by eapply (guar_bind _ _ _ (fun _ => True)); [apply guar_catch_up_peers|].
Qed.

Lemma guar_mirror fleet decider n bytes positions :
  guar append_only (fun _ => True) (mirror_link fleet decider n bytes positions).
Proof.
  induction positions as [|i positions IH]; [done|]. cbn [mirror_link].
  eapply (guar_bind _ _ _ (fun _ => True)); [|intros; apply IH].
  case_decide; [done|]. destruct (fleet !! i); [apply guar_copy_link|done].
Qed.

Lemma guar_append rfc current fleet primary synced walk delta :
  guar append_only (fun _ => True) (append_chain_link rfc current fleet primary synced walk delta).
Proof.
  unfold append_chain_link. destruct (fleet !! primary) as [pin|]; [|done]. destruct (head synced) as [decider|]; [|done].
  destruct (fleet !! decider) as [arbiter|]; [|done]. destruct current; [|done]. cbn [negb].
  eapply (guar_bind _ _ _ (fun _ => True)); [apply guar_read_head|]. intros [read|e] _; [|done]. cbv zeta.
  case_decide; [|done]. eapply (guar_bind _ _ _ (fun _ => True)).
  { case_decide; [done|]. by eapply (guar_bind _ _ _ (fun _ => True)); [apply guar_read_head|]. }
  intros [] _; [|done]. cbn [negb]. apply guar_call_bind; [chain_op|]. intros now _.
  destruct (rfc now); [|done]. apply guar_call_bind; [chain_op|]. intros [[e|]|e] _; [|done|done].
  by eapply (guar_bind _ _ _ (fun _ => True)); [apply guar_mirror|].
Qed.

Lemma guar_write_chain_link rfc current jobs handles eligible pinned walk delta :
  guar append_only (fun _ => True) (write_chain_link bucket_name rfc current jobs handles eligible pinned walk delta).
Proof.
  unfold write_chain_link. destruct (_ <=? _)%nat; [done|]. unfold singleton_replicas.
  eapply (guar_bind _ _ _ (fun _ => True)); [by apply guar_call_bind; [chain_op|]|]. intros peers _. cbv zeta.
  eapply (guar_bind _ _ _ (fun _ => True)); [apply guar_catch_up_fleet|]. intros synced _.
  case_decide; [done|]. destruct synced; [done|]. apply guar_append.
Qed.

(** Who works on the buckets of a fleet: audits, from the read of their head to
    their checkpoint, and whatever stays out of the chain's keys. *)
Inductive chain_client : prog unit -> Prop :=
  | client_audit rfc current jobs handles eligible pinned on (deltas : option (option (Z * str)) -> prog Delta) :
      (forall walk, guar (spares chain_object) (fun _ => True) (deltas walk)) ->
      chain_client (thread (
        let* walk := read_walk_head on pinned in
        let* delta := deltas walk in
        checkpoint bucket_name rfc current jobs handles eligible pinned walk delta))
  | client_other p : guar (spares chain_object) (fun _ => True) p -> chain_client p.

Lemma guar_chain_client p : chain_client p -> guar append_only (fun _ => True) p.
Proof.
  intros [rfc current jobs handles eligible pinned on deltas Hd|q Hq].
  - eapply (guar_thread _ _ (fun _ => True)), (guar_bind _ _ _ (fun _ => True)).
    { unfold read_walk_head. destruct on; [|done].
      by eapply (guar_bind _ _ _ (fun _ => True)); [apply guar_read_head|]. }
    intros walk _. eapply (guar_bind _ _ _ (fun _ => True)); [|intros delta _].
    { eapply guar_weaken; [|apply Hd]. intros b R o. apply spares_follows. }
    unfold checkpoint. destruct walk as [walk|]; [|done]. apply guar_write_chain_link.
  - eapply guar_weaken; [|exact Hq]. intros b R o. apply spares_follows.
Qed.

(** ** Properties *)

(** C13: a link, once on a bucket, stays there byte for byte. Whatever audits,
    catch-ups and other nodes do, interleaved in any way and with any storage
    faults, no chain object is ever rewritten or removed. *)
Theorem links_immutable (w w' : world) ts ts' b n bytes :
  wf_world w -> Forall chain_client ts -> rtc step (w, ts) (w', ts') ->
  contents (w b) (chain_key n) = Some bytes -> contents (w' b) (chain_key n) = Some bytes.
Proof.
  intros Hw Hts Hsteps. assert (Forall (guar append_only (fun _ => True)) ts) as Hg.
  { eapply Forall_impl; [exact Hts|]. intros p. apply guar_chain_client. }
  destruct (steps_follow chain_object created_once _ _ _ _ Hw Hg Hsteps) as [_ HT].
  unfold chain_key. set (name := decimal_padded _ _ ++ _). specialize (HT b name). clearbody name. revert bytes.
  change (kept (chain_object name) (w b) (w' b)).
  assert (forall o o', rtc created_once o o' -> forall x, o = Some x -> o' = Some x) as Hrtc.
  { induction 1 as [o|o o1 o' [-> _] _ IH]; [done|]. done. }
  intros bytes. by apply Hrtc.
Qed.

End appending.

(** ** An example fleet *)

#[global] Instance ChainLink_eq_dec : EqDecision ChainLink.
Proof. solve_decision. Defined.
#[global] Instance ChainLink_countable : Countable ChainLink.
Proof.
  apply (inj_countable' (fun l => (seq l, prev_sha256 l, created l, packages l))
           (fun x => MkLink x.1.1.1 x.1.1.2 x.1.2 x.2)). by intros [].
Defined.
Definition toy_link_codec : Codec ChainLink := countable_codec.

Definition genesis_link : ChainLink := MkLink 0 [] (&"t0") {[&"requests" := {[&"a.whl" := &"00"]}]}.
(** Two buckets, the second one link behind. *)
Definition genesis_bytes : str := @encode _ toy_link_codec genesis_link.
Definition genesis_store : store := MkStore {[chain_key 0 := MkObject genesis_bytes genesis_bytes None]} 1.
Definition lagging_world : world := <[0%nat := genesis_store]> empty_world.
Definition example_delta : Delta := {[&"flask" := {[&"b.whl" := &"11"]}]}.
Definition example_audit : prog unit :=
  thread (let* walk := @read_walk_head toy_digest true 0 in
          let* delta := Ret example_delta in
          @checkpoint toy_digest toy_link_codec (fun _ => &"bucket") (fun _ => Some (&"t1")) true (fun _ _ _ => true) 2
            (fun _ => true) 0 walk delta).

Lemma lagging_world_wf : @wf_world content_etags lagging_world.
Proof.
  intros b. unfold lagging_world. destruct (decide (b = 0%nat)) as [->|Hne].
  - rewrite fn_lookup_insert. intros key obj. cbn [genesis_store objects].
    intros [_ <-]%lookup_singleton_Some. by exists O.
  - rewrite fn_lookup_insert_ne by done. apply (@empty_world_wf content_etags).
Qed.

(** An audit over the lagging fleet leaves the genesis link as it was. *)
Lemma links_immutable_witness :
  contents ((@run content_etags _ example_env lagging_world example_audit).1 0%nat) (chain_key 0) = Some genesis_bytes.
Proof.
  eapply (@links_immutable toy_digest toy_link_codec content_etags (fun _ => &"bucket") lagging_world _ [example_audit]).
  - apply lagging_world_wf.
  - constructor; [|constructor]. unfold example_audit. by apply client_audit.
  - apply steps_run, example_env_good.
  - by vm_compute.
Defined.

End Chain.
