(* ===== verification/Append.v ===== *)
(** * An append spends a number nobody used (src/transparency.rs, src/worker.rs)

    A leader may continue the chain on a bucket that lags. What the catch-up
    learns of every peer makes the number it appends at free on all of them,
    peers that hold a rival branch apart. *)
From stdpp Require Import functions.
From S2P Require Import Prelude RustStr Documents Hash Storage Fanout Range Chain.
Import Sidecar Storage Hash Fanout Chain.

Module Append.

Section stores.
Context {E : Etags}.

(** The numbers a bucket lists links for. *)
Definition held_seqs (s : store) : gset Z := list_to_set (listed_seqs (list_all CHAIN_PREFIX s)).

Lemma elem_of_held n s : n ∈ held_seqs s <-> exists key, seq_from_key key = Some n /\ is_Some (contents s key).
Proof.
  unfold held_seqs, listed_seqs, contents. rewrite elem_of_list_to_set, list_elem_of_omap. split.
  - intros (o & Ho & Hn). apply list_elem_of_fmap in Ho as ([key obj] & -> & Hin).
    apply elem_of_list_where in Hin as [_ Hin]. cbn [fst snd] in *. exists key. split; [done|]. by rewrite Hin.
  - intros (key & Hn & [bytes Hb]). apply fmap_Some in Hb as (obj & Hobj & ->).
    exists (meta_of (key, obj)). split; [|done]. apply list_elem_of_fmap. exists (key, obj). split; [done|].
    apply elem_of_list_where. split; [|done]. cbn [fst]. revert Hn. unfold seq_from_key, starts_with.
    by destruct (strip_prefix CHAIN_PREFIX key).
Qed.

Lemma held_key n s : u64 n -> is_Some (contents s (chain_key n)) -> n ∈ held_seqs s.
Proof. intros Hn Hs. apply elem_of_held. exists (chain_key n). split; [by apply seq_from_chain_key|done]. Qed.

Lemma held_range n s : n ∈ held_seqs s -> u64 n.
Proof. intros (key & Hk & _)%elem_of_held. by eapply seq_from_key_range. Qed.

(** From [s] to [s'] at most the link [n] was created. *)
Definition grown (n : Z) (s s' : store) : Prop :=
  forall key, contents s' key = contents s key \/ key = chain_key n /\ contents s key = None.

Lemma grown_refl n s : grown n s s.
Proof. intros key. by left. Qed.

Lemma grown_kept n key s s' : grown n s s' -> kept key s s'.
Proof. intros Hg bytes Hb. destruct (Hg key) as [->|[_ ?]]; congruence. Qed.

Lemma kept_held s s' : (forall key, kept key s s') -> held_seqs s ⊆ held_seqs s'.
Proof.
  intros Hk n (key & Hn & [bytes Hb])%elem_of_held. apply elem_of_held. exists key. split; [done|].
  exists bytes. by apply Hk.
Qed.

Lemma grown_held n s s' : u64 n -> grown n s s' -> held_seqs s' ⊆ {[n]} ∪ held_seqs s.
Proof.
  intros Hu Hg m (key & Hm & Hs)%elem_of_held. destruct (Hg key) as [Heq|[-> _]].
  - apply elem_of_union_r, elem_of_held. exists key. by rewrite <- Heq.
  - rewrite seq_from_chain_key in Hm by done. set_solver.
Qed.

Lemma create_grows n bytes r s s' : wf_store s -> op_step (PutIfNoneMatch (chain_key n) bytes) s r s' -> grown n s s'.
Proof.
  intros Hs Hstep key. destruct (op_step_effect _ _ _ _ _ key Hs Hstep) as [He|(-> & Hn & _)]; [by left|by right].
Qed.

(** ** The programs of the chain, executed *)

Lemma exec_chain_seqs b w X w' : exec (chain_seqs b) w (Ok X) w' -> w' = w /\ X = held_seqs (w b).
Proof.
  intros (entries & w1 & Hc & He)%exec_ok. apply exec_read_call in Hc as [-> Hs]; [|done].
  apply exec_answer in He as [-> ->]. split; [done|]. by rewrite (list_all_answer _ _ _ _ _ Hs eq_refl).
Qed.

Lemma exec_chain_seqs_reads b w r w' : wf_world w -> exec (chain_seqs b) w r w' -> w' = w.
Proof. intros Hw. apply exec_reading; [done|]. by apply guar_call_ok. Qed.

Lemma exec_read_head b w head w' :
  exec (read_head b) w (Ok head) w' ->
  w' = w /\ match head with
            | Some (m, bytes) => contents (w b) (chain_key m) = Some bytes /\ u64 m /\ forall n, n ∈ held_seqs (w b) -> n <= m
            | None => held_seqs (w b) = ∅
            end.
Proof.
  intros (entries & w1 & Hc & He)%exec_ok. apply exec_read_call in Hc as [-> Hs]; [|done].
  apply list_all_answer with (entries := entries) in Hs as ->; [|done].
  assert (forall n, n ∈ held_seqs (w b) <-> n ∈ listed_seqs (list_all CHAIN_PREFIX (w b))) as Hh.
  { intros n. unfold held_seqs. by rewrite elem_of_list_to_set. }
  pose proof (maximum_spec (listed_seqs (list_all CHAIN_PREFIX (w b)))) as Hm.
  destruct (maximum _) as [m|].
  - apply exec_ok in He as (bytes & w2 & Hg & He). apply exec_read_call in Hg as [-> Hg]; [|done].
    apply exec_answer in He as [-> ->]. destruct Hm as [Hin Hle]. split_and!; [done|by eapply get_bytes_answer| |].
    + by apply (held_range _ (w b)), Hh.
    + intros n Hn. by apply Hle, Hh.
  - apply exec_answer in He as [-> ->]. split; [done|]. apply set_eq. intros n. rewrite Hh, Hm. set_solver.
Qed.

Lemma exec_read_head_reads b w r w' : wf_world w -> exec (read_head b) w r w' -> w' = w.
Proof.
  intros Hw. apply exec_reading; [done|]. apply guar_call_ok; [done| |done]. intros entries _.
  destruct (maximum _); [|done]. by apply guar_call_ok.
Qed.

(** A copy touches one key of one bucket, and says what stands there. *)
Lemma exec_copy_link dst n bytes w r w' :
  wf_world w -> exec (copy_link dst n bytes) w r w' ->
  wf_world w' /\ (forall c, c ≠ dst -> w' c = w c) /\ grown n (w dst) (w' dst)
  /\ match r with
     | Ok Landed => contents (w' dst) (chain_key n) = Some bytes
     | Ok Diverged => exists rival, contents (w' dst) (chain_key n) = Some rival /\ rival ≠ bytes
     | Err _ => True
     end.
Proof.
  intros Hw He. split; [by eapply wf_exec|]. apply exec_bind in He as (put & w1 & Hp & He).
  apply exec_call in Hp as (s & Hs & ->). pose proof (create_grows _ _ _ _ _ (Hw dst) Hs) as Hg.
  assert (forall c, c ≠ dst -> <[dst := s]> w c = w c) as Hframe by (intros c Hc; by rewrite fn_lookup_insert_ne).
  assert (<[dst := s]> w dst = s) as Hself by (by rewrite fn_lookup_insert).
  destruct put as [[e|]|e].
  - destruct He as [-> ->]. rewrite Hself. split_and!; [done..|]. by eapply put_if_none_match_answer.
  - apply exec_bind in He as (got & w2 & Hr & He). apply exec_read_call in Hr as [-> Hr]; [|done].
    rewrite Hself in Hr. destruct got as [held|e']; destruct He as [-> ->]; rewrite Hself; split_and!; try done.
    pose proof (get_bytes_answer _ _ _ _ _ Hr eq_refl) as Hh. case_decide; [by subst|]. by exists held.
  - destruct He as [-> ->]. by rewrite Hself.
Qed.

(** ** Progress of a catch-up *)

Definition bounded (M : Z -> Prop) (w : world) : Prop := forall c n, n ∈ held_seqs (w c) -> M n.

(** Only buckets of [B] change, they lose nothing, no number is new to the
    fleet, and a link that was created has a number the pin then holds. *)
Definition advance (pin : nat) (B : nat -> Prop) (w w' : world) : Prop :=
  wf_world w' /\ (forall c, ~ B c -> w' c = w c) /\ (forall c key, kept key (w c) (w' c))
  /\ (forall M, bounded M w -> bounded M w')
  /\ forall c n, u64 n -> n ∉ held_seqs (w' pin) -> contents (w' c) (chain_key n) = contents (w c) (chain_key n).

(** Two buckets hold different bytes at one number. *)
Definition diverged (w : world) (p q : nat) : Prop :=
  exists n x y, contents (w p) (chain_key n) = Some x /\ contents (w q) (chain_key n) = Some y /\ x ≠ y.

Lemma advance_refl pin B w : wf_world w -> advance pin B w w.
Proof. intros Hw. split_and!; [done|done|by intros c key bytes|done|done]. Qed.

Lemma advance_wf pin B w w' : advance pin B w w' -> wf_world w'.
Proof. by intros [? _]. Qed.

Lemma advance_held pin B w w' c : advance pin B w w' -> held_seqs (w c) ⊆ held_seqs (w' c).
Proof. intros (_ & _ & Hk & _). apply kept_held, Hk. Qed.

Lemma advance_trans pin B w w1 w' : advance pin B w w1 -> advance pin B w1 w' -> advance pin B w w'.
Proof.
  intros (_ & Hf1 & Hk1 & Hb1 & Hn1) Ha. pose proof (advance_held _ _ _ _ pin Ha) as Hheld.
  destruct Ha as (Hw & Hf & Hk & Hb & Hn). split_and!; [done| | |auto|].
  - intros c Hc. rewrite Hf by done. auto.
  - intros c key bytes Hs. by apply Hk, Hk1.
  - intros c n Hu Hnot. rewrite Hn by done. apply Hn1; [done|]. set_solver.
Qed.

Lemma advance_mono pin (B B' : nat -> Prop) w w' : (forall c, B c -> B' c) -> advance pin B w w' -> advance pin B' w w'.
Proof. intros HB (Hw & Hf & Hk & Hb & Hn). split_and!; auto. Qed.

Lemma advance_diverged pin B w w' p q : advance pin B w w' -> diverged w p q -> diverged w' p q.
Proof. intros (_ & _ & Hk & _) (n & x & y & Hx & Hy & Hne). exists n, x, y. split_and!; [by apply Hk..|done]. Qed.

(** A copy of a link some bucket has, to or from the pin, is an advance of its
    destination. *)
Lemma copy_advances pin dst src n bytes w r w' :
  wf_world w -> u64 n -> dst = pin \/ src = pin -> contents (w src) (chain_key n) = Some bytes ->
  exec (copy_link dst n bytes) w r w' ->
  advance pin (eq dst) w w' /\ held_seqs (w' dst) ⊆ {[n]} ∪ held_seqs (w dst).
Proof.
  intros Hw Hn Hpin Hsrc He. apply exec_copy_link in He as (Hw' & Hf & Hg & _); [|done].
  assert (forall c key, kept key (w c) (w' c)) as Hkept.
  { intros c key. destruct (decide (c = dst)) as [->|Hc]; [by eapply grown_kept|]. rewrite Hf by done. by intros old. }
  split; [|by apply grown_held]. split_and!; [done|intros c Hc; by apply Hf|done| |].
  - intros M HM c m. destruct (decide (c = dst)) as [->|Hc]; [|rewrite Hf by done; apply HM].
    intros Hm%(grown_held _ _ _ Hn Hg). apply elem_of_union in Hm as [->%elem_of_singleton|Hm]; [|by eapply HM].
    apply (HM src), held_key; [done|]. by eexists.
  - intros c m Hu Hnot. destruct (decide (c = dst)) as [->|Hc]; [|by rewrite Hf].
    destruct (Hg (chain_key m)) as [Heq|[Hkey Hnone]]; [done|]. rewrite Hnone. apply eq_None_not_Some. intros Hs.
    apply Hnot. destruct Hpin as [<-|<-]; [by apply held_key|]. apply kept_held with (s := w src); [apply Hkept|].
    apply held_key; [done|]. rewrite Hkey. by eexists.
Qed.

Lemma exec_contradiction jobs pin peer seqs w r w' :
  wf_world w -> exec (contradiction_among jobs pin peer seqs) w r w' ->
  w' = w /\ forall n, r = Ok (Some n) -> diverged w pin peer.
Proof.
  intros Hw. revert jobs. induction seqs as [|n seqs IH]; intros jobs He; [by destruct He as [-> ->]|].
  cbn [contradiction_among] in He. apply exec_bind in He as (got & w1 & Hj & He). destruct got as [x|e].
  - apply exec_try_join_reads in Hj as (-> & H1 & H2); [|done..]. case_decide; [by eapply IH|].
    destruct He as [-> ->]. split; [done|]. intros m _. exists n, x.1, x.2.
    split_and!; [by eapply get_bytes_answer..|done].
  - destruct He as [-> ->]. split; [|done]. eapply exec_reading; [exact Hw| |exact Hj].
    eapply (guar_bind _ _ _ (fun _ => True)); [|done]. unfold call. cbn [both].
    by destruct (jobs O O).
Qed.

Lemma exec_pull names pin peer seqs mine w r w' :
  wf_world w -> Forall u64 seqs -> mine ⊆ held_seqs (w pin) -> exec (pull_links names pin peer seqs mine) w r w' ->
  advance pin (eq pin) w w' /\ mine ⊆ r.1 /\ r.1 ⊆ held_seqs (w' pin)
  /\ (is_ok r.2 = true -> list_to_set seqs ⊆ r.1).
Proof.
  revert mine w. induction seqs as [|n seqs IH]; intros mine w Hw Hu Hm He; cbn [pull_links] in He.
  { destruct He as [-> ->]. split_and!; [by apply advance_refl|done|done|set_solver]. }
  inversion Hu as [|?? Hn Hu']; subst. apply exec_bind in He as (got & w1 & Hg & He).
  apply exec_read_call in Hg as [-> Hg]; [|done]. destruct got as [bytes|e].
  2:{ destruct He as [-> ->]. by split_and!; [apply advance_refl| | |]. }
  apply exec_bind in He as (copied & w1 & Hc & He). pose proof (get_bytes_answer _ _ _ _ _ Hg eq_refl) as Hsrc.
  destruct (copy_advances pin _ _ _ _ _ _ _ Hw Hn (or_introl eq_refl) Hsrc Hc) as [Ha _].
  apply exec_copy_link in Hc as (Hw1 & _ & _ & Hout); [|done].
  assert (mine ⊆ held_seqs (w1 pin)) as Hm1 by (etrans; [exact Hm|by eapply advance_held]).
  destruct copied as [[]|e]; [|by destruct He as [-> ->]..].
  apply IH in He as (Ha' & Hsub & Hheld & Hok); [|done|done|].
  - split_and!; [by eapply advance_trans|set_solver|done|]. intros Hr. specialize (Hok Hr). set_solver.
  - apply union_subseteq. split; [|done]. apply singleton_subseteq_l, held_key; [done|]. by eexists.
Qed.

Lemma exec_push pin peer seqs w r w' :
  wf_world w -> Forall u64 seqs -> pin ≠ peer -> exec (push_links pin peer seqs) w r w' ->
  advance pin (eq peer) w w' /\ held_seqs (w' peer) ⊆ list_to_set seqs ∪ held_seqs (w peer)
  /\ (r = Forked -> diverged w' pin peer).
Proof.
  intros Hw Hu Hne. revert w Hw. induction seqs as [|n seqs IH]; intros w Hw He; cbn [push_links] in He.
  { destruct He as [-> ->]. split_and!; [by apply advance_refl|set_solver|done]. }
  inversion Hu as [|?? Hn Hu']; subst. apply exec_bind in He as (got & w1 & Hg & He).
  apply exec_read_call in Hg as [-> Hg]; [|done]. destruct got as [bytes|e].
  2:{ destruct He as [-> ->]. split_and!; [by apply advance_refl|set_solver|done]. }
  apply exec_bind in He as (copied & w1 & Hc & He). pose proof (get_bytes_answer _ _ _ _ _ Hg eq_refl) as Hsrc.
  destruct (copy_advances pin _ _ _ _ _ _ _ Hw Hn (or_intror eq_refl) Hsrc Hc) as [Ha Hh].
  apply exec_copy_link in Hc as (Hw1 & Hf & _ & Hout); [|done].
  destruct copied as [[]|e].
  - apply IH in He as (Ha' & Hh' & Hd); [|done..]. split_and!; [by eapply advance_trans|set_solver|done].
  - destruct He as [-> ->]. split_and!; [done|set_solver|]. intros _. destruct Hout as (rival & Hr & Hrne).
    exists n, bytes, rival. split_and!; [by rewrite Hf|done|done].
  - destruct He as [-> ->]. split_and!; [done|set_solver|done].
Qed.

(** ** One peer, and all of them *)

Abbreviation pair_of pin peer := (fun c => c = pin \/ c = peer).

Lemma exec_catch_up_replica names jobs pin peer mine w r w' :
  wf_world w -> pin ≠ peer -> mine ⊆ held_seqs (w pin) ->
  exec (catch_up_replica names jobs pin peer mine (held_seqs (w peer))) w r w' ->
  advance pin (pair_of pin peer) w w' /\ mine ⊆ r.1 /\ r.1 ⊆ held_seqs (w' pin)
  /\ match r.2 with
     | Ok Synced => held_seqs (w' peer) ⊆ r.1
     | Ok Forked => diverged w' pin peer
     | Err _ => True
     end.
Proof.
  intros Hw Hne Hm He. assert (forall X Y : gset Z, (forall n, n ∈ X -> u64 n) -> Forall u64 (ascending (X ∖ Y))) as Hasc.
  { intros X Y HX. apply Forall_forall. intros n Hn%elem_of_ascending. apply HX. set_solver. }
  apply exec_bind in He as (c & w1 & Hc & He). apply exec_contradiction in Hc as [-> Hfork]; [|done].
  destruct c as [[n|]|e]; [| |by destruct He as [-> ->]; split_and!; [apply advance_refl| | |]].
  { destruct He as [-> ->]. by split_and!; [apply advance_refl| | |eapply Hfork]. }
  apply exec_bind in He as ([mine' pulled] & w1 & Hp & He).
  apply exec_pull in Hp as (Ha & Hsub & Hheld & Hok); [|done|apply Hasc; intros n; by apply held_range|done]. cbn [fst snd] in *.
  assert (advance pin (pair_of pin peer) w w1) as Ha1 by (eapply advance_mono; [|exact Ha]; by left).
  destruct pulled as [u|e]; [|by destruct He as [-> ->]].
  apply exec_bind in He as (pushed & w2 & Hp & [-> ->]). specialize (Hok eq_refl).
  apply exec_push in Hp as (Ha' & Hh & Hd); [|by eapply advance_wf| |done].
  2:{ apply Hasc. intros n Hn. eapply held_range, Hm, Hn. }
  cbn [fst snd]. split_and!; [|done|etrans; [exact Hheld|by eapply advance_held]|].
  - eapply advance_trans; [exact Ha1|]. eapply advance_mono; [|exact Ha']. by right.
  - destruct pushed; [|by apply Hd]. destruct Ha as (_ & Hf & _). rewrite (Hf peer) in Hh by done.
    etrans; [exact Hh|]. intros n Hn. apply elem_of_union in Hn as [Hn|Hn].
    + apply elem_of_list_to_set, elem_of_ascending in Hn. set_solver.
    + destruct (decide (n ∈ mine)) as [Hin|Hin]; [by apply Hsub|].
      apply Hok, elem_of_list_to_set, elem_of_ascending. set_solver.
Qed.

(** What a pass that may append knows of a peer it has handled. *)
Definition settled (w : world) (pin : nat) (p : Pass) (position peer : nat) : Prop :=
  position ∈ in_sync p /\ held_seqs (w peer) ⊆ ours p \/ diverged w pin peer /\ position ∉ in_sync p.

Lemma exec_catch_up_peer names jobs pin position peer p w p' w' :
  wf_world w -> pin ≠ peer -> ours p ⊆ held_seqs (w pin) -> position ∉ in_sync p ->
  exec (catch_up_peer names jobs pin position peer p) w p' w' ->
  advance pin (pair_of pin peer) w w' /\ ours p ⊆ ours p' /\ ours p' ⊆ held_seqs (w' pin)
  /\ (in_sync p' = in_sync p \/ in_sync p' = in_sync p ++ [position])
  /\ (defer p' = false -> defer p = false /\ settled w' pin p' position peer).
Proof.
  intros Hw Hne Hm Hnot He. apply exec_bind in He as (listed & w1 & Hl & He). destruct listed as [theirs|e].
  2:{ apply exec_chain_seqs_reads in Hl as ->; [|done]. destruct He as [-> ->]. cbn [ours in_sync defer].
      split_and!; [by apply advance_refl|done|done|by left|done]. }
  apply exec_chain_seqs in Hl as [-> ->]. apply exec_bind in He as ([mine out] & w1 & Hc & [-> ->]).
  apply exec_catch_up_replica in Hc as (Ha & Hsub & Hheld & Hout); [|done..]. cbn [fst snd] in *.
  destruct out as [[]|e]; cbn [ours in_sync defer]; split_and!; try done; [by right| |by left| |by left].
  - intros Hd. split; [done|]. left. cbn [ours in_sync]. split; [|done]. apply elem_of_app. right. by left.
  - intros Hd. split; [done|]. by right.
Qed.

(** The positions of a later pass are the earlier ones and those from
    [position] on. *)
Definition later_pass (position : nat) (p p' : Pass) : Prop :=
  (forall i, i ∈ in_sync p -> i ∈ in_sync p') /\ forall i, i ∈ in_sync p' -> i ∈ in_sync p \/ (position <= i)%nat.

Lemma later_pass_trans position p p1 p' : later_pass position p p1 -> later_pass (S position) p1 p' -> later_pass position p p'.
Proof.
  intros [H1 H2] [H3 H4]. split; [auto|]. intros i Hi. destruct (H4 i Hi) as [Hi1|Hi1]; [by apply H2|right; lia].
Qed.

Lemma settled_advance B w w' pin p p' position peer :
  advance pin B w w' -> ~ B peer -> ours p ⊆ ours p' -> later_pass (S position) p p' ->
  settled w pin p position peer -> settled w' pin p' position peer.
Proof.
  intros Ha Hnb Hsub [Hin Hout] [[Hi Hh]|[Hd Hi]]; [left|right].
  - split; [auto|]. destruct Ha as (_ & Hf & _). rewrite (Hf peer) by done. by etrans.
  - split; [by eapply advance_diverged|]. intros Hx. destruct (Hout _ Hx); [done|lia].
Qed.

Lemma exec_catch_up_peers names jobs pin primary position peers p w p' w' :
  wf_world w -> NoDup peers -> (forall j x, peers !! j = Some x -> (x = pin <-> (position + j)%nat = primary)) ->
  (forall i, i ∈ in_sync p -> i = primary \/ (i < position)%nat) ->
  ours p ⊆ held_seqs (w pin) -> exec (catch_up_peers names jobs pin primary position peers p) w p' w' ->
  advance pin (fun c => c = pin \/ c ∈ peers) w w' /\ ours p ⊆ ours p' /\ ours p' ⊆ held_seqs (w' pin)
  /\ later_pass position p p'
  /\ (defer p' = false -> defer p = false
      /\ forall j x, peers !! j = Some x -> x ≠ pin -> settled w' pin p' (position + j) x).
Proof.
  revert position p w. induction peers as [|peer peers IH]; intros position p w Hw Hnd Hpin Hlow Hm He; cbn [catch_up_peers] in He.
  { destruct He as [-> ->]. split_and!; [by apply advance_refl|done|done|split; [done|by left]|done]. }
  apply NoDup_cons in Hnd as [Hni Hnd]. apply exec_bind in He as (p1 & w1 & H1 & He).
  pose proof (Hpin O peer eq_refl) as Hfirst. rewrite Nat.add_0_r in Hfirst.
  assert (advance pin (pair_of pin peer) w w1 /\ ours p ⊆ ours p1 /\ ours p1 ⊆ held_seqs (w1 pin)
    /\ (in_sync p1 = in_sync p \/ in_sync p1 = in_sync p ++ [position])
    /\ (defer p1 = false -> defer p = false /\ (peer ≠ pin -> settled w1 pin p1 position peer)))
    as (Ha & Hsub & Hheld & Hin & Hset).
  { case_decide as Hd.
    - destruct H1 as [-> ->]. split_and!; [by apply advance_refl|done|done|by left|]. intros Hf. split; [done|].
      intros Hx. exfalso. apply Hx. by apply Hfirst.
    - apply exec_catch_up_peer in H1 as (Ha & Hsub & Hheld & Hin & Hset); [|done|by intros Hx; apply Hd, Hfirst|done|].
      + split_and!; [done..|]. intros Hf. split; [by apply Hset|intros _; by apply Hset].
      + intros [->|?]%Hlow; [done|lia]. }
  assert (later_pass position p p1 /\ forall i, i ∈ in_sync p1 -> i = primary \/ (i < S position)%nat) as [Hext Hlow1].
  { unfold later_pass. destruct Hin as [-> | ->]; [|setoid_rewrite elem_of_app; setoid_rewrite list_elem_of_singleton].
    - split_and!; [done|by left|]. intros i [->|?]%Hlow; [by left|right; lia].
    - split_and!; [by left|intros i [?| ->]; [by left|by right]|].
      intros i [[->|?]%Hlow| ->]; [by left|right; lia|right; lia]. }
  apply IH in He as (Ha' & Hsub' & Hheld' & Hext' & Hset'); [|by eapply advance_wf|done| |done|done].
  2:{ intros j x Hj. rewrite (Hpin (S j) x Hj). by rewrite Nat.add_succ_comm. }
  split_and!; [|by etrans|done|by eapply later_pass_trans|].
  - eapply advance_trans; (eapply advance_mono; [|eassumption]); intros c; rewrite elem_of_cons; tauto.
  - intros Hf. apply Hset' in Hf as [Hf Hrest]. apply Hset in Hf as [Hf Hone]. split; [done|].
    intros [|j] x Hj Hx.
    + injection Hj as ->. rewrite Nat.add_0_r. eapply settled_advance; [exact Ha'| |exact Hsub'|exact Hext'|by apply Hone].
      intros [->|?]; done.
    + rewrite <- Nat.add_succ_comm. by apply Hrest.
Qed.

(** The buckets of the fleet at the positions in sync. *)
Definition chosen (fleet : list nat) (synced : list nat) (b : nat) : Prop := exists i, i ∈ synced /\ fleet !! i = Some b.

(** What is known when the pass may append: every bucket in sync holds numbers
    of the pin only, every other one of the fleet a rival branch. *)
Definition caught_up (fleet : list nat) (pin : nat) (synced : list nat) (w : world) : Prop :=
  forall b, b ∈ fleet -> held_seqs (w b) ⊆ held_seqs (w pin) \/ diverged w pin b /\ ~ chosen fleet synced b.

Lemma exec_catch_up_fleet names jobs fleet primary pin w synced w' :
  wf_world w -> NoDup fleet -> fleet !! primary = Some pin ->
  exec (catch_up_fleet names jobs fleet primary) w synced w' ->
  advance pin (fun c => c ∈ fleet) w w' /\ (synced ≠ [] -> caught_up fleet pin synced w').
Proof.
  intros Hw Hnd Hpin He. unfold catch_up_fleet in He. rewrite Hpin in He.
  apply exec_bind in He as (listed & w1 & Hl & He). destruct listed as [seqs|e].
  2:{ apply exec_chain_seqs_reads in Hl as ->; [|done]. destruct He as [-> ->]. by split; [apply advance_refl|]. }
  apply exec_chain_seqs in Hl as [-> ->]. apply exec_bind in He as (p & w1 & Hp & [-> ->]).
  apply exec_catch_up_peers in Hp as (Ha & _ & Hheld & _ & Hset); [|done|done| | |done].
  2:{ intros j x Hj. cbn. split; [intros ->; by eapply NoDup_lookup|intros ->; congruence]. }
  2:{ intros i ->%list_elem_of_singleton. by left. }
  split.
  { eapply advance_mono; [|exact Ha]. intros c [->|Hc]; [by eapply list_elem_of_lookup_2|done]. }
  destruct (defer p); [done|]. intros _. specialize (Hset eq_refl) as [_ Hset]. intros x Hx.
  destruct (decide (x = pin)) as [->|Hne]; [by left|]. apply list_elem_of_lookup_1 in Hx as [j Hj].
  destruct (Hset j x Hj Hne) as [[_ Hh]|[Hd Hj']]; [left; by etrans|right]. split; [done|].
  intros (i & Hi & Hix). rewrite merge_sort_Permutation in Hi.
  apply Hj'. by rewrite Nat.add_0_l, (NoDup_lookup _ _ _ _ Hnd Hj Hix).
Qed.

Lemma put_if_none_match_was_absent key bytes r s s' e :
  op_step (PutIfNoneMatch key bytes) s r s' -> r = Ok (Some e) -> contents s key = None.
Proof.
  intros Hstep Hr. destruct Hstep as [v Hv|r Hf|v r Hf|r s1 Hf];
    cbn [op_run op_fail fst snd] in *; simplify_eq; try done.
  unfold contents. by destruct (objects s !! key).
Qed.

(** ** The append *)

Context {D : Digest} {JL : Codec ChainLink}.

(** What an append-only program leaves of the links. *)
Lemma exec_links_kept A (p : prog A) w a w' :
  wf_world w -> guar append_only (fun _ => True) p -> exec p w a w' ->
  wf_world w' /\ forall c n, kept (chain_key n) (w c) (w' c).
Proof.
  intros Hw Hg He. destruct (exec_respects _ _ _ _ _ _ _ _ (follows_respects _ _) Hw Hg He) as (Hw' & _ & Hm).
  split; [done|]. intros c n. eapply chain_moves_keep, Hm.
Qed.

(** The link continues the pin's chain: it names the head's bytes, or opens an
    empty chain. *)
Definition continues (link : ChainLink) (s : store) : Prop :=
  held_seqs s = ∅ /\ seq link = 0 /\ prev_sha256 link = []
  \/ exists m bytes, contents s (chain_key m) = Some bytes /\ u64 m /\ (forall n, n ∈ held_seqs s -> n <= m)
      /\ seq link = u64_wrapping_add m 1 /\ prev_sha256 link = sha256_hex bytes.

(** Nothing but the buckets in sync is written to. *)
Lemma exec_mirror_frame fleet decider n bytes positions w u w' b :
  wf_world w -> ~ chosen fleet positions b -> exec (mirror_link fleet decider n bytes positions) w u w' -> w' b = w b.
Proof.
  revert w. induction positions as [|i positions IH]; intros w Hw Hb He; cbn [mirror_link] in He; [by destruct He as [_ ->]|].
  apply exec_bind in He as (copied & w1 & Hc & He).
  assert (wf_world w1 /\ w1 b = w b) as [Hw1 <-].
  { case_decide; [by destruct Hc as [_ ->]|]. destruct (fleet !! i) as [bucket|] eqn:Hi; [|by destruct Hc as [_ ->]].
    apply exec_copy_link in Hc as (Hw1 & Hf & _); [|done]. split; [done|]. apply Hf. intros ->. apply Hb.
    exists i. split; [by left|done]. }
  eapply IH; [done| |done]. intros (j & Hj & Hx). apply Hb. exists j. split; [by right|done].
Qed.

Lemma exec_append rfc current fleet primary pin synced walk delta w w' :
  wf_world w -> fleet !! primary = Some pin ->
  exec (append_chain_link rfc current fleet primary synced walk delta) w true w' ->
  exists link arbiter, arbiter ∈ fleet /\ packages link = delta /\ continues link (w pin)
    /\ contents (w arbiter) (chain_key (seq link)) = None
    /\ contents (w' arbiter) (chain_key (seq link)) = Some (link_bytes link)
    /\ (forall c n, kept (chain_key n) (w c) (w' c))
    /\ forall c, ~ chosen fleet synced c -> w' c = w c.
Proof.
  intros Hw Hpin He. destruct (exec_links_kept _ _ _ _ _ Hw (guar_append _ _ _ _ _ _ _) He) as [_ Hkept].
  unfold append_chain_link in He. rewrite Hpin in He. destruct (head synced) as [decider|] eqn:Hdec; [|by destruct He].
  destruct (fleet !! decider) as [arbiter|] eqn:Harb; [|by destruct He]. destruct current; [|by destruct He]. cbn [negb] in He.
  apply exec_bind in He as (read & w1 & Hr & He). destruct read as [head|e]; [|by destruct He].
  apply exec_read_head in Hr as [-> Hhead]. cbv zeta in He. case_decide as Hwalk; [|by destruct He].
  set (next := match head_digest <$> head with Some (s, sha) => (u64_wrapping_add s 1, sha) | None => (0, []) end) in He.
  apply exec_bind in He as (ready & w1 & Hready & He). assert (w1 = w) as ->.
  { case_decide; [by destruct Hready as [_ ->]|]. apply exec_bind in Hready as (r & w2 & Hr & [_ ->]).
    by eapply exec_read_head_reads. }
  destruct ready; [|by destruct He]. cbn [negb] in He. apply exec_bind in He as (now & w1 & Hn & He).
  apply exec_read_call in Hn as [-> _]; [|done]. destruct (rfc now) as [at_|]; [|by destruct He].
  apply exec_bind in He as (put & w1 & Hp & He). apply exec_call in Hp as (s & Hs & ->).
  destruct put as [[e|]|e]; [|by destruct He..]. apply exec_bind in He as (u & w1 & Hm & [_ ->]).
  assert (wf_world (<[arbiter := s]> w)) as Hw1 by (by eapply wf_step).
  exists (MkLink next.1 next.2 at_ delta), arbiter. cbn [seq prev_sha256 packages].
  split_and!; [by eapply list_elem_of_lookup_2|done| |by eapply put_if_none_match_was_absent| |done|].
  - unfold continues, next. cbn [seq prev_sha256]. destruct head as [[m bytes]|]; [right|by left].
    destruct Hhead as (Hb & Hu & Hmax). by exists m, bytes.
  - eapply exec_links_kept in Hm as [_ Hk]; [|exact Hw1|apply guar_mirror]. apply Hk. rewrite fn_lookup_insert.
    by eapply put_if_none_match_answer.
  - intros c Hc. rewrite (exec_mirror_frame _ _ _ _ _ _ _ _ _ Hw1 Hc Hm). apply fn_lookup_insert_ne. intros <-. apply Hc.
    exists decider. split; [by apply head_Some_elem_of|done].
Qed.

(** ** The fleet of an audit *)

Definition eligible_fleet (handles : nat) (eligible : nat -> bool) (pinned : nat) : list nat :=
  filter (fun i => i = pinned \/ eligible i = true) (List.seq 0 handles).

Lemma chain_fleet_spec (pinned : nat) (peers l : list nat) (acc : list nat * nat) :
  let r := foldl (fun (acc : list nat * nat) (index : nat) =>
             if decide (index = pinned) then (acc.1 ++ [index], length acc.1)
             else if decide (index ∈ peers) then (acc.1 ++ [index], acc.2) else acc) acc l in
  r.1 = acc.1 ++ filter (fun i => i = pinned \/ i ∈ peers) l
  /\ (pinned ∈ l \/ acc.1 !! acc.2 = Some pinned -> r.1 !! r.2 = Some pinned).
Proof.
  revert acc. induction l as [|i l IH]; intros acc; cbn [foldl].
  { rewrite app_nil_r. split; [done|]. by intros [?%not_elem_of_nil|]. }
  set (acc1 := if decide (i = pinned) then _ else _). destruct (IH acc1) as [-> Hat]. clear IH. split.
  - rewrite filter_cons. subst acc1. case_decide; [rewrite decide_True by tauto|].
    + cbn [fst]. by rewrite <- app_assoc.
    + case_decide; [rewrite decide_True by tauto|by rewrite decide_False by tauto].
      cbn [fst]. by rewrite <- app_assoc.
  - intros Hp. apply Hat. rewrite elem_of_cons in Hp. subst acc1. case_decide as Hi; [subst; right|].
    { cbn [fst snd]. by apply list_lookup_middle. }
    destruct Hp as [[->|Hin]|Hold]; [done|by left|right].
    case_decide; cbn [fst snd]; [by apply lookup_app_l_Some|done].
Qed.

Lemma filter_iff_in {A} (P Q : A -> Prop) `{!forall x, Decision (P x), !forall x, Decision (Q x)} (l : list A) :
  (forall x, x ∈ l -> P x <-> Q x) -> filter P l = filter Q l.
Proof.
  induction l as [|x l IH]; intros Hpq; [done|]. rewrite !filter_cons, IH by (intros y Hy; apply Hpq; by right).
  specialize (Hpq x (list_elem_of_here x l)). repeat case_decide; tauto.
Qed.

Lemma filter_one {A} `{EqDecision A} (x : A) (l : list A) : NoDup l -> x ∈ l -> filter (fun y => y = x) l = [x].
Proof.
  induction 1 as [|y l Hy _ IH]; [by intros ?%not_elem_of_nil|]. rewrite elem_of_cons, filter_cons.
  destruct (decide (y = x)) as [->|Hne].
  - intros _. rewrite filter_none; [done|]. by intros z Hz ->.
  - intros [->|Hin]; [done|by apply IH].
Qed.

Lemma u64_succ m : u64 m -> m < u64_max -> u64_wrapping_add m 1 = m + 1.
Proof. unfold u64, u64_max, u64_wrapping_add. intros Hm Hlt. apply Z.mod_small. lia. Qed.

(** Below the last number, a link that continues a chain has one no link of
    the chain has, and names the link before it. *)
Lemma continues_fresh link s :
  (forall n, n ∈ held_seqs s -> n < u64_max) -> continues link s ->
  u64 (seq link) /\ (forall n, n ∈ held_seqs s -> n < seq link)
  /\ (seq link = 0 /\ prev_sha256 link = []
      \/ exists bytes, contents s (chain_key (seq link - 1)) = Some bytes /\ prev_sha256 link = sha256_hex bytes).
Proof.
  intros Hbig [(Hemp & -> & ->)|(m & bytes & Hm & Hu & Hmax & -> & ->)].
  - split_and!; [by vm_compute|set_solver|by left].
  - assert (m < u64_max) as Hlt by (apply Hbig, held_key; [done|by eexists]). rewrite u64_succ by done.
    split_and!; [unfold u64 in *; lia|intros n Hn%Hmax; lia|right]. exists bytes. by replace (m + 1 - 1) with m by lia.
Qed.

Lemma fleet_of_audit handles eligible pinned peers w w' :
  (pinned < handles)%nat -> exec (singleton_replicas handles eligible pinned) w peers w' ->
  w' = w /\ let fleet := chain_fleet handles pinned peers in
  (fleet.1 = [pinned] \/ fleet.1 = eligible_fleet handles eligible pinned)
  /\ NoDup fleet.1 /\ fleet.1 !! fleet.2 = Some pinned.
Proof.
  intros Hlt (fenced & w1 & Hc & [Hp ->])%exec_bind. apply exec_read_call in Hc as [-> _]; [|done]. split; [done|].
  assert (pinned ∈ List.seq 0 handles) as Hin by (apply elem_of_seq; lia).
  destruct (chain_fleet_spec pinned peers (List.seq 0 handles) ([], O)) as [Hfleet Hat].
  fold (chain_fleet handles pinned peers) in Hfleet, Hat. cbn [fst] in Hfleet. cbv zeta.
  split_and!; [|rewrite Hfleet; apply NoDup_filter, NoDup_seq|by apply Hat; left].
  rewrite Hfleet. destruct ((handles <=? 1)%nat || fenced); subst peers; [left|right].
  - rewrite (filter_iff_in _ (fun i => i = pinned)); [by apply filter_one; [apply NoDup_seq|]|].
    intros i _. rewrite elem_of_nil. tauto.
  - apply filter_iff_in. intros i Hi. rewrite !list_elem_of_filter. destruct (decide (i = pinned)); tauto.
Qed.

End stores.
Section properties.
Context {E : Etags} {D : Digest} {JL : Codec ChainLink}.

(** C14: an audit that appends spends a number nobody used. Whatever fails on
    the way, while no bucket's chain has reached the last 64-bit number: a
    checkpoint of a non-empty delta that landed chains onto the pin's last link
    (or opens an empty chain), was free on the bucket that arbitrated it and now
    stands there; and every bucket of the fleet either had only smaller numbers,
    also where it was ahead of the pin, or holds a rival branch and at the new
    number exactly what it held before: the link is not spliced onto it. *)
Theorem append_spends_fresh_number names rfc current jobs handles eligible pinned walk delta (w w' : world) :
  wf_world w -> (forall b n, n ∈ held_seqs (w b) -> n < u64_max) -> delta ≠ ∅ ->
  exec (write_chain_link names rfc current jobs handles eligible pinned walk delta) w true w' ->
  exists link fleet arbiter, packages link = delta
    /\ (fleet = [pinned] \/ fleet = eligible_fleet handles eligible pinned) /\ arbiter ∈ fleet
    /\ contents (w arbiter) (chain_key (seq link)) = None
    /\ contents (w' arbiter) (chain_key (seq link)) = Some (link_bytes link)
    /\ (seq link = 0 /\ prev_sha256 link = []
        \/ exists bytes, contents (w' pinned) (chain_key (seq link - 1)) = Some bytes /\ prev_sha256 link = sha256_hex bytes)
    /\ forall b, b ∈ fleet ->
         (forall n, n ∈ held_seqs (w b) -> n < seq link)
         \/ diverged w' pinned b /\ contents (w' b) (chain_key (seq link)) = contents (w b) (chain_key (seq link)).
Proof.
  intros Hw Hsmall Hdelta He. unfold write_chain_link in He.
  destruct (handles <=? pinned)%nat eqn:Hlt; [by destruct He|]. apply Nat.leb_gt in Hlt.
  apply exec_bind in He as (peers & w0 & Hp & He). apply fleet_of_audit in Hp as (-> & Hfl & Hnd & Hpin); [|done].
  set (fleet := chain_fleet handles pinned peers) in *. cbv zeta in He.
  apply exec_bind in He as (synced & w1 & Hc & He).
  destruct (exec_catch_up_fleet _ _ _ _ _ _ _ _ Hw Hnd Hpin Hc) as [Ha Hcaught]. rewrite decide_False in He by done.
  destruct synced as [|i synced]; [by destruct He|]. specialize (Hcaught ltac:(done)).
  apply exec_append with (pin := pinned) in He as (link & arbiter & Harb & Hpk & Hcont & Hnone & Hput & Hk & Hframe);
    [|by eapply advance_wf|done].
  assert (forall n, n ∈ held_seqs (w1 pinned) -> n < u64_max) as Hbig.
  { destruct Ha as (_ & _ & _ & Hb & _). by apply (Hb (fun n => n < u64_max)). }
  destruct (continues_fresh _ _ Hbig Hcont) as (Hu & Hfresh & Hprev).
  assert (contents (w arbiter) (chain_key (seq link)) = None) as Hwas.
  { destruct (contents (w arbiter) _) as [old|] eqn:Hold; [|done]. destruct Ha as (_ & _ & Hkeep & _).
    apply Hkeep in Hold. congruence. }
  exists link, fleet.1, arbiter. split_and!; [done..| |].
  - destruct Hprev as [?|(bytes & Hb & ?)]; [by left|right]. exists bytes. split; [by apply Hk|done].
  - intros b Hb. destruct (Hcaught b Hb) as [Hsub|[(n & x & y & Hx & Hy & Hne) Hout]]; [left|right].
    + intros n Hn. eapply Hfresh, Hsub, advance_held; [exact Ha|exact Hn].
    + split; [exists n, x, y; split_and!; [by apply Hk..|done]|]. rewrite (Hframe b Hout).
      destruct Ha as (_ & _ & _ & _ & Hnew). apply Hnew; [done|]. intros Hin%Hfresh. lia.
Qed.
End properties.

Definition example_append : prog bool :=
  @write_chain_link toy_digest toy_link_codec (fun _ => &"bucket") (fun _ => Some (&"t1")) true (fun _ _ _ => true) 2
    (fun _ => true) 0 (Some (0, @sha256_hex toy_digest genesis_bytes)) example_delta.

Lemma lagging_seqs b n : n ∈ @held_seqs content_etags (lagging_world b) -> n < u64_max.
Proof.
  unfold lagging_world. destruct (decide (b = 0%nat)) as [->|Hne].
  - rewrite fn_lookup_insert. intros (key & Hk & [bytes Hb])%elem_of_held. unfold contents, genesis_store in Hb.
    cbn [objects] in Hb. apply fmap_Some in Hb as (obj & [<- _]%lookup_singleton_Some & _).
    rewrite seq_from_chain_key in Hk by (by vm_compute). by injection Hk as <-.
  - rewrite fn_lookup_insert_ne by done. intros (key & _ & [bytes Hb])%elem_of_held. done.
Qed.

(** The audit of the lagging fleet lands its link. *)
Lemma append_spends_fresh_number_witness :
  exists link fleet arbiter, packages link = example_delta
    /\ (fleet = [0%nat] \/ fleet = eligible_fleet 2 (fun _ => true) 0) /\ arbiter ∈ fleet
    /\ contents (lagging_world arbiter) (chain_key (seq link)) = None
    /\ contents ((@run content_etags _ example_env lagging_world example_append).1 arbiter) (chain_key (seq link))
       = Some (@link_bytes toy_link_codec link)
    /\ (seq link = 0 /\ prev_sha256 link = []
        \/ exists bytes, contents ((@run content_etags _ example_env lagging_world example_append).1 0%nat)
             (chain_key (seq link - 1)) = Some bytes /\ prev_sha256 link = @sha256_hex toy_digest bytes)
    /\ forall b, b ∈ fleet ->
         (forall n, n ∈ @held_seqs content_etags (lagging_world b) -> n < seq link)
         \/ diverged (@run content_etags _ example_env lagging_world example_append).1 0 b
            /\ contents ((@run content_etags _ example_env lagging_world example_append).1 b) (chain_key (seq link))
               = contents (lagging_world b) (chain_key (seq link)).
Proof.
  eapply (@append_spends_fresh_number content_etags toy_digest toy_link_codec).
  - apply lagging_world_wf.
  - apply lagging_seqs.
  - done.
  - assert ((@run content_etags _ example_env lagging_world example_append).2 = true) as <- by (vm_compute; reflexivity).
    apply exec_run, example_env_good.
Defined.

End Append.
