(* ===== verification/Verify.v ===== *)
(** * Verifying the transparency chain (src/transparency.rs)

    [verify-chain] checks every bucket's chain, compares the buckets with the
    longest intact one, replays it, and asks every bucket for the files it
    commits. It writes nothing. *)
From stdpp Require Import functions.
From S2P Require Import Prelude RustStr Documents Hash Storage Replicate Fanout Jobs Range Chain Append.
Import Sidecar Storage Hash Replicate Fanout Jobs Chain Append.

Module Verify.

Definition apply_delta (state : Delta) (delta : Delta) : Delta :=
  foldl (fun st (p : str * FileShas) => if decide (p.2 = ∅) then delete p.1 st else <[p.1 := p.2]> st) state (by_key delta).
Definition replay (links : list ChainLink) : Delta := foldl (fun st l => apply_delta st (packages l)) ∅ links.

Record Violation := MkViolation { kind : str; package : str; detail : str }.

Record FingerprintChange := MkChange {
  fc_package : str; fc_filename : str; old_sha : str; new_sha : str; from_seq : Z; to_seq : Z
}.

(** [checks.chunks(n)]. *)
Fixpoint chunked {A} (fuel n : nat) (l : list A) : list (list A) :=
  match fuel, l with
  | S fuel, _ :: _ => take n l :: chunked fuel n (drop n l)
  | _, _ => []
  end.

(** What a bucket says of a committed file. *)
Inductive Presence := Match | WrongSha (actual : str) | CorruptSidecar (message : str) | Covered | Absent.

Definition seq_le (x y : Z * str) : Prop := x.1 <= y.1.
#[global] Instance seq_le_dec x y : Decision (seq_le x y).
Proof. unfold seq_le. apply _. Defined.

Section verify.
Context {D : Digest} {JL : Codec ChainLink} {JS : Codec Sidecar}.
(** The configured names, and serde's message for a sidecar it cannot parse. *)
Variables (bucket_name : nat -> str) (serde_error : str -> str).

(** ** The chain of one bucket *)

Definition row (kind detail : str) : Violation := MkViolation kind [] detail.

Fixpoint check_links (prev : option (Z * str)) (links : list Loaded) : list Violation :=
  match links with
  | [] => []
  | (n, bytes, link) :: rest =>
    (if decide (seq link = n) then []
     else [row (&"seq-mismatch") (&"link file seq " ++ decimal n ++ &" but its body says " ++ decimal (seq link))])
    ++ match prev with
       | None =>
         (if decide (prev_sha256 link = []) then []
          else [row (&"bad-genesis") (&"lowest link seq " ++ decimal n ++ &" must have an empty prev-sha256")])
         ++ (if decide (n = 0) then []
             else [row (&"bad-genesis") (&"chain starts at seq " ++ decimal n ++ &", not 0: links 0.." ++ decimal (n - 1)
                     ++ &" are missing and the chain cannot be replayed from its genesis")])
       | Some (prev_seq, prev_bytes) =>
         (if decide (n = u64_wrapping_add prev_seq 1) then []
          else [row (&"gap") (&"seq jumps from " ++ decimal prev_seq ++ &" to " ++ decimal n)])
         ++ (if decide (prev_sha256 link = sha256_hex prev_bytes) then []
             else [row (&"broken-link") (&"seq " ++ decimal n ++ &" prev-sha256 does not match seq " ++ decimal prev_seq
                     ++ &"'s bytes")])
       end
    ++ check_links (Some (n, bytes)) rest
  end.
Definition check_integrity (links : list Loaded) : list Violation := check_links None links.

Fixpoint load_links (b : nat) (entries : list (Z * str)) : prog (res (list Loaded)) :=
  match entries with
  | [] => Ret (Ok [])
  | (n, key) :: rest =>
    let*? bytes := call b (GetBytes key) in
    match decode bytes with
    | None => Ret (Err Corrupt)
    | Some link => let*? links := load_links b rest in Ret (Ok ((n, bytes, link) :: links))
    end
  end.

Definition by_seq (entries : list ObjectMeta) : list (Z * str) :=
  merge_sort seq_le
    (omap (fun o => (fun n => (n, meta_key o)) <$> seq_from_key (meta_key o)) entries).

Definition load_chain (b : nat) : prog (res (list Loaded)) :=
  let*? entries := call b (ListAll CHAIN_PREFIX) in load_links b (by_seq entries).

Definition chain_head (links : list Loaded) : option Z := at_seq <$> last links.

(** ** Changes of a committed digest *)

(** Every filename's last committed digest and its number; nothing forgets. *)
Abbreviation History := (gmap (str * str) (str * Z)).

Definition commit (n : Z) (pkg : str) (acc : History * list FingerprintChange) (file : str * str)
    : History * list FingerprintChange :=
  (<[(pkg, file.1) := (file.2, n)]> acc.1,
   acc.2 ++ match acc.1 !! (pkg, file.1) with
            | Some (old, from) => if decide (old = file.2) then [] else [MkChange pkg file.1 old file.2 from n]
            | None => []
            end).
Definition commit_link (acc : History * list FingerprintChange) (l : Loaded) : History * list FingerprintChange :=
  foldl (fun acc (p : str * FileShas) => foldl (commit (at_seq l) p.1) acc (by_key p.2)) acc (by_key (packages (link_of l))).
Definition in_chain_sha_changes (links : list Loaded) : list FingerprintChange := (foldl commit_link (∅, []) links).2.

(** ** One committed file on one bucket *)

Definition absence (sched : nat -> bool) (b : nat) (base : str) : prog (res Presence) :=
  let*? marks := try_join sched (call b (HeadExists (tombstone_key base)))
                   (call b (HeadExists (mirror_quarantined_key base))) in
  Ret (Ok (if marks.1 || marks.2 then Covered else Absent)).

Definition probe_presence (sched : nat -> bool) (b : nat) (pkg filename expected_sha : str) : prog (res Presence) :=
  let base := artifact_key pkg filename in
  let* got := call b (GetBytes (sidecar_key base)) in
  match got with
  | Ok bytes =>
    match decode bytes with
    | Some sc =>
      if decide (sha256 sc = expected_sha) then
        let*? here := call b (HeadExists base) in
        if here : bool then Ret (Ok Match) else absence sched b base
      else Ret (Ok (WrongSha (sha256 sc)))
    | None => Ret (Ok (CorruptSidecar (serde_error bytes)))
    end
  | Err e => if is_not_found e then absence sched b base else Ret (Err e)
  end.

(** ** The whole fleet *)

(** Committed files, in the order of their packages and names. *)
Definition Check : Type := str * str * str.
Definition checks_of (expected : Delta) : list Check :=
  flat_map (fun p => (fun f => (p.1, f.1, f.2)) <$> by_key p.2) (by_key expected).

Fixpoint probe_chunks (jobs : nat -> nat -> nat -> bool) (orders : nat -> nat -> bool) (b : nat) (chunks : list (list Check))
    : prog (res (list Presence)) :=
  match chunks with
  | [] => Ret (Ok [])
  | chunk :: rest =>
    let* rs := join_all (jobs O) ((fun c : Check => probe_presence (orders O) b c.1.1 c.1.2 c.2) <$> chunk) in
    match all_ok rs with
    | Err e => Ret (Err e)
    | Ok here => let*? there := probe_chunks (fun i => jobs (S i)) (fun i => orders (S i)) b rest in Ret (Ok (here ++ there))
    end
  end.

Fixpoint probe_buckets (jobs : nat -> nat -> nat -> nat -> bool) (orders : nat -> nat -> nat -> bool) (buckets : list nat)
    (checks : list Check) : prog (res (list (list Presence))) :=
  match buckets with
  | [] => Ret (Ok [])
  | b :: rest =>
    let*? here := probe_chunks (jobs O) (orders O) b (chunked (length checks) DIFF_CONCURRENCY checks) in
    let*? there := probe_buckets (fun i => jobs (S i)) (fun i => orders (S i)) rest checks in
    Ret (Ok (here :: there))
  end.

(** The rows one answer of one bucket adds. *)
Definition presence_rows (name : str) (c : Check) (p : Presence) : list (str * Violation) :=
  match p with
  | CorruptSidecar e => [(name, MkViolation (&"corrupt-sidecar") c.1.1 (c.1.2 ++ &": " ++ e))]
  | WrongSha actual => [(name, MkViolation (&"hash-changed") c.1.1
      (c.1.2 ++ &": committed " ++ c.2 ++ &" but the sidecar now holds " ++ actual))]
  | _ => []
  end.
Definition covers (p : Presence) : bool :=
  match p with Match | Covered | CorruptSidecar _ => true | _ => false end.
Definition is_absent (p : Presence) : bool := match p with Absent => true | _ => false end.

(** A committed file held nowhere and cleanly absent somewhere. *)
Definition vanished_rows (buckets : list nat) (checks : list Check) (answers : list (list Presence)) : list (str * Violation) :=
  concat (imap (fun i (c : Check) =>
    let said := (fun ps : list Presence => ps !! i) <$> answers in
    let absent_in := omap (fun x : nat * option Presence => match x.2 with Some p => if is_absent p then Some (bucket_name x.1) else None | None => None end)
                       (zip buckets said) in
    if existsb (fun o => match o with Some p => covers p | None => false end) said || bool_decide (absent_in = []) then []
    else [(join ","%char absent_in,
           MkViolation (&"vanished") c.1.1 (c.1.2 ++ &": committed file is gone with no tombstone"))]) checks).

(** The rows of all answers, bucket by bucket. *)
Definition presence_report (bs : list nat) (checks : list Check) (answers : list (list Presence)) : list (str * Violation) :=
  flat_map (fun x : nat * list Presence =>
    flat_map (fun y : Check * Presence => presence_rows (bucket_name x.1) y.1 y.2) (zip checks x.2)) (zip bs answers).

(** The position of the last greatest key: [Iterator::max_by_key]. *)
Fixpoint max_by_key {A} (key : A -> Z) (l : list A) : option A :=
  match l with
  | [] => None
  | x :: l => Some (match max_by_key key l with Some y => if key y <? key x then x else y | None => x end)
  end.

Fixpoint load_chains (buckets : list nat) : prog (res (list (list Loaded))) :=
  match buckets with
  | [] => Ret (Ok [])
  | b :: rest => let*? links := load_chain b in let*? others := load_chains rest in Ret (Ok (links :: others))
  end.

Definition tagged (name : str) (vs : list Violation) : list (str * Violation) := (fun v => (name, v)) <$> vs.

(** An intact, non-empty chain may be the reference. *)
Definition usable (links : list Loaded) : bool := bool_decide (check_integrity links = []) && bool_decide (links ≠ []).

Definition reference_of (chains : list (nat * list Loaded)) : option (nat * list Loaded) :=
  max_by_key (fun c => default 0 (chain_head c.2)) (filter (fun c => usable c.2 = true) chains).

Definition ref_shas (links : list Loaded) : gmap Z str :=
  foldl (fun m (l : Loaded) => <[at_seq l := sha256_hex (bytes_of l)]> m) ∅ links.

(** The first link of a chain that the reference contradicts. *)
Definition parts_at (shas : gmap Z str) (links : list Loaded) : option Loaded :=
  List.find (fun l : Loaded => negb (bool_decide (shas !! at_seq l = Some (sha256_hex (bytes_of l))))) links.

Definition diverged_row (reference : nat * list Loaded) (ref_head : Z) (c : nat * list Loaded) (l : Loaded) : str * Violation :=
  (bucket_name c.1, row (&"chain-diverged")
    (&"histories part at link seq " ++ decimal (at_seq l) ++ &": bucket " ++ bucket_name c.1 ++ &" holds one branch (head seq "
     ++ decimal (default 0 (chain_head c.2)) ++ &"), bucket " ++ bucket_name reference.1 ++ &" another (head seq "
     ++ decimal ref_head ++ &"). No file is implicated. Decide out of band which branch is your history — nothing merges them automatically")).

Definition prefix_rows (reference : nat * list Loaded) (ref_head : Z) (others : list (nat * list Loaded)) : list (str * Violation) :=
  omap (fun c => diverged_row reference ref_head c <$> parts_at (ref_shas reference.2) c.2) others.

Definition lagging_of (reference : nat * list Loaded) (ref_head : Z) (others : list (nat * list Loaded)) : list (str * option Z) :=
  omap (fun c => match parts_at (ref_shas reference.2) c.2 with
                 | Some _ => None
                 | None => if decide (chain_head c.2 = Some ref_head) then None else Some (bucket_name c.1, chain_head c.2)
                 end) others.

(** ** What is printed *)

Definition TAB : str := [ascii_of_nat 9].

Definition print_fingerprint_changes (changes : list FingerprintChange) (strict : bool) : list str :=
  match changes with
  | [] => []
  | _ =>
    let verdict := if strict then &"a violation under --strict" else &"NOT a violation by default — review each" in
    (&"fingerprint-changes: " ++ decimal (Z.of_nat (length changes)) ++ &" in-chain sha change(s), " ++ verdict
     ++ &". Each is EITHER a legitimate mirror->private supersede OR a forged re-commit of tampered bytes; check every one against the supersedes you expect.")
    :: ((fun c => &"fingerprint-changed" ++ TAB ++ fc_package c ++ TAB ++ fc_filename c ++ TAB ++ old_sha c ++ &" -> " ++ new_sha c
                  ++ &" (seq " ++ decimal (from_seq c) ++ &" -> " ++ decimal (to_seq c) ++ &")") <$> changes)
  end.

Definition print_violations (violations : list (str * Violation)) : list str :=
  (fun v => v.1 ++ TAB ++ kind v.2 ++ TAB ++ package v.2 ++ TAB ++ detail v.2) <$> violations.

Definition print_lagging (ref_head : Z) (lagging : list (str * option Z)) : list str :=
  (fun l : str * option Z => match l.2 with
            | Some h => &"chain-lagging" ++ TAB ++ l.1 ++ TAB ++ &"head seq " ++ decimal h ++ &" of " ++ decimal ref_head
                        ++ &" — a prefix of the longest chain (OK)"
            | None => &"chain-lagging" ++ TAB ++ l.1 ++ TAB ++ &"no chain yet; longest is seq " ++ decimal ref_head ++ &" (OK)"
            end) <$> lagging.

Definition count {A} (l : list A) : str := decimal (Z.of_nat (length l)).

(** The rows on standard output, and the verdict. *)
Definition run_verify_chain (strict : bool) (jobs : nat -> nat -> nat -> nat -> bool) (orders : nat -> nat -> nat -> bool)
    (handles : nat) : prog (res (list str * bool)) :=
  let buckets := List.seq 0 handles in
  let*? loaded := load_chains buckets in
  let chains := zip buckets loaded in
  let broken := flat_map (fun c : nat * list Loaded => tagged (bucket_name c.1) (check_integrity c.2)) chains in
  match reference_of chains with
  | None =>
    match broken with
    | [] => Ret (Ok ([&"no chain"], true))
    | _ => Ret (Ok (print_violations broken ++ [&"verify-chain: " ++ count chains
             ++ &" bucket(s), no valid chain to replay (" ++ count broken ++ &" violation(s))"], false))
    end
  | Some reference =>
    let ref_head := default 0 (chain_head reference.2) in
    let others := filter (fun c => c.1 ≠ reference.1) (filter (fun c => check_integrity c.2 = []) chains) in
    let lagging := lagging_of reference ref_head others in
    let sha_changes := in_chain_sha_changes reference.2 in
    let checks := checks_of (replay (link_of <$> reference.2)) in
    let*? answers := probe_buckets jobs orders buckets checks in
    let violations := broken ++ prefix_rows reference ref_head others ++ presence_report buckets checks answers ++ vanished_rows buckets checks answers in
    Ret (Ok (print_lagging ref_head lagging ++ print_fingerprint_changes sha_changes strict ++ print_violations violations
             ++ [&"verify-chain: " ++ count chains ++ &" bucket(s), reference bucket " ++ bucket_name reference.1 ++ &" ("
                 ++ count reference.2 ++ &" link(s), " ++ count checks ++ &" committed file(s)), " ++ count lagging ++ &" lagging, "
                 ++ count sha_changes ++ &" fingerprint-change(s), " ++ count violations ++ &" violation(s)"],
             negb (bool_decide (violations ≠ []) || (strict && bool_decide (sha_changes ≠ [])))))
  end.

(** ** Intact chains *)

(** What [check_integrity] looks for, said of the positions of a chain. *)
Definition intact (links : list Loaded) : Prop :=
  forall i l, links !! i = Some l ->
    seq (link_of l) = at_seq l
    /\ match i with
       | O => prev_sha256 (link_of l) = [] /\ at_seq l = 0
       | S j => forall k, links !! j = Some k ->
           at_seq l = u64_wrapping_add (at_seq k) 1 /\ prev_sha256 (link_of l) = sha256_hex (bytes_of k)
       end.

(** The same after a given link. *)
Definition intact_after (prev : option (Z * str)) (links : list Loaded) : Prop :=
  forall i l, links !! i = Some l ->
    seq (link_of l) = at_seq l
    /\ match (match i with O => prev | S j => fst <$> links !! j end) with
       | None => prev_sha256 (link_of l) = [] /\ at_seq l = 0
       | Some k => at_seq l = u64_wrapping_add k.1 1 /\ prev_sha256 (link_of l) = sha256_hex k.2
       end.

Lemma no_row (P : Prop) `{!Decision P} {A} (v : A) : (if decide P then [] else [v]) = [] <-> P.
Proof. by case_decide. Qed.

Lemma check_links_spec prev links : check_links prev links = [] <-> intact_after prev links.
Proof.
  revert prev. induction links as [|[[n bytes] link] links IH]; intros prev; [by split|].
  cbn [check_links]. rewrite !app_nil, no_row, (IH (Some (n, bytes))). unfold intact_after. split.
  - intros (Hs & Hp & Hr) [|i] l Hl.
    + injection Hl as <-. cbn. split; [done|]. by destruct prev as [[p pb]|]; rewrite app_nil, !no_row in Hp.
    + destruct (Hr i l Hl) as [Hseq Hi]. split; [done|]. by destruct i.
  - intros Hall. destruct (Hall O _ eq_refl) as [Hs Hp]. cbn in Hs, Hp. split_and!; [done| |].
    + by destruct prev as [[p pb]|]; rewrite app_nil, !no_row.
    + intros i l Hl. destruct (Hall (S i) l Hl) as [Hseq Hi]. split; [done|]. by destruct i.
Qed.

Lemma integrity_spec links : check_integrity links = [] <-> intact links.
Proof.
  unfold check_integrity. rewrite check_links_spec. split; intros Hall i l Hl; destruct (Hall i l Hl) as [Hs Hp];
    (split; [done|]); destruct i as [|j]; try done.
  - intros k Hk. cbn [lookup list_lookup] in Hp. rewrite Hk in Hp. exact Hp.
  - destruct (lookup_lt_is_Some_2 links j) as [k Hk]; [apply lookup_lt_Some in Hl; lia|].
    rewrite Hk. cbn. by apply Hp.
Qed.

(** Every link is what its bytes say. *)
Definition authentic (links : list Loaded) : Prop := Forall (fun l => decode (bytes_of l) = Some (link_of l)) links.

Lemma same_bytes_same_link k l :
  decode (bytes_of k) = Some (link_of k) -> decode (bytes_of l) = Some (link_of l) ->
  seq (link_of k) = at_seq k -> seq (link_of l) = at_seq l -> bytes_of k = bytes_of l -> k = l.
Proof.
  destruct k as [[n b] x], l as [[m c] y]. cbn. intros Hx Hy Hn Hm ->. assert (x = y) as -> by congruence. congruence.
Qed.

(** Two different contents with one digest. *)
Definition collision (P Q : list Loaded) : Prop :=
  exists k l, k ∈ P /\ l ∈ Q /\ bytes_of k ≠ bytes_of l /\ sha256_hex (bytes_of k) = sha256_hex (bytes_of l).

Lemma sealed_below P Q i k l :
  intact P -> intact Q -> authentic P -> authentic Q -> P !! i = Some k -> Q !! i = Some l -> bytes_of k = bytes_of l ->
  take (S i) P = take (S i) Q \/ collision P Q.
Proof.
  intros HP HQ AP AQ. unfold authentic in AP, AQ. rewrite Forall_lookup in AP, AQ.
  revert k l. induction i as [|i IH]; intros k l Hk Hl Hb;
    assert (k = l) as -> by (eapply same_bytes_same_link; [by eapply AP|by eapply AQ|by eapply HP|by eapply HQ|done]).
  - left. rewrite (take_S_r P 0 l), (take_S_r Q 0 l) by done. done.
  - destruct (lookup_lt_is_Some_2 P i) as [k' Hk']; [apply lookup_lt_Some in Hk; lia|].
    destruct (lookup_lt_is_Some_2 Q i) as [l' Hl']; [apply lookup_lt_Some in Hl; lia|].
    destruct (HP _ _ Hk) as [_ Hp]. destruct (HQ _ _ Hl) as [_ Hq].
    assert (sha256_hex (bytes_of k') = sha256_hex (bytes_of l')) as Hsha.
    { destruct (Hp _ Hk') as [_ <-]. destruct (Hq _ Hl') as [_ <-]. done. }
    destruct (decide (bytes_of k' = bytes_of l')) as [Heq|Hne].
    + destruct (IH k' l' Hk' Hl' Heq) as [Htake|]; [left|by right].
      by rewrite (take_S_r P (S i) l), (take_S_r Q (S i) l), Htake.
    + right. exists k', l'. split_and!; [by eapply list_elem_of_lookup_2..|done|done].
Qed.

(** ** Replay *)

Lemma apply_delta_lookup (st delta : Delta) pkg :
  apply_delta st delta !! pkg
  = match delta !! pkg with Some files => if decide (files = ∅) then None else Some files | None => st !! pkg end.
Proof.
  assert (forall l : list (str * FileShas), NoDup l.*1 -> forall st : Delta,
    foldl (fun st (p : str * FileShas) => if decide (p.2 = ∅) then delete p.1 st else <[p.1 := p.2]> st) st l !! pkg
    = match (list_to_map l : gmap str FileShas) !! pkg with
      | Some files => if decide (files = ∅) then None else Some files | None => st !! pkg end) as Hfold.
  { induction l as [|[k files] l IH]; intros Hnd st'; [done|]. cbn [foldl list_to_map foldr fst snd fmap list_fmap] in *.
    apply NoDup_cons in Hnd as [Hk Hnd]. rewrite IH by done. destruct (decide (k = pkg)) as [->|Hne].
    - rewrite lookup_insert_eq, (not_elem_of_list_to_map_1 (M := gmap str)) by done.
      case_decide; [by rewrite lookup_delete_eq|by rewrite lookup_insert_eq].
    - rewrite lookup_insert_ne by done. destruct (_ !! pkg); [done|].
      case_decide; [by rewrite lookup_delete_ne|by rewrite lookup_insert_ne]. }
  unfold apply_delta. rewrite Hfold by (rewrite by_key_perm; apply NoDup_fst_map_to_list).
  by rewrite (list_to_map_proper _ (map_to_list delta)), list_to_map_to_list
    by (by rewrite ?by_key_perm; try apply NoDup_fst_map_to_list).
Qed.

(** A package's last commitment. *)
Definition latest (links : list ChainLink) (pkg : str) : option FileShas := last (omap (fun l => packages l !! pkg) links).

Lemma replay_snoc links l : replay (links ++ [l]) = apply_delta (replay links) (packages l).
Proof. unfold replay. by rewrite foldl_app. Qed.

Lemma replay_lookup links pkg :
  replay links !! pkg = latest links pkg ≫= fun files => if decide (files = ∅) then None else Some files.
Proof.
  induction links as [|l links IH] using rev_ind; [done|]. rewrite replay_snoc, apply_delta_lookup, IH.
  unfold latest. rewrite omap_app. cbn [omap list_omap]. destruct (packages l !! pkg) as [files|].
  - by rewrite last_snoc.
  - by rewrite app_nil_r.
Qed.

Lemma elem_of_checks expected pkg file sha :
  (pkg, file, sha) ∈ checks_of expected <-> exists files, expected !! pkg = Some files /\ files !! file = Some sha.
Proof.
  unfold checks_of. rewrite list_elem_of_In, in_flat_map. split.
  - intros ([p files] & Hp & Hf). apply list_elem_of_In, elem_of_by_key in Hp. cbn [fst snd] in Hf.
    apply list_elem_of_In, list_elem_of_fmap in Hf as ([f x] & Heq & Hf). apply elem_of_by_key in Hf.
    cbn [fst snd] in Heq. injection Heq as -> -> ->. by exists files.
  - intros (files & Hp & Hf). exists (pkg, files). split; [by apply list_elem_of_In, elem_of_by_key|].
    apply list_elem_of_In, list_elem_of_fmap. exists (file, sha). split; [done|]. by apply elem_of_by_key.
Qed.

(** ** Changes *)

(** A commitment: its number, package, filename and digest. *)
Definition commits_of (l : Loaded) : list (Z * str * (str * str)) :=
  flat_map (fun p : str * FileShas => (fun f => (at_seq l, p.1, f)) <$> by_key p.2) (by_key (packages (link_of l))).
Definition record_commit (acc : History * list FingerprintChange) (e : Z * str * (str * str)) := commit e.1.1 e.1.2 acc e.2.

Lemma foldl_flat_map {A B C} (f : A -> B -> A) (g : C -> list B) l a :
  foldl f a (flat_map g l) = foldl (fun a x => foldl f a (g x)) a l.
Proof. revert a. induction l as [|x l IH]; intros a; [done|]. cbn [flat_map foldl]. by rewrite foldl_app, IH. Qed.

Lemma foldl_fmap {A B C} (f : A -> B -> A) (g : C -> B) (l : list C) a : foldl f a (g <$> l) = foldl (fun a x => f a (g x)) a l.
Proof. revert a. induction l as [|x l IH]; intros a; [done|]. apply IH. Qed.

Lemma changes_flat links : in_chain_sha_changes links = (foldl record_commit (∅, []) (flat_map commits_of links)).2.
Proof.
  unfold in_chain_sha_changes. rewrite foldl_flat_map. f_equal. generalize (∅ : History, [] : list FingerprintChange).
  induction links as [|l links IH]; intros acc; [done|]. cbn [foldl]. rewrite IH. f_equal.
  unfold commit_link, commits_of. rewrite foldl_flat_map. revert acc.
  induction (by_key (packages (link_of l))) as [|p ps IHp]; intros acc; [done|]. cbn [foldl]. rewrite IHp.
  by rewrite foldl_fmap.
Qed.

Lemma record_clean evs h c :
  (foldl record_commit (h, c) evs).2 = [] <->
  c = [] /\ (forall e old n, e ∈ evs -> h !! (e.1.2, e.2.1) = Some (old, n) -> old = e.2.2)
  /\ forall e e', e ∈ evs -> e' ∈ evs -> (e.1.2, e.2.1) = (e'.1.2, e'.2.1) -> e.2.2 = e'.2.2.
Proof.
  revert h c. induction evs as [|e evs IH]; intros h c; cbn [foldl].
  { cbn [snd]. split; [|by intros [? _]]. intros ->. split_and!; [done|by intros ??? ?%not_elem_of_nil|by intros ?? ?%not_elem_of_nil]. }
  change (record_commit (h, c) e) with (commit e.1.1 e.1.2 (h, c) e.2). unfold commit. cbn [fst snd].
  rewrite IH, app_nil. split.
  - intros ([-> Hnow] & Hlater & Hpair).
    assert (forall old n, h !! (e.1.2, e.2.1) = Some (old, n) -> old = e.2.2) as Hold.
    { intros old n Ho. rewrite Ho in Hnow. by apply no_row in Hnow. }
    assert (forall x, x ∈ evs -> (x.1.2, x.2.1) = (e.1.2, e.2.1) -> e.2.2 = x.2.2) as Hsame.
    { intros x Hx Hk. eapply Hlater; [done|]. rewrite Hk. apply lookup_insert_eq. }
    split_and!; [done| |].
    + intros x old n [->|Hx]%elem_of_cons Ho; [by eapply Hold|].
      destruct (decide ((x.1.2, x.2.1) = (e.1.2, e.2.1))) as [Hk|Hk].
      * rewrite Hk in Ho. rewrite <- (Hsame x Hx Hk). by eapply Hold.
      * eapply Hlater; [done|]. rewrite lookup_insert_ne; [exact Ho|congruence].
    + intros x y [->|Hx]%elem_of_cons [->|Hy]%elem_of_cons Hk; [done|by apply Hsame|symmetry; by apply Hsame|by apply Hpair].
  - intros (-> & Hold & Hpair). split_and!; [done| | |].
    + destruct (h !! _) as [[old n]|] eqn:Ho; [|done]. apply no_row. eapply Hold; [by left|done].
    + intros x old n Hx Ho. destruct (decide ((e.1.2, e.2.1) = (x.1.2, x.2.1))) as [Hk|Hk].
      * rewrite Hk, lookup_insert_eq in Ho. injection Ho as <- _. apply Hpair; [by left|by right|done].
      * rewrite lookup_insert_ne in Ho by done. eapply Hold; [by right|done].
    + intros x y Hx Hy. apply Hpair; by right.
Qed.

(** The chain commits a digest for a file of a package. *)
Definition commits (links : list Loaded) (pkg file sha : str) : Prop :=
  exists l files, l ∈ links /\ packages (link_of l) !! pkg = Some files /\ files !! file = Some sha.

Lemma elem_of_commits links pkg file sha :
  commits links pkg file sha <-> exists n, (n, pkg, (file, sha)) ∈ flat_map commits_of links.
Proof.
  split.
  - intros (l & files & Hl & Hp & Hf). exists (at_seq l). apply list_elem_of_In, in_flat_map. exists l.
    split; [by apply list_elem_of_In|]. apply in_flat_map. exists (pkg, files).
    split; [by apply list_elem_of_In, elem_of_by_key|]. apply list_elem_of_In, list_elem_of_fmap.
    exists (file, sha). split; [done|]. by apply elem_of_by_key.
  - intros (n & Hin). apply list_elem_of_In, in_flat_map in Hin as (l & Hl%list_elem_of_In & Hin).
    apply in_flat_map in Hin as ([p files] & Hp & Hin). apply list_elem_of_In, elem_of_by_key in Hp.
    apply list_elem_of_In, list_elem_of_fmap in Hin as ([f x] & Heq & Hf). apply elem_of_by_key in Hf.
    cbn [fst snd] in Heq. injection Heq as _ -> -> ->. by exists l, files.
Qed.

(** No change is reported exactly when every file was only ever committed under
    one digest. *)
Lemma changes_exact links :
  in_chain_sha_changes links = [] <->
  forall pkg file sha sha', commits links pkg file sha -> commits links pkg file sha' -> sha = sha'.
Proof.
  rewrite changes_flat, record_clean. split.
  - intros (_ & _ & Hpair) pkg file sha sha' (n & Hn)%elem_of_commits (n' & Hn')%elem_of_commits.
    by apply (Hpair _ _ Hn Hn').
  - intros Hall. split_and!; [done| |].
    + intros e old n _ Ho. by rewrite lookup_empty in Ho.
    + intros [[n pkg] [file sha]] [[n' pkg'] [file' sha']] He He' Hk. cbn [fst snd] in *. injection Hk as <- <-.
      eapply Hall; apply elem_of_commits; eauto.
Qed.

(** ** What the reads say *)

Context {E : Etags}.

Definition load_one (s : store) (e : Z * str) : option Loaded :=
  let! bytes := contents s e.2 in
  let! link := decode bytes in
  Some (e.1, bytes, link).

(** The chain a bucket holds. *)
Definition chain_in (s : store) : option (list Loaded) := mapM (load_one s) (by_seq (list_all CHAIN_PREFIX s)).

Lemma exec_load_links b entries w links w' :
  exec (load_links b entries) w (Ok links) w' -> w' = w /\ mapM (load_one (w b)) entries = Some links.
Proof.
  revert links w'. induction entries as [|[n key] entries IH]; intros links w' He; cbn [load_links] in He.
  { by apply exec_answer in He as [-> ->]. }
  apply exec_ok in He as (bytes & w1 & Hg & He). apply exec_read_call in Hg as [-> Hg]; [|done].
  destruct (decode bytes) as [link|] eqn:Hd; [|by destruct He].
  apply exec_ok in He as (rest & w1 & Hr & He). apply IH in Hr as [-> Hr]. apply exec_answer in He as [-> ->].
  split; [done|]. apply mapM_Some in Hr. apply mapM_Some. constructor; [|done]. unfold load_one. cbn [fst snd].
  rewrite (get_bytes_answer _ _ _ _ _ Hg eq_refl). cbn [mbind option_bind]. by rewrite Hd.
Qed.

Lemma exec_load_chain b w links w' : exec (load_chain b) w (Ok links) w' -> w' = w /\ chain_in (w b) = Some links.
Proof.
  intros (entries & w1 & Hl & He)%exec_ok. apply exec_read_call in Hl as [-> Hl]; [|done].
  rewrite (list_all_answer _ _ _ _ _ Hl eq_refl) in He. by apply exec_load_links in He.
Qed.

Lemma exec_load_chains bs w ls w' :
  exec (load_chains bs) w (Ok ls) w' -> w' = w /\ Forall2 (fun b links => chain_in (w b) = Some links) bs ls.
Proof.
  revert ls w'. induction bs as [|b bs IH]; intros ls w' He; cbn [load_chains] in He.
  { apply exec_answer in He as [-> ->]. by split; [|constructor]. }
  apply exec_ok in He as (links & w1 & Hl & He). apply exec_load_chain in Hl as [-> Hl].
  apply exec_ok in He as (rest & w1 & Hr & He). apply IH in Hr as [-> Hr]. apply exec_answer in He as [-> ->].
  by split; [|constructor].
Qed.

Lemma chain_in_authentic s links : chain_in s = Some links -> authentic links.
Proof.
  unfold chain_in, authentic. intros Hm%mapM_Some. induction Hm as [|e l es ls Hl _ IH]; constructor; [|exact IH].
  revert Hl. unfold load_one. destruct (contents s e.2) as [bytes|]; [|done]. cbn [mbind option_bind].
  destruct (decode bytes) as [link|] eqn:Hd; [|done]. cbn [mbind option_bind]. by intros [= <-].
Qed.

(** No sidecar of the bucket contradicts the commitment. *)
Definition untampered (s : store) (c : Check) : Prop :=
  forall bytes, contents s (sidecar_key (artifact_key c.1.1 c.1.2)) = Some bytes ->
  exists sc, decode bytes = Some sc /\ sha256 sc = c.2.

(** The bucket has the file as committed, or a marker that authorizes its
    absence. *)
Definition accounted (s : store) (c : Check) : Prop :=
  let base := artifact_key c.1.1 c.1.2 in
  (exists bytes sc, contents s (sidecar_key base) = Some bytes /\ decode bytes = Some sc /\ sha256 sc = c.2 /\ present s base)
  \/ present s (tombstone_key base) \/ present s (mirror_quarantined_key base).

Definition tells_truth (s : store) (c : Check) (p : Presence) : Prop :=
  match p with
  | Match => untampered s c /\ accounted s c
  | Covered => untampered s c /\ accounted s c
  | Absent => untampered s c
  | _ => True
  end.

Lemma exec_absence sched b base w p w' :
  exec (absence sched b base) w (Ok p) w' ->
  p = Absent \/ p = Covered /\ (present (w b) (tombstone_key base) \/ present (w b) (mirror_quarantined_key base)).
Proof.
  intros (marks & w1 & Hm & He)%exec_ok. apply exec_try_join_reads in Hm as (-> & H1 & H2); [|done..].
  apply exec_answer in He as [-> _]. apply head_exists_answer with (c := marks.1) in H1; [|done].
  apply head_exists_answer with (c := marks.2) in H2; [|done]. destruct marks as [[] []]; cbn [fst snd orb] in *.
  1-3: right; split; [done|]; tauto. by left.
Qed.

Lemma exec_probe sched b (c : Check) w p w' :
  exec (probe_presence sched b c.1.1 c.1.2 c.2) w (Ok p) w' -> tells_truth (w b) c p.
Proof.
  intros He. unfold probe_presence in He. cbv zeta in He. apply exec_bind in He as (got & w1 & Hg & He).
  apply exec_read_call in Hg as [-> Hg]; [|done]. set (base := artifact_key c.1.1 c.1.2) in *.
  assert (untampered (w b) c -> forall q, q = Absent \/ q = Covered
    /\ (present (w b) (tombstone_key base) \/ present (w b) (mirror_quarantined_key base)) -> tells_truth (w b) c q) as Habs.
  { intros Hu q [->|[-> Hm]]; [done|]. split; [done|]. by right. }
  destruct got as [bytes|e].
  - pose proof (get_bytes_answer _ _ _ _ _ Hg eq_refl) as Hb. destruct (decode bytes) as [sc|] eqn:Hd.
    2:{ by apply exec_answer in He as [-> _]. }
    case_decide as Hsha; [|by apply exec_answer in He as [-> _]].
    assert (untampered (w b) c) as Hu.
    { intros bytes' Hb'. fold base in Hb'. exists sc. split; [congruence|done]. }
    apply exec_ok in He as (here & w1 & Hh & He). apply exec_read_call in Hh as [-> Hh]; [|done].
    apply head_exists_answer with (c := here) in Hh; [|done]. destruct here.
    + apply exec_answer in He as [-> _]. split; [done|]. left. exists bytes, sc. split_and!; [done..|]. by apply Hh.
    + apply Habs; [done|]. by eapply exec_absence.
  - destruct (is_not_found e) eqn:Hnf; [|by destruct He]. apply bool_decide_eq_true in Hnf as ->.
    pose proof (get_bytes_not_found _ _ _ _ Hg eq_refl) as Hn. apply Habs; [|by eapply exec_absence].
    intros bytes Hb. fold base in Hb. congruence.
Qed.

Lemma guar_absence sched b base : guar reads (fun _ => True) (absence sched b base).
Proof.
  eapply (guar_bind_ok _ _ _ (fun _ => True)); [|done|done]. eapply (guar_bind _ _ _ (fun _ => True)); [|done].
  eapply guar_mono; [|apply (guar_pair _ _ _ (fun _ => True) (fun _ => True))]; [done|by apply guar_call..].
Qed.

Lemma guar_probe sched b pkg file sha : guar reads (fun _ => True) (probe_presence sched b pkg file sha).
Proof.
  unfold probe_presence. cbv zeta. apply guar_call_bind; [done|]. intros [bytes|e] _.
  - destruct (decode bytes) as [sc|]; [|done]. case_decide; [|done]. apply guar_call_ok; [done| |done].
    intros [] _; [done|apply guar_absence].
  - case_match; [apply guar_absence|done].
Qed.

Lemma all_ok_answers {A} (rs : list (res A)) xs : all_ok rs = Ok xs -> Forall2 (fun r x => r = Ok x) rs xs.
Proof.
  revert xs. induction rs as [|r rs IH]; intros xs Hok; cbn [all_ok] in Hok; [injection Hok as <-; constructor|].
  destruct r as [x|e]; [|done]. cbn [rbind] in Hok. destruct (all_ok rs) as [ys|e]; [|done]. injection Hok as <-.
  constructor; [done|]. by apply IH.
Qed.

Lemma exec_probe_chunks jobs orders b chunks w ps w' :
  wf_world w -> exec (probe_chunks jobs orders b chunks) w (Ok ps) w' ->
  w' = w /\ Forall2 (tells_truth (w b)) (concat chunks) ps.
Proof.
  intros Hw. revert jobs orders ps w'. induction chunks as [|chunk chunks IH]; intros jobs orders ps w' He; cbn [probe_chunks] in He.
  { apply exec_answer in He as [-> ->]. by split; [|constructor]. }
  apply exec_bind in He as (rs & w1 & Hj & He). apply exec_join_reads in Hj as [-> Hj]; [|done|].
  2:{ apply Forall_fmap, Forall_forall. intros c _. apply guar_probe. }
  destruct (all_ok rs) as [here|e] eqn:Hall; [|by destruct He]. apply all_ok_answers in Hall.
  apply exec_ok in He as (there & w1 & Hr & He). apply IH in Hr as [-> Hr]. apply exec_answer in He as [-> ->].
  split; [done|]. cbn [concat]. apply Forall2_app; [|done]. rewrite Forall2_fmap_l in Hj.
  clear IH Hr. revert here Hall. induction Hj as [|c r cs rs Hc _ IH]; intros here Hall; inversion Hall; subst; constructor.
  - by eapply exec_probe.
  - by apply IH.
Qed.

Lemma concat_chunked {A} fuel n (l : list A) : (0 < n)%nat -> (length l <= fuel)%nat -> concat (chunked fuel n l) = l.
Proof.
  intros Hn. revert l. induction fuel as [|fuel IH]; intros [|x l] Hl; [done|simpl in Hl; lia|done|].
  cbn [chunked concat]. rewrite IH; [apply take_drop|]. rewrite length_drop. simpl in *. lia.
Qed.

Lemma exec_probe_buckets jobs orders bs checks w answers w' :
  wf_world w -> exec (probe_buckets jobs orders bs checks) w (Ok answers) w' ->
  w' = w /\ Forall2 (fun b ps => Forall2 (tells_truth (w b)) checks ps) bs answers.
Proof.
  intros Hw. revert jobs orders answers w'. induction bs as [|b bs IH]; intros jobs orders answers w' He; cbn [probe_buckets] in He.
  { apply exec_answer in He as [-> ->]. by split; [|constructor]. }
  apply exec_ok in He as (here & w1 & Hh & He). apply exec_probe_chunks in Hh as [-> Hh]; [|done].
  rewrite concat_chunked in Hh by (unfold DIFF_CONCURRENCY; lia).
  apply exec_ok in He as (there & w1 & Hr & He). apply IH in Hr as [-> Hr]. apply exec_answer in He as [-> ->].
  by split; [|constructor].
Qed.

(** ** What an empty report says *)

Lemma flat_map_nil {A B} (f : A -> list B) l : flat_map f l = [] <-> forall x, x ∈ l -> f x = [].
Proof.
  induction l as [|x l IH]; [split; [by intros _ ? ?%not_elem_of_nil|done]|]. cbn [flat_map]. rewrite app_nil, IH. split.
  - intros [Hx Hl] y [->|Hy]%elem_of_cons; auto.
  - intros Hall. split; [apply Hall; by left|intros y Hy; apply Hall; by right].
Qed.

Lemma omap_nil {A B} (f : A -> option B) l : omap f l = [] -> forall x, x ∈ l -> f x = None.
Proof.
  intros Hn x Hx. destruct (f x) as [y|] eqn:Hf; [|done]. exfalso. apply (not_elem_of_nil y). rewrite <- Hn.
  apply list_elem_of_omap. by exists x.
Qed.

Lemma no_presence_row name c p s :
  presence_rows name c p = [] -> tells_truth s c p -> untampered s c /\ (covers p = true -> accounted s c)
  /\ (covers p = false -> is_absent p = true).
Proof. destruct p; cbn; intros Hr Ht; try done; naive_solver. Qed.

Lemma no_vanished bs checks answers i c :
  vanished_rows bs checks answers = [] -> checks !! i = Some c -> length answers = length bs ->
  Forall (fun ps => is_Some (ps !! i)) answers -> bs ≠ [] ->
  exists j ps p, answers !! j = Some ps /\ ps !! i = Some p /\ (covers p = true \/ is_absent p = false).
Proof.
  unfold vanished_rows. intros Hv Hc Hlen Hall Hne. set (f := fun i c => _) in Hv.
  assert (f i c = []) as Hf.
  { assert (f i c ∈ imap f checks) as Hin.
    { apply elem_of_lookup_imap. by exists i, c. }
    apply concat_nil_Forall in Hv. rewrite Forall_forall in Hv. by apply Hv. }
  unfold f in Hf. cbv zeta in Hf. set (said := _ <$> answers) in Hf.
  destruct (existsb _ said) eqn:Hex; cbn [orb] in Hf.
  - apply existsb_exists in Hex as (o & Ho & Hcov). apply list_elem_of_In, list_elem_of_fmap in Ho as (ps & -> & Hps).
    apply list_elem_of_lookup_1 in Hps as [j Hj]. destruct (ps !! i) as [p|] eqn:Hp; [|done]. exists j, ps, p. auto.
  - destruct (bool_decide _) eqn:Hb; [|done]. apply bool_decide_eq_true in Hb.
    destruct bs as [|b bs]; [done|]. destruct answers as [|ps answers]; [done|]. inversion Hall as [|?? [p Hp] _]; subst.
    exists O, ps, p. split_and!; [done|done|right]. destruct (is_absent p) eqn:Ha; [|done]. exfalso.
    unfold said in Hb. cbn [fmap list_fmap zip zip_with omap list_omap snd fst] in Hb. by rewrite Hp, Ha in Hb.
Qed.

Lemma max_by_key_elem {A} (key : A -> Z) l x : max_by_key key l = Some x -> x ∈ l.
Proof.
  revert x. induction l as [|y l IH]; intros x; [done|]. cbn [max_by_key]. destruct (max_by_key key l) as [z|].
  - intros [= <-]. specialize (IH z eq_refl). case_match; [by left|by right].
  - intros [= <-]. by left.
Qed.

Lemma max_by_key_none {A} (key : A -> Z) l : max_by_key key l = None -> l = [].
Proof. by destruct l. Qed.

Lemma ref_shas_lookup links n sha :
  ref_shas links !! n = Some sha -> exists l, l ∈ links /\ at_seq l = n /\ sha256_hex (bytes_of l) = sha.
Proof.
  induction links as [|l links IH] using rev_ind; [done|]. unfold ref_shas. rewrite foldl_app. cbn [foldl].
  rewrite lookup_insert_Some. intros [[Hn Hs]|[_ Hl]].
  - exists l. split_and!; [apply elem_of_app; right; by left|done|done].
  - apply IH in Hl as (k & Hk & Hn). exists k. split; [apply elem_of_app; by left|done].
Qed.

Lemma no_parting shas links : parts_at shas links = None -> forall l, l ∈ links -> shas !! at_seq l = Some (sha256_hex (bytes_of l)).
Proof.
  intros Hf l Hl%list_elem_of_In. pose proof (List.find_none _ _ Hf l Hl) as Hn. cbn in Hn.
  apply negb_false_iff, bool_decide_eq_true in Hn. exact Hn.
Qed.

Lemma files_accounted (w : world) bs checks answers c :
  Forall2 (fun b ps => Forall2 (tells_truth (w b)) checks ps) bs answers ->
  presence_report bs checks answers = [] -> vanished_rows bs checks answers = [] -> bs ≠ [] -> c ∈ checks ->
  (forall b, b ∈ bs -> untampered (w b) c) /\ exists b, b ∈ bs /\ accounted (w b) c.
Proof.
  intros Ht Hrows Hvan Hne [i Hi]%list_elem_of_lookup_1.
  assert (forall j b ps p, bs !! j = Some b -> answers !! j = Some ps -> ps !! i = Some p ->
    untampered (w b) c /\ (covers p = true -> accounted (w b) c) /\ (covers p = false -> is_absent p = true)) as Hsaid.
  { intros j b ps p Hb Hps Hp. eapply (no_presence_row (bucket_name b)).
    - unfold presence_report in Hrows. rewrite flat_map_nil in Hrows.
      assert ((b, ps) ∈ zip bs answers) as Hz by (apply elem_of_lookup_zip_with; by exists j, b, ps).
      specialize (Hrows _ Hz). cbn [fst snd] in Hrows. rewrite flat_map_nil in Hrows.
      apply (Hrows (c, p)), elem_of_lookup_zip_with. by exists i, c, p.
    - pose proof (Forall2_lookup_lr _ _ _ _ _ _ Ht Hb Hps) as Hbp. by apply (Forall2_lookup_lr _ _ _ _ _ _ Hbp Hi Hp). }
  assert (forall j b, bs !! j = Some b -> exists ps p, answers !! j = Some ps /\ ps !! i = Some p) as Hget.
  { intros j b Hb. destruct (Forall2_lookup_l _ _ _ _ _ Ht Hb) as (ps & Hps & Hbp).
    destruct (Forall2_lookup_l _ _ _ _ _ Hbp Hi) as (p & Hp & _). by exists ps, p. }
  split.
  - intros b [j Hj]%list_elem_of_lookup_1. destruct (Hget j b Hj) as (ps & p & Hps & Hp). by eapply Hsaid.
  - destruct (no_vanished bs checks answers i c) as (j & ps & p & Hps & Hp & Hor); [done|done|by apply Forall2_length in Ht| |done|].
    { apply Forall_lookup. intros j ps Hps. destruct (Forall2_lookup_r _ _ _ _ _ Ht Hps) as (b & Hb & _).
      destruct (Hget j b Hb) as (ps' & p & Hps' & Hp). simplify_eq. by exists p. }
    destruct (Forall2_lookup_r _ _ _ _ _ Ht Hps) as (b & Hb & _). exists b. split; [by eapply list_elem_of_lookup_2|].
    destruct (Hsaid j b ps p Hb Hps Hp) as (_ & Hcov & Habs). destruct (covers p) eqn:Hc; [by apply Hcov|].
    destruct Hor as [|Hor]; [done|]. rewrite Habs in Hor; done.
Qed.

(** A bucket's chain is intact, and agrees with the reference on every number
    it has. *)
Definition agrees_with (links : list Loaded) (s : store) : Prop :=
  exists mine, chain_in s = Some mine /\ intact mine
    /\ forall l, l ∈ mine -> exists k, k ∈ links /\ at_seq k = at_seq l /\ sha256_hex (bytes_of k) = sha256_hex (bytes_of l).

Lemma chains_agree (w : world) bs loaded r links ref_head :
  Forall2 (fun b links => chain_in (w b) = Some links) bs loaded ->
  flat_map (fun c : nat * list Loaded => tagged (bucket_name c.1) (check_integrity c.2)) (zip bs loaded) = [] ->
  NoDup bs -> (r, links) ∈ zip bs loaded ->
  prefix_rows (r, links) ref_head (filter (fun c => c.1 ≠ r) (filter (fun c => check_integrity c.2 = []) (zip bs loaded))) = [] ->
  forall b, b ∈ bs -> agrees_with links (w b).
Proof.
  intros Hl Hbroken Hnd Hr Hpre b [j Hj]%list_elem_of_lookup_1.
  destruct (Forall2_lookup_l _ _ _ _ _ Hl Hj) as (mine & Hmine & Hin).
  assert ((b, mine) ∈ zip bs loaded) as Hz by (apply elem_of_lookup_zip_with; by exists j, b, mine).
  assert (check_integrity mine = []) as Hint.
  { rewrite flat_map_nil in Hbroken. specialize (Hbroken _ Hz). cbn [fst snd] in Hbroken. unfold tagged in Hbroken.
    by apply fmap_nil_inv in Hbroken. }
  exists mine. split_and!; [done|by apply integrity_spec|]. intros l Hlin. destruct (decide (b = r)) as [->|Hne].
  - apply elem_of_lookup_zip_with in Hr as (j' & r' & links' & [= -> ->] & Hj' & Hlinks).
    assert (j' = j) as -> by (by eapply NoDup_lookup). simplify_eq. by exists l.
  - apply omap_nil with (x := (b, mine)) in Hpre; [|by rewrite !list_elem_of_filter].
    apply fmap_None in Hpre. cbn [snd] in Hpre.
    by apply ref_shas_lookup, (no_parting _ _ Hpre).
Qed.

Lemma no_reference (w : world) bs loaded :
  Forall2 (fun b links => chain_in (w b) = Some links) bs loaded -> reference_of (zip bs loaded) = None ->
  flat_map (fun c : nat * list Loaded => tagged (bucket_name c.1) (check_integrity c.2)) (zip bs loaded) = [] ->
  forall b, b ∈ bs -> chain_in (w b) = Some [].
Proof.
  intros Hl Href Hbroken b [j Hj]%list_elem_of_lookup_1.
  destruct (Forall2_lookup_l _ _ _ _ _ Hl Hj) as (mine & Hmine & Hin).
  assert ((b, mine) ∈ zip bs loaded) as Hz by (apply elem_of_lookup_zip_with; by exists j, b, mine).
  rewrite flat_map_nil in Hbroken. specialize (Hbroken _ Hz). cbn [fst snd] in Hbroken. apply fmap_nil_inv in Hbroken.
  destruct mine as [|l mine]; [done|]. exfalso. apply max_by_key_none in Href.
  apply (not_elem_of_nil (b, l :: mine)). rewrite <- Href. apply list_elem_of_filter. split; [|done]. cbn [snd].
  unfold usable. by rewrite bool_decide_true, bool_decide_true.
Qed.

(** ** Properties *)

(** C15: a chain that verifies seals its past. Two chains that pass the integrity
    check and hold the same bytes at one position are the same link for link up
    to there, or exhibit two different contents with the same SHA-256. *)
Theorem history_is_sealed P Q i k l :
  check_integrity P = [] -> check_integrity Q = [] -> authentic P -> authentic Q ->
  P !! i = Some k -> Q !! i = Some l -> bytes_of k = bytes_of l -> take (S i) P = take (S i) Q \/ collision P Q.
Proof. rewrite !integrity_spec. apply sealed_below. Qed.

(** C16: a clean verdict means what it says, and reading is all it does. Either
    no bucket has a chain; or one bucket's intact chain is the reference, every
    bucket's chain is intact and agrees with it wherever it has a link, and for
    every file of every package's last commitment no bucket's sidecar
    contradicts the committed digest, and some bucket holds the file as
    committed or a marker that authorizes its absence. Under [--strict], no file
    was ever committed under two digests. *)
Theorem clean_verdict strict jobs orders handles (w w' : world) out :
  wf_world w -> exec (run_verify_chain strict jobs orders handles) w (Ok (out, true)) w' ->
  w' = w /\ ((forall b, (b < handles)%nat -> chain_in (w b) = Some [])
    \/ exists r links, (r < handles)%nat /\ chain_in (w r) = Some links /\ intact links
        /\ (forall b, (b < handles)%nat -> agrees_with links (w b))
        /\ (forall pkg files file sha, latest (link_of <$> links) pkg = Some files -> files !! file = Some sha ->
             (forall b, (b < handles)%nat -> untampered (w b) (pkg, file, sha))
             /\ exists b, (b < handles)%nat /\ accounted (w b) (pkg, file, sha))
        /\ (strict = true -> forall pkg file sha sha',
             commits links pkg file sha -> commits links pkg file sha' -> sha = sha')).
Proof.
  intros Hw He. unfold run_verify_chain in He. cbv zeta in He. set (bs := List.seq 0 handles) in He.
  assert (forall b, (b < handles)%nat <-> b ∈ bs) as Hbs by (intros b; unfold bs; rewrite elem_of_seq; lia).
  apply exec_ok in He as (loaded & w1 & Hl & He). apply exec_load_chains in Hl as [-> Hl].
  destruct (reference_of (zip bs loaded)) as [[r links]|] eqn:Href.
  2:{ destruct (flat_map _ _) as [|v vs] eqn:Hbroken; [|by destruct He]. destruct He as [_ ->].
      split; [done|]. left. intros b Hb%Hbs. by eapply no_reference. }
  apply exec_ok in He as (answers & w1 & Hp & He). apply exec_probe_buckets in Hp as [-> Hp]; [|done].
  destruct He as [[= _ Hv] ->]. split; [done|right]. cbn [fst snd] in *. symmetry in Hv.
  apply negb_true_iff, orb_false_iff in Hv as [Hv Hstrict]. apply bool_decide_eq_false, dec_stable in Hv.
  apply app_nil in Hv as [Hbroken Hv]. apply app_nil in Hv as [Hpre Hv]. apply app_nil in Hv as [Hrows Hvan].
  apply max_by_key_elem, list_elem_of_filter in Href as [Huse Hr]. unfold usable in Huse. cbn [snd] in Huse.
  apply andb_true_iff in Huse as [Hint _]. apply bool_decide_eq_true in Hint.
  pose proof Hr as (j & r' & links' & [= -> ->] & Hj & Hlinks)%elem_of_lookup_zip_with.
  exists r', links'. assert (r' ∈ bs) as Hrb by (by eapply list_elem_of_lookup_2). split_and!.
  - by apply Hbs.
  - by apply (Forall2_lookup_lr _ _ _ _ _ _ Hl Hj Hlinks).
  - by apply integrity_spec.
  - intros b Hb%Hbs. eapply chains_agree; [exact Hl|exact Hbroken|apply NoDup_seq|exact Hr|exact Hpre|done].
  - intros pkg files file sha Hlast Hfile.
    destruct (files_accounted w bs _ answers (pkg, file, sha) Hp Hrows Hvan) as [Hun (b & Hb & Hacc)].
    + intros Hnil. rewrite Hnil in Hrb. by apply not_elem_of_nil in Hrb.
    + apply elem_of_checks. exists files. split; [|done]. rewrite replay_lookup, Hlast. cbn [mbind option_bind].
      rewrite decide_False; [done|]. intros ->. done.
    + split; [intros b' Hb'%Hbs; by apply Hun|]. exists b. split; [by apply Hbs|done].
  - intros ->. cbn [andb] in Hstrict. apply bool_decide_eq_false, dec_stable in Hstrict. by apply changes_exact.
Qed.

End verify.

(** ** Examples *)

Definition loaded (l : ChainLink) : Loaded := (seq l, @encode _ toy_link_codec l, l).
Definition second_link : ChainLink := MkLink 1 (@sha256_hex toy_digest genesis_bytes) (&"t1") example_delta.
Definition rival_link : ChainLink := MkLink 1 (@sha256_hex toy_digest genesis_bytes) (&"t2") ∅.

(** A chain and its fork share the link before the fork. *)
Lemma history_is_sealed_witness :
  take 1 [loaded genesis_link; loaded second_link] = take 1 [loaded genesis_link; loaded rival_link]
  \/ @collision toy_digest [loaded genesis_link; loaded second_link] [loaded genesis_link; loaded rival_link].
Proof.
  eapply (@history_is_sealed toy_digest toy_link_codec _ _ 0).
  - by vm_compute.
  - by vm_compute.
  - apply Forall_cons. split; [|apply Forall_singleton]; apply decode_encode.
  - apply Forall_cons. split; [|apply Forall_singleton]; apply decode_encode.
  - reflexivity.
  - reflexivity.
  - reflexivity.
Defined.

(** A bucket with the genesis link and the file it commits. *)
Definition committed_sidecar : Sidecar :=
  MkSidecar (&"00") 1 (&"1") (&"t0") None None (Flag false) None 0 0 false None.
Definition put (key bytes : str) (s : store) : store := MkStore (<[key := MkObject bytes bytes None]> (objects s)) (writes s).
Definition audited_store : store :=
  put (artifact_key (&"requests") (&"a.whl")) (&"x")
    (put (sidecar_key (artifact_key (&"requests") (&"a.whl"))) (@encode _ toy_sidecar_codec committed_sidecar) genesis_store).
Definition audited_world : world := <[0%nat := audited_store]> empty_world.

Lemma audited_world_wf : @wf_world content_etags audited_world.
Proof.
  intros b. unfold audited_world. destruct (decide (b = 0%nat)) as [->|Hne].
  - rewrite fn_lookup_insert. intros key obj. unfold audited_store, put, genesis_store. cbn [objects].
    rewrite !lookup_insert_Some. intros [[_ <-]|[_ [[_ <-]|[_ [_ <-]%lookup_singleton_Some]]]]; by exists O.
  - rewrite fn_lookup_insert_ne by done. apply (@empty_world_wf content_etags).
Qed.

Definition example_verify : prog (res (list str * bool)) :=
  @run_verify_chain toy_digest toy_link_codec toy_sidecar_codec (fun _ => &"bucket") (fun _ => &"bad") true
    (fun _ _ _ _ => true) (fun _ _ _ => true) 1.
Definition example_report : list str :=
  match (@run content_etags _ example_env audited_world example_verify).2 with Ok (out, _) => out | Err _ => [] end.

(** The audited bucket verifies, so the committed file is accounted for. *)
Lemma clean_verdict_witness : @accounted toy_sidecar_codec (audited_world 0%nat) (&"requests", &"a.whl", &"00").
Proof.
  destruct (@clean_verdict toy_digest toy_link_codec toy_sidecar_codec (fun _ => &"bucket") (fun _ => &"bad") content_etags
              true (fun _ _ _ _ => true) (fun _ _ _ => true) 1 audited_world
              (@run content_etags _ example_env audited_world example_verify).1 example_report)
    as [_ [Hempty|(r & links & Hr & Hchain & _ & _ & Hfiles & _)]].
  - apply audited_world_wf.
  - assert ((@run content_etags _ example_env audited_world example_verify).2 = Ok (example_report, true)) as <-
      by (vm_compute; reflexivity).
    apply exec_run, example_env_good.
  - specialize (Hempty O ltac:(lia)). exfalso. revert Hempty. vm_compute. discriminate.
  - assert (r = O) as -> by lia. destruct (Hfiles (&"requests") {[&"a.whl" := &"00"]} (&"a.whl") (&"00")) as [_ (b & Hb & Hacc)].
    + assert (links = [loaded genesis_link]) as ->; [|by vm_compute].
      assert (@chain_in toy_link_codec content_etags (audited_world 0%nat) = Some [loaded genesis_link]) as Hc by (by vm_compute). congruence.
    + apply lookup_singleton_eq.
    + assert (b = O) as -> by lia. exact Hacc.
Defined.

End Verify.
