(* ===== verification/Osv.v ===== *)
(** * Advisories: parsing and matching (src/osv.rs)

    The OSV export is read into a malware block set, an audit index and the
    security fixes. The zip, JSON, PEP 440 and RFC 3339 readers are crates:
    [Zip], [Codec], [Pep440] and [Clock]. Instants are nanoseconds. *)
From S2P Require Import Prelude RustStr Pep440 Names Documents.
Import Names.

Module Osv.

Definition MAX_ENTRY_BYTES : Z := 8 * 1024 * 1024.
Definition MAX_FEED_MEMBERS : Z := 100000.
Definition PYPI_ECOSYSTEM : str := &"PyPI".
Definition MAX_WATERMARK_SKEW : Z := 3600 * 10 ^ 9.
Definition MAX_SUMMARY_BYTES : nat := 512.
Definition MAX_SEVERITY_BYTES : nat := 256.
Definition MAX_ID_BYTES : nat := 128.
Definition MAX_CLAUSES_PER_ADVISORY : nat := Z.to_nat 1000.

(** A member of an archive: its name, if it has a readable one, and its first
    [n] bytes, if they can be read. *)
Record ZipEntry := MkZipEntry { entry_name : option str; entry_read : Z -> option str }.
(** [zip::ZipArchive]: the members by index, a broken one as [None]. *)
Class Zip := { open_zip : str -> option (list (option ZipEntry)) }.
(** [time::OffsetDateTime]: its RFC 3339 parser and its range. *)
Class Clock := { parse_rfc3339 : str -> option Z; dt_min : Z; dt_max : Z }.

(** ** The wire format *)

Record OsvEvent := MkEvent { introduced : option str; fixed : option str }.
Record OsvRange := MkRange { range_kind : str; events : list OsvEvent }.
Record OsvPackage := MkPackage { ecosystem : str; pkg_name : str }.
Record OsvAffected := MkAffected { package : OsvPackage; ranges : list OsvRange; versions : list str }.
Record OsvSeverity := MkSeverity { score : str }.
Record OsvDatabaseSpecific := MkDatabaseSpecific { db_severity : option str }.
Record OsvAdvisory := MkAdvisory {
  adv_id : str;
  adv_summary : str;
  modified : option str;
  withdrawn : option str;
  affected : list OsvAffected;
  severities : list OsvSeverity;
  database_specific : OsvDatabaseSpecific
}.

Section osv.
Context {P : Pep440} {C : Clock}.

Inductive VersionScope :=
  | AllVersions
  | Exact (versions : list str)
  | Ranges (ranges : list (Version * option Version)).

Record MalRule := MkMalRule { mal_id : str; scope : VersionScope }.
Record AdvisoryRecord := MkRecord {
  rec_id : str; rec_summary : str; rec_severity : str; fixed_in : list str; matcher : VersionScope
}.
Record FixRule := MkFixRule { fix_id : str; fix_version : Version; fix_at : Z }.

Record AdvisoryDb := MkDb {
  block : gmap str (list MalRule);
  audit : gmap str (list AdvisoryRecord);
  fixes : gmap str (list FixRule);
  watermark : option Z
}.
Definition empty_db : AdvisoryDb := MkDb ∅ ∅ ∅ None.

Definition block_names (db : AdvisoryDb) : nat := size (block db).
Definition audit_records (db : AdvisoryDb) : nat := map_fold (fun _ l n => (length l + n)%nat) O (audit db).
Definition audit_has_name (db : AdvisoryDb) (name_norm : str) : bool := bool_decide (is_Some (audit db !! name_norm)).

(** ** Matching *)

Definition same_version (a b : Version) : bool := match cmp a b with Eq => true | _ => false end.

Definition version_eq (a b : str) : bool :=
  match parse_version a, parse_version b with
  | Some va, Some vb => same_version va vb
  | _, _ => bool_decide (a = b)
  end.

Definition in_range (v : Version) (range : Version * option Version) : bool :=
  leb range.1 v && match range.2 with Some f => negb (leb f v) | None => true end.

Definition scope_matches (s : VersionScope) (version : str) : bool :=
  match s with
  | AllVersions => true
  | Exact versions =>
    match parse_version version with
    | Some _ => existsb (fun v => version_eq v version) versions
    | None => true
    end
  | Ranges ranges =>
    match parse_version version with
    | Some v => existsb (in_range v) ranges
    | None => true
    end
  end.

Definition dt_saturating_add (t d : Z) : Z := Z.max dt_min (Z.min (t + d) dt_max).

Definition fix_hit (fixes : gmap str (list FixRule)) (name_norm version : str) (now settle : Z) (skip : str -> bool) : bool :=
  match fixes !! name_norm, parse_version version with
  | Some rules, Some version =>
    existsb (fun r => same_version (fix_version r) version && (dt_saturating_add (fix_at r) settle <=? now)
                      && negb (skip (fix_id r))) rules
  | _, _ => false
  end.

Definition security_fix (db : AdvisoryDb) (name_norm version : str) (now settle : Z) : bool :=
  fix_hit (fixes db) name_norm version now settle (fun _ => false).

Definition fix_since (db : AdvisoryDb) (name_norm : str) (since settle : Z) : bool :=
  match fixes db !! name_norm with
  | Some rules => existsb (fun r => since <? dt_saturating_add (fix_at r) settle) rules
  | None => false
  end.

(** A file whose version cannot be told is condemned by every rule. *)
Definition condemns (rule : MalRule) (version : option str) : bool :=
  match version with Some v => scope_matches (scope rule) v | None => true end.

Definition block_hits (block : gmap str (list MalRule)) (name_norm : str) (version : option str) : list str :=
  match block !! name_norm with
  | Some rules => mal_id <$> filter (fun rule => condemns rule version = true) rules
  | None => []
  end.

Definition blocking_advisories (db : AdvisoryDb) (name_norm : str) (version : option str) : list str :=
  block_hits (block db) name_norm version.

Definition advisories_for (db : AdvisoryDb) (name_norm version : str) : list AdvisoryRecord :=
  match audit db !! name_norm with
  | Some records => filter (fun record => scope_matches (matcher record) version = true) records
  | None => []
  end.

(** ** Reading an advisory *)

Definition usable_id (id : str) : bool := bool_decide (id ≠ []) && (length id <=? MAX_ID_BYTES)%nat.
Definition usable_severity (severity : str) : bool :=
  bool_decide (severity ≠ []) && (length severity <=? MAX_SEVERITY_BYTES)%nat.

Fixpoint boundary_below (s : str) (i : nat) : nat :=
  match i with
  | O => O
  | S i' => if is_char_boundary s i then i else boundary_below s i'
  end.
Definition truncated (s : str) (max : nat) : str :=
  if (length s <=? max)%nat then s else take (boundary_below s max) s.

Definition checked_osv_name (raw : str) : option str :=
  let name := normalize_pkg_name raw in if decide (name = []) then None else Some name.

Definition pypi_clause (a : OsvAffected) : option (str * OsvAffected) :=
  if eq_ignore_ascii_case (ecosystem (package a)) PYPI_ECOSYSTEM
  then (fun name => (name, a)) <$> checked_osv_name (pkg_name (package a))
  else None.
Definition pypi_clauses (adv : OsvAdvisory) : list (str * OsvAffected) :=
  take MAX_CLAUSES_PER_ADVISORY (omap pypi_clause (affected adv)).

Definition lone_zero (range : OsvRange) : bool :=
  match events range with
  | [e] => bool_decide (introduced e = Some (&"0")) && bool_decide (fixed e = None)
  | _ => false
  end.
Definition is_all_versions (a : OsvAffected) : bool :=
  (bool_decide (ranges a = []) && bool_decide (versions a = [])) || existsb lone_zero (ranges a).

(** The pairs of one range so far, and the version that is open. *)
Definition range_event (acc : list (Version * option Version) * option Version) (e : OsvEvent)
    : list (Version * option Version) * option Version :=
  match introduced e, fixed e with
  | Some intro, _ => (acc.1 ++ match acc.2 with Some prev => [(prev, None)] | None => [] end, parse_version intro)
  | None, Some fixed => (acc.1 ++ match acc.2 with Some intro => [(intro, parse_version fixed)] | None => [] end, None)
  | None, None => acc
  end.
Definition range_pairs (pairs : list (Version * option Version)) (range : OsvRange) : list (Version * option Version) :=
  let acc := foldl range_event (pairs, None) (events range) in
  acc.1 ++ match acc.2 with Some intro => [(intro, None)] | None => [] end.
Definition parse_ranges (ranges : list OsvRange) : list (Version * option Version) := foldl range_pairs [] ranges.

Definition scope_for (a : OsvAffected) : VersionScope :=
  if is_all_versions a then AllVersions else
  match parse_ranges (ranges a) with
  | [] => match versions a with [] => AllVersions | vs => Exact vs end
  | pairs => Ranges pairs
  end.

Definition parse_modified (raw : str) : option Z := parse_rfc3339 raw.
Definition fix_modified (adv : OsvAdvisory) : option Z := modified adv ≫= parse_modified.

Definition fixed_events (rs : list OsvRange) : list str := flat_map (fun r => omap fixed (events r)) rs.
Definition clause_fixes (id : str) (a : OsvAffected) (modified : Z) : list FixRule :=
  (fun version => MkFixRule id version modified) <$>
    omap parse_version (fixed_events (filter (fun r => eq_ignore_ascii_case (range_kind r) (&"ECOSYSTEM") = true) (ranges a))).
Definition fixed_versions (a : OsvAffected) : list str := fixed_events (ranges a).

Definition is_malware (id : str) : bool := starts_with (&"MAL-") id.

Definition severity_of (adv : OsvAdvisory) : str :=
  match db_severity (database_specific adv) with
  | Some s => if usable_severity s then s else default [] (List.find usable_severity (score <$> severities adv))
  | None => default [] (List.find usable_severity (score <$> severities adv))
  end.

(** [map.entry(name).or_default()] and more rules at its end. *)
Definition push_rules {R} (m : gmap str (list R)) (name : str) (rules : list R) : gmap str (list R) :=
  <[name := default [] (m !! name) ++ rules]> m.

Definition ingest_clause (adv : OsvAdvisory) (db : AdvisoryDb) (clause : str * OsvAffected) : AdvisoryDb :=
  let name := clause.1 in
  let sc := scope_for clause.2 in
  let db :=
    if is_malware (adv_id adv) then
      MkDb (push_rules (block db) name [MkMalRule (adv_id adv) sc]) (audit db) (fixes db) (watermark db)
    else match fix_modified adv with
         | Some at_ =>
           match clause_fixes (adv_id adv) clause.2 at_ with
           | [] => db
           | rules => MkDb (block db) (audit db) (push_rules (fixes db) name rules) (watermark db)
           end
         | None => db
         end in
  MkDb (block db)
    (push_rules (audit db) name [MkRecord (adv_id adv) (truncated (adv_summary adv) MAX_SUMMARY_BYTES) (severity_of adv)
                                   (fixed_versions clause.2) sc])
    (fixes db) (watermark db).

(** An advisory that is in force and can be stored. *)
Definition in_force (adv : OsvAdvisory) : bool := bool_decide (withdrawn adv = None) && usable_id (adv_id adv).

Definition ingest_advisory (db : AdvisoryDb) (adv : OsvAdvisory) : AdvisoryDb :=
  if in_force adv then foldl (ingest_clause adv) db (pypi_clauses adv) else db.

Definition advance_watermark_before (current : option Z) (candidate : option str) (horizon : Z) : option Z :=
  match candidate ≫= parse_modified with
  | Some ts => if (ts <=? horizon) && match current with Some c => c <? ts | None => true end then Some ts else current
  | None => current
  end.
Definition watermark_horizon (now : Z) : Z := dt_saturating_add now MAX_WATERMARK_SKEW.
Definition advance_watermark (now : Z) (current : option Z) (candidate : option str) : option Z :=
  advance_watermark_before current candidate (watermark_horizon now).

(** ** The feed *)

Context {Z_ : Zip} {J : Codec OsvAdvisory}.

(** The advisory of a member, if it has one. *)
Definition member_advisory (member : option ZipEntry) : option OsvAdvisory :=
  let! entry := member in
  let! name := entry_name entry in
  if negb (ends_with (&".json") name) then None else
  let! buf := entry_read entry (MAX_ENTRY_BYTES + 1) in
  if MAX_ENTRY_BYTES <? Z.of_nat (length buf) then None else decode buf.

Definition ingest_entry (horizon : Z) (db : AdvisoryDb) (adv : OsvAdvisory) : AdvisoryDb :=
  ingest_advisory (MkDb (block db) (audit db) (fixes db) (advance_watermark_before (watermark db) (modified adv) horizon)) adv.

Definition parse_feed (now : Z) (zip_bytes : str) : result str AdvisoryDb :=
  match open_zip zip_bytes with
  | None => Err (&"advisory feed is not a zip")
  | Some members =>
    if MAX_FEED_MEMBERS <? Z.of_nat (length members)
    then Err (&"advisory feed has " ++ decimal (Z.of_nat (length members)) ++ &" members, over the 100000 ceiling")
    else Ok (foldl (ingest_entry (watermark_horizon now)) empty_db (omap member_advisory members))
  end.

(** ** The rules of one advisory, for the probe's overlay *)

Definition mal_rules (adv : OsvAdvisory) : list (str * MalRule) :=
  if in_force adv && is_malware (adv_id adv)
  then (fun c => (c.1, MkMalRule (adv_id adv) (scope_for c.2))) <$> pypi_clauses adv else [].

Definition fix_rules (adv : OsvAdvisory) : list (str * FixRule) :=
  if in_force adv && negb (is_malware (adv_id adv)) then
    match fix_modified adv with
    | Some at_ => flat_map (fun c => (fun rule => (c.1, rule)) <$> clause_fixes (adv_id adv) c.2 at_) (pypi_clauses adv)
    | None => []
    end
  else [].

(** ** What the ranges mean *)

(** The end of the window an [introduced] event opens: the next event that says
    anything, if that is a readable [fixed]. *)
Definition next_bound (rest : list OsvEvent) : option Version :=
  match List.find (fun e => bool_decide (is_Some (introduced e)) || bool_decide (is_Some (fixed e))) rest with
  | Some e => match introduced e with Some _ => None | None => fixed e ≫= parse_version end
  | None => None
  end.
Fixpoint windows (evs : list OsvEvent) : list (Version * option Version) :=
  match evs with
  | [] => []
  | e :: rest => match introduced e ≫= parse_version with Some a => [(a, next_bound rest)] | None => [] end ++ windows rest
  end.

Lemma range_events_windows evs pairs open :
  let acc := foldl range_event (pairs, open) evs in
  acc.1 ++ match acc.2 with Some intro => [(intro, None)] | None => [] end
  = pairs ++ match open with Some a => [(a, next_bound evs)] | None => [] end ++ windows evs.
Proof.
  revert pairs open. induction evs as [|e evs IH]; intros pairs open; cbn [foldl windows].
  { cbn. by destruct open. }
  destruct (range_event (pairs, open) e) as [ps o] eqn:He. cbv zeta in IH |- *. rewrite IH.
  destruct e as [[intro|] [fix_|]]; cbn in He |- *; injection He as <- <-; unfold next_bound; cbn; rewrite <- ?app_assoc;
    by destruct open.
Qed.

Lemma parse_ranges_windows rs : parse_ranges rs = flat_map (fun r => windows (events r)) rs.
Proof.
  unfold parse_ranges. assert (forall pairs, foldl range_pairs pairs rs = pairs ++ flat_map (fun r => windows (events r)) rs) as H;
    [|apply H].
  induction rs as [|r rs IH]; intros pairs; cbn [foldl flat_map]; [by rewrite app_nil_r|].
  rewrite IH. unfold range_pairs. rewrite range_events_windows. by rewrite <- app_assoc.
Qed.

(** What a clause condemns: every version, when the file's version cannot be
    read, when a range is open from the beginning, or when it says nothing more
    than the package's name; a version of one of its windows; and, when no window
    can be read, the versions it lists. *)
Definition clause_condemns (a : OsvAffected) (version : option str) : Prop :=
  match version ≫= parse_version with
  | None => True
  | Some v =>
    existsb lone_zero (ranges a) = true
    \/ (exists r w, r ∈ ranges a /\ w ∈ windows (events r) /\ in_range v w = true)
    \/ (forall r, r ∈ ranges a -> windows (events r) = [])
       /\ (versions a = [] \/ exists listed, listed ∈ versions a /\ version_eq listed (default [] version) = true)
  end.

Lemma existsb_elem {A} (f : A -> bool) l : existsb f l = true <-> exists x, x ∈ l /\ f x = true.
Proof. rewrite existsb_exists. by setoid_rewrite list_elem_of_In. Qed.

Lemma no_windows rs : parse_ranges rs = [] <-> forall r, r ∈ rs -> windows (events r) = [].
Proof.
  rewrite parse_ranges_windows. induction rs as [|r rs IH]; [split; [by intros _ ? ?%not_elem_of_nil|done]|].
  cbn [flat_map]. rewrite app_nil, IH. setoid_rewrite elem_of_cons. naive_solver.
Qed.

Lemma elem_of_windows w rs : w ∈ parse_ranges rs <-> exists r, r ∈ rs /\ w ∈ windows (events r).
Proof.
  rewrite parse_ranges_windows, list_elem_of_In, in_flat_map. setoid_rewrite <- list_elem_of_In. done.
Qed.

Lemma scope_exact id a version : condemns (MkMalRule id (scope_for a)) version = true <-> clause_condemns a version.
Proof.
  unfold condemns, clause_condemns. cbn [scope]. destruct version as [version|]; [|done]. cbn [mbind option_bind default].
  unfold scope_for. destruct (is_all_versions a) eqn:Hall; unfold is_all_versions in Hall.
  - destruct (parse_version version) as [v|]; [|done]. split; [intros _|done].
    apply orb_true_iff in Hall as [Hb|Hz]; [right; right|by left]. apply andb_true_iff in Hb as [Hr Hv].
    apply bool_decide_eq_true in Hr, Hv. split; [|by left]. rewrite Hr. by intros r ?%not_elem_of_nil.
  - apply orb_false_iff in Hall as [_ Hz]. destruct (parse_ranges (ranges a)) as [|w ws] eqn:Hp.
    + pose proof (proj1 (no_windows _) Hp) as Hno. destruct (versions a) as [|x xs] eqn:Hv.
      * cbn. destruct (parse_version version); [|done]. split; [intros _|done]. right; right. split; [done|by left].
      * cbn [scope_matches]. destruct (parse_version version) as [v|]; [|done]. rewrite existsb_elem. split.
        -- intros Hx. right; right. split; [done|by right].
        -- intros [?|[(r & w & Hr & Hw & _)|(_ & [?|?])]]; [congruence| |done|done].
           rewrite Hno in Hw by done. by apply not_elem_of_nil in Hw.
    + cbn [scope_matches]. destruct (parse_version version) as [v|]; [|done]. rewrite existsb_elem, <- Hp. split.
      * intros (w' & (r & Hr & Hw)%elem_of_windows & Hin). right; left. by exists r, w'.
      * intros [?|[(r & w' & Hr & Hw & Hin)|(Hno & _)]]; [congruence| |].
        -- exists w'. split; [|done]. apply elem_of_windows. by exists r.
        -- apply no_windows in Hno. congruence.
Qed.

(** ** What a feed contains *)

(** The rules of a name among named rules. *)
Definition rules_for {R} (name : str) (rules : list (str * R)) : list R := (filter (fun x => x.1 = name) rules).*2.

Lemma rules_for_app {R} name (l l' : list (str * R)) : rules_for name (l ++ l') = rules_for name l ++ rules_for name l'.
Proof. unfold rules_for. by rewrite filter_app, fmap_app. Qed.

Lemma rules_for_named {R} name pkg (rules : list R) :
  rules_for name ((fun r => (pkg, r)) <$> rules) = if decide (pkg = name) then rules else [].
Proof.
  unfold rules_for. induction rules as [|r rules IH]; [by case_decide|]. cbn [fmap list_fmap]. rewrite filter_cons. cbn [fst].
  case_decide; cbn [fmap list_fmap snd]; by rewrite IH.
Qed.

Lemma lookup_push_rules {R} (m : gmap str (list R)) pkg rules name :
  default [] (push_rules m pkg rules !! name) = default [] (m !! name) ++ rules_for name ((fun r => (pkg, r)) <$> rules).
Proof.
  rewrite rules_for_named. unfold push_rules. case_decide as Hn; [subst; by rewrite lookup_insert_eq|].
  by rewrite lookup_insert_ne, app_nil_r.
Qed.

Lemma elem_of_rules_for {R} name (l : list (str * R)) r : r ∈ rules_for name l <-> (name, r) ∈ l.
Proof.
  unfold rules_for. rewrite list_elem_of_fmap. setoid_rewrite list_elem_of_filter. split.
  - intros ([n r'] & -> & Hn & Hin). cbn in *. by subst.
  - intros Hin. by exists (name, r).
Qed.

Lemma ingest_clauses adv db clauses name :
  in_force adv = true ->
  let db' := foldl (ingest_clause adv) db clauses in
  default [] (block db' !! name) = default [] (block db !! name)
    ++ rules_for name (if is_malware (adv_id adv) then (fun c => (c.1, MkMalRule (adv_id adv) (scope_for c.2))) <$> clauses else [])
  /\ default [] (fixes db' !! name) = default [] (fixes db !! name)
    ++ rules_for name (if is_malware (adv_id adv) then [] else
         match fix_modified adv with
         | Some at_ => flat_map (fun c => (fun rule => (c.1, rule)) <$> clause_fixes (adv_id adv) c.2 at_) clauses
         | None => []
         end).
Proof.
  intros Hf. revert db. induction clauses as [|c clauses IH]; intros db; cbn [foldl].
  { destruct (is_malware _), (fix_modified adv); cbn; by rewrite !app_nil_r. }
  destruct (IH (ingest_clause adv db c)) as [-> ->]. clear IH. unfold ingest_clause. cbv zeta.
  destruct (is_malware (adv_id adv)); cbn [block fixes].
  - rewrite lookup_push_rules. cbn [fmap list_fmap]. split; [|done].
    rewrite <- app_assoc. f_equal. by rewrite <- rules_for_app.
  - split; [by destruct (fix_modified adv) as [at_|]; [destruct (clause_fixes _ _ _)|]|].
    destruct (fix_modified adv) as [at_|]; [|done]. cbn [flat_map]. rewrite rules_for_app, app_assoc.
    destruct (clause_fixes (adv_id adv) c.2 at_) as [|r rs]; cbn [fixes]; [by rewrite app_nil_r|]. by rewrite lookup_push_rules.
Qed.

Lemma ingest_rules adv db name :
  default [] (block (ingest_advisory db adv) !! name) = default [] (block db !! name) ++ rules_for name (mal_rules adv)
  /\ default [] (fixes (ingest_advisory db adv) !! name) = default [] (fixes db !! name) ++ rules_for name (fix_rules adv).
Proof.
  unfold ingest_advisory, mal_rules, fix_rules. destruct (in_force adv) eqn:Hf; [|cbn; by rewrite !app_nil_r].
  destruct (ingest_clauses adv db (pypi_clauses adv) name Hf) as [-> ->]. cbn [andb].
  by destruct (is_malware _), (fix_modified adv).
Qed.

(** The baseline of a feed holds exactly the rules its advisories contribute one
    by one, which is what the probe's overlay is made of. *)
Lemma feed_rules horizon advs db name :
  default [] (block (foldl (ingest_entry horizon) db advs) !! name)
    = default [] (block db !! name) ++ rules_for name (flat_map mal_rules advs)
  /\ default [] (fixes (foldl (ingest_entry horizon) db advs) !! name)
    = default [] (fixes db !! name) ++ rules_for name (flat_map fix_rules advs).
Proof.
  revert db. induction advs as [|adv advs IH]; intros db; cbn [foldl flat_map]; [by rewrite !app_nil_r|].
  destruct (IH (ingest_entry horizon db adv)) as [-> ->]. unfold ingest_entry.
  destruct (ingest_rules adv (MkDb (block db) (audit db) (fixes db)
    (advance_watermark_before (watermark db) (modified adv) horizon)) name) as [-> ->].
  cbn [block fixes]. by rewrite !rules_for_app, !app_assoc.
Qed.

(** ** The watermark *)

Definition stamps (horizon : Z) (advs : list OsvAdvisory) : list Z :=
  filter (fun ts => ts <= horizon) (omap (fun adv => modified adv ≫= parse_modified) advs).

(** The watermark of a feed is its newest readable stamp that is not past the
    horizon. *)
Lemma feed_watermark horizon advs :
  match watermark (foldl (ingest_entry horizon) empty_db advs) with
  | Some t => t ∈ stamps horizon advs /\ forall t', t' ∈ stamps horizon advs -> t' <= t
  | None => stamps horizon advs = []
  end.
Proof.
  assert (forall db clauses adv, watermark (foldl (ingest_clause adv) db clauses) = watermark db) as Hcl.
  { intros db clauses adv. revert db. induction clauses as [|c clauses IH]; intros db; [done|]. cbn [foldl]. rewrite IH.
    unfold ingest_clause. cbv zeta. destruct (is_malware _); [done|]. destruct (fix_modified adv); [|done].
    by destruct (clause_fixes _ _ _). }
  assert (forall db adv, watermark (ingest_entry horizon db adv)
    = advance_watermark_before (watermark db) (modified adv) horizon) as Hstep.
  { intros db adv. unfold ingest_entry, ingest_advisory. destruct (in_force adv); [by rewrite Hcl|done]. }
  induction advs as [|adv advs IH] using rev_ind; [done|]. rewrite foldl_app. cbn [foldl]. rewrite Hstep.
  unfold stamps in *. rewrite omap_app. cbn [omap list_omap]. unfold advance_watermark_before.
  set (w := watermark _) in *. clearbody w. destruct (modified adv ≫= parse_modified) as [ts|]; [|by rewrite app_nil_r].
  rewrite filter_app, filter_cons, filter_nil. destruct (ts <=? horizon) eqn:Hh; bool_to_prop.
  - rewrite decide_True by done. destruct w as [t|]; cbn [andb].
    + destruct IH as [Hin Hmax]. destruct (t <? ts) eqn:Hlt; bool_to_prop.
      * split; [set_solver|]. intros t' [Ht'|Ht']%elem_of_app; [specialize (Hmax t' Ht'); lia|].
        apply list_elem_of_singleton in Ht' as ->. lia.
      * split; [set_solver|]. intros t' [Ht'|Ht']%elem_of_app; [by apply Hmax|].
        apply list_elem_of_singleton in Ht' as ->. lia.
    + rewrite IH. split; [set_solver|]. intros t' Ht'. assert (t' = ts) by set_solver. lia.
  - rewrite decide_False by lia. cbn [andb]. by rewrite app_nil_r.
Qed.

(** ** The rules an advisory contributes *)

Lemma elem_of_mal_rules name rule adv :
  (name, rule) ∈ mal_rules adv <->
  in_force adv = true /\ is_malware (adv_id adv) = true
  /\ exists a, (name, a) ∈ pypi_clauses adv /\ rule = MkMalRule (adv_id adv) (scope_for a).
Proof.
  unfold mal_rules. destruct (in_force adv), (is_malware (adv_id adv)); cbn [andb]; rewrite ?elem_of_nil; try naive_solver.
  rewrite list_elem_of_fmap. split.
  - intros ([n a] & [= -> ->] & Hc). split_and!; [done..|]. by exists a.
  - intros (_ & _ & a & Hc & ->). by exists (name, a).
Qed.

(** An ecosystem range of the clause names the fix. *)
Definition names_fix (a : OsvAffected) (v : Version) : Prop :=
  exists r e text, r ∈ ranges a /\ eq_ignore_ascii_case (range_kind r) (&"ECOSYSTEM") = true /\ e ∈ events r
    /\ fixed e = Some text /\ parse_version text = Some v.

Lemma elem_of_clause_fixes rule id a changed :
  rule ∈ clause_fixes id a changed <-> exists v, names_fix a v /\ rule = MkFixRule id v changed.
Proof.
  unfold clause_fixes, fixed_events, names_fix. rewrite list_elem_of_fmap. split.
  - intros (v & -> & Hin). apply list_elem_of_omap in Hin as (text & Hin & Hp).
    apply list_elem_of_In, in_flat_map in Hin as (r & Hr%list_elem_of_In & Hin%list_elem_of_In).
    apply list_elem_of_filter in Hr as [Hk Hr]. apply list_elem_of_omap in Hin as (e & He & Hfx).
    exists v. split; [|done]. by exists r, e, text.
  - intros (v & (r & e & text & Hr & Hk & He & Hfx & Hp) & ->). exists v. split; [done|].
    apply list_elem_of_omap. exists text. split; [|done]. apply list_elem_of_In, in_flat_map. exists r.
    split; [by apply list_elem_of_In, list_elem_of_filter|]. apply list_elem_of_In, list_elem_of_omap. by exists e.
Qed.

Lemma elem_of_fix_rules name rule adv :
  (name, rule) ∈ fix_rules adv <->
  in_force adv = true /\ is_malware (adv_id adv) = false
  /\ exists a v changed, (name, a) ∈ pypi_clauses adv /\ modified adv ≫= parse_modified = Some changed /\ names_fix a v
      /\ rule = MkFixRule (adv_id adv) v changed.
Proof.
  unfold fix_rules, fix_modified. destruct (in_force adv), (is_malware (adv_id adv)); cbn [andb negb];
    rewrite ?elem_of_nil; try naive_solver.
  destruct (modified adv ≫= parse_modified) as [changed|]; [|rewrite elem_of_nil; naive_solver].
  rewrite list_elem_of_In, in_flat_map. setoid_rewrite <- list_elem_of_In. split.
  - intros ([n a] & Hcl & Hin). apply list_elem_of_fmap in Hin as (rule' & [= -> ->] & Hin).
    apply elem_of_clause_fixes in Hin as (v & Hv & ->). split_and!; [done..|]. by exists a, v, changed.
  - intros (_ & _ & a & v & changed' & Hcl & [= <-] & Hv & ->). exists (name, a). split; [done|].
    apply list_elem_of_fmap. eexists. split; [done|]. apply elem_of_clause_fixes. by exists v.
Qed.

Lemma elem_of_all_rules {A R} (f : A -> list R) l r : r ∈ flat_map f l <-> exists x, x ∈ l /\ r ∈ f x.
Proof. rewrite list_elem_of_In, in_flat_map. by setoid_rewrite <- list_elem_of_In. Qed.

Lemma elem_of_block_hits (m : gmap str (list MalRule)) name version id :
  id ∈ block_hits m name version <->
  exists rule, rule ∈ default [] (m !! name) /\ mal_id rule = id /\ condemns rule version = true.
Proof.
  unfold block_hits. destruct (m !! name) as [rules|]; cbn [default]; [|rewrite elem_of_nil; setoid_rewrite elem_of_nil; naive_solver].
  rewrite list_elem_of_fmap. setoid_rewrite list_elem_of_filter. naive_solver.
Qed.

Lemma fix_hit_exact (m : gmap str (list FixRule)) name version now settle skip :
  fix_hit m name version now settle skip = true <->
  exists rule v, rule ∈ default [] (m !! name) /\ parse_version version = Some v /\ same_version (fix_version rule) v = true
    /\ dt_saturating_add (fix_at rule) settle <= now /\ skip (fix_id rule) = false.
Proof.
  unfold fix_hit. destruct (m !! name) as [rules|], (parse_version version) as [v|]; cbn [default];
    try (setoid_rewrite elem_of_nil; naive_solver); [|naive_solver].
  rewrite existsb_elem. setoid_rewrite andb_true_iff. setoid_rewrite andb_true_iff. setoid_rewrite Z.leb_le.
  setoid_rewrite negb_true_iff. naive_solver.
Qed.

Lemma parse_feed_rules now bytes members db name :
  open_zip bytes = Some members -> parse_feed now bytes = Ok db ->
  default [] (block db !! name) = rules_for name (flat_map mal_rules (omap member_advisory members))
  /\ default [] (fixes db !! name) = rules_for name (flat_map fix_rules (omap member_advisory members)).
Proof.
  intros Hopen Hfeed. unfold parse_feed in Hfeed. rewrite Hopen in Hfeed. case_match; [done|]. injection Hfeed as <-.
  destruct (feed_rules (watermark_horizon now) (omap member_advisory members) empty_db name) as [-> ->].
  cbn [block fixes empty_db]. by rewrite !lookup_empty.
Qed.

(** ** Properties *)

(** C17: malware is blocked exactly as the feed says, and unreadable versions fail
    closed. A file of a package is refused under an advisory's id exactly when
    the feed has that advisory in force, its id is a malware id, and one of its
    PyPI clauses names the package and condemns the version: with a window that
    holds it, with the versions it lists where it has no readable window, with
    everything where a range is open from the beginning or nothing is said, and
    always when the version cannot be told. *)
Theorem malware_blocked_exactly now bytes members db name version id :
  open_zip bytes = Some members -> parse_feed now bytes = Ok db ->
  id ∈ blocking_advisories db name version <->
  exists adv a, adv ∈ omap member_advisory members /\ adv_id adv = id /\ in_force adv = true /\ is_malware id = true
    /\ (name, a) ∈ pypi_clauses adv /\ clause_condemns a version.
Proof.
  intros Hopen Hfeed. destruct (parse_feed_rules _ _ _ _ name Hopen Hfeed) as [Hb _].
  unfold blocking_advisories. rewrite elem_of_block_hits, Hb.
  setoid_rewrite elem_of_rules_for. setoid_rewrite elem_of_all_rules. setoid_rewrite elem_of_mal_rules. split.
  - intros (rule & (adv & Hadv & Hf & Hm & a & Hcl & ->) & <- & Hc). exists adv, a. split_and!; try done.
    by eapply scope_exact.
  - intros (adv & a & Hadv & <- & Hf & Hm & Hcl & Hc). exists (MkMalRule (adv_id adv) (scope_for a)).
    split; [|split; [done|by apply scope_exact]]. exists adv. split_and!; [done..|]. by exists a.
Qed.

(** C18: a release skips the cooldown only as a settled fix. A version counts as a
    security fix exactly when some advisory in force that is not malware, and
    whose last change was at least the settle time ago, names it in a [fixed]
    event of an ecosystem range of a PyPI clause for the package; malware
    advisories, undated ones and unreadable versions never exempt anything. *)
Theorem fix_exemption_exact now bytes members db name version at_ settle :
  open_zip bytes = Some members -> parse_feed now bytes = Ok db ->
  security_fix db name version at_ settle = true <->
  exists adv a named v changed, adv ∈ omap member_advisory members /\ in_force adv = true
    /\ is_malware (adv_id adv) = false /\ modified adv ≫= parse_modified = Some changed
    /\ dt_saturating_add changed settle <= at_ /\ (name, a) ∈ pypi_clauses adv /\ names_fix a named
    /\ parse_version version = Some v /\ same_version named v = true.
Proof.
  intros Hopen Hfeed. destruct (parse_feed_rules _ _ _ _ name Hopen Hfeed) as [_ Hb].
  unfold security_fix. rewrite fix_hit_exact, Hb.
  setoid_rewrite elem_of_rules_for. setoid_rewrite elem_of_all_rules. setoid_rewrite elem_of_fix_rules. split.
  - intros (rule & v & (adv & Hadv & Hf & Hm & a & named & changed & Hcl & Hch & Hn & ->) & Hv & Hs & Ht & _).
    by exists adv, a, named, v, changed.
  - intros (adv & a & named & v & changed & Hadv & Hf & Hm & Hch & Ht & Hcl & Hn & Hv & Hs).
    exists (MkFixRule (adv_id adv) named changed), v. split_and!; try done. exists adv. split_and!; [done..|].
    by exists a, named, changed.
Qed.

End osv.

(** ** An example feed *)

#[local] Instance Event_eq_dec : EqDecision OsvEvent.
Proof. solve_decision. Defined.
#[local] Instance Event_countable : Countable OsvEvent.
Proof. apply (inj_countable' (fun e => (introduced e, fixed e)) (fun x => MkEvent x.1 x.2)). by intros []. Defined.
#[local] Instance Range_eq_dec : EqDecision OsvRange.
Proof. solve_decision. Defined.
#[local] Instance Range_countable : Countable OsvRange.
Proof. apply (inj_countable' (fun r => (range_kind r, events r)) (fun x => MkRange x.1 x.2)). by intros []. Defined.
#[local] Instance Package_eq_dec : EqDecision OsvPackage.
Proof. solve_decision. Defined.
#[local] Instance Package_countable : Countable OsvPackage.
Proof. apply (inj_countable' (fun p => (ecosystem p, pkg_name p)) (fun x => MkPackage x.1 x.2)). by intros []. Defined.
#[local] Instance Affected_eq_dec : EqDecision OsvAffected.
Proof. solve_decision. Defined.
#[local] Instance Affected_countable : Countable OsvAffected.
Proof.
  apply (inj_countable' (fun a => (package a, ranges a, versions a)) (fun x => MkAffected x.1.1 x.1.2 x.2)). by intros [].
Defined.
#[local] Instance Severity_eq_dec : EqDecision OsvSeverity.
Proof. solve_decision. Defined.
#[local] Instance DatabaseSpecific_eq_dec : EqDecision OsvDatabaseSpecific.
Proof. solve_decision. Defined.
#[local] Instance Advisory_eq_dec : EqDecision OsvAdvisory.
Proof. solve_decision. Defined.
#[local] Instance Advisory_countable : Countable OsvAdvisory.
Proof.
  apply (inj_countable' (fun a => (adv_id a, adv_summary a, modified a, withdrawn a, affected a, score <$> severities a,
                                   db_severity (database_specific a)))
           (fun x => MkAdvisory x.1.1.1.1.1.1 x.1.1.1.1.1.2 x.1.1.1.1.2 x.1.1.1.2 x.1.1.2 (MkSeverity <$> x.1.2) (MkDatabaseSpecific x.2))).
  intros [id sm m wd af sv [ds]]. cbn. f_equal. induction sv as [|[x] sv IH]; [done|]. cbn. by f_equal.
Defined.
Definition toy_osv_codec : Codec OsvAdvisory := countable_codec.

Definition toy_clock : Clock := {| parse_rfc3339 := parse_u64; dt_min := 0; dt_max := 10 ^ 18 |}.
(** Fixed in 7, and malware from 5 on. *)
Definition example_clause : OsvAffected :=
  MkAffected (MkPackage (&"pypi") (&"Evil.Pkg")) [MkRange (&"ECOSYSTEM") [MkEvent (Some (&"5")) None; MkEvent None (Some (&"7"))]] [].
Definition example_malware : OsvAdvisory := MkAdvisory (&"MAL-1") [] (Some (&"10")) None [example_clause] [] (MkDatabaseSpecific None).
Definition example_vulnerability : OsvAdvisory :=
  MkAdvisory (&"PYSEC-1") [] (Some (&"10")) None [example_clause] [] (MkDatabaseSpecific None).
Definition member (adv : OsvAdvisory) : option ZipEntry :=
  Some (MkZipEntry (Some (&"a.json")) (fun _ => Some (@encode _ toy_osv_codec adv))).
Definition example_members : list (option ZipEntry) := [member example_malware; member example_vulnerability].
Definition toy_zip : Zip := {| open_zip _ := Some example_members |}.
Definition example_db : @AdvisoryDb toy_pep440 :=
  match @parse_feed toy_pep440 toy_clock toy_zip toy_osv_codec 100 [] with Ok db => db | Err _ => empty_db end.

Lemma example_parsed : @parse_feed toy_pep440 toy_clock toy_zip toy_osv_codec 100 [] = Ok example_db.
Proof.
  assert (is_ok (@parse_feed toy_pep440 toy_clock toy_zip toy_osv_codec 100 []) = true) as Hok by (vm_compute; reflexivity).
  unfold example_db. by destruct (@parse_feed _ _ _ _ _ _).
Qed.

Lemma malware_blocked_exactly_witness : &"MAL-1" ∈ @blocking_advisories toy_pep440 example_db (&"evil-pkg") (Some (&"6")).
Proof.
  apply (@malware_blocked_exactly toy_pep440 toy_clock toy_zip toy_osv_codec 100 [] example_members example_db); [reflexivity|exact example_parsed|].
  exists example_malware, example_clause. split_and!; [|reflexivity|by vm_compute|by vm_compute| |].
  - apply list_elem_of_omap. exists (member example_malware). split; [apply list_elem_of_here|vm_compute; reflexivity].
  - assert (@pypi_clauses example_malware = [(&"evil-pkg", example_clause)]) as -> by (by vm_compute). by left.
  - right; left. exists (MkRange (&"ECOSYSTEM") [MkEvent (Some (&"5")) None; MkEvent None (Some (&"7"))]), (5, Some 7).
    split_and!; [by left|by left|by vm_compute].
Defined.

Lemma fix_exemption_exact_witness : @security_fix toy_pep440 toy_clock example_db (&"evil-pkg") (&"7") 4000 3600 = true.
Proof.
  apply (@fix_exemption_exact toy_pep440 toy_clock toy_zip toy_osv_codec 100 [] example_members example_db); [reflexivity|exact example_parsed|].
  exists example_vulnerability, example_clause, 7, 7, 10. split_and!; [|reflexivity|reflexivity|reflexivity|vm_compute; discriminate| | |reflexivity|reflexivity].
  - apply list_elem_of_omap. exists (member example_vulnerability). split; [apply list_elem_of_further, list_elem_of_here|vm_compute; reflexivity].
  - assert (@pypi_clauses example_vulnerability = [(&"evil-pkg", example_clause)]) as -> by (by vm_compute). by left.
  - exists (MkRange (&"ECOSYSTEM") [MkEvent (Some (&"5")) None; MkEvent None (Some (&"7"))]), (MkEvent None (Some (&"7"))), (&"7").
    split_and!; [by left|by vm_compute|by right; left|reflexivity|by vm_compute].
Defined.

End Osv.
