(* ===== verification/Advisories.v ===== *)
(** * Advisories on a node and in the fleet (src/advisories.rs)

    Every node holds a snapshot of the feed with the probe's overlays on top,
    and the set of quarantined projects. The set is shared through one object
    that carries an epoch; a node's copy is replaced only under its lock.

    Between two storage operations another task of the node may move the
    snapshot. The programs here therefore take the snapshots they find as a
    parameter ([live], one per look), and answer with what they adopt. *)
From stdpp Require Import functions.
From S2P Require Import Prelude RustStr Pep440 Names Documents Storage Status Osv.
Import Storage Osv.

Module Advisories.

Definition QUARANTINED_KEY : str := &"_advisories/quarantined.json".
Definition QUARANTINED_CAS_ATTEMPTS : nat := 8.
Definition PROBE_MAL_FETCH_ATTEMPTS : Z := 5.

Record StoredQuarantined := MkStoredQ { stored_names : list str; stored_epoch : Z }.
Definition no_quarantined : StoredQuarantined := MkStoredQ [] 0.

Section node.
Context {P : Pep440} {C : Clock}.

(** ** The snapshot *)

Record AdvisoryState := MkState {
  db : option AdvisoryDb;
  zip_sha256 : option str;
  storage_etag : option str;
  overlay : gmap str (list MalRule);
  fix_overlay : gmap str (list FixRule);
  fix_superseded : gset str;
  quarantined : gset str;
  quarantined_etag : option str;
  quarantined_epoch : Z;
  quarantined_unpublished : bool;
  fenced_holds : gset str;
  loaded_unix : Z
}.
Definition default_state : AdvisoryState := MkState None None None ∅ ∅ ∅ ∅ None 0 false ∅ 0.

Definition is_quarantined (s : AdvisoryState) (pkg : str) : bool :=
  bool_decide (pkg ∈ quarantined s) || bool_decide (pkg ∈ fenced_holds s).

Definition push_new (ids : list str) (id : str) : list str := if decide (id ∈ ids) then ids else ids ++ [id].
Definition blocking (s : AdvisoryState) (name_norm : str) (version : option str) : list str :=
  foldl push_new (match db s with Some db => blocking_advisories db name_norm version | None => [] end)
    (block_hits (overlay s) name_norm version).

Definition node_security_fix (s : AdvisoryState) (name_norm version : str) (now settle : Z) : bool :=
  match db s with
  | Some db => fix_hit (fixes db) name_norm version now settle (fun id => bool_decide (id ∈ fix_superseded s))
  | None => false
  end || fix_hit (fix_overlay s) name_norm version now settle (fun _ => false).

Definition has_block_data (s : AdvisoryState) : bool := bool_decide (is_Some (db s)) || bool_decide (overlay s ≠ ∅).

(** ** The probe *)

Definition is_probe_advisory_id (id : str) : bool :=
  bool_decide (id ≠ []) && negb (starts_with (&".") id)
  && forallb (fun c => is_ascii_alphanumeric c || bool_decide (c ∈ ["-"; "."; "_"]%char)) id.

(** The retry budget of an id; the flag says it is spent. *)
Definition note_mal_failure (retries : gmap str Z) (id : str) : gmap str Z * bool :=
  let attempts := default 0 (retries !! id) + 1 in
  if attempts <? PROBE_MAL_FETCH_ATTEMPTS then (<[id := attempts]> retries, false) else (delete id retries, true).

Record CsvScan := MkScan {
  fresh_mal : list (Z * str);
  fresh_other : list str;
  max_modified : option Z;
  complete : bool
}.

Fixpoint scan_lines (now : Z) (watermark : option Z) (lines : list str) (scan : CsvScan) : CsvScan :=
  match lines with
  | [] => scan
  | line :: rest =>
    let line := trim line in
    if decide (line = []) then scan_lines now watermark rest scan else
    match split_once ","%char line with
    | None => scan_lines now watermark rest scan
    | Some (ts_raw, id) =>
      match parse_modified (trim ts_raw) with
      | None => scan_lines now watermark rest scan
      | Some ts =>
        if match watermark with Some w => ts <=? w | None => false end
        then MkScan (fresh_mal scan) (fresh_other scan) (max_modified scan) true
        else
          let max := advance_watermark now (max_modified scan) (Some (trim ts_raw)) in
          let id := trim id in
          scan_lines now watermark rest
            (if negb (is_probe_advisory_id id) then MkScan (fresh_mal scan) (fresh_other scan) max (complete scan)
             else if is_malware id then MkScan (fresh_mal scan ++ [(ts, id)]) (fresh_other scan) max (complete scan)
             else MkScan (fresh_mal scan) (fresh_other scan ++ [id]) max (complete scan))
      end
    end
  end.

(** [lines.pop()] *)
Definition pop {A} (l : list A) : list A := take (length l - 1) l.
Definition parse_csv_head (now : Z) (text : str) (watermark : option Z) (is_full : bool) : CsvScan :=
  let lines := split "010"%char text in
  scan_lines now watermark (if is_full then lines else pop lines) (MkScan [] [] None is_full).

(** Rules keyed by the advisory that contributed them. *)
Class OverlayRule (R : Type) := rule_id : R -> str.
#[global] Instance mal_overlay_rule : OverlayRule MalRule := mal_id.
#[global] Instance fix_overlay_rule : OverlayRule FixRule := fix_id.

Definition merge_overlay `{OverlayRule R} (overlay : gmap str (list R)) (added : list (str * R)) (withdrawn : gset str)
    : gmap str (list R) :=
  let stale := withdrawn ∪ list_to_set ((fun x => rule_id x.2) <$> added) in
  let kept := if decide (stale = ∅) then overlay
              else filter (fun p => p.2 ≠ []) ((fun rules => filter (fun r => rule_id r ∉ stale) rules) <$> overlay) in
  foldl (fun m x => push_rules m x.1 [x.2]) kept added.

Record ProbeDelta := MkDelta {
  added : list (str * MalRule);
  delta_withdrawn : gset str;
  fix_added : list (str * FixRule);
  fix_seen : gset str
}.
Definition delta_is_empty (d : ProbeDelta) : bool :=
  bool_decide (added d = []) && bool_decide (delta_withdrawn d = ∅) && bool_decide (fix_seen d = ∅).

Definition apply_probe_overlay (s : AdvisoryState) (aligned_sha : option str) (d : ProbeDelta) : AdvisoryState :=
  if decide (zip_sha256 s = aligned_sha) then
    MkState (db s) (zip_sha256 s) (storage_etag s)
      (merge_overlay (overlay s) (added d) (delta_withdrawn d))
      (merge_overlay (fix_overlay s) (fix_added d) (fix_seen d))
      (fix_superseded s ∪ fix_seen d)
      (quarantined s) (quarantined_etag s) (quarantined_epoch s) (quarantined_unpublished s) (fenced_holds s) (loaded_unix s)
  else s.

(** The swap at the end of [reload]: the same bytes only move the etag. *)
Definition swap_feed (s : AdvisoryState) (new_db : AdvisoryDb) (sha etag : str) (now_unix : Z) : AdvisoryState :=
  if decide (zip_sha256 s = Some sha) then
    MkState (db s) (zip_sha256 s) (Some etag) (overlay s) (fix_overlay s) (fix_superseded s)
      (quarantined s) (quarantined_etag s) (quarantined_epoch s) (quarantined_unpublished s) (fenced_holds s) (loaded_unix s)
  else
    MkState (Some new_db) (Some sha) (Some etag) ∅ ∅ ∅
      (quarantined s) (quarantined_etag s) (quarantined_epoch s) (quarantined_unpublished s) (fenced_holds s) now_unix.

(** ** The quarantined set of a node *)

Inductive Refused := No | Older (live : Z) | PendingArm.
#[global] Instance Refused_eq_dec : EqDecision Refused.
Proof. solve_decision. Defined.

Definition with_quarantine (s : AdvisoryState) (set : gset str) (etag : option str) (epoch : Z) (unpublished : bool) : AdvisoryState :=
  MkState (db s) (zip_sha256 s) (storage_etag s) (overlay s) (fix_overlay s) (fix_superseded s)
    set etag epoch unpublished (fenced_holds s) (loaded_unix s).

(** A set on its way into a node's snapshot; the etag is what to record, if a
    listing gave one. *)
Record Adoption := MkAdoption { ad_set : gset str; ad_epoch : Z; ad_etag : option (option str) }.

Definition adopt_quarantined (s : AdvisoryState) (a : Adoption) : AdvisoryState * Refused :=
  let refused :=
    if ad_epoch a <? quarantined_epoch s then Older (quarantined_epoch s)
    else if (ad_epoch a =? quarantined_epoch s) && quarantined_unpublished s && bool_decide (ad_set a ≠ quarantined s)
         then PendingArm else No in
  let etag := default (quarantined_etag s) (ad_etag a) in
  (if decide (refused = No) then with_quarantine s (ad_set a) etag (ad_epoch a) false
   else with_quarantine s (quarantined s) etag (quarantined_epoch s) (quarantined_unpublished s), refused).

Definition edit_name (set : gset str) (name : str) (blocked : bool) : gset str :=
  if blocked then {[name]} ∪ set else set ∖ {[name]}.

Definition arm_local_quarantine (s : AdvisoryState) (pkg : str) (blocked : bool) : AdvisoryState :=
  let next := edit_name (quarantined s) pkg blocked in
  if decide (next = quarantined s) then s
  else with_quarantine s next (quarantined_etag s) (quarantined_epoch s) true.

Definition hold_fenced_quarantine (s : AdvisoryState) (pkg : str) (blocked : bool) : AdvisoryState :=
  if decide (bool_decide (pkg ∈ fenced_holds s) = blocked) then s
  else MkState (db s) (zip_sha256 s) (storage_etag s) (overlay s) (fix_overlay s) (fix_superseded s)
         (quarantined s) (quarantined_etag s) (quarantined_epoch s) (quarantined_unpublished s)
         (edit_name (fenced_holds s) pkg blocked) (loaded_unix s).

(** ** The shared set *)

Inductive QuarantinedEdit :=
  | One (name : str) (blocked : bool)
  | Derive (name : str) (blocked : bool)
  | Sweep (set base_set : gset str) (base_epoch : Z).
Definition is_sweep (e : QuarantinedEdit) : bool := match e with Sweep _ _ _ => true | _ => false end.

Context {JQ : Codec StoredQuarantined} {JD : Codec StatusDoc.StoredProjectStatus}.

Definition parse_quarantined (bytes : str) : option StoredQuarantined := decode bytes.
(** Sorted and without duplicates. *)
Definition encode_quarantined (names : gset str) (epoch : Z) : str :=
  encode (MkStoredQ (in_order names) epoch).

Definition key_storage_etag (b : nat) (key : str) : prog (res (option str)) :=
  let*? page := call b (ListPage key None 1) in
  Ret (Ok (meta_etag <$> List.find (fun m => bool_decide (meta_key m = key)) page)).
Definition quarantined_storage_etag (b : nat) : prog (res (option str)) := key_storage_etag b QUARANTINED_KEY.

(** What a starting node holds; unknown is the empty set without an etag. *)
Definition load_quarantined_at_startup (b : nat) : prog (gset str * Z * option str) :=
  let* etag := quarantined_storage_etag b in
  match etag with
  | Err _ => Ret (∅, 0, None)
  | Ok None => Ret (∅, 0, None)
  | Ok (Some etag) =>
    let* got := call b (GetBytes QUARANTINED_KEY) in
    Ret (match got with
         | Ok bytes => match parse_quarantined bytes with
                       | Some stored => (list_to_set (stored_names stored), stored_epoch stored, Some etag)
                       | None => (∅, 0, None)
                       end
         | Err _ => (∅, 0, None)
         end)
  end.

Definition stored_quarantined (b : nat) : prog (res (gset str * Z)) :=
  let*? current := call b (GetWithEtag QUARANTINED_KEY) in
  Ret (Ok (match current with
           | Some (bytes, _) => match parse_quarantined bytes with
                                | Some stored => (list_to_set (stored_names stored), stored_epoch stored)
                                | None => (∅, 0)
                                end
           | None => (∅, 0)
           end)).

Definition seed_quarantined_onto (b : nat) (epoch : Z) (bytes : str) : prog (res bool) :=
  let*? current := call b (GetWithEtag QUARANTINED_KEY) in
  match current with
  | Some (body, etag) =>
    if match parse_quarantined body with Some stored => epoch <=? stored_epoch stored | None => false end
    then Ret (Ok false)
    else let*? wrote := call b (PutIfMatch QUARANTINED_KEY etag bytes) in Ret (Ok (bool_decide (is_Some wrote)))
  | None => let*? wrote := call b (PutIfNoneMatch QUARANTINED_KEY bytes) in Ret (Ok (bool_decide (is_Some wrote)))
  end.

(** Best effort on every bucket of a list. *)
Fixpoint seed_all (replicas : list nat) (epoch : Z) (bytes : str) : prog unit :=
  match replicas with
  | [] => Ret tt
  | b :: rest => let* _ := seed_quarantined_onto b epoch bytes in seed_all rest epoch bytes
  end.

Definition reseed_quarantined_if_older (b : nat) (replicas : list nat) (epoch : Z) (bytes : str) : prog (res unit) :=
  let*? _ := seed_quarantined_onto b epoch bytes in
  let* _ := seed_all replicas epoch bytes in
  Ret (Ok tt).

(** The quarantine half of the leader's re-seed: only a published pair. *)
Definition reseed_quarantined (b : nat) (replicas : list nat) (s : AdvisoryState) : prog (res unit) :=
  if (0 <? quarantined_epoch s) && negb (quarantined_unpublished s)
  then reseed_quarantined_if_older b replicas (quarantined_epoch s) (encode_quarantined (quarantined s) (quarantined_epoch s))
  else Ret (Ok tt).

(** The poll; the answer is what it offers to the snapshot. *)
Definition reload_quarantined (b : nat) (live : AdvisoryState) : prog (res (option Adoption)) :=
  let*? etag := quarantined_storage_etag b in
  if decide (etag = quarantined_etag live) then Ret (Ok None) else
  match etag with
  | None => Ret (Ok None)
  | Some _ =>
    let*? bytes := call b (GetBytes QUARANTINED_KEY) in
    Ret (Ok (match parse_quarantined bytes with
             | Some stored => Some (MkAdoption (list_to_set (stored_names stored)) (stored_epoch stored) (Some etag))
             | None => None
             end))
  end.

(** The body a publish starts from: what was read, its token, and whether it was
    a body at all. *)
Definition publish_base (edit : QuarantinedEdit) (current : option (str * str)) : option (StoredQuarantined * option str * bool) :=
  match current with
  | Some (bytes, etag) =>
    match parse_quarantined bytes with
    | Some stored => Some (stored, Some etag, true)
    | None => if is_sweep edit then Some (no_quarantined, Some etag, false) else None
    end
  | None => Some (no_quarantined, None, false)
  end.

(** The other writer's edits since the sweep began, on top of the sweep. *)
Definition merge_sweep (set base_set have : gset str) : gset str := (set ∪ (have ∖ base_set)) ∖ (base_set ∖ have).

Definition next_set (b : nat) (edit : QuarantinedEdit) (have : gset str) (stored : StoredQuarantined) (stored_is_real : bool)
    : prog (res (gset str)) :=
  match edit with
  | One name blocked => Ret (Ok (edit_name have name blocked))
  | Derive name blocked =>
    if decide (edit_name have name blocked = have) then Ret (Ok have)
    else let*? status := Status.read_status b name in
         Ret (Ok (edit_name have name (StatusDoc.blocks_downloads (StatusDoc.status status))))
  | Sweep set base_set base_epoch =>
    Ret (Ok (if negb stored_is_real || (stored_epoch stored =? base_epoch) then set else merge_sweep set base_set have))
  end.

(** [live n] is the snapshot found at the [n]th look of an attempt. *)
Fixpoint publish_loop (attempts : nat) (live : nat -> nat -> AdvisoryState) (b : nat) (replicas : list nat) (edit : QuarantinedEdit)
    : prog (res Adoption) :=
  match attempts with
  | O => Ret (Err (Bail (&"could not publish the quarantined set after 8 attempts")))
  | S attempts =>
    let*? current := call b (GetWithEtag QUARANTINED_KEY) in
    match publish_base edit current with
    | None => Ret (Err Corrupt)
    | Some (stored, etag, stored_is_real) =>
      let behind := (stored_epoch stored <? quarantined_epoch (live O O)) && negb (is_sweep edit) in
      let have := if behind then quarantined (live O 1%nat) else list_to_set (stored_names stored) in
      let*? next := next_set b edit have stored stored_is_real in
      if bool_decide (next = have) && negb behind then Ret (Ok (MkAdoption next (stored_epoch stored) None)) else
      let epoch := u64_saturating_add (Z.max (stored_epoch stored) (quarantined_epoch (live O 2%nat))) 1 in
      let bytes := encode_quarantined next epoch in
      let*? wrote := match etag with
                     | Some etag => call b (PutIfMatch QUARANTINED_KEY etag bytes)
                     | None => call b (PutIfNoneMatch QUARANTINED_KEY bytes)
                     end in
      match wrote with
      | None => publish_loop attempts (fun i => live (S i)) b replicas edit
      | Some _ =>
        let* _ := seed_all replicas epoch bytes in
        Ret (Ok (MkAdoption next epoch (Some None)))
      end
    end
  end.
Definition publish_quarantined := publish_loop QUARANTINED_CAS_ATTEMPTS.

(** The increment of one project's status, armed locally first. *)
Definition arm_quarantine (s : AdvisoryState) (live : nat -> nat -> AdvisoryState) (b : nat) (replicas : list nat) (pkg : str) (blocked : bool)
    : AdvisoryState * prog (res Adoption) :=
  (arm_local_quarantine s pkg blocked, publish_quarantined live b replicas (One pkg blocked)).

(** ** The shared set never steps back *)

Section shared.
Context {E : Etags}.

(** The envelope a bucket holds, if it can be read. *)
Definition envelope (o : option str) : option StoredQuarantined := o ≫= parse_quarantined.

(** A write leaves a readable envelope, above the readable one it replaces; at
    the last epoch there is none above. *)
Definition epoch_grows (old new : option str) : Prop :=
  exists st', envelope new = Some st' /\ u64 (stored_epoch st')
    /\ forall st, envelope old = Some st -> u64 (stored_epoch st) ->
       stored_epoch st < stored_epoch st' \/ stored_epoch st' = u64_max.
Abbreviation quarantine_key := (fun _ : unit => QUARANTINED_KEY).
Definition epoch_guarded : nat -> forall R, op R -> Prop := follows quarantine_key epoch_grows.

Lemma guar_write b etag names epoch A (k : option str -> prog (res A)) old :
  u64 epoch -> (forall e, etag = Some e -> exists was, attests e was /\ old = Some was) -> (etag = None -> old = None) ->
  (forall st, envelope old = Some st -> u64 (stored_epoch st) -> stored_epoch st < epoch \/ epoch = u64_max) ->
  (forall x, guar epoch_guarded (fun _ => True) (k x)) ->
  guar epoch_guarded (fun _ => True)
    (pbind_ok (match etag with
               | Some e => call b (PutIfMatch QUARANTINED_KEY e (encode_quarantined names epoch))
               | None => call b (PutIfNoneMatch QUARANTINED_KEY (encode_quarantined names epoch))
               end) k).
Proof.
  intros Hu Hsome Hnone Habove Hk.
  assert (epoch_grows old (Some (encode_quarantined names epoch))) as Hm.
  { eexists. split; [unfold envelope, encode_quarantined, parse_quarantined; cbn [mbind option_bind]; apply decode_encode|].
    cbn [stored_epoch]. by split. }
  destruct etag as [e|]; (apply guar_call_ok; [|by intros; apply Hk|done]); intros ? _.
  - destruct (Hsome e eq_refl) as (was & Hwas & ->). by exists was.
  - by rewrite (Hnone eq_refl) in Hm.
Qed.

Lemma guar_seed b names epoch :
  u64 epoch -> guar epoch_guarded (fun _ => True) (seed_quarantined_onto b epoch (encode_quarantined names epoch)).
Proof.
  intros Hu. apply guar_call_ok; [by intros ?|intros current Hs|done]. destruct current as [[body etag]|].
  - case_match eqn:Hc; [done|].
    apply (guar_write b (Some etag) names epoch _ _ (Some body)); [done| |done| |done].
    + intros e [= <-]. exists body. split; [by apply (Hs body etag)|done].
    + unfold envelope. cbn [mbind option_bind]. intros st Hst _. rewrite Hst in Hc. left. lia.
  - by apply (guar_write b None names epoch _ _ None).
Qed.

Lemma guar_seed_all bs names epoch :
  u64 epoch -> guar epoch_guarded (fun _ => True) (seed_all bs epoch (encode_quarantined names epoch)).
Proof.
  intros Hu. induction bs as [|b bs IH]; [done|]. cbn [seed_all].
  by eapply (guar_bind _ _ _ (fun _ => True)); [apply guar_seed|].
Qed.

Lemma guar_reseed b bs s :
  u64 (quarantined_epoch s) -> guar epoch_guarded (fun _ => True) (reseed_quarantined b bs s).
Proof.
  intros Hu. unfold reseed_quarantined. case_match; [|done].
  eapply (guar_bind_ok _ _ _ (fun _ => True)); [by apply guar_seed|intros _ _|done].
  by eapply (guar_bind _ _ _ (fun _ => True)); [apply guar_seed_all|].
Qed.

Lemma guar_next_set b edit have stored real : guar epoch_guarded (fun _ => True) (next_set b edit have stored real).
Proof.
  destruct edit as [name blocked|name blocked|set base epoch]; cbn [next_set]; [done| |done].
  case_decide; [done|]. eapply (guar_bind_ok _ _ _ (fun _ => True)); [|done|done].
  by apply guar_call_bind.
Qed.

Lemma guar_publish n live b bs edit :
  (forall i j, u64 (quarantined_epoch (live i j))) -> guar epoch_guarded (fun _ => True) (publish_loop n live b bs edit).
Proof.
  revert live. induction n as [|n IH]; intros live Hlive; [done|]. cbn [publish_loop].
  apply guar_call_ok; [by intros ?|intros current Hs|done].
  destruct (publish_base edit current) as [[[stored etag] real]|] eqn:Hbase; [|done]. cbv zeta.
  eapply (guar_bind_ok _ _ _ (fun _ => True)); [apply guar_next_set|intros next _|done]. case_match; [done|].
  set (epoch := u64_saturating_add _ 1).
  assert (u64 epoch /\ forall st, stored = st -> u64 (stored_epoch st) -> stored_epoch st < epoch \/ epoch = u64_max) as [Hu Habove].
  { pose proof (Hlive O 2%nat) as Hl. unfold epoch, u64_saturating_add, u64 in *. split; [lia|]. intros st <- Hst. lia. }
  eapply guar_write with (old := fst <$> current); [done| | | |].
  - intros e ->. destruct current as [[bytes tag]|]; [|done]. exists bytes. split; [|done]. apply (Hs bytes e).
    cbn [publish_base] in Hbase. destruct (parse_quarantined bytes); [|destruct (is_sweep edit)]; congruence.
  - intros ->. destruct current as [[bytes tag]|]; [|done]. exfalso. cbn [publish_base] in Hbase.
    destruct (parse_quarantined bytes); [|destruct (is_sweep edit)]; congruence.
  - intros st Hst. apply Habove. destruct current as [[bytes tag]|]; [|done]. cbn [publish_base] in Hbase.
    unfold envelope in Hst. cbn [fmap option_fmap option_map fst mbind option_bind] in Hst. rewrite Hst in Hbase. congruence.
  - intros [e|]; [|by apply IH]. by eapply (guar_bind _ _ _ (fun _ => True)); [apply guar_seed_all|].
Qed.

(** Who works on the buckets: publishes and re-seeds of any node, whatever its
    snapshots, and everything that stays out of the shared set. *)
Inductive quarantine_client : prog unit -> Prop :=
  | client_publish live b bs edit :
      (forall i j, u64 (quarantined_epoch (live i j))) -> quarantine_client (thread (publish_quarantined live b bs edit))
  | client_reseed b bs s : u64 (quarantined_epoch s) -> quarantine_client (thread (reseed_quarantined b bs s))
  | client_elsewhere p : guar (spares quarantine_key) (fun _ => True) p -> quarantine_client p.

Lemma guar_quarantine_client p : quarantine_client p -> guar epoch_guarded (fun _ => True) p.
Proof.
  intros [live b bs edit Hl|b bs s Hs|q Hq].
  - eapply guar_thread, guar_publish, Hl.
  - by eapply guar_thread, guar_reseed.
  - eapply guar_weaken; [|exact Hq]. intros b R o. apply spares_follows.
Qed.

Lemma epochs_grow o o' st :
  rtc epoch_grows o o' -> envelope o = Some st -> u64 (stored_epoch st) ->
  exists st', envelope o' = Some st' /\ stored_epoch st <= stored_epoch st'
    /\ (stored_epoch st' = stored_epoch st -> o' = o \/ stored_epoch st = u64_max).
Proof.
  intros Hm. revert st. induction Hm as [o|o o1 o' (st1 & H1 & Hu1 & Hgrow) _ IH]; intros st Ho Hu.
  { exists st. split_and!; [done|lia|by left]. }
  destruct (IH st1 H1 Hu1) as (st' & Ho' & Hle & _). exists st'.
  destruct (Hgrow st Ho Hu) as [Hlt|Hmax]; unfold u64 in *; (split_and!; [done|lia|]); intros Heq; [lia|right; lia].
Qed.

(** ** A freeze that was acknowledged *)

(** The names a bucket's readable envelope lists. *)
Definition frozen_in (s : store) : gset str :=
  match envelope (contents s QUARANTINED_KEY) with Some st => list_to_set (stored_names st) | None => ∅ end.

Lemma frozen_encoded s names epoch :
  contents s QUARANTINED_KEY = Some (encode_quarantined names epoch) -> frozen_in s = names.
Proof.
  intros Hc. unfold frozen_in, envelope. rewrite Hc. cbn [mbind option_bind].
  unfold parse_quarantined, encode_quarantined. rewrite decode_encode. cbn [stored_names].
  apply set_eq. intros x. by rewrite elem_of_list_to_set, elem_of_in_order.
Qed.

Lemma exec_seed_all bs epoch bytes w u w' b :
  wf_world w -> b ∉ bs -> exec (seed_all bs epoch bytes) w u w' -> forall k, contents (w' b) k = contents (w b) k.
Proof.
  intros Hw Hb He. assert (guar (fun c _ _ => c ≠ b) (fun _ => True) (seed_all bs epoch bytes)) as Hg.
  { clear -Hb. induction bs as [|c bs IH]; [done|]. apply not_elem_of_cons in Hb as [Hc Hb]. cbn [seed_all].
    eapply (guar_bind _ _ _ (fun _ => True)); [|intros; by apply IH]. apply guar_call_ok; [done|intros [[body etag]|] _|done].
    - case_match; [done|]. by apply guar_call_ok.
    - by apply guar_call_ok. }
  destruct (exec_frame b (fun _ => True) _ (fun _ => True) _ _ _ _ Hw (guar_weaken _ _ _ _ _ (fun c R o Hc => other_avoids _ _ _ _ _ Hc) Hg) He)
    as [_ Hs].
  intros k. by apply Hs.
Qed.

Lemma exec_publish_one n live b bs name blocked w a w' :
  wf_world w -> b ∉ bs -> exec (publish_loop n live b bs (One name blocked)) w (Ok a) w' ->
  frozen_in (w' b) = ad_set a /\ (name ∈ ad_set a <-> blocked = true).
Proof.
  assert (forall have, name ∈ edit_name have name blocked <-> blocked = true) as Hedit.
  { intros have. unfold edit_name. destruct blocked; set_solver. }
  intros Hw Hb. revert live w Hw. induction n as [|n IH]; intros live w Hw He; [by destruct He|]. cbn [publish_loop] in He.
  apply exec_ok in He as (current & w1 & Hg & He). apply exec_read_call in Hg as [-> Hg]; [|done].
  pose proof (get_with_etag_answer _ _ _ _ _ Hg eq_refl) as Hcur.
  destruct (publish_base _ current) as [[[stored etag] real]|] eqn:Hbase; [|by destruct He]. cbv zeta in He.
  apply exec_ok in He as (next & w1 & Hn & He). apply exec_answer in Hn as [-> ->].
  set (behind := (_ <? _) && _) in He. set (have := if behind then _ else _) in He.
  destruct (bool_decide _ && negb behind) eqn:Hsame.
  { apply exec_answer in He as [-> ->]. cbn [ad_set]. split; [|apply Hedit].
    apply andb_true_iff in Hsame as [Heq Hbh]. apply bool_decide_eq_true in Heq. rewrite Heq. apply negb_true_iff in Hbh.
    unfold have. rewrite Hbh. unfold frozen_in, envelope. destruct current as [[bytes tag]|].
    - rewrite <- Hcur. cbn [fmap option_fmap option_map fst mbind option_bind]. cbn [publish_base] in Hbase.
      destruct (parse_quarantined bytes) as [st|]; [|done]. by injection Hbase as -> _ _.
    - rewrite <- Hcur. cbn [publish_base] in Hbase. injection Hbase as <- _ _. done. }
  apply exec_ok in He as (wrote & w1 & Hp & He). destruct wrote as [tok|].
  - assert (wf_world w1) as Hw1 by (destruct etag; by eapply wf_exec).
    apply exec_bind in He as (u & w2 & Hseed & He). apply exec_answer in He as [-> ->]. cbn [ad_set]. split; [|apply Hedit].
    eapply frozen_encoded. rewrite (exec_seed_all _ _ _ _ _ _ _ Hw1 Hb Hseed).
    destruct etag as [e|]; apply exec_call in Hp as (s & Hs & ->); rewrite fn_lookup_insert.
    + eapply put_if_match_answer; [apply Hw|exact Hs|done].
    + by eapply put_if_none_match_answer.
  - eapply IH; [|exact He]. destruct etag; by eapply wf_exec.
Qed.

End shared.

(** ** The snapshot of a node *)

(** What its tasks do to it, each under the lock. *)
Inductive slot_op :=
  | OpAdopt (a : Adoption)
  | OpArm (pkg : str) (blocked : bool)
  | OpHold (pkg : str) (blocked : bool)
  | OpProbe (aligned_sha : option str) (d : ProbeDelta)
  | OpFeed (new_db : AdvisoryDb) (sha etag : str) (now_unix : Z).
Definition slot_step (s : AdvisoryState) (o : slot_op) : AdvisoryState :=
  match o with
  | OpAdopt a => (adopt_quarantined s a).1
  | OpArm pkg blocked => arm_local_quarantine s pkg blocked
  | OpHold pkg blocked => hold_fenced_quarantine s pkg blocked
  | OpProbe sha d => apply_probe_overlay s sha d
  | OpFeed new_db sha etag now => swap_feed s new_db sha etag now
  end.

(** One step keeps a frozen name, unless it thaws that name or adopts a set that
    is not older and lacks it. *)
Lemma slot_step_holds s o pkg floor :
  floor <= quarantined_epoch s -> pkg ∈ quarantined s -> o ≠ OpArm pkg false ->
  (forall a, o = OpAdopt a -> ad_epoch a < floor \/ pkg ∈ ad_set a) ->
  pkg ∈ quarantined (slot_step s o) /\ quarantined_epoch s <= quarantined_epoch (slot_step s o).
Proof.
  intros Hfl Hpkg Harm Had. destruct o as [a|name blocked|name blocked|sha d|new_db sha etag now]; cbn [slot_step].
  - unfold adopt_quarantined. cbv zeta. cbn [fst]. case_decide as Hno; cbn [quarantined quarantined_epoch with_quarantine]; [|lia || done].
    destruct (ad_epoch a <? quarantined_epoch s) eqn:Hlt; [done|]. apply Z.ltb_ge in Hlt.
    destruct (Had a eq_refl) as [?|?]; [lia|done].
  - unfold arm_local_quarantine. cbv zeta. case_decide; [done|]. cbn [quarantined quarantined_epoch with_quarantine]. split; [|done].
    unfold edit_name. destruct blocked; [set_solver|]. assert (name ≠ pkg) by congruence. set_solver.
  - unfold hold_fenced_quarantine. by case_decide.
  - unfold apply_probe_overlay. by case_decide.
  - unfold swap_feed. by case_decide.
Qed.

Lemma slot_holds ops s pkg floor :
  floor <= quarantined_epoch s -> pkg ∈ quarantined s -> OpArm pkg false ∉ ops ->
  (forall a, OpAdopt a ∈ ops -> ad_epoch a < floor \/ pkg ∈ ad_set a) ->
  pkg ∈ quarantined (foldl slot_step s ops) /\ quarantined_epoch s <= quarantined_epoch (foldl slot_step s ops).
Proof.
  revert s. induction ops as [|o ops IH]; intros s Hfl Hpkg Harm Had; [done|]. cbn [foldl].
  apply not_elem_of_cons in Harm as [Ho Harm].
  destruct (slot_step_holds s o pkg floor) as [Hp He]; [done|done|congruence|intros a ->; apply Had; by left|].
  destruct (IH (slot_step s o)) as [Hp' He']; [lia|done|done|intros a Ha; apply Had; by right|]. split; [done|lia].
Qed.

(** ** The probe has the last word *)

Lemma fold_push {R} (added : list (str * R)) (m : gmap str (list R)) name :
  default [] (foldl (fun m x => push_rules m x.1 [x.2]) m added !! name) = default [] (m !! name) ++ rules_for name added.
Proof.
  revert m. induction added as [|[n r] added IH]; intros m; cbn [foldl]; [by rewrite app_nil_r|].
  rewrite IH, lookup_push_rules, <- app_assoc. f_equal. by rewrite <- rules_for_app.
Qed.

Definition stale `{OverlayRule R} (added : list (str * R)) (withdrawn : gset str) : gset str :=
  withdrawn ∪ list_to_set ((fun x => rule_id x.2) <$> added).

Lemma merge_overlay_rules `{OverlayRule R} (m : gmap str (list R)) added withdrawn name :
  default [] (merge_overlay m added withdrawn !! name)
  = filter (fun r => rule_id r ∉ stale added withdrawn) (default [] (m !! name)) ++ rules_for name added.
Proof.
  unfold merge_overlay. cbv zeta. rewrite fold_push. f_equal. fold (stale added withdrawn).
  case_decide as Hst.
  - rewrite filter_all; [done|]. intros r _. rewrite Hst. set_solver.
  - rewrite map_lookup_filter, lookup_fmap. destruct (m !! name) as [rules|]; [|done]. cbn.
    case_guard as Hg; [done|]. cbn. by destruct (filter _ rules).
Qed.

Lemma elem_of_push_new ids new id : id ∈ foldl push_new ids new <-> id ∈ ids \/ id ∈ new.
Proof.
  revert ids. induction new as [|x new IH]; intros ids; cbn [foldl]; [rewrite elem_of_nil; tauto|].
  rewrite IH, elem_of_cons. unfold push_new. case_decide; [|rewrite elem_of_app, list_elem_of_singleton]; naive_solver.
Qed.

(** After a probe, an advisory blocks a file through the baseline, or through its
    current rules: the ones the probe brought where the probe read or withdrew
    the advisory, the older ones of the overlay where it did not. *)
Lemma probe_blocks s d name version id :
  id ∈ blocking (apply_probe_overlay s (zip_sha256 s) d) name version <->
  (id ∈ (match db s with Some db => blocking_advisories db name version | None => [] end))
  \/ (exists rule, (name, rule) ∈ added d /\ mal_id rule = id /\ condemns rule version = true)
  \/ (id ∉ stale (added d) (delta_withdrawn d)) /\ id ∈ block_hits (overlay s) name version.
Proof.
  unfold blocking, apply_probe_overlay. rewrite decide_True by done. cbn [db overlay].
  rewrite elem_of_push_new, !elem_of_block_hits, merge_overlay_rules. setoid_rewrite elem_of_app.
  setoid_rewrite list_elem_of_filter. setoid_rewrite elem_of_rules_for. unfold rule_id, mal_overlay_rule. naive_solver.
Qed.

(** ** Properties *)

(** C19: the shared quarantined set never steps back. Along every interleaving of
    publishes and re-seeds by any number of nodes, whatever their snapshots, with
    any storage faults, a bucket's readable set is only replaced by a readable
    one of a higher epoch: its epoch never falls, and as long as it stands still
    (short of the largest number) the bytes do too. *)
Theorem quarantine_never_steps_back {E : Etags} (w w' : world) ts ts' b st :
  wf_world w -> Forall quarantine_client ts -> rtc step (w, ts) (w', ts') ->
  envelope (contents (w b) QUARANTINED_KEY) = Some st -> u64 (stored_epoch st) ->
  exists st', envelope (contents (w' b) QUARANTINED_KEY) = Some st' /\ stored_epoch st <= stored_epoch st'
    /\ (stored_epoch st' = stored_epoch st ->
        contents (w' b) QUARANTINED_KEY = contents (w b) QUARANTINED_KEY \/ stored_epoch st = u64_max).
Proof.
  intros Hw Hts Hsteps Hst Hu. assert (Forall (guar epoch_guarded (fun _ => True)) ts) as Hg.
  { eapply Forall_impl; [exact Hts|]. intros p. apply guar_quarantine_client. }
  destruct (steps_follow _ _ _ _ _ _ Hw Hg Hsteps) as [_ HT]. exact (epochs_grow _ _ _ (HT b tt) Hst Hu).
Qed.

(** An acknowledged freeze is stored. When the publish of one project's new
    status answers, the selected bucket's set is the one the node adopts, and it
    holds the project exactly when the status blocks downloads, also where the
    bucket was behind the node, and whatever failed on the way to the peers. *)
Theorem freeze_lands {E : Etags} live b bs name blocked (w w' : world) a :
  wf_world w -> b ∉ bs -> exec (publish_quarantined live b bs (One name blocked)) w (Ok a) w' ->
  frozen_in (w' b) = ad_set a /\ (name ∈ ad_set a <-> blocked = true).
Proof. apply exec_publish_one. Qed.

(** Old news does not thaw. A project that is quarantined on a node stays so
    through any sequence of polls, publishes, probes, feed reloads and changes of
    other projects, in any order, as long as nothing thaws it there and every
    adopted set either lists it or is of a lower epoch than the one the node
    started with; the node's epoch never falls. *)
Theorem live_quarantine_holds s ops pkg :
  pkg ∈ quarantined s -> OpArm pkg false ∉ ops ->
  (forall a, OpAdopt a ∈ ops -> ad_epoch a < quarantined_epoch s \/ pkg ∈ ad_set a) ->
  is_quarantined (foldl slot_step s ops) pkg = true
  /\ quarantined_epoch s <= quarantined_epoch (foldl slot_step s ops).
Proof.
  intros Hpkg Harm Had. destruct (slot_holds ops s pkg (quarantined_epoch s)) as [Hp He]; [done..|].
  split; [|done]. unfold is_quarantined. by rewrite bool_decide_true.
Qed.

End node.

(** ** Examples *)

#[global] Instance StoredQuarantined_eq_dec : EqDecision StoredQuarantined.
Proof. solve_decision. Defined.
#[global] Instance StoredQuarantined_countable : Countable StoredQuarantined.
Proof.
  apply (inj_countable' (fun q => (stored_names q, stored_epoch q)) (fun x => MkStoredQ x.1 x.2)). by intros [].
Defined.
Definition toy_quarantine_codec : Codec StoredQuarantined := countable_codec.

Definition toy_state : @AdvisoryState toy_pep440 :=
  @with_quarantine toy_pep440 default_state {[&"evil"]} None 1 false.
Definition example_publish (name : str) : prog (res Adoption) :=
  @publish_quarantined toy_pep440 toy_quarantine_codec toy_status_codec (fun _ _ => toy_state) 0 [1%nat] (One name true).
Definition frozen_world : world := (@run content_etags _ example_env empty_world (example_publish (&"evil"))).1.
Definition frozen_envelope : StoredQuarantined := MkStoredQ [&"evil"] 2.

Lemma frozen_world_wf : @wf_world content_etags frozen_world.
Proof. apply wf_run, empty_world_wf. Qed.

Lemma quarantine_never_steps_back_witness :
  exists st', @envelope toy_quarantine_codec
      (contents ((@run content_etags _ example_env frozen_world (thread (example_publish (&"worse")))).1 0%nat) QUARANTINED_KEY)
      = Some st' /\ 2 <= stored_epoch st'.
Proof.
  destruct (@quarantine_never_steps_back toy_pep440 toy_quarantine_codec toy_status_codec content_etags frozen_world
              (@run content_etags _ example_env frozen_world (thread (example_publish (&"worse")))).1
              [thread (example_publish (&"worse"))]
              [Ret (@run content_etags _ example_env frozen_world (thread (example_publish (&"worse")))).2] 0 frozen_envelope)
    as (st' & Hst & Hle & _).
  - apply frozen_world_wf.
  - constructor; [|constructor]. apply client_publish. by intros i j.
  - apply steps_run, example_env_good.
  - vm_compute. reflexivity.
  - vm_compute. split; discriminate.
  - exists st'. split; [exact Hst|exact Hle].
Defined.

Lemma freeze_lands_witness : &"evil" ∈ @frozen_in toy_quarantine_codec (frozen_world 0%nat).
Proof.
  destruct (@freeze_lands toy_pep440 toy_quarantine_codec toy_status_codec content_etags (fun _ _ => toy_state) 0 [1%nat] (&"evil") true
              empty_world frozen_world (MkAdoption {[&"evil"]} 2 (Some None))) as [Hset Hin].
  - apply empty_world_wf.
  - set_solver.
  - assert ((@run content_etags _ example_env empty_world (example_publish (&"evil"))).2 = Ok (MkAdoption {[&"evil"]} 2 (Some None)))
      as <- by (vm_compute; reflexivity).
    apply exec_run, example_env_good.
  - rewrite Hset. by apply Hin.
Defined.

(** A stale poll and another project's thaw leave the freeze in place. *)
Lemma live_quarantine_holds_witness :
  is_quarantined (foldl slot_step toy_state [OpAdopt (MkAdoption ∅ 0 None); OpArm (&"other") false]) (&"evil") = true
  /\ 1 <= quarantined_epoch (foldl slot_step toy_state [OpAdopt (MkAdoption ∅ 0 None); OpArm (&"other") false]).
Proof.
  apply (live_quarantine_holds toy_state).
  - set_solver.
  - rewrite !not_elem_of_cons. split_and!; [done|done|apply not_elem_of_nil].
  - intros a [[= ->]|[?|Ha%not_elem_of_nil]%elem_of_cons]%elem_of_cons; [by left|done|done].
Defined.

End Advisories.
