(* ===== verification/Simple.v ===== *)
(** * The Simple API client (src/simple.rs)

    A project listing of another index: its files, what they say about their
    metadata, and the project status kept apart from a status that could not be
    read. The transport is a parameter: a response is its declared length and
    the chunks of its body. *)
From S2P Require Import Prelude RustStr Documents Render.
Import Sidecar StatusDoc Render.

Module Simple.

(** [serde_json::Value]. *)
Inductive Value :=
  | VNull
  | VBool (b : bool)
  | VNumber (text : str)
  | VString (s : str)
  | VArray (elements : list Value)
  | VObject (members : list (str * Value)).

(** [Value::get] with a string key, [Value::as_str]. *)
Definition value_get (key : str) (v : Value) : option Value :=
  match v with
  | VObject members => snd <$> List.find (fun m => bool_decide (m.1 = key)) members
  | _ => None
  end.
Definition value_str (v : Value) : option str := match v with VString s => Some s | _ => None end.

(** [struct SimpleFile]. *)
Record SimpleFile := MkSimple {
  sf_filename : str;
  sf_url : str;
  sf_hashes : gmap str str;
  sf_size : option Z;
  sf_upload_time : option str;
  sf_requires_python : option str;
  sf_yanked : Yanked;
  sf_core_metadata : option Value;
  sf_dist_info_metadata : option Value;
  sf_provenance : option str
}.

Definition sf_sha256 (f : SimpleFile) : option str := sf_hashes f !! &"sha256".

Definition truthy (v : Value) : bool := match v with VBool false => false | _ => true end.

Definition has_core_metadata (f : SimpleFile) : bool :=
  default false (truthy <$> sf_core_metadata f) || default false (truthy <$> sf_dist_info_metadata f).

(** The first digest that either field carries. *)
Definition core_metadata_sha256 (f : SimpleFile) : option str :=
  head (omap (fun v => let! d := value_get (&"sha256") v in value_str d)
             (option_list (sf_core_metadata f) ++ option_list (sf_dist_info_metadata f))).

Definition as_file_metadata (f : SimpleFile) : FileMetadata :=
  MkFile (sf_filename f) (default [] (sf_sha256 f)) (default 0 (sf_size f)) (sf_upload_time f) None
    (sf_yanked f) (sf_requires_python f) (has_core_metadata f)
    (to_ascii_lowercase <$> core_metadata_sha256 f) (bool_decide (is_Some (sf_provenance f))).

(** [RawIndex], [SimpleIndex]. *)
Record RawIndex := MkRaw { raw_files : list SimpleFile; raw_project_status : option Value }.
Record SimpleIndex := MkIndex {
  index_files : list SimpleFile;
  project_status : option ProjectStatusDoc;
  project_status_unparseable : bool
}.

Inductive UpstreamStatus := Absent | Known (d : ProjectStatusDoc) | Unparseable.

Definition active (files : list SimpleFile) : SimpleIndex := MkIndex files None false.

Definition upstream_status (i : SimpleIndex) : UpstreamStatus :=
  match project_status i, project_status_unparseable i with
  | Some doc, _ => Known doc
  | None, true => Unparseable
  | None, false => Absent
  end.

(** The last piece of [split('/')] after the trailing slashes go. *)
Definition simple_root (base : str) : str :=
  let base := trim_end_if (fun c => bool_decide ("/"%char = c)) base in
  match last (split "/"%char base) with
  | Some piece => if bool_decide (piece = &"simple") || bool_decide (piece = &"+simple") then base
                  else base ++ &"/simple"
  | None => base ++ &"/simple"
  end.

Definition MAX_INDEX_BYTES : Z := 64 * 1024 * 1024.

Inductive index_error := DeclaredTooLarge | BodyTooLarge | Transport | HtmlPage | NotJson.

(** The two answers of [non_json_index_error]. *)
Definition is_ascii_whitespace (c : ascii) : bool :=
  bool_decide (c ∈ ["009"%char; "010"%char; "012"%char; "013"%char; " "%char]).
Definition non_json_index_error (content_type body : str) : index_error :=
  let ct := trim (default [] (head (split ";"%char content_type))) in
  if eq_ignore_ascii_case ct (&"text/html")
     || bool_decide (List.find (fun b => negb (is_ascii_whitespace b)) body = Some "<"%char)
  then HtmlPage else NotJson.

(** A response: the declared length, the declared type, and the chunks; a
    chunk that could not be read is [None]. *)
Record Response := MkResponse {
  content_length : option Z;
  content_type : str;
  body_chunks : list (option str)
}.

Section reading.
(** [serde_json::from_value] of a status, [from_slice] of a listing. *)
Context (status_of_value : Value -> option ProjectStatusDoc) (index_of_bytes : str -> option RawIndex).

(** [impl From<RawIndex> for SimpleIndex]. *)
Definition from_raw (raw : RawIndex) : SimpleIndex :=
  let parsed := status_of_value <$> raw_project_status raw in
  MkIndex (raw_files raw) (mjoin parsed) (bool_decide (parsed = Some None)).

Fixpoint read_chunks (buf : str) (chunks : list (option str)) : result index_error str :=
  match chunks with
  | [] => Ok buf
  | None :: _ => Err Transport
  | Some chunk :: chunks =>
    if MAX_INDEX_BYTES <? Z.of_nat (length buf) + Z.of_nat (length chunk) then Err BodyTooLarge
    else read_chunks (buf ++ chunk) chunks
  end.

Definition read_index_capped (resp : Response) : result index_error SimpleIndex :=
  if match content_length resp with Some len => MAX_INDEX_BYTES <? len | None => false end
  then Err DeclaredTooLarge else
  let? buf := read_chunks [] (body_chunks resp) in
  match index_of_bytes buf with
  | Some raw => Ok (from_raw raw)
  | None => Err (non_json_index_error (content_type resp) buf)
  end.

(** ** A status that cannot be read is not an active project *)

Lemma upstream_absent raw : upstream_status (from_raw raw) = Absent <-> raw_project_status raw = None.
Proof.
  unfold upstream_status, from_raw. cbn. destruct (raw_project_status raw) as [v|]; cbn; [|done].
  destruct (status_of_value v); cbn; [done|]. by rewrite bool_decide_eq_true_2.
Qed.

Lemma upstream_known raw d :
  upstream_status (from_raw raw) = Known d
  <-> exists v, raw_project_status raw = Some v /\ status_of_value v = Some d.
Proof.
  unfold upstream_status, from_raw. cbn. destruct (raw_project_status raw) as [v|]; cbn; [|naive_solver].
  destruct (status_of_value v) eqn:E; cbn; [naive_solver|].
  rewrite bool_decide_eq_true_2 by done. naive_solver.
Qed.

(** ** The body is read whole and within the ceiling *)

Lemma read_chunks_ok buf chunks out :
  Z.of_nat (length buf) <= MAX_INDEX_BYTES -> read_chunks buf chunks = Ok out ->
  out = buf ++ concat (omap id chunks) /\ Forall is_Some chunks /\ Z.of_nat (length out) <= MAX_INDEX_BYTES.
Proof.
  revert buf. induction chunks as [|[chunk|] chunks IH]; intros buf Hb; cbn [read_chunks]; [|case_match; [done|]|done].
  - intros [= <-]. by rewrite app_nil_r.
  - intros Hok. bool_to_prop. apply IH in Hok as (-> & Hall & Hlen); [|rewrite length_app; lia].
    rewrite <- app_assoc in Hlen |- *. split; [done|]. split; [|done]. constructor; [by eexists|done].
Qed.

Lemma read_index_ok resp index :
  read_index_capped resp = Ok index ->
  exists raw, Forall is_Some (body_chunks resp)
    /\ index_of_bytes (concat (omap id (body_chunks resp))) = Some raw
    /\ index = from_raw raw /\ Z.of_nat (length (concat (omap id (body_chunks resp)))) <= MAX_INDEX_BYTES.
Proof.
  unfold read_index_capped. case_match; [done|]. destruct (read_chunks [] _) as [buf|] eqn:Hr; [|done]. cbn [rbind].
  apply read_chunks_ok in Hr as (-> & Hall & Hlen); [|done]. cbn [app] in *.
  destruct (index_of_bytes _) as [raw|] eqn:Hi; [|done]. intros [= <-]. by exists raw.
Qed.
End reading.
End Simple.
