(* ===== verification/Requires.v ===== *)
(** * Reading a requirement (src/deps.rs)

    [parse_requirement] takes a [Requires-Dist] entry apart: the name, the
    extras asked for, the version range, and the extras of the requirer the
    entry belongs to. The text comes from a package index, so it is arbitrary
    UTF-8; slicing it off a character boundary panics, which is the [Err Panicked]
    of these definitions. *)
From S2P Require Import Prelude RustStr Pep440 Names.
Import Names.

Module Requires.

Definition DQUOTE : ascii := "034"%char.
Definition SQUOTE : ascii := "'"%char.

Section requirement.
Context {P : Pep440}.
(** [char::is_alphanumeric] of a character outside ASCII, from the Unicode
    tables of the standard library. *)
Context (unicode_alphanumeric : str -> bool).

Definition is_alphanumeric (ch : str) : bool :=
  match ch with [c] => is_ascii_alphanumeric c | _ => unicode_alphanumeric ch end.

Definition word_char (ch : str) : bool := is_alphanumeric ch || bool_decide (ch = &"_").

(** The characters that end a run of operator characters. *)
Definition stops_operator (ch : str) : bool :=
  is_alphanumeric ch
  || match ch with
     | [c] => bool_decide (c ∈ ["_"%char; DQUOTE; SQUOTE; " "%char; "("%char; ")"%char])
     | _ => false
     end.

(** The length of the token at the start of a text whose first character is
    [c]: a quoted text, a word, or a run of operator characters. *)
Definition token_len (c rest : str) : nat :=
  if bool_decide (c = [DQUOTE]) || bool_decide (c = [SQUOTE]) then
    match find_char (fun ch => bool_decide (ch = c)) (drop 1 rest) with
    | Some i => (i + 2)%nat
    | None => length rest
    end
  else if word_char c then
    default (length rest) (find_char (fun ch => negb (word_char ch)) rest)
  else
    match find_char stops_operator rest with
    | Some i => if (0 <? i)%nat then i else length c
    | None => length c
    end.

(** The loop of [marker_extras]; a token is at least one byte, so the length
    of the text is fuel enough. *)
Fixpoint tokens (fuel : nat) (rest : str) : list str :=
  match fuel, chars rest with
  | S fuel, c :: _ =>
    let len := token_len c rest in
    take len rest :: tokens fuel (trim_start (drop len rest))
  | _, _ => []
  end.

(** The text between the quotes: the first and the last byte go. *)
Definition quoted (t : str) : result panic (option str) :=
  if (2 <=? length t)%nat && (starts_with [DQUOTE] t || starts_with [SQUOTE] t) then
    let? inner := slice t 1 (length t - 1) in Ok (Some (normalize_pkg_name inner))
  else Ok None.

(** [slice::windows(3)], filtered and mapped in order. *)
Fixpoint extra_tests (ts : list str) : result panic (list str) :=
  match ts with
  | w0 :: ((w1 :: w2 :: _) as ts') =>
    let? here :=
      (if bool_decide (w1 = &"==") then
         if bool_decide (w0 = &"extra") then quoted w2
         else if bool_decide (w2 = &"extra") then quoted w0
         else Ok None
       else Ok None) in
    let? more := extra_tests ts' in
    Ok (option_list here ++ more)
  | _ => Ok []
  end.

Definition marker_extras (marker : str) : result panic (list str) :=
  let rest := trim_start marker in extra_tests (tokens (length rest) rest).

(** [struct Requirement]. *)
Record Requirement := MkReq {
  req_name : str;
  req_specifiers : option VersionSpecifiers;
  req_extras : list str;
  only_for : list str
}.

Definition req_name_byte (c : ascii) : bool :=
  is_ascii_alphanumeric c || bool_decide (c ∈ ["-"%char; "_"%char; "."%char]).

(** The leading bytes that satisfy [f], and the rest ([str::find] and the two
    slices around the offset). *)
Fixpoint span (f : ascii -> bool) (s : str) : str * str :=
  match s with
  | c :: s' => if f c then let '(l, r) := span f s' in (c :: l, r) else ([], s)
  | [] => ([], [])
  end.

Definition parse_requirement (req : str) : result panic (option Requirement) :=
  let '(req, marker) := default (req, []) (split_once ";"%char req) in
  let req := trim req in
  if contains_byte "@"%char req then Ok None else
  let '(head, rest) := span req_name_byte req in
  match checked_pkg_name head with
  | None => Ok None
  | Some name =>
    let rest := trim_start rest in
    let bracket :=
      match strip_prefix (&"[") rest with
      | Some open =>
        (fun '(list, after) =>
           (filter (fun e => e ≠ []) ((fun e => normalize_pkg_name (trim e)) <$> split ","%char list), after))
        <$> split_once "]"%char open
      | None => Some ([], rest)
      end in
    match bracket with
    | None => Ok None
    | Some (extras, rest) =>
      let rest := trim rest in
      let rest := trim_start_if (fun d => bool_decide ("("%char = d)) rest in
      let rest := trim (trim_end_if (fun d => bool_decide (")"%char = d)) rest) in
      let specifiers := if bool_decide (rest = []) then None else parse_specifiers rest in
      let? only := marker_extras marker in
      Ok (Some (MkReq name specifiers extras only))
    end
  end.

(** ** When reading panics *)

Definition quote_byte (c : ascii) : Prop := c = DQUOTE \/ c = SQUOTE.

Lemma quote_ascii c : quote_byte c -> is_ascii c = true /\ continuation c = false.
Proof. by intros [-> | ->]. Qed.

(** A token that opens with a quote closes with one, or the quote is open and
    it runs to the end. *)
Lemma quoted_token c rest :
  quote_byte c ->
  let t := take (token_len [c] (c :: rest)) (c :: rest) in
  last t = Some c \/ t = c :: rest /\ c ∉ rest.
Proof.
  intros Hq. cbn zeta. unfold token_len.
  replace (bool_decide ([c] = [DQUOTE]) || bool_decide ([c] = [SQUOTE])) with true
    by (destruct Hq as [-> | ->]; done).
  change (drop 1 (c :: rest)) with rest.
  destruct (find_char (fun ch => bool_decide (ch = [c])) rest) as [i|] eqn:Hi.
  - left. apply find_char_byte in Hi. replace (i + 2)%nat with (S (S i)) by lia. cbn [take].
    erewrite take_S_r by done. by rewrite app_comm_cons, last_snoc.
  - right. split; [by rewrite take_ge|]. eapply find_char_none, Hi. by apply quote_ascii.
Qed.

(** What is left to scan is always an end of the text. *)
Lemma scan_suffix len rest : trim_start (drop len rest) `suffix_of` rest.
Proof. etrans; [apply trim_start_suffix|]. exists (take len rest). by rewrite take_drop. Qed.

(** A token that begins with a quote and does not end with it is the last one,
    and its quote is open. *)
Lemma token_open fuel rest pre c t post :
  tokens fuel rest = pre ++ (c :: t) :: post -> quote_byte c -> last (c :: t) ≠ Some c -> post = [] /\ c ∉ t.
Proof.
  intros Ht Hq Hl. revert rest pre Ht. induction fuel as [|fuel IH]; intros rest pre Ht; [by destruct pre|].
  cbn [tokens] in Ht. destruct (chars rest) as [|ch cs] eqn:Hc; [by destruct pre|].
  destruct pre as [|t0 pre]; injection Ht as Ht Hrest; [|by eapply IH].
  destruct rest as [|d rest]; [done|]. assert (d = c) as ->.
  { by destruct (token_len ch (d :: rest)); [|injection Ht]. }
  destruct (chars_ascii c rest) as [cs' Hc']; [by apply quote_ascii|]. rewrite Hc' in Hc. injection Hc as <- _.
  destruct (quoted_token c rest Hq) as [H|[H Hn]]; rewrite Ht in H; [done|]. injection H as ->. split; [|done].
  rewrite <- Hrest. assert (drop (token_len [c] (c :: rest)) (c :: rest) = []) as ->.
  { apply (f_equal length) in Ht. rewrite length_take in Ht. apply drop_ge. cbn [length] in *. lia. }
  by destruct fuel.
Qed.

Lemma tokens_split fuel rest t : splits_at_ascii rest -> t ∈ tokens fuel rest -> splits_at_ascii t.
Proof.
  revert rest. induction fuel as [|n IH]; intros rest Hr; [set_solver|]. cbn [tokens].
  destruct (chars rest) as [|ch cs]; [set_solver|]. rewrite elem_of_cons.
  intros [-> |Ht]; [by apply splits_at_ascii_take|]. eapply IH, Ht.
  by eapply splits_at_ascii_suffix; [apply scan_suffix|].
Qed.

Lemma last_suffix (s t : str) c : s `suffix_of` t -> last s = Some c -> last t = Some c.
Proof. intros [k ->] H. by rewrite last_app, H. Qed.

(** A quoted text loses its two ends safely unless its last byte lies inside a
    character. *)
Lemma quoted_panics t :
  splits_at_ascii t ->
  quoted t = Err Panicked <-> exists c r d, t = c :: r /\ quote_byte c /\ last r = Some d /\ continuation d = true.
Proof.
  intros Hs. unfold quoted. destruct t as [|c [|c1 r]]; [naive_solver..|]. cbn [length Nat.leb andb].
  destruct (starts_with [DQUOTE] (c :: c1 :: r) || starts_with [SQUOTE] (c :: c1 :: r)) eqn:Hq.
  2:{ split; [done|]. intros (c' & r' & d & [= <- <-] & Hc & _). by destruct Hc as [-> | ->]. }
  assert (quote_byte c) as Hc.
  { by apply orb_true_iff in Hq as [[? [= -> _]]%starts_with_true|[? [= -> _]]%starts_with_true]; [left|right]. }
  unfold slice. cbn [Nat.sub Nat.leb andb].
  assert (is_char_boundary (c :: c1 :: r) 1 = true) as ->.
  { unfold is_char_boundary. cbn. rewrite (Hs 0%nat c c1); [done|done|done|by apply quote_ascii]. }
  destruct (last (c1 :: r)) as [d|] eqn:Hd; [|by apply last_None in Hd].
  assert (is_char_boundary (c :: c1 :: r) (S (length r)) = negb (continuation d)) as ->.
  { unfold is_char_boundary. cbn [Nat.eqb orb]. change ((c :: c1 :: r) !! S (length r)) with ((c1 :: r) !! length r).
    rewrite last_lookup in Hd. cbn [length Nat.pred] in Hd. by rewrite Hd. }
  split.
  - destruct (continuation d) eqn:Hcont; [|done]. intros _. by exists c, (c1 :: r), d.
  - intros (c' & r' & d' & [= <- <-] & _ & Hd' & Hcont). rewrite Hd in Hd'. injection Hd' as <-. by rewrite Hcont.
Qed.

(** The comparison a panic comes from. *)
Lemma extra_tests_panic ts :
  extra_tests ts = Err Panicked ->
  exists pre w0 w2 post, ts = pre ++ w0 :: (&"==") :: w2 :: post
    /\ (w0 = &"extra" /\ quoted w2 = Err Panicked \/ quoted w0 = Err Panicked).
Proof.
  induction ts as [|w0 ts IH]; [done|]. cbn [extra_tests]. destruct ts as [|w1 [|w2 rest]]; [done..|].
  destruct (if bool_decide (w1 = &"==") then _ else _) as [here|[]] eqn:Hhere; cbn [rbind].
  - destruct (extra_tests (w1 :: w2 :: rest)) as [more|[]] eqn:Hmore; cbn [rbind]; [done|].
    intros _. destruct (IH eq_refl) as (pre & v0 & v2 & post & -> & Hp). by exists (w0 :: pre), v0, v2, post.
  - intros _. exists [], w0, w2, rest. repeat case_bool_decide; try done; subst; split; auto.
Qed.

Lemma extra_tests_open pre t : quoted t = Err Panicked -> extra_tests (pre ++ [&"extra"; &"=="; t]) = Err Panicked.
Proof.
  intros Ht. induction pre as [|w0 pre IH]; [cbn -[quoted]; by rewrite Ht|].
  cbn [app extra_tests]. destruct (pre ++ [&"extra"; &"=="; t]) as [|w1 [|w2 rest]] eqn:E; [by destruct pre|by destruct pre as [|?[|??]]|].
  rewrite IH. by destruct (if bool_decide (w1 = &"==") then _ else _) as [here|[]].
Qed.

(** A marker that ends in a test of [extra] against a quote that is not closed,
    the last byte of which is inside a character. *)
Definition open_extra (marker : str) : Prop :=
  exists pre c r d, tokens (length (trim_start marker)) (trim_start marker) = pre ++ [&"extra"; &"=="; c :: r]
    /\ quote_byte c /\ (c ∉ r) /\ last r = Some d /\ continuation d = true.

Lemma marker_panics marker :
  splits_at_ascii marker -> marker_extras marker = Err Panicked <-> open_extra marker.
Proof.
  intros Hs. unfold marker_extras, open_extra. cbn zeta. set (ts := tokens _ _).
  assert (forall t, t ∈ ts -> splits_at_ascii t) as Hts.
  { intros t Ht. eapply tokens_split, Ht. eauto using splits_at_ascii_suffix, trim_start_suffix. }
  assert (forall pre t post, ts = pre ++ t :: post -> quoted t = Err Panicked -> post = []
    /\ exists c r d, t = c :: r /\ quote_byte c /\ (c ∉ r) /\ last r = Some d /\ continuation d = true) as Hlast.
  { intros pre t post Ht Hp. apply quoted_panics in Hp as (c & r & d & -> & Hq & Hd & Hcont).
    - destruct (token_open _ _ _ _ _ _ Ht Hq) as [-> Hn]; [|split; [done|]; by exists c, r, d].
      rewrite last_cons, Hd. intros [= ->]. by rewrite (proj2 (quote_ascii c Hq)) in Hcont.
    - apply Hts. rewrite Ht. set_solver. }
  split.
  - intros (pre & w0 & w2 & post & Ht & [[-> Hp]|Hp])%extra_tests_panic.
    + destruct (Hlast (pre ++ [&"extra"; &"=="]) w2 post) as [-> (c & r & d & -> & Hq)]; [by rewrite <- app_assoc|done|].
      by exists pre, c, r, d.
    + by destruct (Hlast pre w0 _ Ht Hp).
  - intros (pre & c & r & d & Ht & Hq & _ & Hd & Hcont). rewrite Ht. apply extra_tests_open, quoted_panics.
    + apply Hts. rewrite Ht. set_solver.
    + by exists c, r, d.
Qed.

(** An entry is read as its part before the marker is, and then the marker. *)
Lemma body_unmarked req body marker :
  split_once ";"%char req = Some (body, marker) -> split_once ";"%char body = None.
Proof.
  intros [_ Hn]%split_once_Some. destruct (split_once ";"%char body) as [[l r]|] eqn:E; [|done].
  apply split_once_Some in E as [-> _]. set_solver.
Qed.

Lemma parse_split req body marker :
  split_once ";"%char req = Some (body, marker) ->
  parse_requirement req =
    match parse_requirement body with
    | Ok (Some q) => let? only := marker_extras marker in Ok (Some (MkReq (req_name q) (req_specifiers q) (req_extras q) only))
    | r => r
    end.
Proof.
  intros Hsp. unfold parse_requirement. rewrite Hsp, (body_unmarked _ _ _ Hsp). cbn [default id].
  destruct (contains_byte _ _); [done|]. destruct (span _ _) as [name rest].
  destruct (checked_pkg_name name); [|done]. cbv zeta. by destruct (match strip_prefix _ _ with Some _ => _ | None => _ end) as [[extras after]|].
Qed.

Lemma parse_body req body marker :
  split_once ";"%char req = Some (body, marker) -> exists r, parse_requirement body = Ok r.
Proof.
  intros Hsp. unfold parse_requirement. rewrite (body_unmarked _ _ _ Hsp). cbn [default].
  repeat case_match; cbn [rbind]; eauto.
Qed.

Lemma parse_unmarked req : split_once ";"%char req = None -> exists r, parse_requirement req = Ok r.
Proof. intros Hsp. unfold parse_requirement. rewrite Hsp. cbn [default]. repeat case_match; cbn [rbind]; eauto. Qed.

(** C39: when reading a [Requires-Dist] entry panics, exactly. An entry that is
    UTF-8 panics if and only if its part before the first semicolon reads as a
    requirement and the tokens of the marker behind it end in [extra], [==] and
    a quote that is never closed and whose last character is not ASCII: the
    last byte, taken for the closing quote, is then inside that character. *)
Theorem requirement_panics req :
  is_utf8 req = true ->
  parse_requirement req = Err Panicked <->
  exists body marker q, split_once ";"%char req = Some (body, marker)
    /\ parse_requirement body = Ok (Some q) /\ open_extra marker.
Proof.
  intros Hu. destruct (split_once ";"%char req) as [[body marker]|] eqn:Hsp.
  2:{ destruct (parse_unmarked req Hsp) as [r ->]. naive_solver. }
  rewrite (parse_split _ _ _ Hsp).
  assert (splits_at_ascii marker) as Hs.
  { apply split_once_Some in Hsp as [-> _]. apply utf8_splits in Hu. eapply splits_at_ascii_suffix; [|done].
    exists (body ++ [";"%char]). by rewrite <- app_assoc. }
  destruct (parse_body _ _ _ Hsp) as [[q|] Hb]; rewrite Hb; [|split; [done|intros (? & ? & ? & [= <- <-] & ? & _); congruence]]. split.
  - intros Hp. exists body, marker, q. split_and!; [done|done|]. apply marker_panics; [done|].
    by destruct (marker_extras marker) as [|[]].
  - intros (body' & marker' & q' & [= <- <-] & _ & Ho). by apply marker_panics in Ho as ->.
Qed.

End requirement.

(** A marker that tests [extra] against an opened quote and one accented
    letter, and one that tests something else so. *)
Definition unclosed_quote : str := &"x; extra == " ++ [DQUOTE; "195"%char; "169"%char].
Definition unclosed_other : str := &"x; os_name == " ++ [DQUOTE; "195"%char; "169"%char].

Lemma requirement_panics_witness :
  @parse_requirement toy_pep440 (fun _ => false) unclosed_quote = Err Panicked
  /\ (exists body marker q, split_once ";"%char unclosed_quote = Some (body, marker)
       /\ @parse_requirement toy_pep440 (fun _ => false) body = Ok (Some q) /\ open_extra (fun _ => false) marker)
  /\ is_ok (@parse_requirement toy_pep440 (fun _ => false) unclosed_other) = true.
Proof.
  split; [reflexivity|]. split; [|reflexivity].
  apply (@requirement_panics toy_pep440 (fun _ => false) unclosed_quote eq_refl). reflexivity.
Defined.
End Requires.
