(* ===== verification/Mirror.v ===== *)
(** * What a mirror takes (src/sync.rs)

    The filters of a mirror and the predicate that applies them to one file of
    an upstream listing. Cutoffs that slide are measured from the clock each
    time they are used, so the predicate takes the readings it makes; times are
    nanoseconds. Formatting a version is pep440_rs's, a parameter. *)
From S2P Require Import Prelude RustStr Pep440 Names Documents Denylist Render Simple Osv.
Import Names Sidecar Denylist Simple Osv.

Module Mirror.

(** ** Formats *)

Inductive Format := Wheel | Sdist | Other.

#[global] Instance Format_eq_dec : EqDecision Format.
Proof. solve_decision. Defined.

Definition format_str (f : Format) : str :=
  match f with Wheel => &"wheel" | Sdist => &"sdist" | Other => &"other" end.

Definition format_rank (f : Format) : Z := match f with Wheel => 0 | Sdist => 1 | Other => 2 end.
Definition format_le (f g : Format) : Prop := format_rank f <= format_rank g.
#[global] Instance format_le_dec f g : Decision (format_le f g).
Proof. unfold format_le. apply _. Defined.

Definition parse_format (value : str) : option Format :=
  let v := to_ascii_lowercase value in
  if decide (v = &"wheel") then Some Wheel else if decide (v = &"sdist") then Some Sdist
  else if decide (v = &"other") then Some Other else None.

(** [None] where a value is not a format. *)
Definition parse_formats (values : list str) : option (list Format) :=
  let pieces := flat_map (fun raw => filter (fun v => v ≠ []) (trim <$> split ","%char raw)) values in
  let! formats := foldl (fun acc v =>
    let! formats := acc in
    let! format := parse_format v in
    Some (if decide (format ∈ formats) then formats else formats ++ [format])) (Some []) pieces in
  Some (merge_sort format_le formats).

Definition file_format (filename : str) : Format :=
  let fname := to_ascii_lowercase filename in
  if ends_with (&".whl") fname then Wheel
  else if ends_with (&".tar.gz") fname || ends_with (&".tgz") fname
          || ends_with (&".tar.bz2") fname || ends_with (&".zip") fname then Sdist
  else Other.

(** ** The filters *)

(** A pinned instant, or a span back from now. *)
Inductive Cutoff := At (t : Z) | Ago (d : Z).
Definition instant (now : Z) (c : Cutoff) : Z := match c with At t => t | Ago d => now - d end.
Definition NANOS : Z := 10 ^ 9.
(** [OffsetDateTime::unix_timestamp]. *)
Definition unix_timestamp (t : Z) : Z := t / NANOS.

Section mirror.
Context {P : Pep440} {C : Clock} (version_string : Version -> str).

(** [struct ResolvedMirror]. *)
Record ResolvedMirror := MkMirror {
  include_packages : list PackageSpec;
  include_dependencies : bool;
  exclude_packages : list PackageSpec;
  include_format : list Format;
  include_python_tag : list str;
  include_abi_tag : list str;
  include_platform_tag : list str;
  exclude_python_tag : list str;
  exclude_abi_tag : list str;
  exclude_platform_tag : list str;
  exclude_newer : option Cutoff;
  exclude_older : option Cutoff;
  exclude_python_below : option (Z * Z);
  exclude_dev : bool;
  exclude_windows : bool;
  exclude_prereleases : bool;
  exclude_larger : option Z;
  exclude_yanked : bool;
  fixes_skip_cooldown : bool;
  fix_settle : Z
}.

Definition fix_lifts_cooldown (m : ResolvedMirror) : bool :=
  fixes_skip_cooldown m && match exclude_newer m with Some (Ago _) => true | _ => false end.

(** ** Names and versions *)

Definition spec_matches_filename (specifiers : VersionSpecifiers) (filename : str) : bool :=
  match infer_version_from_filename filename ≫= parse_version with
  | Some v => specifiers_contain specifiers v
  | None => false
  end.

Definition is_spec_byte (c : ascii) : bool :=
  bool_decide (c ∈ ["<"%char; ">"%char; "="%char; "!"%char; "~"%char; " "%char]).

Inductive spec_error := BadName | BadSpecifiers.

(** The bytes before the first one that satisfies [f], and the rest. *)
Fixpoint break_at (f : ascii -> bool) (s : str) : str * str :=
  match s with
  | c :: s' => if f c then ([], s) else let '(l, r) := break_at f s' in (c :: l, r)
  | [] => ([], [])
  end.

Definition parse_spec_line (line : str) : result spec_error PackageSpec :=
  let '(raw_name, raw_spec) := break_at is_spec_byte line in
  match checked_pkg_name (trim raw_name) with
  | None => Err BadName
  | Some name =>
    let raw_spec := trim raw_spec in
    if bool_decide (raw_spec = []) then Ok (MkSpec name None) else
    match parse_specifiers raw_spec with
    | Some specifiers => Ok (MkSpec name (Some specifiers))
    | None => Err BadSpecifiers
    end
  end.

(** [str::find(&str)]: the first occurrence. *)
Fixpoint find_str (p s : str) : option nat :=
  if starts_with p s then Some 0%nat else
  match s with
  | [] => None
  | _ :: s' => S <$> find_str p s'
  end.
Definition contains_str (p s : str) : bool := bool_decide (is_Some (find_str p s)).

Definition is_dev_version (version : str) : bool :=
  let canon := match parse_version version with Some v => version_string v | None => version end in
  contains_str (&".dev") (to_ascii_lowercase canon).

Definition is_prerelease_version (version : str) : bool :=
  match parse_version version with Some v => any_prerelease v | None => false end.

Definition is_yanked (y : Yanked) : bool := match y with Flag false => false | _ => true end.

(** ** Wheel tags *)

Fixpoint glob_parts (parts : list str) (rest : str) : bool :=
  match parts with
  | [] => true
  | part :: parts =>
    if bool_decide (part = []) then glob_parts parts rest else
    match find_str part rest with
    | Some idx => glob_parts parts (drop (idx + length part) rest)
    | None => false
    end
  end.
Definition glob_like_contains (haystack pattern : str) : bool := glob_parts (split "*"%char pattern) haystack.

Definition tag_matches (tag filter : str) : bool :=
  if bool_decide (filter = &"*") then true
  else if negb (contains_byte "*"%char filter) then bool_decide (tag = filter)
  else glob_like_contains tag filter.

Definition tokens_match_any (tokens filters : list str) : bool :=
  existsb (fun f => existsb (fun t => tag_matches (to_ascii_lowercase t) (to_ascii_lowercase f)) tokens) filters.

Definition tokens_all_excluded (tokens filters : list str) : bool :=
  bool_decide (filters ≠ []) && forallb (fun t => tokens_match_any [t] filters) tokens.

Definition is_windows_wheel_platform (tags : WheelTags) : bool :=
  forallb (fun p => starts_with (&"win") (to_ascii_lowercase p)) (platform tags).

Definition WINDOWS_MARKERS : list str :=
  [&".win32"; &".win64"; &".win-amd64"; &".win_amd64"; &".win-arm64"; &".win_arm64"; &".win-ia64"; &".win_ia64"].
Definition is_windows_installer_filename (fname : str) : bool :=
  ends_with (&".exe") fname || ends_with (&".msi") fname || existsb (fun m => contains_str m fname) WINDOWS_MARKERS.

Definition is_ascii_alphabetic (c : ascii) : bool := is_ascii_lowercase c || is_ascii_uppercase c.
Definition parse_u32 (s : str) : option Z := let! n := parse_u64 s in if n <=? u32_max then Some n else None.

Fixpoint take_digits (s : str) : str :=
  match s with
  | c :: s' => if is_ascii_digit c then c :: take_digits s' else []
  | [] => []
  end.

Definition interp_tag_version (tag : str) : option (Z * option Z) :=
  match take_digits (trim_start_if is_ascii_alphabetic tag) with
  | [] => None
  | c :: rest => Some (digit_val c, if bool_decide (rest = []) then None else parse_u32 rest)
  end.

Definition wheel_reaches_python_floor (tags : WheelTags) (floor : Z * Z) : bool :=
  let '(fmaj, fmin) := floor in
  let abi3 := existsb (fun a => eq_ignore_ascii_case a (&"abi3")) (abi tags) in
  existsb (fun t =>
    match interp_tag_version t with
    | None => true
    | Some (major, None) => fmaj <=? major
    | Some (major, Some minor) =>
      (abi3 && (fmaj <=? major)) || leb (fmaj, fmin) (major, minor)
    end) (python tags).

(** ** The predicate *)

(** [struct Lift]. *)
Record Lift := MkLift { lift_newer : bool; lift_yanked : bool; lift_fix : bool }.
Definition no_lift : Lift := MkLift false false false.

(** The clock as one evaluation reads it: for the newer bound, then for the
    older one. *)
Record Reads := MkReads { at_newer : Z; at_older : Z }.

(** The gates that do not look at the clock, before the upload-time bounds. *)
Definition passes_content (file : SimpleFile) (m : ResolvedMirror) (lift : Lift) : bool :=
  let format := file_format (to_ascii_lowercase (sf_filename file)) in
  if bool_decide (include_format m ≠ []) && negb (bool_decide (format ∈ include_format m)) then false
  else if exclude_yanked m && negb (lift_yanked lift) && is_yanked (sf_yanked file) then false
  else if match exclude_larger m, sf_size file with Some max, Some s => max <? s | _, _ => false end then false
  else if (exclude_dev m || exclude_prereleases m)
          && match infer_version_from_filename (sf_filename file) with
             | Some v => (exclude_prereleases m && is_prerelease_version v) || (exclude_dev m && is_dev_version v)
             | None => false
             end then false
  else true.

Definition uploaded_at (file : SimpleFile) : option Z := sf_upload_time file ≫= parse_rfc3339.

Definition passes_times (file : SimpleFile) (m : ResolvedMirror) (lift : Lift) (now : Reads) : bool :=
  let newer := if lift_newer lift || (lift_fix lift && fix_lifts_cooldown m) then None else exclude_newer m in
  match uploaded_at file with
  | None => true
  | Some uploaded =>
    if match newer with Some cutoff => instant (at_newer now) cutoff <=? uploaded | None => false end then false
    else if match exclude_older m with Some cutoff => uploaded <? instant (at_older now) cutoff | None => false end
    then false else true
  end.

(** The gates after them: installers and wheel tags. *)
Definition passes_tags (file : SimpleFile) (m : ResolvedMirror) : bool :=
  let fname := to_ascii_lowercase (sf_filename file) in
  if negb (bool_decide (file_format fname = Wheel)) then negb (exclude_windows m && is_windows_installer_filename fname)
  else match parse_wheel_tags (sf_filename file) with
  | None => bool_decide (include_python_tag m = []) && bool_decide (include_abi_tag m = [])
            && bool_decide (include_platform_tag m = [])
  | Some tags =>
    if exclude_windows m && is_windows_wheel_platform tags then false
    else if tokens_all_excluded (python tags) (exclude_python_tag m) || tokens_all_excluded (abi tags) (exclude_abi_tag m)
            || tokens_all_excluded (platform tags) (exclude_platform_tag m) then false
    else if match exclude_python_below m with
            | Some floor => negb (wheel_reaches_python_floor tags floor)
            | None => false
            end then false
    else if bool_decide (include_python_tag m ≠ []) && negb (tokens_match_any (python tags) (include_python_tag m)) then false
    else if bool_decide (include_abi_tag m ≠ []) && negb (tokens_match_any (abi tags) (include_abi_tag m)) then false
    else if bool_decide (include_platform_tag m ≠ []) && negb (tokens_match_any (platform tags) (include_platform_tag m))
    then false
    else true
  end.

Definition matches_mirror_inner (file : SimpleFile) (m : ResolvedMirror) (lift : Lift) (now : Reads) : bool :=
  if negb (passes_content file m lift) then false
  else if negb (passes_times file m lift now) then false
  else passes_tags file m.

Definition matches_mirror (file : SimpleFile) (m : ResolvedMirror) (now : Reads) : bool :=
  matches_mirror_inner file m no_lift now.
Definition matches_mirror_fix (file : SimpleFile) (m : ResolvedMirror) (security_fix : bool) (now : Reads) : bool :=
  matches_mirror_inner file m (MkLift false false security_fix) now.
Definition matches_mirror_listing (file : SimpleFile) (m : ResolvedMirror) (security_fix : bool) (now : Reads) : bool :=
  matches_mirror_inner file m (MkLift false true security_fix) now.

(** [probe] is the reading of the bound, [now] those of the predicate after it. *)
Definition held_back_by_newer (file : SimpleFile) (m : ResolvedMirror) (probe : Z) (now : Reads) : option Z :=
  let! cutoff := exclude_newer m in
  let! uploaded := uploaded_at file in
  if uploaded <? instant probe cutoff then None
  else if matches_mirror_inner file m (MkLift true false false) now then Some uploaded else None.
End mirror.
End Mirror.
