(* ===== verification/Deps.v ===== *)
(** * Following dependencies (src/deps.rs)

    The projects an include list reaches: the listed packages, and everything
    the requirements of their wanted releases reach. The worklist of [closure]
    starts from a hash set, whose order is not fixed: [order] stands for it. *)
From S2P Require Import Prelude RustStr Pep440 Names Denylist Simple Requires Mirror.
Import Names Denylist Simple Requires Mirror.

Module Deps.

(** The versions taken of a project, as specifier texts; [None] takes all. *)
Abbreviation Want := (option (gset str)).

(** [struct DepsMemo]: release version to its [Requires-Dist] entries. *)
Record DepsMemo := MkMemo { releases : gmap str (list str) }.

(** One fact about the wants of a project: it is taken, in all versions, in
    those of a specifier text, with an extra. *)
Inductive tag := Reached | Any | Admit (spec : str) | Extra (e : str).

#[global] Instance tag_eq_dec : EqDecision tag.
Proof. solve_decision. Defined.

(** Why [closure] stops without an answer. *)
Inductive stop := Panic | OutOfFuel.

Section deps.
Context {P : Pep440} (unicode_alphanumeric : str -> bool).
Abbreviation parse_requirement := (parse_requirement unicode_alphanumeric).

(** [struct Job]. *)
Record Job := MkJob { job_name : str; job_specifiers : option (list VersionSpecifiers); job_dependency : bool }.

Definition admits (job : Job) (filename : str) : bool :=
  match job_specifiers job with
  | Some any => existsb (fun s => spec_matches_filename s filename) any
  | None => true
  end.

Definition widen (want : Want) (specifiers : option VersionSpecifiers) : Want :=
  match want, specifiers with
  | Some set, Some s => Some ({[show_specifiers s]} ∪ set)
  | Some _, None => None
  | None, _ => None
  end.

Definition specifiers (want : Want) : option (list VersionSpecifiers) :=
  (fun set => omap parse_specifiers (in_order set)) <$> want.

(** ** The memo *)

Definition rank (f : SimpleFile) : bool * bool :=
  (has_core_metadata f, bool_decide (file_format (sf_filename f) = Wheel)).

(** One iteration of the loop of [unread]. *)
Definition pick_file (m : DepsMemo) (pick : gmap str SimpleFile) (file : SimpleFile) : gmap str SimpleFile :=
  match infer_version_from_filename (sf_filename file) with
  | None => pick
  | Some version =>
    if decide (is_Some (releases m !! version)) then pick else
    let best := default file (pick !! version) in
    <[version := if leb (rank file) (rank best) then best else file]> pick
  end.

Definition unread (m : DepsMemo) (files : list SimpleFile) : list (str * SimpleFile) :=
  by_key (foldl (pick_file m) ∅ files).

Definition record (m : DepsMemo) (version : str) (requires : option (list str)) : DepsMemo :=
  MkMemo (<[version := default [] requires]> (releases m)).

Definition keep_only (m : DepsMemo) (files : list SimpleFile) : DepsMemo * bool :=
  let present := omap (fun f => infer_version_from_filename (sf_filename f)) files in
  let kept := filter (fun r => r.1 ∈ present) (releases m) in
  (MkMemo kept, bool_decide (size kept < size (releases m))%nat).

(** A release counts when every version does, or when one specifier admits it. *)
Definition release_admitted (specs : option (list VersionSpecifiers)) (version : str) : bool :=
  match specs with
  | None => true
  | Some any =>
    match parse_version version with
    | Some v => existsb (fun s => specifiers_contain s v) any
    | None => false
    end
  end.

Definition requires (m : DepsMemo) (want : Want) : list str :=
  let specs := specifiers want in
  in_order (list_to_set (flat_map (fun r : str * list str =>
    if release_admitted specs r.1 then r.2 else []) (by_key (releases m)))).

(** Every version that is not yet read gets a file. *)
Lemma pick_covers m files version g :
  g ∈ files -> infer_version_from_filename (sf_filename g) = Some version -> releases m !! version = None ->
  is_Some (foldl (pick_file m) ∅ files !! version).
Proof.
  intros Hg Hi Hr. induction files as [|y files IH] using rev_ind; [set_solver|]. rewrite foldl_app. cbn.
  unfold pick_file at 1. apply elem_of_app in Hg as [Hg|Hg%list_elem_of_singleton].
  - specialize (IH Hg). destruct (infer_version_from_filename (sf_filename y)) as [u|]; [|done]. destruct (decide (is_Some (releases m !! u))); [done|].
    destruct (decide (u = version)) as [->|]; [by rewrite lookup_insert_eq|by rewrite lookup_insert_ne].
  - subst y. rewrite Hi, decide_False by (by apply eq_None_not_Some). by rewrite lookup_insert_eq.
Qed.

(** One file per version that is not yet read: the best of its files. *)
Lemma unread_picks m files version f :
  foldl (pick_file m) ∅ files !! version = Some f ->
  releases m !! version = None /\ f ∈ files /\ infer_version_from_filename (sf_filename f) = Some version
  /\ forall g, g ∈ files -> infer_version_from_filename (sf_filename g) = Some version -> leb (rank g) (rank f) = true.
Proof.
  revert f. induction files as [|x files IH] using rev_ind; intros f; [done|]. rewrite foldl_app. cbn.
  set (pick := foldl (pick_file m) ∅ files) in *. unfold pick_file at 1.
  assert (forall g, g ∈ files ++ [x] -> g ∈ files \/ g = x) as Hmem by (intros g; set_solver).
  assert (forall g, g ∈ files -> g ∈ files ++ [x]) as Hl by (intros g; set_solver).
  assert (x ∈ files ++ [x]) as Hx by set_solver.
  destruct (infer_version_from_filename (sf_filename x)) as [v|] eqn:Hv.
  2: { intros (H1 & H2 & H3 & H4)%IH. split_and!; [done|by apply Hl|done|]. intros g [Hg| ->]%Hmem Hi; [by apply H4|congruence]. }
  destruct (decide (is_Some (releases m !! v))) as [Hr|Hr].
  { intros (H1 & H2 & H3 & H4)%IH. split_and!; [done|by apply Hl|done|]. intros g [Hg| ->]%Hmem Hi; [by apply H4|].
    rewrite Hv in Hi. injection Hi as ->. rewrite H1 in Hr. by destruct Hr. }
  destruct (decide (v = version)) as [->|Hne].
  2: { rewrite lookup_insert_ne by done. intros (H1 & H2 & H3 & H4)%IH. split_and!; [done|by apply Hl|done|].
    intros g [Hg| ->]%Hmem Hi; [by apply H4|congruence]. }
  rewrite lookup_insert_eq. intros [= <-]. split; [by apply eq_None_not_Some|].
  destruct (pick !! version) as [best|] eqn:Hp; cbn [from_option id].
  - destruct (IH best eq_refl) as (_ & H2 & H3 & H4). destruct (leb (rank x) (rank best)) eqn:Hle.
    + split_and!; [by apply Hl|done|]. intros g [Hg| ->]%Hmem Hi; [by apply H4|done].
    + split_and!; [exact Hx|done|]. intros g [Hg| ->]%Hmem Hi.
      * exact (leb_trans _ _ _ (H4 g Hg Hi) (leb_false_swap _ _ Hle)).
      * unfold leb. rewrite cmp_refl. reflexivity.
  - assert (forall r : bool * bool, leb r r = true) as Hrefl by (intros r; unfold leb; by rewrite cmp_refl). rewrite (Hrefl (rank x)).
    split_and!; [exact Hx|done|]. intros g [Hg| ->]%Hmem Hi; [|done]. exfalso.
    destruct (pick_covers m files version g Hg Hi) as [? Hsome]; [by apply eq_None_not_Some|]. fold pick in Hsome. congruence.
Qed.

(** ** The worklist *)

(** The mutable variables of [closure]. *)
Record walk := MkWalk {
  wants : gmap str Want;
  extras : gmap str (gset str);
  queue : list str
}.

Definition add_root (w : gmap str Want) (spec : PackageSpec) : gmap str Want :=
  <[spec_name spec := widen (default (Some ∅) (w !! spec_name spec)) (spec_specifiers spec)]> w.

Definition root_wants (roots : list PackageSpec) : gmap str Want := foldl add_root ∅ roots.

Section closure.
Context (roots : list PackageSpec) (memos : gmap str DepsMemo) (private : PrivateNames).

(** The listed names, the keys of the first [wants]. *)
Definition listed : gset str := dom (root_wants roots).

Definition req_active (name : str) (on : option (gset str)) (req : Requirement) : bool :=
  bool_decide (name ∈ listed) || bool_decide (only_for req = [])
  || match on with
     | Some on => existsb (fun e => bool_decide (e ∈ on)) (only_for req)
     | None => false
     end.

(** The body of the inner loop. *)
Definition visit_req (name : str) (w : walk) (text : str) : result stop walk :=
  match parse_requirement text with
  | Err Panicked => Err Panic
  | Ok None => Ok w
  | Ok (Some req) =>
    if negb (req_active name (extras w !! name) req) || bool_decide (req_name req ∈ listed)
       || names_match private (req_name req) then Ok w else
    let before := wants w !! req_name req in
    let want := widen (default (Some ∅) before) (req_specifiers req) in
    let wider := negb (bool_decide (before = Some want)) in
    let on := default ∅ (extras w !! req_name req) in
    let on' := on ∪ list_to_set (req_extras req) in
    Ok (MkWalk (<[req_name req := want]> (wants w)) (<[req_name req := on']> (extras w))
          (if wider || (size on <? size on')%nat then req_name req :: queue w else queue w))
  end.

Fixpoint visit_reqs (name : str) (w : walk) (texts : list str) : result stop walk :=
  match texts with
  | [] => Ok w
  | text :: texts => let? w := visit_req name w text in visit_reqs name w texts
  end.

(** One project off the stack; [wants] without it would be an index panic. *)
Definition visit (name : str) (w : walk) : result stop walk :=
  match memos !! name with
  | None => Ok w
  | Some memo =>
    match wants w !! name with
    | None => Err Panic
    | Some want => visit_reqs name w (requires memo want)
    end
  end.

(** The stack [queue] has its top first. *)
Fixpoint walk_loop (fuel : nat) (w : walk) : result stop (gmap str Want) :=
  match queue w with
  | [] => Ok (wants w)
  | name :: rest =>
    match fuel with
    | O => Err OutOfFuel
    | S fuel =>
      let? w := visit name (MkWalk (wants w) (extras w) rest) in
      walk_loop fuel w
    end
  end.

Definition closure (fuel : nat) (order : list str) : result stop (gmap str Want) :=
  walk_loop fuel (MkWalk (root_wants roots) ∅ order).

Definition pending (fuel : nat) (order : list str) (done : list (str * Want)) : result stop (list (Job * Want)) :=
  let? all := closure fuel order in
  Ok ((fun p : str * Want =>
         (MkJob p.1 (specifiers p.2) (negb (existsb (fun s => bool_decide (spec_name s = p.1)) roots)), p.2))
      <$> filter (fun p => p ∉ done) (by_key all)).

(** ** What the walk computes

    A project takes a fact when it is listed with it or when a requirement of
    a release that counts, followed for the project that has it, asks for it:
    the least such relation. *)

Definition range_tag (specifiers : option VersionSpecifiers) : tag :=
  match specifiers with Some s => Admit (show_specifiers s) | None => Any end.

Definition asks (req : Requirement) : list tag :=
  Reached :: range_tag (req_specifiers req) :: (Extra <$> req_extras req).

Definition eligible (req : Requirement) : Prop :=
  (req_name req ∉ listed) /\ names_match private (req_name req) = false.

Inductive takes : str -> tag -> Prop :=
  | takes_root spec t :
      spec ∈ roots -> t ∈ [Reached; range_tag (spec_specifiers spec)] -> takes (spec_name spec) t
  | takes_req name memo version texts text req t :
      takes name Reached -> memos !! name = Some memo -> releases memo !! version = Some texts ->
      counts name version -> text ∈ texts -> parse_requirement text = Ok (Some req) ->
      follows name req -> eligible req -> t ∈ asks req -> takes (req_name req) t
with counts : str -> str -> Prop :=
  | counts_any name version : takes name Any -> counts name version
  | counts_spec name version s specs v :
      takes name (Admit s) -> parse_specifiers s = Some specs -> parse_version version = Some v ->
      specifiers_contain specs v = true -> counts name version
with follows : str -> Requirement -> Prop :=
  | follows_listed name req : name ∈ listed -> follows name req
  | follows_always name req : only_for req = [] -> follows name req
  | follows_extra name req e : e ∈ only_for req -> takes name (Extra e) -> follows name req.

Scheme takes_mut := Minimality for takes Sort Prop
with counts_mut := Minimality for counts Sort Prop
with follows_mut := Minimality for follows Sort Prop.

(** What a state of the walk has recorded. *)
Definition holds (w : walk) (n : str) (t : tag) : bool :=
  match t with
  | Reached => bool_decide (is_Some (wants w !! n))
  | Any => bool_decide (wants w !! n = Some None)
  | Admit s => match wants w !! n with
               | Some (Some X) => bool_decide (s ∈ X)
               | Some None => true
               | None => false
               end
  | Extra e => bool_decide (e ∈ default ∅ (extras w !! n))
  end.

(** ** One requirement *)

(** The walk after an eligible requirement is taken up. *)
Definition take_up (w : walk) (req : Requirement) : walk :=
  let before := wants w !! req_name req in
  let want := widen (default (Some ∅) before) (req_specifiers req) in
  let on := default ∅ (extras w !! req_name req) in
  let on' := on ∪ list_to_set (req_extras req) in
  MkWalk (<[req_name req := want]> (wants w)) (<[req_name req := on']> (extras w))
    (if negb (bool_decide (before = Some want)) || (size on <? size on')%nat
     then req_name req :: queue w else queue w).

Definition blocked (name : str) (w : walk) (req : Requirement) : bool :=
  negb (req_active name (extras w !! name) req) || bool_decide (req_name req ∈ listed)
  || names_match private (req_name req).

Lemma visit_req_eq name w text :
  visit_req name w text =
  match parse_requirement text with
  | Err Panicked => Err Panic
  | Ok None => Ok w
  | Ok (Some req) => Ok (if blocked name w req then w else take_up w req)
  end.
Proof.
  unfold visit_req. destruct (parse_requirement text) as [[req|]|[]]; try done.
  fold (blocked name w req). by destruct (blocked name w req).
Qed.

Lemma blocked_false name w req :
  blocked name w req = false <-> req_active name (extras w !! name) req = true /\ eligible req.
Proof.
  unfold blocked, eligible. rewrite !orb_false_iff, negb_false_iff, bool_decide_eq_false. naive_solver.
Qed.

(** A later state records at least as much, and a project whose own record
    changed is on the stack. *)
Definition extends (w w' : walk) : Prop :=
  (forall n t, holds w n t = true -> holds w' n t = true)
  /\ (forall n, n ∈ queue w -> n ∈ queue w')
  /\ (forall n, n ∈ queue w' \/ wants w' !! n = wants w !! n
                /\ default ∅ (extras w' !! n) = default ∅ (extras w !! n)).

Lemma extends_refl w : extends w w.
Proof. split_and!; auto. Qed.

Lemma extends_trans w1 w2 w3 : extends w1 w2 -> extends w2 w3 -> extends w1 w3.
Proof.
  intros (Hh & Hq & Hs) (Hh' & Hq' & Hs'). split_and!; [by eauto|by eauto|]. intros n.
  destruct (Hs' n) as [?|[-> ->]]; [by left|]. destruct (Hs n) as [?|?]; [left; by apply Hq'|by right].
Qed.

Lemma holds_other w req n t : n ≠ req_name req -> holds (take_up w req) n t = holds w n t.
Proof. intros Hn. unfold holds, take_up. cbn. by rewrite !lookup_insert_ne by done. Qed.

(** What the requirement's target has recorded afterwards. *)
Lemma holds_target w req t :
  holds (take_up w req) (req_name req) t = holds w (req_name req) t || bool_decide (t ∈ asks req)
    || match t, req_specifiers req with Admit _, None => true | _, _ => false end.
Proof.
  unfold holds, take_up, asks, range_tag. cbn. rewrite !lookup_insert_eq.
  destruct t as [| |s|e]; cbn.
  - rewrite (bool_decide_eq_true_2 (Reached ∈ _)) by set_solver. by rewrite orb_true_r.
  - rewrite orb_false_r. apply eq_true_iff_eq. rewrite orb_true_iff, !bool_decide_eq_true.
    rewrite !elem_of_cons, list_elem_of_fmap. destruct (wants w !! req_name req) as [[X|]|], (req_specifiers req); naive_solver.
  - apply eq_true_iff_eq. rewrite !orb_true_iff, bool_decide_eq_true, !elem_of_cons, list_elem_of_fmap.
    destruct (wants w !! req_name req) as [[X|]|], (req_specifiers req) as [v|]; cbn;
      rewrite ?bool_decide_eq_true, ?elem_of_union, ?elem_of_singleton, ?elem_of_empty; naive_solver.
  - rewrite orb_false_r. apply eq_true_iff_eq. rewrite orb_true_iff, !bool_decide_eq_true, elem_of_union, elem_of_list_to_set.
    rewrite !elem_of_cons, list_elem_of_fmap. destruct (req_specifiers req); naive_solver.
Qed.

Lemma take_up_grows w req n t : holds w n t = true -> holds (take_up w req) n t = true.
Proof.
  intros H. destruct (decide (n = req_name req)) as [->|Hn]; [by rewrite holds_target, H|by rewrite holds_other].
Qed.

Lemma take_up_asks w req t : t ∈ asks req -> holds (take_up w req) (req_name req) t = true.
Proof. intros H. rewrite holds_target, (bool_decide_eq_true_2 (t ∈ asks req)) by done. by rewrite orb_true_r. Qed.

Lemma take_up_extends w req : extends w (take_up w req).
Proof.
  split; [intros n t; apply take_up_grows|]. unfold take_up. cbn. split.
  { intros n Hn. case_match; [by right|done]. }
  intros n. destruct (decide (n = req_name req)) as [->|Hn]; [|right; by rewrite !lookup_insert_ne].
  rewrite !lookup_insert_eq. cbn.
  set (on := default ∅ (extras w !! req_name req)). set (want := widen _ _).
  destruct (negb _ || _) eqn:E; [left; by left|right]. apply orb_false_iff in E as [E1 E2].
  apply negb_false_iff, bool_decide_eq_true in E1. split; [by rewrite <- E1|].
  apply Nat.ltb_ge in E2. symmetry. apply set_subseteq_size_eq; [set_solver|exact E2].
Qed.

(** ** The requirements of one project *)

Lemma req_active_default name on req :
  req_active name on req = req_active name (Some (default ∅ on)) req.
Proof.
  destruct on; [done|]. unfold req_active. cbn. destruct (existsb _ _) eqn:E; [|done].
  apply existsb_Exists in E as (e & _ & He). apply bool_decide_eq_true in He. set_solver.
Qed.

Lemma visit_req_extends name w text w' : visit_req name w text = Ok w' -> extends w w'.
Proof.
  rewrite visit_req_eq. destruct (parse_requirement text) as [[req|]|[]]; [| |done]; intros [= <-].
  - destruct (blocked name w req); [apply extends_refl|apply take_up_extends].
  - apply extends_refl.
Qed.

(** Every text of the list is taken up, unless the project goes back on the
    stack because its own record changed meanwhile. *)
Lemma visit_reqs_settles name texts : forall w w',
  visit_reqs name w texts = Ok w' ->
  extends w w'
  /\ forall text req t, text ∈ texts -> parse_requirement text = Ok (Some req) ->
       req_active name (extras w' !! name) req = true -> eligible req -> t ∈ asks req ->
       name ∈ queue w' \/ holds w' (req_name req) t = true.
Proof.
  induction texts as [|x texts IH]; intros w w'; cbn [visit_reqs].
  { intros [= <-]. split; [apply extends_refl|set_solver]. }
  destruct (visit_req name w x) as [w1|] eqn:E; cbn [rbind]; [|done]. intros Hrest.
  destruct (IH _ _ Hrest) as [Hext Hall]. pose proof (visit_req_extends _ _ _ _ E) as Hfirst.
  pose proof (extends_trans _ _ _ Hfirst Hext) as Hboth. split; [done|].
  intros text req t Ht Hp Hact Hel Hask. apply elem_of_cons in Ht as [->|Ht]; [|by eauto].
  destruct Hboth as (_ & _ & Hsame). destruct (Hsame name) as [?|[_ Hex]]; [by left|right].
  apply Hext. rewrite visit_req_eq, Hp in E. injection E as <-.
  replace (blocked name w req) with false; [by apply take_up_asks|].
  symmetry. apply blocked_false. split; [|done]. by rewrite req_active_default, <- Hex, <- req_active_default.
Qed.

(** The texts of the releases a want admits. *)
Lemma elem_of_requires memo want text :
  text ∈ requires memo want
  <-> exists version texts, releases memo !! version = Some texts
        /\ release_admitted (specifiers want) version = true /\ text ∈ texts.
Proof.
  unfold requires. rewrite elem_of_in_order, elem_of_list_to_set, list_elem_of_In, in_flat_map. split.
  - intros ([version texts] & Hin & Ht). cbn in Ht. apply list_elem_of_In, elem_of_by_key in Hin.
    destruct (release_admitted _ version) eqn:E; [|by destruct Ht]. exists version, texts. by rewrite list_elem_of_In.
  - intros (version & texts & Hr & Ha & Ht). exists (version, texts). cbn. rewrite Ha.
    split; [by apply list_elem_of_In, elem_of_by_key|by apply list_elem_of_In].
Qed.

(** ** Soundness: the walk records only what is taken *)

Definition sound (w : walk) : Prop := forall n,
  (forall want, wants w !! n = Some want ->
     takes n Reached /\ match want with None => takes n Any | Some X => forall s, s ∈ X -> takes n (Admit s) end)
  /\ (forall e, e ∈ default ∅ (extras w !! n) -> takes n (Extra e)).

Lemma counts_sound w n want version :
  sound w -> wants w !! n = Some want -> release_admitted (specifiers want) version = true -> counts n version.
Proof.
  intros Hs Hw. destruct (Hs n) as [H _]. destruct (H _ Hw) as [_ Hwant]. destruct want as [X|]; cbn.
  - destruct (parse_version version) as [v|] eqn:Hv; [|done].
    intros (specs & Hin & Hc)%existsb_Exists. apply list_elem_of_omap in Hin as (x & Hx & Hp).
    apply elem_of_in_order in Hx. eapply counts_spec; eauto.
  - intros _. by apply counts_any.
Qed.

Lemma follows_sound w n req : sound w -> req_active n (extras w !! n) req = true -> follows n req.
Proof.
  intros Hs. rewrite req_active_default. unfold req_active.
  rewrite !orb_true_iff, !bool_decide_eq_true, existsb_Exists. intros [[H|H]|(e & He & Hon)].
  - by apply follows_listed.
  - by apply follows_always.
  - apply bool_decide_eq_true in Hon. eapply follows_extra; [exact He|]. by apply Hs.
Qed.

Lemma take_up_sound w req : sound w -> (forall t, t ∈ asks req -> takes (req_name req) t) -> sound (take_up w req).
Proof.
  intros Hs Ht n. destruct (Hs n) as [Hw He].
  destruct (decide (n = req_name req)) as [->|Hn]; unfold take_up; cbn; [|by rewrite !lookup_insert_ne].
  rewrite !lookup_insert_eq. cbn. split.
  - intros want [= <-]. split; [apply Ht; by left|].
    assert (takes (req_name req) (range_tag (req_specifiers req))) as Hr by (apply Ht; right; by left).
    destruct (wants w !! req_name req) as [[X|]|] eqn:E; cbn; destruct (req_specifiers req) as [v|]; cbn in *; try done.
    + intros s [->%elem_of_singleton|Hx]%elem_of_union; [done|]. by apply (Hw _ eq_refl).
    + by apply (Hw _ eq_refl).
    + intros s [->%elem_of_singleton|[]%elem_of_empty]%elem_of_union. done.
  - intros e [Hx|Hx]%elem_of_union; [by apply He|]. apply Ht. do 2 right. apply list_elem_of_fmap.
    exists e. split; [done|by apply elem_of_list_to_set in Hx].
Qed.

Lemma visit_reqs_sound name texts : forall w w',
  (forall text req t, text ∈ texts -> parse_requirement text = Ok (Some req) -> follows name req -> eligible req ->
     t ∈ asks req -> takes (req_name req) t) ->
  sound w -> visit_reqs name w texts = Ok w' -> sound w'.
Proof.
  induction texts as [|x texts IH]; intros w w' Hg Hs; cbn [visit_reqs]; [by intros [= <-]|].
  rewrite visit_req_eq. destruct (parse_requirement x) as [[req|]|[]] eqn:Hp; cbn [rbind]; [| |done];
    apply IH; try (intros; eapply Hg; eauto; set_solver); [|done].
  destruct (blocked name w req) eqn:Hb; [done|]. apply blocked_false in Hb as [Ha He].
  apply take_up_sound; [done|]. intros t. eapply Hg; eauto using follows_sound. by left.
Qed.

(** ** Termination: what is pushed is paid for by a new fact *)

(** The facts the requirement texts can ask for. *)
Definition universe : list (str * tag) :=
  flat_map (fun m : str * DepsMemo => flat_map (fun r : str * list str => flat_map (fun text =>
    match parse_requirement text with
    | Ok (Some req) => pair (req_name req) <$> asks req
    | _ => []
    end) r.2) (map_to_list (releases m.2))) (map_to_list memos).

Definition missing (w : walk) : nat := length (filter (fun p => holds w p.1 p.2 = false) universe).

Lemma elem_of_universe name memo want text req t :
  memos !! name = Some memo -> text ∈ requires memo want -> parse_requirement text = Ok (Some req) ->
  t ∈ asks req -> (req_name req, t) ∈ universe.
Proof.
  intros Hm (version & texts & Hr & _ & Ht)%elem_of_requires Hp Hask. unfold universe.
  apply list_elem_of_In, in_flat_map. exists (name, memo).
  split; [by apply list_elem_of_In, elem_of_map_to_list|]. apply in_flat_map. exists (version, texts).
  split; [by apply list_elem_of_In, elem_of_map_to_list|]. apply in_flat_map. exists text.
  split; [by apply list_elem_of_In|]. rewrite Hp. apply list_elem_of_In. by apply list_elem_of_fmap_2.
Qed.

Lemma take_up_idle w req :
  (forall t, t ∈ asks req -> holds w (req_name req) t = true) -> queue (take_up w req) = queue w.
Proof.
  intros Hall. unfold take_up. cbn [queue].
  assert (holds w (req_name req) Reached = true) as Hr by (apply Hall; by left).
  assert (holds w (req_name req) (range_tag (req_specifiers req)) = true) as Ht by (apply Hall; right; by left).
  rewrite bool_decide_eq_true_2; [|].
  2: { unfold holds, range_tag in *. destruct (wants w !! req_name req) as [[X|]|]; [| |by apply bool_decide_eq_true in Hr as []];
      destruct (req_specifiers req); cbn in *; try done.
    apply bool_decide_eq_true in Ht. do 2 f_equal. set_solver. }
  cbn [negb orb]. replace (_ ∪ list_to_set (req_extras req)) with (default ∅ (extras w !! req_name req)); [by rewrite Nat.ltb_irrefl|].
  apply set_eq. intros e. rewrite elem_of_union, elem_of_list_to_set. split; [by left|]. intros [?|He]; [done|].
  assert (holds w (req_name req) (Extra e) = true) as Hx by (apply Hall; do 2 right; by apply list_elem_of_fmap_2).
  by apply bool_decide_eq_true in Hx.
Qed.

Lemma take_up_pays w req :
  (forall t, t ∈ asks req -> (req_name req, t) ∈ universe) ->
  (length (queue (take_up w req)) + missing (take_up w req) <= length (queue w) + missing w)%nat.
Proof.
  intros Hu. assert (missing (take_up w req) <= missing w)%nat as Hle.
  { apply length_filter_mono. intros [n t] _ Hf. cbn in *. destruct (holds w n t) eqn:E; [|done].
    by rewrite (take_up_grows w req n t E) in Hf. }
  destruct (decide (Forall (fun t => holds w (req_name req) t = true) (asks req))) as [Hall|Hnot].
  { rewrite take_up_idle; [lia|]. by apply Forall_forall. }
  apply not_Forall_Exists in Hnot; [|apply _]. apply Exists_exists in Hnot as (t & Ht & Hf).
  assert (missing (take_up w req) < missing w)%nat as Hlt.
  { apply (length_filter_strict _ _ _ (req_name req, t)); [|by apply Hu|cbn; by apply not_true_is_false|].
    - intros [n t'] _ Hn. cbn in *. destruct (holds w n t') eqn:E; [|done]. by rewrite (take_up_grows w req n t' E) in Hn.
    - cbn. by rewrite take_up_asks. }
  assert (length (queue (take_up w req)) <= S (length (queue w)))%nat; [|lia].
  unfold take_up. cbn. case_match; cbn; lia.
Qed.

Lemma visit_reqs_pays name texts : forall w w',
  (forall text req t, text ∈ texts -> parse_requirement text = Ok (Some req) -> t ∈ asks req ->
     (req_name req, t) ∈ universe) ->
  visit_reqs name w texts = Ok w' ->
  (length (queue w') + missing w' <= length (queue w) + missing w)%nat.
Proof.
  induction texts as [|x texts IH]; intros w w' Hu; cbn [visit_reqs]; [by intros [= <-]|].
  rewrite visit_req_eq. destruct (parse_requirement x) as [[req|]|[]] eqn:Hp; cbn [rbind]; [| |done]; intros Hrest;
    (etrans; [eapply IH; [|exact Hrest]; intros; eapply Hu; eauto; set_solver|]); [|done].
  destruct (blocked name w req); [done|]. apply take_up_pays. intros t. eapply Hu; [by left|done].
Qed.

Lemma visit_pays name w w' :
  visit name w = Ok w' -> (length (queue w') + missing w' <= length (queue w) + missing w)%nat.
Proof.
  unfold visit. destruct (memos !! name) as [memo|] eqn:Hm; [|by intros [= <-]].
  destruct (wants w !! name) as [want|]; [|done]. apply visit_reqs_pays. intros. by eapply elem_of_universe.
Qed.

Lemma visit_in_fuel name w : visit name w ≠ Err OutOfFuel.
Proof.
  unfold visit. destruct (memos !! name) as [memo|]; [|done]. destruct (wants w !! name) as [want|]; [|done].
  generalize (requires memo want). intros texts. revert w. induction texts as [|x texts IH]; intros w; [done|].
  cbn [visit_reqs]. rewrite visit_req_eq. destruct (parse_requirement x) as [[req|]|[]]; cbn [rbind]; [apply IH|apply IH|done].
Qed.

Lemma walk_in_fuel fuel : forall w, (length (queue w) + missing w <= fuel)%nat -> walk_loop fuel w ≠ Err OutOfFuel.
Proof.
  induction fuel as [|fuel IH]; intros [ws es q] Hf; destruct q as [|name rest]; cbn in *; try done; [lia|].
  destruct (visit name (MkWalk ws es rest)) as [w1|e] eqn:E; cbn [rbind].
  - apply IH. apply visit_pays in E. change (missing (MkWalk ws es (name :: rest))) with (missing (MkWalk ws es rest)) in Hf.
    cbn in E. lia.
  - intros [= ->]. by apply visit_in_fuel in E.
Qed.

(** ** The invariant of the walk *)

(** Everything the project's requirements ask for is recorded. *)
Definition settled (w : walk) (name : str) : Prop :=
  forall memo want text req t,
    memos !! name = Some memo -> wants w !! name = Some want -> text ∈ requires memo want ->
    parse_requirement text = Ok (Some req) -> req_active name (extras w !! name) req = true -> eligible req ->
    t ∈ asks req -> holds w (req_name req) t = true.

Definition walk_inv (w : walk) : Prop :=
  sound w
  /\ (forall n, n ∈ queue w -> is_Some (wants w !! n))
  /\ (forall n, is_Some (wants w !! n) -> n ∈ queue w \/ settled w n)
  /\ (forall spec t, spec ∈ roots -> t ∈ [Reached; range_tag (spec_specifiers spec)] ->
        holds w (spec_name spec) t = true).

Lemma settled_extends w w' n : settled w n -> extends w w' -> n ∈ queue w' \/ settled w' n.
Proof.
  intros Hset (Hgrow & _ & Hsame). destruct (Hsame n) as [?|[Hw He]]; [by left|right].
  intros memo want text req t Hm Hwant Ht Hp Ha Hel Hask. apply Hgrow. rewrite Hw in Hwant.
  rewrite req_active_default, He, <- req_active_default in Ha. by eapply Hset.
Qed.

Lemma visit_reqs_queued name texts : forall w w',
  visit_reqs name w texts = Ok w' -> (forall n, n ∈ queue w -> is_Some (wants w !! n)) ->
  forall n, n ∈ queue w' -> is_Some (wants w' !! n).
Proof.
  induction texts as [|x texts IH]; intros w w'; cbn [visit_reqs]; [by intros [= <-]|].
  rewrite visit_req_eq. destruct (parse_requirement x) as [[req|]|[]] eqn:Hp; cbn [rbind]; [| |done];
    intros Hrest Hq; eapply IH; eauto. destruct (blocked name w req); [done|]. intros n. unfold take_up. cbn [queue wants].
  destruct (decide (n = req_name req)) as [->|Hn]; [by rewrite lookup_insert_eq|].
  rewrite lookup_insert_ne by done. case_match; [intros [?|?]%elem_of_cons|]; [done|by apply Hq..].
Qed.

Lemma visit_inv ws es name rest w' :
  walk_inv (MkWalk ws es (name :: rest)) -> visit name (MkWalk ws es rest) = Ok w' -> walk_inv w'.
Proof.
  intros (Hsound & Hq & Hset & Hroot). unfold visit. destruct (memos !! name) as [memo|] eqn:Hm.
  2: { intros [= <-]. split_and!; [exact Hsound|intros n ?; apply Hq; by right| |exact Hroot].
    intros n Hn. destruct (Hset n Hn) as [[->|?]%elem_of_cons|?]; [right|by left|by right].
    intros memo' want text req t Hm'. by rewrite Hm in Hm'. }
  cbn [wants]. destruct (ws !! name) as [want|] eqn:Hw; [|done]. intros Hv.
  destruct (visit_reqs_settles name _ _ _ Hv) as [Hext Htaken]. split_and!.
  - refine (visit_reqs_sound name _ (MkWalk ws es rest) w' _ Hsound Hv).
    intros text req t (version & texts & Hr & Hadm & Ht)%elem_of_requires Hp Hf Hel Hask.
    eapply takes_req; eauto; [|by eapply counts_sound]. by apply (proj1 (Hsound name) want).
  - eapply visit_reqs_queued; [exact Hv|]. intros n Hn. apply Hq. by right.
  - intros n Hn. destruct (decide (n ∈ queue w')) as [?|Hnq]; [by left|right].
    destruct Hext as (Hgrow & Hkeep & Hsame). destruct (Hsame n) as [?|[Hnw Hne]]; [done|].
    rewrite Hnw in Hn. destruct (Hset n Hn) as [[->|Hin]%elem_of_cons|Hold].
    + intros memo' want' text req t Hm' Hw' Ht Hp Ha Hel Hask. cbn in Hnw. simplify_eq.
      destruct (Htaken text req t) as [?|?]; try done. congruence.
    + by apply Hkeep in Hin.
    + destruct (settled_extends (MkWalk ws es rest) w' n Hold) as [?|?]; [by split_and!|done|done].
  - intros spec t Hs Ht. apply Hext. by apply Hroot.
Qed.

(** ** The start: the listed packages *)

Definition root_req (spec : PackageSpec) : Requirement := MkReq (spec_name spec) (spec_specifiers spec) [] [].

Lemma root_walk specs : forall w, foldl add_root (wants w) specs = wants (foldl take_up w (root_req <$> specs)).
Proof. induction specs as [|spec specs IH]; intros w; [done|]. cbn [foldl fmap list_fmap]. by rewrite <- IH. Qed.

Lemma root_sound specs : forall w,
  (forall spec, spec ∈ specs -> spec ∈ roots) -> sound w -> sound (foldl take_up w (root_req <$> specs)).
Proof.
  induction specs as [|spec specs IH]; intros w Hin Hs; [done|]. cbn. apply IH; [set_solver|].
  apply take_up_sound; [done|]. intros t Ht. apply (takes_root spec); [set_solver|exact Ht].
Qed.

Lemma root_grows reqs : forall w n t, holds w n t = true -> holds (foldl take_up w reqs) n t = true.
Proof. induction reqs as [|req reqs IH]; intros w n t Ht; [done|]. cbn. by apply IH, take_up_grows. Qed.

Lemma root_holds specs : forall w spec t,
  spec ∈ specs -> t ∈ asks (root_req spec) -> holds (foldl take_up w (root_req <$> specs)) (spec_name spec) t = true.
Proof.
  induction specs as [|x specs IH]; intros w spec t Hs Ht; [set_solver|]. cbn.
  apply elem_of_cons in Hs as [<-|Hs]; [|by apply IH]. apply root_grows. by apply (take_up_asks w (root_req spec)).
Qed.

Lemma start_inv order : (forall n, n ∈ listed -> n ∈ order) -> (forall n, n ∈ order -> n ∈ listed) ->
  walk_inv (MkWalk (root_wants roots) ∅ order).
Proof.
  intros Hall Hin. set (w0 := MkWalk ∅ ∅ []).
  assert (root_wants roots = wants (foldl take_up w0 (root_req <$> roots))) as Hw by apply (root_walk roots w0).
  split_and!.
  - assert (sound (foldl take_up w0 (root_req <$> roots))) as Hs.
    { apply root_sound; [done|]. intros n. split; [done|]. by intros e ?%elem_of_empty. }
    intros n. split; cbn [wants extras]; [|by intros e ?%elem_of_empty]. rewrite Hw. apply Hs.
  - intros n Hn. cbn. apply elem_of_dom. by apply Hin.
  - intros n Hn. left. apply Hall. by apply elem_of_dom.
  - intros spec t Hs Ht. pose proof (root_holds roots w0 spec t Hs Ht) as Hh. unfold holds in *. cbn [wants].
    rewrite Hw. apply elem_of_cons in Ht as [->|Ht]; [done|]. apply list_elem_of_singleton in Ht as ->. by destruct (spec_specifiers spec).
Qed.

(** ** The end: the walk has everything *)

Lemma closed_complete w n t : walk_inv w -> queue w = [] -> takes n t -> holds w n t = true.
Proof.
  intros (_ & _ & Hset & Hroot) Hq.
  apply (takes_mut (fun n t => holds w n t = true)
    (fun n version => forall want, wants w !! n = Some want -> release_admitted (specifiers want) version = true)
    (fun n req => req_active n (extras w !! n) req = true)).
  - exact Hroot.
  - intros name memo version texts text req t' _ Hreach Hm Hr _ Hadm Ht Hp _ Hact Hel Hask.
    apply bool_decide_eq_true in Hreach as [want Hw].
    destruct (Hset name) as [Hin|Hs]; [by eexists|rewrite Hq in Hin; by apply not_elem_of_nil in Hin|].
    eapply Hs; eauto. apply elem_of_requires. exists version, texts. auto.
  - intros name version _ Hany want Hw. apply bool_decide_eq_true in Hany. rewrite Hw in Hany. by injection Hany as ->.
  - intros name version x specs v _ Hx Hps Hpv Hc want Hw. cbn [holds] in Hx. rewrite Hw in Hx.
    destruct want as [X|]; [|done]. apply bool_decide_eq_true in Hx. cbn. rewrite Hpv.
    apply existsb_Exists. exists specs. split; [|done]. apply list_elem_of_omap. exists x. by rewrite elem_of_in_order.
  - intros name req Hl. unfold req_active. by rewrite bool_decide_eq_true_2.
  - intros name req Ho. unfold req_active. rewrite (bool_decide_eq_true_2 (only_for req = [])) by done. by rewrite orb_true_r.
  - intros name req e He _ Hx. rewrite req_active_default. unfold req_active. apply orb_true_iff. right.
    apply existsb_Exists. by exists e.
Qed.

(** The want of a project, read off the facts it takes. *)
Definition want_of (n : str) (o : option Want) : Prop :=
  match o with
  | None => ~ takes n Reached
  | Some None => takes n Reached /\ takes n Any
  | Some (Some X) => takes n Reached /\ ~ takes n Any /\ forall s, s ∈ X <-> takes n (Admit s)
  end.

Lemma closed_exact w n : walk_inv w -> queue w = [] -> want_of n (wants w !! n).
Proof.
  intros Hinv Hq. pose proof (fun t => closed_complete w n t Hinv Hq) as Hc. destruct Hinv as (Hs & _).
  destruct (Hs n) as [Hw _]. destruct (wants w !! n) as [[X|]|] eqn:E; cbn.
  - destruct (Hw _ eq_refl) as [Hr HX]. split; [done|]. split.
    + intros Hany. apply Hc in Hany. cbn in Hany. by rewrite E in Hany.
    + intros s. split; [apply HX|]. intros Ht. apply Hc in Ht. cbn in Ht. rewrite E in Ht. by apply bool_decide_eq_true in Ht.
  - exact (Hw _ eq_refl).
  - intros Hr. apply Hc in Hr. cbn in Hr. by rewrite E in Hr.
Qed.

(** Two answers that fit the same facts are the same. *)
Lemma want_of_unique n o o' : want_of n o -> want_of n o' -> o = o'.
Proof.
  destruct o as [[X|]|], o' as [[X'|]|]; cbn; try naive_solver.
  intros (_ & _ & H) (_ & _ & H'). do 2 f_equal. apply set_eq. intros s. by rewrite H, H'.
Qed.

(** Every requirement text can be read. *)
Definition readable : Prop :=
  forall name memo version texts text, memos !! name = Some memo -> releases memo !! version = Some texts ->
    text ∈ texts -> exists r, parse_requirement text = Ok r.

Lemma visit_reads ws es name rest :
  readable -> is_Some (ws !! name) -> exists w', visit name (MkWalk ws es rest) = Ok w'.
Proof.
  intros Hread [want Hw]. unfold visit. cbn [wants]. rewrite Hw. destruct (memos !! name) as [memo|] eqn:Hm; [|eauto].
  assert (forall text, text ∈ requires memo want -> exists r, parse_requirement text = Ok r) as Hr.
  { intros text (version & texts & Hv & _ & Ht)%elem_of_requires. by eapply Hread. }
  revert Hr. generalize (requires memo want) (MkWalk ws es rest). intros texts.
  induction texts as [|x texts IH]; intros w Hr; cbn [visit_reqs]; [eauto|]. rewrite visit_req_eq.
  destruct (Hr x) as [[req|] ->]; [set_solver| |]; cbn [rbind]; apply IH; set_solver.
Qed.

Lemma walk_ends fuel : forall w, readable -> walk_inv w -> (length (queue w) + missing w <= fuel)%nat ->
  exists w', walk_loop fuel w = Ok (wants w') /\ walk_inv w' /\ queue w' = [].
Proof.
  induction fuel as [|fuel IH]; intros [ws es q] Hread Hinv Hf; destruct q as [|name rest]; cbn in *;
    [by exists (MkWalk ws es [])|lia|by exists (MkWalk ws es [])|].
  destruct (visit_reads ws es name rest) as [w1 Hv]; [done|apply (proj1 (proj2 Hinv)); by left|].
  rewrite Hv. cbn [rbind]. apply IH; [done|by eapply visit_inv|]. apply visit_pays in Hv.
  change (missing (MkWalk ws es (name :: rest))) with (missing (MkWalk ws es rest)) in Hf. cbn in Hv. lia.
Qed.

(** Pops enough for every walk: the listed projects and, at most once each, the
    facts a requirement can add. *)
Definition walk_fuel (order : list str) : nat := (length order + length universe)%nat.

Lemma start_fuel order : (length order + missing (MkWalk (root_wants roots) ∅ order) <= walk_fuel order)%nat.
Proof. unfold walk_fuel, missing. apply Nat.add_le_mono_l, length_filter. Qed.

(** C32: following dependencies ends. Whatever the memos hold (requirement
    cycles, extras that pull in each other, projects that require themselves)
    and in whatever order the listed projects are taken, the worklist is empty
    after at most one pop per listed project and one per fact that some
    requirement text can add. *)
Theorem closure_terminates order fuel :
  (walk_fuel order <= fuel)%nat -> closure fuel order ≠ Err OutOfFuel.
Proof. intros Hf. apply walk_in_fuel. pose proof (start_fuel order). cbn. lia. Qed.

(** C31: what following dependencies returns is exactly the least set of wants
    closed under the requirements: a project is in it when it is listed or a
    followed requirement of a counted release names it; it takes all versions
    when a requirement without a usable range does so, and otherwise exactly
    the specifier texts that reach it; listed and private names are not
    widened. The answer does not depend on the order of the walk. *)
Theorem closure_least order fuel :
  readable -> (forall n, n ∈ order <-> n ∈ listed) -> (walk_fuel order <= fuel)%nat ->
  exists r, closure fuel order = Ok r /\ (forall n, want_of n (r !! n))
    /\ forall r', (forall n, want_of n (r' !! n)) -> r' = r.
Proof.
  intros Hread Horder Hf.
  destruct (walk_ends fuel (MkWalk (root_wants roots) ∅ order)) as (w & Hw & Hinv & Hq); [done| | |].
  - apply start_inv; intros n; by rewrite Horder.
  - pose proof (start_fuel order). cbn. lia.
  - exists (wants w). split; [exact Hw|]. split; [intros n; by apply closed_exact|].
    intros r' Hr'. apply map_eq. intros n. eapply want_of_unique; [done|by apply closed_exact].
Qed.
End closure.
End deps.

(** *** Witnesses *)

#[local] Existing Instance toy_pep440.

Definition no_letters : str -> bool := fun _ => false.

(** [app] pulls in [lib] with an extra; [lib] requires [app] and itself. *)
Definition cyclic_memos : gmap str DepsMemo :=
  {[ &"app" := MkMemo {[ &"1" := [&"lib[x]==2"; &"acme==1"] ]};
     &"lib" := MkMemo {[ &"2" := [&"app"; &"leaf ; extra == 'x'"; &"lib[y] (==3)"]; &"3" := [&"deep; 'y' == extra"];
                         &"4" := [&"never"] ]} ]}.
Definition app_root : list PackageSpec := [MkSpec (&"app") None].
Definition acme_private : PrivateNames := MkNames [MkPattern (&"acme")].

Lemma closure_terminates_witness :
  closure no_letters app_root cyclic_memos acme_private
    (walk_fuel no_letters cyclic_memos [&"app"]) [&"app"] ≠ Err OutOfFuel.
Proof. apply closure_terminates. exact (le_n _). Defined.

Lemma cyclic_readable : readable no_letters cyclic_memos.
Proof.
  assert (Forall (fun m : str * DepsMemo => Forall (fun r : str * list str =>
    Forall (fun text => is_ok (Requires.parse_requirement no_letters text) = true) r.2) (map_to_list (releases m.2)))
    (map_to_list cyclic_memos)) as Hall by (apply (bool_decide_unpack _); vm_compute; exact I).
  intros name memo version texts text Hm%elem_of_map_to_list Hr%elem_of_map_to_list Ht.
  rewrite Forall_forall in Hall. specialize (Hall _ Hm). cbn [snd] in Hall. rewrite Forall_forall in Hall.
  specialize (Hall _ Hr). cbn [snd] in Hall. rewrite Forall_forall in Hall. specialize (Hall _ Ht). cbn in Hall.
  destruct (Requires.parse_requirement _ text); [eauto|done].
Qed.

Lemma closure_least_witness :
  exists r, closure no_letters app_root cyclic_memos acme_private
      (walk_fuel no_letters cyclic_memos [&"app"]) [&"app"] = Ok r
    /\ r !! &"lib" = Some (Some {[ &"==2"; &"==3" ]}) /\ r !! &"leaf" = Some None
    /\ r !! &"deep" = Some None /\ r !! &"never" = None /\ r !! &"acme" = None.
Proof.
  destruct (closure_least no_letters app_root cyclic_memos acme_private [&"app"]
    (walk_fuel no_letters cyclic_memos [&"app"])) as (r & Hr & _ & _).
  - apply cyclic_readable.
  - intros n. replace (listed app_root) with ({[ &"app" ]} : gset str) by (vm_compute; reflexivity). set_solver.
  - exact (le_n _).
  - exists r. split; [exact Hr|].
    assert (match closure no_letters app_root cyclic_memos acme_private
        (walk_fuel no_letters cyclic_memos [&"app"]) [&"app"] with
      | Ok r => bool_decide (r !! &"lib" = Some (Some {[ &"==2"; &"==3" ]}) /\ r !! &"leaf" = Some None
          /\ r !! &"deep" = Some None /\ r !! &"never" = None /\ r !! &"acme" = None)
      | Err _ => false
      end = true) as Hc by (vm_compute; reflexivity).
    rewrite Hr in Hc. exact (bool_decide_eq_true_1 _ Hc).
Defined.

End Deps.
