(* ===== verification/Select.v ===== *)
(** * Selecting from a listing, and when a listing may be skipped (src/sync.rs)

    What one project's sync takes from an upstream listing, the watermark it
    keeps of the files the cooldown alone holds back, and the cursor that lets
    the next run ask for the listing only if it changed. *)
From S2P Require Import Prelude RustStr Pep440 Names Documents Denylist Hash Render Simple Osv Mirror Deps.
Import Names Sidecar Denylist Hash Simple Osv Mirror Deps.

Module Select.

Definition REMOVED_UPSTREAM : str := &"removed upstream".

Inductive SourceKind := FromSimple | FromPypicloud.

#[global] Instance SourceKind_eq_dec : EqDecision SourceKind.
Proof. solve_decision. Defined.

Section select.
Context {P : Pep440} {C : Clock} {D : Digest} (version_string : Version -> str).
(** [Url::join] against the listing's own URL, and the text itself where that
    fails. *)
Context (resolve_url : str -> str -> str).

(** The part of [struct Resolved] that selection reads. *)
Record Resolved := MkResolved {
  src_base : str;
  source_kind : SourceKind;
  as_private : bool;
  repair_upload_times : bool;
  dry_run : bool;
  allow_legacy_versions : bool;
  mirror : ResolvedMirror;
  denylist : Denylist;
  exclude_older_raw : option str;
  exclude_newer_raw : option str;
  advisories : option AdvisoryDb
}.

Record Selected := MkSelected { sel_version : option str; sel_file : SimpleFile }.

(** The clock as the selection of one file reads it: for the fix rule, in the
    predicate, for the bound of the probe, in the probe's predicate. *)
Record FileReads := MkFileReads { at_fix : Z; at_select : Reads; at_probe : Z; at_probe_inner : Reads }.

Definition with_urls (base : str) (file : SimpleFile) : SimpleFile :=
  MkSimple (sf_filename file) (resolve_url base (sf_url file)) (sf_hashes file) (sf_size file) (sf_upload_time file)
    (sf_requires_python file) (sf_yanked file) (sf_core_metadata file) (sf_dist_info_metadata file)
    (resolve_url base <$> sf_provenance file).
Definition with_yank (file : SimpleFile) : SimpleFile :=
  MkSimple (sf_filename file) (sf_url file) (sf_hashes file) (sf_size file) (sf_upload_time file)
    (sf_requires_python file) (yanked_normalized (sf_yanked file)) (sf_core_metadata file) (sf_dist_info_metadata file)
    (sf_provenance file).

Inductive verdict := Takes (s : Selected) | Waits (t : Z) | Skips.

(** The gates of one file that do not look at the clock. *)
Definition admitted (r : Resolved) (job : Job) (file : SimpleFile) : bool :=
  if negb (bool_decide (is_Some (sf_sha256 file))) && bool_decide (source_kind r = FromSimple)
     && negb (repair_upload_times r) then false
  else if negb (allow_legacy_versions r)
          && match infer_version_from_filename (sf_filename file) with
             | Some v => negb (bool_decide (is_Some (parse_version v)))
             | None => true
             end then false
  else if negb (admits job (sf_filename file)) then false
  else if file_denied (denylist r) (job_name job) (sf_filename file) then false
  else true.

Definition is_security_fix (r : Resolved) (job : Job) (file : SimpleFile) (now : Z) : bool :=
  fix_lifts_cooldown (mirror r)
  && match infer_version_from_filename (sf_filename file), advisories r with
     | Some v, Some db => security_fix db (job_name job) v now (fix_settle (mirror r))
     | _, _ => false
     end.

(** The body of the loop of [select_from_index]. *)
Definition select_file (r : Resolved) (job : Job) (base : str) (file : SimpleFile) (now : FileReads) : verdict :=
  let file := with_yank file in
  if negb (admitted r job file) then Skips
  else if matches_mirror_fix version_string file (mirror r) (is_security_fix r job file (at_fix now)) (at_select now)
  then Takes (MkSelected (infer_version_from_filename (sf_filename file)) (with_urls base file))
  else match held_back_by_newer version_string file (mirror r) (at_probe now) (at_probe_inner now) with
       | Some t => Waits t
       | None => Skips
       end.

(** The loop: file [i] of the listing reads the clock as [clock i] says. *)
Fixpoint select_loop (r : Resolved) (job : Job) (base : str) (clock : nat -> FileReads) (i : nat)
    (files : list SimpleFile) (selected : list Selected) (next_eligible_at : option Z)
    : list Selected * option Z :=
  match files with
  | [] => (selected, next_eligible_at)
  | file :: files =>
    match select_file r job base file (clock i) with
    | Takes s => select_loop r job base clock (S i) files (selected ++ [s]) next_eligible_at
    | Waits t =>
      let secs := unix_timestamp t in
      let next := match next_eligible_at with None => secs | Some cur => Z.min cur secs end in
      select_loop r job base clock (S i) files selected (Some next)
    | Skips => select_loop r job base clock (S i) files selected next_eligible_at
    end
  end.

(** [UpstreamFiles]: a later entry of the same name stands. *)
Definition upstream_files (files : list SimpleFile) : gmap str Yanked :=
  foldl (fun m f => <[sf_filename f := yanked_normalized (sf_yanked f)]> m) ∅ files.
Definition desired (by_name : gmap str Yanked) (filename : str) : Yanked :=
  default (Reason REMOVED_UPSTREAM) (by_name !! filename).

Definition base_url (r : Resolved) (job : Job) : str := simple_root (src_base r) ++ &"/" ++ job_name job ++ &"/".

Definition select_from_index (index : SimpleIndex) (r : Resolved) (job : Job) (clock : nat -> FileReads)
    : list Selected * UpstreamStatus * gmap str Yanked * option Z :=
  let '(selected, next_eligible_at) := select_loop r job (base_url r job) clock 0 (index_files index) [] None in
  (selected, upstream_status index, upstream_files (index_files index), next_eligible_at).

Definition MAX_UNSIZED_ARTIFACT_BYTES : Z := 1024 * 1024 * 1024.
Definition spool_ceiling (file : SimpleFile) (m : ResolvedMirror) : Z :=
  match sf_size file, exclude_larger m with
  | Some s, _ => s
  | None, Some max => max
  | None, None => MAX_UNSIZED_ARTIFACT_BYTES
  end.

(** ** The cursor *)

(** [struct CursorEntry]. *)
Record CursorEntry := MkCursor {
  cur_etag : str;
  cur_config : str;
  cur_serial : option Z;
  next_eligible_at : option Z;
  cur_deps : option DepsMemo
}.

(** Little-endian bytes of an unsigned integer. *)
Fixpoint le_bytes (n : nat) (x : Z) : str :=
  match n with
  | O => []
  | S n => ascii_of_N (Z.to_N (x mod 256)) :: le_bytes n (x / 256)
  end.
Definition flag_byte (b : bool) : ascii := if b then "001"%char else "000"%char.
Definition NUL : ascii := "000"%char.
Definition ended (end_ : ascii) (s : str) : str := s ++ [end_].

Definition pair_le (x y : str * str) : Prop := leb x y = true.
#[global] Instance pair_le_dec x y : Decision (pair_le x y).
Proof. unfold pair_le. apply _. Defined.

Definition tag_part (tags : list str) : str := concat (ended NUL <$> merge_sort str_le tags) ++ ["031"%char].
Definition raw_part (raw : option str) : str := ended "030"%char (default [] raw).
Definition exclude_part (specs : list PackageSpec) : str :=
  concat ((fun p : str * str => ended NUL p.1 ++ ended NUL p.2)
    <$> merge_sort pair_le ((fun s => (spec_name s, from_option show_specifiers [] (spec_specifiers s))) <$> specs)).
Fixpoint joined (sep : ascii) (l : list str) : str :=
  match l with
  | [] => []
  | [x] => x
  | x :: l => x ++ sep :: joined sep l
  end.

(** What [config_key] feeds the hash, in order. *)
Definition config_bytes (r : Resolved) (job : Job) : str :=
  let m := mirror r in
  ended NUL (&"filters-v2")
  ++ ended NUL (src_base r)
  ++ [match source_kind r with FromSimple => "000"%char | FromPypicloud => "001"%char end]
  ++ [flag_byte (as_private r)]
  ++ concat ((fun f => ended NUL (format_str f)) <$> include_format m) ++ [" "%char]
  ++ concat (tag_part <$> [include_python_tag m; include_abi_tag m; include_platform_tag m;
                           exclude_python_tag m; exclude_abi_tag m; exclude_platform_tag m])
  ++ concat (raw_part <$> [exclude_newer_raw r; exclude_older_raw r])
  ++ (flag_byte <$> [exclude_dev m; exclude_windows m; exclude_prereleases m; exclude_yanked m; allow_legacy_versions r])
  ++ match exclude_python_below m with Some (maj, min) => le_bytes 4 maj ++ le_bytes 4 min | None => [] end
  ++ le_bytes 8 (default 0 (exclude_larger m)) ++ ["028"%char]
  ++ exclude_part (exclude_packages m) ++ ["029"%char]
  ++ joined NUL (show_specifiers <$> default [] (job_specifiers job)).

Definition config_key (r : Resolved) (job : Job) : str := sha256_hex (config_bytes r job).

(** [now] is measured back by the rolling window only. *)
Definition recent_fix (r : Resolved) (pkg : str) (now : Z) : bool :=
  match advisories r, exclude_newer (mirror r) with
  | Some db, Some (Ago window) =>
    fixes_skip_cooldown (mirror r) && fix_since db pkg (now - window) (fix_settle (mirror r))
  | _, _ => false
  end.

Definition watermark_open (m : ResolvedMirror) (c : CursorEntry) (now : Z) : bool :=
  match next_eligible_at c with
  | None => true
  | Some w => match exclude_newer m with Some cut => unix_timestamp (instant now cut) <? w | None => false end
  end.

(** The [if_none_match] of [sync_one_package]: the ETag to replay. *)
Definition if_none_match (r : Resolved) (job : Job) (prev : option CursorEntry) (now fix_now : Z) : option str :=
  if dry_run r || repair_upload_times r then None else
  let! c := prev in
  if bool_decide (cur_config c = config_key r job) && watermark_open (mirror r) c now
     && negb (recent_fix r (job_name job) fix_now)
     && (negb (include_dependencies (mirror r)) || bool_decide (is_Some (cur_deps c)))
  then Some (cur_etag c) else None.

(** ** The loop *)

Lemma elem_of_selected r job base clock files : forall i sel next s,
  s ∈ (select_loop r job base clock i files sel next).1
  <-> s ∈ sel \/ exists j file, files !! j = Some file /\ select_file r job base file (clock (i + j)%nat) = Takes s.
Proof.
  induction files as [|f files IH]; intros i sel next s; cbn [select_loop].
  { cbn. split; [by left|]. intros [?|(j & file & Hf & _)]; [done|by rewrite lookup_nil in Hf]. }
  assert ((exists j file, (f :: files) !! j = Some file /\ select_file r job base file (clock (i + j)%nat) = Takes s)
    <-> select_file r job base f (clock i) = Takes s
        \/ exists j file, files !! j = Some file /\ select_file r job base file (clock (S i + j)%nat) = Takes s) as ->.
  { split.
    - intros ([|j] & file & Hf & Ht); cbn in Hf.
      + injection Hf as ->. rewrite Nat.add_0_r in Ht. by left.
      + right. exists j, file. by rewrite Nat.add_succ_r in Ht.
    - intros [Ht|(j & file & Hf & Ht)]; [exists 0%nat, f; by rewrite Nat.add_0_r|].
      exists (S j), file. by rewrite Nat.add_succ_r. }
  destruct (select_file r job base f (clock i)) as [s0|t|] eqn:E; rewrite IH.
  - rewrite elem_of_app, list_elem_of_singleton. split; [intros [[?| ->]|?]|intros [?|[[= ->]|?]]]; auto.
  - split; [intros [?|?]|intros [?|[?|?]]]; auto; done.
  - split; [intros [?|?]|intros [?|[?|?]]]; auto; done.
Qed.

(** The watermark is at most the upload time of every file that waits. *)
Lemma watermark_below r job base clock files : forall i sel next,
  (forall w0, next = Some w0 -> exists w, (select_loop r job base clock i files sel next).2 = Some w /\ w <= w0)
  /\ (forall j file t, files !! j = Some file -> select_file r job base file (clock (i + j)%nat) = Waits t ->
       exists w, (select_loop r job base clock i files sel next).2 = Some w /\ w <= unix_timestamp t).
Proof.
  induction files as [|f files IH]; intros i sel next; cbn [select_loop].
  { split; [intros w0 ->; by exists w0|]. intros j file t Hf. by rewrite lookup_nil in Hf. }
  split.
  - intros w0 ->. destruct (select_file r job base f (clock i)) as [s0|t|]; [by apply IH| |by apply IH].
    destruct (IH (S i) sel (Some (Z.min w0 (unix_timestamp t)))) as [H _].
    destruct (H _ eq_refl) as (w & Hw & Hle). exists w. split; [exact Hw|lia].
  - intros [|j] file t Hf; cbn in Hf.
    + injection Hf as ->. rewrite Nat.add_0_r. intros ->.
      destruct (IH (S i) sel (Some match next with None => unix_timestamp t | Some cur => Z.min cur (unix_timestamp t) end))
        as [H _].
      destruct (H _ eq_refl) as (w & Hw & Hle). exists w. split; [exact Hw|]. destruct next; lia.
    + rewrite Nat.add_succ_r. intros Ht.
      destruct (select_file r job base f (clock i)); eapply (proj2 (IH (S i) _ _)); eauto.
Qed.

(** ** Nothing ages in behind a replayed ETag *)

Definition steady (now : Z) : FileReads := MkFileReads now (MkReads now now) now (MkReads now now).

Lemma instant_mono now now' c : now <= now' -> instant now c <= instant now' c.
Proof. destruct c; cbn; lia. Qed.

Lemma later_second t u : unix_timestamp t < unix_timestamp u -> t < u.
Proof. unfold unix_timestamp. intros H. pose proof (Z.div_le_mono u t NANOS ltac:(done)). lia. Qed.

(** Reading [now] off a passed predicate: no rule of the clock excludes. *)
Lemma passes_times_spec file m lift now u :
  uploaded_at file = Some u ->
  passes_times file m lift now = true <->
  (forall cut, exclude_newer m = Some cut -> lift_newer lift || (lift_fix lift && fix_lifts_cooldown m) = false ->
     u < instant (at_newer now) cut)
  /\ (forall cut, exclude_older m = Some cut -> instant (at_older now) cut <= u).
Proof.
  intros Hu. unfold passes_times. rewrite Hu. set (L := lift_newer lift || _).
  set (A := match _ with Some cutoff => _ <=? u | None => false end).
  set (B := match exclude_older m with Some cutoff => u <? _ | None => false end).
  transitivity (A = false /\ B = false); [by destruct A, B; naive_solver|]. subst A B. f_equiv.
  - destruct L, (exclude_newer m) as [c|]; cbn; try naive_solver. rewrite Z.leb_gt.
    split; [by intros H cut [= <-] _|intros H; by apply H].
  - destruct (exclude_older m) as [o|]; [|naive_solver]. rewrite Z.ltb_ge.
    split; [by intros H cut [= <-]|intros H; by apply H].
Qed.

(** The same settings with another advisory database. *)
Definition with_advisories (r : Resolved) (a : option AdvisoryDb) : Resolved :=
  MkResolved (src_base r) (source_kind r) (as_private r) (repair_upload_times r) (dry_run r) (allow_legacy_versions r)
    (mirror r) (denylist r) (exclude_older_raw r) (exclude_newer_raw r) a.

(** Every fix rule for [pkg] that [a0] did not have settles at [t] or later. *)
Definition learned_since (r : Resolved) (a0 : option AdvisoryDb) (pkg : str) (t : Z) : Prop :=
  forall db rules rule, advisories r = Some db -> fixes db !! pkg = Some rules -> rule ∈ rules ->
    (exists db0 rules0, a0 = Some db0 /\ fixes db0 !! pkg = Some rules0 /\ rule ∈ rules0)
    \/ t <= dt_saturating_add (fix_at rule) (fix_settle (mirror r)).

(** A rule that makes a release a fix now but is not recent made it one already
    when the file was listed. *)
Lemma fix_not_new r a0 job file now listed_at u :
  learned_since r a0 (job_name job) listed_at ->
  is_security_fix r job file now = true -> recent_fix r (job_name job) now = false ->
  u <= listed_at -> (forall cut, exclude_newer (mirror r) = Some cut -> instant now cut < u) ->
  is_security_fix (with_advisories r a0) job file listed_at = true.
Proof.
  unfold is_security_fix, recent_fix, fix_lifts_cooldown. intros Hsince (Hl & Hf)%andb_true_iff Hr Hu Hw.
  cbn [mirror with_advisories advisories].
  rewrite Hl. apply andb_true_iff in Hl as [Hskip Hago]. rewrite Hskip in Hr.
  destruct (exclude_newer (mirror r)) as [[|window]|] eqn:Hn; try done.
  destruct (infer_version_from_filename (sf_filename file)) as [v|]; [|done]. unfold learned_since in Hsince.
  destruct (advisories r) as [db|]; [|done]. cbn [andb] in *. specialize (Hw _ eq_refl). cbn in Hw.
  unfold security_fix, fix_hit, fix_since in *. destruct (fixes db !! job_name job) as [rules|] eqn:Hrules; [|done].
  destruct (parse_version v) as [ver|]; [|done]. apply existsb_Exists in Hf as (rule & Hin & Hrule).
  assert (dt_saturating_add (fix_at rule) (fix_settle (mirror r)) <= now - window) as Hold.
  { apply Z.nlt_ge. intros Hlt. apply not_true_iff_false in Hr. apply Hr, existsb_Exists. exists rule. by rewrite Z.ltb_lt. }
  destruct (Hsince db rules rule eq_refl Hrules Hin) as [(db0 & rules0 & -> & -> & Hin0)|Hlate]; [|lia].
  apply existsb_Exists. exists rule. split; [done|]. rewrite !andb_true_iff in *.
  destruct Hrule as [[Hv Hat] Hid]. split; [|done]. split; [done|]. apply Z.leb_le. lia.
Qed.

(** The predicate, gate by gate. *)
Lemma matches_split file m lift now :
  matches_mirror_inner version_string file m lift now = true
  <-> passes_content version_string file m lift = true /\ passes_times file m lift now = true
      /\ passes_tags file m = true.
Proof. unfold matches_mirror_inner. destruct (passes_content _ _ _ _), (passes_times _ _ _ _); naive_solver. Qed.

(** The readings of a run that is over at [now]: in the past, and after the
    file was uploaded. *)
Definition orderly (file : SimpleFile) (reads : FileReads) (now : Z) : Prop :=
  at_older (at_select reads) <= now /\ at_older (at_probe_inner reads) <= now
  /\ forall u, uploaded_at file = Some u -> u <= at_fix reads.

(** The file came of age between the predicate's reading of the clock and the
    probe's. *)
Definition slipped (m : ResolvedMirror) (file : SimpleFile) (reads : FileReads) : Prop :=
  exists u cut, uploaded_at file = Some u /\ exclude_newer m = Some cut
    /\ instant (at_newer (at_select reads)) cut <= u < instant (at_probe reads) cut.

Lemma select_takes r job base file reads s :
  select_file r job base file reads = Takes s
  <-> admitted r job (with_yank file) = true
      /\ matches_mirror_fix version_string (with_yank file) (mirror r)
           (is_security_fix r job (with_yank file) (at_fix reads)) (at_select reads) = true
      /\ s = MkSelected (infer_version_from_filename (sf_filename file)) (with_urls base (with_yank file)).
Proof.
  unfold select_file. cbn zeta. destruct (admitted r job (with_yank file)); cbn [negb]; [|naive_solver].
  destruct (matches_mirror_fix _ _ _ _ _); [naive_solver|]. case_match; naive_solver.
Qed.

Lemma would_wait r job base file reads now u :
  orderly file reads now -> uploaded_at file = Some u -> admitted r job (with_yank file) = true ->
  passes_content version_string (with_yank file) (mirror r) no_lift = true -> passes_tags (with_yank file) (mirror r) = true ->
  (forall cut, exclude_older (mirror r) = Some cut -> instant now cut <= u) ->
  passes_times (with_yank file) (mirror r)
    (MkLift false false (is_security_fix r job (with_yank file) (at_fix reads))) (at_select reads) = false ->
  slipped (mirror r) file reads
  \/ select_file r job base file reads = Waits u
     /\ is_security_fix r job (with_yank file) (at_fix reads) && fix_lifts_cooldown (mirror r) = false.
Proof.
  intros (Ho & Hoi & _) Hu Hadm Hc Ht Hold Hp.
  assert (exists cut, exclude_newer (mirror r) = Some cut /\ instant (at_newer (at_select reads)) cut <= u
    /\ is_security_fix r job (with_yank file) (at_fix reads) && fix_lifts_cooldown (mirror r) = false) as (cut & Hn & Hle & Hfix).
  { apply not_true_iff_false in Hp. destruct (exclude_newer (mirror r)) as [cut|] eqn:Hn.
    - exists cut. split; [done|]. destruct (_ && _) eqn:Hfix.
      + exfalso. apply Hp, (passes_times_spec _ _ _ _ u Hu). cbn. rewrite Hfix. split; [done|].
        intros o Hoo. specialize (Hold o Hoo). pose proof (instant_mono _ _ o Ho). lia.
      + split; [|done]. apply Z.nlt_ge. intros Hlt. apply Hp, (passes_times_spec _ _ _ _ u Hu). cbn. split.
        * intros c Hc' _. rewrite Hn in Hc'. by injection Hc' as <-.
        * intros o Hoo. specialize (Hold o Hoo). pose proof (instant_mono _ _ o Ho). lia.
    - exfalso. apply Hp, (passes_times_spec _ _ _ _ u Hu). split; [by rewrite Hn|].
      intros o Hoo. specialize (Hold o Hoo). pose proof (instant_mono _ _ o Ho). cbn. lia. }
  destruct (Z.lt_ge_cases u (instant (at_probe reads) cut)) as [Hslip|Hsame]; [left; by exists u, cut|right].
  split; [|exact Hfix]. unfold select_file. cbn zeta. rewrite Hadm. cbn [negb].
  assert (matches_mirror_fix version_string (with_yank file) (mirror r)
    (is_security_fix r job (with_yank file) (at_fix reads)) (at_select reads) = false) as ->.
  { apply not_true_iff_false. intros Hm. apply matches_split in Hm as (_ & Hpt & _). cbn in Hpt, Hp. congruence. }
  unfold held_back_by_newer. rewrite Hn. cbn [mbind option_bind].
  change (uploaded_at (with_yank file)) with (uploaded_at file). rewrite Hu. cbn [mbind option_bind].
  rewrite (proj2 (Z.ltb_ge _ _)) by exact Hsame.
  rewrite (proj2 (matches_split (with_yank file) (mirror r) (MkLift true false false) (at_probe_inner reads))); [done|].
  split_and!; [exact Hc| |exact Ht]. apply (passes_times_spec _ _ _ _ u Hu). cbn. split; [done|].
  intros o Hoo. specialize (Hold o Hoo). pose proof (instant_mono _ _ o Hoi). lia.
Qed.

Lemma replay_file r a0 job base file reads now s :
  orderly file reads now -> learned_since r a0 (job_name job) (at_fix reads) -> recent_fix r (job_name job) now = false ->
  (forall t, select_file (with_advisories r a0) job base file reads = Waits t ->
     forall cut, exclude_newer (mirror r) = Some cut -> instant now cut < t) ->
  select_file r job base file (steady now) = Takes s ->
  select_file (with_advisories r a0) job base file reads = Takes s
  \/ sf_filename (sel_file s) = sf_filename file /\ slipped (mirror r) file reads.
Proof.
  intros Hord Hsince Hrec Hwait (Hadm & Hm & ->)%select_takes. rewrite select_takes.
  apply matches_split in Hm as (Hc & Hp & Ht). unfold matches_mirror_fix. rewrite matches_split.
  destruct (passes_times (with_yank file) (mirror r)
    (MkLift false false (is_security_fix (with_advisories r a0) job (with_yank file) (at_fix reads))) (at_select reads))
    eqn:Hp1; [by left|right].
  split; [done|].
  destruct (uploaded_at file) as [u|] eqn:Hu;
    [|unfold passes_times in Hp1; change (uploaded_at (with_yank file)) with (uploaded_at file) in Hp1;
      by rewrite Hu in Hp1].
  apply (passes_times_spec _ _ _ _ u Hu) in Hp as [Hnew Hold]. cbn [steady at_fix at_select at_newer at_older] in Hnew, Hold.
  destruct (would_wait (with_advisories r a0) job base file reads now u) as [Hslip|[Hw Hfix]]; [done..|exfalso].
  specialize (Hwait _ Hw). cbn [lift_newer lift_fix orb] in Hnew. cbn [mirror with_advisories] in Hfix.
  destruct (is_security_fix r job (with_yank file) now && fix_lifts_cooldown (mirror r)) eqn:Hf.
  - apply andb_true_iff in Hf as [Hf Hl]. rewrite Hl, andb_true_r in Hfix.
    rewrite (fix_not_new r a0 job (with_yank file) now (at_fix reads) u) in Hfix; [done|done|done|done| |done].
    by apply Hord.
  - destruct (exclude_newer (mirror r)) as [cut|] eqn:Hn.
    + specialize (Hnew cut eq_refl eq_refl). specialize (Hwait cut eq_refl). lia.
    + unfold select_file, held_back_by_newer in Hw. cbn [mirror with_advisories] in Hw. rewrite Hn in Hw. cbn zeta in Hw.
      repeat case_match; done.
Qed.

(** C33: a replayed ETag hides no file but one that slipped between two readings
    of the clock. A run selected from a listing under the same settings, with
    the advisories it had, kept the watermark it computed, and is over, its
    clock readings being in the past and none before the upload of the file it
    judged. Later, with fix rules it did not have settling only after it read
    the listing, the cursor's gates let its ETag be replayed. Then every file
    that selecting from the same listing at that instant would take was
    already taken by that run, so that none has come of age behind the
    unchanged listing through the sliding cooldown or as the fix a new or old
    advisory names; the one exception is a file that reached the cutoff between
    the reading the predicate made of the clock and the one the probe made. *)
Theorem replay_hides_nothing r a0 job index clock c etag now :
  next_eligible_at c = (select_from_index index (with_advisories r a0) job clock).2 ->
  (forall i file, index_files index !! i = Some file -> orderly file (clock i) now) ->
  (forall i, learned_since r a0 (job_name job) (at_fix (clock i))) ->
  if_none_match r job (Some c) now now = Some etag ->
  forall s, s ∈ (select_from_index index r job (fun _ => steady now)).1.1.1 ->
    s ∈ (select_from_index index (with_advisories r a0) job clock).1.1.1
    \/ exists i file, index_files index !! i = Some file /\ sf_filename (sel_file s) = sf_filename file
        /\ slipped (mirror r) file (clock i).
Proof.
  intros Hw Hord Hsince Hgate s. unfold select_from_index in *. set (r0 := with_advisories r a0) in *.
  pose proof (elem_of_selected r job (base_url r job) (fun _ => steady now) (index_files index) 0 [] None s) as Hlate.
  pose proof (elem_of_selected r0 job (base_url r0 job) clock (index_files index) 0 [] None s) as Hearly.
  pose proof (proj2 (watermark_below r0 job (base_url r0 job) clock (index_files index) 0 [] None)) as Hmark.
  destruct (select_loop r job (base_url r job) (fun _ => steady now) _ _ _ _) as [late ?].
  destruct (select_loop r0 job (base_url r0 job) clock _ _ _ _) as [early mark]. cbn [fst snd] in *.
  rewrite Hlate, Hearly. intros [[]%not_elem_of_nil|(j & file & Hf & Ht)].
  unfold if_none_match in Hgate. case_match; [done|]. cbn [mbind option_bind] in Hgate. case_match eqn:Hok; [|done].
  rewrite !andb_true_iff, negb_true_iff in Hok. destruct Hok as (((_ & Hopen) & Hrec) & _).
  destruct (replay_file r a0 job (base_url r job) file (clock j) now s) as [Htake|[Hname Hslip]];
    [by apply Hord|done|done| |exact Ht|left; right; by exists j, file|right; by exists j, file].
  intros t Hwait cut Hcut.
  destruct (Hmark j file t Hf Hwait) as (w & Hm & Hle). unfold watermark_open in Hopen. rewrite Hw, Hm, Hcut in Hopen.
  apply Z.ltb_lt in Hopen. apply later_second. lia.
Qed.

(** ** What the configuration key does not see *)

(** The same mirror under another size ceiling and another rule for fixes. *)
Definition with_ceiling (m : ResolvedMirror) (ceiling : option Z) (fixes : bool) (settle : Z) : ResolvedMirror :=
  MkMirror (include_packages m) (include_dependencies m) (exclude_packages m) (include_format m) (include_python_tag m)
    (include_abi_tag m) (include_platform_tag m) (exclude_python_tag m) (exclude_abi_tag m) (exclude_platform_tag m)
    (exclude_newer m) (exclude_older m) (exclude_python_below m) (exclude_dev m) (exclude_windows m)
    (exclude_prereleases m) ceiling (exclude_yanked m) fixes settle.
Definition with_mirror (r : Resolved) (m : ResolvedMirror) : Resolved :=
  MkResolved (src_base r) (source_kind r) (as_private r) (repair_upload_times r) (dry_run r) (allow_legacy_versions r) m
    (denylist r) (exclude_older_raw r) (exclude_newer_raw r) (advisories r).

(** No ceiling and a ceiling of zero bytes are one key, and so are all rules
    for fixes, although they select differently. *)
Lemma key_blind_to_zero_ceiling r job fixes settle fixes' settle' :
  config_key (with_mirror r (with_ceiling (mirror r) None fixes settle)) job
  = config_key (with_mirror r (with_ceiling (mirror r) (Some 0) fixes' settle')) job.
Proof. reflexivity. Qed.

Lemma zero_ceiling_takes_nothing r job base file reads s n fixes settle :
  sf_size file = Some n -> 0 < n ->
  select_file (with_mirror r (with_ceiling (mirror r) (Some 0) fixes settle)) job base file reads ≠ Takes s.
Proof.
  intros Hsize Hn (_ & Hm & _)%select_takes. apply matches_split in Hm as (Hc & _).
  unfold passes_content in Hc. cbn in Hc. rewrite Hsize in Hc. rewrite (proj2 (Z.ltb_lt 0 n) Hn) in Hc.
  repeat case_match; done.
Qed.
End select.

(** *** Witnesses *)

#[local] Existing Instances toy_pep440 toy_clock toy_digest.

Definition plain_version : @Version toy_pep440 -> str := decimal.
Definition same_url (base url : str) : str := url.

(** A file of [pkg] uploaded at 1000 s, and a mirror that waits 100 s. *)
Definition young_file : SimpleFile :=
  MkSimple (&"pkg-2.tar.gz") (&"u") {[ &"sha256" := &"00" ]} (Some 7) (Some (&"1000000000000")) None (Flag false) None None None.
Definition old_file : SimpleFile :=
  MkSimple (&"pkg-1.tar.gz") (&"u") {[ &"sha256" := &"00" ]} (Some 7) (Some (&"500000000000")) None (Flag false) None None None.
Definition waiting_mirror : ResolvedMirror :=
  MkMirror [] false [] [] [] [] [] [] [] [] (Some (Ago (100 * NANOS))) None None false false false None true false 0.
Definition waiting : Resolved :=
  MkResolved (&"https://x/simple") FromSimple false false false false waiting_mirror (from_specs []) None (Some (&"100 s")) None.
Definition pkg_job : Job := MkJob (&"pkg") None false.
Definition pkg_index : SimpleIndex := active [young_file; old_file].
Definition first_mark : option Z :=
  (select_from_index plain_version same_url pkg_index waiting pkg_job (fun _ => steady (1050 * NANOS))).2.
Definition first_cursor : CursorEntry := MkCursor (&"etag") (config_key waiting pkg_job) None first_mark None.

(** The first run waits for one file and takes the other; until the first
    comes of age the ETag is replayed, and then it is not. *)
Lemma replay_hides_nothing_witness :
  first_mark = Some 1000
  /\ if_none_match waiting pkg_job (Some first_cursor) (1099 * NANOS) (1099 * NANOS) = Some (&"etag")
  /\ if_none_match waiting pkg_job (Some first_cursor) (1101 * NANOS) (1101 * NANOS) = None
  /\ forall s, s ∈ (select_from_index plain_version same_url pkg_index waiting pkg_job (fun _ => steady (1099 * NANOS))).1.1.1 ->
       s ∈ (select_from_index plain_version same_url pkg_index waiting pkg_job (fun _ => steady (1050 * NANOS))).1.1.1
       \/ exists i file, index_files pkg_index !! i = Some file /\ sf_filename (sel_file s) = sf_filename file
           /\ slipped waiting_mirror file (steady (1050 * NANOS)).
Proof.
  split; [vm_compute; reflexivity|]. split; [vm_compute; reflexivity|]. split; [vm_compute; reflexivity|].
  apply (replay_hides_nothing plain_version same_url waiting None pkg_job pkg_index (fun _ => steady (1050 * NANOS))
    first_cursor (&"etag")).
  - reflexivity.
  - intros i file Hf. assert (uploaded_at file = Some (1000 * NANOS) \/ uploaded_at file = Some (500 * NANOS)) as Hu.
    { destruct i as [|[|i]]; [injection Hf as <-..|done]; [left|right]; vm_compute; reflexivity. }
    split; [done|]. split; [done|]. intros u Hup. rewrite Hup in Hu. destruct Hu as [[= ->]|[= ->]]; done.
  - by intros i db rules rule Hdb.
  - vm_compute. reflexivity.
Defined.

(** A file that comes of age between the two readings of the clock is neither
    taken nor waited for, and the replayed ETag then hides it. *)
Definition slow_reads : FileReads :=
  MkFileReads (1100 * NANOS) (MkReads (1100 * NANOS) (1100 * NANOS)) (1100 * NANOS + 1) (MkReads (1100 * NANOS + 1) (1100 * NANOS + 1)).

Lemma ages_between_reads :
  let first := select_from_index plain_version same_url (active [young_file]) waiting pkg_job (fun _ => slow_reads) in
  let cursor := MkCursor (&"etag") (config_key waiting pkg_job) None first.2 None in
  first.1.1.1 = [] /\ first.2 = None
  /\ if_none_match waiting pkg_job (Some cursor) (9999 * NANOS) (9999 * NANOS) = Some (&"etag")
  /\ length (select_from_index plain_version same_url (active [young_file]) waiting pkg_job
               (fun _ => steady (9999 * NANOS))).1.1.1 = 1%nat.
Proof. vm_compute. repeat split. Qed.
End Select.
