(* ===== verification/Sync.v ===== *)
(** * Syncing one project (src/sync.rs)

    The steps of [sync_one_package]: the policy gates, the conditional fetch,
    the selection, the uploads, the reconciliation of yanks and the relay of the
    project status, and the cursor it leaves. Both servers are a parameter, the
    answers [Peers] they give; what the run asks them to change is recorded in
    order, so that a run is its answer and its list of requests. *)
From S2P Require Import Prelude RustStr Pep440 Names Documents Denylist Hash Render Simple Osv Mirror Deps Select.
Import Names Sidecar Denylist Hash Simple Osv Mirror Deps Select.

Module Sync.
Import StatusDoc.

(** ** Runs *)

(** The requests that change the destination. *)
Inductive request :=
  | Upload (s : Selected)
  | SetYank (filename : str) (y : Yanked)
  | SetStatus (d : ProjectStatusDoc)
  | ClearStatus
  | SetUploadTime (filename digest ts : str).

Inductive sync_error :=
  | ReservedName | NotOnSource | OwnershipConflict | NeedsLocalIndex | NeedsPrivate | BadUploadDate | DigestMismatch
  | Refused | Errors (n : nat).

(** A run: requests are appended to the log, an error ends it. *)
Definition run_of (A : Type) : Type := list request -> result sync_error A * list request.
Definition done_ {A} (a : A) : run_of A := fun log => (Ok a, log).
Definition fails {A} (e : sync_error) : run_of A := fun log => (Err e, log).
Definition answer {A} (r : result sync_error A) : run_of A := fun log => (r, log).
Definition andThen {A B} (m : run_of A) (k : A -> run_of B) : run_of B := fun log =>
  match m log with
  | (Ok a, log) => k a log
  | (Err e, log) => (Err e, log)
  end.
(** The request is sent, whatever the answer. *)
Definition ask {A} (q : request) (r : result sync_error A) : run_of A := fun log => (r, log ++ [q]).
(** The error as a value: the branches that count it and go on. *)
Definition caught {A} (m : run_of A) : run_of (result sync_error A) := fun log =>
  let '(r, log) := m log in (Ok r, log).

Notation "'let^' x ':=' m 'in' k" := (andThen m (fun x => k)) (at level 10, x binder, k at level 200) : rust_scope.

Section sync.
Context {P : Pep440} {C : Clock} {D : Digest} (version_string : Version -> str) (resolve_url : str -> str -> str).

Inductive IndexFetch :=
  | NotModified
  | NotFound
  | Found (index : SimpleIndex) (etag : option str) (last_serial : option Z).

(** What the source and the destination answer. *)
Record Peers := MkPeers {
  fetch_index : option str -> result sync_error IndexFetch;
  fetch_requires : SimpleFile -> result sync_error (list str);
  fetch_local_index : result sync_error (option (SimpleIndex * option OriginState.OriginState));
  upload_via_http : Selected -> result sync_error bool;
  apply_yank_http : str -> Yanked -> result sync_error unit;
  status_http : option ProjectStatusDoc -> result sync_error unit;
  upload_time_http : str -> result sync_error unit;
  download_digest : SimpleFile -> result sync_error str
}.

Section with_peers.
Context (peers : Peers).

(** ** Dependencies *)

(** The releases in the order in which their reads complete. *)
Fixpoint read_all (unread : list (str * SimpleFile)) : result sync_error (list (str * option (list str))) :=
  match unread with
  | [] => Ok []
  | (version, file) :: rest =>
    let? requires := (if has_core_metadata file then let? l := fetch_requires peers file in Ok (Some l) else Ok None) in
    let? more := read_all rest in
    Ok ((version, requires) :: more)
  end.

Definition read_dependencies (selected : list Selected) (memo : DepsMemo) : result sync_error DepsMemo :=
  let? read := read_all (unread memo (sel_file <$> selected)) in
  Ok (foldl (fun m (p : str * option (list str)) => record m p.1 p.2) memo read).

(** ** Yanks and status *)

Fixpoint reconcile_yanks (files : list SimpleFile) (upstream : gmap str Yanked) : run_of unit :=
  match files with
  | [] => done_ tt
  | file :: files =>
    let want := desired upstream (sf_filename file) in
    let^ _ := (if bool_decide (sf_yanked file = want) then done_ tt
               else ask (SetYank (sf_filename file) want) (apply_yank_http peers (sf_filename file) want)) in
    reconcile_yanks files upstream
  end.

Definition relay_status (local : SimpleIndex) (upstream : UpstreamStatus) : run_of unit :=
  match upstream with
  | Unparseable => done_ tt
  | _ =>
    let want := match upstream with
                | Known doc => if is_active (status doc) then status_doc_default else doc
                | _ => status_doc_default
                end in
    let current := default status_doc_default (project_status local) in
    if bool_decide (current = want) then done_ tt
    else if is_active (status want) then ask ClearStatus (status_http peers None)
    else ask (SetStatus want) (status_http peers (Some want))
  end.

(** ** Repairing upload dates *)

(** A later file of the same name stands. *)
Definition by_filename (files : list SimpleFile) : gmap str SimpleFile :=
  foldl (fun m f => <[sf_filename f := f]> m) ∅ files.

(** The repair one selected file needs: its digest and its date. *)
Definition repair_of (dest : gmap str SimpleFile) (file : SimpleFile) : result sync_error (option (str * str)) :=
  match dest !! sf_filename file, sf_upload_time file with
  | Some there, Some ts =>
    match parse_rfc3339 ts with
    | None => Err BadUploadDate
    | Some timestamp =>
      let? digest := match sf_sha256 file with Some d => Ok d | None => download_digest peers file end in
      if match sf_sha256 there with Some sha => negb (eq_ignore_ascii_case sha digest) | None => true end
      then Err DigestMismatch
      else if bool_decide (uploaded_at there = Some timestamp) then Ok None else Ok (Some (digest, ts))
    end
  | _, _ => Ok None
  end.

Fixpoint repairs_of (dest : gmap str SimpleFile) (files : list SimpleFile) : result sync_error (list (str * (str * str))) :=
  match files with
  | [] => Ok []
  | file :: files =>
    let? here := repair_of dest file in
    let? more := repairs_of dest files in
    Ok (option_list (pair (sf_filename file) <$> here) ++ more)
  end.

Fixpoint send_repairs (dry : bool) (repairs : list (str * (str * str))) : run_of unit :=
  match repairs with
  | [] => done_ tt
  | (filename, (digest, ts)) :: repairs =>
    let^ _ := (if dry then done_ tt else ask (SetUploadTime filename digest ts) (upload_time_http peers filename)) in
    send_repairs dry repairs
  end.

Definition repair_times (dry : bool) (selected : list Selected) (local : SimpleIndex) : run_of unit :=
  let^ repairs := answer (repairs_of (by_filename (index_files local)) (sel_file <$> selected)) in
  send_repairs dry repairs.

(** ** Uploads *)

(** Biggest first. *)
Definition size_ge (a b : Selected) : Prop := default 0 (sf_size (sel_file b)) <= default 0 (sf_size (sel_file a)).
#[global] Instance size_ge_dec a b : Decision (size_ge a b).
Proof. unfold size_ge. apply _. Defined.

(** Every upload is sent; the number that failed. *)
Fixpoint upload_all (selected : list Selected) : run_of nat :=
  match selected with
  | [] => done_ 0%nat
  | s :: selected =>
    let^ r := caught (ask (Upload s) (upload_via_http peers s)) in
    let^ failed := upload_all selected in
    done_ (match r with Ok _ => failed | Err _ => S failed end)
  end.

(** ** The project *)

Record PackageOutcome := MkOutcome { new_cursor : option CursorEntry; out_deps : DepsMemo }.

Definition no_memo_yet : DepsMemo := MkMemo ∅.

Definition one_error {A} (r : result sync_error A) : nat := match r with Ok _ => 0%nat | Err _ => 1%nat end.

(** The reconciliation of a destination that answered: the errors it counts and
    whether the cursor is held. *)
Definition reconcile (local : SimpleIndex) (upstream : UpstreamStatus) (files : gmap str Yanked) : run_of (nat * bool) :=
  let upstream_blocks := match upstream with Known doc => blocks_downloads (status doc) | _ => false end in
  let dest_blocks := match project_status local with Some d => blocks_downloads (status d) | None => false end in
  let^ yanks := (if upstream_blocks then done_ (0%nat, false)
                 else if dest_blocks then done_ (0%nat, true)
                 else let^ r := caught (reconcile_yanks (index_files local) files) in done_ (one_error r, false)) in
  let^ relayed := caught (relay_status local upstream) in
  done_ ((yanks.1 + one_error relayed)%nat, yanks.2).

Definition unreadable (upstream : UpstreamStatus) : bool := match upstream with Unparseable => true | _ => false end.

(** The destination's answer: its index, its claim, and the error counted when
    it gave none. *)
Definition heard : option SimpleIndex * option OriginState.OriginState * nat :=
  match fetch_local_index peers with
  | Ok (Some (local, dest_origin)) => (Some local, dest_origin, 0%nat)
  | Ok None => (None, None, 0%nat)
  | Err _ => (None, None, 1%nat)
  end.

(** A destination without the endpoint cannot take a freeze: an error. *)
Definition reconcile_local (local : option SimpleIndex) (upstream : UpstreamStatus) (files : gmap str Yanked)
    : run_of (nat * bool) :=
  match local with
  | Some local => reconcile local upstream files
  | None => done_ (match upstream with Known doc => if is_active (status doc) then 0%nat else 1%nat | _ => 0%nat end, false)
  end.

(** The end of the function, from the destination's answer on. *)
Definition sync_selected (r : Resolved) (job : Job) (selected : list Selected) (upstream : UpstreamStatus)
    (files : gmap str Yanked) (next : option Z) (deps : option DepsMemo) (etag : option str) (serial : option Z)
    : run_of PackageOutcome :=
  let followed := default no_memo_yet deps in
  let '(local, dest_origin, errors) := heard in
  if as_private r && bool_decide (dest_origin = Some OriginState.Mirror) then fails OwnershipConflict
  else if repair_upload_times r then
    match local with
    | None => fails NeedsLocalIndex
    | Some local =>
      if negb (bool_decide (dest_origin = Some OriginState.Private)) then fails NeedsPrivate else
      let^ _ := repair_times (dry_run r) selected local in done_ (MkOutcome None followed)
    end
  else
  let skip_against := if as_private r && bool_decide (dest_origin = None) then None else local in
  let present := match skip_against with Some l => sf_filename <$> index_files l | None => [] end in
  let to_upload := filter (fun s => sf_filename (sel_file s) ∉ present) selected in
  if dry_run r then done_ (MkOutcome None followed) else
  let^ failed := upload_all (merge_sort size_ge to_upload) in
  let errors := (errors + failed)%nat in
  let^ reconciled :=
    (if as_private r then done_ (0%nat, false) else reconcile_local local upstream files) in
  let errors := (errors + reconciled.1)%nat in
  let hold_cursor := negb (as_private r) && unreadable upstream || reconciled.2 in
  if (0 <? errors)%nat then fails (Errors errors) else
  done_ (MkOutcome (if hold_cursor then None
                    else (fun etag => MkCursor etag (config_key r job) serial next deps) <$> etag) followed).

Definition sync_one_package (r : Resolved) (private : PrivateNames) (job : Job) (prev_cursor : option CursorEntry)
    (now fix_now : Z) (clock : nat -> FileReads) : run_of PackageOutcome :=
  let pkg := job_name job in
  let prev_deps := prev_cursor ≫= cur_deps in
  if negb (as_private r) && names_match private pkg then fails ReservedName
  else if name_fully_denied (denylist r) pkg then done_ (MkOutcome None no_memo_yet)
  else
  let^ fetched := answer (fetch_index peers (if_none_match r job prev_cursor now fix_now)) in
  match fetched with
  | NotModified => done_ (MkOutcome None (default no_memo_yet prev_deps))
  | NotFound => if job_dependency job then done_ (MkOutcome None no_memo_yet) else fails NotOnSource
  | Found index etag serial =>
    let '(selected, upstream, files, next) := select_from_index version_string resolve_url index r job clock in
    let^ deps :=
      (if include_dependencies (mirror r) then
         let memo := (keep_only (default no_memo_yet prev_deps) (sel_file <$> selected)).1 in
         let^ memo := answer (read_dependencies selected memo) in done_ (Some memo)
       else done_ None) in
    sync_selected r job selected upstream files next deps etag serial
  end.
(** ** What each step asks *)

(** The effect of the log on what the destination holds: only a request that
    was granted changes anything. *)
Definition yank_after (log : list request) (filename : str) (y : Yanked) : Yanked :=
  foldl (fun y q => match q with
                    | SetYank f y' => if decide (f = filename) then (if is_ok (apply_yank_http peers f y') then y' else y) else y
                    | _ => y
                    end) y log.
Definition status_after (log : list request) (d : ProjectStatusDoc) : ProjectStatusDoc :=
  foldl (fun d q => match q with
                    | SetStatus d' => if is_ok (status_http peers (Some d')) then d' else d
                    | ClearStatus => if is_ok (status_http peers None) then status_doc_default else d
                    | _ => d
                    end) d log.

(** The status an upstream verdict calls for; none when it cannot be read. *)
Definition called_for (upstream : UpstreamStatus) : option ProjectStatusDoc :=
  match upstream with
  | Unparseable => None
  | Known doc => Some (if is_active (status doc) then status_doc_default else doc)
  | Absent => Some status_doc_default
  end.

Definition is_yank (q : request) : bool := match q with SetYank _ _ => true | _ => false end.
Definition is_status (q : request) : bool := match q with SetStatus _ | ClearStatus => true | _ => false end.
Definition is_upload (q : request) : bool := match q with Upload _ => true | _ => false end.

Lemma upload_all_spec selected : forall log,
  exists n, upload_all selected log = (Ok n, log ++ (Upload <$> selected))
    /\ (n = 0%nat -> forall s, s ∈ selected -> is_ok (upload_via_http peers s) = true).
Proof.
  induction selected as [|s selected IH]; intros log; cbn [upload_all].
  { exists 0%nat. unfold done_. rewrite app_nil_r. split; [done|]. intros _ s Hs. by apply not_elem_of_nil in Hs. }
  unfold andThen, caught, ask. cbn. destruct (IH (log ++ [Upload s])) as (n & -> & Hn).
  destruct (upload_via_http peers s) eqn:E; cbn; rewrite <- app_assoc; eexists; (split; [reflexivity|]).
  - intros -> x [->|Hx]%elem_of_cons; [by rewrite E|by apply Hn].
  - done.
Qed.

Lemma reconcile_yanks_spec upstream files : forall log r log',
  reconcile_yanks files upstream log = (r, log') ->
  exists asked, log' = log ++ asked
    /\ (forall q, q ∈ asked -> exists f, q = SetYank f (desired upstream f))
    /\ (r = Ok tt ->
          (forall f y, SetYank f y ∈ asked -> is_ok (apply_yank_http peers f y) = true)
          /\ forall file, file ∈ files ->
               sf_yanked file = desired upstream (sf_filename file)
               \/ SetYank (sf_filename file) (desired upstream (sf_filename file)) ∈ asked).
Proof.
  induction files as [|x files IH]; intros log r log'; cbn [reconcile_yanks].
  { intros [= <- <-]. exists []. rewrite app_nil_r. split; [done|]. split; [set_solver|]. intros _. set_solver. }
  unfold andThen at 1. case_bool_decide as Hy; cbn.
  - intros Hrun. destruct (IH _ _ _ Hrun) as (asked & -> & Hq & Hok). exists asked. split; [done|]. split; [done|].
    intros Hr. destruct (Hok Hr) as [H1 H2]. split; [done|]. intros file [->|Hf]%elem_of_cons; [by left|by apply H2].
  - destruct (apply_yank_http peers _ _) as [[]|e] eqn:Ha.
    + intros Hrun. destruct (IH _ _ _ Hrun) as (asked & -> & Hq & Hok). eexists (_ :: asked).
      split; [by rewrite <- app_assoc|]. split; [intros q [->|Hin]%elem_of_cons; [by eexists|by apply Hq]|].
      intros Hr. destruct (Hok Hr) as [H1 H2]. split.
      * intros f y [[= -> ->]|Hin]%elem_of_cons; [by rewrite Ha|by apply H1].
      * intros file [->|Hf]%elem_of_cons; [right; by left|]. destruct (H2 file Hf); [by left|right; by right].
    + intros [= <- <-]. eexists [_]. split; [done|]. split; [intros q ->%list_elem_of_singleton; by eexists|done].
Qed.

Lemma relay_status_spec local upstream log r log' :
  relay_status local upstream log = (r, log') ->
  exists asked, log' = log ++ asked
    /\ (forall q, q ∈ asked -> is_status q = true)
    /\ (ClearStatus ∈ asked -> called_for upstream = Some status_doc_default
           /\ project_status local ≠ None /\ project_status local ≠ Some status_doc_default)
    /\ (forall d, SetStatus d ∈ asked -> upstream = Known d /\ is_active (status d) = false)
    /\ (r = Ok tt -> forall want, called_for upstream = Some want ->
          status_after asked (default status_doc_default (project_status local)) = want).
Proof.
  unfold relay_status. set (current := default status_doc_default (project_status local)).
  assert (forall q, (q ∈ [] -> is_status q = true)) as Hnil by set_solver.
  destruct upstream as [|doc|]; cbn.
  - case_bool_decide as Hc; intros [= <- <-].
    + exists []. rewrite app_nil_r. split_and!; [done|done|set_solver|set_solver|]. by intros _ want [= <-].
    + exists [ClearStatus]. split_and!; [done|by intros q ->%list_elem_of_singleton| |by intros d [=]%list_elem_of_singleton|].
      * intros _. split; [done|]. subst current. destruct (project_status local); naive_solver.
      * intros Hr want [= <-]. cbn. by rewrite Hr.
  - destruct (is_active (status doc)) eqn:Ha; [cbn|rewrite Ha]; case_bool_decide as Hc; intros [= <- <-].
    + exists []. rewrite app_nil_r. split_and!; [done|done|set_solver|set_solver|]. by intros _ want [= <-].
    + exists [ClearStatus]. split_and!; [done|by intros q ->%list_elem_of_singleton| |by intros d [=]%list_elem_of_singleton|].
      * intros _. split; [done|]. subst current. destruct (project_status local); naive_solver.
      * intros Hr want [= <-]. cbn. by rewrite Hr.
    + exists []. rewrite app_nil_r. split_and!; [done|done|set_solver|set_solver|]. by intros _ want [= <-].
    + exists [SetStatus doc]. split_and!; [done|by intros q ->%list_elem_of_singleton|by intros [=]%list_elem_of_singleton| |].
      * intros d [= ->]%list_elem_of_singleton. done.
      * intros Hr want [= <-]. cbn. by rewrite Hr.
  - intros [= <- <-]. exists []. rewrite app_nil_r. split_and!; [done|done|set_solver|set_solver|done].
Qed.
Lemma yank_after_done asked f y want :
  (forall y', SetYank f y' ∈ asked -> y' = want /\ is_ok (apply_yank_http peers f y') = true) ->
  y = want \/ SetYank f want ∈ asked -> yank_after asked f y = want.
Proof.
  unfold yank_after. revert y. induction asked as [|q asked IH]; intros y Hall Hor; cbn.
  { destruct Hor as [?|Hin]; [done|by apply not_elem_of_nil in Hin]. }
  apply IH; [intros y' Hy'; apply Hall; by right|]. destruct q as [s|f' y'|d| |f' g t]; cbn;
    try (destruct Hor as [?|[[=]|?]%elem_of_cons]; [by left|by right]).
  case_decide as Hf; [|destruct Hor as [?|[[= -> _]|?]%elem_of_cons]; [by left|done|by right]].
  subst f'. destruct (Hall y') as [-> ->]; [by left|]. by left.
Qed.

Lemma yank_after_app log log' f y : yank_after (log ++ log') f y = yank_after log' f (yank_after log f y).
Proof. apply foldl_app. Qed.

Lemma yank_after_other log f y : (forall q, q ∈ log -> is_yank q = false) -> yank_after log f y = y.
Proof.
  unfold yank_after. revert y. induction log as [|q log IH]; intros y H; cbn; [done|].
  rewrite IH by (intros; apply H; by right). specialize (H q ltac:(by left)). by destruct q.
Qed.

Lemma status_after_other log d : (forall q, q ∈ log -> is_status q = false) -> status_after log d = d.
Proof.
  unfold status_after. revert d. induction log as [|q log IH]; intros d H; cbn; [done|].
  rewrite IH by (intros; apply H; by right). specialize (H q ltac:(by left)). by destruct q.
Qed.

Lemma status_after_app log log' d : status_after (log ++ log') d = status_after log' (status_after log d).
Proof. apply foldl_app. Qed.

Definition blocks (upstream : UpstreamStatus) : bool :=
  match upstream with Known doc => blocks_downloads (status doc) | _ => false end.

(** A reconciliation without errors and without holding the cursor leaves the
    destination as upstream has it; whatever it asks of the status is called
    for by a verdict that could be read. *)
Lemma reconcile_spec local upstream files log r log' :
  reconcile local upstream files log = (r, log') ->
  exists asked n held, r = Ok (n, held) /\ log' = log ++ asked
    /\ (forall q, q ∈ asked -> is_yank q = true \/ is_status q = true)
    /\ (ClearStatus ∈ asked -> called_for upstream = Some status_doc_default
           /\ project_status local ≠ None /\ project_status local ≠ Some status_doc_default)
    /\ (forall d, SetStatus d ∈ asked -> upstream = Known d /\ is_active (status d) = false)
    /\ (n = 0%nat -> held = false ->
          (forall want, called_for upstream = Some want ->
             status_after asked (default status_doc_default (project_status local)) = want)
          /\ (blocks upstream = false -> forall file, file ∈ index_files local ->
                yank_after asked (sf_filename file) (sf_yanked file) = desired files (sf_filename file))).
Proof.
  unfold reconcile. fold (blocks upstream). unfold andThen at 1.
  set (yanks := if blocks upstream then _ else _).
  assert (exists asked n held, yanks log = (Ok (n, held), log ++ asked)
    /\ (forall q, q ∈ asked -> is_yank q = true)
    /\ (n = 0%nat -> held = false -> blocks upstream = false -> forall file, file ∈ index_files local ->
          yank_after asked (sf_filename file) (sf_yanked file) = desired files (sf_filename file)))
    as (ya & n1 & held & -> & Hya & Hyank).
  { subst yanks. destruct (blocks upstream); [by exists [], 0%nat, false; rewrite app_nil_r; split_and!; [|set_solver|]|].
    destruct (match project_status local with Some d => _ | None => _ end);
      [by exists [], 0%nat, true; rewrite app_nil_r; split_and!; [|set_solver|]|].
    unfold andThen, caught. destruct (reconcile_yanks (index_files local) files log) as [ry logy] eqn:Hry.
    destruct (reconcile_yanks_spec _ _ _ _ _ Hry) as (asked & -> & Hq & Hok). exists asked, (one_error ry), false.
    split; [done|]. split; [intros q Hin; by destruct (Hq q Hin) as [f ->]|].
    intros Hn _ _ file Hf. destruct ry as [[]|]; [|done]. destruct (Hok eq_refl) as [Hgrant Hall].
    apply yank_after_done; [|by apply Hall]. intros y' Hin. split; [|by apply Hgrant].
    destruct (Hq _ Hin) as [f [= -> ->]]. done. }
  unfold andThen, caught. destruct (relay_status local upstream (log ++ ya)) as [rs logs] eqn:Hrs.
  destruct (relay_status_spec _ _ _ _ _ Hrs) as (sa & -> & Hsa & Hclear & Hset & Hdone). cbn. intros [= <- <-].
  assert (forall q, q ∈ ya -> is_status q = false) as Hys by (intros q Hq%Hya; by destruct q).
  assert (forall q, q ∈ sa -> is_yank q = false) as Hsy by (intros q Hq%Hsa; by destruct q).
  exists (ya ++ sa), (n1 + one_error rs)%nat, held. split; [done|]. split; [by rewrite app_assoc|]. split_and!.
  - intros q [Hq|Hq]%elem_of_app; [left; by apply Hya|right; by apply Hsa].
  - intros [Hq%Hys|Hq]%elem_of_app; [done|by apply Hclear].
  - intros d [Hq%Hys|Hq]%elem_of_app; [done|by apply Hset].
  - intros Hn Hh. destruct rs as [[]|]; cbn in Hn; [|lia]. split.
    + intros want Hw. rewrite status_after_app, (status_after_other ya) by done. by apply Hdone.
    + intros Hb file Hf. rewrite yank_after_app, (yank_after_other sa) by done. apply Hyank; [lia|done..].
Qed.
Lemma send_repairs_log dry repairs : forall log r log',
  send_repairs dry repairs log = (r, log') -> exists asked, log' = log ++ asked /\ forall q, q ∈ asked -> is_status q = false.
Proof.
  induction repairs as [|[f [g t]] repairs IH]; intros log r log'; cbn [send_repairs].
  { intros [= _ <-]. exists []. rewrite app_nil_r. split; [done|set_solver]. }
  unfold andThen at 1. destruct dry; cbn; [apply IH|].
  destruct (upload_time_http peers f); [|intros [= _ <-]; eexists [_]; split; [done|by intros q ->%list_elem_of_singleton]].
  intros (asked & -> & Hq)%IH. eexists (_ :: asked). split; [by rewrite <- app_assoc|].
  intros q [->|Hin]%elem_of_cons; [done|by apply Hq].
Qed.

Lemma repair_times_log dry selected local log r log' :
  repair_times dry selected local log = (r, log') -> exists asked, log' = log ++ asked /\ forall q, q ∈ asked -> is_status q = false.
Proof.
  unfold repair_times, andThen, answer. destruct (repairs_of _ _) as [repairs|e]; [apply send_repairs_log|].
  intros [= _ <-]. exists []. rewrite app_nil_r. split; [done|set_solver].
Qed.

(** What a run may ask of the destination's status. *)
Definition status_requests_fit (r : Resolved) (upstream : UpstreamStatus) (log : list request) : Prop :=
  (ClearStatus ∈ log -> as_private r = false /\ called_for upstream = Some status_doc_default
     /\ exists local o, fetch_local_index peers = Ok (Some (local, o))
          /\ project_status local ≠ None /\ project_status local ≠ Some status_doc_default)
  /\ (forall d, SetStatus d ∈ log -> as_private r = false /\ upstream = Known d /\ is_active (status d) = false).

(** The destination after the granted requests: its status is the one upstream
    calls for, and so are the yanks unless upstream is quarantined. One without
    an index to read took no status, so none may be called for; one whose
    answer failed agrees with nothing. *)
Definition dest_agrees (upstream : UpstreamStatus) (files : gmap str Yanked) (log : list request) : Prop :=
  match fetch_local_index peers with
  | Ok (Some (local, _)) =>
    called_for upstream = Some (status_after log (default status_doc_default (project_status local)))
    /\ (blocks upstream = false -> forall file, file ∈ index_files local ->
          yank_after log (sf_filename file) (sf_yanked file) = desired files (sf_filename file))
  | Ok None => called_for upstream = Some status_doc_default
  | Err _ => False
  end.

(** What an advanced cursor stands for. *)
Definition agreement (selected : list Selected) (upstream : UpstreamStatus) (files : gmap str Yanked)
    (log : list request) : Prop :=
  is_Some (called_for upstream)
  /\ (forall s, s ∈ selected ->
        (exists local o, fetch_local_index peers = Ok (Some (local, o)) /\ sf_filename (sel_file s) ∈ sf_filename <$> index_files local)
        \/ Upload s ∈ log /\ is_ok (upload_via_http peers s) = true)
  /\ dest_agrees upstream files log.

Lemma no_status_fits r upstream log : (forall q, q ∈ log -> is_status q = false) -> status_requests_fit r upstream log.
Proof. intros H. split; [intros Hc|intros d Hc]; by apply H in Hc. Qed.

Lemma after_uploads r upstream (ups : list Selected) asked :
  status_requests_fit r upstream asked -> status_requests_fit r upstream ((Upload <$> ups) ++ asked).
Proof.
  intros [H1 H2]. split; [|intros d]; intros [(s & Hs & _)%list_elem_of_fmap|Hq]%elem_of_app; try done; auto.
Qed.

(** Uploads touch neither yanks nor the status. *)
Lemma uploads_inert (ups : list Selected) q : q ∈ Upload <$> ups -> is_yank q = false /\ is_status q = false.
Proof. by intros (s & -> & _)%list_elem_of_fmap. Qed.

Lemma agrees_after_uploads upstream files (ups : list Selected) asked :
  dest_agrees upstream files asked -> dest_agrees upstream files ((Upload <$> ups) ++ asked).
Proof.
  unfold dest_agrees. destruct (fetch_local_index peers) as [[[local o]|]|]; [|done..].
  rewrite status_after_app, (status_after_other (Upload <$> ups)) by (intros q Hq; by eapply uploads_inert).
  intros [Hs Hy]. split; [done|]. intros Hb file Hf.
  rewrite yank_after_app, (yank_after_other (Upload <$> ups)) by (intros q Hq; by eapply uploads_inert). by apply Hy.
Qed.

Lemma heard_none o : heard = (None, o, 0%nat) -> fetch_local_index peers = Ok None.
Proof. unfold heard. by destruct (fetch_local_index peers) as [[[l' o']|]|]; intros [=]. Qed.

Lemma heard_some l o n : heard = (Some l, o, n) -> fetch_local_index peers = Ok (Some (l, o)).
Proof. unfold heard. destruct (fetch_local_index peers) as [[[l' o']|]|]; intros [=]; congruence. Qed.

Lemma reconcile_local_spec r local o n0 upstream files log :
  heard = (local, o, n0) -> as_private r = false ->
  exists asked n held, reconcile_local local upstream files log = (Ok (n, held), log ++ asked)
    /\ status_requests_fit r upstream asked
    /\ (n0 = 0%nat -> n = 0%nat -> held = false -> unreadable upstream = false -> dest_agrees upstream files asked).
Proof.
  intros Hh Hpriv. destruct local as [l|]; cbn [reconcile_local].
  - destruct (reconcile l upstream files log) as [rr lr] eqn:Hr.
    destruct (reconcile_spec _ _ _ _ _ _ Hr) as (asked & n & held & -> & -> & _ & Hclear & Hset & Hdone).
    exists asked, n, held. split; [done|]. split; [split|].
    + intros Hc. destruct (Hclear Hc) as (H1 & H2 & H3). split; [done|]. split; [done|].
      exists l, o. split; [by eapply heard_some|done].
    + intros d Hd. split; [done|by apply Hset].
    + intros _ Hn Hheld Hun. unfold dest_agrees. rewrite (heard_some _ _ _ Hh). destruct (Hdone Hn Hheld) as [H1 H2].
      split; [|done]. destruct (called_for upstream) as [want|] eqn:Hw; [|by destruct upstream].
      by rewrite (H1 want eq_refl).
  - eexists [], _, false. rewrite app_nil_r. split; [done|]. split; [apply no_status_fits; set_solver|].
    intros -> Hn _ Hun. unfold dest_agrees. rewrite (heard_none _ Hh).
    destruct upstream; cbn [called_for] in *; try done. by destruct (is_active _).
Qed.

(** What holds of a run that ends here, before anything is uploaded. *)
Definition modest (r : Resolved) (upstream : UpstreamStatus) (res : result sync_error PackageOutcome) (log : list request) : Prop :=
  status_requests_fit r upstream log /\ forall out c, res = Ok out -> new_cursor out ≠ Some c.

Lemma modest_quiet r upstream res log :
  (forall q, q ∈ log -> is_status q = false) -> (forall out c, res = Ok out -> new_cursor out ≠ Some c) ->
  modest r upstream res log.
Proof. intros Hq Hc. split; [by apply no_status_fits|done]. Qed.

Lemma repair_modest r upstream dry selected local followed res log :
  andThen (repair_times dry selected local) (fun _ => done_ (MkOutcome None followed)) [] = (res, log) ->
  modest r upstream res log.
Proof.
  unfold andThen. destruct (repair_times dry selected local []) as [rr lr] eqn:Hr.
  apply repair_times_log in Hr as (asked & -> & Hq).
  destruct rr; intros [= <- <-]; apply modest_quiet; [done|by intros out c [= <-]|done|done].
Qed.

(** The uploads of a run and the reconciliation after them. *)
Lemma sync_selected_spec r job selected upstream files next deps etag serial res log :
  sync_selected r job selected upstream files next deps etag serial [] = (res, log) ->
  status_requests_fit r upstream log
  /\ forall out c, res = Ok out -> new_cursor out = Some c -> as_private r = false ->
       etag = Some (cur_etag c) /\ next_eligible_at c = next /\ agreement selected upstream files log.
Proof.
  assert (modest r upstream res log -> status_requests_fit r upstream log
    /\ forall out c, res = Ok out -> new_cursor out = Some c -> as_private r = false ->
       etag = Some (cur_etag c) /\ next_eligible_at c = next /\ agreement selected upstream files log) as Hmod.
  { intros [H1 H2]. split; [done|]. intros out c Hr Hc. by apply H2 in Hc. }
  unfold sync_selected. destruct heard as [[local dest_origin] errors] eqn:Hheard.
  case_match; [intros [= <- <-]; apply Hmod, modest_quiet; [set_solver|done]|].
  destruct (repair_upload_times r).
  { intros Hrun. apply Hmod. destruct local as [local|]; [|injection Hrun as <- <-; apply modest_quiet; [set_solver|done]].
    case_match; [injection Hrun as <- <-; apply modest_quiet; [set_solver|done]|by eapply repair_modest]. }
  destruct (dry_run r); [intros [= <- <-]; apply Hmod, modest_quiet; [set_solver|by intros out c [= <-]]|]. clear Hmod.
  set (present := match (if as_private r && _ then None else local) with Some l => _ | None => [] end).
  set (to_upload := filter _ selected).
  unfold andThen. destruct (upload_all_spec (merge_sort size_ge to_upload) []) as (failed & -> & Hup). cbn [app].
  set (ups := Upload <$> merge_sort size_ge to_upload).
  assert (forall q, q ∈ ups -> is_yank q = false /\ is_status q = false) as Hinert by (intros q; apply uploads_inert).
  destruct (as_private r) eqn:Hpriv.
  { cbn [done_ fst snd]. case_match; intros [= <- <-]; (split; [apply no_status_fits; intros q Hq; by apply Hinert|done]). }
  destruct (reconcile_local_spec r local dest_origin errors upstream files ups Hheard Hpriv)
    as (asked & n & held & -> & Hfit & Hrec).
  cbn [fst snd]. case_match eqn:Herr; intros [= <- <-]; (split; [by apply after_uploads|]); [done|].
  intros out c [= <-] Hc _. cbn [new_cursor negb andb] in Hc. apply Nat.ltb_ge in Herr.
  destruct (unreadable upstream) eqn:Hun; [done|]. destruct held; [done|]. cbn [orb] in Hc.
  destruct etag as [etag|]; [|done]. injection Hc as <-. cbn [cur_etag next_eligible_at].
  split; [done|]. split; [done|]. split; [by destruct upstream|]. split.
  - intros s Hs. destruct (decide (sf_filename (sel_file s) ∈ present)) as [Hp|Hp].
    + left. subst present. cbn [andb] in Hp. destruct local as [l|]; [|by apply not_elem_of_nil in Hp].
      exists l, dest_origin. split; [by eapply heard_some|done].
    + right. assert (s ∈ merge_sort size_ge to_upload) as Hin
        by (rewrite merge_sort_Permutation; apply list_elem_of_filter; done).
      split; [apply elem_of_app; left; by apply list_elem_of_fmap_2|]. apply Hup; [lia|done].
  - apply agrees_after_uploads, Hrec; [lia|lia|done|done].
Qed.

(** A run asks for changes only after a listing was found and selected from. *)
Lemma sync_run r private job prev now fix_now clock res log :
  sync_one_package r private job prev now fix_now clock [] = (res, log) ->
  (log = [] /\ forall out c, res = Ok out -> new_cursor out ≠ Some c)
  \/ exists index etag serial deps,
       fetch_index peers (if_none_match r job prev now fix_now) = Ok (Found index etag serial)
       /\ let '(selected, upstream, files, next) := select_from_index version_string resolve_url index r job clock in
          sync_selected r job selected upstream files next deps etag serial [] = (res, log).
Proof.
  unfold sync_one_package. case_match; [intros [= <- <-]; left; done|].
  case_match; [intros [= <- <-]; left; split; [done|by intros out c [= <-]]|].
  unfold andThen, answer. destruct (fetch_index peers _) as [[| |index etag serial]|e] eqn:Hf.
  - intros [= <- <-]. left. split; [done|by intros out c [= <-]].
  - destruct (job_dependency job); intros [= <- <-]; left; split; [done|by intros out c [= <-]|done|done].
  - destruct (select_from_index _ _ _ _ _ _) as [[[selected upstream] files] next] eqn:Hsel. intros Hrun.
    destruct (include_dependencies (mirror r)); cbn in Hrun.
    + destruct (read_dependencies _ _) as [memo|e].
      * right. exists index, etag, serial, (Some memo). split; [done|]. by rewrite Hsel.
      * injection Hrun as <- <-. left. done.
    + right. exists index, etag, serial, None. split; [done|]. by rewrite Hsel.
  - intros [= <- <-]. left. done.
Qed.

(** C34: a sync changes the destination's project status only on a verdict it
    could read. A clear is sent only when the listing was fetched and carries
    no status or an active one, to a destination that holds a freeze; a freeze
    is sent only as upstream states it; a migration sends neither. A status
    that does not parse sends nothing. *)
Theorem status_relay_safe r private job prev now fix_now clock res log :
  sync_one_package r private job prev now fix_now clock [] = (res, log) ->
  forall q, q ∈ log -> is_status q = true ->
    as_private r = false
    /\ exists index etag serial, fetch_index peers (if_none_match r job prev now fix_now) = Ok (Found index etag serial)
         /\ match q with
            | SetStatus d => upstream_status index = Known d /\ is_active (status d) = false
            | _ => called_for (upstream_status index) = Some status_doc_default
                   /\ exists local o, fetch_local_index peers = Ok (Some (local, o))
                        /\ project_status local ≠ None /\ project_status local ≠ Some status_doc_default
            end.
Proof.
  intros [[-> _]|(index & etag & serial & deps & Hf & Hrun)]%sync_run q Hq Hst; [by apply not_elem_of_nil in Hq|].
  unfold select_from_index in Hrun. destruct (select_loop _ _ _ _ _ _ _ _ _ _) as [selected next].
  apply sync_selected_spec in Hrun as [[Hclear Hset] _].
  destruct q as [| |d| |]; try done.
  - destruct (Hset d Hq) as (Hp & Hu & Ha). split; [done|]. by exists index, etag, serial.
  - destruct (Hclear Hq) as (Hp & Hc & Hl). split; [done|]. by exists index, etag, serial.
Qed.

(** C35: a cursor that advances stands for a destination that agrees with
    upstream. When a mirror run leaves a new cursor, its ETag and watermark are
    those of the listing it selected from, the listing's status could be read,
    every selected file is at the destination already or was accepted by it,
    and after the granted requests the destination has the status upstream
    calls for and, unless upstream is quarantined, every file's yank as upstream
    has it (removed files flagged so). For a destination without an index to
    read, upstream calls for no freeze: the cursor never advances over one that
    was not enforced, nor over a destination that did not answer. *)
Theorem cursor_means_agreement r private job prev now fix_now clock out c log :
  sync_one_package r private job prev now fix_now clock [] = (Ok out, log) ->
  new_cursor out = Some c -> as_private r = false ->
  exists index serial,
    fetch_index peers (if_none_match r job prev now fix_now) = Ok (Found index (Some (cur_etag c)) serial)
    /\ let '(selected, upstream, files, next) := select_from_index version_string resolve_url index r job clock in
       next_eligible_at c = next /\ agreement selected upstream files log.
Proof.
  intros [[_ Hno]|(index & etag & serial & deps & Hf & Hrun)]%sync_run Hc Hp; [by apply (Hno out c) in Hc|].
  exists index, serial. destruct (select_from_index _ _ _ _ _ _) as [[[selected upstream] files] next].
  apply sync_selected_spec in Hrun as [_ Hcur]. destruct (Hcur out c eq_refl Hc Hp) as (-> & Hn & Ha). done.
Qed.
End with_peers.

(** ** The stored memo of cursors *)

(** [merge_cursors] on the stored JSON object; only the projects of this run
    change. *)
Definition merge_cursors {V} (to_value : CursorEntry -> V) (stored : gmap str V) (updates : gmap str (option CursorEntry))
    : gmap str V :=
  map_fold (fun name entry m => match entry with Some e => <[name := to_value e]> m | None => delete name m end)
    stored updates.

(** A merge changes exactly the projects of the run. *)
Lemma merge_cursors_lookup {V} (to_value : CursorEntry -> V) stored updates name :
  merge_cursors to_value stored updates !! name =
  match updates !! name with
  | Some (Some e) => Some (to_value e)
  | Some None => None
  | None => stored !! name
  end.
Proof.
  unfold merge_cursors.
  apply (map_fold_weak_ind (fun m updates => m !! name =
    match updates !! name with Some (Some e) => Some (to_value e) | Some None => None | None => stored !! name end)); [done|].
  intros k entry us m Hk IH. destruct (decide (k = name)) as [->|Hne].
  - rewrite lookup_insert_eq. destruct entry; [by rewrite lookup_insert_eq|by rewrite lookup_delete_eq].
  - rewrite (lookup_insert_ne us) by done. destruct entry; [by rewrite lookup_insert_ne|by rewrite lookup_delete_ne].
Qed.
End sync.

(** *** Witnesses *)

#[local] Existing Instances toy_pep440 toy_clock toy_digest.

(** A source that lifts a quarantine (or a deprecation), and a destination that
    still holds one file too many. *)
Definition gone_file : SimpleFile :=
  MkSimple (&"pkg-0.tar.gz") (&"u") {[ &"sha256" := &"00" ]} (Some 7) (Some (&"400000000000")) None (Flag false) None None None.
Definition frozen_dest : SimpleIndex := MkIndex [gone_file] (Some (MkDoc Archived None)) false.
Definition granting (local : SimpleIndex) : Peers :=
  MkPeers (fun _ => Ok (Found pkg_index (Some (&"etag")) None)) (fun _ => Ok []) (Ok (Some (local, None)))
    (fun _ => Ok true) (fun _ _ => Ok tt) (fun _ => Ok tt) (fun _ => Ok tt) (fun _ => Ok []).
Definition example_run : result sync_error PackageOutcome * list request :=
  sync_one_package plain_version same_url (granting frozen_dest) waiting (MkNames []) pkg_job None 0 0
    (fun _ => steady (1050 * NANOS)) [].

Lemma status_relay_safe_witness :
  ClearStatus ∈ example_run.2 /\ called_for (upstream_status pkg_index) = Some status_doc_default.
Proof.
  assert (ClearStatus ∈ example_run.2) as Hin by (vm_compute; do 2 right; left).
  split; [exact Hin|].
  destruct (status_relay_safe plain_version same_url (granting frozen_dest) waiting (MkNames []) pkg_job None 0 0
    (fun _ => steady (1050 * NANOS)) example_run.1 example_run.2) with (q := ClearStatus)
    as (_ & index & etag & serial & Hf & Hc & _).
  - symmetry. apply surjective_pairing.
  - exact Hin.
  - reflexivity.
  - injection Hf as <- _ _. exact Hc.
Defined.

Lemma cursor_means_agreement_witness :
  exists out c, example_run.1 = Ok out /\ new_cursor out = Some c
    /\ SetYank (&"pkg-0.tar.gz") (Reason REMOVED_UPSTREAM) ∈ example_run.2
    /\ exists index serial, fetch_index (granting frozen_dest) (if_none_match waiting pkg_job None 0 0)
           = Ok (Found index (Some (cur_etag c)) serial).
Proof.
  destruct (example_run.1) as [out|] eqn:Hout; [|vm_compute in Hout; discriminate Hout].
  destruct (new_cursor out) as [c|] eqn:Hc.
  2: { exfalso. assert (match example_run.1 with Ok out => is_Some (new_cursor out) | Err _ => True end) as Hs
         by (vm_compute; eexists; reflexivity). rewrite Hout, Hc in Hs. by destruct Hs. }
  exists out, c. split; [reflexivity|]. split; [exact Hc|]. split; [vm_compute; right; left|].
  destruct (cursor_means_agreement plain_version same_url (granting frozen_dest) waiting (MkNames []) pkg_job None 0 0
    (fun _ => steady (1050 * NANOS)) out c example_run.2) as (index & serial & Hf & _).
  - fold example_run. rewrite <- Hout. apply surjective_pairing.
  - exact Hc.
  - reflexivity.
  - by exists index, serial.
Defined.
End Sync.
