(* ===== verification/Counters.v ===== *)
(** * Download counters in memory (src/counters.rs)

    What a node does between a download and a durable segment: the bounded
    buffer, the flush that hands its deltas to storage, the gate that refuses
    keys naming no stored object, and the return of everything a failed or
    cancelled flush did not write. A count is one event each, so sums are plain
    natural numbers. A shard is a character, a text of one character. A PUT whose
    reply is lost counts as failed: its deltas go back to the buffer. *)
From S2P Require Import Prelude RustStr.

Module Counters.

Definition OVERFLOW_KEY : str := &"_overflow".
Definition RECORDED_METRICS : list str := [&"downloads"].
Definition is_recorded_metric (metric : str) : bool := bool_decide (metric ∈ RECORDED_METRICS).

Definition MAX_KEY_BYTES : nat := 1024.
Definition bounded_key (metric key : str) : str :=
  if (MAX_KEY_BYTES <? length metric + length key)%nat then OVERFLOW_KEY else key.

Definition VERIFY_OPS_PER_FLUSH : nat := 4096.

(** [struct Config], the fields the buffer and the rollups read. *)
Record Config := MkConfig {
  resolution_secs : Z;
  flush_interval : Z;
  rollup_interval : Z;
  retention_days : Z;
  grace_days : Z;
  max_keys : nat
}.

Inductive config_error := BadResolution | ZeroFlush | ZeroRollup | ZeroRetention.

Definition config_checked (c : Config) : result config_error Config :=
  let r := resolution_secs c in
  if negb ((60 <=? r) && (r <=? 86400)) || negb (r mod 60 =? 0) || negb (86400 mod r =? 0) then Err BadResolution
  else if flush_interval c =? 0 then Err ZeroFlush
  else if rollup_interval c =? 0 then Err ZeroRollup
  else if retention_days c <? 1 then Err ZeroRetention
  else Ok (MkConfig r (flush_interval c) (rollup_interval c) (retention_days c) (grace_days c) (max_keys c `max` 1000)).

(** ** The buffer *)

Abbreviation Leaf := (gmap str N).
Abbreviation BucketMap := (gmap str (gmap str N)).
(** Metric, day, shard. *)
Abbreviation SegId := (str * str * str)%type.
Abbreviation Segs := (gmap (str * str * str) (gmap str (gmap str N))).

Record Pending := MkPending { segs : Segs; n_keys : nat }.
Definition no_pending : Pending := MkPending ∅ 0.

Definition tally (leaf : Leaf) (n_keys cap : nat) (key : str) (n : N) : Leaf * nat :=
  match leaf !! key with
  | Some c => (<[key := (c + n)%N]> leaf, n_keys)
  | None =>
    if (cap <=? n_keys)%nat then (<[OVERFLOW_KEY := (default 0 (leaf !! OVERFLOW_KEY) + n)%N]> leaf, n_keys)
    else (<[key := n]> leaf, S n_keys)
  end.

(** [tally] in the leaf of a segment's time bucket. *)
Definition tally_at (cap : nat) (id : SegId) (bucket : str) (p : Pending) (key : str) (n : N) : Pending :=
  let bm := default ∅ (segs p !! id) in
  let '(leaf, n_keys) := tally (default ∅ (bm !! bucket)) (n_keys p) cap key n in
  MkPending (<[id := <[bucket := leaf]> bm]> (segs p)) n_keys.

Definition shard_of (key : str) : str :=
  match key with
  | c :: _ => if is_ascii_alphanumeric c then [to_ascii_lowercase_byte c] else &"_"
  | [] => &"_"
  end.

(** [day_and_bucket] of a reading of the clock: the day, and the minute of the
    day floored to the resolution. *)
Definition two_digits (n : Z) : str := decimal_padded 2 n.
Definition bucket_of (minute_of_day resolution_secs : Z) : str :=
  let res_min := Z.max (resolution_secs / 60) 1 in
  let floored := minute_of_day - minute_of_day mod res_min in
  two_digits (floored / 60) ++ &":" ++ two_digits (floored mod 60).

(** [record_n] at a reading of the clock; the second component says the
    high-water mark is crossed. *)
Definition record_n (cfg : Config) (enabled : bool) (day : str) (minute : Z) (metric key : str) (n : N) (p : Pending)
    : Pending * bool :=
  if negb enabled || (n =? 0)%N then (p, false) else
  let key := bounded_key metric key in
  let p := tally_at (max_keys cfg) (metric, day, shard_of key) (bucket_of minute (resolution_secs cfg)) p key n in
  (p, (max_keys cfg * 8 / 10 <=? n_keys p)%nat).

(** One time bucket handed back, and the buckets of one segment. The entries are
    made even when there is nothing to hand back. *)
Definition rebuffer_bucket (cap : nat) (id : SegId) (p : Pending) (b : str * Leaf) : Pending :=
  let bm := default ∅ (segs p !! id) in
  let p := MkPending (<[id := <[b.1 := default ∅ (bm !! b.1)]> bm]> (segs p)) (n_keys p) in
  foldl (fun p (k : str * N) => tally_at cap id b.1 p k.1 k.2) p (by_key b.2).
Definition rebuffer (cap : nat) (id : SegId) (buckets : BucketMap) (p : Pending) : Pending :=
  let p := MkPending (<[id := default ∅ (segs p !! id)]> (segs p)) (n_keys p) in
  foldl (rebuffer_bucket cap id) p (by_key buckets).

(** The order of a [BTreeMap] keyed by metric, day and shard. *)
Definition seg_le {V} (x y : SegId * V) : Prop := leb x.1 y.1 = true.
#[global] Instance seg_le_dec {V} (x y : SegId * V) : Decision (seg_le x y).
Proof. unfold seg_le. apply _. Defined.
Definition in_seg_order {V} (s : gmap SegId V) : list (SegId * V) := merge_sort seg_le (map_to_list s).

(** [impl Drop for Unflushed]. *)
Definition drop_unflushed (cap : nat) (owed : Segs) (p : Pending) : Pending :=
  foldl (fun p (s : SegId * BucketMap) => rebuffer cap s.1 s.2 p) p (in_seg_order owed).

(** ** The gate *)

(** [struct BoundedSet]. *)
Record BoundedSet := MkSet { ids : gset str; order : list str; set_cap : nat }.
Definition set_new (cap : nat) : BoundedSet := MkSet ∅ [] (cap `max` 1).
(** The eviction loop, oldest first. *)
Fixpoint evict (cap : nat) (ids : gset str) (order : list str) : gset str * list str :=
  match order with
  | oldest :: rest => if (cap <? length order)%nat then evict cap (ids ∖ {[oldest]}) rest else (ids, order)
  | [] => (ids, [])
  end.
Definition set_insert (s : BoundedSet) (id : str) : BoundedSet :=
  if decide (id ∈ ids s) then s else
  let '(i, o) := evict (set_cap s) ({[id]} ∪ ids s) (order s ++ [id]) in MkSet i o (set_cap s).

(** [struct Verdicts]. *)
Record Verdicts := MkVerdicts { real : BoundedSet; fake : BoundedSet }.

Definition verdict_id (metric key : str) : str := metric ++ "001"%char :: key.

(** The named keys of the buffer in scan order, the day-shards rotated to start
    at the cursor; each key with the index of its day-shard in the rotation. *)
Definition rotate {A} (start : nat) (l : list A) : list A := drop start l ++ take start l.
Definition leaf_keys (buckets : BucketMap) : list str := flat_map (fun b : str * Leaf => (by_key b.2).*1) (by_key buckets).

(** One day-shard of the scan: the pairs to check so far, the ids queued, and
    whether the budget is spent. *)
Fixpoint scan_keys (v : Verdicts) (budget : nat) (metric : str) (keys : list str) (unknown : list (str * str)) (queued : gset str)
    : list (str * str) * gset str * bool :=
  match keys with
  | [] => (unknown, queued, false)
  | key :: keys =>
    let id := verdict_id metric key in
    if bool_decide (key = OVERFLOW_KEY) || bool_decide (id ∈ ids (real v)) || bool_decide (id ∈ ids (fake v))
       || bool_decide (id ∈ queued) then scan_keys v budget metric keys unknown queued
    else
      let unknown := unknown ++ [(metric, key)] in
      let queued := {[id]} ∪ queued in
      if (budget <=? length unknown)%nat then (unknown, queued, true)
      else scan_keys v budget metric keys unknown queued
  end.
Fixpoint scan_segs (v : Verdicts) (budget : nat) (l : list (SegId * BucketMap)) (unknown : list (str * str)) (queued : gset str)
    (lapped : nat) : list (str * str) * nat * bool :=
  match l with
  | [] => (unknown, lapped, false)
  | (id, buckets) :: l =>
    let '(unknown, queued, spent) := scan_keys v budget id.1.1 (leaf_keys buckets) unknown queued in
    if spent then (unknown, lapped, true) else scan_segs v budget l unknown queued (S lapped)
  end.

(** What the checks taught: the caches, and the ids that could not be checked. *)
Definition learn (acc : Verdicts * gset str) (c : str * str * option bool) : Verdicts * gset str :=
  let '(v, unreachable) := acc in
  let id := verdict_id c.1.1 c.1.2 in
  match c.2 with
  | Some true => (MkVerdicts (set_insert (real v) id) (fake v), unreachable)
  | Some false => (MkVerdicts (real v) (set_insert (fake v) id), unreachable)
  | None => (v, {[id]} ∪ unreachable)
  end.

Inductive fate := Keep | Forged | Fold.

#[global] Instance fate_eq_dec : EqDecision fate.
Proof. solve_decision. Defined.

Definition key_fate (v : Verdicts) (unreachable : gset str) (metric key : str) : fate :=
  let id := verdict_id metric key in
  if bool_decide (key = OVERFLOW_KEY) then Keep
  else if bool_decide (id ∈ ids (real v)) || bool_decide (id ∈ unreachable) then Keep
  else if bool_decide (id ∈ ids (fake v)) then Forged
  else Fold.

Definition kept (v : Verdicts) (u : gset str) (metric : str) (leaf : Leaf) : Leaf :=
  filter (fun k : str * N => key_fate v u metric k.1 = Keep) leaf.
Definition sum_fate (f : fate -> bool) (v : Verdicts) (u : gset str) (metric : str) (leaf : Leaf) : N :=
  map_fold (fun key n acc => if f (key_fate v u metric key) then (n + acc)%N else acc) 0%N leaf.
Definition is_fold (f : fate) : bool := match f with Fold => true | _ => false end.

Definition rewrite_leaf (v : Verdicts) (u : gset str) (metric : str) (leaf : Leaf) : Leaf :=
  let overflow := sum_fate is_fold v u metric leaf in
  let leaf := kept v u metric leaf in
  if (0 <? overflow)%N then <[OVERFLOW_KEY := (default 0 (leaf !! OVERFLOW_KEY) + overflow)%N]> leaf else leaf.
Definition rewrite_buckets (v : Verdicts) (u : gset str) (metric : str) (buckets : BucketMap) : BucketMap :=
  filter (fun b : str * Leaf => b.2 ≠ ∅) (rewrite_leaf v u metric <$> buckets).
Definition rewrite_segs (v : Verdicts) (u : gset str) (s : Segs) : Segs :=
  filter (fun b : SegId * BucketMap => b.2 ≠ ∅) (map_imap (fun id b => Some (rewrite_buckets v u id.1.1 b)) s).

Record Gate := MkGate { verdicts : Verdicts; verify_cursor : nat }.

(** [drop_unprovable_keys]: [exists_] is the verifier, [ops] what a check may
    cost; the checks may complete in any order, [settle] of the list. *)
Definition key_budget (ops : nat) : nat := (VERIFY_OPS_PER_FLUSH / (ops `max` 1)) `max` 1.
Definition unknown_keys (g : Gate) (ops : nat) (s : Segs) : list (str * str) * nat * bool :=
  let l := in_seg_order s in
  let start := match length l with O => O | S _ as n => (verify_cursor g mod n)%nat end in
  let '(unknown, lapped, spent) := scan_segs (verdicts g) (key_budget ops) (rotate start l) [] ∅ 0 in
  (unknown, (start + lapped)%nat, spent).
(** The caches after the checks, and the ids that could not be checked. *)
Definition learned (ops : nat) (exists_ : str -> str -> option bool)
    (settle : list (str * str * option bool) -> list (str * str * option bool)) (g : Gate) (s : Segs) : Verdicts * gset str :=
  foldl learn (verdicts g, ∅) (settle ((fun p : str * str => (p, exists_ p.1 p.2)) <$> (unknown_keys g ops s).1.1)).
Definition drop_unprovable_keys (ops : nat) (exists_ : str -> str -> option bool)
    (settle : list (str * str * option bool) -> list (str * str * option bool)) (g : Gate) (s : Segs) : Gate * Segs :=
  let '(_, reached, spent) := unknown_keys g ops s in
  let '(v, unreachable) := learned ops exists_ settle g s in
  (MkGate v (if spent then S reached else reached), rewrite_segs v unreachable s).

(** ** The flush *)

(** A segment object: its number in the process and what it holds. *)
Abbreviation Written := (nat * SegId * BucketMap)%type.

(** The loop over the taken day-shards. [outs] says what becomes of each PUT;
    where it ends the flush is cancelled, with the day-shard in hand still
    owed. The result is what is still owed, the next number, the segments whose
    PUT was answered, and whether one failed. *)
Fixpoint flush_loop (todo : list SegId) (outs : list bool) (taken : Segs) (seq : nat) (landed : list Written) (failed : bool)
    : Segs * nat * list Written * bool :=
  match todo with
  | [] => (taken, seq, landed, failed)
  | id :: todo =>
    match taken !! id with
    | None => flush_loop todo outs taken seq landed failed
    | Some buckets =>
      if decide (buckets = ∅) then flush_loop todo outs (delete id taken) seq landed failed else
      match outs with
      | [] => (taken, S seq, landed, failed)
      | true :: outs => flush_loop todo outs (delete id taken) (S seq) (landed ++ [(seq, id, buckets)]) failed
      | false :: outs => flush_loop todo outs taken (S seq) landed true
      end
    end
  end.

(** A node: its buffer, the deltas a flush has taken, the gate, the number of
    the next segment, the two flags, and what storage has of it. *)
Record Node := MkNode {
  pending : Pending;
  taken : option Segs;
  gate : Gate;
  seq : nat;
  flush_due : bool;
  flush_failed : bool;
  durable : list Written
}.

Definition may_flush_early (nd : Node) : bool := flush_due nd && negb (flush_failed nd).

Definition record (cfg : Config) (day : str) (minute : Z) (metric key : str) (n : N) (nd : Node) : Node :=
  let '(p, over) := record_n cfg true day minute metric key n (pending nd) in
  MkNode p (taken nd) (gate nd) (seq nd) (flush_due nd || over) (flush_failed nd) (durable nd).

Definition flush_take (nd : Node) : Node :=
  MkNode no_pending (Some (segs (pending nd))) (gate nd) (seq nd) false false (durable nd).

(** The verifier of a node: what a check may cost, what it answers, and the
    order in which the answers come. *)
Record Verifier := MkVerifier {
  ops_per_check : nat;
  exists_ : str -> str -> option bool;
  settle : list (str * str * option bool) -> list (str * str * option bool)
}.

Definition run_gate (verifier : option Verifier) (g : Gate) (s : Segs) : Gate * Segs :=
  match verifier with
  | Some v => drop_unprovable_keys (ops_per_check v) (exists_ v) (settle v) g s
  | None => (g, s)
  end.

(** The gate cancelled while its checks run: the cursor is already past. *)
Definition scanned (verifier : option Verifier) (g : Gate) (s : Segs) : Gate :=
  match verifier with
  | Some v =>
    let '(_, reached, spent) := unknown_keys g (ops_per_check v) s in
    MkGate (verdicts g) (if spent then S reached else reached)
  | None => g
  end.

(** The rest of a flush over what it took, and the return of what is left:
    [None] is a flush cancelled while the gate waits. *)
Definition flush_rest (cfg : Config) (verifier : option Verifier) (outs : option (list bool)) (t : Segs) (nd : Node) : Node :=
  match outs with
  | None => MkNode (drop_unflushed (max_keys cfg) t (pending nd)) None (scanned verifier (gate nd) t) (seq nd)
      (flush_due nd) (flush_failed nd) (durable nd)
  | Some outs =>
    let '(g, t) := run_gate verifier (gate nd) t in
    let '(owed, seq, landed, failed) := flush_loop (in_seg_order t).*1 outs t (seq nd) [] (flush_failed nd) in
    MkNode (drop_unflushed (max_keys cfg) owed (pending nd)) None g seq (flush_due nd) failed (durable nd ++ landed)
  end.

Definition NEGATIVE_VERDICT_KEYS : nat := 16 * 1024.
Definition verdicts_new (real_cap : nat) : Verdicts := MkVerdicts (set_new real_cap) (set_new NEGATIVE_VERDICT_KEYS).
(** [Counters::new]. *)
Definition node_new (cfg : Config) : Node :=
  MkNode no_pending None (MkGate (verdicts_new (max_keys cfg `max` VERIFY_OPS_PER_FLUSH)) 0) 0 false false [].

(** ** Sums over maps *)

Section sums.
Context `{Countable K} {V : Type}.
Implicit Types (m : gmap K V) (f : K -> V -> Z).

Definition msum f m : Z := map_fold (fun k v acc => f k v + acc) 0 m.

Lemma msum_empty f : msum f ∅ = 0.
Proof. apply map_fold_empty. Qed.

Lemma msum_insert_new f m k v : m !! k = None -> msum f (<[k := v]> m) = f k v + msum f m.
Proof. intros Hk. unfold msum. apply (map_fold_insert_L (fun k v acc => f k v + acc)); [|done]. intros. lia. Qed.

Lemma msum_delete f m k : msum f m = from_option (f k) 0 (m !! k) + msum f (delete k m).
Proof.
  destruct (m !! k) as [v|] eqn:Hk; cbn; [|by rewrite delete_id].
  rewrite <- (insert_delete_id m k v Hk) at 1. apply msum_insert_new. apply lookup_delete_eq.
Qed.

Lemma msum_insert f m k v : msum f (<[k := v]> m) = f k v - from_option (f k) 0 (m !! k) + msum f m.
Proof.
  rewrite <- insert_delete_eq, msum_insert_new by apply lookup_delete_eq. rewrite (msum_delete f m k). lia.
Qed.

Lemma msum_ext f g m : (forall k v, m !! k = Some v -> f k v = g k v) -> msum f m = msum g m.
Proof.
  induction m as [|k v m Hk IH] using map_ind; intros Heq; [done|]. rewrite !msum_insert_new by done.
  rewrite (Heq k v) by apply lookup_insert_eq. f_equal. apply IH. intros k' v' Hk'. apply Heq.
  rewrite lookup_insert_ne; [done|]. intros ->. congruence.
Qed.

Lemma msum_plus f g m : msum (fun k v => f k v + g k v) m = msum f m + msum g m.
Proof. induction m as [|k v m Hk IH] using map_ind; [done|]. rewrite !msum_insert_new by done. lia. Qed.

Lemma msum_nonneg f m : (forall k v, m !! k = Some v -> 0 <= f k v) -> 0 <= msum f m.
Proof.
  induction m as [|k v m Hk IH] using map_ind; intros Hpos; [done|]. rewrite msum_insert_new by done.
  specialize (Hpos k v (lookup_insert_eq _ _ _)) as H1. assert (0 <= msum f m); [|lia]. apply IH. intros k' v' Hk'.
  apply Hpos. rewrite lookup_insert_ne; [done|]. intros ->. congruence.
Qed.

(** A map filtered by a predicate on its entries. *)
Lemma msum_filter f (Q : K * V -> Prop) `{!forall x, Decision (Q x)} m :
  msum f (filter Q m) = msum (fun k v => if decide (Q (k, v)) then f k v else 0) m.
Proof.
  induction m as [|k v m Hk IH] using map_ind; [by rewrite map_filter_empty|].
  rewrite (msum_insert_new _ _ _ _ Hk). destruct (decide (Q (k, v))) as [Hq|Hq].
  - rewrite map_filter_insert_True by done. rewrite msum_insert_new; [by rewrite IH|].
    apply map_lookup_filter_None. by left.
  - rewrite map_filter_insert_not' by naive_solver. by rewrite IH.
Qed.

(** Folding over the entries in any order. *)
Lemma msum_list f m l : l ≡ₚ map_to_list m -> foldr (fun p acc => f p.1 p.2 + acc) 0 l = msum f m.
Proof.
  intros Hl. unfold msum. rewrite map_fold_foldr.
  transitivity (foldr (fun p acc => f p.1 p.2 + acc) 0 (map_to_list m)).
  - induction Hl; cbn; lia.
  - clear Hl. generalize (map_to_list m). intros l'. induction l' as [|[k v] l' IH]; [done|]. cbn. f_equal. exact IH.
Qed.
End sums.
Arguments msum : simpl never.

Lemma msum_fmap `{Countable K} {V W : Type} (g : V -> W) (f : K -> W -> Z) (m : gmap K V) :
  msum f (g <$> m) = msum (fun k v => f k (g v)) m.
Proof.
  induction m as [|k v m Hk IH] using map_ind; [by rewrite fmap_empty|].
  rewrite fmap_insert, !msum_insert_new by (rewrite ?lookup_fmap, ?Hk; done). by rewrite IH.
Qed.

(** ** What a buffer holds *)

(** The sum of a weight over every count of a buffer. *)
Definition weigh_leaf (w : str -> N -> Z) (leaf : Leaf) : Z := msum w leaf.
Definition weigh_buckets (w : str -> N -> Z) (b : BucketMap) : Z := msum (fun _ leaf => weigh_leaf w leaf) b.
Definition weigh (w : str -> N -> Z) (s : Segs) : Z := msum (fun _ b => weigh_buckets w b) s.

(** All events, and the number of keys held by name. *)
Definition count (key : str) (n : N) : Z := Z.of_N n.
Definition named (key : str) (n : N) : Z := if decide (key = OVERFLOW_KEY) then 0 else 1.

Lemma weigh_buckets_empty w : weigh_buckets w ∅ = 0.
Proof. apply msum_empty. Qed.
Lemma weigh_empty w : weigh w ∅ = 0.
Proof. apply msum_empty. Qed.

(** Replacing one leaf changes the sum by the change of the leaf. *)
Lemma weigh_leaf_change w s id bucket leaf :
  let bm := default ∅ (s !! id) in
  weigh w (<[id := <[bucket := leaf]> bm]> s)
  = weigh w s + (weigh_leaf w leaf - weigh_leaf w (default ∅ (bm !! bucket))).
Proof.
  cbv zeta. unfold weigh. rewrite msum_insert. unfold weigh_buckets at 1. rewrite msum_insert.
  destruct (s !! id) as [bm|]; cbn; fold (weigh_buckets w).
  - unfold weigh_buckets. destruct (bm !! bucket); cbn; [lia|]. unfold weigh_leaf. rewrite msum_empty. lia.
  - rewrite lookup_empty, msum_empty. cbn. unfold weigh_leaf. rewrite msum_empty. lia.
Qed.

Lemma tally_count leaf k cap key n leaf' k' :
  tally leaf k cap key n = (leaf', k') -> weigh_leaf count leaf' = weigh_leaf count leaf + Z.of_N n.
Proof.
  unfold tally, weigh_leaf. destruct (leaf !! key) as [c|] eqn:Hk; [|case_match]; intros [= <- <-]; rewrite msum_insert.
  - rewrite Hk. cbn. unfold count. lia.
  - destruct (leaf !! OVERFLOW_KEY); cbn; unfold count; lia.
  - rewrite Hk. cbn. unfold count. lia.
Qed.

Lemma tally_named leaf k cap key n leaf' k' :
  tally leaf k cap key n = (leaf', k') ->
  weigh_leaf named leaf' - weigh_leaf named leaf <= Z.of_nat k' - Z.of_nat k /\ (k <= k' <= k `max` cap)%nat.
Proof.
  unfold tally, weigh_leaf. destruct (leaf !! key) as [c|] eqn:Hk; [|destruct (Nat.leb_spec cap k)];
    intros [= <- <-]; rewrite msum_insert.
  - rewrite Hk. cbn. unfold named. case_decide; lia.
  - destruct (leaf !! OVERFLOW_KEY); cbn; unfold named; rewrite decide_True by done; lia.
  - rewrite Hk. cbn. unfold named. case_decide; lia.
Qed.

(** The bound of the buffer: no more named keys than counted, no more counted
    than the cap. *)
Definition bounded (cap : nat) (p : Pending) : Prop := weigh named (segs p) <= Z.of_nat (n_keys p) /\ (n_keys p <= cap)%nat.

Lemma tally_at_spec cap id bucket p key n :
  weigh count (segs (tally_at cap id bucket p key n)) = weigh count (segs p) + Z.of_N n
  /\ (bounded cap p -> bounded cap (tally_at cap id bucket p key n)).
Proof.
  unfold tally_at, bounded. destruct (tally _ (n_keys p) cap key n) as [leaf k] eqn:E. cbn [segs n_keys].
  rewrite !(weigh_leaf_change _ (segs p) id bucket leaf). split.
  - apply tally_count in E. lia.
  - apply tally_named in E. lia.
Qed.

(** Making room for an entry changes nothing. *)
Lemma weigh_room w s id b : b = default ∅ (s !! id) -> weigh w (<[id := b]> s) = weigh w s.
Proof.
  intros ->. unfold weigh. rewrite msum_insert. destruct (s !! id); cbn; [lia|]. rewrite weigh_buckets_empty. lia.
Qed.

Lemma weigh_room_leaf w s id bucket :
  weigh w (<[id := <[bucket := default ∅ (default ∅ (s !! id) !! bucket)]> (default ∅ (s !! id))]> s) = weigh w s.
Proof. rewrite (weigh_leaf_change w s id bucket). lia. Qed.

(** A fold whose steps add a weight adds their sum. *)
Lemma fold_adds {A} (step : Pending -> A -> Pending) (add : A -> Z) cap l : forall p,
  (forall p a, weigh count (segs (step p a)) = weigh count (segs p) + add a /\ (bounded cap p -> bounded cap (step p a))) ->
  weigh count (segs (foldl step p l)) = weigh count (segs p) + foldr (fun a acc => add a + acc) 0 l
  /\ (bounded cap p -> bounded cap (foldl step p l)).
Proof.
  induction l as [|a l IH]; intros p Hstep; cbn; [split; [lia|done]|].
  destruct (Hstep p a) as [H1 H2]. destruct (IH (step p a) Hstep) as [H3 H4]. split; [lia|auto].
Qed.

Lemma rebuffer_bucket_spec cap id p b :
  weigh count (segs (rebuffer_bucket cap id p b)) = weigh count (segs p) + weigh_leaf count b.2
  /\ (bounded cap p -> bounded cap (rebuffer_bucket cap id p b)).
Proof.
  unfold rebuffer_bucket. set (q := MkPending _ (n_keys p)).
  assert (weigh count (segs q) = weigh count (segs p) /\ (bounded cap p -> bounded cap q)) as [H1 H2].
  { subst q. unfold bounded. cbn. by rewrite !weigh_room_leaf. }
  destruct (fold_adds (fun p (k : str * N) => tally_at cap id b.1 p k.1 k.2) (fun k => Z.of_N k.2) cap (by_key b.2) q) as [H3 H4];
    [intros; apply tally_at_spec|]. split; [|by auto]. rewrite H3, H1. unfold weigh_leaf.
  by rewrite <- (msum_list count b.2 (by_key b.2) (by_key_perm b.2)).
Qed.

Lemma rebuffer_spec cap id buckets p :
  weigh count (segs (rebuffer cap id buckets p)) = weigh count (segs p) + weigh_buckets count buckets
  /\ (bounded cap p -> bounded cap (rebuffer cap id buckets p)).
Proof.
  unfold rebuffer. set (q := MkPending _ (n_keys p)).
  assert (weigh count (segs q) = weigh count (segs p) /\ (bounded cap p -> bounded cap q)) as [H1 H2].
  { subst q. unfold bounded. cbn. by rewrite !weigh_room. }
  destruct (fold_adds (rebuffer_bucket cap id) (fun b => weigh_leaf count b.2) cap (by_key buckets) q) as [H3 H4].
  { apply rebuffer_bucket_spec. }
  split; [|by auto]. rewrite H3, H1. unfold weigh_buckets.
  by rewrite <- (msum_list _ buckets (by_key buckets) (by_key_perm buckets)).
Qed.

Lemma drop_unflushed_spec cap owed p :
  weigh count (segs (drop_unflushed cap owed p)) = weigh count (segs p) + weigh count owed
  /\ (bounded cap p -> bounded cap (drop_unflushed cap owed p)).
Proof.
  unfold drop_unflushed.
  destruct (fold_adds (fun p (s : SegId * BucketMap) => rebuffer cap s.1 s.2 p) (fun s => weigh_buckets count s.2) cap
    (in_seg_order owed) p) as [H1 H2]; [intros q s; apply rebuffer_spec|].
  split; [|by auto]. rewrite H1. unfold weigh.
  by rewrite <- (msum_list _ owed (in_seg_order owed) (merge_sort_Permutation _ _)).
Qed.

(** ** What the gate refuses *)

Definition is_forged (f : fate) : bool := match f with Forged => true | _ => false end.

(** The events of keys that name no stored object. *)
Definition forged_leaf (v : Verdicts) (u : gset str) (metric : str) (leaf : Leaf) : Z :=
  weigh_leaf (fun key n => if is_forged (key_fate v u metric key) then Z.of_N n else 0) leaf.
Definition forged (v : Verdicts) (u : gset str) (s : Segs) : Z :=
  msum (fun id b => msum (fun _ leaf => forged_leaf v u id.1.1 leaf) b) s.

Lemma sum_fate_weigh f v u metric leaf :
  Z.of_N (sum_fate f v u metric leaf) = weigh_leaf (fun key n => if f (key_fate v u metric key) then Z.of_N n else 0) leaf.
Proof.
  unfold sum_fate, weigh_leaf. induction leaf as [|k n leaf Hk IH] using map_ind; [done|].
  rewrite msum_insert_new by done. rewrite map_fold_insert_L; [|intros; repeat case_match; lia|done].
  rewrite <- IH. case_match; lia.
Qed.

Lemma rewrite_leaf_count v u metric leaf :
  weigh_leaf count (rewrite_leaf v u metric leaf) + forged_leaf v u metric leaf = weigh_leaf count leaf.
Proof.
  assert (weigh_leaf count leaf = weigh_leaf count (kept v u metric leaf) + Z.of_N (sum_fate is_fold v u metric leaf)
    + forged_leaf v u metric leaf) as ->.
  { rewrite sum_fate_weigh. unfold forged_leaf, weigh_leaf, kept. rewrite msum_filter, <- !msum_plus.
    apply msum_ext. intros k n _. cbn. unfold count. destruct (key_fate v u metric k); cbn; [rewrite decide_True by done|..];
      try rewrite decide_False by done; lia. }
  unfold rewrite_leaf. destruct (N.ltb_spec 0 (sum_fate is_fold v u metric leaf)) as [Hlt|Hge]; [|lia].
  unfold weigh_leaf at 1. rewrite msum_insert. fold (weigh_leaf count (kept v u metric leaf)).
  destruct (kept v u metric leaf !! OVERFLOW_KEY); cbn; unfold count; lia.
Qed.

(** Leaves and day-shards left empty are dropped, and hold nothing. *)
Lemma msum_nonempty `{Countable K} {V : Type} `{!EqDecision V} (e : V) (f : K -> V -> Z) (m : gmap K V) :
  (forall k, f k e = 0) -> msum f (filter (fun b : K * V => b.2 ≠ e) m) = msum f m.
Proof.
  intros He. rewrite msum_filter. apply msum_ext. intros k v _. cbn. case_decide as Hd; [done|].
  rewrite Hd. by rewrite He.
Qed.

Lemma rewrite_buckets_count v u metric b :
  weigh_buckets count (rewrite_buckets v u metric b) + msum (fun _ leaf => forged_leaf v u metric leaf) b = weigh_buckets count b.
Proof.
  unfold rewrite_buckets, weigh_buckets. rewrite (msum_nonempty ∅) by (intros; apply msum_empty).
  rewrite msum_fmap, <- msum_plus. apply msum_ext. intros k leaf _. apply rewrite_leaf_count.
Qed.

Lemma msum_imap `{Countable K} {V W : Type} (g : K -> V -> W) (f : K -> W -> Z) (m : gmap K V) :
  msum f (map_imap (fun k v => Some (g k v)) m) = msum (fun k v => f k (g k v)) m.
Proof.
  induction m as [|k v m Hk IH] using map_ind; [by rewrite map_imap_empty|].
  rewrite map_imap_insert_Some with (y := g k v) by done.
  rewrite !msum_insert_new by (rewrite ?map_lookup_imap, ?Hk; done). by rewrite IH.
Qed.

Lemma rewrite_segs_count v u s : weigh count (rewrite_segs v u s) + forged v u s = weigh count s.
Proof.
  unfold rewrite_segs, weigh, forged. rewrite (msum_nonempty ∅) by (intros; apply weigh_buckets_empty).
  rewrite msum_imap, <- msum_plus. apply msum_ext. intros k b _. apply rewrite_buckets_count.
Qed.

(** ** Every event is accounted for *)

Definition weigh_durable (l : list Written) : Z := foldr (fun x acc => weigh_buckets count x.2 + acc) 0 l.
Arguments weigh_durable : simpl never.

Lemma weigh_durable_app l l' : weigh_durable (l ++ l') = weigh_durable l + weigh_durable l'.
Proof. unfold weigh_durable. induction l as [|x l IH]; cbn; [done|]. lia. Qed.

Lemma weigh_delete w s id : weigh w s = from_option (weigh_buckets w) 0 (s !! id) + weigh w (delete id s).
Proof. unfold weigh. rewrite (msum_delete _ s id). by destruct (s !! id). Qed.

(** The numbers of a list of segments ascend from [lo] and stay below [hi]. *)
Fixpoint ascends (lo hi : nat) (l : list Written) : Prop :=
  match l with
  | [] => (lo <= hi)%nat
  | x :: l => (lo <= x.1.1)%nat /\ ascends (S x.1.1) hi l
  end.

Lemma ascends_snoc lo hi l x : ascends lo hi l -> (hi <= x.1.1)%nat -> ascends lo (S x.1.1) (l ++ [x]).
Proof.
  revert lo. induction l as [|y l IH]; intros lo; cbn; [lia|]. intros [Hy Hl] Hx. split; [done|by apply IH].
Qed.

Lemma ascends_weaken lo hi hi' l : ascends lo hi l -> (hi <= hi')%nat -> ascends lo hi' l.
Proof. revert lo. induction l as [|y l IH]; intros lo; cbn; [lia|]. intros [Hy Hl] Hle. split; [done|by apply IH]. Qed.

Lemma ascends_app_mid lo mid hi l l' : ascends lo mid l -> ascends mid hi l' -> ascends lo hi (l ++ l').
Proof.
  revert lo. induction l as [|y l IH]; intros lo; cbn.
  - intros Hle. destruct l' as [|z l']; cbn; [lia|]. intros [? ?]. split; [lia|done].
  - intros [Hy Hl] Hl'. split; [done|by apply IH].
Qed.

(** Each taken day-shard is written under a new number or still owed. *)
Lemma flush_loop_spec todo : forall outs taken seq landed failed owed seq' landed' failed' lo,
  flush_loop todo outs taken seq landed failed = (owed, seq', landed', failed') -> ascends lo seq landed ->
  weigh count owed + weigh_durable landed' = weigh count taken + weigh_durable landed /\ ascends lo seq' landed'.
Proof.
  induction todo as [|id todo IH]; intros outs taken seq landed failed owed seq' landed' failed' lo; cbn [flush_loop].
  { intros [= <- <- <- <-] Ha. done. }
  destruct (taken !! id) as [b|] eqn:Hid; [|by apply IH].
  assert (weigh count taken = weigh_buckets count b + weigh count (delete id taken)) as Hdel
    by (by rewrite (weigh_delete count taken id), Hid).
  destruct (decide (b = ∅)) as [->|Hb].
  { intros Hrun Ha. destruct (IH _ _ _ _ _ _ _ _ _ lo Hrun Ha) as [Hw Ha']. split; [|done].
    rewrite weigh_buckets_empty in Hdel. lia. }
  destruct outs as [|[] outs].
  - intros [= <- <- <- <-] Ha. split; [done|]. eapply ascends_weaken; [done|lia].
  - intros Hrun Ha. destruct (IH _ _ _ _ _ _ _ _ _ lo Hrun) as [Hw Ha'].
    + apply (ascends_snoc lo seq landed (seq, id, b)); [done|cbn; lia].
    + split; [|done]. rewrite weigh_durable_app in Hw. unfold weigh_durable at 3 in Hw. cbn in Hw. lia.
  - intros Hrun Ha. apply (IH _ _ _ _ _ _ _ _ _ lo Hrun). eapply ascends_weaken; [done|lia].
Qed.

Section node.
Context (cfg : Config) (verifier : option Verifier).

(** What a flush refuses: the events of keys the gate knows to be forged. *)
Definition refused_by (outs : option (list bool)) (g : Gate) (t : Segs) : Z :=
  match outs, verifier with
  | Some _, Some v =>
    let '(verd, u) := learned (ops_per_check v) (exists_ v) (settle v) g t in forged verd u t
  | _, _ => 0
  end.

Lemma run_gate_count g t outs : weigh count (run_gate verifier g t).2 + refused_by (Some outs) g t = weigh count t.
Proof.
  unfold run_gate, refused_by, drop_unprovable_keys. destruct verifier as [v|]; [|cbn; lia].
  destruct (unknown_keys g (ops_per_check v) t) as [[unknown reached] spent].
  destruct (learned _ _ _ g t) as [verd u]. cbn [snd]. apply rewrite_segs_count.
Qed.

(** The moves of a node: an event, the start of a flush, and its end, by
    completion or cancellation; events may come while a flush is under way.
    Beside the node, the events so far and those refused. *)
Inductive move : Node * Z * Z -> Node * Z * Z -> Prop :=
  | move_record nd recorded refused day minute metric key n :
      move (nd, recorded, refused) (record cfg day minute metric key n nd, recorded + Z.of_N n, refused)
  | move_take nd recorded refused :
      taken nd = None -> move (nd, recorded, refused) (flush_take nd, recorded, refused)
  | move_rest nd recorded refused outs t :
      taken nd = Some t ->
      move (nd, recorded, refused) (flush_rest cfg verifier outs t nd, recorded, refused + refused_by outs (gate nd) t).

Definition accounted (st : Node * Z * Z) : Prop :=
  let '(nd, recorded, refused) := st in
  recorded = weigh count (segs (pending nd)) + weigh count (default ∅ (taken nd)) + weigh_durable (durable nd) + refused
  /\ bounded (max_keys cfg) (pending nd)
  /\ weigh named (default ∅ (taken nd)) <= Z.of_nat (max_keys cfg)
  /\ ascends 0 (seq nd) (durable nd).

Lemma move_accounted st st' : move st st' -> accounted st -> accounted st'.
Proof.
  destruct 1 as [nd recorded refused day minute metric key n|nd recorded refused Ht|nd recorded refused outs t Ht];
    intros (Hc & Hb & Hn & Ha).
  - unfold record, record_n. cbn [negb orb]. destruct (N.eqb_spec n 0) as [->|Hpos].
    { unfold accounted. cbn [pending taken durable seq]. rewrite Z.add_0_r. by split_and!. }
    unfold accounted. cbn [pending taken durable seq].
    destruct (tally_at_spec (max_keys cfg) (metric, day, shard_of (bounded_key metric key))
      (bucket_of minute (resolution_secs cfg)) (pending nd) (bounded_key metric key) n) as [H1 H2].
    split_and!; [lia|by apply H2|done|done].
  - rewrite Ht in Hc, Hn. destruct Hb as [Hb1 Hb2]. cbn [default from_option id] in Hc, Hn. rewrite weigh_empty in Hc.
    unfold accounted, bounded.
    cbn [pending taken durable seq flush_take no_pending segs n_keys default from_option id]. rewrite !weigh_empty. split_and!; [lia|lia|lia|lia|done].
  - rewrite Ht in Hc, Hn. cbn [default from_option id] in Hc, Hn. unfold flush_rest, accounted. destruct outs as [outs|].
    + pose proof (run_gate_count (gate nd) t outs) as Hg. destruct (run_gate verifier (gate nd) t) as [g t'].
      destruct (flush_loop _ outs t' _ _ _) as [[[owed seq'] landed] failed] eqn:Hf.
      destruct (flush_loop_spec _ _ _ _ _ _ _ _ _ _ (seq nd) Hf) as [Hw Hs]; [cbn; lia|].
      destruct (drop_unflushed_spec (max_keys cfg) owed (pending nd)) as [Hd1 Hd2].
      cbn [pending taken durable seq default from_option id snd] in *. change (weigh_durable []) with 0 in Hw.
      rewrite weigh_durable_app, !weigh_empty, Hd1.
      split_and!; [lia|by apply Hd2|lia|]. by eapply ascends_app_mid.
    + destruct (drop_unflushed_spec (max_keys cfg) t (pending nd)) as [Hd1 Hd2].
      cbn [pending taken durable seq default from_option id refused_by]. rewrite !weigh_empty, Hd1.
      split_and!; [lia|by apply Hd2|lia|done].
Qed.

Lemma moves_accounted st st' : rtc move st st' -> accounted st -> accounted st'.
Proof. induction 1; eauto using move_accounted. Qed.

Lemma new_accounted : accounted (node_new cfg, 0, 0).
Proof.
  unfold accounted, bounded. cbn [pending taken durable seq node_new no_pending segs n_keys default from_option id].
  rewrite !weigh_empty. change (weigh_durable []) with 0. cbn [ascends]. split_and!; lia.
Qed.
End node.

(** ** What the caches may say *)

Lemma evict_ids cap : forall (i : gset str) o, (evict cap i o).1 ⊆ i.
Proof.
  intros i o. revert i. induction o as [|x o IH]; intros i; cbn [evict]; [done|].
  case_match; [|done]. etransitivity; [apply IH|set_solver].
Qed.

Lemma set_insert_ids s id : ids (set_insert s id) ⊆ {[id]} ∪ ids s.
Proof.
  unfold set_insert. case_decide; [set_solver|]. pose proof (evict_ids (set_cap s) ({[id]} ∪ ids s) (order s ++ [id])) as H'.
  by destruct (evict _ _ _).
Qed.

(** A verdict of absence comes from the cache or from a check that said so. *)
Lemma learn_fake checks : forall v u id,
  id ∈ ids (fake (foldl learn (v, u) checks).1) ->
  id ∈ ids (fake v) \/ exists p, (p, Some false) ∈ checks /\ id = verdict_id p.1 p.2.
Proof.
  induction checks as [|[p r] checks IH]; intros v u id; cbn [foldl]; [by left|]. intros Hin.
  assert (forall v' u', learn (v, u) (p, r) = (v', u') -> id ∈ ids (fake v') ->
    id ∈ ids (fake v) \/ r = Some false /\ id = verdict_id p.1 p.2) as Hstep.
  { intros v' u'. unfold learn. cbn. destruct r as [[]|]; intros [= <- <-]; cbn; [by left| |by left].
    intros Hi. pose proof (set_insert_ids _ _ _ Hi). set_solver. }
  destruct (learn (v, u) (p, r)) as [v' u'] eqn:E. destruct (IH v' u' id Hin) as [Hv|[q [Hq ->]]].
  - destruct (Hstep v' u' eq_refl Hv) as [?|[-> ->]]; [by left|right]. exists p. split; [apply list_elem_of_here|done].
  - right. exists q. split; [by apply list_elem_of_further|done].
Qed.

(** A pass never asks for more keys than its budget, nor for a key whose
    verdict is cached. *)
Lemma scan_keys_budget v budget metric keys : forall unknown queued unknown' queued' spent,
  scan_keys v budget metric keys unknown queued = (unknown', queued', spent) -> (length unknown < budget)%nat ->
  (length unknown' <= budget)%nat /\ (spent = false -> (length unknown' < budget)%nat).
Proof.
  induction keys as [|key keys IH]; intros unknown queued unknown' queued' spent; cbn [scan_keys].
  { intros [= <- <- <-]. lia. }
  case_match; [by apply IH|]. destruct (Nat.leb_spec budget (length (unknown ++ [(metric, key)]))) as [Hle|Hlt].
  - intros [= <- <- <-] Hl. rewrite length_app in *. cbn in *. split; [lia|done].
  - intros Hrun _. by eapply IH.
Qed.

Lemma scan_segs_budget v budget l : forall unknown queued lapped unknown' lapped' spent,
  scan_segs v budget l unknown queued lapped = (unknown', lapped', spent) -> (length unknown < budget)%nat ->
  (length unknown' <= budget)%nat.
Proof.
  induction l as [|[id b] l IH]; intros unknown queued lapped unknown' lapped' spent; cbn [scan_segs].
  { intros [= <- <- <-]. lia. }
  destruct (scan_keys v budget id.1.1 (leaf_keys b) unknown queued) as [[u q] s] eqn:Hs.
  intros Hrun Hl. destruct (scan_keys_budget _ _ _ _ _ _ _ _ _ Hs Hl) as [H1 H2].
  destruct s; [by injection Hrun as <- <- <-|]. eapply IH; [exact Hrun|by apply H2].
Qed.

Lemma unknown_within_budget g ops s : (length (unknown_keys g ops s).1.1 <= key_budget ops)%nat.
Proof.
  unfold unknown_keys. destruct (scan_segs _ _ _ _ _ _) as [[unknown lapped] spent] eqn:Hs. cbn [fst].
  eapply scan_segs_budget; [exact Hs|]. unfold key_budget. cbn. lia.
Qed.

(** The oldest known-real key of a full cache is folded by the very pass that
    learns a new one: its name is lost although its verdict was paid for. *)
Lemma known_key_folded v u metric key rest p :
  let id := verdict_id metric key in
  key <> OVERFLOW_KEY -> order (real v) = id :: rest -> length (order (real v)) = set_cap (real v) ->
  verdict_id p.1 p.2 ∉ ids (real v) -> id ∈ ids (real v) -> id ∉ ids (fake v) -> id ∉ u ->
  key_fate v u metric key = Keep /\ key_fate (learn (v, u) (p, Some true)).1 u metric key = Fold.
Proof.
  cbv zeta. intros Hkey Ho Hlen Hnew Hin Hfake Hu. unfold key_fate. rewrite !(bool_decide_false (key = _)) by done.
  rewrite !(bool_decide_false (_ ∈ u)), (bool_decide_true (_ ∈ ids (real v))) by done. split; [done|].
  unfold learn. cbn. rewrite (bool_decide_false (_ ∈ ids (fake v))) by done.
  unfold set_insert. rewrite decide_False by done. rewrite <- Hlen, Ho. cbn [app evict].
  match goal with |- context [(?a <? ?b)%nat] => replace (a <? b)%nat with true
    by (symmetry; apply Nat.ltb_lt; cbn; rewrite length_app; cbn; lia) end.
  match goal with |- context [evict ?c ?i ?o] => pose proof (evict_ids c i o) as He; destruct (evict c i o) as [i' o'] end.
  cbn in *. rewrite bool_decide_false; [done|]. set_solver.
Qed.

(** ** The theorem *)

(** C36: Whatever downloads are recorded, flushes started, answered, failed or
    cancelled, in any order, every event ever recorded is in exactly one place:
    the buffer, the deltas a flush holds, the segments whose PUT was answered,
    or the counts the gate refused; the buffer never holds more named keys than
    the configured cap, and no two segments share a number. *)
Theorem counts_conserved cfg verifier nd recorded refused :
  rtc (move cfg verifier) (node_new cfg, 0, 0) (nd, recorded, refused) ->
  recorded = weigh count (segs (pending nd)) + weigh count (default ∅ (taken nd)) + weigh_durable (durable nd) + refused
  /\ weigh named (segs (pending nd)) <= Z.of_nat (max_keys cfg)
  /\ ascends 0 (seq nd) (durable nd).
Proof.
  intros Hrun. destruct (moves_accounted _ _ _ _ Hrun (new_accounted cfg)) as (Hc & [Hb1 Hb2] & _ & Ha).
  split_and!; [done|lia|done].
Qed.

Definition demo_cfg : Config := MkConfig 86400 300 3600 90 1 1.
Definition demo_gate : Verifier :=
  MkVerifier 1 (fun _ key => Some (bool_decide (key = &"real/r-1.whl"))) (fun l => l).
Definition demo_step1 (nd : Node) : Node := record demo_cfg (&"2026-01-01") 61 (&"downloads") (&"real/r-1.whl") 2 nd.
Definition demo_step2 (nd : Node) : Node := record demo_cfg (&"2026-01-01") 61 (&"downloads") (&"fake/f-1.whl") 3 nd.

(** Two downloads of a stored file and three of a second name, past the cap of
    one named key; the flush writes the first segment and fails on the second. *)
Lemma counts_conserved_witness :
  exists nd recorded refused, rtc (move demo_cfg (Some demo_gate)) (node_new demo_cfg, 0, 0) (nd, recorded, refused)
  /\ recorded = 5 /\ weigh count (segs (pending nd)) = 2 /\ weigh_durable (durable nd) = 3
  /\ weigh named (segs (pending nd)) <= 1.
Proof.
  set (n2 := demo_step2 (demo_step1 (node_new demo_cfg))).
  set (n3 := flush_take n2).
  set (n4 := flush_rest demo_cfg (Some demo_gate) (Some [true; false]) (segs (pending n2)) n3).
  exists n4, 5, (0 + refused_by (Some demo_gate) (Some [true; false]) (gate n3) (segs (pending n2))).
  assert (rtc (move demo_cfg (Some demo_gate)) (node_new demo_cfg, 0, 0)
    (n4, 5, 0 + refused_by (Some demo_gate) (Some [true; false]) (gate n3) (segs (pending n2)))) as Hrun.
  { eapply rtc_l; [apply (move_record _ _ _ 0 0 (&"2026-01-01") 61 (&"downloads") (&"real/r-1.whl") 2)|].
    eapply rtc_l; [apply (move_record _ _ _ 2 0 (&"2026-01-01") 61 (&"downloads") (&"fake/f-1.whl") 3)|].
    eapply rtc_l; [by apply move_take|]. apply rtc_once. by apply move_rest. }
  split; [exact Hrun|]. destruct (counts_conserved _ _ _ _ _ Hrun) as (_ & Hb & _).
  split_and!; [done|vm_compute; reflexivity|vm_compute; reflexivity|exact Hb].
Defined.
End Counters.
