(* ===== verification/Rollup.v ===== *)
(** * Download counters in storage (src/counters.rs)

    What the leader does with the segments the nodes flush: each bucket freezes
    the finished day-shards it holds into a rollup that carries its name, sweeps
    the segments it summed, summarises the day and drops what retention no longer
    keeps; then the buckets converge on the union of the rollups. The engine sees
    a bucket through four operations, given here by the adapter of app.rs over
    the storage contract. *)
From stdpp Require Import functions.
From S2P Require Import Prelude RustStr Documents Storage Counters.
Import Storage Counters.

Module Rollup.

(** ** Keys *)

Definition PREFIX : str := &"_counters/".
Definition DAY_PREFIX : str := &"_counters/day/".
Definition SEG_PREFIX : str := &"_counters/seg/".
Definition SUMMARY_STEM : str := &"_summary".

Definition key_parts (key : str) : option (list str) := split "/"%char <$> strip_prefix PREFIX key.

Definition frozen_key (metric day shard bucket : str) : str :=
  DAY_PREFIX ++ metric ++ &"/" ++ day ++ &"/" ++ shard ++ &"@" ++ bucket ++ &".json".
Definition summary_key (metric day bucket : str) : str :=
  DAY_PREFIX ++ metric ++ &"/" ++ day ++ &"/" ++ SUMMARY_STEM ++ &"@" ++ bucket ++ &".json".

Definition split_rollup_file (file : str) : option (str * str) :=
  match strip_suffix (&".json") file with
  | Some f =>
    match split_once "@"%char f with
    | Some (stem, bucket) => if bool_decide (stem = []) || bool_decide (bucket = []) then None else Some (stem, bucket)
    | None => None
    end
  | None => None
  end.

Definition first_char (s : str) : option str := head (chars s).

Definition frozen_shard_of (key : str) : option (str * str) :=
  match key_parts key with
  | Some [kind; _; _; file] =>
    if bool_decide (kind = &"day") then
      match split_rollup_file file with
      | Some (stem, bucket) => if bool_decide (stem = SUMMARY_STEM) then None else (fun c => (c, bucket)) <$> first_char stem
      | None => None
      end
    else None
  | _ => None
  end.

Definition seg_shard_of (key : str) : option str :=
  match key_parts key with
  | Some [kind; _; _; shard; _] => if bool_decide (kind = &"seg") then first_char shard else None
  | _ => None
  end.

Definition day_of (key : str) : option str :=
  match key_parts key with
  | Some [kind; _; day; _; _] => if bool_decide (kind = &"seg") then Some day else None
  | Some [kind; _; day; _] => if bool_decide (kind = &"day") then Some day else None
  | _ => None
  end.

(** ** The layout of one bucket *)

Record Layout := MkLayout {
  segments : gmap SegId (list str);
  frozen : gset SegId;
  summaries : gset (str * str)
}.

Definition parse_key (bucket : str) (l : Layout) (k : str) : Layout :=
  match key_parts k with
  | Some [kind; metric; day; shard; _] =>
    if bool_decide (kind = &"seg") then
      match first_char shard with
      | Some s =>
        MkLayout (<[(metric, day, s) := default [] (segments l !! (metric, day, s)) ++ [k]]> (segments l)) (frozen l) (summaries l)
      | None => l
      end
    else l
  | Some [kind; metric; day; file] =>
    if bool_decide (kind = &"day") then
      match split_rollup_file file with
      | Some (stem, owner) =>
        if negb (bool_decide (owner = bucket)) then l
        else if bool_decide (stem = SUMMARY_STEM) then MkLayout (segments l) (frozen l) ({[(metric, day)]} ∪ summaries l)
        else match first_char stem with
             | Some s => MkLayout (segments l) ({[(metric, day, s)]} ∪ frozen l) (summaries l)
             | None => l
             end
      | None => l
      end
    else l
  | _ => l
  end.
Definition layout_parse (keys : list str) (bucket : str) : Layout := foldl (parse_key bucket) (MkLayout ∅ ∅ ∅) keys.

(** ** Sums *)

Record Segment := MkSegment { seg_resolution : Z; seg_buckets : BucketMap }.
Record DaySummary := MkSummary { total : N; top : gmap str N }.
Definition default_segment : Segment := MkSegment 0 ∅.

Definition add_to (acc : gmap str N) (e : str * N) : gmap str N := <[e.1 := (default 0 (acc !! e.1) + e.2)%N]> acc.
Definition merge_bucket (acc : BucketMap) (b : str * Leaf) : BucketMap :=
  <[b.1 := foldl add_to (default ∅ (acc !! b.1)) (by_key b.2)]> acc.
Definition merge_bucketmap (acc src : BucketMap) : BucketMap := foldl merge_bucket acc (by_key src).

Definition fold_buckets (buckets : BucketMap) (acc : gmap str N * N) : gmap str N * N :=
  foldl (fun acc (b : str * Leaf) =>
           foldl (fun (acc : gmap str N * N) (e : str * N) => (add_to acc.1 e, (acc.2 + e.2)%N)) acc (by_key b.2))
        acc (by_key buckets).

(** By count, largest first, then by key. *)
Definition busier (x y : str * N) : Prop := (y.2 < x.2)%N \/ x.2 = y.2 /\ leb x.1 y.1 = true.
#[global] Instance busier_dec x y : Decision (busier x y).
Proof. unfold busier. apply _. Defined.
Definition rank_summary (totals : gmap str N) (total : N) : DaySummary :=
  MkSummary total (list_to_map (take 50 (merge_sort busier (by_key totals)))).

Section engine.
Context {E : Etags} {CS : Codec Segment} {CD : Codec DaySummary}.
(** [supports_leases] of the backend, and the resolution of the node. *)
Context (leases : bool) (resolution : Z).

Definition read_segment (bytes : str) : Segment := default default_segment (decode bytes).

(** ** A bucket as the engine sees it (PinnedCounterStore) *)

Record Bucket := MkBucket { at_ : nat; tag : str }.

Definition get (b : Bucket) (key : str) : prog (res (option str)) :=
  if leases then let*? o := call (at_ b) (GetWithEtag key) in Ret (Ok (fst <$> o))
  else let* r := call (at_ b) (GetBytes key) in
       Ret (match r with
            | Ok bytes => Ok (Some bytes)
            | Err e => if is_not_found e then Ok None else Err e
            end).
Definition put (b : Bucket) (key bytes : str) : prog (res unit) := call (at_ b) (PutBytes key bytes).
Definition list_ (b : Bucket) (prefix : str) : prog (res (list str)) :=
  let*? l := call (at_ b) (ListAll prefix) in Ret (Ok (meta_key <$> l)).
Definition delete_ (b : Bucket) (keys : list str) : prog (res unit) := call (at_ b) (DeleteKeys keys).

Fixpoint sum_segments (b : Bucket) (seg_keys : list str) (acc : BucketMap) : prog (option BucketMap) :=
  match seg_keys with
  | [] => Ret (Some acc)
  | k :: seg_keys =>
    let* r := get b k in
    match r with
    | Ok (Some bytes) => sum_segments b seg_keys (merge_bucketmap acc (seg_buckets (read_segment bytes)))
    | Ok None => sum_segments b seg_keys acc
    | Err _ => Ret None
    end
  end.

(** ** One bucket's compaction *)

(** What a pass over a bucket accumulates. *)
Record Pass := MkPass {
  to_summarize : gset (str * str);
  unfinished : gset (str * str);
  rollups : gset str;
  discarded : N
}.

Definition freeze_one (b : Bucket) (close_cutoff : str) (already : gset SegId) (st : Pass) (e : SegId * list str) : prog Pass :=
  let '(metric, day, shard) := e.1 in
  if leb close_cutoff day then Ret st
  else if decide ((metric, day, shard) ∈ already) then
    let* r := delete_ b e.2 in
    Ret (match r with
         | Ok _ => MkPass (to_summarize st) (unfinished st) (rollups st) (discarded st + N.of_nat (length e.2))
         | Err _ => st
         end)
  else
    let failed := MkPass (to_summarize st) ({[(metric, day)]} ∪ unfinished st) (rollups st) (discarded st) in
    let* sum := sum_segments b e.2 ∅ in
    match sum with
    | Some buckets =>
      let key := frozen_key metric day shard (tag b) in
      let* r := put b key (encode (MkSegment resolution buckets)) in
      match r with
      | Ok _ =>
        let* _ := delete_ b e.2 in
        Ret (MkPass ({[(metric, day)]} ∪ to_summarize st) (unfinished st) ({[key]} ∪ rollups st) (discarded st))
      | Err _ => Ret failed
      end
    | None => Ret failed
    end.

Fixpoint freeze_loop (b : Bucket) (close_cutoff : str) (already : gset SegId) (st : Pass) (l : list (SegId * list str)) : prog Pass :=
  match l with
  | [] => Ret st
  | e :: l => let* st := freeze_one b close_cutoff already st e in freeze_loop b close_cutoff already st l
  end.

Fixpoint summary_loop (b : Bucket) (keys : list str) (acc : gmap str N * N) : prog (option (gmap str N * N)) :=
  match keys with
  | [] => Ret (Some acc)
  | k :: keys =>
    match frozen_shard_of k with
    | Some (_, bucket) =>
      if bool_decide (bucket = tag b) then
        let* r := get b k in
        match r with
        | Ok (Some bytes) => summary_loop b keys (fold_buckets (seg_buckets (read_segment bytes)) acc)
        | _ => Ret None
        end
      else summary_loop b keys acc
    | None => summary_loop b keys acc
    end
  end.
Definition write_summary (b : Bucket) (metric day : str) : prog (option str) :=
  let* r := list_ b (DAY_PREFIX ++ metric ++ &"/" ++ day ++ &"/") in
  match r with
  | Err _ => Ret None
  | Ok keys =>
    let* sums := summary_loop b keys (∅, 0%N) in
    match sums with
    | None => Ret None
    | Some (totals, total) =>
      let key := summary_key metric day (tag b) in
      let* r := put b key (encode (rank_summary totals total)) in
      Ret (match r with Ok _ => Some key | Err _ => None end)
    end
  end.

(** The order of a [BTreeMap] keyed by metric and day. *)
Definition day_le (x y : str * str) : Prop := leb x y = true.
#[global] Instance day_le_dec x y : Decision (day_le x y).
Proof. unfold day_le. apply _. Defined.
Definition in_day_order (X : gset (str * str)) : list (str * str) := merge_sort day_le (elements X).

Fixpoint summarize_loop (b : Bucket) (days : list (str * str)) (rollups : gset str) : prog (gset str) :=
  match days with
  | [] => Ret rollups
  | d :: days =>
    let* r := write_summary b d.1 d.2 in
    summarize_loop b days (match r with Some key => {[key]} ∪ rollups | None => rollups end)
  end.

(** [day < cutoff] and [day >= cutoff] of a key's day. *)
Definition is_stale (retain_cutoff key : str) : bool :=
  match day_of key with Some day => negb (leb retain_cutoff day) | None => false end.
Definition is_retained (retain_cutoff key : str) : bool :=
  match day_of key with Some day => leb retain_cutoff day | None => false end.

Definition backfill (retain_cutoff : str) (l : Layout) : gset (str * str) :=
  set_map (fun id : SegId => id.1)
    (filter (fun id : SegId => leb retain_cutoff id.1.2 = true /\ id.1 ∉ summaries l) (frozen l)).

Definition compact_bucket (b : Bucket) (close_cutoff retain_cutoff : str) (discarded0 : N) : prog (option (gset str) * N) :=
  let* r := list_ b PREFIX in
  match r with
  | Err _ => Ret (None, discarded0)
  | Ok keys =>
    let layout := layout_parse keys (tag b) in
    let rollups0 := list_to_set (filter (fun k => starts_with DAY_PREFIX k = true) keys) in
    let* st := freeze_loop b close_cutoff (frozen layout) (MkPass ∅ ∅ rollups0 discarded0) (in_seg_order (segments layout)) in
    let days := (to_summarize st ∪ backfill retain_cutoff layout) ∖ unfinished st in
    let* rolled := summarize_loop b (in_day_order days) (rollups st) in
    let stale := filter (fun k => is_stale retain_cutoff k = true) keys in
    if bool_decide (stale = []) then Ret (Some rolled, discarded st) else
    let* _ := delete_ b stale in
    Ret (Some (rolled ∖ list_to_set stale), discarded st)
  end.

(** ** The whole pass *)

Abbreviation Mesh := (list (Bucket * gset str)).

Fixpoint put_all (dests : Mesh) (key bytes : str) : prog unit :=
  match dests with
  | [] => Ret tt
  | d :: dests => let* _ := put d.1 key bytes in put_all dests key bytes
  end.
Definition reseed_key (mesh : Mesh) (key : str) : prog unit :=
  let missing := filter (fun m : Bucket * gset str => key ∉ m.2) mesh in
  if bool_decide (missing = []) then Ret tt else
  match filter (fun m : Bucket * gset str => key ∈ m.2) mesh with
  | [] => Ret tt
  | source :: _ =>
    let* r := get source.1 key in
    match r with
    | Ok (Some bytes) => put_all missing key bytes
    | _ => Ret tt
    end
  end.
Fixpoint reseed_loop (mesh : Mesh) (keys : list str) : prog unit :=
  match keys with
  | [] => Ret tt
  | key :: keys => let* _ := reseed_key mesh key in reseed_loop mesh keys
  end.
Definition mesh_union (mesh : Mesh) : gset str := ⋃ (mesh.*2).
Definition reseed_rollups (mesh : Mesh) (retain_cutoff : str) : prog unit :=
  if (length mesh <? 2)%nat then Ret tt
  else reseed_loop mesh (in_order (filter (fun k => is_retained retain_cutoff k = true) (mesh_union mesh))).

Fixpoint compact_loop (bs : list Bucket) (close_cutoff retain_cutoff : str) (done : gset str) (mesh : Mesh) (discarded : N)
    : prog (Mesh * N) :=
  match bs with
  | [] => Ret (mesh, discarded)
  | b :: bs =>
    if decide (tag b ∈ done) then compact_loop bs close_cutoff retain_cutoff done mesh discarded
    else
      let* r := compact_bucket b close_cutoff retain_cutoff discarded in
      let mesh := match r.1 with Some rollups => mesh ++ [(b, rollups)] | None => mesh end in
      compact_loop bs close_cutoff retain_cutoff ({[tag b]} ∪ done) mesh r.2
  end.
(** [compact] at a reading of the clock, which gives the two cutoffs. *)
Definition compact (store : Bucket) (peers : list Bucket) (close_cutoff retain_cutoff : str) : prog N :=
  let* r := compact_loop (store :: peers) close_cutoff retain_cutoff ∅ [] 0%N in
  let* _ := reseed_rollups r.1 retain_cutoff in
  Ret r.2.

(** ** Reading *)

Fixpoint read_frozen (primary : Bucket) (tags : list str) (metric day shard : str) (acc : BucketMap) (seen : gset str)
    : prog (BucketMap * gset str) :=
  match tags with
  | [] => Ret (acc, seen)
  | t :: tags =>
    let* r := get primary (frozen_key metric day shard t) in
    match r with
    | Ok (Some bytes) =>
      read_frozen primary tags metric day shard (merge_bucketmap acc (seg_buckets (read_segment bytes))) ({[t]} ∪ seen)
    | _ => read_frozen primary tags metric day shard acc seen
    end
  end.
Fixpoint read_open (stores : list Bucket) (prefix : str) (frozen seen : gset str) (acc : BucketMap) (any : bool)
    : prog (BucketMap * bool) :=
  match stores with
  | [] => Ret (acc, any)
  | b :: stores =>
    if decide (tag b ∈ frozen) then read_open stores prefix frozen seen acc any
    else if decide (tag b ∈ seen) then read_open stores prefix frozen seen acc any
    else
      let seen := {[tag b]} ∪ seen in
      let* r := list_ b prefix in
      match r with
      | Err _ => read_open stores prefix frozen seen acc any
      | Ok [] => read_open stores prefix frozen seen acc any
      | Ok seg_keys =>
        let* sum := sum_segments b seg_keys ∅ in
        match sum with
        | Some buckets => read_open stores prefix frozen seen (merge_bucketmap acc buckets) true
        | None => read_open stores prefix frozen seen acc any
        end
      end
  end.
Definition read_day_shard (primary : Bucket) (peers : list Bucket) (tags : list str) (metric day shard : str) : prog (option BucketMap) :=
  let* f := read_frozen primary tags metric day shard ∅ ∅ in
  let* r := read_open (primary :: peers) (SEG_PREFIX ++ metric ++ &"/" ++ day ++ &"/" ++ shard ++ &"/") f.2 ∅ f.1
              (negb (bool_decide (f.2 = ∅))) in
  Ret (if r.2 then Some r.1 else None).

(** The files of a package in a day-shard. *)
Definition per_package (pkg : str) (buckets : BucketMap) : gmap str N :=
  foldl (fun acc (b : str * Leaf) =>
           foldl (fun acc (e : str * N) =>
                    match strip_prefix (pkg ++ &"/") e.1 with Some sub => add_to acc (sub, e.2) | None => acc end)
                 acc (by_key b.2))
        ∅ (by_key buckets).

(** The days from one date to another, both included; at least the first.
    Dates are day numbers, [day_str] prints one. *)
Definition days_between (from to : Z) : list Z := seqZ from (Z.max 1 (to - from + 1)).

Fixpoint query_days (primary : Bucket) (peers : list Bucket) (tags : list str) (metric pkg : str) (days : list str)
    (out : gmap str (gmap str N)) : prog (gmap str (gmap str N)) :=
  match days with
  | [] => Ret out
  | ds :: days =>
    let* r := read_day_shard primary peers tags metric ds (shard_of pkg) in
    let out := match r with
               | Some buckets =>
                 let per_key := per_package pkg buckets in
                 if bool_decide (per_key = ∅) then out else <[ds := per_key]> out
               | None => out
               end in
    query_days primary peers tags metric pkg days out
  end.
Definition query_package (day_str : Z -> str) (primary : Bucket) (peers : list Bucket) (tags : list str) (metric pkg : str)
    (from to : Z) : prog (gmap str (gmap str N)) :=
  query_days primary peers tags metric pkg (day_str <$> days_between from to) ∅.

(** The open day: rollups that raced in, then the segments they do not retire. *)
Fixpoint open_frozen (primary : Bucket) (keys : list str) (acc : gmap str N * N) (seen : gset (str * str))
    : prog ((gmap str N * N) * gset (str * str)) :=
  match keys with
  | [] => Ret (acc, seen)
  | k :: keys =>
    match frozen_shard_of k with
    | None => open_frozen primary keys acc seen
    | Some sb =>
      let* r := get primary k in
      match r with
      | Ok (Some bytes) => open_frozen primary keys (fold_buckets (seg_buckets (read_segment bytes)) acc) ({[sb]} ∪ seen)
      | _ => open_frozen primary keys acc seen
      end
    end
  end.
Definition is_open (retired : gset (str * str)) (bucket key : str) : bool :=
  match seg_shard_of key with Some s => bool_decide ((s, bucket) ∉ retired) | None => false end.
Fixpoint open_segments (stores : list Bucket) (prefix : str) (retired : gset (str * str)) (seen : gset str)
    (acc : gmap str N * N) (any : bool) : prog ((gmap str N * N) * bool) :=
  match stores with
  | [] => Ret (acc, any)
  | b :: stores =>
    if decide (tag b ∈ seen) then open_segments stores prefix retired seen acc any
    else
      let seen := {[tag b]} ∪ seen in
      let* r := list_ b prefix in
      match r with
      | Err _ => open_segments stores prefix retired seen acc any
      | Ok listed =>
        match filter (fun k => is_open retired (tag b) k = true) listed with
        | [] => open_segments stores prefix retired seen acc any
        | open =>
          let* sum := sum_segments b open ∅ in
          match sum with
          | Some buckets => open_segments stores prefix retired seen (fold_buckets buckets acc) true
          | None => open_segments stores prefix retired seen acc any
          end
        end
      end
  end.
Definition summarize_open_day (primary : Bucket) (peers : list Bucket) (metric day : str) : prog (option DaySummary) :=
  let* r := list_ primary (DAY_PREFIX ++ metric ++ &"/" ++ day ++ &"/") in
  match r with
  | Err _ => Ret None
  | Ok keys =>
    let* f := open_frozen primary keys (∅, 0%N) ∅ in
    let* o := open_segments (primary :: peers) (SEG_PREFIX ++ metric ++ &"/" ++ day ++ &"/") f.2 ∅ f.1
                (negb (bool_decide (f.2 = ∅))) in
    Ret (if o.2 then Some (rank_summary o.1.1 o.1.2) else None)
  end.

Fixpoint read_summaries (primary : Bucket) (tags : list str) (metric day : str) (acc : gmap str N * N) (found : bool)
    : prog ((gmap str N * N) * bool) :=
  match tags with
  | [] => Ret (acc, found)
  | t :: tags =>
    let* r := get primary (summary_key metric day t) in
    match r with
    | Ok (Some bytes) =>
      match decode bytes with
      | Some s => read_summaries primary tags metric day (foldl add_to acc.1 (by_key (top s)), (acc.2 + total s)%N) true
      | None => read_summaries primary tags metric day acc found
      end
    | _ => read_summaries primary tags metric day acc found
    end
  end.
Fixpoint summary_days (primary : Bucket) (peers : list Bucket) (tags : list str) (metric close_cutoff : str) (days : list str)
    (out : gmap str DaySummary) : prog (gmap str DaySummary) :=
  match days with
  | [] => Ret out
  | ds :: days =>
    let* r := read_summaries primary tags metric ds (∅, 0%N) false in
    if r.2 then summary_days primary peers tags metric close_cutoff days (<[ds := rank_summary r.1.1 r.1.2]> out)
    else if leb close_cutoff ds then
      let* s := summarize_open_day primary peers metric ds in
      summary_days primary peers tags metric close_cutoff days (match s with Some s => <[ds := s]> out | None => out end)
    else summary_days primary peers tags metric close_cutoff days out
  end.
Definition query_summaries (day_str : Z -> str) (primary : Bucket) (peers : list Bucket) (tags : list str)
    (metric close_cutoff : str) (from to : Z) : prog (gmap str DaySummary) :=
  summary_days primary peers tags metric close_cutoff (day_str <$> days_between from to) ∅.
End engine.
End Rollup.
