(* ===== verification/Freeze.v ===== *)
(** * What a rollup pass keeps (src/counters.rs)

    A pass moves counts from segments into rollups and deletes the segments. The
    theorem here says that at every moment of it, whatever fails, each bucket
    still tells the same counts for every retained day-shard. *)
From stdpp Require Import functions.
From S2P Require Import Prelude RustStr Documents Storage Counters Rollup.
Import Storage Counters Rollup.

Module Freeze.

(** ** Keys *)

Definition seg_id (key : str) : option SegId :=
  match key_parts key with
  | Some [kind; metric; day; shard; _] =>
    if bool_decide (kind = &"seg") then (fun s => (metric, day, s)) <$> first_char shard else None
  | _ => None
  end.

(** The day-shard a rollup of [bucket] is for. *)
Definition rollup_id (bucket key : str) : option SegId :=
  match key_parts key with
  | Some [kind; metric; day; file] =>
    if bool_decide (kind = &"day") then
      match split_rollup_file file with
      | Some (stem, owner) =>
        if bool_decide (owner = bucket) && negb (bool_decide (stem = SUMMARY_STEM))
        then (fun s => (metric, day, s)) <$> first_char stem else None
      | None => None
      end
    else None
  | _ => None
  end.

Definition rollup_key (bucket : str) (id : SegId) : str := frozen_key id.1.1 id.1.2 id.2 bucket.

Definition shard_byte (c : ascii) : bool := is_ascii_alphanumeric c || bool_decide (c = "_"%char).
Definition good_id (id : SegId) : Prop :=
  ("/"%char ∉ id.1.1) /\ ("/"%char ∉ id.1.2) /\ exists c, id.2 = [c] /\ shard_byte c = true.
Definition good_tag (t : str) : Prop := t ≠ [] /\ ("/"%char ∉ t) /\ ("@"%char ∉ t).

Lemma shard_byte_facts c : shard_byte c = true -> c ≠ "/"%char /\ c ≠ "@"%char /\ is_ascii c = true.
Proof. by_bytes c. Qed.

Lemma first_char_ascii c s : is_ascii c = true -> first_char (c :: s) = Some [c].
Proof. intros Hc. unfold first_char. by destruct (chars_ascii c s Hc) as [r ->]. Qed.

Lemma day_parts metric day file :
  "/"%char ∉ metric -> "/"%char ∉ day -> "/"%char ∉ file ->
  key_parts (DAY_PREFIX ++ metric ++ &"/" ++ day ++ &"/" ++ file) = Some [&"day"; metric; day; file].
Proof.
  intros Hm Hd Hf. unfold key_parts. change DAY_PREFIX with (PREFIX ++ &"day/"). rewrite <- app_assoc, strip_prefix_app.
  cbn [fmap option_fmap option_map]. f_equal. change (&"day/") with (&"day" ++ &"/"). rewrite <- app_assoc.
  change (&"/") with ["/"%char]. cbn [app]. rewrite !split_app_sep, split_no_sep; try done.
  rewrite list_elem_of_In. cbn. naive_solver.
Qed.

Lemma no_slash_file stem t : "/"%char ∉ stem -> "/"%char ∉ t -> "/"%char ∉ stem ++ &"@" ++ t ++ &".json".
Proof.
  rewrite !elem_of_app. intros H1 H2 [?|[H|[?|H]]]; [done| |done|]; apply list_elem_of_In in H; cbn in H; naive_solver.
Qed.

Lemma split_rollup stem t :
  "@"%char ∉ stem -> stem ≠ [] -> t ≠ [] -> split_rollup_file (stem ++ &"@" ++ t ++ &".json") = Some (stem, t).
Proof.
  intros Hs Hs' Ht. unfold split_rollup_file. rewrite !(app_assoc _ _ (&".json")), strip_suffix_app.
  change (&"@") with ["@"%char]. cbn [app]. rewrite split_once_app by done. by rewrite !bool_decide_false.
Qed.

Lemma rollup_key_parts t id : good_id id -> good_tag t ->
  key_parts (rollup_key t id) = Some [&"day"; id.1.1; id.1.2; id.2 ++ &"@" ++ t ++ &".json"].
Proof.
  intros (Hm & Hd & c & Hc & Hb) (Ht & Hs & Ha). unfold rollup_key, frozen_key. apply day_parts; [done|done|].
  apply no_slash_file; [|done]. rewrite Hc, list_elem_of_singleton. destruct (shard_byte_facts c Hb). congruence.
Qed.

Lemma summary_key_parts metric day t : "/"%char ∉ metric -> "/"%char ∉ day -> good_tag t ->
  key_parts (summary_key metric day t) = Some [&"day"; metric; day; SUMMARY_STEM ++ &"@" ++ t ++ &".json"].
Proof.
  intros Hm Hd (Ht & Hs & Ha). unfold summary_key. apply day_parts; [done|done|]. apply no_slash_file; [|done].
  rewrite list_elem_of_In. cbn. naive_solver.
Qed.

Lemma rollup_id_key t t' id : good_id id -> good_tag t -> rollup_id t' (rollup_key t id) = if decide (t = t') then Some id else None.
Proof.
  intros Hid Ht. unfold rollup_id. rewrite rollup_key_parts by done. rewrite bool_decide_true by done.
  destruct id as [[m d] s], Hid as (Hm & Hd & c & Hc & Hb), Ht as (Ht & Hs & Ha). cbn [fst snd] in *. subst s.
  destruct (shard_byte_facts c Hb) as (H1 & H2 & H3).
  rewrite split_rollup by (rewrite ?list_elem_of_singleton; congruence).
  rewrite (bool_decide_false ([c] = _)) by done. case_decide as Hd'.
  - rewrite bool_decide_true by done. cbn [negb andb]. by rewrite first_char_ascii.
  - by rewrite bool_decide_false.
Qed.

Lemma seg_id_key t id : good_id id -> good_tag t -> seg_id (rollup_key t id) = None.
Proof. intros. unfold seg_id. by rewrite rollup_key_parts. Qed.

Lemma day_of_key t id : good_id id -> good_tag t -> day_of (rollup_key t id) = Some id.1.2.
Proof. intros. unfold day_of. rewrite rollup_key_parts by done. by rewrite bool_decide_true. Qed.

Lemma day_of_seg key id : seg_id key = Some id -> day_of key = Some id.1.2.
Proof.
  unfold seg_id, day_of. destruct (key_parts key) as [[|k [|m [|d [|s [|f [|]]]]]]|]; try done.
  case_bool_decide; [|done]. intros (c & _ & ->)%fmap_Some. done.
Qed.

Lemma summary_is_neither t t' metric day : "/"%char ∉ metric -> "/"%char ∉ day -> good_tag t ->
  rollup_id t' (summary_key metric day t) = None /\ seg_id (summary_key metric day t) = None.
Proof.
  intros Hm Hd Ht. unfold rollup_id, seg_id. rewrite summary_key_parts by done. split; [|done].
  rewrite bool_decide_true by done. destruct Ht as (Ht & Hs & Ha). rewrite split_rollup; [|rewrite list_elem_of_In; cbn; naive_solver|done|done].
  rewrite (bool_decide_true (SUMMARY_STEM = SUMMARY_STEM)) by done. by rewrite andb_false_r.
Qed.

Lemma rollup_key_inj t t' id id' : good_id id -> good_id id' -> good_tag t -> good_tag t' ->
  rollup_key t id = rollup_key t' id' -> t = t' /\ id = id'.
Proof.
  intros Hi Hi' Ht Ht' Heq. pose proof (rollup_id_key t t' id Hi Ht) as H1. rewrite Heq, rollup_id_key in H1 by done.
  rewrite decide_True in H1 by done. case_decide; naive_solver.
Qed.

(** A day component never holds a slash. *)
Lemma split_clean c s x : x ∈ split c s -> c ∉ x.
Proof.
  revert x. induction s as [|d s IH]; cbn [split]; intros x.
  { intros ->%list_elem_of_singleton. apply not_elem_of_nil. }
  case_decide as Hd.
  { intros [->|Hx]%elem_of_cons; [apply not_elem_of_nil|by apply IH]. }
  destruct (split c s) as [|p ps].
  - intros ->%list_elem_of_singleton. by rewrite list_elem_of_singleton.
  - intros [->|Hx]%elem_of_cons.
    + apply not_elem_of_cons. split; [done|]. apply IH, list_elem_of_here.
    + apply IH. by apply list_elem_of_further.
Qed.

Lemma parts_clean key parts x : key_parts key = Some parts -> x ∈ parts -> "/"%char ∉ x.
Proof. unfold key_parts. intros (rest & _ & ->)%fmap_Some. apply split_clean. Qed.

Lemma seg_id_clean k id : seg_id k = Some id -> ("/"%char ∉ id.1.1) /\ ("/"%char ∉ id.1.2).
Proof.
  unfold seg_id. destruct (key_parts k) as [[|a [|m [|d [|s [|f [|]]]]]]|] eqn:Hp; try done.
  case_bool_decide; [|done]. intros (c & _ & ->)%fmap_Some. cbn.
  split; eapply parts_clean; try exact Hp; rewrite !elem_of_cons; auto.
Qed.

Lemma day_prefix_no_seg k : starts_with DAY_PREFIX k = true -> seg_id k = None.
Proof.
  intros [rest ->]%starts_with_true. unfold seg_id, key_parts.
  change (DAY_PREFIX ++ rest) with (PREFIX ++ &"day" ++ "/"%char :: rest). rewrite strip_prefix_app.
  cbn [fmap option_fmap option_map]. rewrite split_app_sep by (rewrite list_elem_of_In; cbn; naive_solver).
  by destruct (split "/"%char rest) as [|m [|d [|s [|f [|]]]]].
Qed.

Lemma parts_prefix k : is_Some (key_parts k) -> starts_with PREFIX k = true.
Proof.
  unfold key_parts. rewrite fmap_is_Some. intros [rest Hr]. apply starts_with_true. exists rest.
  by apply strip_prefix_Some.
Qed.

Lemma seg_id_prefix k id : seg_id k = Some id -> starts_with PREFIX k = true.
Proof. unfold seg_id. intros H. apply parts_prefix. by destruct (key_parts k). Qed.
Lemma rollup_id_prefix t k id : rollup_id t k = Some id -> starts_with PREFIX k = true.
Proof. unfold rollup_id. intros H. apply parts_prefix. by destruct (key_parts k). Qed.

(** ** The layout *)

Lemma parse_key_frozen t l k :
  frozen (parse_key t l k) = match rollup_id t k with Some id => {[id]} ∪ frozen l | None => frozen l end.
Proof.
  unfold parse_key, rollup_id. destruct (key_parts k) as [[|a [|m [|d [|s [|f [|]]]]]]|]; try done.
  - case_bool_decide; [|done]. destruct (split_rollup_file s) as [[stem owner]|]; [|done].
    do 2 case_bool_decide; cbn [negb andb]; try done. by destruct (first_char stem).
  - case_bool_decide; [|done]. by destruct (first_char s).
Qed.

Lemma parse_key_segments t l k :
  segments (parse_key t l k)
  = match seg_id k with Some id => <[id := default [] (segments l !! id) ++ [k]]> (segments l) | None => segments l end.
Proof.
  unfold parse_key, seg_id. destruct (key_parts k) as [[|a [|m [|d [|s [|f [|]]]]]]|]; try done.
  - case_bool_decide; [|done]. destruct (split_rollup_file s) as [[stem owner]|]; [|done].
    do 2 case_bool_decide; cbn [negb andb]; try done. by destruct (first_char stem).
  - case_bool_decide; [|done]. by destruct (first_char s).
Qed.

Lemma layout_frozen t id keys : id ∈ frozen (layout_parse keys t) <-> exists k, k ∈ keys /\ rollup_id t k = Some id.
Proof.
  unfold layout_parse. induction keys as [|k keys IH] using rev_ind; cbn.
  { split; [set_solver|]. intros (k & Hk & _). by apply not_elem_of_nil in Hk. }
  rewrite foldl_app. cbn [foldl]. rewrite parse_key_frozen. setoid_rewrite elem_of_app. setoid_rewrite list_elem_of_singleton.
  destruct (rollup_id t k) as [id'|] eqn:Hk; [rewrite elem_of_union, elem_of_singleton|]; rewrite IH; naive_solver.
Qed.

Lemma layout_segments t id keys l :
  segments (layout_parse keys t) !! id = Some l -> l = filter (fun k => seg_id k = Some id) keys /\ l ≠ [].
Proof.
  assert (default [] (segments (layout_parse keys t) !! id) = filter (fun k => seg_id k = Some id) keys
    /\ segments (layout_parse keys t) !! id ≠ Some []) as [H1 H2].
  { unfold layout_parse. induction keys as [|k keys IH] using rev_ind; [done|].
    rewrite foldl_app, filter_app, filter_cons, filter_nil. cbn [foldl]. rewrite parse_key_segments.
    destruct (seg_id k) as [id'|] eqn:Hk.
    - destruct (decide (id' = id)) as [->|Hne].
      + rewrite lookup_insert_eq, decide_True by done. destruct IH as [<- _]. split; [done|].
        intros [= Heq]. by destruct (default [] _).
      + rewrite lookup_insert_ne by done. rewrite decide_False by congruence. by rewrite app_nil_r.
    - rewrite decide_False by done. by rewrite app_nil_r. }
  intros Hl. rewrite Hl in *. cbn in H1. split; [done|congruence].
Qed.

Section fleet.
Context {E : Etags} {CS : Codec Segment} {CD : Codec DaySummary} (leases : bool) (resolution : Z).

(** ** What a bucket tells of a day-shard *)

Definition seg_objects (s : store) (id : SegId) : gmap str str :=
  filter (fun o : str * str => seg_id o.1 = Some id) (obj_bytes <$> objects s).
Definition sum_bodies (l : list (str * str)) : BucketMap :=
  foldl (fun acc (o : str * str) => merge_bucketmap acc (seg_buckets (read_segment o.2))) ∅ l.

(** The rollup of the bucket, or else the sum of its segments: what
    [read_day_shard] takes from the bucket. *)
Definition own_total (t : str) (s : store) (id : SegId) : BucketMap :=
  match contents s (rollup_key t id) with
  | Some bytes => seg_buckets (read_segment bytes)
  | None => sum_bodies (by_key (seg_objects s id))
  end.

Definition own_key (t : str) (id : SegId) (k : str) : Prop := seg_id k = Some id \/ k = rollup_key t id.

Lemma lookup_seg_objects s id k : seg_objects s id !! k = if decide (seg_id k = Some id) then contents s k else None.
Proof.
  unfold seg_objects. rewrite map_lookup_filter, lookup_fmap. fold (contents s k). destruct (contents s k); cbn; [|by case_decide].
  by repeat case_guard; repeat case_decide.
Qed.

Lemma own_total_frame t s s' id :
  (forall k, own_key t id k -> contents s' k = contents s k) -> own_total t s' id = own_total t s id.
Proof.
  intros Hk. unfold own_total. rewrite (Hk (rollup_key t id)) by (by right). destruct (contents s _); [done|]. do 2 f_equal.
  apply map_eq. intros k. rewrite !lookup_seg_objects. case_decide; [|done]. apply Hk. by left.
Qed.

(** The sum over a list of keys, as [sum_segments] reads them. *)
Definition sum_keys (s : store) (l : list str) (acc : BucketMap) : BucketMap :=
  foldl (fun acc k => match contents s k with
                      | Some bytes => merge_bucketmap acc (seg_buckets (read_segment bytes))
                      | None => acc
                      end) acc l.

Lemma sum_keys_same s s' l : (forall k, k ∈ l -> contents s' k = contents s k) -> forall acc, sum_keys s' l acc = sum_keys s l acc.
Proof.
  induction l as [|k l IH]; intros Hl acc; [done|]. cbn. rewrite (Hl k) by apply list_elem_of_here. apply IH.
  intros x Hx. apply Hl. by apply list_elem_of_further.
Qed.

Lemma sum_keys_bodies s l acc : (forall p, p ∈ l -> contents s p.1 = Some p.2) ->
  sum_keys s l.*1 acc = foldl (fun acc (o : str * str) => merge_bucketmap acc (seg_buckets (read_segment o.2))) acc l.
Proof.
  revert acc. induction l as [|p l IH]; intros acc Hl; [done|]. cbn. rewrite (Hl p) by apply list_elem_of_here.
  apply IH. intros x Hx. apply Hl. by apply list_elem_of_further.
Qed.

(** ** Listings *)

Definition listing (s : store) : list str := (list_where (starts_with PREFIX) s).*1.

Lemma elem_of_listing s k : k ∈ listing s <-> starts_with PREFIX k = true /\ present s k.
Proof.
  unfold listing, present, contents. rewrite list_elem_of_fmap. split.
  - intros ([k' o] & -> & [H1 H2]%elem_of_list_where). cbn in *. rewrite H2. eauto.
  - intros [H1 [x Hx]]. apply fmap_Some in Hx as (o & Ho & _). exists (k, o). by rewrite elem_of_list_where.
Qed.

Lemma sorted_fst {V} (l : list (str * V)) :
  StronglySorted (fun x y => str_le x.1 y.1) l -> StronglySorted str_le l.*1.
Proof.
  induction 1 as [|x l _ IH Hall]; cbn; constructor; [done|]. rewrite Forall_fmap. exact Hall.
Qed.

Lemma by_key_sorted {V} (m : gmap str V) : StronglySorted str_le (by_key m).*1 /\ NoDup (by_key m).*1.
Proof.
  split.
  - apply sorted_fst. unfold by_key. apply StronglySorted_merge_sort.
    + intros x y z. unfold str_le. apply leb_trans.
    + intros x y. apply str_le_total.
  - rewrite by_key_perm. apply NoDup_fst_map_to_list.
Qed.

(** The segments of a day-shard, as the layout lists them. *)
Lemma listed_segments s id :
  filter (fun k => seg_id k = Some id) (listing s) = (by_key (seg_objects s id)).*1.
Proof.
  destruct (by_key_sorted (seg_objects s id)) as [Hs Hn]. apply sorted_unique; [|done| |done|].
  - apply sorted_filter, sorted_fst, listing_sorted.
  - apply NoDup_filter, listing_NoDup.
  - intros k. rewrite list_elem_of_filter, elem_of_listing, list_elem_of_fmap. split.
    + intros (Hid & _ & [x Hx]). exists (k, x). split; [done|]. by rewrite elem_of_by_key, lookup_seg_objects, decide_True.
    + intros ([k' x] & -> & Hx%elem_of_by_key). rewrite lookup_seg_objects in Hx. case_decide as Hid; [|done].
      cbn. split; [done|]. split; [by eapply seg_id_prefix|by exists x].
Qed.

Lemma sum_listed t s id : contents s (rollup_key t id) = None ->
  sum_keys s (filter (fun k => seg_id k = Some id) (listing s)) ∅ = own_total t s id.
Proof.
  intros Hn. unfold own_total. rewrite Hn, listed_segments. apply sum_keys_bodies.
  intros [k x] Hx%elem_of_by_key. rewrite lookup_seg_objects in Hx. by case_decide.
Qed.

(** ** The invariant of a pass *)

Context (F : list Bucket) (retain : str) (w0 : world).

(** Distinct buckets have distinct stores and tags. *)
Definition fleet_ok : Prop :=
  (forall a c, a ∈ F -> c ∈ F -> at_ a = at_ c \/ tag a = tag c -> a = c) /\ (forall a, a ∈ F -> good_tag (tag a)).

Definition kept (id : SegId) : Prop := good_id id /\ leb retain id.1.2 = true.

(** A mirrored rollup is the one its author holds. *)
Definition mirrors_agree (w : world) : Prop := forall a c id x, a ∈ F -> c ∈ F -> kept id ->
  contents (w (at_ c)) (rollup_key (tag a) id) = Some x -> contents (w (at_ a)) (rollup_key (tag a) id) = Some x.

Definition same_totals (w : world) : Prop := forall c id, c ∈ F -> kept id ->
  own_total (tag c) (w (at_ c)) id = own_total (tag c) (w0 (at_ c)) id.

Definition Inv (w : world) : Prop := wf_world w /\ same_totals w /\ mirrors_agree w.

Hypothesis HF : fleet_ok.

Lemma tag_ok c : c ∈ F -> good_tag (tag c).
Proof. apply HF. Qed.

(** A change of one bucket's store that keeps the invariant. *)
Lemma inv_change w c s : Inv w -> c ∈ F -> wf_store s ->
  (forall id, kept id -> own_total (tag c) s id = own_total (tag c) (w (at_ c)) id) ->
  (forall id, kept id -> contents (w (at_ c)) (rollup_key (tag c) id) = None
    \/ contents s (rollup_key (tag c) id) = contents (w (at_ c)) (rollup_key (tag c) id)) ->
  (forall a id, a ∈ F -> a ≠ c -> kept id -> contents s (rollup_key (tag a) id) = contents (w (at_ c)) (rollup_key (tag a) id)
    \/ contents s (rollup_key (tag a) id) = contents (w (at_ a)) (rollup_key (tag a) id)) ->
  Inv (<[at_ c := s]> w).
Proof.
  intros (Hw & Ht & Ha) Hc Hs Hown Hmine Htheirs.
  assert (forall a, a ∈ F -> a = c /\ (<[at_ c := s]> w) (at_ a) = s \/ a ≠ c /\ (<[at_ c := s]> w) (at_ a) = w (at_ a)) as Hcase.
  { intros a Haf. destruct (decide (at_ a = at_ c)) as [Heq|Hne].
    - left. rewrite Heq, fn_lookup_insert. split; [apply HF; auto|done].
    - right. rewrite fn_lookup_insert_ne by done. split; [congruence|done]. }
  split_and!.
  - intros b. destruct (decide (at_ c = b)) as [<-|Hne]; [by rewrite fn_lookup_insert|by rewrite fn_lookup_insert_ne].
  - intros a id Haf Hid. destruct (Hcase a Haf) as [[-> ->]|[_ ->]]; [rewrite Hown by done|]; by apply Ht.
  - intros a d id x Haf Hdf Hid. destruct (Hcase a Haf) as [[-> ->]|[Hne ->]], (Hcase d Hdf) as [[-> ->]|[Hne' ->]]; [done| | |].
    + intros Hx. pose proof (Ha c d id x Hc Hdf Hid Hx) as Hx'. destruct (Hmine id Hid); congruence.
    + destruct (Htheirs a id Haf Hne Hid) as [->| ->]; [|done]. by apply Ha.
    + by apply Ha.
Qed.

Lemma step_wf w c R (o : op R) r s : Inv w -> op_step o (w (at_ c)) r s -> wf_store s.
Proof. intros [Hw _] Hs. eapply wf_op_step; [apply Hw|done]. Qed.

(** Deleting keeps it when a deleted segment's rollup stands and no rollup of a
    kept day goes. *)
Lemma inv_delete w c ks r s : Inv w -> c ∈ F -> op_step (DeleteKeys ks) (w (at_ c)) r s ->
  (forall k id, k ∈ ks -> kept id -> seg_id k = Some id -> present (w (at_ c)) (rollup_key (tag c) id)) ->
  (forall k t id, k ∈ ks -> kept id -> good_tag t -> k ≠ rollup_key t id) ->
  Inv (<[at_ c := s]> w).
Proof.
  intros HI Hc Hs Hseg Hroll.
  assert (forall k, k ∉ ks -> contents s k = contents (w (at_ c)) k) as Hframe.
  { intros k Hk. eapply op_step_frame; [apply HI|exact Hs|done]. }
  assert (forall t id, kept id -> good_tag t -> contents s (rollup_key t id) = contents (w (at_ c)) (rollup_key t id)) as Hr.
  { intros t id Hid Ht. apply Hframe. intros Hk. by apply (Hroll _ t id Hk Hid Ht). }
  apply inv_change; [done|done|by eapply step_wf| | |].
  - intros id Hid. unfold own_total at 1. rewrite Hr by (done || by apply tag_ok).
    destruct (contents (w (at_ c)) (rollup_key (tag c) id)) as [x|] eqn:Hx; [by unfold own_total; rewrite Hx|].
    transitivity (own_total (tag c) s id); [unfold own_total; by rewrite Hr, Hx by (done || by apply tag_ok)|].
    apply own_total_frame. intros k [Hk| ->]; [|by apply Hr, tag_ok]. apply Hframe. intros Hin.
    destruct (Hseg k id Hin Hid Hk) as [x Hx']. congruence.
  - intros id Hid. right. by apply Hr, tag_ok.
  - intros a id Ha _ Hid. left. by apply Hr, tag_ok.
Qed.

(** Freezing keeps it: the rollup says what the segments said. *)
Lemma inv_freeze w c id bytes r s : Inv w -> c ∈ F -> good_id id -> contents (w (at_ c)) (rollup_key (tag c) id) = None ->
  seg_buckets (read_segment bytes) = own_total (tag c) (w (at_ c)) id ->
  op_step (PutBytes (rollup_key (tag c) id) bytes) (w (at_ c)) r s -> Inv (<[at_ c := s]> w).
Proof.
  intros HI Hc Hid Hnone Hsum Hs. pose proof (tag_ok c Hc) as Htc.
  assert (forall k, k ≠ rollup_key (tag c) id -> contents s k = contents (w (at_ c)) k) as Hframe.
  { intros k Hk. eapply op_step_frame; [apply HI|exact Hs|]. cbn [names_key]. congruence. }
  assert (forall t id', good_id id' -> good_tag t -> t ≠ tag c \/ id' ≠ id -> rollup_key t id' ≠ rollup_key (tag c) id) as Hne.
  { intros t id' Hid' Ht Hor Heq. apply rollup_key_inj in Heq as [? ?]; naive_solver. }
  apply inv_change; [done|done|by eapply step_wf| | |].
  - intros id' Hid'. destruct (decide (id' = id)) as [->|Hd].
    + pose proof (op_step_effect _ _ _ _ _ (rollup_key (tag c) id) (proj1 HI _) Hs) as [Heq|[_ Heq]].
      * apply own_total_frame. intros k _. destruct (decide (k = rollup_key (tag c) id)) as [->|]; auto.
      * unfold own_total at 1. rewrite Heq. exact Hsum.
    + apply own_total_frame. intros k Hk. apply Hframe. intros ->. destruct Hk as [Hk|Hk].
      * by rewrite seg_id_key in Hk.
      * symmetry in Hk. revert Hk. apply Hne; [apply Hid'|done|by right].
  - intros id' Hid'. destruct (decide (id' = id)) as [->|Hd]; [by left|right]. apply Hframe, Hne; [apply Hid'|done|by right].
  - intros a id' Ha Hac Hid'. left. apply Hframe, Hne; [apply Hid'|by apply tag_ok|]. left. intros Heq. apply Hac. apply HF; auto.
Qed.

(** Any other write keeps it when it writes no segment, and over a rollup only
    what the author holds. *)
Definition copies (w : world) (key bytes : str) : Prop :=
  forall a id, a ∈ F -> kept id -> key = rollup_key (tag a) id -> contents (w (at_ a)) key = Some bytes.

Lemma inv_copy w c key bytes r s : Inv w -> c ∈ F -> seg_id key = None -> copies w key bytes ->
  op_step (PutBytes key bytes) (w (at_ c)) r s -> Inv (<[at_ c := s]> w) /\ copies (<[at_ c := s]> w) key bytes.
Proof.
  intros HI Hc Hseg Hcopy Hs.
  assert (forall k, contents s k = contents (w (at_ c)) k \/ k = key /\ contents s k = Some bytes) as Heff.
  { intros k. destruct (op_step_effect _ _ _ _ _ k (proj1 HI _) Hs) as [->|[-> ->]]; auto. }
  assert (forall id, kept id -> contents s (rollup_key (tag c) id) = contents (w (at_ c)) (rollup_key (tag c) id)) as Hmine.
  { intros id Hid. destruct (Heff (rollup_key (tag c) id)) as [->|[Heq ->]]; [done|].
    symmetry. rewrite Heq. by apply (Hcopy c id). }
  split.
  - apply inv_change; [done|done|by eapply step_wf| | |].
    + intros id Hid. apply own_total_frame. intros k [Hk| ->]; [|by apply Hmine].
      destruct (Heff k) as [?|[-> _]]; [done|congruence].
    + intros id Hid. right. by apply Hmine.
    + intros a id Ha _ Hid. destruct (Heff (rollup_key (tag a) id)) as [->|[Heq ->]]; [by left|right].
      symmetry. rewrite Heq. by apply (Hcopy a id).
  - intros a id Ha Hid Heq. destruct (decide (at_ a = at_ c)) as [Hat|Hat].
    + rewrite Hat, fn_lookup_insert. destruct (Heff key) as [->|[_ ->]]; [|done]. rewrite <- Hat. by apply (Hcopy a id).
    + rewrite fn_lookup_insert_ne by done. by apply (Hcopy a id).
Qed.

(** ** The programs *)

(** Reads through the adapter answer what the store holds, or fail. *)
Lemma holds_adapter_get A (I : world -> Prop) (Q : A -> world -> Prop) b key k w : I w ->
  (forall r, r = Ok (contents (w (at_ b)) key) \/ (exists e, r = Err e) -> holds I Q (k r) w) ->
  holds I Q (pbind (get leases b key) k) w.
Proof.
  intros HI Hk. unfold get. destruct leases; (split; [exact HI|]); intros r s Hs.
  - assert (s = w (at_ b)) as -> by (eapply op_step_read; [|exact Hs]; done). rewrite fn_insert_id.
    destruct r as [o|e]; cbn; apply Hk; [left|right; eauto]. by rewrite (get_with_etag_answer _ _ _ _ o Hs eq_refl).
  - assert (s = w (at_ b)) as -> by (eapply op_step_read; [|exact Hs]; done). rewrite fn_insert_id.
    destruct r as [bytes|e]; cbn; apply Hk.
    + left. by rewrite (get_bytes_answer _ _ _ _ _ Hs eq_refl).
    + unfold is_not_found. case_bool_decide as He; [left|right; eauto]. subst e.
      by rewrite (get_bytes_not_found _ _ _ _ Hs eq_refl).
Qed.

Lemma holds_adapter_list A (I : world -> Prop) (Q : A -> world -> Prop) b prefix k w : I w ->
  (forall r, r = Ok (list_where (starts_with prefix) (w (at_ b))).*1 \/ (exists e, r = Err e) -> holds I Q (k r) w) ->
  holds I Q (pbind (list_ b prefix) k) w.
Proof.
  intros HI Hk. split; [exact HI|]. intros r s Hs.
  assert (s = w (at_ b)) as -> by (eapply op_step_read; [|exact Hs]; done). rewrite fn_insert_id.
  destruct r as [l|e]; cbn; apply Hk; [left|right; eauto].
  rewrite (list_all_answer _ _ _ _ _ Hs eq_refl). unfold list_all. by rewrite <- list_fmap_compose.
Qed.

Lemma holds_sum_keys (I : world -> Prop) b l w : I w -> forall acc,
  holds I (fun r w' => w' = w /\ (r = Some (sum_keys (w (at_ b)) l acc) \/ r = None)) (sum_segments leases b l acc) w.
Proof.
  intros HI. induction l as [|key l IH]; intros acc; cbn [sum_segments].
  { apply holds_ret; [done|]. auto. }
  apply holds_adapter_get; [done|]. intros r [->|[e ->]]; [|apply holds_ret; auto].
  change (sum_keys (w (at_ b)) (key :: l) acc) with (sum_keys (w (at_ b)) l (match contents (w (at_ b)) key with
    | Some bytes => merge_bucketmap acc (seg_buckets (read_segment bytes)) | None => acc end)).
  destruct (contents (w (at_ b)) key); apply IH.
Qed.

Lemma seq_holds A B I (Q : A -> world -> Prop) (Q' : B -> world -> Prop) (p : prog A) (f : A -> prog B) w :
  holds I Q p w -> (forall a w', I w' -> Q a w' -> holds I Q' (f a) w') -> holds I Q' (pbind p f) w.
Proof. intros Hp Hf. apply holds_bind. eapply holds_mono; [|exact Hp]. auto. Qed.

(** The change of one step of a pass over a bucket: only that store, and of it
    only the keys of one day-shard. *)
Definition touches (c : Bucket) (P : str -> Prop) (w w' : world) : Prop :=
  (forall b, b ≠ at_ c -> w' b = w b) /\ forall k, ~ P k -> contents (w' (at_ c)) k = contents (w (at_ c)) k.

Lemma touches_refl c P w : touches c P w w.
Proof. done. Qed.

Lemma touches_step c (P : str -> Prop) w w' R (o : op R) r s : wf_world w' -> touches c P w w' ->
  (forall k, names_key o k -> P k) -> op_step o (w' (at_ c)) r s -> touches c P w (<[at_ c := s]> w').
Proof.
  intros Hw [H1 H2] Ho Hs. split.
  - intros b Hb. rewrite fn_lookup_insert_ne by done. by apply H1.
  - intros k Hk. rewrite fn_lookup_insert, <- H2 by done. eapply op_step_frame; [apply Hw|exact Hs|]. auto.
Qed.

(** What the pass knows of a day-shard it is about to freeze or sweep. *)
Definition ready (c : Bucket) (already : gset SegId) (e : SegId * list str) (w : world) : Prop :=
  good_id e.1 /\ (forall k, k ∈ e.2 -> seg_id k = Some e.1)
  /\ (e.1 ∈ already -> present (w (at_ c)) (rollup_key (tag c) e.1))
  /\ (e.1 ∉ already -> contents (w (at_ c)) (rollup_key (tag c) e.1) = None
      /\ sum_keys (w (at_ c)) e.2 ∅ = own_total (tag c) (w (at_ c)) e.1).

Lemma ready_stable c already e id w w' : c ∈ F -> good_id id -> e.1 ≠ id -> touches c (own_key (tag c) id) w w' ->
  ready c already e w -> ready c already e w'.
Proof.
  intros Hc Hid Hne [_ Ht] (Hg & Hk & Hp & Hn). pose proof (tag_ok c Hc) as Htag.
  assert (forall k, own_key (tag c) e.1 k -> contents (w' (at_ c)) k = contents (w (at_ c)) k) as Hsame.
  { intros k Hke. apply Ht. intros [Hk2| ->]; destruct Hke as [Hk1|Hk1].
    - congruence.
    - subst k. by rewrite seg_id_key in Hk2.
    - by rewrite seg_id_key in Hk1.
    - apply rollup_key_inj in Hk1 as [_ ->]; done. }
  split_and!; [done|done| |].
  - intros Ha. unfold present. rewrite Hsame by (by right). by apply Hp.
  - intros Ha. destruct (Hn Ha) as [H1 H2]. rewrite Hsame by (by right). split; [done|].
    rewrite (sum_keys_same (w (at_ c))), H2; [symmetry; by apply own_total_frame|].
    intros k Hin. apply Hsame. left. by apply Hk.
Qed.

Lemma holds_delete A I (Q : A -> world -> Prop) c ks k w : wf_world w -> I w ->
  (forall r s, op_step (DeleteKeys ks) (w (at_ c)) r s -> holds I Q (k r) (<[at_ c := s]> w)) ->
  holds I Q (pbind (delete_ c ks) k) w.
Proof. intros Hw HI Hk. apply holds_call; [done|done|]. intros r s Hs _. by apply Hk. Qed.

Lemma sweep_inv c id ks w r s : Inv w -> c ∈ F -> good_id id -> (forall k, k ∈ ks -> seg_id k = Some id) ->
  present (w (at_ c)) (rollup_key (tag c) id) -> op_step (DeleteKeys ks) (w (at_ c)) r s -> Inv (<[at_ c := s]> w).
Proof.
  intros HI Hc Hid Hks Hp Hs. eapply inv_delete; [done|done|exact Hs| |].
  - intros k id' Hk _ Hseg. rewrite (Hks k Hk) in Hseg. by injection Hseg as <-.
  - intros k t id' Hk [Hg _] Ht ->. pose proof (Hks _ Hk) as Hseg. by rewrite seg_id_key in Hseg.
Qed.

Definition clean (p : str * str) : Prop := ("/"%char ∉ p.1) /\ ("/"%char ∉ p.2).
(** The days to summarise are clean, and a bucket's rollups are under [day/]. *)
Definition pass_ok (st : Pass) : Prop :=
  (forall p, p ∈ to_summarize st -> clean p) /\ (forall k, k ∈ rollups st -> starts_with DAY_PREFIX k = true).

Lemma freeze_one_keeps c close already st e w : c ∈ F -> Inv w -> ready c already e w -> pass_ok st ->
  holds (fun w' => Inv w' /\ touches c (own_key (tag c) e.1) w w') (fun st' _ => pass_ok st')
    (freeze_one leases resolution c close already st e) w.
Proof.
  intros Hc HI (Hg & Hks & Hp & Hn) Hst. destruct e as [[[m d] sh] ks]. cbn [fst snd] in *. unfold freeze_one. cbn [fst snd].
  pose proof (touches_refl c (own_key (tag c) (m, d, sh)) w) as Ht0. pose proof (proj1 HI) as Hw.
  destruct (leb close d); [by apply holds_ret|]. case_decide as Ha.
  { apply holds_delete; [done|done|]. intros r s Hs. apply holds_ret; [|by destruct r]. split.
    - eapply sweep_inv; [exact HI|done|exact Hg|done|by apply Hp|exact Hs].
    - eapply touches_step; [done|done| |exact Hs]. intros k Hk. left. by apply Hks. }
  destruct (Hn Ha) as [Hnone Hsum]. eapply seq_holds; [by apply holds_sum_keys|].
  intros sum w' _ [-> [->| ->]]; [|by apply holds_ret].
  apply holds_call; [done|done|]. intros r s Hs Hw'.
  assert (Inv (<[at_ c := s]> w)) as HI'.
  { eapply (inv_freeze w c (m, d, sh)); [exact HI|done|done|done| |exact Hs]. unfold read_segment. by rewrite decode_encode. }
  assert (touches c (own_key (tag c) (m, d, sh)) w (<[at_ c := s]> w)) as Ht1.
  { eapply touches_step; [done|done| |exact Hs]. intros k <-. by right. }
  destruct r as [u|err]; [|by apply holds_ret].
  apply holds_delete; [done|done|]. intros r2 s2 Hs2. apply holds_ret.
  - split; [|eapply touches_step; [exact Hw'|done| |exact Hs2]; intros k Hk; left; by apply Hks].
    eapply sweep_inv; [exact HI'|done|exact Hg|done| |exact Hs2]. rewrite fn_lookup_insert.
    destruct u. eexists. by apply (put_bytes_answer _ _ _ _ _ Hs).
  - destruct Hst as [H1 H2]. split; intros x; cbn; rewrite elem_of_union, elem_of_singleton; intros [->|Hx]; auto.
    split; apply Hg.
Qed.

Lemma freeze_loop_keeps c close already l : forall st w, c ∈ F -> Inv w -> NoDup l.*1 -> (forall e, e ∈ l -> ready c already e w) ->
  pass_ok st ->
  holds (fun w' => Inv w' /\ forall b, b ≠ at_ c -> w' b = w b) (fun st' _ => pass_ok st')
    (freeze_loop leases resolution c close already st l) w.
Proof.
  induction l as [|e l IH]; intros st w Hc HI Hnd Hl Hst; cbn [freeze_loop]; [by apply holds_ret|].
  apply NoDup_cons in Hnd as [Hni Hnd]. pose proof (Hl e (list_elem_of_here _ _)) as He. apply holds_bind.
  eapply holds_conseq; [| |apply freeze_one_keeps; [done|exact HI|exact He|done]].
  { intros w' [? [? _]]. done. }
  intros st' w' [HI' Ht] Hst'. eapply holds_conseq; [| |apply (IH st' w')]; try done.
  - intros w2 [? Hb]. split; [done|]. intros b Hbc. rewrite Hb by done. by apply Ht.
  - intros e' He'. eapply (ready_stable c already e' e.1 w); [done|apply He| |done|].
    + intros Heq. apply Hni. rewrite <- Heq. by apply list_elem_of_fmap_2.
    + apply Hl. by apply list_elem_of_further.
Qed.

(** ** Summaries, retention, and one bucket's pass *)

Definition day_shape (k : str) : Prop := seg_id k = None /\ forall t id, kept id -> good_tag t -> k ≠ rollup_key t id.

Lemma summary_shape c m d : c ∈ F -> clean (m, d) -> day_shape (summary_key m d (tag c)).
Proof.
  intros Hc [Hm Hd]. destruct (summary_is_neither (tag c) (tag c) m d Hm Hd (tag_ok c Hc)) as [_ H2]. split; [done|].
  intros t id [Hg _] Ht Heq. destruct (summary_is_neither (tag c) t m d Hm Hd (tag_ok c Hc)) as [H1 _].
  by rewrite Heq, rollup_id_key, decide_True in H1.
Qed.

Lemma summary_loop_reads c keys I w : I w -> forall acc, holds I (fun _ w' => w' = w) (summary_loop leases c keys acc) w.
Proof.
  intros HI. induction keys as [|k keys IH]; intros acc; cbn [summary_loop]; [by apply holds_ret|].
  destruct (frozen_shard_of k) as [[? bucket]|]; [|apply IH]. case_bool_decide; [|apply IH].
  apply holds_adapter_get; [done|]. intros r [->|[e ->]]; [|by apply holds_ret].
  destruct (contents _ k); [apply IH|by apply holds_ret].
Qed.

Lemma write_summary_keeps c m d w : c ∈ F -> Inv w -> clean (m, d) ->
  holds (fun w' => Inv w' /\ forall b, b ≠ at_ c -> w' b = w b)
    (fun r _ => forall key, r = Some key -> starts_with DAY_PREFIX key = true) (write_summary leases c m d) w.
Proof.
  intros Hc HI Hcl. apply holds_adapter_list; [done|]. intros r [->|[e ->]]; [|by apply holds_ret].
  eapply seq_holds; [by apply summary_loop_reads|]. intros [[totals total]|] w' _ ->; [|by apply holds_ret].
  apply holds_call; [apply HI|done|]. intros r s Hs _. destruct (summary_shape c m d Hc Hcl) as [H1 H2]. apply holds_ret.
  - split; [|intros b Hb; by rewrite fn_lookup_insert_ne].
    eapply (inv_copy w c); [done|done|exact H1| |exact Hs]. intros a id Ha Hid Heq. destruct (H2 (tag a) id Hid (tag_ok a Ha) Heq).
  - intros key Hkey. destruct r; [|done]. by injection Hkey as <-.
Qed.

Lemma summarize_loop_keeps c days : forall R w, c ∈ F -> Inv w -> (forall p, p ∈ days -> clean p) ->
  (forall k, k ∈ R -> starts_with DAY_PREFIX k = true) ->
  holds (fun w' => Inv w' /\ forall b, b ≠ at_ c -> w' b = w b) (fun R' _ => forall k, k ∈ R' -> starts_with DAY_PREFIX k = true)
    (summarize_loop leases c days R) w.
Proof.
  induction days as [|[m d] days IH]; intros R w Hc HI Hd HR; cbn [summarize_loop]; [by apply holds_ret|].
  eapply seq_holds; [apply write_summary_keeps; [done|done|apply Hd, list_elem_of_here]|].
  intros r w' [HI' Hb] Hr. eapply holds_conseq; [| |apply (IH _ w' Hc HI')]; try done.
  - intros w2 [? Hb2]. split; [done|]. intros b Hbc. rewrite Hb2 by done. by apply Hb.
  - intros p Hp. apply Hd. by apply list_elem_of_further.
  - intros k. destruct r as [key|]; [|apply HR]. rewrite elem_of_union, elem_of_singleton. intros [->|Hk]; auto.
Qed.

(** A bucket whose counter keys are the ones the program writes. *)
Definition tidy (t : str) (s : store) : Prop := forall k, present s k ->
  (forall id, seg_id k = Some id -> exists c, id.2 = [c] /\ shard_byte c = true)
  /\ (forall id, rollup_id t k = Some id -> good_id id /\ k = rollup_key t id).

Lemma layout_ready c w e : c ∈ F -> tidy (tag c) (w (at_ c)) ->
  e ∈ in_seg_order (segments (layout_parse (listing (w (at_ c))) (tag c))) ->
  ready c (frozen (layout_parse (listing (w (at_ c))) (tag c))) e w.
Proof.
  intros Hc Htidy. unfold in_seg_order. rewrite merge_sort_Permutation. destruct e as [id l].
  rewrite elem_of_map_to_list. intros [-> Hne]%layout_segments. set (s := w (at_ c)) in *.
  assert (forall k, k ∈ filter (fun k => seg_id k = Some id) (listing s) -> seg_id k = Some id /\ present s k) as Hl.
  { intros k. rewrite list_elem_of_filter, elem_of_listing. tauto. }
  assert (good_id id) as Hg.
  { destruct (filter _ (listing s)) as [|k l]; [done|]. destruct (Hl k (list_elem_of_here _ _)) as [Hk Hp].
    destruct (seg_id_clean k id Hk). destruct (Htidy k Hp) as [Hshard _]. repeat split; auto. }
  split_and!; cbn [fst snd].
  - done.
  - intros k Hk. by apply Hl.
  - rewrite layout_frozen. intros (k & [_ Hp]%elem_of_listing & Hk). destruct (Htidy k Hp) as [_ Hroll].
    destruct (Hroll id Hk) as [_ Heq]. by rewrite <- Heq.
  - intros Hn. assert (contents s (rollup_key (tag c) id) = None) as Hnone.
    { destruct (contents s (rollup_key (tag c) id)) as [x|] eqn:Hx; [|done]. destruct Hn. apply layout_frozen.
      assert (rollup_id (tag c) (rollup_key (tag c) id) = Some id) as Hid by (rewrite rollup_id_key, decide_True; auto using tag_ok).
      exists (rollup_key (tag c) id). split; [|done]. apply elem_of_listing.
      split; [by eapply rollup_id_prefix|by exists x]. }
    split; [done|]. by apply sum_listed.
Qed.

Lemma backfill_clean c w p : tidy (tag c) (w (at_ c)) ->
  p ∈ backfill retain (layout_parse (listing (w (at_ c))) (tag c)) -> clean p.
Proof.
  intros Htidy. unfold backfill. rewrite elem_of_map. intros (id & -> & [_ Hid]%elem_of_filter).
  apply layout_frozen in Hid as (k & [_ Hp]%elem_of_listing & Hk). destruct (Htidy k Hp) as [_ Hroll].
  destruct (Hroll id Hk) as [(Hm & Hd & _) _]. by split.
Qed.

Lemma retention_keeps c ks w r s : Inv w -> c ∈ F -> (forall k, k ∈ ks -> is_stale retain k = true) ->
  op_step (DeleteKeys ks) (w (at_ c)) r s -> Inv (<[at_ c := s]> w).
Proof.
  intros HI Hc Hks Hs. eapply inv_delete; [done|done|exact Hs| |]; unfold is_stale in Hks.
  - intros k id Hk [_ Hle] Hseg. specialize (Hks k Hk). by rewrite (day_of_seg k id Hseg), Hle in Hks.
  - intros k t id Hk [Hg Hle] Ht ->. specialize (Hks _ Hk). by rewrite day_of_key, Hle in Hks.
Qed.

Lemma compact_bucket_keeps c close n w : c ∈ F -> Inv w -> tidy (tag c) (w (at_ c)) ->
  holds (fun w' => Inv w' /\ forall b, b ≠ at_ c -> w' b = w b)
    (fun r _ => forall R k, r.1 = Some R -> k ∈ R -> starts_with DAY_PREFIX k = true)
    (compact_bucket leases resolution c close retain n) w.
Proof.
  intros Hc HI Htidy. unfold compact_bucket. apply holds_adapter_list; [done|]. intros r [->|[e ->]]; [|by apply holds_ret].
  fold (listing (w (at_ c))). eapply seq_holds.
  { apply freeze_loop_keeps; [done|done| | |].
    - unfold in_seg_order. rewrite merge_sort_Permutation. apply NoDup_fst_map_to_list.
    - intros e He. by apply layout_ready.
    - split; intros x; cbn; [set_solver|]. rewrite elem_of_list_to_set, list_elem_of_filter. by intros []. }
  intros st w1 [HI1 Hb1] [Hst1 Hst2]. eapply seq_holds.
  { eapply holds_conseq; [| |apply (summarize_loop_keeps c _ _ w1); [done|done| |exact Hst2]].
    - intros w2 [? Hb2]. split; [done|]. intros b Hb. rewrite Hb2 by done. by apply Hb1.
    - intros R w2 _ HR. exact HR.
    - intros p. unfold in_day_order. rewrite merge_sort_Permutation, elem_of_elements, elem_of_difference, elem_of_union.
      intros [[Hp|Hp] _]; [by apply Hst1|by eapply backfill_clean]. }
  intros R w2 [HI2 Hb2] HR. case_bool_decide; [apply holds_ret; [done|]; by intros R' k [= <-] Hk; apply HR|].
  apply holds_delete; [apply HI2|done|]. intros r s Hs. apply holds_ret.
  - split; [|intros b Hb; rewrite fn_lookup_insert_ne by done; by apply Hb2].
    eapply retention_keeps; [done|done| |exact Hs]. intros k. rewrite list_elem_of_filter. by intros [].
  - intros R' k [= <-]. rewrite elem_of_difference. intros [Hk _]. by apply HR.
Qed.

(** ** The fleet *)

Lemma copies_mirror w c key bytes : Inv w -> c ∈ F -> contents (w (at_ c)) key = Some bytes -> copies w key bytes.
Proof. intros (_ & _ & Ha) Hc Hx a id Haf Hid ->. exact (Ha a c id bytes Haf Hc Hid Hx). Qed.

Lemma put_all_keeps dests key bytes : forall w, (forall m, m ∈ dests -> m.1 ∈ F) -> Inv w -> seg_id key = None -> copies w key bytes ->
  holds Inv (fun _ _ => True) (put_all dests key bytes) w.
Proof.
  induction dests as [|[c R] dests IH]; intros w Hm HI Hseg Hcopy; cbn [put_all]; [by apply holds_ret|].
  apply holds_call; [apply HI|done|]. intros r s Hs _.
  destruct (inv_copy w c key bytes r s HI) as [HI' Hcopy']; [by apply (Hm (c, R)), list_elem_of_here|done|done|done|].
  apply IH; [|done|done|done]. intros m Hin. apply Hm. by apply list_elem_of_further.
Qed.

Definition mesh_ok (mesh : list (Bucket * gset str)) : Prop :=
  forall m, m ∈ mesh -> m.1 ∈ F /\ forall k, k ∈ m.2 -> starts_with DAY_PREFIX k = true.

Lemma reseed_key_keeps mesh key w : mesh_ok mesh -> Inv w -> starts_with DAY_PREFIX key = true ->
  holds Inv (fun _ _ => True) (reseed_key leases mesh key) w.
Proof.
  intros Hm HI Hk. unfold reseed_key. case_bool_decide; [by apply holds_ret|].
  destruct (filter (fun m => key ∈ m.2) mesh) as [|source rest] eqn:Hsrc; [by apply holds_ret|].
  assert (source.1 ∈ F) as Hs.
  { apply Hm. assert (source ∈ filter (fun m => key ∈ m.2) mesh) as Hin by (rewrite Hsrc; apply list_elem_of_here).
    by apply list_elem_of_filter in Hin as []. }
  apply holds_adapter_get; [done|]. intros r [->|[e ->]]; [|by apply holds_ret].
  destruct (contents (w (at_ source.1)) key) as [bytes|] eqn:Hx; [|by apply holds_ret].
  apply put_all_keeps; [|done|by apply day_prefix_no_seg|by eapply copies_mirror].
  intros m [_ Hin]%list_elem_of_filter. by apply Hm.
Qed.

Lemma reseed_loop_keeps mesh keys : forall w, mesh_ok mesh -> Inv w -> (forall k, k ∈ keys -> starts_with DAY_PREFIX k = true) ->
  holds Inv (fun _ _ => True) (reseed_loop leases mesh keys) w.
Proof.
  induction keys as [|key keys IH]; intros w Hm HI Hk; cbn [reseed_loop]; [by apply holds_ret|].
  eapply seq_holds; [apply reseed_key_keeps; [done|done|apply Hk, list_elem_of_here]|].
  intros _ w' HI' _. apply IH; [done|done|]. intros k Hin. apply Hk. by apply list_elem_of_further.
Qed.

Lemma reseed_keeps mesh w : mesh_ok mesh -> Inv w -> holds Inv (fun _ _ => True) (reseed_rollups leases mesh retain) w.
Proof.
  intros Hm HI. unfold reseed_rollups. case_match; [by apply holds_ret|]. apply reseed_loop_keeps; [done|done|].
  intros k. rewrite elem_of_in_order, elem_of_filter. intros [_ Hu]. unfold mesh_union in Hu.
  apply elem_of_union_list in Hu as (R & (m & -> & Hin)%list_elem_of_fmap & Hk). by apply (Hm m).
Qed.

Lemma compact_loop_keeps close bs : forall done_ mesh n w, (forall c, c ∈ bs -> c ∈ F) -> Inv w -> mesh_ok mesh ->
  (forall c, c ∈ bs -> tag c ∉ done_ -> tidy (tag c) (w (at_ c))) ->
  holds Inv (fun r _ => mesh_ok r.1) (compact_loop leases resolution bs close retain done_ mesh n) w.
Proof.
  induction bs as [|c bs IH]; intros done_ mesh n w HbF HI Hmesh Htidy; cbn [compact_loop]; [by apply holds_ret|].
  assert (c ∈ F) as Hc by apply HbF, list_elem_of_here.
  assert (forall d, d ∈ bs -> d ∈ F) as HbF' by (intros d Hd; apply HbF; by apply list_elem_of_further).
  case_decide as Hd; [apply IH; auto; intros d Hin; apply Htidy; by apply list_elem_of_further|].
  apply holds_bind. eapply holds_conseq; [| |apply (compact_bucket_keeps c close n w Hc HI); apply Htidy; [apply list_elem_of_here|done]].
  { by intros w' []. }
  intros [o n'] w' [HI' Hb] HR. apply IH; [done|done| |].
  - destruct o as [R|]; [|done]. intros m [Hin| ->%list_elem_of_singleton]%elem_of_app; [by apply Hmesh|].
    cbn. split; [done|]. intros k. by apply (HR R k).
  - intros d Hin. rewrite not_elem_of_union, not_elem_of_singleton. intros [Hne Hnd].
    rewrite Hb; [apply Htidy; [by apply list_elem_of_further|done]|]. intros Heq. apply Hne. f_equal. apply HF; auto.
Qed.

Lemma compact_keeps store peers close : F = store :: peers -> Inv w0 -> (forall c, c ∈ F -> tidy (tag c) (w0 (at_ c))) ->
  holds Inv (fun _ _ => True) (compact leases resolution store peers close retain) w0.
Proof.
  intros HFs HI Htidy. unfold compact. rewrite <- HFs. eapply seq_holds.
  { apply compact_loop_keeps; [done|done| |by intros c Hc _; apply Htidy]. intros m Hm. by apply not_elem_of_nil in Hm. }
  intros r w HIw Hmesh. eapply seq_holds; [by apply reseed_keeps|]. intros _ w' HI' _. by apply holds_ret.
Qed.
End fleet.

(** C37: A rollup pass of the leader over the whole fleet changes no count: at
    every moment of it, whichever operations fail, land without an answer or are
    half done, and wherever it is interrupted, every bucket still tells the same
    counts for each day-shard within retention, read as its own rollup or else
    the sum of its segments. *)
Theorem compact_keeps_counts {E : Etags} {CS : Codec Segment} {CD : Codec DaySummary} leases resolution store peers close retain w0 :
  fleet_ok (store :: peers) -> wf_world w0 ->
  (forall c, c ∈ store :: peers -> tidy (tag c) (w0 (at_ c))) -> mirrors_agree (store :: peers) retain w0 ->
  holds (fun w => forall c id, c ∈ store :: peers -> kept retain id ->
           own_total (tag c) (w (at_ c)) id = own_total (tag c) (w0 (at_ c)) id)
        (fun _ _ => True) (compact leases resolution store peers close retain) w0.
Proof.
  intros HF Hw Htidy Hagree. eapply holds_conseq; [| |eapply (compact_keeps _ _ (store :: peers)); [exact HF|done| |done]].
  - intros w (_ & Hsame & _). exact Hsame.
  - done.
  - split_and!; [done|by intros c id _ _|done].
Qed.

(** ** Reading the fleet *)

Definition count_at (m : BucketMap) (time key : str) : N := default 0%N (default ∅ (m !! time) !! key).

Lemma add_all l : forall (acc : gmap str N) k, NoDup l.*1 ->
  default 0%N (foldl add_to acc l !! k) = (default 0 (acc !! k) + default 0 ((list_to_map l : gmap str N) !! k))%N.
Proof.
  induction l as [|[x n] l IH]; intros acc k; cbn; [rewrite lookup_empty; cbn; lia|]. intros [Hx Hl]%NoDup_cons.
  rewrite IH by done. unfold add_to. cbn. destruct (decide (x = k)) as [->|Hne].
  - rewrite !lookup_insert_eq. cbn. rewrite (not_elem_of_list_to_map_1 l k) by done. cbn. lia.
  - by rewrite !lookup_insert_ne.
Qed.

Lemma list_to_map_by_key {V} (m : gmap str V) : list_to_map (by_key m) = m.
Proof.
  rewrite <- (list_to_map_to_list m) at 2. apply list_to_map_proper; [|by rewrite by_key_perm].
  apply by_key_sorted.
Qed.

Lemma merge_buckets_count l time key : forall acc, NoDup l.*1 ->
  count_at (foldl merge_bucket acc l) time key = (count_at acc time key + count_at (list_to_map l) time key)%N.
Proof.
  induction l as [|[x leaf] l IH]; intros acc; cbn; [unfold count_at; rewrite lookup_empty; cbn; rewrite lookup_empty; cbn; lia|].
  intros [Hx Hl]%NoDup_cons. rewrite IH by done. unfold count_at, merge_bucket. cbn. destruct (decide (x = time)) as [->|Hne].
  - rewrite !lookup_insert_eq. cbn. rewrite (not_elem_of_list_to_map_1 l time) by done. cbn. rewrite lookup_empty. cbn.
    rewrite add_all by apply by_key_sorted. rewrite list_to_map_by_key. lia.
  - by rewrite !lookup_insert_ne.
Qed.

Lemma merge_count acc src time key :
  count_at (merge_bucketmap acc src) time key = (count_at acc time key + count_at src time key)%N.
Proof.
  unfold merge_bucketmap. rewrite merge_buckets_count by apply by_key_sorted. by rewrite list_to_map_by_key.
Qed.

Definition seg_prefix (id : SegId) : str := SEG_PREFIX ++ id.1.1 ++ &"/" ++ id.1.2 ++ &"/" ++ id.2 ++ &"/".

Lemma split_head c s p q r : split c s = p :: q :: r -> exists t, s = p ++ c :: t.
Proof.
  revert p. induction s as [|d s IH]; intros p; cbn [split]; [done|]. case_decide as Hd.
  - intros [= <- _]. exists s. by subst.
  - destruct (split c s) as [|p' ps] eqn:Hs; [done|]. intros [= <- ->]. destruct (IH p' eq_refl) as [t ->]. by exists t.
Qed.

Lemma seg_id_seg_prefix k id : seg_id k = Some id -> starts_with SEG_PREFIX k = true.
Proof.
  unfold seg_id, key_parts. intros Hk. destruct (strip_prefix PREFIX k) as [rest|] eqn:Hr; [|done]. cbn in Hk.
  apply strip_prefix_Some in Hr as ->. destruct (split "/"%char rest) as [|kind [|m [|d [|sh [|f [|]]]]]] eqn:Hs; try done.
  case_bool_decide as Hkind; [|done]. subst kind. destruct (split_head _ _ _ _ _ Hs) as [t ->].
  apply starts_with_true. by exists t.
Qed.

Lemma seg_prefix_parts id rest : good_id id -> key_parts (seg_prefix id ++ rest)
  = Some (&"seg" :: id.1.1 :: id.1.2 :: id.2 :: split "/"%char rest).
Proof.
  intros (Hm & Hd & c & Hc & Hb). unfold key_parts, seg_prefix. change SEG_PREFIX with (PREFIX ++ &"seg" ++ &"/").
  rewrite <- !app_assoc, strip_prefix_app. cbn [fmap option_fmap option_map]. f_equal. change (&"/") with ["/"%char]. cbn [app].
  rewrite !split_app_sep; try done.
  - rewrite Hc, list_elem_of_singleton. destruct (shard_byte_facts c Hb). congruence.
  - rewrite list_elem_of_In. cbn. naive_solver.
Qed.

Lemma seg_id_file id file : good_id id -> "/"%char ∉ file -> seg_id (seg_prefix id ++ file) = Some id.
Proof.
  intros Hid Hf. unfold seg_id. rewrite seg_prefix_parts, split_no_sep by done. rewrite bool_decide_true by done.
  destruct id as [[m d] sh], Hid as (_ & _ & c & Hc & Hb). cbn [fst snd] in *. subst sh.
  rewrite first_char_ascii; [done|]. by destruct (shard_byte_facts c Hb) as (_ & _ & ?).
Qed.

(** Under [seg/] there are only segments. *)
Definition flat (s : store) : Prop := forall k, present s k -> starts_with SEG_PREFIX k = true ->
  exists id file, good_id id /\ ("/"%char ∉ file) /\ k = seg_prefix id ++ file.

Lemma prefix_listing {E : Etags} s id : flat s -> good_id id ->
  (list_where (starts_with (seg_prefix id)) s).*1 = filter (fun k => seg_id k = Some id) (listing s).
Proof.
  intros Hflat Hid. apply sorted_unique.
  - apply sorted_fst, listing_sorted.
  - apply sorted_filter, sorted_fst, listing_sorted.
  - apply listing_NoDup.
  - apply NoDup_filter, listing_NoDup.
  - intros k. rewrite list_elem_of_filter, elem_of_listing, list_elem_of_fmap. split.
    + intros ([k' o] & -> & [Hp Ho]%elem_of_list_where). cbn [fst snd] in *.
      assert (present s k') as Hpres by (unfold present, contents; rewrite Ho; eauto).
      apply starts_with_true in Hp as [rest ->].
      destruct (Hflat _ Hpres) as (id' & file & Hid' & Hf & Heq).
      { apply starts_with_true. eexists. unfold seg_prefix. by rewrite <- app_assoc. }
      pose proof (seg_prefix_parts id rest Hid) as P1. rewrite Heq, seg_prefix_parts, split_no_sep in P1 by done.
      destruct id as [[m d] sh], id' as [[m' d'] sh']. cbn in P1. injection P1 as -> -> -> Hrest. rewrite Heq in *.
      pose proof (seg_id_file _ file Hid Hf) as Hseg. split_and!; [done|by eapply seg_id_prefix|done].
    + intros (Hseg & _ & Hp). destruct (Hflat k Hp (seg_id_seg_prefix k id Hseg)) as (id' & file & Hid' & Hf & ->).
      rewrite seg_id_file in Hseg by done. injection Hseg as ->.
      destruct Hp as [x Hx]. apply fmap_Some in Hx as (o & Ho & _). exists (seg_prefix id ++ file, o). split; [done|].
      rewrite elem_of_list_where. split; [|done]. apply starts_with_true. by eexists.
Qed.

Lemma tag_unique (S : list Bucket) c d : NoDup (tag <$> S) -> c ∈ S -> d ∈ S -> tag c = tag d -> c = d.
Proof.
  induction S as [|x S IH]; [by intros _ ?%not_elem_of_nil|]. cbn. intros [Hx Hn]%NoDup_cons Hc Hd Heq.
  apply elem_of_cons in Hc as [->|Hc], Hd as [->|Hd]; [done| | |by apply IH];
    destruct Hx; [rewrite Heq|rewrite <- Heq]; by apply list_elem_of_fmap_2.
Qed.

Section reading.
Context {E : Etags} {CS : Codec Segment} (leases : bool) (v : env).

Lemma adapter_get_run w b key : run v w (get leases b key) = (w, Ok (contents (w (at_ b)) key)).
Proof.
  unfold get, pbind_ok. destruct leases; rewrite run_bind, run_call; cbn [op_run fst snd]; rewrite fn_insert_id; unfold contents;
    by destruct (objects (w (at_ b)) !! key).
Qed.

Lemma adapter_list_run w b prefix : run v w (list_ b prefix) = (w, Ok (list_where (starts_with prefix) (w (at_ b))).*1).
Proof.
  unfold list_, pbind_ok. rewrite run_bind, run_call. cbn [op_run fst snd]. rewrite fn_insert_id. cbn [run].
  unfold list_all. by rewrite <- list_fmap_compose.
Qed.

Lemma sum_segments_run w b l : forall acc, run v w (sum_segments leases b l acc) = (w, Some (sum_keys (w (at_ b)) l acc)).
Proof.
  induction l as [|k l IH]; intros acc; cbn [sum_segments]; [done|]. rewrite run_bind, adapter_get_run. cbn [fst snd].
  cbn [sum_keys foldl]. destruct (contents (w (at_ b)) k); by rewrite IH.
Qed.

Section day_shard.
Context (w : world) (primary : Bucket) (id : SegId) (time key : str) (Hid : good_id id).

(** What the bucket's rollup adds, and what its segments add where it has none. *)
Definition frozen_share (c : Bucket) : N :=
  match contents (w (at_ c)) (rollup_key (tag c) id) with
  | Some bytes => count_at (seg_buckets (read_segment bytes)) time key
  | None => 0%N
  end.
Definition is_frozen (c : Bucket) : Prop := is_Some (contents (w (at_ c)) (rollup_key (tag c) id)).
Definition open_share (c : Bucket) : N :=
  match contents (w (at_ c)) (rollup_key (tag c) id) with
  | Some _ => 0%N
  | None => count_at (own_total (tag c) (w (at_ c)) id) time key
  end.

Definition sum_of (f : Bucket -> N) (S : list Bucket) : N := foldr (fun c n => (f c + n)%N) 0%N S.

Lemma shares c : count_at (own_total (tag c) (w (at_ c)) id) time key = (frozen_share c + open_share c)%N.
Proof.
  unfold frozen_share, open_share. destruct (contents _ _) eqn:Hx; [|lia]. unfold own_total. rewrite Hx. lia.
Qed.

Lemma read_frozen_run S : forall acc seen,
  (forall c, c ∈ S -> contents (w (at_ primary)) (rollup_key (tag c) id) = contents (w (at_ c)) (rollup_key (tag c) id)) ->
  exists acc' seen', run v w (read_frozen leases primary (tag <$> S) id.1.1 id.1.2 id.2 acc seen) = (w, (acc', seen'))
    /\ count_at acc' time key = (count_at acc time key + sum_of frozen_share S)%N
    /\ (forall t, t ∈ seen' <-> t ∈ seen \/ exists c, c ∈ S /\ t = tag c /\ is_frozen c).
Proof.
  induction S as [|c S IH]; intros acc seen Hmir; cbn [read_frozen fmap list_fmap].
  { exists acc, seen. cbn. split_and!; [done|lia|]. intros t. split; [auto|]. intros [?|(c & Hc & _)]; [done|].
    by apply not_elem_of_nil in Hc. }
  assert (forall d, d ∈ S -> contents (w (at_ primary)) (rollup_key (tag d) id) = contents (w (at_ d)) (rollup_key (tag d) id)) as Hmir'
    by (intros d Hd; apply Hmir; by apply list_elem_of_further).
  rewrite run_bind, adapter_get_run. cbn [fst snd]. change (frozen_key id.1.1 id.1.2 id.2 (tag c)) with (rollup_key (tag c) id).
  rewrite (Hmir c) by apply list_elem_of_here. cbn [sum_of foldr]. unfold frozen_share at 1.
  destruct (contents (w (at_ c)) (rollup_key (tag c) id)) as [bytes|] eqn:Hx.
  - destruct (IH (merge_bucketmap acc (seg_buckets (read_segment bytes))) ({[tag c]} ∪ seen) Hmir') as (acc' & seen' & Hrun & Hc & Hs).
    exists acc', seen'. split; [exact Hrun|]. split; [rewrite Hc, merge_count; unfold sum_of; lia|].
    intros t. rewrite Hs, elem_of_union, elem_of_singleton. setoid_rewrite elem_of_cons. unfold is_frozen. split.
    + intros [[->|?]|(d & ? & ? & ?)]; [right; exists c; rewrite Hx; eauto|auto|right; exists d; auto].
    + intros [?|(d & [->|?] & -> & ?)]; [auto|auto|right; eauto].
  - destruct (IH acc seen Hmir') as (acc' & seen' & Hrun & Hc & Hs). exists acc', seen'. split; [exact Hrun|].
    split; [rewrite Hc; unfold sum_of; lia|]. intros t. rewrite Hs. setoid_rewrite elem_of_cons. unfold is_frozen. split.
    + intros [?|(d & ? & ? & ?)]; [auto|right; exists d; auto].
    + intros [?|(d & [->|?] & -> & Hf)]; [auto| |right; eauto]. rewrite Hx in Hf. by destruct Hf.
Qed.

Lemma read_open_run S frozen : forall seen acc any, NoDup (tag <$> S) -> (forall c, c ∈ S -> tag c ∉ seen) ->
  (forall c, c ∈ S -> (tag c ∈ frozen <-> is_frozen c)) -> (forall c, c ∈ S -> flat (w (at_ c))) ->
  exists acc' any', run v w (read_open leases S (seg_prefix id) frozen seen acc any) = (w, (acc', any'))
    /\ count_at acc' time key = (count_at acc time key + sum_of open_share S)%N
    /\ (any' = false -> any = false /\ sum_of open_share S = 0%N).
Proof.
  induction S as [|c S IH]; intros seen acc any Hnd Hseen Hfro Hflat; cbn [read_open].
  { exists acc, any. cbn. split_and!; [done|lia|done]. }
  cbn [fmap list_fmap] in Hnd. apply NoDup_cons in Hnd as [Hni Hnd].
  pose proof (list_elem_of_here c S) as Hc. specialize (Hseen c Hc) as Hsc.
  assert (forall (P : Bucket -> Prop), (forall d, d ∈ c :: S -> P d) -> forall d, d ∈ S -> P d) as Htail
    by (intros P HP d Hd; apply HP; by apply list_elem_of_further).
  assert (forall d, d ∈ S -> tag d ∉ {[tag c]} ∪ seen) as Hseen'.
  { intros d Hd. rewrite not_elem_of_union, not_elem_of_singleton. split; [|by apply (Htail (fun d => tag d ∉ seen))].
    intros Heq. apply Hni. rewrite <- Heq. by apply list_elem_of_fmap_2. }
  change (sum_of open_share (c :: S)) with (open_share c + sum_of open_share S)%N.
  case_decide as Hf.
  { apply (Hfro c Hc) in Hf. unfold is_frozen in Hf. unfold open_share at 1 3. destruct Hf as [x ->].
    destruct (IH seen acc any Hnd) as (acc' & any' & Hrun & Hct & Hany); [by apply (Htail (fun d => tag d ∉ seen))|
      by apply (Htail (fun d => tag d ∈ frozen <-> is_frozen d))|by apply (Htail (fun d => flat (w (at_ d))))|].
    exists acc', any'. split; [exact Hrun|]. split; [lia|]. intros Ha. destruct (Hany Ha). split; [done|lia]. }
  rewrite decide_False by done.
  assert (contents (w (at_ c)) (rollup_key (tag c) id) = None) as Hnone.
  { apply eq_None_not_Some. intros Hx. apply Hf, Hfro; done. }
  rewrite run_bind, adapter_list_run. cbn [fst snd].
  pose proof (sum_listed (tag c) (w (at_ c)) id Hnone) as Hsum. rewrite <- prefix_listing in Hsum by auto.
  unfold open_share at 1 3. rewrite Hnone, <- Hsum.
  destruct ((list_where (starts_with (seg_prefix id)) (w (at_ c))).*1) as [|k l].
  { destruct (IH ({[tag c]} ∪ seen) acc any Hnd Hseen') as (acc' & any' & Hrun & Hct & Hany);
      [by apply (Htail (fun d => tag d ∈ frozen <-> is_frozen d))|by apply (Htail (fun d => flat (w (at_ d))))|].
    exists acc', any'. split; [exact Hrun|]. change (count_at (sum_keys (w (at_ c)) [] ∅) time key) with 0%N.
    split; [lia|]. intros Ha. destruct (Hany Ha). split; [done|lia]. }
  rewrite run_bind, sum_segments_run. cbn [fst snd].
  destruct (IH ({[tag c]} ∪ seen) (merge_bucketmap acc (sum_keys (w (at_ c)) (k :: l) ∅)) true Hnd Hseen') as (acc' & any' & Hrun & Hct & Hany);
    [by apply (Htail (fun d => tag d ∈ frozen <-> is_frozen d))|by apply (Htail (fun d => flat (w (at_ d))))|].
  exists acc', any'. split; [exact Hrun|]. split; [rewrite Hct, merge_count; lia|]. intros Ha. by destruct (Hany Ha).
Qed.

Lemma sum_of_plus (f g h : Bucket -> N) S : (forall c, c ∈ S -> f c = (g c + h c)%N) -> sum_of f S = (sum_of g S + sum_of h S)%N.
Proof.
  induction S as [|c S IH]; intros Heq; [done|]. cbn. rewrite (Heq c) by apply list_elem_of_here.
  unfold sum_of in IH. rewrite IH; [lia|]. intros d Hd. apply Heq. by apply list_elem_of_further.
Qed.

Lemma sum_of_zero (f : Bucket -> N) S : (forall c, c ∈ S -> f c = 0%N) -> sum_of f S = 0%N.
Proof.
  induction S as [|c S IH]; intros Heq; [done|]. cbn. rewrite (Heq c) by apply list_elem_of_here.
  apply IH. intros d Hd. apply Heq. by apply list_elem_of_further.
Qed.
End day_shard.
End reading.

(** C38: A query of a day-shard, when the fleet answers and the rollups have
    been mirrored to the pinned bucket, counts every download exactly once: each
    time bucket and key gets the sum over the buckets of what each tells, its
    rollup where it froze the day-shard and its live segments where it did not. *)
Theorem day_shard_counts_once {E : Etags} {CS : Codec Segment} leases v w primary peers id time key :
  good_id id -> NoDup (tag <$> primary :: peers) ->
  (forall c, c ∈ primary :: peers -> flat (w (at_ c))) ->
  (forall c, c ∈ primary :: peers ->
    contents (w (at_ primary)) (rollup_key (tag c) id) = contents (w (at_ c)) (rollup_key (tag c) id)) ->
  exists r, run v w (read_day_shard leases primary peers (tag <$> primary :: peers) id.1.1 id.1.2 id.2) = (w, r)
  /\ count_at (default ∅ r) time key
     = sum_of (fun c => count_at (own_total (tag c) (w (at_ c)) id) time key) (primary :: peers).
Proof.
  intros Hid Hnd Hflat Hmir. unfold read_day_shard. set (S := primary :: peers) in *.
  destruct (read_frozen_run leases v w primary id time key S ∅ ∅ Hmir) as (acc & seen & Hrun & Hct & Hseen).
  rewrite run_bind, Hrun. cbn [fst snd]. rewrite run_bind.
  change (SEG_PREFIX ++ id.1.1 ++ &"/" ++ id.1.2 ++ &"/" ++ id.2 ++ &"/") with (seg_prefix id).
  destruct (read_open_run leases v w id time key Hid S seen ∅ acc (negb (bool_decide (seen = ∅))) Hnd)
    as (acc' & any & Hrun' & Hct' & Hany); [set_solver| |done|].
  { intros c Hc. rewrite Hseen. split; [|eauto]. intros [?|(d & Hd & Heq & Hf)]; [set_solver|].
    assert (c = d) as ->; [|done]. by eapply tag_unique. }
  rewrite Hrun'. cbn [run fst snd]. eexists. split; [reflexivity|].
  rewrite (sum_of_plus _ (frozen_share w id time key) (open_share w id time key) S) by (intros; apply shares).
  destruct any.
  { change (default ∅ (Some acc')) with acc'. by rewrite Hct', Hct. }
  destruct (Hany eq_refl) as [Hs Hz]. rewrite Hz. apply negb_false_iff, bool_decide_eq_true in Hs.
  rewrite sum_of_zero; [done|]. intros c Hc. unfold frozen_share. destruct (contents _ _) eqn:Hx; [|done].
  assert (tag c ∈ seen) as Hin; [|set_solver]. apply Hseen. right. exists c. unfold is_frozen. rewrite Hx. eauto.
Qed.

(** ** A fleet to evaluate with *)

#[global] Instance Segment_eq_dec : EqDecision Segment.
Proof. solve_decision. Defined.
#[global] Instance Segment_countable : Countable Segment.
Proof. apply (inj_countable' (fun s => (seg_resolution s, seg_buckets s)) (fun p => MkSegment p.1 p.2)). by intros []. Defined.
#[global] Instance DaySummary_eq_dec : EqDecision DaySummary.
Proof. solve_decision. Defined.
#[global] Instance DaySummary_countable : Countable DaySummary.
Proof. apply (inj_countable' (fun s => (total s, top s)) (fun p => MkSummary p.1 p.2)). by intros []. Defined.
Definition demo_segments : Codec Segment := countable_codec.
Definition demo_summaries : Codec DaySummary := countable_codec.

Definition demo_id : SegId := (&"downloads", &"2026-01-01", &"a").
Definition demo_file (n : N) : str := @encode _ demo_segments (MkSegment 86400 {[&"00:00" := {[&"app/app-1.whl" := n]}]}).
Definition demo_store (n : N) : store :=
  (@write content_etags example_env (MkStore ∅ 0) (seg_prefix demo_id ++ &"1-0.json") (demo_file n)).1.
(** Three downloads flushed to the first bucket, four to the others. *)
Definition demo_world : world := fun b => demo_store (if decide (b = 0%nat) then 3 else 4).
Definition east : Bucket := MkBucket 0 (&"east").
Definition west : Bucket := MkBucket 1 (&"west").

Lemma demo_present n k : present (demo_store n) k -> k = seg_prefix demo_id ++ &"1-0.json".
Proof.
  unfold present, demo_store. rewrite contents_write. case_decide as Hk; [done|]. unfold contents. cbn [objects].
  rewrite lookup_empty. by intros [].
Qed.

Lemma demo_id_good : good_id demo_id.
Proof.
  split_and!; try (rewrite list_elem_of_In; cbn; naive_solver). by exists "a"%char.
Qed.

Lemma demo_wf : @wf_world content_etags demo_world.
Proof. intros b. apply wf_write. intros k o. cbn. rewrite lookup_empty. done. Qed.

Lemma demo_fleet : fleet_ok [east; west].
Proof.
  split.
  - intros a c. rewrite !elem_of_cons. intros [->|[->|Ha%not_elem_of_nil]] [->|[->|Hb%not_elem_of_nil]] [Heq|Heq]; done.
  - intros a. rewrite !elem_of_cons. intros [->|[->|?%not_elem_of_nil]]; [| |done];
      (split_and!; [done| |]; rewrite list_elem_of_In; cbn; naive_solver).
Qed.

Lemma demo_tidy c n : tidy (tag c) (demo_store n).
Proof.
  intros k ->%demo_present. split; intros id.
  - rewrite seg_id_file by (apply demo_id_good || (rewrite list_elem_of_In; cbn; naive_solver)). intros [= <-]. by exists "a"%char.
  - unfold rollup_id. rewrite seg_prefix_parts by apply demo_id_good. done.
Qed.

Lemma demo_no_rollup t id n : good_id id -> good_tag t -> contents (demo_store n) (rollup_key t id) = None.
Proof.
  intros Hid Ht. apply eq_None_not_Some. intros Hk%demo_present.
  assert (seg_id (rollup_key t id) = Some demo_id) as Hs.
  { rewrite Hk. apply seg_id_file; [apply demo_id_good|rewrite list_elem_of_In; cbn; naive_solver]. }
  by rewrite seg_id_key in Hs.
Qed.

(** One pass that meets no fault: the segments of both buckets are gone, their
    rollups stand in both, and each still tells its own count. *)
Lemma compact_keeps_counts_witness :
  let pass := @compact demo_segments demo_summaries true 86400 east [west] (&"2026-01-05") (&"2025-10-01") in
  let w := (@run content_etags _ example_env demo_world pass).1 in
  contents (w 0%nat) (seg_prefix demo_id ++ &"1-0.json") = None
  /\ bool_decide (present (w 1%nat) (rollup_key (&"east") demo_id)) = true
  /\ @own_total demo_segments (&"east") (w 0%nat) demo_id = @own_total demo_segments (&"east") (demo_world 0%nat) demo_id.
Proof.
  intros pass w. split; [vm_compute; reflexivity|]. split; [vm_compute; reflexivity|].
  pose proof (@compact_keeps_counts content_etags demo_segments demo_summaries true 86400 east [west] (&"2026-01-05") (&"2025-10-01")
    demo_world demo_fleet demo_wf) as Hkeep.
  eapply holds_exec with (Q := fun _ w => @own_total demo_segments (&"east") (w 0%nat) demo_id
    = @own_total demo_segments (&"east") (demo_world 0%nat) demo_id); [|apply exec_run, example_env_good].
  eapply holds_conseq; [| |apply Hkeep].
  - intros w' H'. exact H'.
  - intros n w' H' _. apply (H' east demo_id); [apply list_elem_of_here|]. split; [apply demo_id_good|vm_compute; reflexivity].
  - intros c _. apply demo_tidy.
  - intros a c id x Ha _ [Hg _]. unfold demo_world. by rewrite demo_no_rollup by (done || by apply demo_fleet).
Defined.

(** Read before any pass: three and four. *)
Lemma day_shard_counts_once_witness :
  exists r, (@run content_etags _ example_env demo_world
    (@read_day_shard demo_segments true east [west] [&"east"; &"west"] (&"downloads") (&"2026-01-01") (&"a"))).2 = r
  /\ count_at (default ∅ r) (&"00:00") (&"app/app-1.whl") = 7%N.
Proof.
  destruct (@day_shard_counts_once content_etags demo_segments true example_env demo_world east [west] demo_id (&"00:00") (&"app/app-1.whl"))
    as (r & Hr & Hc).
  - apply demo_id_good.
  - apply (bool_decide_eq_true_1 _). vm_compute. reflexivity.
  - unfold flat, demo_world. intros c _ k Hk _. apply demo_present in Hk. exists demo_id, (&"1-0.json"). split; [apply demo_id_good|]. split; [|done].
    rewrite list_elem_of_In. cbn. naive_solver.
  - intros c Hc. unfold demo_world. by rewrite !demo_no_rollup by (apply demo_id_good || by apply demo_fleet).
  - exists r. split; [|rewrite Hc; vm_compute; reflexivity].
    change (&"downloads") with demo_id.1.1. change (&"2026-01-01") with demo_id.1.2. change (&"a") with demo_id.2.
    change [&"east"; &"west"] with (tag <$> [east; west]). by rewrite Hr.
Defined.
End Freeze.
